(* ===== verification/_CoqProject ===== *)
-Q . S2P
Prelude.v
CString.v
Defs.v
Config.v
Jsmn.v
JsmnBuild.v
JsmnTest.v
JsmnSpec.v
JsmnBuildSpec.v
JsmnTree.v
JsmnRoundtrip.v
JsmnResume.v
JsmnPrint.v
Jsondump.v
JsondumpSpec.v
JsmnSimple.v
ArrayQueue.v
ArrayQueueThreads.v
Deque.v
Slot.v
SlotThreads.v
SlotFuture.v
SlotProgress.v
Shm.v
ShmInv.v
ShmSpec.v
Orphans.v
Collector.v
Ledger.v
CIf.v
CIfSpec.v
RaftTest.v
FsmWorker.v
FsmSpec.v
System.v
SystemSpec.v
SystemCalls.v
SystemLive.v
SystemFair.v
SystemCollect.v
SystemApi.v
Process.v
Client.v
ClientOpts.v
ClientSpec.v
RaftProcTest.v
ClientMain.v
