(* ===== verification/Prelude.v ===== *)
(** * A verification development for libraft

    libraft lets a C or C++ program use the Raft implementation of a Go process.
    The program (the client) creates a segment of shared memory, starts the Raft
    process on it, and from then on both talk through the segment: the client
    puts requests on one bounded queue (api_queue), the Raft process puts
    requests for the state machine of the client on another (fsm_queue), and the
    answer to a request is written into its call slot, which has a mutex, a
    condition variable and a state.  The Go side is not in the repository; it
    appears as the steps of other threads.

    ** The parts and their files

    - Prelude.v: machine integers, the monad of computations ([res]: a result,
      a C++ exception, a fault, or being left waiting), rules for invariants of
      computations, labelled runs and simulations, counting, tactics.
    - CString.v: what the sources use of the C library on strings and numbers.
    - Defs.v: the enumerations and call tables (raft_defs.h, raft_shm.h,
      raft_api_calls.h, raft_fsm_calls.h), [tag_name], [raft_err_msg].
    - Config.v: [RaftConfig], the options and their parsing (config.cc).
    - Jsmn.v, JsmnSpec.v: the JSON tokenizer (zserge-jsmn/jsmn.c) as the library
      builds it, and [raft_print_stats] (raft_c_if.cc).  JsmnBuild.v has the
      tokenizer with the code that [JSMN_STRICT] and [JSMN_PARENT_LINKS] select
      (the record [build]), and that without them it is the one of Jsmn.v;
      JsmnBuildSpec.v is about all four builds.  JsmnTree.v has JSON texts as
      trees, with white space and escapes, and their tokens and parents;
      JsmnRoundtrip.v parses them back; JsmnResume.v is about calls that run out
      of tokens and are repeated; JsmnPrint.v is about the printer.
    - JsmnTest.v, RaftTest.v, RaftProcTest.v: jsmn_test.c, test.cc and
      raft_shm_test.cc, evaluated on the model; the Raft process answers as the
      tests expect of it.
    - Jsondump.v, JsondumpSpec.v, JsmnSimple.v: the example programs of the
      tokenizer, jsondump.c and simple.c; memory is the record [Heap].
    - ArrayQueue.v, ArrayQueueThreads.v: [ArrayBlockingQueue] of queue.h, as a
      sequential structure and under arbitrary interleavings of threads, with
      condition variables and spurious wakeups.
    - Deque.v: [Deque] of queue.h, in the same way.
    - Slot.v: one call slot and its timings (raft_shm.h, raft_shm.cc), with its
      methods as single actions.  SlotThreads.v has them as sequences of accesses
      to the fields, the mutex and the condition variable, made by the FSM worker
      (or the Raft process), by clients and by the collector in any order: [wstep],
      [cstep] and [gstep] are a step of each of them, [do_move] a move of the
      scheduler.  SlotFuture.v shows that this is a future, SlotProgress.v that
      nobody waits in vain and which accesses race.
    - Shm.v, ShmInv.v, ShmSpec.v: the segment: buffers, slots by address,
      counters (stats.h), the scoreboard, requests, waiting, disposal.  The
      memory of boost::interprocess is the class [Segment]: a range of addresses
      and allocators that return fresh addresses in it.
    - Orphans.v: the collector of calls whose future the client has given up.
    - CIf.v, CIfSpec.v: the functions of raft_c_if.cc for clients.
    - FsmWorker.v, FsmSpec.v: the thread that runs the client's state machine
      and the thread that writes snapshots (raft_c_if.cc).
    - Collector.v: the loop of the collector in small steps, and that a whole
      round is a run of them.
    - Ledger.v, System.v, SystemSpec.v, SystemCalls.v, SystemLive.v,
      SystemFair.v, SystemCollect.v, SystemApi.v: clients, collector, Raft
      process and worker together on one segment, whose queues may be closed at
      any time.  [sys_step] is built from
      the operations of the other files, cut where a thread lets others run; the
      lemmas named [_split] say that the pieces make up the functions of the
      sources.  The exceptions of the shutdown are steps too: what they leave
      behind is in the lists [lost] and [leaked].  SystemCalls.v is about the
      calls that will never be answered or freed, SystemLive.v about all the
      others while nothing is closed; SystemFair.v and SystemCollect.v are
      about infinite runs, which are functions from [nat], and have the rules for
      weak and strong fairness that they use (Module [Fair]).
    - Process.v: [raft_init], [shm_init], [run_raft], the watcher of the Raft
      process, [raft_cleanup] (raft_shm.cc, raft_c_if.cc); what the operating
      system and zlog answer is the record [OS], and where the threads are in
      their loops when they are joined is the record [places].
    - Client.v, ClientOpts.v, ClientSpec.v, ClientMain.v: the example program
      raft_client.c, from its state machine to [main]; [malloc] is the class
      [Malloc], files are the record [IO].

    ** State and effects

    A function of the sources that changes state is a computation [M W A] on the
    record [W] of the state that its component sees: [world] (the segment and
    the static variables next to it), [fworld] (with the snapshot queue and the
    state of the client), [proc] (with the threads and the mapping).  Functions
    on a smaller state are lifted with [zoom].  A null pointer is 0; an access
    to memory that is not there, a failed assertion, [abort] and [exit] are
    values of [fault]; a queue that is closed throws.  The other threads and the
    Raft process act at the points where a function waits: [sched] is the list
    of what they will still do, and a theorem about waiting is about every such
    list in which the awaited thing happens.  The two queues and the call slot are
    also studied at a finer grain, with a step relation for several threads,
    because there the order of the accesses matters; accesses are atomic and take
    place in one order, which [slot_race_free] justifies for the plain fields of a
    call with one client.  A client function that a thread calls is a parameter (the records [RaftFSM] and [Host]).

    ** What is proved

    - Queues: every interleaving on either queue is a run of an abstract FIFO
      with a closed flag; mutual exclusion, bounds and the absence of overflow;
      no lost wakeup while the bounded queue is open; a single consumer of the
      deque sleeps only on an empty deque, and nobody sleeps on a closed one.
    - Slots and segment: a slot's state, error and client state stay consistent,
      an answer is final; the counters balance the allocations in every history.
      Access by access, a slot is a future that is answered once and freed once;
      no thread uses it after that (but for the last unlock of the collector), a
      single waiter is always woken, and a single client that reads the answer
      after a wait or a successful poll does not race.
    - Collector: an abandoned call and its buffer are owned exactly once, the
      collector frees them exactly when the answer is there, and drains.  The
      unlock of a slot that it has just freed, a write to freed memory, is kept in
      the list [stale_unlocks], and the theorems say that there is exactly one for
      each slot that it frees and no other.
    - The whole system, by invariants over [sys_step], shutdown included: every
      live slot has one owner and every call without an answer is in one place,
      where [lost] and [leaked] count as places and are empty until the queue of
      the worker or the deque is closed; what a part holds is live and it fails no
      assertion with it, the worker included for any client code that does not
      crash; what is lost or leaked stays in the segment.  Before anything is
      closed, a call can still be answered if and only if it is not a log entry
      other than a command, and the system can go on until all other calls are
      answered and all other slots are free.  Every infinite run that is fair to
      the threads does it until a queue is closed: no call starves, and no orphan
      with its answer is forgotten while the collector runs.  After a close there
      is no such theorem: requests in a closed queue are not answered, and a
      thread that missed the close may sleep for ever.
    - Interface: results and errors of requests, waits, commands and options on
      every branch.
    - FSM side: the worker refines the replay of a log by the client's state
      machine; restores and snapshots are answered with their outcome.  With the
      client of raft_client.c: every caller gets its running count, and a
      snapshot restores the state in which it was requested.
    - Processes: start, verdict of the watcher, the end with the collector
      anywhere in its loop, and the end that does not come since the FSM worker
      missed the close of its queue; exit status 0 of the example means a complete
      run.
    - JSON: the tokenizer is total, its tokens are parts of the input, and it
      leaves its array only on a comma after a complete text.  The text of every
      JSON value is parsed into exactly the tokens of the value, with any
      nesting, white space and escapes; a call that runs out of tokens and is
      repeated with a larger array leaves what one call with room leaves, but
      returns only the number of its own tokens; a call that only counts agrees
      with one that has room.  The first two hold for all four builds: the strict
      ones accept the same values inside of containers, and the parent links are
      the tree.  jsondump prints the rendering of every document that
      fits its buffer and comes in one read, however often it has to enlarge its
      array; [raft_print_stats] prints a flat object of
      strings as it was sent.

    Where the code does not do what it means to, a theorem says what it does;
    most of these theorems carry no claim number.

    ** Bounds and fuel

    Loops over data are structural.  The loop of the tokenizer gets one round
    per character and one more, which [JsmnSpec.runs_parse_loop] shows to be
    enough; jsondump enlarges its array at most 64 times, since the count is a
    [size_t] that doubles, and [dump] on an array gets one level of recursion per
    token and one more ([dump_ends]: it returns before it runs out, or reads
    outside the array or the text).  The collector
    and the workers run for as many rounds as the theorem gives them
    ([gc_drains] says how many empty the backlog), and running out counts as
    waiting, never as a result.  [print_u] has twenty digits, enough
    for 64 bits.  Lengths of inputs to the tokenizer are below 2^31, as its
    [int] members require.

    ** Not modelled

    The Go process, zlog, getopt_long (its results are a parameter), the
    allocator of boost (a parameter), [make_unique] (which nothing calls), what
    the buffers of commands contain (but for the example client), and time as
    such: clocks advance by steps of the environment.  In [sys_step] the
    Raft process does what the C++ side relies on: it answers each call that it
    has taken at most once, sends calls of the three kinds that the worker knows
    with arguments of their types, and frees its own calls when they have their
    answers; clients use a command buffer for one call at a time and a future
    until they dispose of it.

    ** What the model takes as one step

    In [sys_step] a critical section of a slot, and an operation on one slot, is
    one step.  This rests on what SlotFuture.v shows of a slot on its own: the
    sections exclude each other, and the accesses without the mutex ([get_ptr],
    [dispose]) see the answer or no answer.  A [put] or [take] on a bounded queue
    is the part after its first [check_closed], and may take place also when the
    queue has been closed in between; a thread that finds the queue closed, or
    sleeps on, is the other step, or none.  In the functions of Shm.v a wait ends
    when its condition holds, as it does for a single waiter; notifications and
    several waiters are in ArrayQueueThreads.v, Deque.v and SlotProgress.v, where
    [two_waiters_lost] shows that a second waiter on a future is not woken.  While
    [raft_cleanup] joins a thread, that thread runs to its end and only [sched]
    happens besides.  Memory models weaker than one order of accesses are not
    modelled: where [get_ptr] reads [state] without the mutex the sources have a
    data race, and [get_ptr_races] shows it.  Of the sources nothing else remains
    but declarations, comments and what is named above. *)

From stdpp Require Import base tactics list gmap relations.
From Stdlib Require Import ZArith Lia.

#[global] Open Scope Z_scope.

(** ** Machine integers

    The C++ code uses unsigned integers of 16, 32 and 64 bits.  They are kept
    as [Z] with the reduction modulo a power of two written out where the code
    computes. *)

Definition wrap (bits x : Z) : Z := x mod 2 ^ bits.

Abbreviation u16 := (wrap 16).
Abbreviation u32 := (wrap 32).
Abbreviation u64 := (wrap 64).

(** A 64-bit value read as a signed integer. *)
Definition s64 (x : Z) : Z := if u64 x <? 2 ^ 63 then u64 x else u64 x - 2 ^ 64.

Lemma wrap_small (bits x : Z) : 0 <= x < 2 ^ bits -> wrap bits x = x.
Proof. intros. unfold wrap. by apply Z.mod_small. Qed.

Lemma wrap_range (bits x : Z) : 0 <= bits -> 0 <= wrap bits x < 2 ^ bits.
Proof. intros. unfold wrap. apply Z.mod_pos_bound. by apply Z.pow_pos_nonneg. Qed.

Lemma wrap_idemp (bits x : Z) : wrap bits (wrap bits x) = wrap bits x.
Proof. unfold wrap. apply Zmod_mod. Qed.

Lemma wrap_add_l (bits x y : Z) : wrap bits (wrap bits x + y) = wrap bits (x + y).
Proof. unfold wrap. by rewrite Zplus_mod_idemp_l. Qed.

Lemma wrap_sub_wrap (bits x y : Z) :
  wrap bits (wrap bits x - wrap bits y) = wrap bits (x - y).
Proof. unfold wrap. by rewrite <- Zminus_mod. Qed.

(** ** Outcomes

    A C++ function in this program returns, throws [queue::queue_closed],
    ends the process (a failed [assert], [abort], [exit]), runs into undefined
    behaviour, or has to wait for another thread. *)

Inductive fault :=
  | AssertFailed
  | Aborted
  | OutOfBounds
  | BadPointer
  | ExitProcess (code : Z).

Inductive res (W A : Type) : Type :=
  | Ret (a : A) (w : W)
  | Throw (w : W)
  | Fault (f : fault)
  | Block (w : W).
Arguments Ret {W A} a w.
Arguments Throw {W A} w.
Arguments Fault {W A} f.
Arguments Block {W A} w.

#[global] Instance fault_eq_dec : EqDecision fault.
Proof. solve_decision. Defined.

(** A computation on a state [W]. *)
Definition M (W A : Type) : Type := W -> res W A.

#[global] Instance M_ret {W : Type} : MRet (M W) := fun A a w => Ret a w.

#[global] Instance M_bind {W : Type} : MBind (M W) := fun A B k m w =>
  match m w with
  | Ret a w' => k a w'
  | Throw w' => Throw w'
  | Fault f => Fault f
  | Block w' => Block w'
  end.

Definition get {W : Type} : M W W := fun w => Ret w w.
Definition modify {W : Type} (f : W -> W) : M W () := fun w => Ret () (f w).
Definition throw {W A : Type} : M W A := fun w => Throw w.
Definition fail {W A : Type} (f : fault) : M W A := fun _ => Fault f.
Definition block {W A : Type} : M W A := fun w => Block w.
Definition assert {W : Type} (b : bool) : M W () :=
  if b then mret () else fail AssertFailed.

(** [try { m } catch (queue_closed&) { h }] *)
Definition catch {W A : Type} (m h : M W A) : M W A := fun w =>
  match m w with
  | Throw w' => h w'
  | r => r
  end.

Section MonadLaws.
Context {W : Type}.

Lemma bind_ret_l {A B : Type} (a : A) (k : A -> M W B) (w : W) :
  (mret a ≫= k) w = k a w.
Proof. done. Qed.

Lemma bind_Ret {A B : Type} (m : M W A) (k : A -> M W B) (w w' : W) (a : A) :
  m w = Ret a w' -> (m ≫= k) w = k a w'.
Proof. intros H. unfold mbind, M_bind. by rewrite H. Qed.

Lemma assert_true (b : bool) (w : W) : b = true -> assert b w = Ret () w.
Proof. by intros ->. Qed.

Lemma bind_Ret_inv {A B : Type} (m : M W A) (k : A -> M W B) (w w' : W) (b : B) :
  (m ≫= k) w = Ret b w' -> exists a w1, m w = Ret a w1 /\ k a w1 = Ret b w'.
Proof. unfold mbind, M_bind. destruct (m w) eqn:E; intros; try done; eauto. Qed.

Lemma bind_congr {A B : Type} (m m' : M W A) (k k' : A -> M W B) x :
  m x = m' x -> (forall a y, k a y = k' a y) -> (a ← m ; k a) x = (a ← m' ; k' a) x.
Proof. intros Hm Hk. unfold mbind, M_bind. rewrite Hm. destruct (m' x); auto. Qed.

Lemma bind_bind {A B C : Type} (m : M W A) (k : A -> M W B) (k' : B -> M W C) x :
  (b ← (a ← m ; k a) ; k' b) x = (a ← m ; b ← k a ; k' b) x.
Proof. unfold mbind, M_bind. by destruct (m x). Qed.
End MonadLaws.

(** ** Invariants of computations

    [preserves I m]: a run of [m] from a state in [I] ends in a state in [I],
    whether it returns, throws or has to wait. *)

Create HintDb raft.

Definition after {W A : Type} (Q : W -> Prop) (r : res W A) : Prop :=
  match r with
  | Ret _ w | Throw w | Block w => Q w
  | Fault _ => True
  end.

Definition preserves {W A : Type} (I : W -> Prop) (m : M W A) : Prop :=
  forall w, I w -> after I (m w).

Section Preserves.
Context {W : Type} (I : W -> Prop).

Lemma preserves_ret {A : Type} (a : A) : preserves I (mret a : M W A).
Proof. by intros w Hw. Qed.

Lemma preserves_bind {A B : Type} (m : M W A) (k : A -> M W B) :
  preserves I m -> (forall a, preserves I (k a)) -> preserves I (m ≫= k).
Proof.
  intros Hm Hk w Hw. unfold mbind, M_bind. specialize (Hm w Hw).
  destruct (m w); simpl in *; try done. by apply Hk.
Qed.

Lemma preserves_get : preserves I get.
Proof. by intros w Hw. Qed.

(** After [get] the state is known to satisfy the invariant. *)
Lemma preserves_get_bind {B : Type} (k : W -> M W B) :
  (forall w, I w -> after I (k w w)) -> preserves I (get ≫= k).
Proof. intros Hk w Hw. by apply Hk. Qed.

Lemma preserves_modify (f : W -> W) : (forall w, I w -> I (f w)) -> preserves I (modify f).
Proof. intros Hf w Hw. by apply Hf. Qed.

Lemma preserves_throw {A : Type} : preserves I (throw : M W A).
Proof. by intros w Hw. Qed.

Lemma preserves_fail {A : Type} (f : fault) : preserves I (fail f : M W A).
Proof. by intros w Hw. Qed.

Lemma preserves_assert (b : bool) : preserves I (assert b).
Proof. destruct b; [apply preserves_ret|apply preserves_fail]. Qed.

Lemma preserves_catch {A : Type} (m h : M W A) :
  preserves I m -> preserves I h -> preserves I (catch m h).
Proof.
  intros Hm Hh w Hw. unfold catch. specialize (Hm w Hw).
  destruct (m w); simpl in *; try done. by apply Hh.
Qed.

Lemma preserves_if {A : Type} (b : bool) (m1 m2 : M W A) :
  (b = true -> preserves I m1) -> (b = false -> preserves I m2) ->
  preserves I (if b then m1 else m2).
Proof. destruct b; auto. Qed.
End Preserves.

#[export] Hint Resolve preserves_ret preserves_bind preserves_get preserves_throw
  preserves_fail preserves_assert preserves_catch preserves_if : raft.

(** A computation on a part of the state. *)
Definition zoom {W V A : Type} (proj : W -> V) (put : V -> W -> W) (m : M V A) : M W A := fun w =>
  match m (proj w) with
  | Ret a v => Ret a (put v w)
  | Throw v => Throw (put v w)
  | Fault f => Fault f
  | Block v => Block (put v w)
  end.

Lemma zoom_Ret {W V A : Type} (proj : W -> V) (put : V -> W -> W) (m : M V A) w a v :
  m (proj w) = Ret a v -> zoom proj put m w = Ret a (put v w).
Proof. intros E. unfold zoom. by rewrite E. Qed.

Lemma zoom_Throw {W V A : Type} (proj : W -> V) (put : V -> W -> W) (m : M V A) w v :
  m (proj w) = Throw v -> zoom proj put m w = Throw (put v w).
Proof. intros E. unfold zoom. by rewrite E. Qed.

Lemma catch_Ret {W A : Type} (m h : M W A) w a w' : m w = Ret a w' -> catch m h w = Ret a w'.
Proof. intros E. unfold catch. by rewrite E. Qed.

Lemma catch_Throw {W A : Type} (m h : M W A) w w' : m w = Throw w' -> catch m h w = h w'.
Proof. intros E. unfold catch. by rewrite E. Qed.

Lemma preserves_zoom {W V A : Type} (I : W -> Prop) (proj : W -> V) (put : V -> W -> W)
    (m : M V A) :
  (forall w v, I w -> I (put v w)) -> preserves I (zoom proj put m).
Proof.
  intros Hp w Hw. unfold zoom. destruct (m (proj w)); simpl; auto.
Qed.

(** ** Computations that do not fail *)

Definition safe {W A : Type} (m : M W A) (x : W) : Prop := forall f, m x <> Fault f.

Lemma safe_bind {W A B : Type} (m : M W A) (k : A -> M W B) x :
  safe m x -> (forall a y, m x = Ret a y -> safe (k a) y) -> safe (a ← m ; k a) x.
Proof.
  intros Hm Hk f. unfold mbind, M_bind. destruct (m x) eqn:E; try done.
  - by apply Hk.
  - by destruct (Hm f0).
Qed.

Lemma safe_Ret {W A : Type} (m : M W A) x a y : m x = Ret a y -> safe m x.
Proof. intros E f. by rewrite E. Qed.

Lemma safe_then {W A B : Type} (m : M W A) (k : A -> M W B) x a y :
  m x = Ret a y -> safe (k a) y -> safe (a ← m ; k a) x.
Proof. intros E Hk f. unfold mbind, M_bind. rewrite E. apply Hk. Qed.

Lemma safe_zoom {W V A : Type} (proj : W -> V) (put : V -> W -> W) (m : M V A) x :
  safe m (proj x) -> safe (zoom proj put m) x.
Proof. intros Hm f. unfold zoom. destruct (m (proj x)) eqn:E; try done. intros _. by eapply Hm. Qed.

(** ** Reachability *)

Lemma invariant_rtc {A : Type} (R : A -> A -> Prop) (I : A -> Prop) :
  (forall x y, I x -> R x y -> I y) -> forall x y, rtc R x y -> I x -> I y.
Proof. intros Hstep x y Hxy. induction Hxy; eauto. Qed.

(** Runs of a labelled transition system, with the labels seen on the way. *)
Inductive lrun {S E : Type} (R : S -> E -> S -> Prop) : S -> list E -> S -> Prop :=
  | lrun_nil s : lrun R s [] s
  | lrun_cons s e s1 es s2 : R s e s1 -> lrun R s1 es s2 -> lrun R s (e :: es) s2.

Lemma lrun_invariant {S E : Type} (R : S -> E -> S -> Prop) (I : S -> Prop) :
  (forall s e s', I s -> R s e s' -> I s') ->
  forall s es s', lrun R s es s' -> I s -> I s'.
Proof. intros Hstep s es s' Hrun. induction Hrun; eauto. Qed.

(** A step-by-step simulation carries whole runs over, labels included. *)
Lemma lrun_simulation {S1 S2 E : Type} (R1 : S1 -> E -> S1 -> Prop)
    (R2 : S2 -> E -> S2 -> Prop) (I : S1 -> Prop) (abs : S1 -> S2) :
  (forall s e s', I s -> R1 s e s' -> I s') ->
  (forall s e s', I s -> R1 s e s' -> R2 (abs s) e (abs s')) ->
  forall s es s', lrun R1 s es s' -> I s -> lrun R2 (abs s) es (abs s').
Proof.
  intros Hinv Hsim s es s' Hrun. induction Hrun; intros HI.
  - constructor.
  - econstructor; [by apply Hsim|]. eauto.
Qed.

(** ** Partial maps over lists *)

Lemma omap_ext_in {A B : Type} (f g : A -> option B) (l : list A) :
  (forall x, x ∈ l -> f x = g x) -> omap f l = omap g l.
Proof.
  induction l as [|x l IH]; intros H; [done|]. cbn.
  rewrite (H x) by apply list_elem_of_here.
  rewrite IH; [done|]. intros y Hy. apply H. by apply list_elem_of_further.
Qed.

Lemma omap_seq_S {B : Type} (f : nat -> option B) (n k : nat) :
  omap f (seq (S k) n) = omap (fun i => f (S i)) (seq k n).
Proof. revert k. induction n as [|n IH]; intros k; cbn; [done|]. by rewrite IH. Qed.

Lemma length_omap_total {A B : Type} (f : A -> option B) (l : list A) :
  (forall x, x ∈ l -> is_Some (f x)) -> length (omap f l) = length l.
Proof.
  induction l as [|x l IH]; intros H; [done|]. cbn.
  destruct (H x (list_elem_of_here x l)) as [y ->]. cbn.
  rewrite IH; [done|]. intros z Hz. apply H. by apply list_elem_of_further.
Qed.

(** ** Counting the elements of a list that satisfy a test *)

Section Counting.
Context {A : Type}.

Fixpoint countb (f : A -> bool) (l : list A) : Z :=
  match l with
  | [] => 0
  | x :: l' => (if f x then 1 else 0) + countb f l'
  end.

Lemma countb_nonneg (f : A -> bool) (l : list A) : 0 <= countb f l.
Proof. induction l as [|x l IH]; simpl; [lia|]. destruct (f x); lia. Qed.

Lemma countb_insert (f : A -> bool) (l : list A) (i : nat) (x y : A) :
  l !! i = Some y ->
  countb f (<[i := x]> l) + (if f y then 1 else 0) =
  countb f l + (if f x then 1 else 0).
Proof.
  revert i; induction l as [|z l IH]; intros [|i] H; simplify_eq/=.
  - lia.
  - specialize (IH i H). lia.
Qed.

Lemma countb_zero (f : A -> bool) (l : list A) :
  countb f l = 0 <-> (forall i x, l !! i = Some x -> f x = false).
Proof.
  induction l as [|z l IH]; simpl; [split; [intros _ [|i] x; done|done]|].
  pose proof (countb_nonneg f l) as Hp. split.
  - intros H [|i] x Hx; simplify_eq/=.
    + destruct (f x); [lia|done].
    + apply (proj1 IH) with i; [destruct (f z); lia|done].
  - intros H. rewrite (H 0%nat z eq_refl).
    assert (countb f l = 0) as -> by (apply IH; intros i x Hx; by apply (H (S i))). done.
Qed.

Lemma countb_pos (f : A -> bool) (l : list A) (i : nat) (x : A) :
  l !! i = Some x -> f x = true -> 0 < countb f l.
Proof.
  intros Hx Hf. pose proof (countb_nonneg f l).
  destruct (decide (countb f l = 0)) as [E|]; [|lia].
  rewrite countb_zero in E. specialize (E i x Hx). congruence.
Qed.
End Counting.

(** ** Automation *)

(** Case analysis on the conditionals of the goal or of the hypotheses. *)
Ltac case_if :=
  match goal with
  | |- context [if ?b then _ else _] => destruct b eqn:?
  | H : context [if ?b then _ else _] |- _ => destruct b eqn:?
  end.

(** Boolean comparisons on [Z] become propositions. *)
Ltac zbool :=
  repeat match goal with
  | H : (_ =? _) = true |- _ => apply Z.eqb_eq in H
  | H : (_ =? _) = false |- _ => apply Z.eqb_neq in H
  | H : (_ <? _) = true |- _ => apply Z.ltb_lt in H
  | H : (_ <? _) = false |- _ => apply Z.ltb_ge in H
  | H : (_ <=? _) = true |- _ => apply Z.leb_le in H
  | H : (_ <=? _) = false |- _ => apply Z.leb_gt in H
  | H : (_ && _)%bool = true |- _ => apply andb_prop in H; destruct H
  end.

(** Run the monadic operations of the goal. *)
Ltac mrun := unfold mbind, M_bind, mret, M_ret, modify, get, fail, throw, assert; cbn.
