(* ===== verification/CString.v ===== *)
(** * Characters and strings of the C library

    What the sources use of <string.h>, <stdlib.h> and <ctype.h>: character
    arrays and their reading as C strings, [strncpy], [strtoul], [atoi], and
    the decimal printing of [printf].  A [char] is an [ascii], an array a
    [list ascii]. *)

From stdpp Require Import base tactics list strings.
From Stdlib Require Import ZArith Lia Ascii.
From S2P Require Import Prelude.

Module CString.

Abbreviation chars := (list ascii).

Definition NUL : ascii := "000"%char.

(** The value of a character as [unsigned char]. *)
Definition code (c : ascii) : Z := Z.of_N (N_of_ascii c).

(** A string literal. *)
Definition lit (s : string) : chars := String.list_ascii_of_string s.

(** Reading an array as a C string: what precedes the first null character;
    [None] when there is none, and reading would run past the array. *)
Fixpoint c_str (buf : chars) : option chars :=
  match buf with
  | [] => None
  | c :: rest => if Ascii.eqb c NUL then Some [] else cons c <$> c_str rest
  end.

(** The value of a [const char*] argument holds no null character. *)
Definition no_nul (s : chars) : Prop := Forall (fun c => c <> NUL) s.

#[global] Instance no_nul_dec (s : chars) : Decision (no_nul s).
Proof. unfold no_nul. apply _. Defined.

(** [strncpy(dst, src, n)]: at most [n] characters of [src], padded with null
    characters up to [n]; the rest of [dst] is not written. *)
Definition strncpy (dst src : chars) (n : nat) : chars :=
  take n (src ++ replicate n NUL) ++ drop n dst.

(** ** Numbers *)

Definition isspace (c : ascii) : bool :=
  (code c =? 32) || ((9 <=? code c) && (code c <=? 13)).

Definition isdigit (c : ascii) : bool := (48 <=? code c) && (code c <=? 57).

Definition isalpha (c : ascii) : bool :=
  ((65 <=? code c) && (code c <=? 90)) || ((97 <=? code c) && (code c <=? 122)).

Definition digit (c : ascii) : Z := code c - 48.

Fixpoint skip_space (s : chars) : chars :=
  match s with
  | c :: s' => if isspace c then skip_space s' else s
  | [] => []
  end.

(** The value of the digits at the front, after [acc], and what follows. *)
Fixpoint scan_digits (acc : Z) (s : chars) : Z * chars :=
  match s with
  | c :: s' => if isdigit c then scan_digits (acc * 10 + digit c) s' else (acc, s)
  | [] => (acc, [])
  end.

(** An optional sign. *)
Definition scan_sign (s : chars) : bool * chars :=
  match s with
  | c :: s' => if Ascii.eqb c "-" then (true, s') else if Ascii.eqb c "+" then (false, s') else (false, s)
  | [] => (false, [])
  end.

(** The integer at the front of a string in base 10: [None] when there is no
    digit. *)
Definition scan_int (s : chars) : option (bool * Z * chars) :=
  let '(neg, s1) := scan_sign (skip_space s) in
  match s1 with
  | c :: _ => if isdigit c then let '(v, rest) := scan_digits 0 s1 in Some (neg, v, rest) else None
  | [] => None
  end.

Definition ULONG_MAX : Z := 2 ^ 64 - 1.

(** [strtoul(s, &endp, 10)]: the value and the string at [endp]. *)
Definition strtoul (s : chars) : Z * chars :=
  match scan_int s with
  | None => (0, s)
  | Some (neg, v, rest) =>
      if ULONG_MAX <? v then (ULONG_MAX, rest)
      else (if neg then u64 (- v) else v, rest)
  end.

(** The conversion of an integer to [int]. *)
Definition to_int (x : Z) : Z := (x + 2 ^ 31) mod 2 ^ 32 - 2 ^ 31.

(** [atoi(s)], which is [(int) strtol(s, NULL, 10)]. *)
Definition atoi (s : chars) : Z :=
  match scan_int s with
  | None => 0
  | Some (neg, v, _) =>
      to_int (Z.max (- 2 ^ 63) (Z.min (2 ^ 63 - 1) (if neg then - v else v)))
  end.

(** The digits that [printf] writes for an unsigned number. *)
Definition digit_char (d : Z) : ascii := ascii_of_N (Z.to_N (48 + d)).

Fixpoint print_digits (fuel : nat) (n : Z) (acc : chars) : chars :=
  match fuel with
  | O => acc
  | S f =>
      let acc' := digit_char (n mod 10) :: acc in
      if n / 10 =? 0 then acc' else print_digits f (n / 10) acc'
  end.

(** ["%u"]: twenty digits are enough for 64 bits. *)
Definition print_u (n : Z) : chars := print_digits 20 n [].

(** ** Arrays as C strings *)

Lemma length_strncpy (dst src : chars) (n : nat) :
  (n <= length dst)%nat -> length (strncpy dst src n) = length dst.
Proof.
  intros H. unfold strncpy. rewrite length_app, length_take, length_app, length_replicate, length_drop.
  lia.
Qed.

Lemma c_str_app_nul (s rest : chars) : no_nul s -> c_str (s ++ NUL :: rest) = Some s.
Proof.
  induction 1 as [|c s Hc _ IH]; [done|]. simpl.
  destruct (Ascii.eqb_spec c NUL); [done|]. by rewrite IH.
Qed.

Lemma c_str_unterminated (s : chars) : no_nul s -> c_str s = None.
Proof.
  induction 1 as [|c s Hc _ IH]; [done|]. simpl.
  destruct (Ascii.eqb_spec c NUL); [done|]. by rewrite IH.
Qed.

Lemma c_str_no_nul (buf s : chars) : c_str buf = Some s -> no_nul s.
Proof.
  revert s. induction buf as [|c buf IH]; intros s H; simpl in H; [done|].
  destruct (Ascii.eqb_spec c NUL); [by simplify_eq; constructor|].
  destruct (c_str buf) as [s'|]; simplify_eq/=. constructor; [done|]. by apply IH.
Qed.

(** A string that fits is read back. *)
Lemma c_str_strncpy_fits (dst src : chars) (n : nat) :
  no_nul src -> (length src < n)%nat -> c_str (strncpy dst src n) = Some src.
Proof.
  intros Hs Hn. unfold strncpy. rewrite take_app_ge by lia.
  rewrite take_replicate. replace (Nat.min (n - length src) n) with (S (n - length src - 1)) by lia.
  simpl. rewrite <- app_assoc. by apply c_str_app_nul.
Qed.

(** A string that does not fit is cut, provided the array was terminated right
    after the part that [strncpy] writes. *)
Lemma c_str_strncpy_cut (dst src : chars) (n : nat) :
  no_nul src -> (n <= length src)%nat -> dst !! n = Some NUL ->
  c_str (strncpy dst src n) = Some (take n src).
Proof.
  intros Hs Hn Hd. unfold strncpy. rewrite take_app_le by done.
  rewrite (drop_S _ _ _ Hd). apply c_str_app_nul. by apply Forall_take.
Qed.

(** Without that terminator the array is not a string. *)
Lemma c_str_strncpy_open (dst src : chars) (n : nat) :
  no_nul src -> (n <= length src)%nat -> no_nul (drop n dst) ->
  c_str (strncpy dst src n) = None.
Proof.
  intros Hs Hn Hd. unfold strncpy. rewrite take_app_le by done.
  apply c_str_unterminated, Forall_app. split; [by apply Forall_take|done].
Qed.

Lemma c_str_split (buf s : chars) :
  c_str buf = Some s -> exists rest, buf = s ++ NUL :: rest.
Proof.
  revert s. induction buf as [|c buf IH]; intros s H; simpl in H; [done|].
  destruct (Ascii.eqb_spec c NUL) as [->|]; [simplify_eq; by exists buf|].
  destruct (c_str buf) as [s'|]; simplify_eq/=. destruct (IH s' eq_refl) as [rest ->]. by exists rest.
Qed.

(** Copying a string onto itself. *)
Lemma c_str_strncpy_self (buf s : chars) (n : nat) :
  length buf = S n -> c_str buf = Some s -> c_str (strncpy buf s n) = Some s.
Proof.
  intros Hl Hc. pose proof (c_str_no_nul _ _ Hc) as Hn.
  destruct (c_str_split _ _ Hc) as [rest Hb].
  assert (length buf = length s + S (length rest))%nat as Hlen by (by rewrite Hb, length_app).
  destruct (decide (length s < n)%nat); [by apply c_str_strncpy_fits|].
  rewrite c_str_strncpy_cut, take_ge by (done || lia || (rewrite Hb; replace n with (length s) by lia; by apply list_lookup_middle)).
  done.
Qed.

(** ** Printing and scanning *)

Lemma code_digit_char (d : Z) : 0 <= d < 10 -> code (digit_char d) = 48 + d.
Proof.
  intros H. unfold code, digit_char. rewrite N_ascii_embedding by lia. lia.
Qed.

Lemma isdigit_digit_char (d : Z) : 0 <= d < 10 -> isdigit (digit_char d) = true.
Proof. intros H. unfold isdigit. rewrite code_digit_char by done. lia. Qed.

Lemma digit_digit_char (d : Z) : 0 <= d < 10 -> digit (digit_char d) = d.
Proof. intros H. unfold digit. rewrite code_digit_char by done. lia. Qed.

(** [print_digits] puts the digits of [n] in front of [tl]: scanning gives
    [n] back. *)
Lemma scan_print_digits (fuel : nat) (n : Z) (tl : chars) :
  0 <= n < 10 ^ Z.of_nat fuel -> (0 < fuel)%nat ->
  exists ds, print_digits fuel n tl = ds ++ tl /\
    Forall (fun c => isdigit c = true) ds /\ ds <> [] /\
    forall acc rest, scan_digits acc (ds ++ rest) =
      scan_digits (acc * 10 ^ Z.of_nat (length ds) + n) rest.
Proof.
  revert n tl. induction fuel as [|fuel IH]; intros n tl Hn Hf; [lia|].
  cbn [print_digits]. pose proof (Z.mod_pos_bound n 10) as Hm.
  assert (forall acc rest, scan_digits acc (digit_char (n mod 10) :: rest) =
    scan_digits (acc * 10 + n mod 10) rest) as Hscan.
  { intros acc rest. cbn [scan_digits].
    rewrite isdigit_digit_char, digit_digit_char by lia. done. }
  pose proof (Z.div_mod n 10) as Hdm.
  destruct (n / 10 =? 0) eqn:E; zbool.
  - exists [digit_char (n mod 10)]. split_and!; try done.
    + constructor; [apply isdigit_digit_char; lia|constructor].
    + intros acc rest. simpl app. rewrite Hscan. f_equal. cbn [length]. lia.
  - assert (0 <= n / 10 < 10 ^ Z.of_nat fuel) as Hd.
    { split; [apply Z.div_pos; lia|]. apply Z.div_lt_upper_bound; [lia|].
      rewrite Nat2Z.inj_succ, Z.pow_succ_r in Hn by lia. lia. }
    destruct fuel as [|fuel']; [simpl in Hd; lia|].
    destruct (IH (n / 10) (digit_char (n mod 10) :: tl) Hd ltac:(lia)) as (ds & E1 & Hall & Hne & E2).
    exists (ds ++ [digit_char (n mod 10)]). split_and!.
    + rewrite E1. by rewrite <- app_assoc.
    + apply Forall_app. split; [done|]. constructor; [apply isdigit_digit_char; lia|constructor].
    + by destruct ds.
    + intros acc rest. rewrite <- app_assoc. simpl app. rewrite E2, Hscan. f_equal.
      rewrite length_app. cbn [length].
      replace (Z.of_nat (length ds + 1)) with (Z.succ (Z.of_nat (length ds))) by lia.
      rewrite Z.pow_succ_r by lia. lia.
Qed.

(** What follows a number does not start with a digit. *)
Definition number_ends (rest : chars) : Prop :=
  match rest with c :: _ => isdigit c = false | [] => True end.

Lemma scan_int_print_u (n : Z) (rest : chars) :
  0 <= n < 2 ^ 64 -> number_ends rest ->
  scan_int (print_u n ++ rest) = Some (false, n, rest).
Proof.
  intros Hn Hr. unfold print_u.
  destruct (scan_print_digits 20 n []) as (ds & E & Hall & Hne & Hs); [lia|lia|].
  rewrite E, app_nil_r. destruct ds as [|c ds]; [done|]. inv Hall.
  assert (isspace c = false /\ Ascii.eqb c "-" = false /\ Ascii.eqb c "+" = false) as (H1' & H2' & H3').
  { split_and!.
    - unfold isdigit in *. zbool. unfold isspace. lia.
    - by destruct (Ascii.eqb_spec c "-") as [->|].
    - by destruct (Ascii.eqb_spec c "+") as [->|]. }
  unfold scan_int. simpl skip_space. rewrite H1'. simpl scan_sign. rewrite H2', H3'.
  match goal with H : isdigit c = true |- _ => rewrite H end.
  change (c :: ds ++ rest) with ((c :: ds) ++ rest). rewrite Hs.
  rewrite Z.mul_0_l, Z.add_0_l. destruct rest as [|r rest]; simpl; [done|].
  simpl in Hr. by rewrite Hr.
Qed.

(** Reading a printed number gives it back. *)
Lemma strtoul_print_u (n : Z) (rest : chars) :
  0 <= n < 2 ^ 64 -> number_ends rest -> strtoul (print_u n ++ rest) = (n, rest).
Proof.
  intros Hn Hr. unfold strtoul. rewrite scan_int_print_u by done.
  unfold ULONG_MAX. case_if; zbool; [lia|done].
Qed.

Lemma atoi_print_u (n : Z) (rest : chars) :
  0 <= n < 2 ^ 31 -> number_ends rest -> atoi (print_u n ++ rest) = n.
Proof.
  intros Hn Hr. unfold atoi. rewrite scan_int_print_u by (done || lia).
  rewrite Z.min_r, Z.max_r by lia. unfold to_int. rewrite Z.mod_small; lia.
Qed.

(** The result of [strtoul] is always in range. *)
Lemma scan_digits_nonneg (acc : Z) (s : chars) : 0 <= acc -> 0 <= (scan_digits acc s).1.
Proof.
  revert acc. induction s as [|c s IH]; intros acc H; simpl; [done|].
  destruct (isdigit c) eqn:E; [|done]. apply IH. unfold isdigit, digit in *. zbool. lia.
Qed.

Lemma strtoul_range (s : chars) : 0 <= (strtoul s).1 < 2 ^ 64.
Proof.
  unfold strtoul, scan_int. destruct (scan_sign (skip_space s)) as [neg s1].
  destruct s1 as [|c s1]; simpl; [lia|]. destruct (isdigit c) eqn:E; simpl; [|lia].
  destruct (scan_digits (0 * 10 + digit c) s1) as [v rest] eqn:Ev.
  assert (0 <= v) as Hv.
  { replace v with (scan_digits (0 * 10 + digit c) s1).1 by (by rewrite Ev).
    apply scan_digits_nonneg. unfold isdigit, digit in *. zbool. lia. }
  unfold ULONG_MAX. case_if; zbool; simpl; [lia|].
  destruct neg; [apply wrap_range; lia|lia].
Qed.

End CString.
