(* ===== verification/Defs.v ===== *)
(** * Enumerations and tables

    The enumerations of raft_defs.h and raft_shm.h, the call tables of
    raft_api_calls.h and raft_fsm_calls.h, and the two tables of strings built
    from them: the tag names (raft_shm.cc) and the error messages
    (raft_c_if.cc). *)

From stdpp Require Import base tactics list strings.
From Stdlib Require Import ZArith Lia.
From S2P Require Import Prelude.

Module Defs.

(** ** raft_defs.h *)

Inductive RaftState :=
  | RAFT_INVALID_STATE | RAFT_FOLLOWER | RAFT_CANDIDATE | RAFT_LEADER | RAFT_SHUTDOWN.

Inductive RaftLogType :=
  | RAFT_LOG_COMMAND | RAFT_LOG_NOOP | RAFT_LOG_ADD_PEER | RAFT_LOG_REMOVE_PEER
  | RAFT_LOG_BARRIER.

Inductive RaftError :=
  | RAFT_SUCCESS
  | RAFT_E_LEADER
  | RAFT_E_NOT_LEADER
  | RAFT_E_LEADERSHIP_LOST
  | RAFT_E_SHUTDOWN
  | RAFT_E_ENQUEUE_TIMEOUT
  | RAFT_E_KNOWN_PEER
  | RAFT_E_UNKNOWN_PEER
  | RAFT_E_LOG_NOT_FOUND
  | RAFT_E_PIPELINE_REPLICATION_NOT_SUPP
  | RAFT_E_TRANSPORT_SHUTDOWN
  | RAFT_E_PIPELINE_SHUTDOWN
  | RAFT_E_OTHER
  | RAFT_E_INVALID_OP
  | RAFT_E_INVALID_ADDRESS
  | RAFT_E_RESOLVE
  | RAFT_E_IN_SHUTDOWN.

#[global] Instance RaftState_eq_dec : EqDecision RaftState.
Proof. solve_decision. Defined.
#[global] Instance RaftLogType_eq_dec : EqDecision RaftLogType.
Proof. solve_decision. Defined.
#[global] Instance RaftError_eq_dec : EqDecision RaftError.
Proof. solve_decision. Defined.

(** The values of the enumerators. *)
Definition error_code (e : RaftError) : nat :=
  match e with
  | RAFT_SUCCESS => 0
  | RAFT_E_LEADER => 1
  | RAFT_E_NOT_LEADER => 2
  | RAFT_E_LEADERSHIP_LOST => 3
  | RAFT_E_SHUTDOWN => 4
  | RAFT_E_ENQUEUE_TIMEOUT => 5
  | RAFT_E_KNOWN_PEER => 6
  | RAFT_E_UNKNOWN_PEER => 7
  | RAFT_E_LOG_NOT_FOUND => 8
  | RAFT_E_PIPELINE_REPLICATION_NOT_SUPP => 9
  | RAFT_E_TRANSPORT_SHUTDOWN => 10
  | RAFT_E_PIPELINE_SHUTDOWN => 11
  | RAFT_E_OTHER => 12
  | RAFT_E_INVALID_OP => 13
  | RAFT_E_INVALID_ADDRESS => 14
  | RAFT_E_RESOLVE => 15
  | RAFT_E_IN_SHUTDOWN => 16
  end%nat.

(** The end marker of the enumeration. *)
Definition N_RAFT_ERRORS : nat := 17.

(** [(RaftState) value]: the conversion of a call result. A value outside the
    enumeration has no enumerator. *)
Definition raft_state_of (value : Z) : option RaftState :=
  match value with
  | 0 => Some RAFT_INVALID_STATE
  | 1 => Some RAFT_FOLLOWER
  | 2 => Some RAFT_CANDIDATE
  | 3 => Some RAFT_LEADER
  | 4 => Some RAFT_SHUTDOWN
  | _ => None
  end.

Definition raft_state_code (s : RaftState) : Z :=
  match s with
  | RAFT_INVALID_STATE => 0
  | RAFT_FOLLOWER => 1
  | RAFT_CANDIDATE => 2
  | RAFT_LEADER => 3
  | RAFT_SHUTDOWN => 4
  end.

(** ** Error messages (raft_c_if.cc) *)

(** A [const char*]: [None] is the null pointer. *)
Abbreviation cstring_ptr := (option string).

(** [err_msgs[i] = msg] *)
Definition set_msg (e : RaftError) (msg : string) (v : list cstring_ptr) : list cstring_ptr :=
  <[error_code e := Some msg]> v.

Open Scope string_scope.

(** A vector of [N_RAFT_ERRORS] null pointers, then one assignment per line. *)
Definition init_err_msgs : list cstring_ptr :=
  let v := replicate N_RAFT_ERRORS (None : cstring_ptr) in
  let v := set_msg RAFT_SUCCESS "success" v in
  let v := set_msg RAFT_E_LEADER "node is the leader" v in
  let v := set_msg RAFT_E_NOT_LEADER "node is not the leader" v in
  let v := set_msg RAFT_E_LEADERSHIP_LOST "leadership lost while committing log" v in
  let v := set_msg RAFT_E_SHUTDOWN "raft is already shutdown" v in
  let v := set_msg RAFT_E_ENQUEUE_TIMEOUT "timed out enqueuing operation" v in
  let v := set_msg RAFT_E_KNOWN_PEER "peer already known" v in
  let v := set_msg RAFT_E_UNKNOWN_PEER "peer is unknown" v in
  let v := set_msg RAFT_E_LOG_NOT_FOUND "log not found" v in
  let v := set_msg RAFT_E_PIPELINE_REPLICATION_NOT_SUPP "pipeline replication not supported" v in
  let v := set_msg RAFT_E_TRANSPORT_SHUTDOWN "transport shutdown" v in
  let v := set_msg RAFT_E_PIPELINE_SHUTDOWN "append pipeline closed" v in
  let v := set_msg RAFT_E_OTHER "undetermined error" v in
  let v := set_msg RAFT_E_INVALID_OP "invalid operation for call" v in
  set_msg RAFT_E_INVALID_ADDRESS "invalid address" v.

Definition raft_err_msg (err_msgs : list cstring_ptr) (err : nat) : cstring_ptr :=
  if (err <? List.length err_msgs)%nat then
    match err_msgs !! err with Some msg => msg | None => None end
  else Some "Unknown error".

(** ** Calls (raft_shm.h) *)

Inductive CallTag :=
  | Invalid | Apply | Barrier | VerifyLeader
  | GetState | LastContact | LastIndex | GetLeader
  | AddPeer | RemovePeer | SetPeers | Shutdown | Snapshot | Stats
  | FSMApply | FSMSnapshot | FSMRestore.

Inductive CallState := Pending | Dispatched | Success | Error.

Inductive ClientState := Issued | Observed | Abandoned.

#[global] Instance CallTag_eq_dec : EqDecision CallTag.
Proof. solve_decision. Defined.
#[global] Instance CallState_eq_dec : EqDecision CallState.
Proof. solve_decision. Defined.
#[global] Instance ClientState_eq_dec : EqDecision ClientState.
Proof. solve_decision. Defined.

Definition tag_code (t : CallTag) : nat :=
  match t with
  | Invalid => 0 | Apply => 1 | Barrier => 2 | VerifyLeader => 3
  | GetState => 4 | LastContact => 5 | LastIndex => 6 | GetLeader => 7
  | AddPeer => 8 | RemovePeer => 9 | SetPeers => 10 | Shutdown => 11
  | Snapshot => 12 | Stats => 13
  | FSMApply => 100 | FSMSnapshot => 101 | FSMRestore => 102
  end%nat.

Definition is_terminal (s : CallState) : bool :=
  match s with
  | Pending | Dispatched => false
  | Success | Error => true
  end.

(** The types of arguments named in the call tables. *)
Inductive arg_kind := KNoArgs | KApplyArgs | KBarrierArgs | KNetworkAddr | KLogEntry | KFilename.

(** [api_call(name, argT, hasRet)] *)
Record api_call := ApiCall {
  call_tag : CallTag;
  call_name : string;
  call_arg : arg_kind;
  call_has_ret : bool
}.

(** raft_api_calls.h *)
Definition raft_api_calls : list api_call := [
  ApiCall Apply "Apply" KApplyArgs true;
  ApiCall Barrier "Barrier" KBarrierArgs true;
  ApiCall VerifyLeader "VerifyLeader" KNoArgs false;
  ApiCall GetState "GetState" KNoArgs true;
  ApiCall LastContact "LastContact" KNoArgs true;
  ApiCall LastIndex "LastIndex" KNoArgs true;
  ApiCall GetLeader "GetLeader" KNoArgs true;
  ApiCall Snapshot "Snapshot" KNoArgs false;
  ApiCall Stats "Stats" KNoArgs true;
  ApiCall AddPeer "AddPeer" KNetworkAddr false;
  ApiCall RemovePeer "RemovePeer" KNetworkAddr false;
  ApiCall Shutdown "Shutdown" KNoArgs false].

(** raft_fsm_calls.h *)
Definition raft_fsm_calls : list api_call := [
  ApiCall FSMApply "FSMApply" KLogEntry true;
  ApiCall FSMSnapshot "FSMSnapshot" KFilename false;
  ApiCall FSMRestore "FSMRestore" KFilename false].

Definition all_calls : list api_call := raft_api_calls ++ raft_fsm_calls.

(** [Call::has_ret] of the call with a tag. *)
Definition has_ret (t : CallTag) : bool :=
  existsb (fun c => bool_decide (call_tag c = t) && call_has_ret c) all_calls.

(** [make_tag_names]: 256 invalid names, overwritten by the tables in turn. *)
Definition make_tag_names : list string :=
  fold_left (fun names c => <[tag_code (call_tag c) := call_name c]> names) all_calls
    (replicate 256 "*invalid*").

(** [tag_names.at(tag)] throws for an index past the end, which does not occur
    for a [uint8_t]. *)
Definition tag_name (code : nat) : option string := make_tag_names !! code.

Close Scope string_scope.

(** ** Facts *)

Lemma error_code_bound (e : RaftError) : (error_code e < N_RAFT_ERRORS)%nat.
Proof. destruct e; unfold N_RAFT_ERRORS; simpl; lia. Qed.

Lemma error_code_inj (e e' : RaftError) : error_code e = error_code e' -> e = e'.
Proof. by destruct e, e'. Qed.

(** After initialisation [raft_err_msg] returns a null pointer for exactly
    two errors that the library itself reports, [RAFT_E_RESOLVE] and
    [RAFT_E_IN_SHUTDOWN], because [init_err_msgs] has no line for them; every
    other error has a message, and every value past the enumeration gives
    [Unknown error]. *)
Theorem err_msg_table :
  (forall e, raft_err_msg init_err_msgs (error_code e) = None <->
     e = RAFT_E_RESOLVE \/ e = RAFT_E_IN_SHUTDOWN) /\
  (forall n, (N_RAFT_ERRORS <= n)%nat ->
     raft_err_msg init_err_msgs n = Some "Unknown error"%string) /\
  (forall e e', raft_err_msg init_err_msgs (error_code e) <> None ->
     raft_err_msg init_err_msgs (error_code e) = raft_err_msg init_err_msgs (error_code e') ->
     e = e').
Proof.
  split_and!.
  - intros []; vm_compute; naive_solver.
  - intros n Hn. unfold raft_err_msg, N_RAFT_ERRORS in *.
    change (List.length init_err_msgs) with 17%nat.
    by rewrite (proj2 (Nat.ltb_ge n 17)) by lia.
  - intros [] []; vm_compute; naive_solver.
Qed.

(** [tag_name] gives each call of the two tables its own name, and a code
    below 256 that belongs to no call of the tables [*invalid*]; two calls have
    the same name only if they are the same call. *)
Theorem tag_name_table :
  (forall c, c ∈ all_calls -> tag_name (tag_code (call_tag c)) = Some (call_name c)) /\
  (forall n, (n < 256)%nat -> (forall c, c ∈ all_calls -> tag_code (call_tag c) <> n) ->
     tag_name n = Some "*invalid*"%string) /\
  (forall c c', c ∈ all_calls -> c' ∈ all_calls ->
     tag_name (tag_code (call_tag c)) = tag_name (tag_code (call_tag c')) -> c = c').
Proof.
  assert (forall c, c ∈ all_calls -> tag_name (tag_code (call_tag c)) = Some (call_name c)) as H1.
  { apply Forall_forall. by repeat constructor. }
  split_and!; [done|..].
  - intros n Hn Hno. unfold tag_name, make_tag_names.
    assert (forall cs (names : list string), (forall c, c ∈ cs -> tag_code (call_tag c) <> n) ->
      fold_left (fun names c => <[tag_code (call_tag c) := call_name c]> names) cs names !! n
      = names !! n) as Hf.
    { induction cs as [|c cs IH]; intros names Hc; [done|]. cbn [fold_left].
      rewrite IH by (intros; apply Hc; by apply list_elem_of_further).
      apply list_lookup_insert_ne, Hc, list_elem_of_here. }
    rewrite Hf by done. by apply lookup_replicate_2.
  - intros c c' Hc Hc' E. rewrite !H1 in E by done. injection E as E. revert c Hc c' Hc' E.
    assert (Forall (fun c => Forall (fun c' => call_name c = call_name c' -> c = c') all_calls)
      all_calls) as HF by (repeat constructor; intros [=]).
    intros c Hc c' Hc'. rewrite Forall_forall in HF. specialize (HF c Hc).
    rewrite Forall_forall in HF. by apply HF.
Qed.

End Defs.
