(* ===== verification/Config.v ===== *)
(** * Configuration and command-line options

    [RaftConfig] (raft_defs.h), config.cc with config.h, and the entry points
    of raft_c_if.cc that wrap them. *)

From stdpp Require Import base tactics list strings.
From Stdlib Require Import ZArith Lia Ascii.
From S2P Require Import Prelude CString.

Module Config.
Import CString.

(** Character arrays are lists of their size; the other members are machine
    integers or booleans. *)
Record RaftConfig := Cfg {
  shm_path : chars;
  shm_size : Z;
  backend_type : chars;
  base_dir : chars;
  api_workers : Z;
  verbose : bool;
  listen_port : Z;
  peers : chars;
  HeartbeatTimeout : Z;
  ElectionTimeout : Z;
  CommitTimeout : Z;
  MaxAppendEntries : Z;
  ShutdownOnRemove : bool;
  DisableBootstrapAfterElect : bool;
  TrailingLogs : Z;
  SnapshotInterval : Z;
  SnapshotThreshold : Z;
  EnableSingleNode : bool;
  LeaderLeaseTimeout : Z;
  LogOutput : chars;
  RetainSnapshots : Z
}.

(** The sizes of the arrays, and the ranges of the members that options set. *)
Record config_wf (c : RaftConfig) : Prop := ConfigWf {
  wf_shm_path : length (shm_path c) = 256%nat;
  wf_backend_type : length (backend_type c) = 16%nat;
  wf_base_dir : length (base_dir c) = 256%nat;
  wf_peers : length (peers c) = 256%nat;
  wf_LogOutput : length (LogOutput c) = 256%nat;
  wf_shm_size : 0 <= shm_size c < 2 ^ 64;
  wf_listen_port : 0 <= listen_port c < 2 ^ 16
}.

(** Assignments to the members that options set. *)
Definition set_shm_path (v : chars) (c : RaftConfig) : RaftConfig :=
  let '(Cfg _ a2 a3 a4 a5 a6 a7 a8 b1 b2 b3 b4 b5 b6 b7 b8 b9 d1 d2 d3 d4) := c in
  Cfg v a2 a3 a4 a5 a6 a7 a8 b1 b2 b3 b4 b5 b6 b7 b8 b9 d1 d2 d3 d4.
Definition set_shm_size (v : Z) (c : RaftConfig) : RaftConfig :=
  let '(Cfg a1 _ a3 a4 a5 a6 a7 a8 b1 b2 b3 b4 b5 b6 b7 b8 b9 d1 d2 d3 d4) := c in
  Cfg a1 v a3 a4 a5 a6 a7 a8 b1 b2 b3 b4 b5 b6 b7 b8 b9 d1 d2 d3 d4.
Definition set_backend_type (v : chars) (c : RaftConfig) : RaftConfig :=
  let '(Cfg a1 a2 _ a4 a5 a6 a7 a8 b1 b2 b3 b4 b5 b6 b7 b8 b9 d1 d2 d3 d4) := c in
  Cfg a1 a2 v a4 a5 a6 a7 a8 b1 b2 b3 b4 b5 b6 b7 b8 b9 d1 d2 d3 d4.
Definition set_base_dir (v : chars) (c : RaftConfig) : RaftConfig :=
  let '(Cfg a1 a2 a3 _ a5 a6 a7 a8 b1 b2 b3 b4 b5 b6 b7 b8 b9 d1 d2 d3 d4) := c in
  Cfg a1 a2 a3 v a5 a6 a7 a8 b1 b2 b3 b4 b5 b6 b7 b8 b9 d1 d2 d3 d4.
Definition set_verbose (v : bool) (c : RaftConfig) : RaftConfig :=
  let '(Cfg a1 a2 a3 a4 a5 _ a7 a8 b1 b2 b3 b4 b5 b6 b7 b8 b9 d1 d2 d3 d4) := c in
  Cfg a1 a2 a3 a4 a5 v a7 a8 b1 b2 b3 b4 b5 b6 b7 b8 b9 d1 d2 d3 d4.
Definition set_listen_port (v : Z) (c : RaftConfig) : RaftConfig :=
  let '(Cfg a1 a2 a3 a4 a5 a6 _ a8 b1 b2 b3 b4 b5 b6 b7 b8 b9 d1 d2 d3 d4) := c in
  Cfg a1 a2 a3 a4 a5 a6 v a8 b1 b2 b3 b4 b5 b6 b7 b8 b9 d1 d2 d3 d4.
Definition set_peers (v : chars) (c : RaftConfig) : RaftConfig :=
  let '(Cfg a1 a2 a3 a4 a5 a6 a7 _ b1 b2 b3 b4 b5 b6 b7 b8 b9 d1 d2 d3 d4) := c in
  Cfg a1 a2 a3 a4 a5 a6 a7 v b1 b2 b3 b4 b5 b6 b7 b8 b9 d1 d2 d3 d4.
Definition set_EnableSingleNode (v : bool) (c : RaftConfig) : RaftConfig :=
  let '(Cfg a1 a2 a3 a4 a5 a6 a7 a8 b1 b2 b3 b4 b5 b6 b7 b8 b9 _ d2 d3 d4) := c in
  Cfg a1 a2 a3 a4 a5 a6 a7 a8 b1 b2 b3 b4 b5 b6 b7 b8 b9 v d2 d3 d4.

(** raft_shm.h *)
Definition SHM_PATH : chars := lit "/tmp/raft_shm".
Definition SHM_SIZE : Z := 64 * 1024 * 1024.

(** [default_config] fills a local variable; [mem] is what the memory of that
    variable held before.  [LogOutput] and the ends of the arrays are not
    written. *)
Definition default_config (mem : RaftConfig) : RaftConfig :=
  let US := 1000 in
  let MS := 1000 * US in
  let S := 1000 * MS in
  let M := 60 * S in
  {| shm_path := strncpy (shm_path mem) SHM_PATH 255;
     shm_size := SHM_SIZE;
     backend_type := strncpy (backend_type mem) (lit "boltdb") 15;
     base_dir := <[0%nat := NUL]> (base_dir mem);
     api_workers := 4;
     verbose := false;
     listen_port := 9001;
     peers := <[0%nat := NUL]> (peers mem);
     HeartbeatTimeout := 1 * S;
     ElectionTimeout := 1 * S;
     CommitTimeout := 50 * MS;
     MaxAppendEntries := 64;
     ShutdownOnRemove := true;
     DisableBootstrapAfterElect := true;
     TrailingLogs := 10240;
     SnapshotInterval := 2 * M;
     SnapshotThreshold := 8192;
     EnableSingleNode := false;
     LeaderLeaseTimeout := 500 * MS;
     LogOutput := LogOutput mem;
     RetainSnapshots := 8 |}.

(** ** Options *)

(** [enum Getopt] (config.h): consecutive values from [0xb0000]. *)
Inductive Getopt :=
  | ShmPath | ShmSize | Dir | Port | Single | Peers | Verbose | Backend | END_OPTS.

Definition getopt_code (o : Getopt) : Z :=
  0xb0000 +
  match o with
  | ShmPath => 0 | ShmSize => 1 | Dir => 2 | Port => 3 | Single => 4
  | Peers => 5 | Verbose => 6 | Backend => 7 | END_OPTS => 8
  end.

#[global] Instance Getopt_eq_dec : EqDecision Getopt.
Proof. solve_decision. Defined.

(** [struct option] of <getopt.h>; the member [flag] is always null here. *)
Inductive has_arg := no_argument | required_argument | optional_argument.
Record option_rec := Option { opt_name : string; opt_has_arg : has_arg; opt_val : Z }.

Definition LONG_OPTS : list option_rec := [
  Option "shm-path" required_argument (getopt_code ShmPath);
  Option "shm-size" required_argument (getopt_code ShmSize);
  Option "backend-type" required_argument (getopt_code Backend);
  Option "dir" required_argument (getopt_code Dir);
  Option "port" required_argument (getopt_code Port);
  Option "single" no_argument (getopt_code Single);
  Option "peers" required_argument (getopt_code Peers);
  Option "verbose" no_argument (getopt_code Verbose);
  Option "" no_argument 0].

Definition is_valid (opt : Z) : bool :=
  (getopt_code ShmPath <=? opt) && (opt <? getopt_code END_OPTS).

(** [parse_size]: a number with an optional unit. *)
Definition parse_size (spec : chars) : Z :=
  let '(coeff, endp) := strtoul spec in
  match endp with
  | [] => coeff
  | c :: _ =>
      if Ascii.eqb c "k" || Ascii.eqb c "K" then u64 (coeff * 1024)
      else if Ascii.eqb c "m" || Ascii.eqb c "M" then u64 (u64 (coeff * 1024) * 1024)
      else if Ascii.eqb c "g" || Ascii.eqb c "G" then
        u64 (u64 (u64 (coeff * 1024) * 1024) * 1024)
      else coeff
  end.

(** [assert(arg)], then the assignment. *)
Definition with_arg (arg : option chars) (f : chars -> RaftConfig -> RaftConfig) :
    M RaftConfig () :=
  match arg with
  | Some a => modify (f a)
  | None => fail AssertFailed
  end.

(** [arg::apply] *)
Definition apply (opt : Getopt) (arg : option chars) : M RaftConfig Z :=
  match opt with
  | ShmPath => with_arg arg (fun a c => set_shm_path (strncpy (shm_path c) a 255) c)
  | ShmSize => with_arg arg (fun a c => set_shm_size (parse_size a) c)
  | Backend => with_arg arg (fun a c => set_backend_type (strncpy (backend_type c) a 15) c)
  | Dir => with_arg arg (fun a c => set_base_dir (strncpy (base_dir c) a 255) c)
  | Port => with_arg arg (fun a c => set_listen_port (u16 (atoi a)) c)
  | Single => modify (set_EnableSingleNode true)
  | Peers => with_arg arg (fun a c => set_peers (strncpy (peers c) a 255) c)
  | Verbose => modify (set_verbose true)
  | END_OPTS => fail AssertFailed
  end ;;
  mret 0.

(** [(arg::Getopt) option] *)
Definition getopt_of (opt : Z) : option Getopt :=
  match opt - 0xb0000 with
  | 0 => Some ShmPath | 1 => Some ShmSize | 2 => Some Dir | 3 => Some Port
  | 4 => Some Single | 5 => Some Peers | 6 => Some Verbose | 7 => Some Backend
  | 8 => Some END_OPTS
  | _ => None
  end.

(** [raft_apply_option(cfg, option, arg)] (raft_c_if.cc); [cfg_null] says
    whether the pointer [cfg] is null. *)
Definition raft_apply_option (cfg_null : bool) (opt : Z) (arg : option chars) :
    M RaftConfig Z :=
  if cfg_null then mret 1
  else if negb (is_valid opt) then mret 1
  else match getopt_of opt with
       | Some o => apply o arg
       | None => fail AssertFailed
       end.

(** [raft_getopt_long_opts], [is_raft_option], [raft_default_config] *)
Definition raft_getopt_long_opts : list option_rec := LONG_OPTS.
Definition is_raft_option (optkey : Z) : bool := is_valid optkey.
Definition raft_default_config (cfg tmp : RaftConfig) : RaftConfig := default_config tmp.

(** ** Facts *)

Definition needs_arg (o : Getopt) : bool :=
  match o with Single | Verbose | END_OPTS => false | _ => true end.

Lemma getopt_of_code (o : Getopt) : getopt_of (getopt_code o) = Some o.
Proof. by destruct o. Qed.

Lemma is_valid_code (z : Z) :
  is_valid z = true <-> exists o, o <> END_OPTS /\ getopt_code o = z.
Proof.
  unfold is_valid. split.
  - intros H. zbool. unfold getopt_code in *.
    assert (z - 720896 = 0 \/ z - 720896 = 1 \/ z - 720896 = 2 \/ z - 720896 = 3 \/
      z - 720896 = 4 \/ z - 720896 = 5 \/ z - 720896 = 6 \/ z - 720896 = 7) as Hc by lia.
    destruct Hc as [?|[?|[?|[?|[?|[?|[?|?]]]]]]];
      [exists ShmPath|exists ShmSize|exists Dir|exists Port|exists Single|exists Peers
      |exists Verbose|exists Backend]; (split; [done|lia]).
  - intros (o & Ho & <-). by destruct o.
Qed.

(** What an option does to a configuration, the argument being there. *)
Definition effect (o : Getopt) (a : chars) (c : RaftConfig) : RaftConfig :=
  match o with
  | ShmPath => set_shm_path (strncpy (shm_path c) a 255) c
  | ShmSize => set_shm_size (parse_size a) c
  | Backend => set_backend_type (strncpy (backend_type c) a 15) c
  | Dir => set_base_dir (strncpy (base_dir c) a 255) c
  | Port => set_listen_port (u16 (atoi a)) c
  | Single => set_EnableSingleNode true c
  | Peers => set_peers (strncpy (peers c) a 255) c
  | Verbose => set_verbose true c
  | END_OPTS => c
  end.

Lemma apply_effect (o : Getopt) (arg : option chars) (c : RaftConfig) :
  o <> END_OPTS -> (needs_arg o = true -> is_Some arg) ->
  apply o arg c = Ret 0 (effect o (default [] arg) c).
Proof.
  intros Ho Ha. destruct o; try done; destruct arg; try done; by destruct (Ha eq_refl).
Qed.

Lemma raft_apply_option_effect (o : Getopt) (arg : option chars) (c : RaftConfig) :
  o <> END_OPTS -> (needs_arg o = true -> is_Some arg) ->
  raft_apply_option false (getopt_code o) arg c = Ret 0 (effect o (default [] arg) c).
Proof.
  intros Ho Ha. unfold raft_apply_option.
  rewrite (proj2 (is_valid_code (getopt_code o))) by eauto. simpl.
  rewrite getopt_of_code. by apply apply_effect.
Qed.

Lemma parse_size_range (s : chars) : 0 <= parse_size s < 2 ^ 64.
Proof.
  unfold parse_size. pose proof (strtoul_range s) as H. destruct (strtoul s) as [coeff endp].
  destruct endp as [|c endp]; [done|].
  repeat case_if; try done; apply wrap_range; lia.
Qed.

Lemma effect_wf (o : Getopt) (a : chars) (c : RaftConfig) :
  config_wf c -> config_wf (effect o a c).
Proof.
  intros []. pose proof (parse_size_range a). pose proof (wrap_range 16 (atoi a)).
  destruct c; destruct o; constructor; simpl in *; rewrite ?length_strncpy by lia; lia || done.
Qed.

Lemma u64_mul_chain (x a b : Z) : u64 (u64 (x * a) * b) = u64 (x * (a * b)).
Proof. unfold wrap. by rewrite Zmult_mod_idemp_l, Z.mul_assoc. Qed.

(** The table lists each valid option once, with the kind of argument that
    [apply] asserts. *)
Definition option_entry (o : Getopt) : option option_rec :=
  find (fun r => opt_val r =? getopt_code o) LONG_OPTS.

Local Ltac entry o := exists o; split_and!; done.

Lemma long_opts_entry (r : option_rec) :
  r ∈ LONG_OPTS -> opt_name r <> ""%string ->
  exists o, o <> END_OPTS /\ opt_val r = getopt_code o /\
    (needs_arg o = true <-> opt_has_arg r = required_argument).
Proof.
  intros Hr Hn. unfold LONG_OPTS in Hr.
  repeat (apply elem_of_cons in Hr as [->|Hr];
    [first [by destruct Hn|entry ShmPath|entry ShmSize|entry Backend|entry Dir|entry Port
           |entry Single|entry Peers|entry Verbose]|]).
  by apply not_elem_of_nil in Hr.
Qed.

(** The array that a string option fills, and how much of it [strncpy] writes. *)
Definition string_field (o : Getopt) (c : RaftConfig) : option (chars * nat) :=
  match o with
  | ShmPath => Some (shm_path c, 255%nat)
  | Dir => Some (base_dir c, 255%nat)
  | Peers => Some (peers c, 255%nat)
  | Backend => Some (backend_type c, 15%nat)
  | _ => None
  end.

Lemma effect_string_field (o : Getopt) (a buf : chars) (n : nat) (c : RaftConfig) :
  string_field o c = Some (buf, n) ->
  string_field o (effect o a c) = Some (strncpy buf a n, n).
Proof. intros H. destruct c; destruct o; by simplify_eq/=. Qed.

(** ** Properties *)

(** The integers that [is_valid] accepts are exactly the values in the table
    that is given to [getopt_long], and no value and no name is listed twice. *)
Theorem raft_option_table :
  (forall z, is_valid z = true <->
     exists r, r ∈ LONG_OPTS /\ opt_name r <> ""%string /\ opt_val r = z) /\
  NoDup (opt_val <$> LONG_OPTS) /\ NoDup (opt_name <$> LONG_OPTS).
Proof.
  split; [|split; by apply (bool_decide_unpack _)].
  intros z. rewrite is_valid_code. split.
  - intros (o & Ho & <-).
    destruct (option_entry o) as [r|] eqn:E; [|by destruct o].
    exists r. pose proof (find_some _ _ E) as [Hin Hv]. zbool.
    split_and!; [by apply list_elem_of_In| |done].
    destruct o; try done; vm_compute in E; by injection E as <-.
  - intros (r & Hr & Hn & <-). destruct (long_opts_entry r Hr Hn) as (o & Ho & -> & _). eauto.
Qed.

(** With what [getopt_long] delivers for the table (an entry of the table,
    with an argument when the entry requires one) [raft_apply_option] returns 0
    without a failed assertion and keeps the configuration well formed. A null
    configuration or a value outside the table gives 1 and changes nothing. *)
Theorem raft_apply_option_total (c : RaftConfig) (arg : option chars) :
  config_wf c ->
  (forall r, r ∈ LONG_OPTS -> opt_name r <> ""%string ->
     (opt_has_arg r = required_argument -> is_Some arg) ->
     exists c', raft_apply_option false (opt_val r) arg c = Ret 0 c' /\ config_wf c') /\
  (forall opt, raft_apply_option true opt arg c = Ret 1 c) /\
  (forall opt, is_valid opt = false -> raft_apply_option false opt arg c = Ret 1 c).
Proof.
  intros Hwf. split_and!.
  - intros r Hr Hn Ha. destruct (long_opts_entry r Hr Hn) as (o & Ho & -> & Hneeds).
    eexists. split; [apply raft_apply_option_effect; [done|]|by apply effect_wf].
    intros H. by apply Ha, Hneeds.
  - done.
  - intros opt H. unfold raft_apply_option. by rewrite H.
Qed.

(** Options that are not the same option commute: the configuration does
    not depend on the order in which different options are given. *)
Theorem raft_options_commute (o1 o2 : Getopt) (a1 a2 : chars) (c : RaftConfig) :
  o1 <> o2 -> o1 <> END_OPTS -> o2 <> END_OPTS ->
  (raft_apply_option false (getopt_code o1) (Some a1) ≫= fun _ =>
   raft_apply_option false (getopt_code o2) (Some a2)) c =
  (raft_apply_option false (getopt_code o2) (Some a2) ≫= fun _ =>
   raft_apply_option false (getopt_code o1) (Some a1)) c.
Proof.
  intros Hne H1 H2.
  assert (forall o o' a a', o <> END_OPTS -> o' <> END_OPTS ->
    (raft_apply_option false (getopt_code o) (Some a) ≫= fun _ =>
     raft_apply_option false (getopt_code o') (Some a')) c = Ret 0 (effect o' a' (effect o a c))) as Hrun.
  { intros o o' a a' Ho Ho'.
    erewrite bind_Ret by (by apply raft_apply_option_effect).
    by rewrite raft_apply_option_effect. }
  rewrite !Hrun by done. f_equal. destruct c; by destruct o1, o2.
Qed.

(** A string option whose argument is shorter than the limit of its
    [strncpy] is read back unchanged. A longer one is cut at the limit if the
    last character of the array was the terminator before; if it was not, the
    member is not a terminated string any more. *)
Theorem string_option_stored (o : Getopt) (a buf : chars) (n : nat) (c : RaftConfig) :
  config_wf c -> no_nul a -> string_field o c = Some (buf, n) ->
  exists c' buf', raft_apply_option false (getopt_code o) (Some a) c = Ret 0 c' /\
    string_field o c' = Some (buf', n) /\
    c_str buf' =
      if decide (length a < n)%nat then Some a
      else if decide (last buf = Some NUL) then Some (take n a) else None.
Proof.
  intros Hwf Ha Hf. exists (effect o a c), (strncpy buf a n). split_and!.
  - apply raft_apply_option_effect; [by destruct o|done].
  - by apply effect_string_field.
  - assert (length buf = S n) as Hlen by (destruct Hwf; destruct o; simplify_eq/=; lia).
    rewrite last_lookup, Hlen. simpl.
    case_decide; [by apply c_str_strncpy_fits|].
    case_decide as Hl; [by apply c_str_strncpy_cut; [..|lia|]|].
    apply c_str_strncpy_open; [done|lia|].
    destruct (lookup_lt_is_Some_2 buf n) as [x Hx]; [lia|].
    rewrite (drop_S _ _ _ Hx), drop_ge by lia. constructor; [congruence|constructor].
Qed.

(** [parse_size] of a printed number and a unit is the product, reduced
    modulo 2^64: [k], [m] and [g] in either case stand for 1024 and its powers,
    and any other character for 1. *)
Theorem parse_size_units (n : Z) (sfx : chars) :
  0 <= n < 2 ^ 64 -> number_ends sfx ->
  parse_size (print_u n ++ sfx) =
    u64 (n * match sfx with
             | [] => 1
             | c :: _ =>
                 if Ascii.eqb c "k" || Ascii.eqb c "K" then 2 ^ 10
                 else if Ascii.eqb c "m" || Ascii.eqb c "M" then 2 ^ 20
                 else if Ascii.eqb c "g" || Ascii.eqb c "G" then 2 ^ 30
                 else 1
             end).
Proof.
  intros Hn Hs. unfold parse_size. rewrite strtoul_print_u by done.
  destruct sfx as [|c sfx].
  - rewrite Z.mul_1_r. symmetry. by apply wrap_small.
  - repeat case_if; rewrite ?u64_mul_chain; try done.
    rewrite Z.mul_1_r. symmetry. by apply wrap_small.
Qed.

Lemma parse_size_units_witness :
  parse_size (print_u 64 ++ lit "m") = SHM_SIZE /\ parse_size (lit "64m") = 64 * 2 ^ 20.
Proof.
  split.
  - transitivity (u64 (64 * 2 ^ 20)); [|reflexivity].
    apply (parse_size_units 64 (lit "m")); [split; [discriminate|reflexivity]|reflexivity].
  - reflexivity.
Defined.

(** A size can wrap around without notice: 2^34 gigabytes are read as 0. *)
Theorem parse_size_wraps : parse_size (lit "17179869184g") = 0.
Proof. reflexivity. Qed.

(** The port option stores a number below 2^31 modulo 2^16: a port number
    is stored as given, a larger number is not rejected. *)
Theorem port_option_stored (n : Z) (rest : chars) (c : RaftConfig) :
  0 <= n < 2 ^ 31 -> number_ends rest ->
  exists c', raft_apply_option false (getopt_code Port) (Some (print_u n ++ rest)) c = Ret 0 c' /\
    listen_port c' = n mod 2 ^ 16.
Proof.
  intros Hn Hr. eexists. split; [by apply raft_apply_option_effect|].
  destruct c; simpl. by rewrite atoi_print_u.
Qed.

Lemma port_option_stored_witness :
  exists c', raft_apply_option false (getopt_code Port) (Some (print_u 9002 ++ []))
    (default_config (Cfg [] 0 [] [] 0 false 0 [] 0 0 0 0 false false 0 0 0 false 0 [] 0)) = Ret 0 c' /\
    listen_port c' = 9002.
Proof. apply (port_option_stored 9002 []); [lia|exact I]. Defined.

(** Whatever the memory held, the default configuration has the documented
    strings, and its members are in range. *)
Theorem default_config_strings (mem : RaftConfig) :
  config_wf mem ->
  config_wf (default_config mem) /\
  c_str (shm_path (default_config mem)) = Some SHM_PATH /\
  c_str (backend_type (default_config mem)) = Some (lit "boltdb") /\
  c_str (base_dir (default_config mem)) = Some [] /\
  c_str (peers (default_config mem)) = Some [] /\
  SnapshotInterval (default_config mem) = 120 * 10 ^ 9.
Proof.
  intros []. split_and!.
  - constructor; cbn [default_config shm_path shm_size backend_type base_dir peers LogOutput listen_port];
      rewrite ?length_strncpy, ?length_insert by lia; try done; unfold SHM_SIZE; lia.
  - apply c_str_strncpy_fits; [by apply (bool_decide_unpack _)|]. vm_compute. lia.
  - apply c_str_strncpy_fits; [by apply (bool_decide_unpack _)|]. vm_compute. lia.
  - simpl. by destruct (base_dir mem).
  - simpl. by destruct (peers mem).
  - done.
Qed.

(** A configuration for the witnesses: memory full of the character x. *)
Definition demo_mem : RaftConfig :=
  let x := "x"%char in
  Cfg (replicate 256 x) 0 (replicate 16 x) (replicate 256 x) 0 false 0 (replicate 256 x)
    0 0 0 0 false false 0 0 0 false 0 (replicate 256 x) 0.

Lemma demo_mem_wf : config_wf demo_mem.
Proof. by constructor. Qed.

Lemma raft_options_commute_witness :
  (raft_apply_option false (getopt_code Port) (Some (lit "9002")) ≫= fun _ =>
   raft_apply_option false (getopt_code Single) (Some [])) demo_mem =
  (raft_apply_option false (getopt_code Single) (Some []) ≫= fun _ =>
   raft_apply_option false (getopt_code Port) (Some (lit "9002"))) demo_mem.
Proof.
  apply (raft_options_commute Port Single (lit "9002") [] demo_mem); discriminate.
Defined.

Lemma default_config_strings_witness :
  c_str (shm_path (default_config demo_mem)) = Some SHM_PATH.
Proof. apply (default_config_strings demo_mem demo_mem_wf). Defined.

Lemma raft_apply_option_total_witness :
  exists c', raft_apply_option false (getopt_code Peers) (Some (lit "a:1")) demo_mem = Ret 0 c' /\
    config_wf c'.
Proof.
  refine (proj1 (raft_apply_option_total demo_mem (Some (lit "a:1")) demo_mem_wf)
    (Option "peers" required_argument (getopt_code Peers)) _ _ _).
  - apply list_elem_of_In. simpl. tauto.
  - discriminate.
  - intros _. eexists. reflexivity.
Defined.

(** The third case is reachable: a path of 255 characters in a default
    configuration whose last byte was not zero. *)
Lemma string_option_stored_witness :
  exists c' buf', raft_apply_option false (getopt_code ShmPath)
      (Some (replicate 255 "a"%char)) demo_mem = Ret 0 c' /\
    string_field ShmPath c' = Some (buf', 255%nat) /\ c_str buf' = None.
Proof.
  destruct (string_option_stored ShmPath (replicate 255 "a"%char) (replicate 256 "x"%char) 255%nat
    demo_mem demo_mem_wf) as (c' & buf' & H1 & H2 & H3);
    [apply (bool_decide_unpack _); reflexivity|reflexivity|].
  exists c', buf'. split; [exact H1|]. split; [exact H2|]. rewrite H3. reflexivity.
Defined.

End Config.
