(* ===== verification/Jsmn.v ===== *)
(** * The JSON tokenizer and the statistics printer

    zserge-jsmn/jsmn.c, as it is built here (neither [JSMN_STRICT] nor
    [JSMN_PARENT_LINKS]), and [raft_print_stats] of raft_c_if.cc. *)

From stdpp Require Import base tactics list strings.
From Stdlib Require Import ZArith Lia Ascii.
From S2P Require Import Prelude CString.

Module Jsmn.
Import CString.

Inductive jsmntype_t := JSMN_PRIMITIVE | JSMN_OBJECT | JSMN_ARRAY | JSMN_STRING.

#[global] Instance jsmntype_eq_dec : EqDecision jsmntype_t.
Proof. solve_decision. Defined.

(** [jsmnerr_t] *)
Definition JSMN_ERROR_NOMEM : Z := -1.
Definition JSMN_ERROR_INVAL : Z := -2.
Definition JSMN_ERROR_PART : Z := -3.

Record jsmntok_t := Tok { type : jsmntype_t; start : Z; tend : Z; size : Z }.

(** [jsmn_parser] together with the array of tokens, whose type depends on the
    options of the build; [None] is a null pointer. *)
Record parser_of (T : Type) := Parser {
  pos : Z; toknext : Z; toksuper : Z; tokens : option (list T) }.
Arguments Parser {T} _ _ _ _.
Arguments pos {T} _.
Arguments toknext {T} _.
Arguments toksuper {T} _.
Arguments tokens {T} _.

Abbreviation jsmn_parser := (parser_of jsmntok_t).

Section Access.
Context {T : Type}.
Implicit Types p : parser_of T.

Definition set_pos (v : Z) p : parser_of T := Parser v (toknext p) (toksuper p) (tokens p).
Definition set_toknext (v : Z) p : parser_of T := Parser (pos p) v (toksuper p) (tokens p).
Definition set_toksuper (v : Z) p : parser_of T := Parser (pos p) (toknext p) v (tokens p).
Definition set_tokens (v : option (list T)) p : parser_of T :=
  Parser (pos p) (toknext p) (toksuper p) v.

Definition jsmn_init (toks : option (list T)) : parser_of T := Parser 0 0 (-1) toks.

(** ** Access to the array *)

(** [tokens[i]] outside the array is undefined behaviour. *)
Definition get_token (i : Z) : M (parser_of T) T := fun p =>
  match tokens p with
  | Some ts =>
      if 0 <=? i then
        match ts !! Z.to_nat i with Some t => Ret t p | None => Fault OutOfBounds end
      else Fault OutOfBounds
  | None => Fault BadPointer
  end.

Definition put_token (i : Z) (t : T) : M (parser_of T) () := fun p =>
  match tokens p with
  | Some ts =>
      if (0 <=? i) && (i <? Z.of_nat (length ts)) then
        Ret () (set_tokens (Some (<[Z.to_nat i := t]> ts)) p)
      else Fault OutOfBounds
  | None => Fault BadPointer
  end.

(** The loops [for (i = n - 1; i >= 0; i--)] that look for a token: the last
    index below [n] whose token satisfies [f]; [-1] if there is none. *)
Fixpoint find_token (f : T -> bool) (n : nat) : M (parser_of T) Z :=
  match n with
  | O => mret (-1)
  | S i =>
      t ← get_token (Z.of_nat i) ;
      if f t then mret (Z.of_nat i) else find_token f i
  end.

End Access.

(** [jsmn_alloc_token]: the index of the token, or [None] *)
Definition jsmn_alloc_token (num_tokens : Z) : M jsmn_parser (option Z) :=
  p ← get ;
  if num_tokens <=? toknext p then mret None
  else
    t ← get_token (toknext p) ;
    put_token (toknext p) (Tok (type t) (-1) (-1) 0) ;;
    modify (set_toknext (u32 (toknext p + 1))) ;;
    mret (Some (toknext p)).

Definition jsmn_fill_token (i : Z) (ty : jsmntype_t) (s e : Z) : M jsmn_parser () :=
  put_token i (Tok ty s e 0).

(** [if (toksuper != -1 && tokens != NULL) tokens[toksuper].size++] *)
Definition count_child : M jsmn_parser () :=
  p ← get ;
  if negb (toksuper p =? -1) && bool_decide (is_Some (tokens p)) then
    t ← get_token (toksuper p) ;
    put_token (toksuper p) (Tok (type t) (start t) (tend t) (size t + 1))
  else mret ().

(** ** Characters *)

Section Parser.
(** The [len] bytes of the input. *)
Variable js : chars.

(** [pos < len && js[pos] != '\0'] and the character *)
Definition peek (i : Z) : option ascii :=
  match js !! Z.to_nat i with
  | Some c => if Ascii.eqb c NUL then None else Some c
  | None => None
  end.

Definition quote : ascii := "034"%char.
Definition backslash : ascii := "092"%char.

Definition is_white (c : ascii) : bool :=
  Ascii.eqb c "009" || Ascii.eqb c "013" || Ascii.eqb c "010" || Ascii.eqb c " ".

(** The characters that end a primitive. *)
Definition ends_primitive (c : ascii) : bool :=
  Ascii.eqb c ":" || is_white c || Ascii.eqb c "," || Ascii.eqb c "]" || Ascii.eqb c "}".

Definition is_hex (c : ascii) : bool :=
  ((48 <=? code c) && (code c <=? 57)) || ((65 <=? code c) && (code c <=? 70))
  || ((97 <=? code c) && (code c <=? 102)).

Definition is_escape (c : ascii) : bool :=
  Ascii.eqb c quote || Ascii.eqb c "/" || Ascii.eqb c backslash || Ascii.eqb c "b"
  || Ascii.eqb c "f" || Ascii.eqb c "r" || Ascii.eqb c "n" || Ascii.eqb c "t".

(** The loop of [jsmn_parse_primitive]: the position after the primitive, or
    [None] for a character that is not allowed. *)
Fixpoint scan_primitive (fuel : nat) (i : Z) : option Z :=
  match fuel with
  | O => Some i
  | S n =>
      match peek i with
      | None => Some i
      | Some c =>
          if ends_primitive c then Some i
          else if (code c <? 32) || (127 <=? code c) then None
          else scan_primitive n (u32 (i + 1))
      end
  end.

(** The loop over the digits of [\uXXXX]: the position after them. *)
Fixpoint scan_hex (n : nat) (i : Z) : option Z :=
  match n with
  | O => Some i
  | S n =>
      match peek i with
      | None => Some i
      | Some c => if is_hex c then scan_hex n (u32 (i + 1)) else None
      end
  end.

Inductive string_end := StringAt (i : Z) | StringInvalid | StringPart.

(** The loop of [jsmn_parse_string] from position [i]. *)
Fixpoint scan_string (fuel : nat) (i : Z) : string_end :=
  match fuel with
  | O => StringPart
  | S n =>
      match peek i with
      | None => StringPart
      | Some c =>
          if Ascii.eqb c quote then StringAt i
          else if Ascii.eqb c backslash && (u32 (i + 1) <? Z.of_nat (length js)) then
            let j := u32 (i + 1) in
            match js !! Z.to_nat j with
            | None => StringInvalid
            | Some e =>
                if is_escape e then scan_string n (u32 (j + 1))
                else if Ascii.eqb e "u" then
                  match scan_hex 4 (u32 (j + 1)) with
                  | None => StringInvalid
                  | Some k => scan_string n (u32 (u32 (k - 1) + 1))
                  end
                else StringInvalid
            end
          else scan_string n (u32 (i + 1))
      end
  end.

Definition scan_fuel : nat := S (length js).

(** The end of [jsmn_parse_primitive] and [jsmn_parse_string]: allocate and fill
    a token, [start] being where to go back to without room. *)
Definition add_token (num_tokens : Z) (ty : jsmntype_t) (back s e : Z) : M jsmn_parser Z :=
  i ← jsmn_alloc_token num_tokens ;
  match i with
  | None => modify (set_pos back) ;; mret JSMN_ERROR_NOMEM
  | Some i => jsmn_fill_token i ty s e ;; mret 0
  end.

Definition jsmn_parse_primitive (num_tokens : Z) : M jsmn_parser Z :=
  p ← get ;
  let start := pos p in
  match scan_primitive scan_fuel start with
  | None => mret JSMN_ERROR_INVAL
  | Some e =>
      modify (set_pos e) ;;
      match tokens p with
      | None => modify (set_pos (u32 (e - 1))) ;; mret 0
      | Some _ =>
          r ← add_token num_tokens JSMN_PRIMITIVE start (to_int start) (to_int e) ;
          if r <? 0 then mret r else modify (set_pos (u32 (e - 1))) ;; mret 0
      end
  end.

Definition jsmn_parse_string (num_tokens : Z) : M jsmn_parser Z :=
  p ← get ;
  let start := pos p in
  match scan_string scan_fuel (u32 (start + 1)) with
  | StringInvalid => mret JSMN_ERROR_INVAL
  | StringPart => mret JSMN_ERROR_PART
  | StringAt e =>
      modify (set_pos e) ;;
      match tokens p with
      | None => mret 0
      | Some _ => add_token num_tokens JSMN_STRING start (to_int start + 1) (to_int e)
      end
  end.

(** ** The main loop *)

Definition is_open (t : jsmntok_t) : bool := negb (start t =? -1) && (tend t =? -1).

Definition is_container (t : jsmntok_t) : bool :=
  bool_decide (type t = JSMN_ARRAY) || bool_decide (type t = JSMN_OBJECT).

(** [case '{': case '[':]; the result is the error, or 0 *)
Definition open_container (num_tokens : Z) (ty : jsmntype_t) : M jsmn_parser Z :=
  p ← get ;
  match tokens p with
  | None => mret 0
  | Some _ =>
      i ← jsmn_alloc_token num_tokens ;
      match i with
      | None => mret JSMN_ERROR_NOMEM
      | Some i =>
          count_child ;;
          t ← get_token i ;
          put_token i (Tok ty (to_int (pos p)) (tend t) (size t)) ;;
          modify (fun p => set_toksuper (to_int (u32 (toknext p - 1))) p) ;;
          mret 0
      end
  end.

(** [case '}': case ']':] *)
Definition close_container (ty : jsmntype_t) : M jsmn_parser Z :=
  p ← get ;
  match tokens p with
  | None => mret 0
  | Some _ =>
      i ← find_token is_open (Z.to_nat (toknext p)) ;
      if i =? -1 then mret JSMN_ERROR_INVAL
      else
        t ← get_token i ;
        if decide (type t = ty) then
          modify (set_toksuper (-1)) ;;
          put_token i (Tok (type t) (start t) (to_int (u32 (pos p + 1))) (size t)) ;;
          j ← find_token is_open (S (Z.to_nat i)) ;
          (if j =? -1 then mret () else modify (set_toksuper j)) ;;
          mret 0
        else mret JSMN_ERROR_INVAL
  end.

(** [case ',':] *)
Definition comma : M jsmn_parser () :=
  p ← get ;
  match tokens p with
  | None => mret ()
  | Some _ =>
      t ← get_token (toksuper p) ;
      if is_container t then mret ()
      else
        i ← find_token (fun t => is_container t && is_open t) (Z.to_nat (toknext p)) ;
        if i =? -1 then mret () else modify (set_toksuper i)
  end.

(** One character: the error (negative), or how much [count] grows. *)
Definition parse_char (num_tokens : Z) (c : ascii) : M jsmn_parser Z :=
  if Ascii.eqb c "{" || Ascii.eqb c "[" then
    r ← open_container num_tokens (if Ascii.eqb c "{" then JSMN_OBJECT else JSMN_ARRAY) ;
    if r <? 0 then mret r else mret 1
  else if Ascii.eqb c "}" || Ascii.eqb c "]" then
    close_container (if Ascii.eqb c "}" then JSMN_OBJECT else JSMN_ARRAY)
  else if Ascii.eqb c quote then
    r ← jsmn_parse_string num_tokens ;
    if r <? 0 then mret r else count_child ;; mret 1
  else if is_white c then mret 0
  else if Ascii.eqb c ":" then
    modify (fun p => set_toksuper (to_int (u32 (toknext p - 1))) p) ;; mret 0
  else if Ascii.eqb c "," then comma ;; mret 0
  else
    r ← jsmn_parse_primitive num_tokens ;
    if r <? 0 then mret r else count_child ;; mret 1.

(** The loop of [jsmn_parse]; [fuel] bounds its rounds. *)
Fixpoint parse_loop (fuel : nat) (num_tokens count : Z) : M jsmn_parser Z :=
  match fuel with
  | O => block
  | S n =>
      p ← get ;
      match peek (pos p) with
      | None => mret count
      | Some c =>
          r ← parse_char num_tokens c ;
          if r <? 0 then mret r
          else
            modify (fun p => set_pos (u32 (pos p + 1)) p) ;;
            parse_loop n num_tokens (count + r)
      end
  end.

Definition jsmn_parse (num_tokens : Z) : M jsmn_parser Z :=
  count ← parse_loop (S (length js)) num_tokens 0 ;
  if count <? 0 then mret count
  else
    p ← get ;
    i ← find_token is_open (Z.to_nat (toknext p)) ;
    if i =? -1 then mret count else mret JSMN_ERROR_PART.

End Parser.

(** ** [raft_print_stats] *)

(** What is written: nothing but a log message, or the lines with key and value,
    possibly cut short by an error. *)
Inductive printed :=
  | PrintError
  | Lines (kvs : list (chars * chars)) (complete : bool).

(** [std::string(&stats[a], b - a)] *)
Definition substring (s : chars) (a b : Z) : chars :=
  firstn (Z.to_nat (b - a)) (skipn (Z.to_nat a) s).

(** The range of a token that is a part of the string; the constructor of
    [std::string] reads outside of it otherwise. *)
Definition in_string (s : chars) (t : jsmntok_t) : bool :=
  (0 <=? start t) && (start t <=? tend t) && (tend t <=? Z.of_nat (length s)).

(** The loop over the keys, from [key] on, [n] of them left. *)
Fixpoint print_keys (stats : chars) (n : nat) (key : Z) (ts : list jsmntok_t)
    (acc : list (chars * chars)) : res () printed :=
  match n with
  | O => Ret (Lines (reverse acc) true) ()
  | S n =>
      let key_i := 1 + 2 * key in
      match ts !! Z.to_nat key_i, ts !! Z.to_nat (key_i + 1) with
      | Some key_t, Some val_t =>
          if bool_decide (type key_t = JSMN_STRING) && bool_decide (type val_t = JSMN_STRING) then
            if in_string stats key_t && in_string stats val_t then
              print_keys stats n (key + 1) ts
                ((substring stats (start key_t) (tend key_t),
                  substring stats (start val_t) (tend val_t)) :: acc)
            else Fault OutOfBounds
          else Ret (Lines (reverse acc) false) ()
      | _, _ => Fault OutOfBounds
      end
  end.

(** [mem]: what the 64 tokens of the local array held. *)
Definition raft_print_stats (mem : list jsmntok_t) (stats : option chars) : res () printed :=
  match stats with
  | None => Ret PrintError ()
  | Some js =>
      match jsmn_parse js 64 (jsmn_init (Some mem)) with
      | Ret parsed p =>
          if parsed <? 1 then Ret PrintError ()
          else
            match tokens p with
            | Some ((t0 :: _) as ts) =>
                if decide (type t0 <> JSMN_OBJECT) then Ret PrintError ()
                else print_keys js (Z.to_nat (size t0)) 0 ts []
            | _ => Fault OutOfBounds
            end
      | Throw _ => Throw ()
      | Fault f => Fault f
      | Block _ => Block ()
      end
  end.

Example print_two :
  raft_print_stats (replicate 64 (Tok JSMN_PRIMITIVE 7 7 7))
    (Some (lit "{" ++ [quote] ++ lit "state" ++ [quote] ++ lit ": " ++ [quote] ++ lit "Leader" ++ [quote]
       ++ lit ", " ++ [quote] ++ lit "term" ++ [quote] ++ lit ":" ++ [quote] ++ lit "2" ++ [quote] ++ lit "}")) =
  Ret (Lines [(lit "state", lit "Leader"); (lit "term", lit "2")] true) ().
Proof. vm_compute. reflexivity. Qed.

End Jsmn.
