(* ===== verification/JsmnBuild.v ===== *)
(** * The builds of the JSON tokenizer

    zserge-jsmn/jsmn.c with the code that [JSMN_STRICT] and [JSMN_PARENT_LINKS]
    select.  The library builds it with neither, which is the model in Jsmn.v;
    jsmn_test.c builds it with and without [JSMN_STRICT]; a user of jsmn can set
    both.  With both options off the definitions here are those of Jsmn.v,
    apart from the field that is not there. *)

From stdpp Require Import base tactics list strings.
From Stdlib Require Import ZArith Lia Ascii.
From S2P Require Import Prelude CString Jsmn.

Module JsmnBuild.
Import CString Jsmn.

(** The options that are defined. *)
Record build := Build { JSMN_STRICT : bool; JSMN_PARENT_LINKS : bool }.

(** What the library is built with. *)
Definition default : build := Build false false.

(** [jsmntok_t] with its last field; without [JSMN_PARENT_LINKS] the field does
    not exist and the model leaves -1 in it. *)
Record linked_t := LTok { tok : jsmntok_t; parent : Z }.

Abbreviation parser := (parser_of linked_t).

Section Build.
Variable b : build.

(** ** Tokens *)

Definition jsmn_alloc_token (num_tokens : Z) : M parser (option Z) :=
  p ← get ;
  if num_tokens <=? toknext p then mret None
  else
    t ← get_token (toknext p) ;
    put_token (toknext p) (LTok (Tok (type (tok t)) (-1) (-1) 0) (-1)) ;;
    modify (set_toknext (u32 (toknext p + 1))) ;;
    mret (Some (toknext p)).

Definition jsmn_fill_token (i : Z) (ty : jsmntype_t) (s e : Z) : M parser () :=
  t ← get_token i ;
  put_token i (LTok (Tok ty s e 0) (parent t)).

(** [token->parent = parser->toksuper] with [JSMN_PARENT_LINKS] *)
Definition link (i : Z) : M parser () :=
  if JSMN_PARENT_LINKS b then
    p ← get ;
    t ← get_token i ;
    put_token i (LTok (tok t) (toksuper p))
  else mret ().

Definition count_child : M parser () :=
  p ← get ;
  if negb (toksuper p =? -1) && bool_decide (is_Some (tokens p)) then
    t ← get_token (toksuper p) ;
    put_token (toksuper p) (LTok (Tok (type (tok t)) (start (tok t)) (tend (tok t)) (size (tok t) + 1)) (parent t))
  else mret ().

(** ** Strings and primitives *)

Section Parser.
Variable js : chars.

(** In strict mode a colon does not end a primitive. *)
Definition ends_primitive (c : ascii) : bool :=
  (negb (JSMN_STRICT b) && Ascii.eqb c ":")
  || is_white c || Ascii.eqb c "," || Ascii.eqb c "]" || Ascii.eqb c "}".

Inductive primitive_end := PrimitiveAt (i : Z) | PrimitiveInvalid | PrimitivePart.

(** The loop of [jsmn_parse_primitive]; the end of the input does not end a
    primitive in strict mode. *)
Fixpoint scan_primitive (fuel : nat) (i : Z) : primitive_end :=
  let at_end := if JSMN_STRICT b then PrimitivePart else PrimitiveAt i in
  match fuel with
  | O => at_end
  | S n =>
      match peek js i with
      | None => at_end
      | Some c =>
          if ends_primitive c then PrimitiveAt i
          else if (code c <? 32) || (127 <=? code c) then PrimitiveInvalid
          else scan_primitive n (u32 (i + 1))
      end
  end.

Definition add_token (num_tokens : Z) (ty : jsmntype_t) (back s e : Z) : M parser Z :=
  i ← jsmn_alloc_token num_tokens ;
  match i with
  | None => modify (set_pos back) ;; mret JSMN_ERROR_NOMEM
  | Some i => jsmn_fill_token i ty s e ;; link i ;; mret 0
  end.

Definition jsmn_parse_primitive (num_tokens : Z) : M parser Z :=
  p ← get ;
  let start := pos p in
  match scan_primitive (scan_fuel js) start with
  | PrimitiveInvalid => mret JSMN_ERROR_INVAL
  | PrimitivePart => mret JSMN_ERROR_PART
  | PrimitiveAt e =>
      modify (set_pos e) ;;
      match tokens p with
      | None => modify (set_pos (u32 (e - 1))) ;; mret 0
      | Some _ =>
          r ← add_token num_tokens JSMN_PRIMITIVE start (to_int start) (to_int e) ;
          if r <? 0 then mret r else modify (set_pos (u32 (e - 1))) ;; mret 0
      end
  end.

Definition jsmn_parse_string (num_tokens : Z) : M parser Z :=
  p ← get ;
  let start := pos p in
  match scan_string js (scan_fuel js) (u32 (start + 1)) with
  | StringInvalid => mret JSMN_ERROR_INVAL
  | StringPart => mret JSMN_ERROR_PART
  | StringAt e =>
      modify (set_pos e) ;;
      match tokens p with
      | None => mret 0
      | Some _ => add_token num_tokens JSMN_STRING start (to_int start + 1) (to_int e)
      end
  end.

(** ** The main loop *)

Definition is_open (t : linked_t) : bool := Jsmn.is_open (tok t).
Definition is_container (t : linked_t) : bool := Jsmn.is_container (tok t).

Definition open_container (num_tokens : Z) (ty : jsmntype_t) : M parser Z :=
  p ← get ;
  match tokens p with
  | None => mret 0
  | Some _ =>
      i ← jsmn_alloc_token num_tokens ;
      match i with
      | None => mret JSMN_ERROR_NOMEM
      | Some i =>
          count_child ;;
          (if toksuper p =? -1 then mret () else link i) ;;
          t ← get_token i ;
          put_token i (LTok (Tok ty (to_int (pos p)) (tend (tok t)) (size (tok t))) (parent t)) ;;
          modify (fun p => set_toksuper (to_int (u32 (toknext p - 1))) p) ;;
          mret 0
      end
  end.

(** [token->end = parser->pos + 1], [t] being token [i] *)
Definition end_token (pos i : Z) (t : linked_t) : M parser () :=
  put_token i (LTok (Tok (type (tok t)) (start (tok t)) (to_int (u32 (pos + 1))) (size (tok t))) (parent t)).

(** The loop [for (;;)] over the parents from token [i] on; [fuel] bounds its
    rounds. *)
Fixpoint close_parents (fuel : nat) (pos : Z) (ty : jsmntype_t) (i : Z) : M parser Z :=
  match fuel with
  | O => block
  | S n =>
      t ← get_token i ;
      if is_open t then
        if decide (type (tok t) = ty) then
          end_token pos i t ;; modify (set_toksuper (parent t)) ;; mret 0
        else mret JSMN_ERROR_INVAL
      else if parent t =? -1 then mret 0
      else close_parents n pos ty (parent t)
  end.

Definition close_container (ty : jsmntype_t) : M parser Z :=
  p ← get ;
  match tokens p with
  | None => mret 0
  | Some _ =>
      if JSMN_PARENT_LINKS b then
        if toknext p <? 1 then mret JSMN_ERROR_INVAL
        else close_parents (Z.to_nat (toknext p)) (pos p) ty (toknext p - 1)
      else
        i ← find_token is_open (Z.to_nat (toknext p)) ;
        if i =? -1 then mret JSMN_ERROR_INVAL
        else
          t ← get_token i ;
          if decide (type (tok t) = ty) then
            modify (set_toksuper (-1)) ;;
            end_token (pos p) i t ;;
            j ← find_token is_open (S (Z.to_nat i)) ;
            (if j =? -1 then mret () else modify (set_toksuper j)) ;;
            mret 0
          else mret JSMN_ERROR_INVAL
  end.

Definition comma : M parser () :=
  p ← get ;
  match tokens p with
  | None => mret ()
  | Some _ =>
      t ← get_token (toksuper p) ;
      if is_container t then mret ()
      else if JSMN_PARENT_LINKS b then modify (set_toksuper (parent t))
      else
        i ← find_token (fun t => is_container t && is_open t) (Z.to_nat (toknext p)) ;
        if i =? -1 then mret () else modify (set_toksuper i)
  end.

(** The first characters of a primitive in strict mode. *)
Definition starts_primitive (c : ascii) : bool :=
  Ascii.eqb c "-" || ((48 <=? code c) && (code c <=? 57))
  || Ascii.eqb c "t" || Ascii.eqb c "f" || Ascii.eqb c "n".

(** What a primitive must not be the child of in strict mode. *)
Definition rejects_primitive (t : linked_t) : bool :=
  bool_decide (type (tok t) = JSMN_OBJECT)
  || (bool_decide (type (tok t) = JSMN_STRING) && negb (size (tok t) =? 0)).

(** The branch of the primitives, and of all characters that have no other. *)
Definition parse_other (num_tokens : Z) (c : ascii) : M parser Z :=
  let go := (r ← jsmn_parse_primitive num_tokens ;
             if r <? 0 then mret r else count_child ;; mret 1) in
  if JSMN_STRICT b then
    if starts_primitive c then
      p ← get ;
      match tokens p with
      | None => go
      | Some _ =>
          t ← get_token (toksuper p) ;
          if rejects_primitive t then mret JSMN_ERROR_INVAL else go
      end
    else mret JSMN_ERROR_INVAL
  else go.

Definition parse_char (num_tokens : Z) (c : ascii) : M parser Z :=
  if Ascii.eqb c "{" || Ascii.eqb c "[" then
    r ← open_container num_tokens (if Ascii.eqb c "{" then JSMN_OBJECT else JSMN_ARRAY) ;
    if r <? 0 then mret r else mret 1
  else if Ascii.eqb c "}" || Ascii.eqb c "]" then
    close_container (if Ascii.eqb c "}" then JSMN_OBJECT else JSMN_ARRAY)
  else if Ascii.eqb c quote then
    r ← jsmn_parse_string num_tokens ;
    if r <? 0 then mret r else count_child ;; mret 1
  else if is_white c then mret 0
  else if Ascii.eqb c ":" then
    modify (fun p => set_toksuper (to_int (u32 (toknext p - 1))) p) ;; mret 0
  else if Ascii.eqb c "," then comma ;; mret 0
  else parse_other num_tokens c.

Fixpoint parse_loop (fuel : nat) (num_tokens count : Z) : M parser Z :=
  match fuel with
  | O => block
  | S n =>
      p ← get ;
      match peek js (pos p) with
      | None => mret count
      | Some c =>
          r ← parse_char num_tokens c ;
          if r <? 0 then mret r
          else
            modify (fun p => set_pos (u32 (pos p + 1)) p) ;;
            parse_loop n num_tokens (count + r)
      end
  end.

Definition jsmn_parse (num_tokens : Z) : M parser Z :=
  count ← parse_loop (S (length js)) num_tokens 0 ;
  if count <? 0 then mret count
  else
    p ← get ;
    i ← find_token is_open (Z.to_nat (toknext p)) ;
    if i =? -1 then mret count else mret JSMN_ERROR_PART.

End Parser.
End Build.

(** ** Without options *)

(** The token and the parser without the field. *)
Definition forget (p : parser) : jsmn_parser :=
  Parser (pos p) (toknext p) (toksuper p) (option_map (map tok) (tokens p)).

Definition map_res {W W' A B : Type} (g : W -> W') (f : A -> B) (r : res W A) : res W' B :=
  match r with
  | Ret a w => Ret (f a) (g w)
  | Throw w => Throw (g w)
  | Fault e => Fault e
  | Block w => Block (g w)
  end.

(** [m] does what [m'] does without the field, and their results go together. *)
Definition sim {A B : Type} (f : A -> B) (m : M parser A) (m' : M jsmn_parser B) : Prop :=
  forall p, map_res forget f (m p) = m' (forget p).

Lemma sim_ret {A B : Type} (f : A -> B) a : sim f (mret a) (mret (f a)).
Proof. done. Qed.

Lemma sim_bind {A B A' B' : Type} (f : A -> A') (g : B -> B') m k m' k' :
  sim f m m' -> (forall a, sim g (k a) (k' (f a))) -> sim g (m ≫= k) (m' ≫= k').
Proof.
  intros Hm Hk p. unfold mbind, M_bind. rewrite <- Hm. destruct (m p); cbn; [apply Hk|done..].
Qed.

Lemma sim_if {A B : Type} (f : A -> B) (c : bool) m1 m2 m1' m2' :
  sim f m1 m1' -> sim f m2 m2' -> sim f (if c then m1 else m2) (if c then m1' else m2').
Proof. by destruct c. Qed.

Lemma sim_block {A B : Type} (f : A -> B) : sim f block block.
Proof. done. Qed.

Lemma sim_modify g g' : (forall p, forget (g p) = g' (forget p)) -> sim id (modify g) (modify g').
Proof. intros Hg p. cbn. by rewrite Hg. Qed.

Lemma sim_get : sim forget get get.
Proof. done. Qed.

Lemma sim_get_token i : sim tok (get_token i) (get_token i).
Proof.
  intros [q n s [ts|]]; unfold get_token; cbn; [|done]. case_if; [|done].
  change (map tok ts) with (tok <$> ts). rewrite list_lookup_fmap. by destruct (ts !! Z.to_nat i).
Qed.

Lemma sim_put_token i t : sim id (put_token i t) (put_token i (tok t)).
Proof.
  intros [q n s [ts|]]; unfold put_token; cbn; [|done]. change (map tok ts) with (tok <$> ts). rewrite length_fmap. case_if; [|done].
  unfold forget, set_tokens. cbn. by rewrite list_fmap_insert.
Qed.

Lemma sim_find_token f f' n : (forall t, f t = f' (tok t)) -> sim id (find_token f n) (find_token f' n).
Proof.
  intros Hf. induction n as [|n IH]; cbn [find_token]; [exact (sim_ret id (-1))|].
  apply (sim_bind tok); [apply sim_get_token|]. intros t. rewrite Hf. by apply sim_if.
Qed.

Create HintDb sim.
#[local] Hint Resolve sim_if sim_block sim_get sim_get_token sim_put_token sim_find_token : sim.

(** One step of a simulation. *)
Ltac sim_step :=
  lazymatch goal with
  | |- sim ?g (mret ?a) _ => exact (sim_ret g a)
  | |- sim ?g ((if ?c then mret _ else link default _) ≫= ?k) ?m =>
      destruct c; change (sim g (k tt) m); cbv beta
  | |- sim ?g (link default ?i ≫= ?k) ?m => change (sim g (k tt) m); cbv beta
  | |- sim _ (get ≫= _) _ => apply (sim_bind forget); [apply sim_get|intros ?]
  | |- sim _ (get_token _ ≫= _) _ => apply (sim_bind tok); [apply sim_get_token|intros ?]
  | |- sim _ (_ ≫= _) _ => apply (sim_bind id); [|intros ?]
  | |- sim _ (if _ then _ else _) _ => apply sim_if
  | |- sim _ (modify _) _ => by apply sim_modify
  | |- _ => by auto with sim
  end.
Ltac sim_steps :=
  repeat first
    [ sim_step
    | lazymatch goal with
      | |- sim _ (match tokens ?p with _ => _ end) _ =>
          cbn [forget tokens]; destruct (tokens p); cbn [option_map]
      | |- sim _ (match ?x with _ => _ end) _ => unfold id; destruct x
      end ].

Lemma sim_alloc_token N : sim id (jsmn_alloc_token N) (Jsmn.jsmn_alloc_token N).
Proof. unfold jsmn_alloc_token. sim_steps. Qed.

Lemma sim_fill_token i ty s e : sim id (jsmn_fill_token i ty s e) (Jsmn.jsmn_fill_token i ty s e).
Proof.
  intros [q n sup [ts|]]; [|done]. unfold jsmn_fill_token, Jsmn.jsmn_fill_token, mbind, M_bind, get_token, put_token.
  cbn. rewrite length_map. destruct (0 <=? i) eqn:Hi; [|done]. cbn.
  destruct (ts !! Z.to_nat i) eqn:Ht; cbn.
  - apply lookup_lt_Some in Ht. zbool. rewrite (proj2 (Z.ltb_lt i _)) by lia.
    unfold forget, set_tokens. cbn. change @map with (fun A B => @fmap list _ A B).
    by rewrite list_fmap_insert.
  - apply lookup_ge_None in Ht. zbool. by rewrite (proj2 (Z.ltb_ge i _)) by lia.
Qed.

Lemma sim_count_child : sim id count_child Jsmn.count_child.
Proof.
  unfold count_child, Jsmn.count_child. sim_step. cbn [forget toksuper tokens].
  replace (bool_decide (is_Some (option_map (map tok) (tokens a)))) with (bool_decide (is_Some (tokens a)))
    by (apply bool_decide_ext; destruct (tokens a); split; intros [? ?]; eauto; done).
  sim_steps.
Qed.

Lemma sim_link i : sim id (link default i) (mret ()).
Proof. done. Qed.

#[local] Hint Resolve sim_alloc_token sim_fill_token sim_count_child sim_link : sim.

Lemma sim_add_token N ty back s e :
  sim id (add_token default N ty back s e) (Jsmn.add_token N ty back s e).
Proof.
  unfold add_token, Jsmn.add_token. sim_step; [sim_step|]. destruct a as [i|]; unfold id; sim_steps.
Qed.
#[local] Hint Resolve sim_add_token : sim.

Section Default.
Variable js : chars.

Lemma scan_primitive_default fuel i :
  scan_primitive default js fuel i =
    match Jsmn.scan_primitive js fuel i with Some e => PrimitiveAt e | None => PrimitiveInvalid end.
Proof.
  revert i. induction fuel as [|fuel IH]; intros i; [done|]. cbn [scan_primitive Jsmn.scan_primitive].
  destruct (peek js i) as [c|]; [|done]. change (ends_primitive default c) with (Jsmn.ends_primitive c).
  case_if; [done|]. case_if; [done|]. apply IH.
Qed.

Lemma sim_primitive N : sim id (jsmn_parse_primitive default js N) (Jsmn.jsmn_parse_primitive js N).
Proof.
  unfold jsmn_parse_primitive, Jsmn.jsmn_parse_primitive. sim_step. cbv zeta.
  rewrite scan_primitive_default. cbn [forget pos].
  destruct (Jsmn.scan_primitive js (scan_fuel js) (pos a)); sim_steps.
Qed.

Lemma sim_string N : sim id (jsmn_parse_string default js N) (Jsmn.jsmn_parse_string js N).
Proof. unfold jsmn_parse_string, Jsmn.jsmn_parse_string. sim_step. cbv zeta. cbn [forget pos]. sim_steps. Qed.

Lemma sim_open N ty : sim id (open_container default N ty) (Jsmn.open_container N ty).
Proof.
  unfold open_container, Jsmn.open_container. sim_steps.
Qed.

Lemma sim_close ty : sim id (close_container default ty) (Jsmn.close_container ty).
Proof.
  unfold close_container, Jsmn.close_container. cbn [JSMN_PARENT_LINKS default]. unfold end_token. sim_steps.
Qed.

Lemma sim_comma : sim id (comma default) Jsmn.comma.
Proof. unfold comma, Jsmn.comma. cbn [JSMN_PARENT_LINKS default]. sim_steps. Qed.

#[local] Hint Resolve sim_primitive sim_string sim_open sim_close sim_comma : sim.

Lemma sim_char N c : sim id (parse_char default js N c) (Jsmn.parse_char js N c).
Proof. unfold parse_char, Jsmn.parse_char, parse_other. cbn [JSMN_STRICT default]. sim_steps. Qed.
#[local] Hint Resolve sim_char : sim.

Lemma sim_loop fuel N count : sim id (parse_loop default js fuel N count) (Jsmn.parse_loop js fuel N count).
Proof.
  revert count. induction fuel as [|fuel IH]; intros count; cbn [parse_loop Jsmn.parse_loop]; [apply sim_block|].
  sim_step. cbn [forget pos]. sim_steps; apply IH.
Qed.
#[local] Hint Resolve sim_loop : sim.

Lemma sim_parse N : sim id (jsmn_parse default js N) (Jsmn.jsmn_parse js N).
Proof. unfold jsmn_parse, Jsmn.jsmn_parse. sim_steps. Qed.

End Default.

(** Without options the tokenizer of this file is the one the library is
    built with: on every input, with every array of tokens and also without one,
    it returns, faults or waits as [jsmn_parse] of Jsmn.v does, with the same
    number and the same parser and tokens apart from the field for the parent. *)
Theorem default_build (js : chars) (N : Z) (toks : option (list linked_t)) :
  map_res forget id (jsmn_parse default js N (jsmn_init toks)) =
  Jsmn.jsmn_parse js N (jsmn_init (option_map (map tok) toks)).
Proof. apply sim_parse. Qed.

(** ** What the options change *)

(** With [JSMN_PARENT_LINKS] a bracket that closes nothing is skipped; without
    it, it is an error. *)
Theorem links_stray_bracket (strict : bool) (t : linked_t) :
  exists p, jsmn_parse (Build strict true) (lit "[]]") 1 (jsmn_init (Some [t])) = Ret 1 p /\
  exists p', jsmn_parse (Build strict false) (lit "[]]") 1 (jsmn_init (Some [t])) = Ret JSMN_ERROR_INVAL p'.
Proof. destruct strict; eexists; (split; [reflexivity|eexists; reflexivity]). Qed.

(** In strict mode a primitive outside of every container reads [tokens[-1]],
    where it is a token without the option. *)
Theorem strict_primitive_out_of_bounds (links : bool) (t : linked_t) :
  jsmn_parse (Build true links) (lit "1 ") 1 (jsmn_init (Some [t])) = Fault OutOfBounds /\
  exists p, jsmn_parse (Build false links) (lit "1 ") 1 (jsmn_init (Some [t])) = Ret 1 p.
Proof. destruct links; (split; [reflexivity|eexists; reflexivity]). Qed.

(** In strict mode a colon is a part of the primitive before it: [[1:2]] has
    one element and is accepted. *)
Theorem strict_takes_colon (links : bool) (t t' : linked_t) :
  exists p ts, jsmn_parse (Build true links) (lit "[1:2]") 2 (jsmn_init (Some [t; t'])) = Ret 2 p /\
    tokens p = Some ts /\ tok <$> ts = [Tok JSMN_ARRAY 0 5 1; Tok JSMN_PRIMITIVE 1 4 0].
Proof. destruct links; do 2 eexists; (split_and!; [reflexivity|reflexivity|reflexivity]). Qed.

End JsmnBuild.
