(* ===== verification/JsmnTest.v ===== *)
(** * The tests of the tokenizer

    zserge-jsmn/jsmn_test.c on the model.  The program includes jsmn.c twice, with
    and without [JSMN_STRICT]; each test function is a definition here that takes
    the build, and all of them pass, whatever the token arrays on the stack hold
    at the start, with and without [JSMN_PARENT_LINKS].  In the strings of this
    file a single quote stands for a double quote. *)

From stdpp Require Import base tactics list strings.
From Stdlib Require Import ZArith Lia Ascii.
From S2P Require Import Prelude CString Jsmn JsmnBuild.

Module JsmnTest.
Import CString Jsmn JsmnBuild.

Definition unquote (c : ascii) : ascii := if Ascii.eqb c "'" then quote else c.
Definition json (s : string) : chars := map unquote (lit s).

(** ** The macros *)

(** [check]: the test ends at the first condition that does not hold. *)
Definition check (cond : bool) : M parser () := if cond then mret () else throw.

Definition at_token (i : Z) (cond : linked_t -> bool) : M parser () := t ← get_token i ; check (cond t).

Definition has_type (i : Z) (ty : jsmntype_t) : M parser () := at_token i (fun t => bool_decide (type (tok t) = ty)).
Definition has_size (i n : Z) : M parser () := at_token i (fun t => size (tok t) =? n).

Definition TOKEN_EQ (i s e : Z) (ty : jsmntype_t) : M parser () :=
  at_token i (fun t => (start (tok t) =? s) && (tend (tok t) =? e) && bool_decide (type (tok t) = ty)).

Definition TOKEN_STRING (js : chars) (i : Z) (s : chars) : M parser () :=
  at_token i (fun t =>
    bool_decide (firstn (Z.to_nat (tend (tok t) - start (tok t))) (skipn (Z.to_nat (start (tok t))) js) = s)
    && (Z.of_nat (length s) =? tend (tok t) - start (tok t))).

Section Tests.
Variable b : build.

(** [jsmn_init(&p)] keeps the array, which belongs to the test. *)
Definition init : M parser () := modify (fun p => jsmn_init (tokens p)).

(** [r = jsmn_parse(&p, js, strlen(js), t, n); check(cond(r))], and the same after [jsmn_init]. *)
Definition parsed (js : chars) (n : Z) (cond : Z -> bool) : M parser () := r ← jsmn_parse b js n ; check (cond r).
Definition fresh (js : chars) (n : Z) (cond : Z -> bool) : M parser () := init ;; parsed js n cond.

Definition accepted (r : Z) : bool := 0 <=? r.

(** ** The tests *)

Definition test_empty : M parser () :=
  fresh (json "{}") 10 accepted ;;
  TOKEN_EQ 0 0 2 JSMN_OBJECT ;;
  fresh (json "[]") 10 accepted ;;
  TOKEN_EQ 0 0 2 JSMN_ARRAY ;;
  fresh (json "{'a':[]}") 10 accepted ;;
  TOKEN_EQ 0 0 8 JSMN_OBJECT ;;
  TOKEN_EQ 1 2 3 JSMN_STRING ;;
  TOKEN_EQ 2 5 7 JSMN_ARRAY ;;
  fresh (json "[{},{}]") 10 accepted ;;
  TOKEN_EQ 0 0 7 JSMN_ARRAY ;;
  TOKEN_EQ 1 1 3 JSMN_OBJECT ;;
  TOKEN_EQ 2 4 6 JSMN_OBJECT.

Definition test_simple : M parser () :=
  let js := json "{'a': 0}" in
  fresh js 10 accepted ;;
  TOKEN_EQ 0 0 8 JSMN_OBJECT ;;
  TOKEN_EQ 1 2 3 JSMN_STRING ;;
  TOKEN_EQ 2 6 7 JSMN_PRIMITIVE ;;
  TOKEN_STRING js 0 js ;;
  TOKEN_STRING js 1 (lit "a") ;;
  TOKEN_STRING js 2 (lit "0") ;;
  fresh (json "['a':{},'b':{}]") 10 accepted ;;
  fresh (json "{
 'Day': 26,
 'Month': 9,
 'Year': 12
 }") 10 accepted.

(** A name and its value, of type [ty]. *)
Definition pair (js : chars) (ty : jsmntype_t) (name value : chars) : M parser () :=
  fresh js 10 accepted ;;
  has_type 0 JSMN_STRING ;; has_type 1 ty ;;
  TOKEN_STRING js 0 name ;; TOKEN_STRING js 1 value.

(** Only without [JSMN_STRICT]. *)
Definition test_primitive : M parser () :=
  if JSMN_STRICT b then mret () else
  pair (json "'boolVar' : true") JSMN_PRIMITIVE (lit "boolVar") (lit "true") ;;
  pair (json "'boolVar' : false") JSMN_PRIMITIVE (lit "boolVar") (lit "false") ;;
  pair (json "'intVar' : 12345") JSMN_PRIMITIVE (lit "intVar") (lit "12345") ;;
  pair (json "'floatVar' : 12.345") JSMN_PRIMITIVE (lit "floatVar") (lit "12.345") ;;
  pair (json "'nullVar' : null") JSMN_PRIMITIVE (lit "nullVar") (lit "null").

Definition test_string : M parser () :=
  pair (json "'strVar' : 'hello world'") JSMN_STRING (lit "strVar") (lit "hello world") ;;
  pair (json "'strVar' : 'escapes: \/\r\n\t\b\f\'\\'") JSMN_STRING (lit "strVar") (json "escapes: \/\r\n\t\b\f\'\\") ;;
  pair (json "'strVar' : ''") JSMN_STRING (lit "strVar") [].

Definition test_partial_string : M parser () :=
  let part r := r =? JSMN_ERROR_PART in
  let one js := has_type 0 JSMN_STRING ;; TOKEN_STRING js 0 (lit "x") in
  let first js := one js ;; p ← get ; check (toknext p =? 1) in
  let js := json "'x': 'va" in
  fresh js 10 part ;; first js ;;
  fresh (json "'x': 'va\") 10 part ;;
  fresh (json "'x': 'va\u") 10 part ;;
  let js := json "'x': 'valu" in
  parsed js 10 part ;; first js ;;
  let js := json "'x': 'value'" in
  parsed js 10 accepted ;; one js ;; has_type 1 JSMN_STRING ;; TOKEN_STRING js 1 (lit "value") ;;
  let js := json "'x': 'value', 'y': 'value y'" in
  parsed js 10 accepted ;; one js ;; has_type 1 JSMN_STRING ;; has_type 2 JSMN_STRING ;; has_type 3 JSMN_STRING ;;
  TOKEN_STRING js 1 (lit "value") ;; TOKEN_STRING js 2 (lit "y") ;; TOKEN_STRING js 3 (lit "value y").

(** Only without [JSMN_STRICT]. *)
Definition test_unquoted_keys : M parser () :=
  if JSMN_STRICT b then mret () else
  let js := json "key1: 'value'
key2 : 123" in
  fresh js 10 accepted ;;
  has_type 0 JSMN_PRIMITIVE ;; has_type 1 JSMN_STRING ;; has_type 2 JSMN_PRIMITIVE ;; has_type 3 JSMN_PRIMITIVE ;;
  TOKEN_STRING js 0 (lit "key1") ;; TOKEN_STRING js 1 (lit "value") ;;
  TOKEN_STRING js 2 (lit "key2") ;; TOKEN_STRING js 3 (lit "123").

Definition test_partial_array : M parser () :=
  let part r := r =? JSMN_ERROR_PART in
  let two := has_type 0 JSMN_ARRAY ;; has_type 1 JSMN_PRIMITIVE ;; has_type 2 JSMN_PRIMITIVE in
  let inner := two ;; has_type 3 JSMN_ARRAY ;; has_type 4 JSMN_PRIMITIVE in
  fresh (json "  [ 1, true, ") 10 part ;; two ;;
  parsed (json "  [ 1, true, [123, 'hello") 10 part ;; inner ;;
  parsed (json "  [ 1, true, [123, 'hello']") 10 part ;; inner ;; has_type 5 JSMN_STRING ;; has_size 3 2 ;;
  parsed (json "  [ 1, true, [123, 'hello']]") 10 accepted ;; inner ;; has_type 5 JSMN_STRING ;;
  has_size 3 2 ;; has_size 0 3.

(** [memset] of the arrays, and [memcpy] to the larger one: [i] tokens are known. *)
Definition test_array_nomem_round (i : Z) : M parser () :=
  let js := json "  [ 1, true, [123, 'hello']]" in
  let zero := LTok (Tok JSMN_PRIMITIVE 0 0 0) 0 in
  modify (fun p => jsmn_init (Some (replicate 10 zero))) ;;
  parsed js i (fun r => r =? JSMN_ERROR_NOMEM) ;;
  parsed js 10 accepted ;;
  has_type 0 JSMN_ARRAY ;; has_size 0 3 ;; has_type 3 JSMN_ARRAY ;; has_size 3 2.

Definition test_array_nomem : M parser () :=
  test_array_nomem_round 0 ;; test_array_nomem_round 1 ;; test_array_nomem_round 2 ;;
  test_array_nomem_round 3 ;; test_array_nomem_round 4 ;; test_array_nomem_round 5.

Definition invalid (r : Z) : bool := r =? JSMN_ERROR_INVAL.

Definition test_objects_arrays : M parser () :=
  fresh (json "[10}") 10 invalid ;;
  fresh (json "[10]") 10 accepted ;;
  fresh (json "{'a': 1]") 10 invalid ;;
  fresh (json "{'a': 1}") 10 accepted.

Definition test_issue_22 : M parser () :=
  fresh (json (
    "{ 'height':10, 'layers':[ { 'data':[6,6], 'height':10, " ++
    "'name':'Calque de Tile 1', 'opacity':1, 'type':'tilelayer', " ++
    "'visible':true, 'width':10, 'x':0, 'y':0 }], " ++
    "'orientation':'orthogonal', 'properties': { }, 'tileheight':32, " ++
    "'tilesets':[ { 'firstgid':1, 'image':'..\/images\/tiles.png', " ++
    "'imageheight':64, 'imagewidth':160, 'margin':0, 'name':'Tiles', " ++
    "'properties':{}, 'spacing':0, 'tileheight':32, 'tilewidth':32 }], " ++
    "'tilewidth':32, 'version':1, 'width':10 }")) 128 accepted.

Definition test_unicode_characters : M parser () :=
  fresh (json "{'a':'\uAbcD'}") 10 accepted ;;
  fresh (json "{'a':'str\u0000'}") 10 accepted ;;
  fresh (json "{'a':'\uFFFFstr'}") 10 accepted ;;
  fresh (json "{'a':'str\uFFGFstr'}") 10 invalid ;;
  fresh (json "{'a':'str\u@FfF'}") 10 invalid ;;
  fresh (json "{'a':['\u028']}") 10 invalid ;;
  fresh (json "{'a':['\u0280']}") 10 accepted.

Definition test_input_length : M parser () :=
  let js := json "{'a': 0}garbage" in
  fresh (firstn 8 js) 10 (fun r => r =? 3) ;;
  TOKEN_STRING js 0 (json "{'a': 0}") ;;
  TOKEN_STRING js 1 (lit "a") ;;
  TOKEN_STRING js 2 (lit "0").

(** The number of tokens without an array. *)
Definition counts (s : string) (n : Z) : M parser () := fresh (json s) 0 (fun r => r =? n).

Definition test_count : M parser () :=
  counts "{}" 1 ;; counts "[]" 1 ;; counts "[[]]" 2 ;; counts "[[], []]" 3 ;; counts "[[], []]" 3 ;;
  counts "[[], [[]], [[], []]]" 7 ;; counts "['a', [[], []]]" 5 ;; counts "[[], '[], [[]]', [[]]]" 5 ;;
  counts "[1, 2, 3]" 4 ;; counts "[1, 2, [3, 'a'], null]" 7.

Definition test_keyvalue : M parser () :=
  fresh (json "{'a': 0, 'b': 'c'}") 10 (fun r => r =? 5) ;;
  has_size 0 2 ;; has_size 1 1 ;; has_size 3 1 ;; has_size 2 0 ;; has_size 4 0 ;;
  fresh (json "{'a'
0}") 10 invalid ;;
  fresh (json "{'a', 0}") 10 invalid ;;
  fresh (json "{'a': {2}}") 10 invalid ;;
  fresh (json "{'a': {2: 3}}") 10 invalid ;;
  fresh (json "{'a': {'a': 2 3}}") 10 invalid.

Definition test_nonstrict : M parser () :=
  let js := json "a: 0garbage" in
  fresh (firstn 4 js) 10 (fun r => r =? 2) ;;
  TOKEN_STRING js 0 (lit "a") ;; TOKEN_STRING js 1 (lit "0") ;;
  fresh (json "Day : 26
Month : Sep

Year: 12") 10 (fun r => r =? 6).

(** A test with an array of [n] tokens on the stack passes. *)
Definition passes (toks : option (list linked_t)) (test : M parser ()) : bool :=
  match test (jsmn_init toks) with Ret _ _ => true | _ => false end.

End Tests.

(** [main]: which tests run with which array, [junk] being what it holds at first. *)
Definition main_tests (links : bool) (junk : linked_t) : list bool :=
  let strict := Build true links in
  let ten := Some (replicate 10 junk) in
  [passes ten (test_empty strict); passes ten (test_simple strict); passes ten (test_primitive strict);
   passes ten (test_string strict); passes ten (test_partial_string strict); passes ten (test_partial_array strict);
   passes ten (test_array_nomem strict); passes ten (test_unquoted_keys strict);
   passes ten (test_objects_arrays strict); passes ten (test_unicode_characters strict);
   passes ten (test_input_length strict); passes (Some (replicate 128 junk)) (test_issue_22 strict);
   passes None (test_count strict); passes ten (test_nonstrict (Build false links)); passes ten (test_keyvalue strict)].

(** The counts that [main] prints. *)
Definition main_counts (links : bool) (junk : linked_t) : nat * nat :=
  let ran := main_tests links junk in
  (length (List.filter id ran), length (List.filter negb ran)).

(** ** All tests pass *)

(** [main] of jsmn_test.c reports no failure, in a build with or without
    [JSMN_PARENT_LINKS] and for any contents of the arrays before the tests. *)
Theorem jsmn_tests_pass (links : bool) (junk : linked_t) : main_counts links junk = (15%nat, 0%nat).
Proof. destruct links; vm_compute; reflexivity. Qed.

(** The two tests that the program leaves out, because it defines [JSMN_STRICT]
    before them, pass in the builds they are meant for. *)
Theorem jsmn_nonstrict_tests_pass (links : bool) (junk : linked_t) :
  passes (Some (replicate 10 junk)) (test_primitive (Build false links)) = true /\
  passes (Some (replicate 10 junk)) (test_unquoted_keys (Build false links)) = true.
Proof. destruct links; split; vm_compute; reflexivity. Qed.

End JsmnTest.
