(* ===== verification/JsmnSpec.v ===== *)
(** * Correctness of the JSON tokenizer

    Every run of [jsmn_parse] ends and describes parts of the input; it stays
    inside the token array, except on a comma that follows a complete text. *)

From stdpp Require Import base tactics list strings.
From Stdlib Require Import ZArith Lia Ascii.
From S2P Require Import Prelude CString Jsmn.

Module JsmnSpec.
Import CString Jsmn.

(** ** Total correctness of computations on the parser *)

Section Runs.
Context {T : Type}.

Definition runs {A : Type} (m : M (parser_of T) A) (p : parser_of T)
    (Q : A -> parser_of T -> Prop) : Prop :=
  exists a p', m p = Ret a p' /\ Q a p'.

Lemma runs_ret {A : Type} (a : A) p (Q : A -> parser_of T -> Prop) :
  Q a p -> runs (mret a) p Q.
Proof. intros HQ. by exists a, p. Qed.

Lemma runs_bind {A B : Type} (m : M (parser_of T) A) (k : A -> M (parser_of T) B) p Q R :
  runs m p Q -> (forall a p', Q a p' -> runs (k a) p' R) -> runs (m ≫= k) p R.
Proof.
  intros (a & p' & Hm & HQ) Hk. destruct (Hk a p' HQ) as (b & p'' & Hb & HR).
  exists b, p''. split; [|done]. by erewrite bind_Ret by done.
Qed.

Lemma runs_weaken {A : Type} (m : M (parser_of T) A) p (Q R : A -> parser_of T -> Prop) :
  runs m p Q -> (forall a p', Q a p' -> R a p') -> runs m p R.
Proof. intros (a & p' & Hm & HQ) Hw. exists a, p'. auto. Qed.

Lemma runs_get {B : Type} (k : parser_of T -> M (parser_of T) B) p R :
  runs (k p) p R -> runs (get ≫= k) p R.
Proof. done. Qed.

Lemma runs_modify {B : Type} (f : parser_of T -> parser_of T) (k : () -> M (parser_of T) B) p R :
  runs (k ()) (f p) R -> runs (modify f ≫= k) p R.
Proof. done. Qed.

Variable N : Z.

Lemma runs_get_token (p : parser_of T) ts i :
  tokens p = Some ts -> Z.of_nat (length ts) = N -> 0 <= i < N ->
  runs (get_token i) p (fun t p' => p' = p /\ ts !! Z.to_nat i = Some t).
Proof.
  intros Ht Hl Hi. destruct (lookup_lt_is_Some_2 ts (Z.to_nat i)) as [t Hlk]; [lia|].
  exists t, p. unfold get_token. rewrite Ht, (proj2 (Z.leb_le 0 i)), Hlk by lia. done.
Qed.

Lemma runs_put_token (p : parser_of T) ts i t :
  tokens p = Some ts -> Z.of_nat (length ts) = N -> 0 <= i < N ->
  runs (put_token i t) p (fun _ p' => p' = set_tokens (Some (<[Z.to_nat i := t]> ts)) p).
Proof.
  intros Ht Hl Hi. exists (), (set_tokens (Some (<[Z.to_nat i := t]> ts)) p).
  unfold put_token. rewrite Ht, (proj2 (Z.leb_le 0 i)), (proj2 (Z.ltb_lt i _)) by lia. done.
Qed.

(** The search loops stay inside the tokens in use. *)
Lemma runs_find_token f (p : parser_of T) ts (n : nat) :
  tokens p = Some ts -> Z.of_nat (length ts) = N -> Z.of_nat n <= N ->
  runs (find_token f n) p (fun i p' => p' = p /\
    ((i = -1 /\ forall j t, (j < n)%nat -> ts !! j = Some t -> f t = false) \/
     (0 <= i < Z.of_nat n /\ (exists t, ts !! Z.to_nat i = Some t /\ f t = true) /\
      forall j t, i < Z.of_nat j < Z.of_nat n -> ts !! j = Some t -> f t = false))).
Proof.
  intros Ht Hl. induction n as [|n IH]; intros Hn; cbn [find_token].
  - apply runs_ret. split; [done|]. left. split; [done|]. lia.
  - eapply runs_bind; [by apply (runs_get_token p ts); [..|lia]|]. intros t ? [-> Hlk].
    rewrite Nat2Z.id in Hlk. destruct (f t) eqn:Hf.
    + apply runs_ret. split; [done|]. right. split; [lia|]. split; [exists t; by rewrite Nat2Z.id|].
      intros j t' Hj. lia.
    + eapply runs_weaken; [apply IH; lia|]. intros i p' [-> [[-> Hno]|(Hi & He & Hab)]].
      * split; [done|]. left. split; [done|]. intros j t' Hj Hlk'.
        destruct (decide (j = n)) as [->|]; [congruence|]. eapply Hno; [|done]. lia.
      * split; [done|]. right. split; [lia|]. split; [done|]. intros j t' Hj Hlk'.
        destruct (decide (j = n)) as [->|]; [congruence|]. eapply (Hab j); [lia|done].
Qed.
End Runs.

(** ** Positions in the input *)

Section Input.
Variable js : chars.
Hypothesis js_short : Z.of_nat (length js) < 2 ^ 31.

Abbreviation L := (Z.of_nat (length js)).

Lemma peek_range i c : 0 <= i -> peek js i = Some c -> i < L.
Proof.
  intros Hi. unfold peek. destruct (js !! Z.to_nat i) as [d|] eqn:E; [|done].
  apply lookup_lt_Some in E. lia.
Qed.

Lemma peek_end i : L <= i -> peek js i = None.
Proof. intros Hi. unfold peek. by rewrite lookup_ge_None_2 by lia. Qed.

Lemma u32_succ i : 0 <= i <= L -> u32 (i + 1) = i + 1.
Proof. intros Hi. apply wrap_small. lia. Qed.

Lemma to_int_small i : 0 <= i <= L -> to_int i = i.
Proof. intros Hi. unfold to_int. rewrite Z.mod_small; lia. Qed.

Lemma scan_primitive_range fuel i e :
  0 <= i <= L -> scan_primitive js fuel i = Some e -> i <= e <= L.
Proof.
  revert i. induction fuel as [|fuel IH]; intros i Hi; cbn; [by intros [= ->]; lia|].
  destruct (peek js i) as [c|] eqn:Hp; [|by intros [= ->]; lia].
  pose proof (peek_range i c ltac:(lia) Hp).
  destruct (ends_primitive c); [by intros [= ->]; lia|]. case_if; [done|].
  rewrite u32_succ by lia. intros He%IH; lia.
Qed.

(** A primitive has at least one character. *)
Lemma scan_primitive_progress i e c :
  0 <= i <= L -> peek js i = Some c -> ends_primitive c = false ->
  scan_primitive js (scan_fuel js) i = Some e -> i < e <= L.
Proof.
  intros Hi Hp Hc. unfold scan_fuel. cbn. rewrite Hp, Hc.
  pose proof (peek_range i c ltac:(lia) Hp).
  case_if; [done|]. rewrite u32_succ by lia. intros He%scan_primitive_range; lia.
Qed.

Lemma scan_hex_range n i e : 0 <= i <= L -> scan_hex js n i = Some e -> i <= e <= L.
Proof.
  revert i. induction n as [|n IH]; intros i Hi; cbn; [by intros [= ->]; lia|].
  destruct (peek js i) as [c|] eqn:Hp; [|by intros [= ->]; lia].
  pose proof (peek_range i c ltac:(lia) Hp).
  destruct (is_hex c); [|done]. rewrite u32_succ by lia. intros He%IH; lia.
Qed.

Lemma scan_string_range fuel i e :
  0 <= i <= L -> scan_string js fuel i = StringAt e -> i <= e < L.
Proof.
  revert i. induction fuel as [|fuel IH]; intros i Hi; cbn [scan_string]; [done|].
  destruct (peek js i) as [c|] eqn:Hp; [|done].
  pose proof (peek_range i c ltac:(lia) Hp). rewrite u32_succ by lia.
  destruct (Ascii.eqb c quote); [by intros [= ->]; lia|].
  destruct (Ascii.eqb c backslash && (i + 1 <? L)) eqn:Hb; [|intros He%IH; lia].
  apply andb_prop in Hb as [_ Hb%Z.ltb_lt]. rewrite u32_succ by lia.
  destruct (js !! Z.to_nat (i + 1)) as [x|]; [|done].
  destruct (is_escape x); [intros He%IH; lia|]. destruct (Ascii.eqb x "u"); [|done].
  destruct (scan_hex js 4 (i + 1 + 1)) as [k|] eqn:Hh; [|done].
  apply scan_hex_range in Hh; [|lia]. rewrite (wrap_small 32 (k - 1)) by lia.
  rewrite u32_succ by lia. intros He%IH; lia.
Qed.

(** ** The input cut off at [k]

    A token that ends before [k] is read in the same way from the first [k]
    characters. *)

Lemma peek_cut k i : 0 <= i < Z.of_nat k -> peek (take k js) i = peek js i.
Proof. intros Hi. unfold peek. by rewrite lookup_take_lt by lia. Qed.

Lemma peek_cut_end k i : Z.of_nat k <= i -> peek (take k js) i = None.
Proof. intros Hi. unfold peek. by rewrite lookup_take_ge by lia. Qed.

Lemma scan_hex_cut k n i e :
  0 <= i <= L -> scan_hex js n i = Some e -> e < Z.of_nat k -> scan_hex (take k js) n i = Some e.
Proof.
  revert i. induction n as [|n IH]; intros i Hi He Hk; [done|].
  pose proof (scan_hex_range (S n) i e Hi He). cbn in He |- *. rewrite peek_cut by lia.
  destruct (peek js i) as [c|] eqn:Hp; [|done]. pose proof (peek_range i c ltac:(lia) Hp).
  destruct (is_hex c); [|done]. rewrite u32_succ in * by lia. apply IH; [lia|done|done].
Qed.

Lemma scan_string_cut k fuel fuel' i e :
  0 <= i <= L -> scan_string js fuel i = StringAt e -> e < Z.of_nat k <= L ->
  Z.of_nat k - i < Z.of_nat fuel' -> scan_string (take k js) fuel' i = StringAt e.
Proof.
  revert fuel' i. induction fuel as [|fuel IH]; intros fuel' i Hi He Hk Hf; [done|].
  pose proof (scan_string_range _ _ _ Hi He).
  destruct fuel' as [|fuel']; [lia|]. cbn [scan_string] in He |- *.
  rewrite length_take, Nat.min_l, peek_cut by lia.
  destruct (peek js i) as [c|] eqn:Hp; [|done]. rewrite u32_succ in * by lia.
  destruct (Ascii.eqb c quote); [done|]. destruct (Ascii.eqb c backslash) eqn:Eb; cbn [andb] in *.
  2:{ apply IH; [lia|done|lia..]. }
  destruct (i + 1 <? L) eqn:El; zbool; [|apply scan_string_range in He; lia].
  rewrite u32_succ in * by lia.
  destruct (js !! Z.to_nat (i + 1)) as [x|] eqn:Hx; [|done].
  destruct (decide (i + 1 < Z.of_nat k)) as [Hik|Hik].
  - rewrite (proj2 (Z.ltb_lt (i + 1) (Z.of_nat k)) Hik), lookup_take_lt, Hx by lia.
    destruct (is_escape x); [apply IH; [lia|done|lia..]|].
    destruct (Ascii.eqb x "u"); [|done].
    destruct (scan_hex js 4 (i + 1 + 1)) as [h|] eqn:Hh; [|done].
    pose proof (scan_hex_range 4 (i + 1 + 1) h ltac:(lia) Hh).
    rewrite (wrap_small 32 (h - 1)) in * by lia. rewrite u32_succ in * by lia.
    pose proof (scan_string_range fuel (h - 1 + 1) e ltac:(lia) He).
    rewrite (scan_hex_cut k _ _ h) by (done || lia).
    rewrite (wrap_small 32 (h - 1)), u32_succ by lia. apply IH; [lia|done|lia..].
  - exfalso. destruct (is_escape x); [apply scan_string_range in He; lia|].
    destruct (Ascii.eqb x "u"); [|done].
    destruct (scan_hex js 4 (i + 1 + 1)) as [h|] eqn:Hh; [|done].
    pose proof (scan_hex_range 4 (i + 1 + 1) h ltac:(lia) Hh).
    rewrite (wrap_small 32 (h - 1)), u32_succ in He by lia. apply scan_string_range in He; lia.
Qed.

Lemma scan_primitive_cut k fuel fuel' i e :
  0 <= i <= L -> L - i < Z.of_nat fuel -> scan_primitive js fuel i = Some e ->
  e <= Z.of_nat k <= L -> Z.of_nat k - i < Z.of_nat fuel' ->
  scan_primitive (take k js) fuel' i = Some e.
Proof.
  revert fuel' i. induction fuel as [|fuel IH]; intros fuel' i Hi Hf He Hk Hf'; [lia|].
  pose proof (scan_primitive_range _ _ _ Hi He).
  destruct fuel' as [|fuel']; [lia|]. cbn in He |- *.
  destruct (decide (i = Z.of_nat k)) as [Ei|].
  - rewrite peek_cut_end by lia. f_equal. lia.
  - rewrite peek_cut by lia. destruct (peek js i) as [c|] eqn:Hp; [|done].
    pose proof (peek_range i c ltac:(lia) Hp). destruct (ends_primitive c); [done|].
    case_if; [done|]. rewrite u32_succ in * by lia. apply IH; [lia|lia|done|lia|lia].
Qed.

(** ** The invariant of the tokenizer *)

Variable N : Z.
Hypothesis N_range : 0 <= N < 2 ^ 31.

(** A token that starts at [b] or before describes a part of the input, or is a
    container whose end has not been seen. *)
Definition tok_ok (b : Z) (t : jsmntok_t) : Prop :=
  0 <= start t <= b /\ ((tend t = -1 /\ is_container t = true) \/ start t <= tend t <= L).

Definition toks_ok (b n : Z) (ts : list jsmntok_t) : Prop :=
  Z.of_nat (length ts) = N /\ forall i t, Z.of_nat i < n -> ts !! i = Some t -> tok_ok b t.

(** No token below [n] waits for its end. *)
Definition none_open (n : Z) (ts : list jsmntok_t) : Prop :=
  forall i t, Z.of_nat i < n -> ts !! i = Some t -> is_open t = false.

Record inv (b : Z) (p : jsmn_parser) (ts : list jsmntok_t) : Prop := Inv {
  iv_tokens : tokens p = Some ts;
  iv_ok : toks_ok b (toknext p) ts;
  iv_next : 0 <= toknext p <= N;
  iv_super : -1 <= toksuper p < toknext p;
  iv_pos : 0 <= pos p <= L;
  iv_closed : toksuper p = -1 -> none_open (toknext p) ts
}.

Lemma toks_mono b b' n ts : b <= b' -> toks_ok b n ts -> toks_ok b' n ts.
Proof.
  intros Hb [Hl Ht]. split; [done|]. intros i t Hi Hlk. destruct (Ht i t Hi Hlk) as [? ?].
  split; [lia|done].
Qed.

Lemma toks_insert b n ts i t :
  toks_ok b n ts -> tok_ok b t -> toks_ok b n (<[i := t]> ts).
Proof.
  intros [Hl Ht] Hok. split; [by rewrite length_insert|]. intros j t' Hj Hlk.
  destruct (decide (i = j)) as [->|]; [|rewrite list_lookup_insert_ne in Hlk by done; by eapply Ht].
  apply list_lookup_insert_Some in Hlk as [(_ & <- & _)|[? _]]; done.
Qed.

Lemma toks_alloc b n ts t :
  toks_ok b n ts -> 0 <= n -> tok_ok b t -> toks_ok b (n + 1) (<[Z.to_nat n := t]> ts).
Proof.
  intros [Hl Ht] Hn Hok. split; [by rewrite length_insert|]. intros j t' Hj Hlk.
  destruct (decide (Z.to_nat n = j)) as [<-|].
  - apply list_lookup_insert_Some in Hlk as [(_ & <- & _)|[? _]]; done.
  - rewrite list_lookup_insert_ne in Hlk by done. apply (Ht j); [lia|done].
Qed.

Lemma runs_alloc_token p ts :
  tokens p = Some ts -> Z.of_nat (length ts) = N -> 0 <= toknext p <= N ->
  runs (jsmn_alloc_token N) p (fun r p' =>
    (r = None /\ p' = p /\ toknext p = N) \/
    (exists t, r = Some (toknext p) /\ toknext p < N /\
       p' = Parser (pos p) (toknext p + 1) (toksuper p)
         (Some (<[Z.to_nat (toknext p) := Tok (type t) (-1) (-1) 0]> ts)))).
Proof.
  intros Ht Hl Hn. unfold jsmn_alloc_token. apply runs_get.
  destruct (N <=? toknext p) eqn:E; zbool; [apply runs_ret; left; split_and!; [done..|lia]|].
  eapply runs_bind; [by apply (runs_get_token N p ts); [..|lia]|]. intros t ? [-> _].
  eapply runs_bind; [by apply (runs_put_token N p ts); [..|lia]|]. intros _ ? ->.
  apply runs_modify, runs_ret. right. exists t. split_and!; [done|lia|].
  unfold set_toknext, set_tokens. cbn. rewrite wrap_small by lia. done.
Qed.

(** [count_child] keeps the tokens what they are. *)
Lemma runs_count_child b p ts n :
  tokens p = Some ts -> toks_ok b n ts -> n <= N -> -1 <= toksuper p < n ->
  runs count_child p (fun _ p' => exists ts', p' = set_tokens (Some ts') p /\ toks_ok b n ts' /\
    (toksuper p = -1 -> ts' = ts) /\
    forall j t, Z.of_nat j <> toksuper p -> ts !! j = Some t -> ts' !! j = Some t).
Proof.
  intros Ht Hok Hn Hs. pose proof Hok as [Hl Htok]. unfold count_child. apply runs_get.
  rewrite Ht, bool_decide_true, andb_true_r by done.
  destruct (toksuper p =? -1) eqn:E; zbool; cbn [negb].
  - apply runs_ret. exists ts. split_and!; try done. destruct p; cbn in *; by subst.
  - eapply runs_bind; [by apply (runs_get_token N p ts); [..|lia]|]. intros t ? [-> Hlk].
    eapply runs_weaken; [by apply (runs_put_token N p ts); [..|lia]|]. intros _ ? ->.
    eexists. split; [done|]. split.
    + apply toks_insert; [done|]. refine (Htok _ t _ Hlk). lia.
    + split; [done|]. intros j t' Hj Hlk'. rewrite list_lookup_insert_ne by lia. done.
Qed.

(** ** One character *)

Definition is_error (r : Z) : Prop :=
  r = JSMN_ERROR_NOMEM \/ r = JSMN_ERROR_INVAL \/ r = JSMN_ERROR_PART.

(** What a step that returns [r] leaves: an error, or a parser that is ahead by
    [r] tokens and not behind in the input. *)
Definition stepped (p : jsmn_parser) (r : Z) (p' : jsmn_parser) : Prop :=
  is_error r \/
  (0 <= r /\ (exists ts, inv (pos p') p' ts) /\ pos p <= pos p' < L /\ toknext p' = toknext p + r).

Lemma is_error_neg r : is_error r -> (r <? 0) = true.
Proof. unfold is_error, JSMN_ERROR_NOMEM, JSMN_ERROR_INVAL, JSMN_ERROR_PART. lia. Qed.

(** A new token, with its end. *)
Lemma runs_add_token b p ts ty back s e :
  inv b p ts -> 0 <= s <= b -> s <= e <= L ->
  runs (add_token N ty back s e) p (fun r p' => is_error r \/
    (r = 0 /\ pos p' = pos p /\ toknext p' = toknext p + 1 /\ exists ts', inv b p' ts')).
Proof.
  intros [Ht [Hl Hok] Hn Hs Hp Hcl] Hsb He. unfold add_token.
  eapply runs_bind; [by apply (runs_alloc_token p ts)|].
  intros r p1 [(-> & -> & _)|(t & -> & Hlt & ->)].
  - apply runs_modify, runs_ret. left. by left.
  - eapply runs_bind.
    { unfold jsmn_fill_token.
      apply (runs_put_token N _ (<[Z.to_nat (toknext p) := Tok (type t) (-1) (-1) 0]> ts)); [done| |lia].
      by rewrite length_insert. }
    intros _ ? ->. apply runs_ret. right. cbn. split_and!; try done.
    eexists. constructor; cbn; [done| |lia|lia|done|].
    + rewrite list_insert_insert_eq. apply toks_alloc; [done|lia|]. split; cbn; [lia|]. right. lia.
    + intros Hsup i t' Hi Hlk. rewrite list_insert_insert_eq in Hlk.
      destruct (decide (Z.to_nat (toknext p) = i)) as [<-|].
      * apply list_lookup_insert_Some in Hlk as [(_ & <- & _)|[? _]]; [|done]. unfold is_open. cbn. lia.
      * rewrite list_lookup_insert_ne in Hlk by done. apply (Hcl Hsup i); [lia|done].
Qed.

(** What a token function leaves. *)
Definition token_added (p : jsmn_parser) (r : Z) (p' : jsmn_parser) : Prop :=
  is_error r \/
  (r = 0 /\ pos p <= pos p' < L /\ toknext p' = toknext p + 1 /\ exists ts, inv (pos p') p' ts).

Lemma after_token p r p' :
  token_added p r p' -> runs (if r <? 0 then mret r else count_child ;; mret 1) p' (stepped p).
Proof.
  intros [Herr|(-> & Hpos & Hnext & ts & [Ht Hok Hn Hs Hp Hcl])].
  - rewrite is_error_neg by done. apply runs_ret. by left.
  - cbn [Z.ltb Z.compare].
    eapply runs_bind; [apply (runs_count_child (pos p') p' ts (toknext p')); [done|done|lia|lia]|].
    intros _ ? (ts' & -> & Hok' & Hsame & _). apply runs_ret. right. split; [lia|].
    split_and!; cbn; try lia. exists ts'. constructor; try done. cbn. intros Hsup.
    rewrite (Hsame Hsup). by apply Hcl.
Qed.

Lemma runs_primitive p ts c :
  inv (pos p) p ts -> peek js (pos p) = Some c -> ends_primitive c = false ->
  runs (jsmn_parse_primitive js N) p (token_added p).
Proof.
  intros [Ht Hok Hn Hs Hp Hcl] Hpk Hc. pose proof (peek_range _ _ (proj1 Hp) Hpk).
  unfold jsmn_parse_primitive. apply runs_get. cbv zeta.
  destruct (scan_primitive js (scan_fuel js) (pos p)) as [e|] eqn:He.
  - pose proof (scan_primitive_progress (pos p) e c ltac:(lia) Hpk Hc He).
    apply runs_modify. rewrite Ht. rewrite !to_int_small by lia.
    eapply runs_bind; [apply (runs_add_token (pos p) _ ts); [|lia|lia]|].
    { constructor; cbn; try done; lia. }
    intros r p1 [Herr|(-> & E1 & E2 & ts' & Hi')].
    + rewrite is_error_neg by done. apply runs_ret. by left.
    + cbn [Z.ltb Z.compare]. apply runs_modify, runs_ret. right. cbn in *.
      rewrite wrap_small by lia. split_and!; try lia. exists ts'.
      destruct Hi'. constructor; cbn; try done; [eapply toks_mono; [|done]; lia|lia].
  - apply runs_ret. left. right. by left.
Qed.

Lemma runs_string p ts :
  inv (pos p) p ts -> pos p < L -> runs (jsmn_parse_string js N) p (token_added p).
Proof.
  intros [Ht Hok Hn Hs Hp Hcl] Hlt.
  unfold jsmn_parse_string. apply runs_get. cbv zeta. rewrite u32_succ by lia.
  destruct (scan_string js (scan_fuel js) (pos p + 1)) as [e| |] eqn:He.
  - apply scan_string_range in He; [|lia]. apply runs_modify. rewrite Ht, !to_int_small by lia.
    eapply runs_weaken; [apply (runs_add_token e _ ts); [|lia|lia]|].
    { constructor; cbn; try done; [eapply toks_mono; [|done]; lia|lia]. }
    intros r p1 [Herr|(-> & E1 & E2 & ts' & Hi')]; [by left|].
    right. cbn in *. split_and!; try lia. exists ts'. by rewrite E1.
  - apply runs_ret. left. right. by left.
  - apply runs_ret. left. right. by right.
Qed.

(** [toksuper = toknext - 1] *)
Lemma last_token n : 0 <= n <= N -> to_int (u32 (n - 1)) = n - 1.
Proof.
  intros Hn. unfold to_int, wrap. destruct (decide (n = 0)) as [->|]; [done|].
  rewrite (Z.mod_small (n - 1)) by lia. rewrite Z.mod_small; lia.
Qed.

Lemma runs_open p ts ty :
  inv (pos p) p ts -> pos p < L ->
  bool_decide (ty = JSMN_ARRAY) || bool_decide (ty = JSMN_OBJECT) = true ->
  runs (open_container N ty) p (token_added p).
Proof.
  intros [Ht [Hl Hok] Hn Hs Hp _] Hlt Hty. unfold open_container. apply runs_get. rewrite Ht.
  eapply runs_bind; [by apply (runs_alloc_token p ts)|].
  intros r p1 [(-> & -> & _)|(t & -> & Hfree & ->)]; [apply runs_ret; left; by left|].
  set (ts1 := <[Z.to_nat (toknext p) := Tok (type t) (-1) (-1) 0]> ts).
  assert (toks_ok (pos p) (toknext p) ts1) as Hok1.
  { split; [unfold ts1; by rewrite length_insert|]. intros j t' Hj Hlk.
    unfold ts1 in Hlk. rewrite list_lookup_insert_ne in Hlk by lia. by eapply Hok. }
  eapply runs_bind; [apply (runs_count_child (pos p) _ ts1 (toknext p)); [done|done|lia|done]|].
  intros _ ? (ts2 & -> & Hok2 & _ & Hsame). cbn in Hsame.
  eapply runs_bind; [apply (runs_get_token N _ ts2); [done|apply Hok2|lia]|]. intros t2 ? [-> Hlk2].
  assert (t2 = Tok (type t) (-1) (-1) 0) as ->.
  { assert (ts2 !! Z.to_nat (toknext p) = Some (Tok (type t) (-1) (-1) 0)); [|congruence].
    apply Hsame; [lia|]. apply list_lookup_insert_eq. lia. }
  eapply runs_bind; [apply (runs_put_token N _ ts2); [done|apply Hok2|lia]|]. intros _ ? ->.
  apply runs_modify, runs_ret. right. cbn. rewrite last_token by lia.
  split_and!; try lia. eexists. constructor; cbn; [done| |lia|lia|done|lia].
  apply toks_alloc; [done|lia|]. rewrite to_int_small by lia. split; cbn; [lia|]. by left.
Qed.

Lemma runs_close p ts ty :
  inv (pos p) p ts -> pos p < L -> runs (close_container ty) p (stepped p).
Proof.
  intros [Ht [Hl Hok] Hn Hs Hp _] Hlt. unfold close_container. apply runs_get. rewrite Ht.
  eapply runs_bind; [apply (runs_find_token N is_open p ts); [done|done|lia]|].
  intros i ? [-> [[-> _]|(Hi & (t & Hlk & Hopen) & Habove)]].
  { apply runs_ret. left. right. by left. }
  rewrite (proj2 (Z.eqb_neq i (-1))) by lia.
  eapply runs_bind; [apply (runs_get_token N p ts); [done|done|lia]|]. intros t' ? [-> Hlk'].
  assert (t' = t) as -> by congruence.
  case_decide as Hty; [|apply runs_ret; left; right; by left].
  apply runs_modify.
  eapply runs_bind; [apply (runs_put_token N _ ts); [done|done|lia]|]. intros _ ? ->.
  set (ts' := <[Z.to_nat i := _]> ts).
  assert (toks_ok (pos p) (toknext p) ts') as Hok'.
  { apply toks_insert; [done|]. rewrite u32_succ, to_int_small by lia.
    destruct (Hok (Z.to_nat i) t) as [Hst _]; [lia|done|]. split; cbn; [lia|]. right. lia. }
  eapply runs_bind; [apply (runs_find_token N is_open _ ts'); [done|apply Hok'|lia]|].
  intros j ? [-> Hj].
  eapply (runs_bind _ _ _ (fun _ p' => exists k, p' = Parser (pos p) (toknext p) k (Some ts') /\
    -1 <= k < toknext p /\ (k = -1 -> none_open (toknext p) ts'))).
  - destruct Hj as [[-> Hno]|[Hj _]].
    + apply runs_ret. exists (-1). split; [done|]. split; [lia|]. intros _ j t' Hj Hlkj.
      destruct (decide (Z.of_nat j <= i)) as [|Hji]; [eapply (Hno j); [lia|done]|].
      unfold ts' in Hlkj. rewrite list_lookup_insert_ne in Hlkj by lia. eapply (Habove j); [lia|done].
    + rewrite (proj2 (Z.eqb_neq j (-1))) by lia. apply (runs_modify (B := ()) _ (fun _ => mret ())).
      apply runs_ret. exists j. split; [done|]. split; lia.
  - intros _ ? (k & -> & Hk & Hnone). apply runs_ret. right. cbn. split_and!; try lia.
    exists ts'. constructor; cbn; done.
Qed.

Lemma runs_comma p ts :
  inv (pos p) p ts -> 0 <= toksuper p ->
  runs comma p (fun _ p' => inv (pos p) p' ts /\ pos p' = pos p /\ toknext p' = toknext p).
Proof.
  intros Hi Hsup. pose proof Hi as [Ht [Hl Hok] Hn Hs Hp Hcl]. unfold comma. apply runs_get. rewrite Ht.
  eapply runs_bind; [apply (runs_get_token N p ts); [done|done|lia]|]. intros t ? [-> Hlk].
  destruct (is_container t); [by apply runs_ret|].
  eapply runs_bind; [apply (runs_find_token N _ p ts); [done|done|lia]|].
  intros i ? [-> [[-> _]|[Hr _]]]; [by apply runs_ret|].
  rewrite (proj2 (Z.eqb_neq i (-1))) by lia.
  apply (runs_modify (B := ()) _ (fun _ => mret ())). apply runs_ret.
  split_and!; [|done|done]. constructor; cbn; try done; lia.
Qed.

Lemma comma_outside p ts :
  tokens p = Some ts -> toksuper p = -1 -> comma p = Fault OutOfBounds.
Proof.
  intros Ht Hs. unfold comma. erewrite bind_Ret by done. rewrite Ht. unfold mbind, M_bind, get_token.
  by rewrite Hs, Ht.
Qed.

Lemma runs_parse_char p ts c :
  inv (pos p) p ts -> peek js (pos p) = Some c ->
  (parse_char js N c p = Fault OutOfBounds /\ c = ","%char /\ none_open (toknext p) ts) \/
  runs (parse_char js N c) p (stepped p).
Proof.
  intros Hi Hpk. pose proof Hi as [Ht Hok Hn Hs Hp Hcl].
  pose proof (peek_range _ _ (proj1 Hp) Hpk) as Hlt.
  unfold parse_char.
  destruct (Ascii.eqb c "{" || Ascii.eqb c "[") eqn:E1.
  { right. eapply runs_bind; [apply (runs_open p ts); [done|done|by destruct (Ascii.eqb c "{")]|].
    intros r p' [Herr|(-> & H1 & H2 & H3)].
    - rewrite is_error_neg by done. apply runs_ret. by left.
    - cbn [Z.ltb Z.compare]. apply runs_ret. right. split_and!; [lia|done|lia..]. }
  destruct (Ascii.eqb c "}" || Ascii.eqb c "]") eqn:E2; [right; by eapply runs_close|].
  destruct (Ascii.eqb c quote) eqn:E3.
  { right. eapply runs_bind; [by eapply runs_string|]. apply after_token. }
  destruct (is_white c) eqn:E4.
  { right. apply runs_ret. right. split_and!; [lia|by exists ts|lia..]. }
  destruct (Ascii.eqb c ":") eqn:E5.
  { right. apply runs_modify, runs_ret. right. cbn. split_and!; try lia. exists ts.
    rewrite last_token by lia. constructor; cbn; try done; [lia|]. intros Hz i t Hlti. lia. }
  destruct (Ascii.eqb c ",") eqn:E6.
  { destruct (decide (toksuper p = -1)) as [Hsup|Hsup].
    - left. split; [unfold mbind, M_bind; by rewrite (comma_outside p ts)|].
      apply Ascii.eqb_eq in E6. split; [done|by apply Hcl].
    - right. eapply runs_bind; [apply (runs_comma p ts); [done|lia]|].
      intros _ p' (Hi' & Hpos & Hnext). apply runs_ret. right.
      rewrite Hpos. split_and!; [lia|by exists ts|lia..]. }
  right. eapply runs_bind; [|apply after_token]. eapply runs_primitive; [done|done|].
  unfold ends_primitive. rewrite E5, E4, E6. apply orb_false_iff in E2 as [-> ->]. done.
Qed.

(** ** The same character in the input that is cut off *)

Lemma put_token_pos i (t : jsmntok_t) p a p' : put_token i t p = Ret a p' -> pos p' = pos p.
Proof. unfold put_token. destruct (tokens p); [|done]. case_if; [|done]. by intros [= _ <-]. Qed.

Lemma get_token_state i p (t : jsmntok_t) p' : get_token i p = Ret t p' -> p' = p.
Proof.
  unfold get_token. destruct (tokens p) as [ts|]; [|done]. case_if; [|done].
  destruct (ts !! Z.to_nat i); [|done]. by intros [= _ <-].
Qed.

Lemma count_child_pos p a p' : count_child p = Ret a p' -> pos p' = pos p.
Proof.
  unfold count_child. intros (? & ? & [= <- <-] & Hr)%bind_Ret_inv. case_if; [|by injection Hr as _ <-].
  apply bind_Ret_inv in Hr as (t & p1 & Hg & Hr). apply get_token_state in Hg as ->.
  by eapply put_token_pos.
Qed.

Lemma add_token_pos ty back s e p r p' :
  add_token N ty back s e p = Ret r p' -> 0 <= r -> pos p' = pos p.
Proof.
  unfold add_token, jsmn_alloc_token, jsmn_fill_token.
  intros (i & p1 & Ha & Hr)%bind_Ret_inv Hr0.
  apply bind_Ret_inv in Ha as (? & ? & [= <- <-] & Ha). case_if.
  - injection Ha as <- <-. apply bind_Ret_inv in Hr as (? & ? & _ & Hr).
    unfold JSMN_ERROR_NOMEM in Hr. injection Hr as <- _. lia.
  - apply bind_Ret_inv in Ha as (t & p2 & Hg & Ha). apply get_token_state in Hg as ->.
    apply bind_Ret_inv in Ha as (? & p3 & Hp & Ha). apply put_token_pos in Hp.
    apply bind_Ret_inv in Ha as (? & ? & [= _ <-] & Ha). injection Ha as <- <-.
    apply bind_Ret_inv in Hr as (? & p4 & Hp4 & Hr). apply put_token_pos in Hp4. injection Hr as _ <-.
    by rewrite Hp4.
Qed.

(** A token that is counted has been read, and the position is that of its end. *)
Lemma token_inv (m : M jsmn_parser Z) p r p1 :
  (m ≫= fun r => if r <? 0 then mret r else count_child ;; mret 1) p = Ret r p1 -> 0 <= r ->
  exists r0 p0, m p = Ret r0 p0 /\ 0 <= r0 /\ pos p1 = pos p0.
Proof.
  intros (r0 & p0 & Hm & Hr)%bind_Ret_inv Hr0. exists r0, p0. split; [done|].
  case_if; zbool; [injection Hr as <- <-; lia|]. split; [done|].
  apply bind_Ret_inv in Hr as (? & p2 & Hc & Hr). injection Hr as _ <-. by eapply count_child_pos.
Qed.

Lemma parse_string_cut k p r p1 ts :
  inv (pos p) p ts -> pos p < L -> jsmn_parse_string js N p = Ret r p1 -> 0 <= r ->
  pos p1 < Z.of_nat k <= L -> jsmn_parse_string (take k js) N p = Ret r p1.
Proof.
  intros [Ht _ _ _ Hp _] Hlt Hr Hr0 Hk. unfold jsmn_parse_string in *.
  erewrite bind_Ret in Hr |- * by done. cbv zeta in *. rewrite u32_succ in * by lia.
  destruct (scan_string js (scan_fuel js) (pos p + 1)) as [e| |] eqn:He;
    [|injection Hr as <- _; unfold JSMN_ERROR_INVAL, JSMN_ERROR_PART in *; lia..].
  rewrite Ht in Hr |- *. erewrite bind_Ret in Hr by done. pose proof (add_token_pos _ _ _ _ _ _ _ Hr Hr0) as Ep.
  cbn in Ep. rewrite (scan_string_cut k (scan_fuel js) _ _ e); [by erewrite bind_Ret by done|lia|done|lia|].
  unfold scan_fuel. rewrite length_take. lia.
Qed.

Lemma parse_primitive_cut k p r p1 ts c :
  inv (pos p) p ts -> peek js (pos p) = Some c -> ends_primitive c = false ->
  jsmn_parse_primitive js N p = Ret r p1 -> 0 <= r ->
  pos p1 < Z.of_nat k <= L -> jsmn_parse_primitive (take k js) N p = Ret r p1.
Proof.
  intros [Ht _ _ _ Hp _] Hpk Hc Hr Hr0 Hk. pose proof (peek_range _ _ (proj1 Hp) Hpk).
  unfold jsmn_parse_primitive in *. erewrite bind_Ret in Hr |- * by done. cbv zeta in *.
  destruct (scan_primitive js (scan_fuel js) (pos p)) as [e|] eqn:He;
    [|injection Hr as <- _; unfold JSMN_ERROR_INVAL in *; lia].
  pose proof (scan_primitive_progress (pos p) e c ltac:(lia) Hpk Hc He).
  rewrite Ht in Hr |- *. erewrite bind_Ret in Hr by done.
  assert (pos p1 = e - 1) as Ep.
  { apply bind_Ret_inv in Hr as (r2 & p2 & Ha & Hr). case_if; zbool; [injection Hr as <- <-; lia|].
    apply bind_Ret_inv in Hr as (? & ? & [= _ <-] & Hr). injection Hr as _ <-. cbn. apply wrap_small. lia. }
  rewrite (scan_primitive_cut k (scan_fuel js) _ _ e); [by erewrite bind_Ret by done|lia| |done|lia|].
  - unfold scan_fuel. lia.
  - unfold scan_fuel. rewrite length_take. lia.
Qed.

Lemma parse_char_cut k p r p1 ts c :
  inv (pos p) p ts -> peek js (pos p) = Some c -> parse_char js N c p = Ret r p1 -> 0 <= r ->
  pos p1 < Z.of_nat k <= L -> parse_char (take k js) N c p = Ret r p1.
Proof.
  intros Hi Hpk Hr Hr0 Hk. pose proof (peek_range _ _ (proj1 (iv_pos _ _ _ Hi)) Hpk) as Hlt.
  unfold parse_char in *.
  destruct (Ascii.eqb c "{" || Ascii.eqb c "["); [done|].
  destruct (Ascii.eqb c "}" || Ascii.eqb c "]") eqn:E2; [done|].
  destruct (Ascii.eqb c quote).
  { destruct (token_inv _ _ _ _ Hr Hr0) as (r0 & p0 & Hm & Hp0 & Epos).
    rewrite <- Hr. unfold mbind, M_bind.
    rewrite Hm, (parse_string_cut k p r0 p0 ts) by (done || lia). done. }
  destruct (is_white c) eqn:E4; [done|]. destruct (Ascii.eqb c ":") eqn:E5; [done|].
  destruct (Ascii.eqb c ",") eqn:E6; [done|].
  destruct (token_inv _ _ _ _ Hr Hr0) as (r0 & p0 & Hm & Hp0 & Epos).
  rewrite <- Hr. unfold mbind, M_bind.
  rewrite Hm, (parse_primitive_cut k p r0 p0 ts c); [done|done|done| |done|done|lia].
  unfold ends_primitive. rewrite E5, E4, E6. apply orb_false_iff in E2 as [-> ->]. done.
Qed.

(** ** The loop *)

(** The only access outside the array: a comma that follows a text which is
    complete by itself (or nothing). *)
Definition stray_comma (p : jsmn_parser) (count : Z) : Prop :=
  exists k, js !! k = Some ","%char /\ pos p <= Z.of_nat k /\
    forall fuel, Z.of_nat k - pos p < Z.of_nat fuel ->
    exists p' ts', parse_loop (take k js) fuel N count p = Ret (toknext p') p' /\
      tokens p' = Some ts' /\ Z.of_nat (length ts') = N /\ 0 <= toknext p' <= N /\
      none_open (toknext p') ts'.

Lemma stray_here p ts count :
  inv (pos p) p ts -> count = toknext p -> peek js (pos p) = Some ","%char ->
  none_open (toknext p) ts -> stray_comma p count.
Proof.
  intros [Ht [Hl _] Hn _ Hp _] -> Hpk Hno. exists (Z.to_nat (pos p)). split_and!; [|lia|].
  - unfold peek in Hpk. destruct (js !! _) as [d|]; [|done]. case_if; [done|]. by injection Hpk as ->.
  - intros [|fuel] Hf; [lia|]. exists p, ts. split_and!; try done; try lia.
    cbn [parse_loop]. erewrite bind_Ret by done. by rewrite peek_cut_end by lia.
Qed.

Lemma stray_later p ts count c r p1 :
  inv (pos p) p ts -> peek js (pos p) = Some c -> parse_char js N c p = Ret r p1 -> 0 <= r ->
  pos p <= pos p1 < L -> stray_comma (set_pos (pos p1 + 1) p1) (count + r) -> stray_comma p count.
Proof.
  intros Hi Hpk Hr Hr0 Hpos (k & Hk & Hpk1 & Hloop). cbn in Hpk1. exists k. split_and!; [done|lia|].
  pose proof (iv_pos _ _ _ Hi). pose proof (lookup_lt_Some _ _ _ Hk).
  intros [|fuel] Hf; [lia|]. destruct (Hloop fuel) as (p' & ts' & Hrun & Hres); [cbn; lia|].
  exists p', ts'. split; [|done]. rewrite <- Hrun. cbn [parse_loop]. erewrite bind_Ret by done.
  rewrite peek_cut, Hpk by lia. erewrite bind_Ret by (eapply parse_char_cut; [done..|lia]).
  rewrite (proj2 (Z.ltb_ge r 0)) by lia. erewrite bind_Ret by done. by rewrite u32_succ by lia.
Qed.

Lemma runs_parse_loop fuel p ts count :
  inv (pos p) p ts -> count = toknext p -> L - pos p < Z.of_nat fuel ->
  (parse_loop js fuel N count p = Fault OutOfBounds /\ stray_comma p count) \/
  runs (parse_loop js fuel N count) p (fun r p' =>
    is_error r \/ (r = toknext p' /\ exists ts', inv L p' ts')).
Proof.
  revert p ts count. induction fuel as [|fuel IH]; intros p ts count Hi Hc Hf.
  { destruct Hi. lia. }
  cbn [parse_loop]. destruct (peek js (pos p)) as [c|] eqn:Hpk.
  - destruct (runs_parse_char p ts c Hi Hpk) as [(Hr & -> & Hno)|(r & p1 & Hr & Hst)].
    + left. split; [erewrite bind_Ret by done; rewrite Hpk; unfold mbind, M_bind; by rewrite Hr|].
      by eapply stray_here.
    + destruct Hst as [Herr|(Hr0 & (ts1 & Hi1) & Hpos & Hnext)].
      * right. apply runs_get. rewrite Hpk. exists r, p1.
        split; [|by left]. erewrite bind_Ret by done. by rewrite is_error_neg.
      * pose proof (iv_pos _ _ _ Hi) as Hp0.
        assert (inv (pos p1 + 1) (set_pos (pos p1 + 1) p1) ts1) as Hi2.
        { destruct Hi1. constructor; cbn; try done; [eapply toks_mono; [|done]; lia|lia]. }
        destruct (IH (set_pos (pos p1 + 1) p1) ts1 (count + r) Hi2) as [[Hr2 Hstray]|(r2 & p2 & Hr2 & Hres)];
          [cbn; lia|destruct Hi; cbn; lia| |].
        -- left. split; [|by eapply stray_later]. erewrite bind_Ret by done. rewrite Hpk. erewrite bind_Ret by done.
           rewrite (proj2 (Z.ltb_ge r 0)) by lia. erewrite bind_Ret by done.
           rewrite u32_succ by lia. exact Hr2.
        -- right. exists r2, p2. split; [|done]. erewrite bind_Ret by done. rewrite Hpk.
           erewrite bind_Ret by done. rewrite (proj2 (Z.ltb_ge r 0)) by lia.
           erewrite bind_Ret by done. rewrite u32_succ by lia. exact Hr2.
  - right. apply runs_get. rewrite Hpk. apply runs_ret. right. split; [done|]. exists ts.
    destruct Hi. constructor; try done. eapply toks_mono; [|done]. lia.
Qed.

(** What a successful parse leaves: the tokens in use are parts of the input. *)
Definition tokens_sound (r : Z) (p : jsmn_parser) : Prop :=
  toknext p = r /\ 0 <= r <= N /\ exists ts, tokens p = Some ts /\
    forall i t, Z.of_nat i < r -> ts !! i = Some t -> 0 <= start t <= tend t /\ tend t <= L.

Lemma runs_jsmn_parse mem :
  Z.of_nat (length mem) = N ->
  (jsmn_parse js N (jsmn_init (Some mem)) = Fault OutOfBounds /\
   exists pre post r p, js = pre ++ ","%char :: post /\
     jsmn_parse pre N (jsmn_init (Some mem)) = Ret r p /\ 0 <= r) \/
  runs (jsmn_parse js N) (jsmn_init (Some mem)) (fun r p => is_error r \/ tokens_sound r p).
Proof.
  intros Hm.
  assert (inv 0 (jsmn_init (Some mem)) mem) as Hi.
  { constructor; cbn; try done; try lia; [split; [done|]; lia|]. intros _ i t Hlt. lia. }
  destruct (runs_parse_loop (S (length js)) (jsmn_init (Some mem)) mem 0 Hi) as [[Hr (k & Hk & _ & Hloop)]|Hrun];
    [done|cbn; lia| |].
  - left. split; [unfold jsmn_parse, mbind, M_bind; by rewrite Hr|].
    pose proof (lookup_lt_Some _ _ _ Hk).
    destruct (Hloop (S (length (take k js)))) as (p' & ts' & Hrun & Ht' & Hl' & Hn' & Hno);
      [cbn; rewrite length_take; lia|].
    exists (take k js), (drop (S k) js), (toknext p'), p'. split_and!; [by rewrite take_drop_middle| |lia].
    unfold jsmn_parse. erewrite bind_Ret by exact Hrun. rewrite (proj2 (Z.ltb_ge _ 0)) by lia.
    erewrite bind_Ret by done.
    destruct (runs_find_token N is_open p' ts' (Z.to_nat (toknext p')) Ht' Hl') as (i & ? & Hf & -> & Hi');
      [lia|]. erewrite bind_Ret by exact Hf.
    destruct Hi' as [[-> _]|(Hi' & (t & Hlk & Ho) & _)]; [done|].
    rewrite (Hno (Z.to_nat i) t) in Ho by (lia || done). done.
  - right. unfold jsmn_parse. eapply runs_bind; [exact Hrun|].
    intros r' p' [Herr|(-> & ts & [Ht [Hl Hok] Hn Hs Hp _])].
    + rewrite is_error_neg by done. apply runs_ret. by left.
    + rewrite (proj2 (Z.ltb_ge _ 0)) by lia. apply runs_get.
      eapply runs_bind; [apply (runs_find_token N is_open p' ts); [done|done|lia]|].
      intros i ? [-> [[-> Hno]|[Hi' _]]].
      * cbn [Z.eqb]. apply runs_ret. right. split; [done|]. split; [lia|]. exists ts. split; [done|].
        intros j t Hj Hlk. destruct (Hok j t Hj Hlk) as [Hst [[He _]|He]]; [|lia].
        assert (is_open t = false) as Hop by (eapply Hno; [|done]; lia).
        unfold is_open in Hop. rewrite He in Hop. lia.
      * rewrite (proj2 (Z.eqb_neq i (-1))) by lia. apply runs_ret. left. right. by right.
Qed.

End Input.

(** C22: the tokenizer is safe and total: on every input shorter than 2 GiB and
    every array of [N] tokens, [jsmn_parse] ends with one of its three error
    codes, or with the number of tokens it used, each of which is a closed range
    of the input. It leaves the array only on a comma that follows a text which
    is complete by itself, that is, which it accepts without the rest. *)
Theorem jsmn_parse_sound (js : chars) (N : Z) (mem : list jsmntok_t) :
  Z.of_nat (length js) < 2 ^ 31 -> 0 <= N < 2 ^ 31 -> Z.of_nat (length mem) = N ->
  (jsmn_parse js N (jsmn_init (Some mem)) = Fault OutOfBounds /\
   exists pre post r p, js = pre ++ ","%char :: post /\
     jsmn_parse pre N (jsmn_init (Some mem)) = Ret r p /\ 0 <= r) \/
  exists r p, jsmn_parse js N (jsmn_init (Some mem)) = Ret r p /\
    (is_error r \/ tokens_sound js N r p).
Proof. intros Hjs HN Hm. exact (runs_jsmn_parse js Hjs N HN mem Hm). Qed.

(** Here the text before the comma is not complete, so that the run must be sound. *)
Lemma jsmn_parse_sound_witness :
  exists r p, jsmn_parse (lit "[1, 2]") 3 (jsmn_init (Some (replicate 3 (Tok JSMN_STRING 9 9 9)))) = Ret r p /\
    (is_error r \/ tokens_sound (lit "[1, 2]") 3 r p).
Proof.
  destruct (jsmn_parse_sound (lit "[1, 2]") 3 (replicate 3 (Tok JSMN_STRING 9 9 9)))
    as [[Hf _]|Hs]; [vm_compute; reflexivity|lia|reflexivity|vm_compute in Hf; discriminate|exact Hs].
Defined.

(** A comma outside of every container reads [tokens[-1]]. *)
Theorem jsmn_comma_out_of_bounds (N : Z) (mem : list jsmntok_t) :
  jsmn_parse (lit ",") N (jsmn_init (Some mem)) = Fault OutOfBounds.
Proof. reflexivity. Qed.

End JsmnSpec.
