(* ===== verification/JsmnBuildSpec.v ===== *)
(** * Safety of every build of the tokenizer

    With any combination of the options, [jsmn_parse] ends, the walk along the
    parents included, and stays inside the token array, except where it looks at
    the superior token when there is none: on a comma and, in strict mode, on a
    primitive. *)

From stdpp Require Import base tactics list strings.
From Stdlib Require Import ZArith Lia Ascii.
From S2P Require Import Prelude CString Jsmn JsmnBuild JsmnSpec.

Module JsmnBuildSpec.
Import CString Jsmn JsmnSpec JsmnBuild.

Section Input.
Variable b : build.
Variable js : chars.
Hypothesis js_short : Z.of_nat (length js) < 2 ^ 31.
Variable N : Z.
Hypothesis N_range : 0 <= N < 2 ^ 31.

Abbreviation L := (Z.of_nat (length js)).

(** ** Tokens *)

(** Token number [i]: a part of the input, or an open container, and a parent
    before it. *)
Definition token_good (bd : Z) (i : nat) (t : linked_t) : Prop :=
  tok_ok js bd (tok t) /\ -1 <= parent t < Z.of_nat i.

Definition toks_good (bd n : Z) (ts : list linked_t) : Prop :=
  Z.of_nat (length ts) = N /\ forall i t, Z.of_nat i < n -> ts !! i = Some t -> token_good bd i t.

Record good (bd : Z) (p : parser) (ts : list linked_t) : Prop := Good {
  gd_tokens : tokens p = Some ts;
  gd_ok : toks_good bd (toknext p) ts;
  gd_next : 0 <= toknext p <= N;
  gd_super : -1 <= toksuper p < toknext p;
  gd_pos : 0 <= pos p <= L
}.

Lemma toks_good_mono bd bd' n ts : bd <= bd' -> toks_good bd n ts -> toks_good bd' n ts.
Proof.
  intros Hb [Hl Ht]. split; [done|]. intros i t Hi Hlk. destruct (Ht i t Hi Hlk) as [[Hs He] Hp].
  split; [split; [lia|exact He]|done].
Qed.

Lemma toks_good_insert bd n ts i t :
  toks_good bd n ts -> token_good bd i t -> toks_good bd n (<[i := t]> ts).
Proof.
  intros [Hl Ht] Hok. split; [by rewrite length_insert|]. intros j t' Hj Hlk.
  destruct (decide (i = j)) as [->|]; [|rewrite list_lookup_insert_ne in Hlk by done; by eapply Ht].
  apply list_lookup_insert_Some in Hlk as [(_ & <- & _)|[? _]]; done.
Qed.

Lemma toks_good_alloc bd n ts t :
  toks_good bd n ts -> 0 <= n -> token_good bd (Z.to_nat n) t ->
  toks_good bd (n + 1) (<[Z.to_nat n := t]> ts).
Proof.
  intros [Hl Ht] Hn Hok. split; [by rewrite length_insert|]. intros j t' Hj Hlk.
  destruct (decide (Z.to_nat n = j)) as [<-|].
  - apply list_lookup_insert_Some in Hlk as [(_ & <- & _)|[? _]]; done.
  - rewrite list_lookup_insert_ne in Hlk by done. apply (Ht j); [lia|done].
Qed.

(** A token that is not in use yet can be anything. *)
Lemma toks_good_free bd n ts t :
  0 <= n -> toks_good bd n ts -> toks_good bd n (<[Z.to_nat n := t]> ts).
Proof.
  intros Hn [Hl Ht]. split; [by rewrite length_insert|]. intros j t' Hj Hlk.
  rewrite list_lookup_insert_ne in Hlk by lia. by eapply Ht.
Qed.

Lemma runs_alloc p ts :
  tokens p = Some ts -> Z.of_nat (length ts) = N -> 0 <= toknext p <= N ->
  runs (jsmn_alloc_token N) p (fun r p' =>
    (r = None /\ p' = p) \/
    (exists t, r = Some (toknext p) /\ toknext p < N /\
       p' = Parser (pos p) (toknext p + 1) (toksuper p)
         (Some (<[Z.to_nat (toknext p) := LTok (Tok (type (tok t)) (-1) (-1) 0) (-1)]> ts)))).
Proof.
  intros Ht Hl Hn. unfold jsmn_alloc_token. apply runs_get.
  destruct (N <=? toknext p) eqn:E; zbool; [apply runs_ret; by left|].
  eapply runs_bind; [by apply (runs_get_token N p ts); [..|lia]|]. intros t ? [-> _].
  eapply runs_bind; [by apply (runs_put_token N p ts); [..|lia]|]. intros _ ? ->.
  apply runs_modify, runs_ret. right. exists t. split_and!; [done|lia|].
  unfold set_toknext, set_tokens. cbn. rewrite wrap_small by lia. done.
Qed.

(** The new token [n], of which only the field for the parent is written. *)
Lemma runs_link p ts n t :
  tokens p = Some ts -> Z.of_nat (length ts) = N -> 0 <= n < N -> ts !! Z.to_nat n = Some (LTok t (-1)) ->
  runs (link b n) p (fun _ p' => exists u, (u = -1 \/ u = toksuper p) /\
    p' = set_tokens (Some (<[Z.to_nat n := LTok t u]> ts)) p).
Proof.
  intros Ht Hl Hn Hlk. unfold link. destruct (JSMN_PARENT_LINKS b).
  - apply runs_get. eapply runs_bind; [by apply (runs_get_token N p ts)|]. intros t' ? [-> Hlk'].
    assert (t' = LTok t (-1)) as -> by congruence.
    eapply runs_weaken; [by apply (runs_put_token N p ts)|]. intros _ ? ->.
    exists (toksuper p). split; [by right|done].
  - apply runs_ret. exists (-1). split; [by left|]. rewrite list_insert_id by done.
    destruct p; cbn in *; by subst.
Qed.

Lemma runs_count bd p ts n :
  tokens p = Some ts -> toks_good bd n ts -> n <= N -> -1 <= toksuper p < n ->
  runs count_child p (fun _ p' => exists ts', p' = set_tokens (Some ts') p /\ toks_good bd n ts' /\
    forall j t, Z.of_nat j <> toksuper p -> ts !! j = Some t -> ts' !! j = Some t).
Proof.
  intros Ht Hok Hn Hs. pose proof Hok as [Hl Htok]. unfold count_child. apply runs_get.
  rewrite Ht, bool_decide_true, andb_true_r by done.
  destruct (toksuper p =? -1) eqn:E; zbool; cbn [negb].
  - apply runs_ret. exists ts. split_and!; try done. destruct p; cbn in *; by subst.
  - eapply runs_bind; [by apply (runs_get_token N p ts); [..|lia]|]. intros t ? [-> Hlk].
    eapply runs_weaken; [by apply (runs_put_token N p ts); [..|lia]|]. intros _ ? ->.
    eexists. split_and!; [done| |].
    + apply toks_good_insert; [done|]. refine (Htok _ t _ Hlk). lia.
    + intros j t' Hj Hlk'. rewrite list_lookup_insert_ne by lia. done.
Qed.

(** A new token, with its end. *)
Lemma runs_add bd p ts ty back s e :
  good bd p ts -> 0 <= s <= bd -> s <= e <= L ->
  runs (add_token b N ty back s e) p (fun r p' => is_error r \/
    (r = 0 /\ pos p' = pos p /\ toknext p' = toknext p + 1 /\ exists ts', good bd p' ts')).
Proof.
  intros [Ht [Hl Hok] Hn Hs Hp] Hsb He. unfold add_token.
  eapply runs_bind; [by apply (runs_alloc p ts)|].
  intros r p1 [(-> & ->)|(t & -> & Hlt & ->)]; [apply runs_modify, runs_ret; left; by left|].
  unfold jsmn_fill_token.
  eapply runs_bind.
  { eapply runs_bind; [by apply (runs_get_token N); [done|rewrite length_insert|lia]|].
    intros t1 ? [-> Hlk]. rewrite list_lookup_insert_eq in Hlk by lia. injection Hlk as <-.
    by apply (runs_put_token N); [done|rewrite length_insert|lia]. }
  intros _ ? ->. unfold set_tokens. cbn. rewrite list_insert_insert_eq.
  eapply runs_bind.
  { apply (runs_link _ (<[Z.to_nat (toknext p) := LTok (Tok ty s e 0) (-1)]> ts)); [done| |lia|].
    - by rewrite length_insert.
    - apply list_lookup_insert_eq. lia. }
  intros _ ? (u & Hu & ->). unfold set_tokens. cbn in Hu |- *. rewrite list_insert_insert_eq. apply runs_ret. right. cbn.
  split_and!; try done. eexists. constructor; cbn; [done| |lia|lia|done].
  apply toks_good_alloc; [done|lia|]. split; [split; cbn; [lia|right; lia]|]. cbn. lia.
Qed.

(** ** One character *)

(** What a token function leaves. *)
Definition added (p : parser) (r : Z) (p' : parser) : Prop :=
  is_error r \/
  (r = 0 /\ pos p <= pos p' < L /\ toknext p' = toknext p + 1 /\ exists ts, good (pos p') p' ts).

(** What a character leaves. *)
Definition moved (p : parser) (r : Z) (p' : parser) : Prop :=
  is_error r \/
  (0 <= r /\ (exists ts, good (pos p') p' ts) /\ pos p <= pos p' < L /\ toknext p' = toknext p + r).

Lemma after_added p r p' :
  added p r p' -> runs (if r <? 0 then mret r else count_child ;; mret 1) p' (moved p).
Proof.
  intros [Herr|(-> & Hpos & Hnext & ts & [Ht Hok Hn Hs Hp])].
  - rewrite is_error_neg by done. apply runs_ret. by left.
  - cbn [Z.ltb Z.compare].
    eapply runs_bind; [apply (runs_count (pos p') p' ts (toknext p')); [done|done|lia|lia]|].
    intros _ ? (ts' & -> & Hok' & _). apply runs_ret. right. split; [lia|].
    split_and!; cbn; try lia. by exists ts'.
Qed.

Lemma scan_primitive_ends fuel i e :
  0 <= i <= L -> scan_primitive b js fuel i = PrimitiveAt e -> i <= e <= L.
Proof.
  revert i. induction fuel as [|fuel IH]; intros i Hi; cbn [scan_primitive]; cbv zeta;
    [destruct (JSMN_STRICT b); [done|by intros [= ->]; lia]|].
  destruct (peek js i) as [c|] eqn:Hp; [|destruct (JSMN_STRICT b); [done|by intros [= ->]; lia]].
  pose proof (peek_range js i c ltac:(lia) Hp).
  destruct (ends_primitive b c); [by intros [= ->]; lia|]. case_if; [done|].
  rewrite (u32_succ js) by lia. intros He%IH; lia.
Qed.

Lemma runs_primitive_b p ts c :
  good (pos p) p ts -> peek js (pos p) = Some c -> ends_primitive b c = false ->
  runs (jsmn_parse_primitive b js N) p (added p).
Proof.
  intros [Ht Hok Hn Hs Hp] Hpk Hc. pose proof (peek_range js _ _ (proj1 Hp) Hpk).
  unfold jsmn_parse_primitive. apply runs_get. cbv zeta.
  destruct (scan_primitive b js (scan_fuel js) (pos p)) as [e| |] eqn:He;
    [|apply runs_ret; left; right; by left|apply runs_ret; left; right; by right].
  assert (pos p < e <= L) as Hr.
  { unfold scan_fuel in He. cbn [scan_primitive] in He. rewrite Hpk, Hc in He. case_if; [done|].
    rewrite (u32_succ js) in He by lia. apply scan_primitive_ends in He; lia. }
  apply runs_modify. rewrite Ht. rewrite !(to_int_small js) by lia.
  eapply runs_bind; [apply (runs_add (pos p) _ ts); [|lia|lia]|].
  { constructor; cbn; try done; lia. }
  intros r p1 [Herr|(-> & E1 & E2 & ts' & Hi')].
  - rewrite is_error_neg by done. apply runs_ret. by left.
  - cbn [Z.ltb Z.compare]. apply runs_modify, runs_ret. right. cbn in *.
    rewrite wrap_small by lia. split_and!; try lia. exists ts'.
    destruct Hi'. constructor; cbn; try done; [eapply toks_good_mono; [|done]; lia|lia].
Qed.

Lemma runs_string_b p ts :
  good (pos p) p ts -> pos p < L -> runs (jsmn_parse_string b js N) p (added p).
Proof.
  intros [Ht Hok Hn Hs Hp] Hlt. unfold jsmn_parse_string. apply runs_get. cbv zeta.
  rewrite (u32_succ js) by lia.
  destruct (scan_string js (scan_fuel js) (pos p + 1)) as [e| |] eqn:He;
    [|apply runs_ret; left; right; by left|apply runs_ret; left; right; by right].
  apply scan_string_range in He; [|done|lia]. apply runs_modify. rewrite Ht, !(to_int_small js) by lia.
  eapply runs_weaken; [apply (runs_add e _ ts); [|lia|lia]|].
  { constructor; cbn; try done; [eapply toks_good_mono; [|done]; lia|lia]. }
  intros r p1 [Herr|(-> & E1 & E2 & ts' & Hi')]; [by left|].
  right. cbn in *. split_and!; try lia. exists ts'. by rewrite E1.
Qed.

Lemma runs_open_b p ts ty :
  good (pos p) p ts -> pos p < L ->
  bool_decide (ty = JSMN_ARRAY) || bool_decide (ty = JSMN_OBJECT) = true ->
  runs (open_container b N ty) p (added p).
Proof.
  intros [Ht [Hl Hok] Hn Hs Hp] Hlt Hty. unfold open_container. apply runs_get. rewrite Ht.
  eapply runs_bind; [by apply (runs_alloc p ts)|].
  intros r p1 [(-> & ->)|(t & -> & Hfree & ->)]; [apply runs_ret; left; by left|].
  set (t0 := Tok (type (tok t)) (-1) (-1) 0). set (ts1 := <[Z.to_nat (toknext p) := LTok t0 (-1)]> ts).
  assert (toks_good (pos p) (toknext p) ts1) as Hok1 by (by apply toks_good_free; [lia|]).
  eapply runs_bind; [apply (runs_count (pos p) _ ts1 (toknext p)); [done|done|lia|done]|].
  intros _ ? (ts2 & -> & Hok2 & Hsame). cbn in Hsame.
  assert (ts2 !! Z.to_nat (toknext p) = Some (LTok t0 (-1))) as Hlk2
    by (apply Hsame; [lia|apply list_lookup_insert_eq; lia]).
  eapply (runs_bind _ _ _ (fun _ p' => exists u, (u = -1 \/ u = toksuper p) /\
    p' = Parser (pos p) (toknext p + 1) (toksuper p) (Some (<[Z.to_nat (toknext p) := LTok t0 u]> ts2)))).
  { destruct (toksuper p =? -1) eqn:Es; zbool.
    - apply runs_ret. exists (-1). split; [by left|]. by rewrite list_insert_id by done.
    - eapply runs_weaken; [by apply (runs_link _ ts2 (toknext p) t0); [done|apply Hok2|lia|]|].
      intros _ ? (u & Hu & ->). by exists u. }
  intros _ ? (u & Hu & ->).
  eapply runs_bind; [apply (runs_get_token N); [done|rewrite length_insert; apply Hok2|lia]|].
  intros t3 ? [-> Hlk3]. rewrite list_lookup_insert_eq in Hlk3 by (destruct Hok2; lia). injection Hlk3 as <-.
  eapply runs_bind; [apply (runs_put_token N); [done|rewrite length_insert; apply Hok2|lia]|]. intros _ ? ->.
  apply runs_modify, runs_ret. right. cbn. rewrite list_insert_insert_eq, (last_token js N) by lia.
  split_and!; try lia. eexists. constructor; cbn; [done| |lia|lia|done].
  apply toks_good_alloc; [done|lia|]. rewrite (to_int_small js) by lia.
  split; [split; cbn; [lia|by left]|cbn; lia].
Qed.

(** A container gets its end, and [k] is the superior token. *)
Lemma good_closed p ts i t k :
  good (pos p) p ts -> pos p < L -> ts !! i = Some t -> Z.of_nat i < toknext p -> -1 <= k < toknext p ->
  moved p 0 (Parser (pos p) (toknext p) k (Some (<[i := LTok (Tok (type (tok t)) (start (tok t))
    (to_int (u32 (pos p + 1))) (size (tok t))) (parent t)]> ts))).
Proof.
  intros [Ht [Hl Hok] Hn Hs Hp] Hlt Hlk Hi Hk. right. cbn. split_and!; try lia.
  eexists. constructor; cbn; try done. apply toks_good_insert; [done|].
  destruct (Hok i t Hi Hlk) as [[Hst _] Hpar]. rewrite (u32_succ js), (to_int_small js) by lia.
  split; [split; cbn; [lia|right; lia]|done].
Qed.

(** The walk along the parents gets from token [i] to the beginning in [i + 1]
    rounds. *)
Lemma runs_close_parents p ts fuel ty i :
  good (pos p) p ts -> pos p < L -> 0 <= i < toknext p -> i < Z.of_nat fuel ->
  runs (close_parents fuel (pos p) ty i) p (moved p).
Proof.
  intros Hg Hlt. pose proof Hg as [Ht [Hl Hok] Hn Hs Hp]. revert i.
  induction fuel as [|fuel IH]; intros i Hi Hf; [lia|]. cbn [close_parents].
  eapply runs_bind; [apply (runs_get_token N p ts); [done|done|lia]|]. intros t ? [-> Hlk].
  pose proof (Hok (Z.to_nat i) t ltac:(lia) Hlk) as [_ Hpar].
  destruct (is_open t).
  - case_decide; [|apply runs_ret; left; right; by left]. unfold end_token.
    eapply runs_bind; [apply (runs_put_token N p ts); [done|done|lia]|]. intros _ ? ->.
    apply runs_modify, runs_ret. apply (good_closed p ts (Z.to_nat i) t (parent t)); [done|done|done|lia|lia].
  - destruct (parent t =? -1) eqn:E; zbool.
    + apply runs_ret. right. split_and!; [lia|by exists ts|lia..].
    + apply IH; lia.
Qed.

Lemma runs_close_b p ts ty :
  good (pos p) p ts -> pos p < L -> runs (close_container b ty) p (moved p).
Proof.
  intros Hg Hlt. pose proof Hg as [Ht [Hl Hok] Hn Hs Hp]. unfold close_container. apply runs_get. rewrite Ht.
  destruct (JSMN_PARENT_LINKS b).
  { destruct (toknext p <? 1) eqn:E; zbool; [apply runs_ret; left; right; by left|].
    by apply (runs_close_parents p ts); [..|lia|lia]. }
  eapply runs_bind; [apply (runs_find_token N is_open p ts); [done|done|lia]|].
  intros i ? [-> [[-> _]|(Hi & (t & Hlk & _) & _)]]; [apply runs_ret; left; right; by left|].
  rewrite (proj2 (Z.eqb_neq i (-1))) by lia.
  eapply runs_bind; [apply (runs_get_token N p ts); [done|done|lia]|]. intros t' ? [-> Hlk'].
  case_decide; [|apply runs_ret; left; right; by left].
  apply runs_modify. unfold end_token.
  eapply runs_bind; [apply (runs_put_token N _ ts); [done|done|lia]|]. intros _ ? ->.
  eapply runs_bind; [apply (runs_find_token N); [done|by rewrite length_insert|lia]|].
  intros j ? [-> Hj].
  eapply (runs_bind _ _ _ (fun _ p' => exists k, -1 <= k < toknext p /\ p' = Parser (pos p) (toknext p) k (Some (<[Z.to_nat i := _]> ts)))).
  - destruct (j =? -1) eqn:E; zbool.
    + apply runs_ret. exists (-1). split; [lia|done].
    + apply (runs_modify (B := ()) _ (fun _ => mret ())), runs_ret. exists j. split; [lia|done].
  - intros _ ? (k & Hk & ->). apply runs_ret. by apply (good_closed p ts (Z.to_nat i) t' k); [..|lia|].
Qed.

Lemma runs_comma_b p ts :
  good (pos p) p ts -> 0 <= toksuper p ->
  runs (comma b) p (fun _ p' => good (pos p) p' ts /\ pos p' = pos p /\ toknext p' = toknext p).
Proof.
  intros Hg Hsup. pose proof Hg as [Ht [Hl Hok] Hn Hs Hp]. unfold comma. apply runs_get. rewrite Ht.
  eapply runs_bind; [apply (runs_get_token N p ts); [done|done|lia]|]. intros t ? [-> Hlk].
  destruct (Hok (Z.to_nat (toksuper p)) t ltac:(lia) Hlk) as [_ Hpar].
  destruct (is_container t); [by apply runs_ret|].
  assert (forall k, -1 <= k < toknext p -> runs (modify (set_toksuper k)) p
    (fun _ p' => good (pos p) p' ts /\ pos p' = pos p /\ toknext p' = toknext p)) as Hset.
  { intros k Hk. apply (runs_modify (B := ()) _ (fun _ => mret ())), runs_ret.
    split_and!; [|done|done]. constructor; cbn; try done; lia. }
  destruct (JSMN_PARENT_LINKS b); [apply Hset; lia|].
  eapply runs_bind; [apply (runs_find_token N _ p ts); [done|done|lia]|].
  intros i ? [-> [[-> _]|[Hr _]]]; [by apply runs_ret|].
  rewrite (proj2 (Z.eqb_neq i (-1))) by lia. apply Hset. lia.
Qed.

(** Where the superior token is looked at although there is none. *)
Definition outside (p : parser) (c : ascii) : Prop :=
  toksuper p = -1 /\ (c = ","%char \/ (JSMN_STRICT b = true /\ starts_primitive c = true)).

Lemma get_outside {A : Type} p ts (k : linked_t -> M parser A) :
  tokens p = Some ts -> toksuper p = -1 -> (get_token (toksuper p) ≫= k) p = Fault OutOfBounds.
Proof. intros Ht Hs. unfold mbind, M_bind, get_token. by rewrite Hs, Ht. Qed.

Lemma runs_other p ts c :
  good (pos p) p ts -> peek js (pos p) = Some c -> ends_primitive b c = false ->
  (parse_other b js N c p = Fault OutOfBounds /\ outside p c) \/ runs (parse_other b js N c) p (moved p).
Proof.
  intros Hg Hpk Hc. pose proof Hg as [Ht [Hl Hok] Hn Hs Hp]. unfold parse_other.
  assert (runs (r ← jsmn_parse_primitive b js N ; if r <? 0 then mret r else count_child ;; mret 1) p (moved p)) as Hgo
    by (eapply runs_bind; [by eapply runs_primitive_b|apply after_added]).
  destruct (JSMN_STRICT b) eqn:Hb; [|by right].
  destruct (starts_primitive c) eqn:Hst; [|right; apply runs_ret; left; right; by left].
  destruct (decide (toksuper p = -1)) as [Hsup|Hsup].
  - left. split; [|split; [done|by right]]. erewrite bind_Ret by done. rewrite Ht. by eapply get_outside.
  - right. apply runs_get. rewrite Ht.
    eapply runs_bind; [apply (runs_get_token N p ts); [done|done|lia]|]. intros t ? [-> Hlk].
    destruct (rejects_primitive t); [apply runs_ret; left; right; by left|exact Hgo].
Qed.

Lemma runs_char p ts c :
  good (pos p) p ts -> peek js (pos p) = Some c ->
  (parse_char b js N c p = Fault OutOfBounds /\ outside p c) \/ runs (parse_char b js N c) p (moved p).
Proof.
  intros Hg Hpk. pose proof Hg as [Ht Hok Hn Hs Hp].
  pose proof (peek_range js _ _ (proj1 Hp) Hpk) as Hlt. unfold parse_char.
  destruct (Ascii.eqb c "{" || Ascii.eqb c "[") eqn:E1.
  { right. eapply runs_bind; [apply (runs_open_b p ts); [done|done|by destruct (Ascii.eqb c "{")]|].
    intros r p' [Herr|(-> & H1 & H2 & H3)].
    - rewrite is_error_neg by done. apply runs_ret. by left.
    - cbn [Z.ltb Z.compare]. apply runs_ret. right. split_and!; [lia|done|lia..]. }
  destruct (Ascii.eqb c "}" || Ascii.eqb c "]") eqn:E2; [right; by eapply runs_close_b|].
  destruct (Ascii.eqb c quote) eqn:E3.
  { right. eapply runs_bind; [by eapply runs_string_b|]. apply after_added. }
  destruct (is_white c) eqn:E4.
  { right. apply runs_ret. right. split_and!; [lia|by exists ts|lia..]. }
  destruct (Ascii.eqb c ":") eqn:E5.
  { right. apply runs_modify, runs_ret. right. cbn. split_and!; try lia. exists ts.
    rewrite (last_token js N) by lia. constructor; cbn; try done; lia. }
  destruct (Ascii.eqb c ",") eqn:E6.
  { apply Ascii.eqb_eq in E6 as ->. destruct (decide (toksuper p = -1)) as [Hsup|Hsup].
    - left. split; [|split; [done|by left]]. unfold comma. rewrite bind_bind. erewrite bind_Ret by done.
      rewrite Ht, bind_bind. by eapply get_outside.
    - right. eapply runs_bind; [apply (runs_comma_b p ts); [done|lia]|].
      intros _ p' (Hi' & Hpos & Hnext). apply runs_ret. right.
      rewrite Hpos. split_and!; [lia|by exists ts|lia..]. }
  eapply runs_other; [done|done|]. unfold ends_primitive. rewrite E4, E5, E6, andb_false_r.
  by apply orb_false_iff in E2 as [-> ->].
Qed.

(** ** The loop *)

(** The rounds of the loop of [jsmn_parse]. *)
Inductive reaches : parser -> parser -> Prop :=
  | reaches_refl p : reaches p p
  | reaches_step p c r p1 p2 :
      peek js (pos p) = Some c -> parse_char b js N c p = Ret r p1 -> 0 <= r ->
      reaches (set_pos (u32 (pos p1 + 1)) p1) p2 -> reaches p p2.

(** The loop gets to a character for which there is no superior token. *)
Definition goes_outside (p : parser) : Prop :=
  exists p' c, reaches p p' /\ peek js (pos p') = Some c /\ outside p' c.

Lemma loop_round fuel count p c r p1 :
  peek js (pos p) = Some c -> parse_char b js N c p = Ret r p1 -> 0 <= r ->
  parse_loop b js (S fuel) N count p = parse_loop b js fuel N (count + r) (set_pos (u32 (pos p1 + 1)) p1).
Proof.
  intros Hpk Hr Hr0. cbn [parse_loop]. erewrite bind_Ret by done. rewrite Hpk.
  erewrite bind_Ret by exact Hr. by rewrite (proj2 (Z.ltb_ge r 0)) by lia.
Qed.

Lemma runs_loop fuel p ts count :
  good (pos p) p ts -> count = toknext p -> L - pos p < Z.of_nat fuel ->
  (parse_loop b js fuel N count p = Fault OutOfBounds /\ goes_outside p) \/
  runs (parse_loop b js fuel N count) p (fun r p' =>
    is_error r \/ (r = toknext p' /\ exists ts', good L p' ts')).
Proof.
  revert p ts count. induction fuel as [|fuel IH]; intros p ts count Hg Hc Hf; [destruct Hg; lia|].
  cbn [parse_loop]. destruct (peek js (pos p)) as [c|] eqn:Hpk.
  2:{ right. apply runs_get. rewrite Hpk. apply runs_ret. right. split; [done|]. exists ts.
      destruct Hg. constructor; try done. eapply toks_good_mono; [|done]. lia. }
  destruct (runs_char p ts c Hg Hpk) as [[Hr Ho]|(r & p1 & Hr & Hst)].
  { left. split; [|by exists p, c; split; [constructor|]].
    erewrite bind_Ret by done. rewrite Hpk. unfold mbind, M_bind. by rewrite Hr. }
  destruct Hst as [Herr|(Hr0 & (ts1 & Hg1) & Hpos & Hnext)].
  { right. apply runs_get. rewrite Hpk. exists r, p1.
    split; [|by left]. erewrite bind_Ret by done. by rewrite is_error_neg. }
  pose proof (gd_pos _ _ _ Hg) as Hp0. pose proof (gd_pos _ _ _ Hg1) as Hp1.
  set (p2 := set_pos (u32 (pos p1 + 1)) p1).
  assert (pos p2 = pos p1 + 1) as Ep by (cbn; rewrite (u32_succ js); lia).
  assert (good (pos p2) p2 ts1) as Hg2.
  { destruct Hg1. constructor; try done; [eapply toks_good_mono; [|done]; lia|lia]. }
  pose proof (loop_round fuel count p c r p1 Hpk Hr Hr0) as Hround. fold p2 in Hround. cbn [parse_loop] in Hround.
  destruct (IH p2 ts1 (count + r) Hg2) as [[Hr2 (p' & c' & Hre & Hout)]|(r2 & p3 & Hr2 & Hres)];
    [cbn; lia|lia| |].
  - left. split; [by rewrite Hround|]. exists p', c'. split; [by eapply reaches_step|done].
  - right. exists r2, p3. by rewrite Hround.
Qed.

(** What a successful parse leaves: the tokens in use are parts of the input and
    their parents come before them. *)
Definition sound (r : Z) (p : parser) : Prop :=
  toknext p = r /\ 0 <= r <= N /\ exists ts, tokens p = Some ts /\
    forall i t, Z.of_nat i < r -> ts !! i = Some t ->
      0 <= start (tok t) <= tend (tok t) /\ tend (tok t) <= L /\ -1 <= parent t < Z.of_nat i.

Lemma runs_build mem :
  Z.of_nat (length mem) = N ->
  (jsmn_parse b js N (jsmn_init (Some mem)) = Fault OutOfBounds /\ goes_outside (jsmn_init (Some mem))) \/
  runs (jsmn_parse b js N) (jsmn_init (Some mem)) (fun r p => is_error r \/ sound r p).
Proof.
  intros Hm.
  assert (good 0 (jsmn_init (Some mem)) mem) as Hg by (constructor; cbn; try done; try lia; split; [done|]; lia).
  destruct (runs_loop (S (length js)) (jsmn_init (Some mem)) mem 0 Hg) as [[Hr Ho]|Hrun]; [done|cbn; lia| |].
  - left. split; [unfold jsmn_parse, mbind, M_bind; by rewrite Hr|done].
  - right. unfold jsmn_parse. eapply runs_bind; [exact Hrun|].
    intros r' p' [Herr|(-> & ts & [Ht [Hl Hok] Hn Hs Hp])].
    { rewrite is_error_neg by done. apply runs_ret. by left. }
    rewrite (proj2 (Z.ltb_ge _ 0)) by lia. apply runs_get.
    eapply runs_bind; [apply (runs_find_token N is_open p' ts); [done|done|lia]|].
    intros i ? [-> [[-> Hno]|[Hi' _]]].
    2:{ rewrite (proj2 (Z.eqb_neq i (-1))) by lia. apply runs_ret. left. right. by right. }
    cbn [Z.eqb]. apply runs_ret. right. split_and!; [done|lia|lia|]. exists ts. split; [done|].
    intros j t Hj Hlk. destruct (Hok j t Hj Hlk) as [[Hst Hend] Hpar].
    assert (is_open t = false) as Hop by (eapply Hno; [|done]; lia).
    unfold is_open, Jsmn.is_open in Hop. destruct Hend as [[He _]|He]; [rewrite He in Hop|]; lia.
Qed.

End Input.

(** C23: Every build of the tokenizer is safe and total: with any combination of
    [JSMN_STRICT] and [JSMN_PARENT_LINKS], on every input shorter than 2 GiB and
    every array of [N] tokens, [jsmn_parse] ends with one of its three error
    codes, or with the number of tokens it used, each of which is a closed range
    of the input and has a parent before it, or -1, so that the walk along the
    parents from any token ends.  It leaves the array only if it gets, with no
    superior token, to a comma or, in strict mode, to the first character of a
    primitive. *)
Theorem jsmn_build_sound (b : build) (js : chars) (N : Z) (mem : list linked_t) :
  Z.of_nat (length js) < 2 ^ 31 -> 0 <= N < 2 ^ 31 -> Z.of_nat (length mem) = N ->
  (jsmn_parse b js N (jsmn_init (Some mem)) = Fault OutOfBounds /\
   goes_outside b js N (jsmn_init (Some mem))) \/
  exists r p, jsmn_parse b js N (jsmn_init (Some mem)) = Ret r p /\ (is_error r \/ sound js N r p).
Proof. intros Hjs HN Hm. exact (runs_build b js Hjs N HN mem Hm). Qed.

Lemma jsmn_build_sound_witness :
  exists r p, jsmn_parse (Build true true) (lit "[1, 2]]") 3 (jsmn_init (Some (replicate 3 (LTok (Tok JSMN_STRING 9 9 9) 9)))) = Ret r p /\
    (is_error r \/ sound (lit "[1, 2]]") 3 r p).
Proof.
  destruct (jsmn_build_sound (Build true true) (lit "[1, 2]]") 3 (replicate 3 (LTok (Tok JSMN_STRING 9 9 9) 9)))
    as [[Hf _]|Hs]; [vm_compute; reflexivity|lia|reflexivity|vm_compute in Hf; discriminate|exact Hs].
Defined.

End JsmnBuildSpec.
