(* ===== verification/JsmnTree.v ===== *)
(** * JSON texts and their tokens

    JSON values with the white space between their parts, the text of a value,
    and the tokens that stand for it.  [jsmn_parse] turns the text of every
    value into exactly its tokens. *)

From stdpp Require Import base tactics list strings.
From Stdlib Require Import ZArith Lia Ascii.
From S2P Require Import Prelude CString Jsmn JsmnSpec.

Module JsmnTree.
Import CString Jsmn JsmnSpec.

(** ** Lengths as [Z] *)

Definition Zlen {A : Type} (l : list A) : Z := Z.of_nat (length l).

Lemma Zlen_app {A : Type} (l1 l2 : list A) : Zlen (l1 ++ l2) = Zlen l1 + Zlen l2.
Proof. unfold Zlen. rewrite length_app. lia. Qed.

Lemma Zlen_cons {A : Type} (x : A) (l : list A) : Zlen (x :: l) = 1 + Zlen l.
Proof. unfold Zlen. cbn [length]. lia. Qed.

Lemma Zlen_nil {A : Type} : Zlen (@nil A) = 0.
Proof. done. Qed.

Lemma Zlen_nonneg {A : Type} (l : list A) : 0 <= Zlen l.
Proof. unfold Zlen. lia. Qed.

Lemma Zlen_nat {A : Type} (l : list A) : Z.to_nat (Zlen l) = length l.
Proof. unfold Zlen. lia. Qed.

Ltac zlen :=
  repeat (progress (rewrite ?Zlen_app, ?Zlen_cons in *));
  repeat match goal with
  | |- context [@Zlen ?T []] => change (@Zlen T []) with 0
  | H : context [@Zlen ?T []] |- _ => change (@Zlen T []) with 0 in H
  end.

(** Lengths are not negative. *)
Ltac zlen_pos :=
  repeat match goal with
  | |- context [Zlen ?l] =>
      lazymatch goal with H : 0 <= Zlen l |- _ => fail | _ => pose proof (Zlen_nonneg l) end
  | H : context [Zlen ?l] |- _ =>
      lazymatch goal with H' : 0 <= Zlen l |- _ => fail | _ => pose proof (Zlen_nonneg l) end
  end.

Ltac zsolve := zlen; zlen_pos; lia.

Lemma to_int_id i : 0 <= i < 2 ^ 31 -> to_int i = i.
Proof. intros Hi. unfold to_int. rewrite Z.mod_small; lia. Qed.

(** ** Values *)

(** A value, with the white space before its first part and around the parts:
    elements and members carry the white space on both sides of the value, a
    member also that on both sides of the colon. *)
Inductive json :=
  | JPrimitive (s : chars)
  | JString (s : chars)
  | JArray (w : chars) (vs : elements)
  | JObject (w : chars) (ms : members)
with elements :=
  | ENil
  | ECons (w1 : chars) (v : json) (w2 : chars) (vs : elements)
with members :=
  | MNil
  | MCons (w1 k w2 w3 : chars) (v : json) (w4 : chars) (ms : members).

Scheme json_mut := Induction for json Sort Prop
  with elements_mut := Induction for elements Sort Prop
  with members_mut := Induction for members Sort Prop.
Combined Scheme json_elements_members_ind from json_mut, elements_mut, members_mut.

Definition quoted (s : chars) : chars := quote :: s ++ [quote].

Definition esep (vs : elements) : chars :=
  match vs with ENil => [] | ECons _ _ _ _ => [","%char] end.
Definition msep (ms : members) : chars :=
  match ms with MNil => [] | MCons _ _ _ _ _ _ _ => [","%char] end.

Fixpoint text (v : json) : chars :=
  match v with
  | JPrimitive s => s
  | JString s => quoted s
  | JArray w vs => "["%char :: w ++ elements_text vs ++ ["]"%char]
  | JObject w ms => "{"%char :: w ++ members_text ms ++ ["}"%char]
  end
with elements_text (vs : elements) : chars :=
  match vs with
  | ENil => []
  | ECons w1 v w2 vs => w1 ++ text v ++ w2 ++ esep vs ++ elements_text vs
  end
with members_text (ms : members) : chars :=
  match ms with
  | MNil => []
  | MCons w1 k w2 w3 v w4 ms =>
      w1 ++ quoted k ++ w2 ++ ":"%char :: w3 ++ text v ++ w4 ++ msep ms ++ members_text ms
  end.

(** ** Well-formed values *)

Definition white (w : chars) : bool := forallb is_white w.

(** The inside of a string: no quote and no NUL, escapes as the tokenizer
    allows them. *)
Fixpoint string_body (s : chars) : bool :=
  match s with
  | [] => true
  | c :: s1 =>
      if Ascii.eqb c quote || Ascii.eqb c NUL then false
      else if Ascii.eqb c backslash then
        match s1 with
        | [] => false
        | e :: s2 =>
            if is_escape e then string_body s2
            else if Ascii.eqb e "u" then
              match s2 with
              | h1 :: h2 :: h3 :: h4 :: s3 =>
                  is_hex h1 && is_hex h2 && is_hex h3 && is_hex h4 && string_body s3
              | _ => false
              end
            else false
        end
      else string_body s1
  end.

Definition prim_char (c : ascii) : bool :=
  negb (ends_primitive c) && negb ((code c <? 32) || (127 <=? code c)).

Definition opens_value (c : ascii) : bool :=
  Ascii.eqb c "{" || Ascii.eqb c "[" || Ascii.eqb c quote.

Definition primitive (s : chars) : bool :=
  match s with
  | [] => false
  | c :: _ => negb (opens_value c) && forallb prim_char s
  end.

Fixpoint wf (v : json) : bool :=
  match v with
  | JPrimitive s => primitive s
  | JString s => string_body s
  | JArray w vs => white w && elements_wf vs
  | JObject w ms => white w && members_wf ms
  end
with elements_wf (vs : elements) : bool :=
  match vs with
  | ENil => true
  | ECons w1 v w2 vs => white w1 && wf v && white w2 && elements_wf vs
  end
with members_wf (ms : members) : bool :=
  match ms with
  | MNil => true
  | MCons w1 k w2 w3 v w4 ms =>
      white w1 && string_body k && white w2 && white w3 && wf v && white w4 && members_wf ms
  end.

(** ** Tokens *)

Fixpoint nelements (vs : elements) : Z :=
  match vs with ENil => 0 | ECons _ _ _ vs => 1 + nelements vs end.
Fixpoint nmembers (ms : members) : Z :=
  match ms with MNil => 0 | MCons _ _ _ _ _ _ ms => 1 + nmembers ms end.

(** The tokens of a value whose text starts at [off], in the order in which the
    values start. *)
Fixpoint toks (off : Z) (v : json) : list jsmntok_t :=
  match v with
  | JPrimitive s => [Tok JSMN_PRIMITIVE off (off + Zlen s) 0]
  | JString s => [Tok JSMN_STRING (off + 1) (off + 1 + Zlen s) 0]
  | JArray w vs =>
      Tok JSMN_ARRAY off (off + Zlen (text v)) (nelements vs) :: elements_toks (off + 1 + Zlen w) vs
  | JObject w ms =>
      Tok JSMN_OBJECT off (off + Zlen (text v)) (nmembers ms) :: members_toks (off + 1 + Zlen w) ms
  end
with elements_toks (off : Z) (vs : elements) : list jsmntok_t :=
  match vs with
  | ENil => []
  | ECons w1 v w2 vs =>
      toks (off + Zlen w1) v ++
      elements_toks (off + Zlen w1 + Zlen (text v) + Zlen w2 + Zlen (esep vs)) vs
  end
with members_toks (off : Z) (ms : members) : list jsmntok_t :=
  match ms with
  | MNil => []
  | MCons w1 k w2 w3 v w4 ms =>
      let val := off + Zlen w1 + Zlen (quoted k) + Zlen w2 + 1 + Zlen w3 in
      Tok JSMN_STRING (off + Zlen w1 + 1) (off + Zlen w1 + 1 + Zlen k) 1 ::
      toks val v ++ members_toks (val + Zlen (text v) + Zlen w4 + Zlen (msep ms)) ms
  end.

(** How many tokens a value needs. *)
Fixpoint ntoks (v : json) : Z :=
  match v with
  | JPrimitive _ | JString _ => 1
  | JArray _ vs => 1 + elements_ntoks vs
  | JObject _ ms => 1 + members_ntoks ms
  end
with elements_ntoks (vs : elements) : Z :=
  match vs with ENil => 0 | ECons _ v _ vs => ntoks v + elements_ntoks vs end
with members_ntoks (ms : members) : Z :=
  match ms with MNil => 0 | MCons _ _ _ _ v _ ms => 1 + ntoks v + members_ntoks ms end.

Lemma Zlen_toks_all :
  (forall v off, Zlen (toks off v) = ntoks v) /\
  (forall vs off, Zlen (elements_toks off vs) = elements_ntoks vs) /\
  (forall ms off, Zlen (members_toks off ms) = members_ntoks ms).
Proof.
  apply json_elements_members_ind; intros;
    cbn [toks elements_toks members_toks ntoks elements_ntoks members_ntoks]; zlen;
    repeat match goal with H : forall off, Zlen _ = _ |- _ => rewrite H; clear H end; lia.
Qed.

Lemma Zlen_toks off v : Zlen (toks off v) = ntoks v.
Proof. apply Zlen_toks_all. Qed.

Lemma Zlen_elements_toks off vs : Zlen (elements_toks off vs) = elements_ntoks vs.
Proof. apply Zlen_toks_all. Qed.

Lemma Zlen_members_toks off ms : Zlen (members_toks off ms) = members_ntoks ms.
Proof. apply Zlen_toks_all. Qed.

(** The tokens that the tokens of a value are children of, the first of which
    is number [i] and a child of [sup]: the elements are children of the array,
    the keys of the object and the values of their keys. *)
Fixpoint parents (i sup : Z) (v : json) : list Z :=
  match v with
  | JPrimitive _ | JString _ => [sup]
  | JArray _ vs => sup :: elements_parents (i + 1) i vs
  | JObject _ ms => sup :: members_parents (i + 1) i ms
  end
with elements_parents (i sup : Z) (vs : elements) : list Z :=
  match vs with
  | ENil => []
  | ECons _ v _ vs => parents i sup v ++ elements_parents (i + ntoks v) sup vs
  end
with members_parents (i sup : Z) (ms : members) : list Z :=
  match ms with
  | MNil => []
  | MCons _ _ _ _ v _ ms => sup :: parents (i + 1) i v ++ members_parents (i + 1 + ntoks v) sup ms
  end.

Lemma Zlen_parents_all :
  (forall v i sup, Zlen (parents i sup v) = ntoks v) /\
  (forall vs i sup, Zlen (elements_parents i sup vs) = elements_ntoks vs) /\
  (forall ms i sup, Zlen (members_parents i sup ms) = members_ntoks ms).
Proof.
  apply json_elements_members_ind; intros;
    cbn [parents elements_parents members_parents ntoks elements_ntoks members_ntoks]; zlen;
    repeat match goal with H : forall i sup, Zlen _ = _ |- _ => rewrite H; clear H end; lia.
Qed.

(** The numbers [l], from index [i] on, are all from [sup] on and before their
    own index. *)
Definition below (i sup : Z) (l : list Z) : Prop :=
  forall k u, l !! k = Some u -> sup <= u < i + Z.of_nat k.

Lemma below_cons i sup u l : sup <= u < i -> below (i + 1) sup l -> below i sup (u :: l).
Proof. intros Hu Hl [|k] u' Hk; cbn in Hk; [injection Hk as <-; lia|]. specialize (Hl k u' Hk). lia. Qed.

Lemma below_app i sup l l' : below i sup l -> below (i + Zlen l) sup l' -> below i sup (l ++ l').
Proof.
  intros Hl Hl' k u [Hk|[Hge Hk]]%lookup_app_Some; [by apply Hl|].
  specialize (Hl' _ _ Hk). unfold Zlen in Hl'. lia.
Qed.

Lemma below_mono i sup sup' l : sup' <= sup -> below i sup l -> below i sup' l.
Proof. intros Hs Hl k u Hk. specialize (Hl k u Hk). lia. Qed.

Lemma parents_below_all :
  (forall v i sup, sup < i -> below i sup (parents i sup v)) /\
  (forall vs i sup, sup < i -> below i sup (elements_parents i sup vs)) /\
  (forall ms i sup, sup < i -> below i sup (members_parents i sup ms)).
Proof.
  destruct Zlen_parents_all as (Hv & _ & _).
  assert (forall v, 0 <= ntoks v) as Hn by (intros v; rewrite <- (Hv v 0 0); apply Zlen_nonneg).
  apply json_elements_members_ind; cbn [parents elements_parents members_parents].
  1-2: intros s i sup Hs; by apply below_cons.
  1-2: intros w l IH i sup Hs; apply below_cons, (below_mono _ i); [lia|lia|]; apply IH; lia.
  - done.
  - intros w1 v IHv w2 vs IH i sup Hs. apply below_app; [by apply IHv|]. rewrite Hv.
    apply IH. specialize (Hn v). lia.
  - done.
  - intros w1 k w2 w3 v IHv w4 ms IH i sup Hs. specialize (Hn v). apply below_cons; [lia|].
    apply below_app; [apply (below_mono _ i); [lia|]; apply IHv; lia|]. rewrite Hv. apply IH. lia.
Qed.

(** The tokens of a value all have an end. *)
Definition closed (t : jsmntok_t) : Prop := is_open t = false.

Lemma closed_end ty s e n : 0 <= e -> closed (Tok ty s e n).
Proof.
  intros He. unfold closed, is_open. cbn. rewrite (proj2 (Z.eqb_neq e (-1))) by lia. apply andb_false_r.
Qed.

Lemma toks_closed_all :
  (forall v off, 0 <= off -> Forall closed (toks off v)) /\
  (forall vs off, 0 <= off -> Forall closed (elements_toks off vs)) /\
  (forall ms off, 0 <= off -> Forall closed (members_toks off ms)).
Proof.
  apply json_elements_members_ind; intros; cbn [toks elements_toks members_toks]; cbv zeta;
    repeat first [apply Forall_nil; exact I | apply Forall_cons; split
      | apply Forall_app; split | apply closed_end | eauto]; zlen_pos;
    try match goal with H : forall off, _ -> Forall closed _ |- _ => apply H end; lia.
Qed.

Lemma toks_closed v off : 0 <= off -> Forall closed (toks off v).
Proof. apply toks_closed_all. Qed.

End JsmnTree.
