(* ===== verification/JsmnRoundtrip.v ===== *)
(** * From text to tokens

    [jsmn_parse] on the text of a JSON value yields the tokens of the value,
    whatever white space the text has, whatever the token array held, and
    whichever options the tokenizer is built with. *)

From stdpp Require Import base tactics list strings.
From Stdlib Require Import ZArith Lia Ascii.
From S2P Require Import Prelude CString Jsmn JsmnBuild JsmnSpec JsmnTree.

Module JsmnRoundtrip.
Import CString Jsmn JsmnSpec JsmnTree JsmnBuild.

(** ** The last token that satisfies a test *)

Section LastIndex.
Context {T : Type}.
Implicit Types (f : T -> bool) (l : list T).

Fixpoint last_from (f : T -> bool) (i : Z) (l : list T) (acc : Z) : Z :=
  match l with
  | [] => acc
  | t :: l => last_from f (i + 1) l (if f t then i else acc)
  end.

Definition last_index (f : T -> bool) (l : list T) : Z := last_from f 0 l (-1).

Lemma last_from_app f i l1 l2 acc :
  last_from f i (l1 ++ l2) acc = last_from f (i + Zlen l1) l2 (last_from f i l1 acc).
Proof.
  revert i acc. induction l1 as [|t l1 IH]; intros i acc; cbn [app last_from].
  - by rewrite Zlen_nil, Z.add_0_r.
  - rewrite IH. f_equal. zsolve.
Qed.

Lemma last_from_none f i l acc : Forall (fun t => f t = false) l -> last_from f i l acc = acc.
Proof. intros Hl. revert i. induction Hl as [|t l Ht Hl IH]; intros i; cbn; [done|]. by rewrite Ht. Qed.

Lemma last_index_snoc f l t : last_index f (l ++ [t]) = if f t then Zlen l else last_index f l.
Proof. unfold last_index. rewrite last_from_app. cbn. by rewrite Z.add_0_l. Qed.

Lemma last_index_app f l l' :
  Forall (fun t => f t = false) l' -> last_index f (l ++ l') = last_index f l.
Proof. intros Hl. unfold last_index. by rewrite last_from_app, last_from_none. Qed.

Lemma last_index_middle f l t l' :
  f t = true -> Forall (fun t => f t = false) l' -> last_index f (l ++ t :: l') = Zlen l.
Proof.
  intros Ht Hl. change (t :: l') with ([t] ++ l'). rewrite app_assoc, last_index_app by done.
  by rewrite last_index_snoc, Ht.
Qed.

Lemma last_index_ext f l l' :
  Forall2 (fun t t' => f t = f t') l l' -> last_index f l = last_index f l'.
Proof.
  unfold last_index. generalize 0, (-1). intros i acc Hl. revert i acc.
  induction Hl as [|t t' l l' Ht Hl IH]; intros i acc; cbn; [done|]. by rewrite Ht, IH.
Qed.

Lemma last_index_range f l : -1 <= last_index f l < Zlen l.
Proof.
  induction l as [|t l IH] using rev_ind; [done|]. rewrite last_index_snoc. destruct (f t); zsolve.
Qed.

End LastIndex.

(** ** What is left of the array *)

Definition Zdrop {A : Type} (k : Z) (l : list A) : list A := drop (Z.to_nat k) l.

Lemma Zlen_drop {A : Type} k (l : list A) : 0 <= k <= Zlen l -> Zlen (Zdrop k l) = Zlen l - k.
Proof. intros Hk. unfold Zdrop, Zlen in *. rewrite length_drop. lia. Qed.

Lemma Zdrop_drop {A : Type} k1 k2 (l : list A) :
  0 <= k1 -> 0 <= k2 -> Zdrop k2 (Zdrop k1 l) = Zdrop (k1 + k2) l.
Proof. intros H1 H2. unfold Zdrop. rewrite drop_drop. f_equal. lia. Qed.

Lemma Zdrop_cons {A : Type} k (x : A) l : 0 <= k -> Zdrop k l = Zdrop (1 + k) (x :: l).
Proof. intros Hk. unfold Zdrop. by replace (Z.to_nat (1 + k)) with (S (Z.to_nat k)) by lia. Qed.

Lemma ntoks_nonneg v : 0 <= ntoks v.
Proof. rewrite <- (Zlen_toks 0). apply Zlen_nonneg. Qed.

Lemma elements_ntoks_nonneg vs : 0 <= elements_ntoks vs.
Proof. rewrite <- (Zlen_elements_toks 0). apply Zlen_nonneg. Qed.

Lemma members_ntoks_nonneg ms : 0 <= members_ntoks ms.
Proof. rewrite <- (Zlen_members_toks 0). apply Zlen_nonneg. Qed.

(** ** Access to the tokens in use *)

(** [D]: the tokens in use; [rest]: the rest of the array. *)
Definition St {T : Type} (q : Z) (D : list T) (sup : Z) (rest : list T) : parser_of T :=
  Parser q (Zlen D) sup (Some (D ++ rest)).

Lemma get_middle {T : Type} (p : parser_of T) l1 x l2 :
  tokens p = Some (l1 ++ x :: l2) -> get_token (Zlen l1) p = Ret x p.
Proof.
  intros Ht. unfold get_token. pose proof (Zlen_nonneg l1).
  rewrite Ht, (proj2 (Z.leb_le 0 (Zlen l1))), Zlen_nat, list_lookup_middle by done. done.
Qed.

Lemma put_middle {T : Type} (p : parser_of T) l1 x l2 y :
  tokens p = Some (l1 ++ x :: l2) ->
  put_token (Zlen l1) y p = Ret () (set_tokens (Some (l1 ++ y :: l2)) p).
Proof.
  intros Ht. unfold put_token. rewrite Ht.
  assert ((0 <=? Zlen l1) && (Zlen l1 <? Z.of_nat (length (l1 ++ x :: l2))) = true) as ->.
  { rewrite length_app. cbn [length]. unfold Zlen. apply andb_true_intro.
    split; [apply Z.leb_le|apply Z.ltb_lt]; lia. }
  rewrite Zlen_nat. by rewrite insert_app_r_alt, Nat.sub_diag by done.
Qed.

Lemma find_token_eq {T : Type} f (p : parser_of T) ts n :
  tokens p = Some ts -> (n <= length ts)%nat ->
  find_token f n p = Ret (last_index f (take n ts)) p.
Proof.
  intros Ht. induction n as [|n IH]; intros Hn; [done|]. cbn [find_token].
  destruct (lookup_lt_is_Some_2 ts n ltac:(lia)) as [t Hlk].
  assert (get_token (Z.of_nat n) p = Ret t p) as Hg.
  { unfold get_token. rewrite Ht, (proj2 (Z.leb_le _ _)), Nat2Z.id, Hlk by lia. done. }
  rewrite (bind_Ret _ _ _ _ _ Hg), (take_S_r _ _ _ Hlk), last_index_snoc.
  unfold Zlen. rewrite length_take_le by lia. destruct (f t); [done|]. apply IH. lia.
Qed.

Lemma find_in_use {T : Type} f q (D : list T) sup rest n :
  n = length D -> find_token f n (St q D sup rest) = Ret (last_index f D) (St q D sup rest).
Proof.
  intros ->. rewrite (find_token_eq _ _ (D ++ rest)); [|done|rewrite length_app; lia].
  by rewrite take_app_length.
Qed.

(** One more child for the token at [s]. *)
Definition inc (t : linked_t) : linked_t :=
  LTok (Tok (type (tok t)) (start (tok t)) (tend (tok t)) (size (tok t) + 1)) (parent t).

Definition bump (s : Z) (D : list linked_t) : list linked_t :=
  if s =? -1 then D else alter inc (Z.to_nat s) D.

Definition super_ok (s : Z) (D : list linked_t) : Prop := -1 <= s < Zlen D.

Lemma Zlen_bump s D : Zlen (bump s D) = Zlen D.
Proof. unfold bump, Zlen. case_if; [done|]. by rewrite length_alter. Qed.

Lemma bump_app s D D' : super_ok s D -> bump s (D ++ D') = bump s D ++ D'.
Proof.
  unfold super_ok, bump, Zlen. intros Hs. case_if; [done|]. zbool. apply alter_app_l. lia.
Qed.

Lemma bump_middle D t D' : bump (Zlen D) (D ++ t :: D') = D ++ inc t :: D'.
Proof.
  unfold bump. zlen_pos. rewrite (proj2 (Z.eqb_neq _ _)) by lia. rewrite Zlen_nat.
  replace (length D) with (length D + 0)%nat by lia. by rewrite alter_app_r.
Qed.

Lemma bump_open s D : last_index is_open (bump s D) = last_index is_open D.
Proof.
  unfold bump. case_if; [done|]. symmetry. apply last_index_ext.
  apply Forall2_same_length_lookup_2; [by rewrite length_alter|].
  intros i t t' Ht. rewrite list_lookup_alter. case_decide; intros Et; subst.
  - rewrite Ht in Et. by simplify_eq/=.
  - congruence.
Qed.

Lemma count_child_bump q n s D rest :
  super_ok s D ->
  count_child (Parser q n s (Some (D ++ rest))) = Ret () (Parser q n s (Some (bump s D ++ rest))).
Proof.
  intros Hs. unfold count_child. erewrite bind_Ret by done. cbn [toksuper tokens].
  rewrite bool_decide_true, andb_true_r by done. unfold bump. unfold super_ok in Hs.
  destruct (s =? -1) eqn:E; zbool; cbn [negb]; [done|].
  destruct (lookup_lt_is_Some_2 D (Z.to_nat s) ltac:(unfold Zlen in *; lia)) as [t Ht].
  pose proof (take_drop_middle D _ _ Ht) as ED. set (A := take (Z.to_nat s) D) in *.
  assert (s = Zlen A) as Es.
  { unfold Zlen, A. rewrite length_take_le by (apply lookup_lt_Some in Ht; lia). lia. }
  rewrite Es in *. rewrite <- ED. rewrite Zlen_nat, <- (Nat.add_0_r (length A)), alter_app_r.
  cbn [alter list_alter]. rewrite <- !app_assoc. cbn [app].
  erewrite bind_Ret by (by eapply get_middle). by erewrite put_middle.
Qed.

(** ** Runs of the loop *)

(** A token that has an end. *)
Definition shut (t : linked_t) : Prop := is_open t = false.

(** The parents of the tokens [E], which follow token [d], are [d] or among the
    tokens before them in [E]. *)
Definition rooted (d : Z) (E : list linked_t) : Prop :=
  forall k t, E !! k = Some t -> d <= parent t < d + 1 + Z.of_nat k.

Lemma rooted_nil d : rooted d [].
Proof. done. Qed.

Lemma rooted_app d E E' : rooted d E ->
  (forall k t, E' !! k = Some t -> d <= parent t < d + 1 + Zlen E + Z.of_nat k) -> rooted d (E ++ E').
Proof.
  intros HE HE' k t [Hk|[Hl Hk]]%lookup_app_Some; [by apply HE|].
  specialize (HE' _ _ Hk). unfold Zlen in HE'. lia.
Qed.

(** In strict mode primitives are numbers, booleans and null, as their first
    character says. *)
Definition first_ok (s : chars) : bool :=
  match s with c :: _ => starts_primitive c | [] => false end.

Fixpoint strict_wf (v : json) : bool :=
  match v with
  | JPrimitive s => first_ok s
  | JString s => true
  | JArray _ vs => elements_strict_wf vs
  | JObject _ ms => members_strict_wf ms
  end
with elements_strict_wf (vs : elements) : bool :=
  match vs with ENil => true | ECons _ v _ vs => strict_wf v && elements_strict_wf vs end
with members_strict_wf (ms : members) : bool :=
  match ms with MNil => true | MCons _ _ _ _ v _ ms => strict_wf v && members_strict_wf ms end.

Definition is_primitive (v : json) : bool := match v with JPrimitive _ => true | _ => false end.

Section Build.
Variable b : build.

(** The parent that is stored, with [sup] the superior token. *)
Definition up (sup : Z) : Z := if JSMN_PARENT_LINKS b then sup else -1.

(** Tokens with the parents that are stored in them. *)
Definition linked (ts : list jsmntok_t) (us : list Z) : list linked_t :=
  zip_with (fun t u => LTok t (up u)) ts us.

(** The tokens of a value whose text starts at [off] and whose first token is
    number [i] and a child of [sup]. *)
Definition ltoks (off i sup : Z) (v : json) : list linked_t :=
  linked (toks off v) (parents i sup v).
Definition elements_ltoks (off i sup : Z) (vs : elements) : list linked_t :=
  linked (elements_toks off vs) (elements_parents i sup vs).
Definition members_ltoks (off i sup : Z) (ms : members) : list linked_t :=
  linked (members_toks off ms) (members_parents i sup ms).

Lemma linked_app ts ts' us us' :
  Zlen ts = Zlen us -> linked (ts ++ ts') (us ++ us') = linked ts us ++ linked ts' us'.
Proof. unfold Zlen, linked. intros H. apply zip_with_app. lia. Qed.

Lemma fmap_linked ts us : Zlen ts = Zlen us -> tok <$> linked ts us = ts.
Proof. unfold Zlen, linked. intros H. apply fmap_zip_with_l; [done|lia]. Qed.

Lemma parent_linked ts us :
  JSMN_PARENT_LINKS b = true -> Zlen ts = Zlen us -> parent <$> linked ts us = us.
Proof.
  unfold Zlen, linked, up. intros -> H. apply fmap_zip_with_r; [done|lia].
Qed.

Lemma Zlen_linked ts us : Zlen ts = Zlen us -> Zlen (linked ts us) = Zlen ts.
Proof. intros H. rewrite <- (fmap_linked ts us) at 2 by done. unfold Zlen. by rewrite length_fmap. Qed.

Lemma linked_shut ts us : Zlen ts = Zlen us -> Forall closed ts -> Forall shut (linked ts us).
Proof. intros H. rewrite <- (fmap_linked ts us) at 1 by done. by rewrite Forall_fmap. Qed.

Lemma linked_below ts us i sup k t :
  JSMN_PARENT_LINKS b = true -> below i sup us -> linked ts us !! k = Some t ->
  sup <= parent t < i + Z.of_nat k.
Proof.
  unfold linked. intros Hb Hl (t1 & u & -> & _ & Hu)%lookup_zip_with_Some. cbn. unfold up. rewrite Hb.
  by apply Hl.
Qed.

Lemma toks_parents off i sup v : Zlen (toks off v) = Zlen (parents i sup v).
Proof. by rewrite Zlen_toks, (proj1 Zlen_parents_all). Qed.

Lemma elements_toks_parents off i sup vs : Zlen (elements_toks off vs) = Zlen (elements_parents i sup vs).
Proof. by rewrite Zlen_elements_toks, (proj1 (proj2 Zlen_parents_all)). Qed.

Lemma members_toks_parents off i sup ms : Zlen (members_toks off ms) = Zlen (members_parents i sup ms).
Proof. by rewrite Zlen_members_toks, (proj2 (proj2 Zlen_parents_all)). Qed.

Lemma Zlen_ltoks off i sup v : Zlen (ltoks off i sup v) = ntoks v.
Proof. unfold ltoks. rewrite Zlen_linked by apply toks_parents. apply Zlen_toks. Qed.

Lemma ltoks_shut off i sup v : 0 <= off -> Forall shut (ltoks off i sup v).
Proof. intros H. apply linked_shut; [apply toks_parents|by apply toks_closed]. Qed.

Section Loop.
Variable js : chars.
Hypothesis js_short : Z.of_nat (length js) < 2 ^ 31.
Variable N : Z.
Hypothesis N_range : 0 <= N < 2 ^ 31.

(** The loop gets from [p] to [p'] and sees [k] tokens on the way, given a round
    for every character that is left and one more. *)
Definition goes (p p' : parser) (k : Z) : Prop :=
  forall fuel count, Zlen js - pos p < Z.of_nat fuel ->
    exists fuel', Zlen js - pos p' < Z.of_nat fuel' /\
      parse_loop b js fuel N count p = parse_loop b js fuel' N (count + k) p'.

Lemma goes_refl p : goes p p 0.
Proof. intros fuel count Hf. exists fuel. by rewrite Z.add_0_r. Qed.

Lemma goes_trans p1 p2 p3 k1 k2 k : goes p1 p2 k1 -> goes p2 p3 k2 -> k = k1 + k2 -> goes p1 p3 k.
Proof.
  intros H1 H2 -> fuel count Hf. destruct (H1 fuel count Hf) as (f1 & Hf1 & ->).
  destruct (H2 f1 (count + k1) Hf1) as (f2 & Hf2 & ->). exists f2. by rewrite Z.add_assoc.
Qed.

Lemma peek_at pre c post : js = pre ++ c :: post -> c <> NUL -> peek js (Zlen pre) = Some c.
Proof.
  intros -> Hc. unfold peek. rewrite Zlen_nat, list_lookup_middle by done.
  by destruct (Ascii.eqb_spec c NUL).
Qed.

Lemma js_length pre mid post : js = pre ++ mid ++ post -> Zlen pre + Zlen mid + Zlen post < 2 ^ 31.
Proof. intros E. pose proof js_short as Hl. rewrite E, !length_app in Hl. unfold Zlen. lia. Qed.

(** One round of the loop. *)
Lemma goes_step pre c post p r p1 p2 :
  js = pre ++ c :: post -> c <> NUL -> pos p = Zlen pre ->
  parse_char b js N c p = Ret r p1 -> 0 <= r -> Zlen pre <= pos p1 < 2 ^ 31 ->
  p2 = set_pos (pos p1 + 1) p1 -> goes p p2 r.
Proof.
  intros Hjs Hc Hp Hr Hr0 Hq -> fuel count Hf.
  assert (Zlen pre < Zlen js) by (rewrite Hjs; zsolve).
  destruct fuel as [|fuel]; [lia|]. exists fuel. split; [cbn; lia|].
  cbn [parse_loop]. erewrite bind_Ret by done. rewrite Hp, (peek_at pre c post) by done.
  erewrite bind_Ret by done. rewrite (proj2 (Z.ltb_ge r 0)) by lia. erewrite bind_Ret by done.
  pose proof (Zlen_nonneg pre). by rewrite wrap_small by lia.
Qed.

Lemma goes_white w pre post n sup ts :
  js = pre ++ w ++ post -> white w = true ->
  goes (Parser (Zlen pre) n sup ts) (Parser (Zlen pre + Zlen w) n sup ts) 0.
Proof.
  revert pre. induction w as [|c w IH]; intros pre Hjs Hw.
  { rewrite Zlen_nil, Z.add_0_r. apply goes_refl. }
  cbn in Hw. apply andb_prop in Hw as [Hc Hw].
  pose proof (js_length pre (c :: w) post Hjs) as Hl. zlen.
  apply (goes_trans _ (Parser (Zlen (pre ++ [c])) n sup ts) _ 0 0); [| |done].
  - eapply (goes_step pre c (w ++ post)); [done| |done| |done| |].
    + intros ->. done.
    + instantiate (1 := Parser (Zlen pre) n sup ts).
      unfold is_white in Hc. repeat (apply orb_prop in Hc as [Hc|Hc]);
        apply Ascii.eqb_eq in Hc; by subst.
    + cbn [pos]. zsolve.
    + unfold set_pos. cbn. f_equal. zsolve.
  - replace (Zlen pre + (1 + Zlen w)) with (Zlen (pre ++ [c]) + Zlen w) by zsolve.
    apply IH; [|done]. rewrite Hjs. by rewrite <- app_assoc.
Qed.

(** ** Tokens *)

Lemma alloc_eq q sup D x rest :
  N = Zlen (D ++ x :: rest) ->
  jsmn_alloc_token N (St q D sup (x :: rest)) =
    Ret (Some (Zlen D)) (St q (D ++ [LTok (Tok (type (tok x)) (-1) (-1) 0) (-1)]) sup rest).
Proof.
  intros HN. zlen. zlen_pos. unfold jsmn_alloc_token, St.
  erewrite bind_Ret by done. cbn [toknext]. rewrite (proj2 (Z.leb_gt N (Zlen D))) by lia.
  erewrite bind_Ret by (by eapply get_middle). erewrite bind_Ret by (by eapply put_middle).
  erewrite bind_Ret by done. unfold set_toknext, set_tokens. cbn.
  rewrite wrap_small, <- app_assoc by lia. zlen. by rewrite Z.add_0_r.
Qed.

Lemma put_last q sup D (t : linked_t) rest t' :
  put_token (Zlen D) t' (St q (D ++ [t]) sup rest) = Ret () (St q (D ++ [t']) sup rest).
Proof.
  erewrite put_middle by (cbn; by rewrite <- app_assoc). unfold St, set_tokens.
  cbn [pos toknext toksuper]. rewrite <- app_assoc. cbn [app]. zlen. done.
Qed.

Lemma get_last q sup D (t : linked_t) rest :
  get_token (Zlen D) (St q (D ++ [t]) sup rest) = Ret t (St q (D ++ [t]) sup rest).
Proof. eapply get_middle. cbn. by rewrite <- app_assoc. Qed.

Lemma link_eq q sup D t rest :
  link b (Zlen D) (St q (D ++ [LTok t (-1)]) sup rest) = Ret () (St q (D ++ [LTok t (up sup)]) sup rest).
Proof.
  unfold link, up. destruct (JSMN_PARENT_LINKS b); [|done]. erewrite bind_Ret by done.
  erewrite bind_Ret by apply get_last. apply put_last.
Qed.

Lemma add_token_eq q sup D x rest ty back s e :
  N = Zlen (D ++ x :: rest) ->
  add_token b N ty back s e (St q D sup (x :: rest)) =
    Ret 0 (St q (D ++ [LTok (Tok ty s e 0) (up sup)]) sup rest).
Proof.
  intros HN. unfold add_token. erewrite bind_Ret by (by apply alloc_eq).
  unfold jsmn_fill_token. rewrite bind_bind. erewrite bind_Ret by apply get_last.
  erewrite bind_Ret by apply put_last. by erewrite bind_Ret by apply link_eq.
Qed.

(** A token that is a child of the superior one. *)
Lemma child_eq (m : M parser Z) q q' sup D t rest rest' :
  super_ok sup D -> m (St q D sup rest) = Ret 0 (St q' (D ++ [t]) sup rest') ->
  (r ← m ; if r <? 0 then mret r else count_child ;; mret 1) (St q D sup rest) =
    Ret 1 (St q' (bump sup D ++ [t]) sup rest').
Proof.
  intros Hs Hm. erewrite bind_Ret by exact Hm. change (0 <? 0) with false. cbv iota.
  unfold St. assert (super_ok sup (D ++ [t])) as Hs' by (unfold super_ok in *; zsolve).
  erewrite bind_Ret by (by apply count_child_bump). rewrite bump_app by done.
  zlen. rewrite Zlen_bump. done.
Qed.

(** ** Strings and primitives *)

Lemma not_hex_nul c : is_hex c = true -> c <> NUL.
Proof. by intros H ->. Qed.

Lemma scan_hex_eq hs pre post :
  js = pre ++ hs ++ post -> forallb is_hex hs = true ->
  scan_hex js (length hs) (Zlen pre) = Some (Zlen pre + Zlen hs).
Proof.
  revert pre. induction hs as [|h hs IH]; intros pre Hjs Hh; cbn [length scan_hex].
  { by rewrite Zlen_nil, Z.add_0_r. }
  cbn in Hh. apply andb_prop in Hh as [Hc Hh].
  pose proof (js_length pre (h :: hs) post Hjs) as Hl. zlen. zlen_pos.
  rewrite (peek_at pre h (hs ++ post)), Hc by (done || by apply not_hex_nul).
  rewrite wrap_small by lia. replace (Zlen pre + 1) with (Zlen (pre ++ [h])) by zsolve.
  rewrite IH; [f_equal; zsolve| |done]. rewrite Hjs. by rewrite <- app_assoc.
Qed.

Lemma lookup_at pre c post : js = pre ++ c :: post -> js !! Z.to_nat (Zlen pre) = Some c.
Proof. intros ->. by rewrite Zlen_nat, list_lookup_middle. Qed.

Lemma scan_string_eq fuel s pre post :
  js = pre ++ s ++ quote :: post -> string_body s = true -> (length s < fuel)%nat ->
  scan_string js fuel (Zlen pre) = StringAt (Zlen pre + Zlen s).
Proof.
  revert s pre. induction fuel as [|fuel IH]; intros s pre Hjs Hs Hf; [lia|].
  pose proof (js_length pre s (quote :: post) Hjs) as Hl. zlen. zlen_pos.
  assert (forall pre' s', js = pre' ++ s' ++ quote :: post -> string_body s' = true ->
    (length s' < length s)%nat -> Zlen pre' + Zlen s' = Zlen pre + Zlen s ->
    scan_string js fuel (Zlen pre') = StringAt (Zlen pre + Zlen s)) as Hrec.
  { intros pre' s' Hjs' Hs' Hlt <-. apply IH; [done|done|lia]. }
  destruct s as [|c s1]; cbn [scan_string].
  { rewrite (peek_at pre quote post) by done. cbn. by rewrite Zlen_nil, Z.add_0_r. }
  cbn [string_body] in Hs. destruct (Ascii.eqb_spec c quote) as [|Hq]; [done|].
  destruct (Ascii.eqb_spec c NUL) as [|Hn]; [done|]. cbn [orb] in Hs. zlen.
  assert (js = (pre ++ [c]) ++ s1 ++ quote :: post) as Hjs1 by (rewrite Hjs; by rewrite <- app_assoc).
  rewrite (peek_at pre c (s1 ++ quote :: post)) by done.
  destruct (Ascii.eqb_spec c quote) as [|_]; [done|].
  rewrite wrap_small by lia. replace (Zlen pre + 1) with (Zlen (pre ++ [c])) by zsolve.
  destruct (Ascii.eqb c backslash); cbn [andb]; [|apply (Hrec _ s1); [done|done|cbn; lia|zsolve]].
  destruct s1 as [|e s2]; [done|].
  assert (js = ((pre ++ [c]) ++ [e]) ++ s2 ++ quote :: post) as Hjs2 by (rewrite Hjs1; by rewrite <- !app_assoc).
  change (Z.of_nat (length js)) with (Zlen js).
  rewrite (proj2 (Z.ltb_lt _ (Zlen js))) by (rewrite Hjs1; zsolve).
  rewrite (lookup_at (pre ++ [c]) e (s2 ++ quote :: post)) by done.
  rewrite wrap_small by zsolve. replace (Zlen (pre ++ [c]) + 1) with (Zlen ((pre ++ [c]) ++ [e])) by zsolve.
  destruct (is_escape e); [apply (Hrec _ s2); [done|done|cbn; lia|zsolve]|].
  destruct (Ascii.eqb e "u"); [|done]. destruct s2 as [|h1 [|h2 [|h3 [|h4 s3]]]]; try done. zbool.
  set (pre2 := (pre ++ [c]) ++ [e]) in *. set (hs := [h1; h2; h3; h4]).
  change 4%nat with (length hs).
  rewrite (scan_hex_eq hs pre2 (s3 ++ quote :: post) Hjs2) by (cbn; by repeat (apply andb_true_intro; split)).
  assert (Zlen hs = 4) as Eh by done. assert (Zlen pre2 = Zlen pre + 2) as E2 by (unfold pre2; zsolve).
  rewrite (wrap_small 32 (_ - 1)), wrap_small by zsolve.
  replace (Zlen pre2 + Zlen hs - 1 + 1) with (Zlen (pre2 ++ hs)) by zsolve.
  apply (Hrec _ s3); [rewrite Hjs2; by rewrite <- app_assoc|done|cbn; lia|rewrite Zlen_app; zsolve].
Qed.

(** A text that a primitive can be followed by. *)
Definition ended (post : chars) : bool :=
  match post with [] => negb (JSMN_STRICT b) | c :: _ => ends_primitive b c end.

Lemma ends_delimiter c : Jsmn.ends_primitive c = true -> c <> ":"%char -> ends_primitive b c = true.
Proof.
  intros H Hc. unfold Jsmn.ends_primitive in H. unfold ends_primitive.
  destruct (Ascii.eqb_spec c ":") as [|_]; [done|]. by rewrite andb_false_r.
Qed.

Lemma prim_char_ends c : prim_char c = true ->
  ends_primitive b c = false /\ (code c <? 32) || (127 <=? code c) = false.
Proof.
  unfold prim_char. intros [H1 ->%negb_true_iff]%andb_prop. split; [|done].
  apply negb_true_iff in H1. unfold Jsmn.ends_primitive in H1. unfold ends_primitive.
  repeat (apply orb_false_iff in H1 as [H1 ->]). by rewrite H1, andb_false_r.
Qed.

Lemma scan_primitive_eq fuel s pre post :
  js = pre ++ s ++ post -> forallb prim_char s = true -> ended post = true -> (length s < fuel)%nat ->
  scan_primitive b js fuel (Zlen pre) = PrimitiveAt (Zlen pre + Zlen s).
Proof.
  revert s pre. induction fuel as [|fuel IH]; intros s pre Hjs Hs He Hf; [lia|]. cbn [scan_primitive].
  pose proof (js_length pre s post Hjs) as Hl. zlen_pos.
  destruct s as [|c s]; [rewrite Zlen_nil, Z.add_0_r|].
  - cbn [app] in Hjs. destruct post as [|c post].
    + rewrite app_nil_r in Hjs. subst. rewrite peek_end by (unfold Zlen; lia).
      cbn in He. by destruct (JSMN_STRICT b).
    + cbn [ended] in He. assert (c <> NUL) by (by intros ->; unfold ends_primitive in He; rewrite andb_false_r in He).
      by rewrite (peek_at pre c post), He.
  - cbn in Hs. apply andb_prop in Hs as [Hc Hs]. zlen.
    assert (c <> NUL) by (by intros ->). rewrite (peek_at pre c (s ++ post)) by done.
    destruct (prim_char_ends c Hc) as [-> ->].
    rewrite wrap_small by lia. replace (Zlen pre + 1) with (Zlen (pre ++ [c])) by zsolve.
    rewrite (IH s); [f_equal; zsolve| |done|done|cbn in Hf; lia]. rewrite Hjs. by rewrite <- app_assoc.
Qed.

Lemma parse_string_eq s pre post sup D x rest :
  js = pre ++ quoted s ++ post -> string_body s = true -> N = Zlen (D ++ x :: rest) ->
  jsmn_parse_string b js N (St (Zlen pre) D sup (x :: rest)) =
    Ret 0 (St (Zlen pre + 1 + Zlen s)
      (D ++ [LTok (Tok JSMN_STRING (Zlen pre + 1) (Zlen pre + 1 + Zlen s) 0) (up sup)]) sup rest).
Proof.
  intros Hjs Hs HN. pose proof (js_length pre (quoted s) post Hjs) as Hlen. unfold quoted in *.
  unfold jsmn_parse_string. erewrite bind_Ret by done. cbn [pos tokens St]. cbv zeta.
  rewrite wrap_small by zsolve.
  assert (scan_string js (scan_fuel js) (Zlen pre + 1) = StringAt (Zlen pre + 1 + Zlen s)) as ->.
  { replace (Zlen pre + 1) with (Zlen (pre ++ [quote])) by zsolve.
    apply (scan_string_eq _ s _ post); [|done|].
    - rewrite Hjs. cbn. by rewrite <- !app_assoc.
    - unfold scan_fuel. rewrite Hjs, !length_app. cbn. rewrite length_app. cbn. lia. }
  erewrite bind_Ret by done. unfold set_pos. cbn [toknext toksuper tokens].
  rewrite !to_int_id by zsolve. by apply add_token_eq.
Qed.

Lemma parse_primitive_eq s pre post sup D x rest :
  js = pre ++ s ++ post -> forallb prim_char s = true -> s <> [] -> ended post = true ->
  N = Zlen (D ++ x :: rest) ->
  jsmn_parse_primitive b js N (St (Zlen pre) D sup (x :: rest)) =
    Ret 0 (St (Zlen pre + Zlen s - 1)
      (D ++ [LTok (Tok JSMN_PRIMITIVE (Zlen pre) (Zlen pre + Zlen s) 0) (up sup)]) sup rest).
Proof.
  intros Hjs Hs Hne He HN. pose proof (js_length pre s post Hjs) as Hlen.
  assert (0 < Zlen s) by (destruct s; [done|zsolve]).
  unfold jsmn_parse_primitive. erewrite bind_Ret by done. cbn [pos tokens St]. cbv zeta.
  rewrite (scan_primitive_eq _ s pre post)
    by (done || (unfold scan_fuel; rewrite Hjs, !length_app; lia)).
  erewrite bind_Ret by done. unfold set_pos. cbn [toknext toksuper tokens].
  erewrite bind_Ret by (by apply add_token_eq). change (0 <? 0) with false. cbv iota.
  erewrite bind_Ret by done. rewrite wrap_small, !to_int_id by zsolve. done.
Qed.

Lemma goes_string s pre post sup D x rest :
  js = pre ++ quoted s ++ post -> string_body s = true -> super_ok sup D -> N = Zlen (D ++ x :: rest) ->
  goes (St (Zlen pre) D sup (x :: rest))
    (St (Zlen pre + Zlen (quoted s))
      (bump sup D ++ [LTok (Tok JSMN_STRING (Zlen pre + 1) (Zlen pre + 1 + Zlen s) 0) (up sup)]) sup rest) 1.
Proof.
  intros Hjs Hs Hsup HN. pose proof (js_length pre (quoted s) post Hjs) as Hl. unfold quoted in *.
  eapply (goes_step pre quote ((s ++ [quote]) ++ post));
    [done|done|done| |done| |].
  - apply (child_eq (jsmn_parse_string b js N)); [done|]. by apply (parse_string_eq s pre post).
  - cbn [pos St]. zsolve.
  - unfold St, set_pos. cbn [pos toknext toksuper tokens]. f_equal. zsolve.
Qed.

(** In strict mode the superior token takes a primitive. *)
Definition admits (sup : Z) (D : list linked_t) : Prop :=
  JSMN_STRICT b = true ->
  exists x, 0 <= sup /\ D !! Z.to_nat sup = Some x /\ rejects_primitive x = false.

Lemma parse_other_eq c s q D sup rest :
  (JSMN_STRICT b = true -> first_ok (c :: s) = true) -> admits sup D ->
  parse_other b js N c (St q D sup rest) =
    (r ← jsmn_parse_primitive b js N ; if r <? 0 then mret r else count_child ;; mret 1) (St q D sup rest).
Proof.
  unfold parse_other, admits. intros Hf Ha. destruct (JSMN_STRICT b); [|done].
  specialize (Hf eq_refl). cbn [first_ok] in Hf. rewrite Hf. destruct (Ha eq_refl) as (x & Hs & Hx & Hr).
  erewrite bind_Ret by done. cbn [tokens toksuper St].
  erewrite (bind_Ret (get_token sup)).
  2:{ unfold get_token. cbn [tokens St]. rewrite (proj2 (Z.leb_le 0 sup)) by done.
      by rewrite (lookup_app_l_Some _ _ _ _ Hx). }
  by rewrite Hr.
Qed.

Lemma goes_primitive s pre post sup D x rest :
  js = pre ++ s ++ post -> primitive s = true -> ended post = true -> super_ok sup D ->
  (JSMN_STRICT b = true -> first_ok s = true) -> admits sup D -> N = Zlen (D ++ x :: rest) ->
  goes (St (Zlen pre) D sup (x :: rest))
    (St (Zlen pre + Zlen s)
      (bump sup D ++ [LTok (Tok JSMN_PRIMITIVE (Zlen pre) (Zlen pre + Zlen s) 0) (up sup)]) sup rest) 1.
Proof.
  intros Hjs Hs He Hsup Hf Had HN. pose proof (js_length pre s post Hjs) as Hl.
  destruct s as [|c s]; [done|]. cbn [primitive] in Hs. apply andb_prop in Hs as [Ho Hs].
  pose proof Hs as Hc. cbn in Hc. apply andb_prop in Hc as [Hc _]. unfold prim_char in Hc. zbool.
  assert (parse_char b js N c = parse_other b js N c) as E.
  { unfold opens_value, Jsmn.ends_primitive in *. unfold parse_char.
    repeat match goal with H : negb _ = true |- _ => apply negb_true_iff in H end.
    repeat match goal with H : _ || _ = false |- _ => apply orb_false_iff in H as [? ?] end.
    repeat match goal with H : Ascii.eqb _ _ = false |- _ => rewrite H; clear H end.
    by match goal with H : is_white _ = false |- _ => rewrite H end. }
  eapply (goes_step pre c (s ++ post)); [done|by intros ->|done| |done| |].
  - rewrite E, (parse_other_eq c s) by done.
    apply (child_eq (jsmn_parse_primitive b js N)); [done|]. by apply (parse_primitive_eq (c :: s) pre post).
  - cbn [pos St]. zsolve.
  - unfold St, set_pos. cbn [pos toknext toksuper tokens]. f_equal. zsolve.
Qed.

(** ** Brackets, colons and commas *)

Definition open_char (ty : jsmntype_t) : ascii :=
  match ty with JSMN_OBJECT => "{"%char | _ => "["%char end.
Definition close_char (ty : jsmntype_t) : ascii :=
  match ty with JSMN_OBJECT => "}"%char | _ => "]"%char end.
Definition container_type (ty : jsmntype_t) : Prop := ty = JSMN_ARRAY \/ ty = JSMN_OBJECT.

Lemma link_child q sup n D t (rest : list linked_t) :
  n = Zlen (D ++ [LTok t (-1)]) ->
  (if sup =? -1 then mret () else link b (Zlen D) : M parser ()) (Parser q n sup (Some ((D ++ [LTok t (-1)]) ++ rest))) =
    Ret () (St q (D ++ [LTok t (up sup)]) sup rest).
Proof.
  intros ->. destruct (sup =? -1) eqn:E; [|apply link_eq]. zbool. subst. unfold up.
  by destruct (JSMN_PARENT_LINKS b).
Qed.

Lemma goes_open ty pre post sup D x rest :
  js = pre ++ open_char ty :: post -> container_type ty -> super_ok sup D ->
  N = Zlen (D ++ x :: rest) ->
  goes (St (Zlen pre) D sup (x :: rest))
    (St (Zlen pre + 1) (bump sup D ++ [LTok (Tok ty (Zlen pre) (-1) 0) (up sup)]) (Zlen D) rest) 1.
Proof.
  intros Hjs Hty Hsup HN. pose proof (js_length pre [open_char ty] post Hjs) as Hl.
  set (p1 := St (Zlen pre) (bump sup D ++ [LTok (Tok ty (Zlen pre) (-1) 0) (up sup)]) (Zlen D) rest).
  assert (open_container b N ty (St (Zlen pre) D sup (x :: rest)) = Ret 0 p1) as Ho.
  { unfold open_container. erewrite bind_Ret by done. cbn [tokens St].
    erewrite bind_Ret by (by apply alloc_eq).
    unfold St at 1. erewrite bind_Ret by (apply count_child_bump; unfold super_ok in *; zsolve).
    rewrite bump_app, <- (Zlen_bump sup D) by done.
    cbn [toksuper St]. erewrite bind_Ret by (apply link_child; zlen; by rewrite Zlen_bump).
    erewrite bind_Ret by apply get_last. erewrite bind_Ret by apply put_last.
    erewrite bind_Ret by done. cbn [tok tend size parent pos].
    unfold set_toksuper, p1, St, mret, M_ret. cbn [pos toknext toksuper tokens].
    rewrite (to_int_id (Zlen pre)), (last_token js N) by (zlen; rewrite ?Zlen_bump; zsolve).
    do 2 f_equal. zlen. rewrite Zlen_bump. lia. }
  apply (goes_step pre (open_char ty) post _ 1 p1); [done|by destruct Hty as [-> | ->]|done| |done| |done].
  - assert (parse_char b js N (open_char ty) = fun p => (r ← open_container b N ty ;
      if r <? 0 then mret r else mret 1) p) as -> by (by destruct Hty as [-> | ->]).
    by erewrite bind_Ret by exact Ho.
  - cbn [pos p1 St]. zsolve.
Qed.

Lemma take_middle {A : Type} (l : list A) x l' : take (S (length l)) (l ++ x :: l') = l ++ [x].
Proof.
  replace (l ++ x :: l') with ((l ++ [x]) ++ l') by (by rewrite <- app_assoc).
  apply take_app_length'. rewrite length_app. cbn. lia.
Qed.

Lemma opened ty a n u : 0 <= a -> is_open (LTok (Tok ty a (-1) n) u) = true.
Proof. intros Ha. unfold is_open, Jsmn.is_open. cbn. by rewrite (proj2 (Z.eqb_neq a (-1))) by lia. Qed.

Lemma shut_end ty s e n u : 0 <= e -> shut (LTok (Tok ty s e n) u).
Proof. apply closed_end. Qed.

(** The superior token after a bracket that closes a container with parent [u]
    whose tokens follow [D]. *)
Definition outer (u : Z) (D : list linked_t) : Z :=
  if JSMN_PARENT_LINKS b then u else last_index is_open D.

(** The walk along the parents ends at the open token. *)
Lemma close_parents_eq fuel k q sup ty a n u D E rest (t := fun e => LTok (Tok ty a e n) u) :
  0 <= a -> 0 <= q < 2 ^ 31 - 1 -> Forall shut E -> rooted (Zlen D) E -> (k < fuel)%nat -> (k <= length E)%nat ->
  close_parents fuel q ty (Zlen D + Z.of_nat k) (St q (D ++ t (-1) :: E) sup rest) =
    Ret 0 (St q (D ++ t (q + 1) :: E) u rest).
Proof.
  intros Ha Hq HE Hr. revert k. induction fuel as [|fuel IH]; intros k Hk Hl; [lia|]. cbn [close_parents].
  zlen_pos. destruct k as [|k].
  - rewrite Z.add_0_r. erewrite bind_Ret by (eapply get_middle; cbn; by rewrite <- app_assoc).
    unfold t at 1. rewrite opened, decide_True by done. unfold end_token.
    erewrite bind_Ret by (eapply (put_middle _ D (t (-1))); cbn; by rewrite <- app_assoc).
    erewrite bind_Ret by done. rewrite wrap_small, to_int_id by lia. unfold St, set_tokens, set_toksuper, t.
    cbn [pos toknext toksuper tokens]. rewrite <- app_assoc. cbn [app]. zlen. done.
  - destruct (lookup_lt_is_Some_2 E k ltac:(lia)) as [x Hx]. pose proof (Hr k x Hx) as Hp.
    assert (get_token (Zlen D + Z.of_nat (S k)) (St q (D ++ t (-1) :: E) sup rest) =
      Ret x (St q (D ++ t (-1) :: E) sup rest)) as Hg.
    { unfold get_token. cbn [tokens St]. rewrite (proj2 (Z.leb_le _ _)) by lia.
      replace (Z.to_nat _) with (length D + S k)%nat by (unfold Zlen; lia).
      rewrite <- app_assoc, lookup_app_r, Nat.add_comm, Nat.add_sub by lia. cbn [app].
      rewrite lookup_cons_ne_0 by lia. cbn [pred]. by rewrite (lookup_app_l_Some _ _ _ _ Hx). }
    erewrite bind_Ret by exact Hg. rewrite (proj1 (Forall_lookup shut E) HE k x Hx).
    rewrite (proj2 (Z.eqb_neq _ _)) by lia.
    replace (parent x) with (Zlen D + Z.of_nat (Z.to_nat (parent x - Zlen D))) by lia. apply IH; lia.
Qed.

Lemma search_close q sup ty a n u D E rest (t := fun e => LTok (Tok ty a e n) u) :
  JSMN_PARENT_LINKS b = false -> 0 <= a -> 0 <= q < 2 ^ 31 - 1 -> Forall shut E ->
  close_container b ty (St q (D ++ t (-1) :: E) sup rest) =
    Ret 0 (St q (D ++ t (q + 1) :: E) (last_index is_open D) rest).
Proof.
  intros Hb Ha Hq HE. unfold close_container. erewrite bind_Ret by done. cbn [tokens St toknext pos]. rewrite Hb.
  erewrite bind_Ret by (apply find_in_use; by rewrite Zlen_nat).
  rewrite (last_index_middle is_open D (t (-1)) E (opened _ _ _ _ Ha) HE), (proj2 (Z.eqb_neq _ _)) by zsolve.
  erewrite bind_Ret by (eapply get_middle; cbn; by rewrite <- app_assoc).
  cbn [type tok t]. rewrite decide_True by done. erewrite bind_Ret by done.
  unfold end_token. cbn [start type tend size parent tok t].
  erewrite bind_Ret by (eapply (put_middle _ D (t (-1))); cbn; by rewrite <- app_assoc).
  rewrite wrap_small, to_int_id by lia. fold (t (q + 1)).
  unfold St, set_tokens, set_toksuper. cbn [pos toknext toksuper tokens].
  erewrite bind_Ret.
  2:{ eapply find_token_eq; [done|]. rewrite Zlen_nat, !length_app. cbn. lia. }
  rewrite Zlen_nat, take_middle, last_index_app by (constructor; [apply shut_end; lia|done]).
  assert (Zlen (D ++ t (-1) :: E) = Zlen (D ++ t (q + 1) :: E)) as -> by zsolve.
  rewrite <- app_assoc. cbn [app].
  destruct (last_index is_open D =? -1) eqn:El; zbool; [rewrite El|]; done.
Qed.

Lemma goes_close ty pre post sup D a n u E rest (t := fun e => LTok (Tok ty a e n) u) :
  js = pre ++ close_char ty :: post -> container_type ty -> 0 <= a -> Forall shut E ->
  (JSMN_PARENT_LINKS b = true -> rooted (Zlen D) E) ->
  goes (St (Zlen pre) (D ++ t (-1) :: E) sup rest)
    (St (Zlen pre + 1) (D ++ t (Zlen pre + 1) :: E) (outer u D) rest) 0.
Proof.
  intros Hjs Hty Ha HE Hr. pose proof (js_length pre [close_char ty] post Hjs) as Hl. zlen_pos.
  eapply (goes_step pre (close_char ty) post _ 0 (St (Zlen pre) (D ++ t (Zlen pre + 1) :: E) (outer u D) rest));
    [done|by destruct Hty as [-> | ->]|done| |done|cbn [pos St]; zsolve|done].
  assert (parse_char b js N (close_char ty) = close_container b ty) as -> by (by destruct Hty as [-> | ->]).
  unfold outer. destruct (JSMN_PARENT_LINKS b) eqn:Hb; [|apply search_close; [done|done|zsolve|done]].
  unfold close_container. erewrite bind_Ret by done. cbn [tokens St toknext pos]. rewrite Hb.
  rewrite (proj2 (Z.ltb_ge _ 1)) by zsolve.
  replace (Zlen (D ++ t (-1) :: E) - 1) with (Zlen D + Z.of_nat (length E)) by (zlen; unfold Zlen; lia).
  apply close_parents_eq; [done|zsolve|done|by apply Hr| |lia].
  rewrite Zlen_nat, length_app. cbn. lia.
Qed.

Lemma goes_colon pre post sup D rest :
  js = pre ++ ":"%char :: post -> Zlen (D ++ rest) = N ->
  goes (St (Zlen pre) D sup rest) (St (Zlen pre + 1) D (Zlen D - 1) rest) 0.
Proof.
  intros Hjs HN. pose proof (js_length pre [":"%char] post Hjs) as Hl.
  eapply (goes_step pre ":"%char post); [done|done|done|reflexivity|done|cbn [pos set_toksuper St]; zsolve|].
  unfold set_pos, set_toksuper, St. cbn [pos toknext toksuper tokens].
  by rewrite (last_token js N) by zsolve.
Qed.

(** A comma: the innermost container is the superior token again. *)
Lemma goes_comma pre post sup D t E rest x :
  js = pre ++ ","%char :: post -> is_container t = true -> is_open t = true -> Forall shut E ->
  (D ++ t :: E) !! Z.to_nat sup = Some x -> 0 <= sup ->
  (sup = Zlen D \/ is_container x = false /\ parent x = up (Zlen D)) ->
  goes (St (Zlen pre) (D ++ t :: E) sup rest) (St (Zlen pre + 1) (D ++ t :: E) (Zlen D) rest) 0.
Proof.
  intros Hjs Hct Hop HE Hx Hs Hsup. pose proof (js_length pre [","%char] post Hjs) as Hl.
  set (p := St (Zlen pre) (D ++ t :: E) sup rest).
  assert (get_token sup p = Ret x p) as Hg.
  { unfold get_token. cbn [tokens p St]. rewrite (proj2 (Z.leb_le 0 sup)) by done.
    by rewrite (lookup_app_l_Some _ _ _ _ Hx). }
  eapply (goes_step pre ","%char post _ 0 (St (Zlen pre) (D ++ t :: E) (Zlen D) rest));
    [done|done|done| |done|cbn [pos St]; zsolve|done].
  change (parse_char b js N ",") with (comma b ≫= fun _ => mret 0).
  enough (comma b p = Ret () (St (Zlen pre) (D ++ t :: E) (Zlen D) rest)) as Hc by (by erewrite bind_Ret by exact Hc).
  unfold comma. erewrite bind_Ret by done. cbn [tokens p St toksuper toknext].
  erewrite bind_Ret by exact Hg. destruct Hsup as [-> |[-> Hp]].
  { rewrite list_lookup_middle in Hx by (by rewrite Zlen_nat). injection Hx as <-. by rewrite Hct. }
  unfold up in Hp. destruct (JSMN_PARENT_LINKS b); [by rewrite Hp|].
  erewrite bind_Ret by (apply find_in_use; by rewrite Zlen_nat).
  rewrite last_index_middle; [|by rewrite Hct, Hop|].
  2:{ eapply Forall_impl; [exact HE|]. intros y Hy. by rewrite Hy, andb_false_r. }
  by rewrite (proj2 (Z.eqb_neq _ _)) by zsolve.
Qed.

(** ** Values *)

Lemma goes_to p q1 D1 s1 r1 q D s r k1 k :
  goes p (St q1 D1 s1 r1) k1 -> q1 = q -> D1 = D -> s1 = s -> r1 = r -> k1 = k ->
  goes p (St q D s r) k.
Proof. by intros H -> -> -> -> ->. Qed.

(** Where a primitive can be: before something that ends it and, in strict
    mode, in an array or after a key. *)
Definition placed (v : json) (sup : Z) (D : list linked_t) (post : chars) : Prop :=
  is_primitive v = true -> ended post = true /\ admits sup D.

Definition strictly (ok : bool) : Prop := JSMN_STRICT b = true -> ok = true.

Lemma strictly_and ok ok' : strictly (ok && ok') -> strictly ok /\ strictly ok'.
Proof. unfold strictly. intros H. split; intros Hb; by apply andb_prop in H as [? ?]. Qed.

Definition value_goes (v : json) : Prop := forall pre post sup D rest,
  js = pre ++ text v ++ post -> wf v = true -> strictly (strict_wf v) -> placed v sup D post ->
  super_ok sup D -> N = Zlen (D ++ rest) -> ntoks v <= Zlen rest ->
  exists sup', (sup' = sup \/ sup' = last_index is_open D) /\
    goes (St (Zlen pre) D sup rest)
      (St (Zlen pre + Zlen (text v)) (bump sup D ++ ltoks (Zlen pre) (Zlen D) sup v) sup'
        (Zdrop (ntoks v) rest)) (ntoks v).

(** The tokens [E] follow the open container in token [d]. *)
Definition inside (d : Z) (E : list linked_t) : Prop :=
  Forall shut E /\ (JSMN_PARENT_LINKS b = true -> rooted d E).

Definition elements_goes (vs : elements) : Prop := forall pre post D a n u E rest,
  js = pre ++ elements_text vs ++ post -> elements_wf vs = true -> strictly (elements_strict_wf vs) ->
  ended post = true -> 0 <= a -> inside (Zlen D) E ->
  N = Zlen (D ++ LTok (Tok JSMN_ARRAY a (-1) n) u :: E ++ rest) -> elements_ntoks vs <= Zlen rest ->
  goes (St (Zlen pre) (D ++ LTok (Tok JSMN_ARRAY a (-1) n) u :: E) (Zlen D) rest)
    (St (Zlen pre + Zlen (elements_text vs))
      (D ++ LTok (Tok JSMN_ARRAY a (-1) (n + nelements vs)) u ::
        E ++ elements_ltoks (Zlen pre) (Zlen D + 1 + Zlen E) (Zlen D) vs) (Zlen D)
      (Zdrop (elements_ntoks vs) rest)) (elements_ntoks vs).

Definition members_goes (ms : members) : Prop := forall pre post D a n u E rest sup,
  js = pre ++ members_text ms ++ post -> members_wf ms = true -> strictly (members_strict_wf ms) ->
  ended post = true -> 0 <= a -> inside (Zlen D) E ->
  N = Zlen (D ++ LTok (Tok JSMN_OBJECT a (-1) n) u :: E ++ rest) ->
  members_ntoks ms <= Zlen rest -> (ms <> MNil -> sup = Zlen D) ->
  exists sup', goes (St (Zlen pre) (D ++ LTok (Tok JSMN_OBJECT a (-1) n) u :: E) sup rest)
    (St (Zlen pre + Zlen (members_text ms))
      (D ++ LTok (Tok JSMN_OBJECT a (-1) (n + nmembers ms)) u ::
        E ++ members_ltoks (Zlen pre) (Zlen D + 1 + Zlen E) (Zlen D) ms) sup'
      (Zdrop (members_ntoks ms) rest)) (members_ntoks ms).

Lemma inside_app off i d E v :
  0 <= off -> i = d + 1 + Zlen E -> 0 <= d -> inside d E -> inside d (E ++ ltoks off i d v).
Proof.
  intros Ho -> Hd [Hs Hr]. split; [apply Forall_app; split; [done|by apply ltoks_shut]|].
  intros Hb. apply rooted_app; [by apply Hr|]. intros k t Ht. zlen_pos.
  eapply linked_below; [done|apply (proj1 parents_below_all); lia|exact Ht].
Qed.

Lemma ended_white w post : white w = true -> ended post = true -> ended (w ++ post) = true.
Proof.
  intros Hw Hp. destruct w as [|c w]; [done|]. cbn in Hw |- *. zbool.
  unfold ends_primitive. match goal with H : is_white c = true |- _ => rewrite H end.
  by rewrite orb_true_r.
Qed.

Lemma leaf_goes v t (Hn : ntoks v = 1) pre post sup D rest :
  (forall x rest', rest = x :: rest' -> goes (St (Zlen pre) D sup (x :: rest'))
     (St (Zlen pre + Zlen (text v)) (bump sup D ++ [t]) sup rest') 1) ->
  js = pre ++ text v ++ post -> ltoks (Zlen pre) (Zlen D) sup v = [t] -> ntoks v <= Zlen rest ->
  exists sup', (sup' = sup \/ sup' = last_index is_open D) /\
    goes (St (Zlen pre) D sup rest)
      (St (Zlen pre + Zlen (text v)) (bump sup D ++ ltoks (Zlen pre) (Zlen D) sup v) sup'
        (Zdrop (ntoks v) rest)) (ntoks v).
Proof.
  intros Hg Hjs Ht Hr. rewrite Hn in *. destruct rest as [|x rest]; [zlen; lia|].
  exists sup. split; [by left|]. rewrite Ht. by apply Hg.
Qed.

(** A container, given how the loop gets through what is between the brackets:
    [X], with the tokens [T], which are [k] and count as [n] children. *)
Lemma container_goes ty w X T n k pre post sup D x rest (A := pre ++ open_char ty :: w) (B := bump sup D) :
  container_type ty -> js = pre ++ (open_char ty :: w ++ X ++ [close_char ty]) ++ post ->
  white w = true -> super_ok sup D -> N = Zlen (D ++ x :: rest) ->
  Zlen T = k -> 0 <= k <= Zlen rest -> inside (Zlen D) T ->
  (exists sup', goes (St (Zlen A) (B ++ [LTok (Tok ty (Zlen pre) (-1) 0) (up sup)]) (Zlen B) rest)
    (St (Zlen A + Zlen X) (B ++ LTok (Tok ty (Zlen pre) (-1) n) (up sup) :: T) sup' (Zdrop k rest)) k) ->
  let e := Zlen pre + Zlen (open_char ty :: w ++ X ++ [close_char ty]) in
  exists sup', (sup' = sup \/ sup' = last_index is_open D) /\
  goes (St (Zlen pre) D sup (x :: rest))
    (St e (B ++ LTok (Tok ty (Zlen pre) e n) (up sup) :: T) sup' (Zdrop (1 + k) (x :: rest))) (1 + k).
Proof.
  intros Hty Hjs Hw Hs HN HT Hk [Hcl Hro] [sup' G3] e.
  set (A1 := pre ++ [open_char ty]). set (A3 := A ++ X).
  assert (js = A1 ++ w ++ X ++ close_char ty :: post) as Hjs1
    by (rewrite Hjs; unfold A1; by repeat (rewrite <- ?app_assoc; cbn [app])).
  assert (js = A3 ++ close_char ty :: post) as Hjs3
    by (rewrite Hjs; unfold A3, A; by repeat (rewrite <- ?app_assoc; cbn [app])).
  assert (Zlen B = Zlen D) as EB by apply Zlen_bump.
  exists (outer (up sup) B). split.
  { unfold outer, up, B. rewrite bump_open. destruct (JSMN_PARENT_LINKS b); [by left|by right]. }
  set (t := fun e n => LTok (Tok ty (Zlen pre) e n) (up sup)) in *.
  assert (goes (St (Zlen pre) D sup (x :: rest)) (St (Zlen A1) (B ++ [t (-1) 0]) (Zlen B) rest) 1) as G1.
  { eapply goes_to; [apply (goes_open ty pre (w ++ X ++ close_char ty :: post))|..];
      try done; [|unfold A1; zsolve]. rewrite Hjs1. unfold A1. by rewrite <- app_assoc. }
  assert (goes (St (Zlen A1) (B ++ [t (-1) 0]) (Zlen B) rest) (St (Zlen A) (B ++ [t (-1) 0]) (Zlen B) rest) 0) as G2.
  { eapply goes_to; [by apply (goes_white w A1 (X ++ close_char ty :: post))|..];
      try done. unfold A, A1. zsolve. }
  assert (goes (St (Zlen A3) (B ++ t (-1) n :: T) sup' (Zdrop k rest))
    (St (Zlen A3 + 1) (B ++ t (Zlen A3 + 1) n :: T) (outer (up sup) B) (Zdrop k rest)) 0) as G4.
  { apply (goes_close ty A3 post); [done|done|zsolve|done|by rewrite EB]. }
  replace (Zlen A + Zlen X) with (Zlen A3) in G3 by (unfold A3; zsolve).
  pose proof (goes_trans _ _ _ _ _ _ (goes_trans _ _ _ _ _ _ (goes_trans _ _ _ _ _ _ G1 G2 eq_refl) G3 eq_refl) G4 eq_refl) as G.
  assert (Zlen A3 + 1 = e) as Ee by (unfold e, A3, A; zsolve). rewrite Ee in G.
  eapply goes_to; [exact G|..]; try done; [|lia]. apply Zdrop_cons. lia.
Qed.

Lemma inside_nil d : inside d [].
Proof. split; [by constructor|]. intros _. apply rooted_nil. Qed.

Lemma inside_linked d ts us :
  Zlen ts = Zlen us -> Forall closed ts -> below (d + 1) d us -> inside d (linked ts us).
Proof.
  intros Hl Hc Hu. split; [by apply linked_shut|]. intros Hb k t Ht. by eapply linked_below.
Qed.

Lemma array_goes w vs : elements_goes vs -> value_goes (JArray w vs).
Proof.
  intros IH pre post sup D rest Hjs Hwf Hst _ Hs HN Hr. cbn [text wf ntoks strict_wf] in *. zbool.
  pose proof (elements_ntoks_nonneg vs). destruct rest as [|x rest]; [zlen; lia|].
  unfold ltoks. cbn [toks parents linked zip_with text].
  replace (Zlen pre + 1 + Zlen w) with (Zlen (pre ++ "["%char :: w)) by zsolve.
  apply (container_goes JSMN_ARRAY w (elements_text vs) _ (nelements vs) _ pre post); try done.
  - by left.
  - etrans; [apply Zlen_linked, elements_toks_parents|apply Zlen_elements_toks].
  - zsolve.
  - apply inside_linked; [apply elements_toks_parents|apply toks_closed_all; zsolve|apply (proj1 (proj2 parents_below_all)); lia].
  - eexists. eapply goes_to; [eapply (IH _ ("]"%char :: post) _ (Zlen pre) 0 (up sup) [] rest);
      [|done|done| |zsolve|apply inside_nil| |zsolve]|..]; try done.
    + cbn [open_char]. rewrite Hjs. by repeat (rewrite <- ?app_assoc; cbn [app]).
    + by apply ends_delimiter.
    + zlen. rewrite Zlen_bump. zsolve.
    + cbn [app]. zlen. by rewrite Zlen_bump, Z.add_0_r.
Qed.

Lemma object_goes w ms : members_goes ms -> value_goes (JObject w ms).
Proof.
  intros IH pre post sup D rest Hjs Hwf Hst _ Hs HN Hr. cbn [text wf ntoks strict_wf] in *. zbool.
  pose proof (members_ntoks_nonneg ms). destruct rest as [|x rest]; [zlen; lia|].
  unfold ltoks. cbn [toks parents linked zip_with text].
  replace (Zlen pre + 1 + Zlen w) with (Zlen (pre ++ "{"%char :: w)) by zsolve.
  apply (container_goes JSMN_OBJECT w (members_text ms) _ (nmembers ms) _ pre post); try done.
  - by right.
  - etrans; [apply Zlen_linked, members_toks_parents|apply Zlen_members_toks].
  - zsolve.
  - apply inside_linked; [apply members_toks_parents|apply toks_closed_all; zsolve|apply (proj2 (proj2 parents_below_all)); lia].
  - edestruct (IH (pre ++ "{"%char :: w) ("}"%char :: post) (bump sup D) (Zlen pre) 0 (up sup) [] rest) as (s' & G);
      [|done|done| |zsolve|apply inside_nil| |zsolve|done|].
    + cbn [open_char]. rewrite Hjs. by repeat (rewrite <- ?app_assoc; cbn [app]).
    + by apply ends_delimiter.
    + zlen. rewrite Zlen_bump. zsolve.
    + exists s'. eapply goes_to; [exact G|..]; try done. cbn [app]. zlen. by rewrite Zlen_bump, Z.add_0_r.
Qed.

(** The comma between two elements or members, or nothing after the last one. *)
Lemma goes_sep (last : bool) pre post sup D t E rest x :
  js = pre ++ (if last then [] else [","%char]) ++ post ->
  is_container t = true -> is_open t = true -> Forall shut E ->
  (D ++ t :: E) !! Z.to_nat sup = Some x -> 0 <= sup ->
  (sup = Zlen D \/ is_container x = false /\ parent x = up (Zlen D)) ->
  exists sup', (last = false -> sup' = Zlen D) /\ (sup = Zlen D -> sup' = Zlen D) /\
    goes (St (Zlen pre) (D ++ t :: E) sup rest)
      (St (Zlen pre + Zlen (if last then [] else [","%char])) (D ++ t :: E) sup' rest) 0.
Proof.
  intros Hjs Hct Hop HE Hx Hs Hsup. destruct last.
  - exists sup. split_and!; [done|done|]. zlen. rewrite Z.add_0_r. apply goes_refl.
  - exists (Zlen D). split_and!; [done|done|]. zlen. rewrite Z.add_0_r. by eapply goes_comma.
Qed.

Lemma lookup_Zlen {A : Type} (l : list A) x l' : (l ++ x :: l') !! Z.to_nat (Zlen l) = Some x.
Proof. by rewrite Zlen_nat, list_lookup_middle. Qed.

Lemma esep_if vs : esep vs = if match vs with ENil => true | _ => false end then [] else [","%char].
Proof. by destruct vs. Qed.

Lemma ended_sep vs post : ended post = true -> ended (esep vs ++ elements_text vs ++ post) = true.
Proof. destruct vs; [done|]. intros _. by apply ends_delimiter. Qed.

Lemma placed_white w v sup D post : white w = true -> placed v sup D post -> placed v sup D (w ++ post).
Proof. intros Hw Hp Hv. destruct (Hp Hv) as [He Ha]. split; [by apply ended_white|done]. Qed.

(** A value between white space. *)
Lemma padded_goes w1 v w2 pre post sup D rest :
  value_goes v -> js = pre ++ (w1 ++ text v ++ w2) ++ post -> white w1 = true -> wf v = true ->
  strictly (strict_wf v) -> white w2 = true -> placed v sup D post -> super_ok sup D ->
  N = Zlen (D ++ rest) -> ntoks v <= Zlen rest ->
  exists sup', (sup' = sup \/ sup' = last_index is_open D) /\
    goes (St (Zlen pre) D sup rest)
      (St (Zlen pre + Zlen (w1 ++ text v ++ w2)) (bump sup D ++ ltoks (Zlen pre + Zlen w1) (Zlen D) sup v) sup'
        (Zdrop (ntoks v) rest)) (ntoks v).
Proof.
  intros IH Hjs Hw1 Hwf Hst Hw2 He Hs HN Hr.
  assert (js = pre ++ w1 ++ text v ++ w2 ++ post) as Hjs0 by (rewrite Hjs; by rewrite <- !app_assoc).
  set (A1 := pre ++ w1). set (A2 := A1 ++ text v).
  assert (js = A1 ++ text v ++ w2 ++ post) as Hjs1 by (rewrite Hjs0; unfold A1; by rewrite <- !app_assoc).
  assert (js = A2 ++ w2 ++ post) as Hjs2 by (rewrite Hjs1; unfold A2; by rewrite <- !app_assoc).
  pose proof (goes_white w1 pre _ (Zlen D) sup (Some (D ++ rest)) Hjs0 Hw1) as G1.
  rewrite <- (Zlen_app pre) in *. fold A1 in G1 |- *.
  destruct (IH A1 (w2 ++ post) sup D rest) as (sup' & Hsup & G2); [done|done|done|by apply placed_white|done..|].
  exists sup'. split; [done|]. rewrite <- (Zlen_app A1) in G2. fold A2 in G2.
  pose proof (goes_white w2 A2 _ (Zlen (bump sup D ++ ltoks (Zlen A1) (Zlen D) sup v)) sup'
    (Some ((bump sup D ++ ltoks (Zlen A1) (Zlen D) sup v) ++ Zdrop (ntoks v) rest)) Hjs2 Hw2) as G3.
  pose proof (goes_trans _ _ _ _ _ _ (goes_trans _ _ _ _ _ _ G1 G2 eq_refl) G3 eq_refl) as G.
  eapply goes_to; [exact G|..]; try done; [unfold A2, A1; zsolve|unfold A1; by rewrite Zlen_app|lia].
Qed.

(** The superior token at [Zlen D] takes a primitive. *)
Lemma admits_middle D t E : rejects_primitive t = false -> admits (Zlen D) (D ++ t :: E).
Proof. intros Ht _. exists t. split_and!; [apply Zlen_nonneg|apply lookup_Zlen|done]. Qed.

Lemma elements_cons w1 v w2 vs : value_goes v -> elements_goes vs -> elements_goes (ECons w1 v w2 vs).
Proof.
  intros IHv IH pre post D a n u E rest Hjs Hwf [Hst Hst']%strictly_and He Ha HE HN Hr.
  cbn [elements_text elements_wf elements_ntoks elements_strict_wf nelements] in *. zbool.
  pose proof (ntoks_nonneg v). pose proof (elements_ntoks_nonneg vs). zlen_pos.
  set (A1 := pre ++ w1 ++ text v ++ w2). set (A2 := A1 ++ esep vs).
  assert (js = A1 ++ esep vs ++ elements_text vs ++ post) as Hjs1 by (rewrite Hjs; unfold A1; by rewrite <- !app_assoc).
  assert (js = A2 ++ elements_text vs ++ post) as Hjs2 by (rewrite Hjs1; unfold A2; by rewrite <- !app_assoc).
  set (t := fun n => LTok (Tok JSMN_ARRAY a (-1) n) u) in *.
  set (T := ltoks (Zlen pre + Zlen w1) (Zlen (D ++ t n :: E)) (Zlen D) v).
  assert (inside (Zlen D) (E ++ T)) as HT by (apply inside_app; [zsolve|zsolve|zsolve|done]).
  set (r1 := Zdrop (ntoks v) rest).
  assert (Zlen T = ntoks v) as ET by apply Zlen_ltoks.
  assert (Zlen r1 = Zlen rest - ntoks v) as Er by (apply Zlen_drop; lia).
  destruct (padded_goes w1 v w2 pre (esep vs ++ elements_text vs ++ post) (Zlen D) (D ++ t n :: E) rest)
    as (s1 & Hs1 & G1);
    [done|rewrite Hjs; by rewrite <- !app_assoc|done|done|done|done
    |intros _; split; [by apply ended_sep|by apply admits_middle]|unfold super_ok; zsolve|zsolve|lia|].
  rewrite (last_index_middle is_open D (t n) E (opened _ _ _ _ Ha) (proj1 HE)) in Hs1.
  assert (s1 = Zlen D) as -> by tauto.
  rewrite bump_middle, <- app_assoc, <- Zlen_app in G1. change (inc (t n)) with (t (n + 1)) in G1.
  fold A1 T r1 in G1. cbn [app] in G1. rewrite esep_if in Hjs1.
  destruct (goes_sep _ A1 _ (Zlen D) D (t (n + 1)) (E ++ T) r1 (t (n + 1)) Hjs1) as (s2 & _ & Hs2 & G2);
    [done|by apply opened|apply HT|apply lookup_Zlen|zsolve|by left|].
  rewrite (Hs2 eq_refl), <- esep_if, <- Zlen_app in G2. fold A2 in G2.
  pose proof (IH A2 post D a (n + 1) u (E ++ T) r1 Hjs2 ltac:(done) Hst' He Ha HT ltac:(zsolve) ltac:(lia)) as G3.
  pose proof (goes_trans _ _ _ _ _ _ (goes_trans _ _ _ _ _ _ G1 G2 eq_refl) G3 eq_refl) as G.
  eapply goes_to; [exact G|..]; try done; [|do 2 f_equal|apply Zdrop_drop; lia|lia].
  - unfold A2, A1. zsolve.
  - do 2 f_equal. lia.
  - rewrite <- app_assoc. f_equal. unfold elements_ltoks. cbn [elements_toks elements_parents].
    rewrite linked_app by apply toks_parents. unfold T, ltoks. zlen. f_equal; f_equal; f_equal; try lia.
    + unfold A2, A1. zsolve.
    + rewrite Zlen_linked, Zlen_toks by apply toks_parents. lia.
Qed.

Lemma msep_if ms : msep ms = if match ms with MNil => true | _ => false end then [] else [","%char].
Proof. by destruct ms. Qed.

Lemma ended_msep ms post : ended post = true -> ended (msep ms ++ members_text ms ++ post) = true.
Proof. destruct ms; [done|]. intros _. by apply ends_delimiter. Qed.

(** The key of a member and the colon. *)
Lemma key_goes w1 k w2 pre post D a n u E x rest (t := fun n => LTok (Tok JSMN_OBJECT a (-1) n) u) :
  js = pre ++ (w1 ++ quoted k ++ w2 ++ [":"%char]) ++ post -> white w1 = true -> string_body k = true ->
  white w2 = true -> N = Zlen (D ++ t n :: E ++ x :: rest) ->
  let key := LTok (Tok JSMN_STRING (Zlen pre + Zlen w1 + 1) (Zlen pre + Zlen w1 + 1 + Zlen k) 0) (up (Zlen D)) in
  goes (St (Zlen pre) (D ++ t n :: E) (Zlen D) (x :: rest))
    (St (Zlen pre + Zlen (w1 ++ quoted k ++ w2 ++ [":"%char]))
      (D ++ t (n + 1) :: E ++ [key]) (Zlen (D ++ t (n + 1) :: E)) rest) 1.
Proof.
  intros Hjs Hw1 Hk Hw2 HN key.
  assert (js = pre ++ w1 ++ quoted k ++ w2 ++ ":"%char :: post) as Hjs0
    by (rewrite Hjs; by repeat (rewrite <- ?app_assoc; cbn [app])).
  set (A1 := pre ++ w1). set (A2 := A1 ++ quoted k). set (A3 := A2 ++ w2).
  assert (js = A1 ++ quoted k ++ w2 ++ ":"%char :: post) as Hjs1 by (rewrite Hjs0; unfold A1; by rewrite <- !app_assoc).
  assert (js = A2 ++ w2 ++ ":"%char :: post) as Hjs2 by (rewrite Hjs1; unfold A2; by rewrite <- !app_assoc).
  assert (js = A3 ++ ":"%char :: post) as Hjs3 by (rewrite Hjs2; unfold A3; by rewrite <- !app_assoc).
  pose proof (goes_white w1 pre _ (Zlen (D ++ t n :: E)) (Zlen D) (Some ((D ++ t n :: E) ++ x :: rest)) Hjs0 Hw1) as G1.
  rewrite <- Zlen_app in G1. fold A1 in G1.
  pose proof (goes_string k A1 _ (Zlen D) (D ++ t n :: E) x rest Hjs1 Hk ltac:(unfold super_ok; zsolve) ltac:(zsolve)) as G2.
  rewrite bump_middle, <- app_assoc, <- (Zlen_app A1 (quoted k)) in G2. cbn [app] in G2.
  change (inc (t n)) with (t (n + 1)) in G2. fold A2 in G2.
  replace (Zlen A1 + 1) with (Zlen pre + Zlen w1 + 1) in G2 by (unfold A1; zsolve). fold key in G2.
  set (D' := D ++ t (n + 1) :: E ++ [key]) in *.
  pose proof (goes_white w2 A2 _ (Zlen D') (Zlen D) (Some (D' ++ rest)) Hjs2 Hw2) as G3.
  rewrite <- Zlen_app in G3. fold A3 in G3.
  pose proof (goes_colon A3 post (Zlen D) D' rest Hjs3 ltac:(unfold D'; zsolve)) as G4.
  pose proof (goes_trans _ _ _ _ _ _ (goes_trans _ _ _ _ _ _ (goes_trans _ _ _ _ _ _ G1 G2 eq_refl) G3 eq_refl) G4 eq_refl) as G.
  eapply goes_to; [exact G|..]; try done; [unfold A3, A2, A1|unfold D']; zsolve.
Qed.

(** A key with its value. *)
Lemma member_goes w1 k w2 w3 v w4 pre post D a n u E x rest (t := fun n => LTok (Tok JSMN_OBJECT a (-1) n) u)
    (A1 := pre ++ w1 ++ quoted k ++ w2 ++ [":"%char]) (i := Zlen D + 1 + Zlen E)
    (key := fun m => LTok (Tok JSMN_STRING (Zlen pre + Zlen w1 + 1) (Zlen pre + Zlen w1 + 1 + Zlen k) m) (up (Zlen D))) :
  value_goes v -> js = A1 ++ (w3 ++ text v ++ w4) ++ post -> white w1 = true -> string_body k = true ->
  white w2 = true -> white w3 = true -> wf v = true -> strictly (strict_wf v) -> white w4 = true ->
  ended post = true -> 0 <= a -> inside (Zlen D) E ->
  N = Zlen (D ++ t n :: E ++ x :: rest) -> ntoks v <= Zlen rest ->
  exists sup, (sup = i \/ sup = Zlen D) /\
    goes (St (Zlen pre) (D ++ t n :: E) (Zlen D) (x :: rest))
      (St (Zlen (A1 ++ w3 ++ text v ++ w4))
        (D ++ t (n + 1) :: E ++ key 1 :: ltoks (Zlen A1 + Zlen w3) (i + 1) i v) sup
        (Zdrop (ntoks v) rest)) (1 + ntoks v).
Proof.
  intros IHv Hjs Hw1 Hk Hw2 Hw3 Hv Hst Hw4 He Ha HE HN Hr. pose proof (ntoks_nonneg v).
  pose proof (key_goes w1 k w2 pre ((w3 ++ text v ++ w4) ++ post) D a n u E x rest
    ltac:(rewrite Hjs; unfold A1; by rewrite <- !app_assoc) Hw1 Hk Hw2 HN) as G1.
  cbv zeta in G1. rewrite <- (Zlen_app pre (_ ++ _)) in G1. fold A1 in G1. fold (t n) (t (n + 1)) (key 0) in G1.
  assert (D ++ t (n + 1) :: E ++ [key 0] = (D ++ t (n + 1) :: E) ++ [key 0]) as EK by (by rewrite <- app_assoc).
  assert (Zlen (D ++ t (n + 1) :: E) = i) as Ei by (unfold i; zsolve).
  destruct (padded_goes w3 v w4 A1 post (Zlen (D ++ t (n + 1) :: E)) (D ++ t (n + 1) :: E ++ [key 0]) rest)
    as (s1 & Hs1 & G2);
    [done|done|done|done|done|done
    |intros _; split; [done|]; rewrite EK; by apply admits_middle|unfold super_ok; zsolve|zsolve|zsolve|].
  rewrite (last_index_middle is_open D (t (n + 1)) (E ++ [key 0]) (opened _ _ _ _ Ha)) in Hs1
    by (apply Forall_app; split; [apply HE|apply Forall_singleton, shut_end; zsolve]).
  rewrite EK in G2 at 2. rewrite bump_middle, <- Zlen_app in G2. change (inc (key 0)) with (key 1) in G2.
  replace (Zlen (D ++ t (n + 1) :: E ++ [key 0])) with (i + 1) in G2 by (unfold i; zsolve).
  rewrite Ei in *. repeat (rewrite <- app_assoc in G2; cbn [app] in G2).
  exists s1. split; [done|]. exact (goes_trans _ _ _ _ _ _ G1 G2 eq_refl).
Qed.

(** The tokens of a member follow those before it. *)
Lemma inside_member d E key off i v :
  0 <= off -> 0 <= d -> i = d + 1 + Zlen E -> shut key -> parent key = up d -> inside d E ->
  inside d (E ++ key :: ltoks off (i + 1) i v).
Proof.
  intros Ho Hd -> Hk Hu [Hs Hr]. split; [apply Forall_app; split; [done|]; constructor; [done|by apply ltoks_shut]|].
  intros Hb. apply rooted_app; [by apply Hr|]. unfold up in Hu. rewrite Hb in Hu.
  intros [|k] t Ht; cbn in Ht; zlen_pos; [injection Ht as <-; lia|].
  eapply (linked_below _ _ (d + 1 + Zlen E + 1) (d + 1 + Zlen E)) in Ht; [lia|done|].
  apply (proj1 parents_below_all). lia.
Qed.

Lemma members_ltoks_cons off i sup w1 k w2 w3 v w4 ms (val := off + Zlen w1 + Zlen (quoted k) + Zlen w2 + 1 + Zlen w3) :
  members_ltoks off i sup (MCons w1 k w2 w3 v w4 ms) =
    LTok (Tok JSMN_STRING (off + Zlen w1 + 1) (off + Zlen w1 + 1 + Zlen k) 1) (up sup) ::
    ltoks val (i + 1) i v ++
    members_ltoks (val + Zlen (text v) + Zlen w4 + Zlen (msep ms)) (i + 1 + ntoks v) sup ms.
Proof.
  unfold members_ltoks, ltoks. cbn [members_toks members_parents]. cbv zeta. fold val.
  rewrite <- linked_app by apply toks_parents. done.
Qed.

Lemma members_cons w1 k w2 w3 v w4 ms :
  value_goes v -> members_goes ms -> members_goes (MCons w1 k w2 w3 v w4 ms).
Proof.
  intros IHv IH pre post D a n u E rest sup Hjs Hwf [Hst Hst']%strictly_and He Ha HE HN Hr Hsup.
  rewrite (Hsup ltac:(done)), members_ltoks_cons. clear sup Hsup.
  cbn [members_text members_wf members_ntoks nmembers] in *. zbool. cbv zeta.
  pose proof (ntoks_nonneg v). pose proof (members_ntoks_nonneg ms). destruct rest as [|x rest]; [zlen; lia|].
  set (A1 := pre ++ w1 ++ quoted k ++ w2 ++ [":"%char]). set (A2 := A1 ++ w3 ++ text v ++ w4).
  set (A3 := A2 ++ msep ms).
  assert (js = A1 ++ (w3 ++ text v ++ w4) ++ msep ms ++ members_text ms ++ post) as Hjs1
    by (rewrite Hjs; unfold A1; by repeat (rewrite <- ?app_assoc; cbn [app])).
  assert (js = A2 ++ msep ms ++ members_text ms ++ post) as Hjs2 by (rewrite Hjs1; unfold A2; by rewrite <- !app_assoc).
  assert (js = A3 ++ members_text ms ++ post) as Hjs3 by (rewrite Hjs2; unfold A3; by rewrite <- !app_assoc).
  destruct (member_goes w1 k w2 w3 v w4 pre (msep ms ++ members_text ms ++ post) D a n u E x rest IHv Hjs1)
    as (s1 & Hs1 & G1); [done|done|done|done|done|done|done|by apply ended_msep|done|done|done|zsolve|].
  fold A1 in G1. fold A2 in G1. set (t := fun n => LTok (Tok JSMN_OBJECT a (-1) n) u) in *.
  set (i := Zlen D + 1 + Zlen E) in *. set (T := ltoks (Zlen A1 + Zlen w3) (i + 1) i v) in *.
  set (key := LTok (Tok JSMN_STRING (Zlen pre + Zlen w1 + 1) (Zlen pre + Zlen w1 + 1 + Zlen k) 1) (up (Zlen D))) in *.
  set (r1 := Zdrop (ntoks v) rest) in *. assert (Zlen T = ntoks v) as ET by apply Zlen_ltoks.
  assert (Zlen r1 = Zlen rest - ntoks v) as Er by (apply Zlen_drop; zsolve).
  assert (inside (Zlen D) (E ++ key :: T)) as HE'
    by (apply inside_member; [zsolve|zsolve|done|apply shut_end; zsolve|done|done]).
  rewrite msep_if in Hjs2.
  destruct (goes_sep _ A2 _ s1 D (t (n + 1)) (E ++ key :: T) r1 (if decide (s1 = Zlen D) then t (n + 1) else key) Hjs2)
    as (s2 & Hs2 & _ & G3); [done|by apply opened|apply HE'| |destruct Hs1; unfold i in *; zsolve| |].
  { case_decide as Hd; [rewrite Hd; apply lookup_Zlen|]. destruct Hs1 as [-> |]; [|done].
    replace i with (Zlen (D ++ t (n + 1) :: E)) by (unfold i; zsolve).
    rewrite app_comm_cons, app_assoc. apply lookup_Zlen. }
  { case_decide; [by left|by right]. }
  rewrite <- msep_if, <- Zlen_app in G3. fold A3 in G3.
  destruct (IH A3 post D a (n + 1) u (E ++ key :: T) r1 s2 Hjs3 ltac:(done) Hst' He Ha HE' ltac:(zsolve) ltac:(zsolve))
    as (s3 & G4); [intros Hne; apply Hs2; by destruct ms|].
  exists s3. eapply goes_to; [exact (goes_trans _ _ _ _ _ _ (goes_trans _ _ _ _ _ _ G1 G3 eq_refl) G4 eq_refl)|..];
    try done; [unfold A3, A2, A1; zsolve| |unfold r1; rewrite Zdrop_drop, (Zdrop_cons _ x) by lia; f_equal; lia|lia].
  rewrite <- app_assoc. cbn [app]. unfold t. do 2 f_equal; [do 2 f_equal; lia|]. fold key. do 2 f_equal.
  unfold T, i. f_equal; f_equal; try (unfold A3, A2, A1; zsolve). zlen. rewrite Zlen_ltoks. lia.
Qed.

Lemma all_goes : (forall v, value_goes v) /\ (forall vs, elements_goes vs) /\ (forall ms, members_goes ms).
Proof.
  apply json_elements_members_ind.
  - intros s pre post sup D rest Hjs Hwf Hst Hp Hs HN Hr. destruct (Hp eq_refl).
    eapply (leaf_goes (JPrimitive s)); [done| |exact Hjs|done|done].
    intros x rest' ->. by apply (goes_primitive s pre post).
  - intros s pre post sup D rest Hjs Hwf Hst Hp Hs HN Hr.
    eapply (leaf_goes (JString s)); [done| |exact Hjs|done|done].
    intros x rest' ->. by apply (goes_string s pre post).
  - apply array_goes.
  - apply object_goes.
  - intros pre post D a n u E rest Hjs Hwf Hst He Ha HE HN Hr. unfold elements_ltoks, linked.
    cbn [elements_text elements_toks elements_ntoks nelements zip_with]. zlen. rewrite app_nil_r, !Z.add_0_r. apply goes_refl.
  - intros w1 v IHv w2 vs IHvs. by apply elements_cons.
  - intros pre post D a n u E rest sup Hjs Hwf Hst He Ha HE HN Hr Hs. exists sup. unfold members_ltoks, linked.
    cbn [members_text members_toks members_ntoks nmembers zip_with]. zlen. rewrite app_nil_r, !Z.add_0_r. apply goes_refl.
  - intros w1 k w2 w3 v IHv w4 ms IHms. by apply members_cons.
Qed.
End Loop.
End Build.

(** ** Whole texts *)

Definition document (w1 : chars) (v : json) (w2 : chars) : chars := w1 ++ text v ++ w2.

(** What a build takes: in strict mode not a primitive alone, and no primitive
    that does not start as one. *)
Definition accepted (b : build) (v : json) : bool :=
  wf v && (negb (JSMN_STRICT b) || (strict_wf v && negb (is_primitive v))).

Lemma parse_document_build b w1 v w2 N mem :
  white w1 = true -> accepted b v = true -> white w2 = true -> Zlen (document w1 v w2) < 2 ^ 31 ->
  Zlen mem = N -> N < 2 ^ 31 -> ntoks v <= N ->
  jsmn_parse b (document w1 v w2) N (jsmn_init (Some mem)) =
    Ret (ntoks v) (Parser (Zlen (document w1 v w2)) (ntoks v) (-1)
      (Some (ltoks b (Zlen w1) 0 (-1) v ++ Zdrop (ntoks v) mem))).
Proof.
  intros Hw1 [Hwf Hacc]%andb_prop Hw2 Hl Hm HN Hr. set (js := document w1 v w2) in *. pose proof (ntoks_nonneg v).
  assert (Z.of_nat (length js) < 2 ^ 31) as Hlen by exact Hl.
  assert (0 <= N < 2 ^ 31) as HN' by (pose proof (Zlen_nonneg mem); lia).
  destruct (padded_goes b js Hlen N w1 v w2 [] [] (-1) [] mem) as (sup & Hsup & G);
    [by apply all_goes|by rewrite app_nil_r|done|done| |done| |done|done|lia|].
  { intros Hb. rewrite Hb in Hacc. by apply andb_prop in Hacc as [? _]. }
  { intros Hp. unfold admits, ended. destruct (JSMN_STRICT b); [|done]. rewrite Hp, andb_false_r in Hacc. done. }
  assert (sup = -1) as -> by (by destruct Hsup). clear Hsup.
  unfold jsmn_parse. destruct (G (S (length js)) 0) as (fuel & Hf & Hloop).
  { cbn [pos St]. unfold Zlen. cbn. lia. }
  change (St (Zlen []) [] (-1) mem) with (jsmn_init (Some mem)) in Hloop.
  change (Zlen (@nil ascii)) with 0 in *. change (Zlen (@nil linked_t)) with 0 in *.
  rewrite !Z.add_0_l in *. fold (document w1 v w2) js in Hloop, Hf. cbn [bump app] in *.
  set (T := ltoks b (Zlen w1) 0 (-1) v) in *.
  set (p := St (Zlen js) T (-1) (Zdrop (ntoks v) mem)).
  assert (parse_loop b js (S (length js)) N 0 (jsmn_init (Some mem)) = Ret (ntoks v) p) as E.
  { rewrite Hloop. destruct fuel as [|fuel]; [cbn [pos St] in Hf; lia|]. cbn [parse_loop].
    erewrite bind_Ret by done. cbn [pos St]. by rewrite peek_end by (unfold Zlen; lia). }
  erewrite bind_Ret by exact E. rewrite (proj2 (Z.ltb_ge _ _)) by done. erewrite bind_Ret by done.
  erewrite bind_Ret by (apply find_in_use; cbn [toknext St p]; by rewrite Zlen_nat).
  rewrite <- (app_nil_l T), last_index_app by (apply ltoks_shut, Zlen_nonneg).
  change (last_index is_open [] =? -1) with true. cbv iota. unfold p, St, mret, M_ret. cbn [app].
  unfold T. by rewrite Zlen_ltoks.
Qed.

(** The array after the document has been read into it. *)
Definition document_toks (w1 : chars) (v : json) (mem : list jsmntok_t) : list jsmntok_t :=
  toks (Zlen w1) v ++ Zdrop (ntoks v) mem.

(** A token array with room for the field that is not there. *)
Definition widen (mem : list jsmntok_t) : list linked_t := (fun t => LTok t (-1)) <$> mem.

Lemma map_widen mem : map tok (widen mem) = mem.
Proof. unfold widen. induction mem as [|t mem IH]; cbn; [done|]. by rewrite IH. Qed.

Lemma parse_document w1 v w2 N mem :
  white w1 = true -> wf v = true -> white w2 = true -> Zlen (document w1 v w2) < 2 ^ 31 ->
  Zlen mem = N -> N < 2 ^ 31 -> ntoks v <= N ->
  Jsmn.jsmn_parse (document w1 v w2) N (jsmn_init (Some mem)) =
    Ret (ntoks v) (Parser (Zlen (document w1 v w2)) (ntoks v) (-1) (Some (document_toks w1 v mem))).
Proof.
  intros Hw1 Hwf Hw2 Hl Hm HN Hr.
  assert (accepted default v = true) as Hacc by (unfold accepted; by rewrite Hwf).
  assert (Zlen (widen mem) = N) as Hm' by (unfold Zlen, widen; by rewrite length_fmap).
  pose proof (parse_document_build default w1 v w2 N (widen mem) Hw1 Hacc Hw2 Hl Hm' HN Hr) as E.
  pose proof (sim_parse (document w1 v w2) N (jsmn_init (Some (widen mem)))) as S. rewrite E in S.
  unfold forget in S. cbn [map_res pos toknext toksuper tokens option_map jsmn_init] in S.
  rewrite map_widen in S. unfold jsmn_init. rewrite <- S. unfold document_toks. do 3 f_equal.
  rewrite map_app. f_equal.
  - apply (fmap_linked default), toks_parents.
  - unfold Zdrop. by rewrite <- skipn_map, map_widen.
Qed.

(** C19: [jsmn_parse] reads JSON back exactly: for the text of any value, nested
    to any depth, with any white space between its parts, any escapes in its
    strings and any contents of the token array, it returns the number of
    tokens of the value and leaves exactly these tokens at the start of the
    array, in order, with their types, extents and numbers of children; the
    rest of the array is as it was. *)
Theorem jsmn_parse_tree (w1 w2 : chars) (v : json) (N : Z) (mem : list jsmntok_t) :
  white w1 = true -> wf v = true -> white w2 = true -> Zlen (document w1 v w2) < 2 ^ 31 ->
  Zlen mem = N -> N < 2 ^ 31 -> ntoks v <= N ->
  Jsmn.jsmn_parse (document w1 v w2) N (jsmn_init (Some mem)) =
    Ret (ntoks v) (Parser (Zlen (document w1 v w2)) (ntoks v) (-1) (Some (document_toks w1 v mem))).
Proof. apply parse_document. Qed.

(** [ {"a" :[1 ,{}],"\u00e9":"x"}] *)
Definition sample : json :=
  JObject [] (MCons [] (lit "a") [" "%char] [] (JArray [] (ECons [] (JPrimitive (lit "1")) [" "%char]
      (ECons [] (JObject [] MNil) [] ENil))) []
    (MCons [] (backslash :: lit "u00e9") [] [] (JString (lit "x")) [] MNil)).

Lemma jsmn_parse_tree_witness :
  Jsmn.jsmn_parse (document [" "%char] sample ["010"%char]) 8
      (jsmn_init (Some (replicate 8 (Tok JSMN_ARRAY 5 6 7)))) =
    Ret 7 (Parser 29 7 (-1) (Some [Tok JSMN_OBJECT 1 28 2; Tok JSMN_STRING 3 4 1; Tok JSMN_ARRAY 7 14 2;
      Tok JSMN_PRIMITIVE 8 9 0; Tok JSMN_OBJECT 11 13 0; Tok JSMN_STRING 16 22 1; Tok JSMN_STRING 25 26 0;
      Tok JSMN_ARRAY 5 6 7])).
Proof.
  apply (jsmn_parse_tree [" "%char] ["010"%char] sample 8 (replicate 8 (Tok JSMN_ARRAY 5 6 7)));
    vm_compute; done.
Defined.

(** C20: The options of the build do not change what JSON is read as: for every
    value that a build with any combination of [JSMN_STRICT] and
    [JSMN_PARENT_LINKS] accepts, [jsmn_parse] of that build returns for its text
    the number of its tokens and leaves the same tokens at the start of the array;
    with [JSMN_PARENT_LINKS] every token also
    carries the number of the token it is a child of (-1 for the first one): the
    array for an element, the object for a key, the key for a value.  Without
    [JSMN_STRICT] every well-formed value is accepted; with it the value must be an array, an
    object or a string, not a primitive on its own, and its primitives must start
    with a minus, a digit, t, f or n. *)
Theorem jsmn_build_tree (b : build) (w1 w2 : chars) (v : json) (N : Z) (mem : list linked_t) :
  white w1 = true -> accepted b v = true -> white w2 = true -> Zlen (document w1 v w2) < 2 ^ 31 ->
  Zlen mem = N -> N < 2 ^ 31 -> ntoks v <= N ->
  exists ts, jsmn_parse b (document w1 v w2) N (jsmn_init (Some mem)) =
      Ret (ntoks v) (Parser (Zlen (document w1 v w2)) (ntoks v) (-1) (Some (ts ++ Zdrop (ntoks v) mem))) /\
    tok <$> ts = toks (Zlen w1) v /\
    (JSMN_PARENT_LINKS b = true -> parent <$> ts = parents 0 (-1) v).
Proof.
  intros Hw1 Hacc Hw2 Hl Hm HN Hr. exists (ltoks b (Zlen w1) 0 (-1) v).
  split_and!; [by apply parse_document_build|apply fmap_linked, toks_parents|].
  intros Hb. by apply parent_linked, toks_parents.
Qed.

Lemma jsmn_build_tree_witness :
  exists ts, jsmn_parse (Build true true) (document [" "%char] sample ["010"%char]) 8
      (jsmn_init (Some (replicate 8 (LTok (Tok JSMN_ARRAY 5 6 7) 3)))) =
    Ret 7 (Parser 29 7 (-1) (Some (ts ++ [LTok (Tok JSMN_ARRAY 5 6 7) 3]))) /\
    tok <$> ts = [Tok JSMN_OBJECT 1 28 2; Tok JSMN_STRING 3 4 1; Tok JSMN_ARRAY 7 14 2;
      Tok JSMN_PRIMITIVE 8 9 0; Tok JSMN_OBJECT 11 13 0; Tok JSMN_STRING 16 22 1; Tok JSMN_STRING 25 26 0] /\
    parent <$> ts = [-1; 0; 1; 2; 2; 0; 5].
Proof.
  destruct (jsmn_build_tree (Build true true) [" "%char] ["010"%char] sample 8
    (replicate 8 (LTok (Tok JSMN_ARRAY 5 6 7) 3))) as (ts & E & Ht & Hp);
    [done|vm_compute; done|done|vm_compute; done|done|done|vm_compute; done|].
  exists ts. split_and!; [exact E|exact Ht|exact (Hp eq_refl)].
Defined.
End JsmnRoundtrip.
