(* ===== verification/JsmnResume.v ===== *)
(** * Parsing again with more room, and counting without any

    A caller whose array is too small gets [JSMN_ERROR_NOMEM]; it may call
    [jsmn_parse] again with a larger array that starts with the tokens so far.
    A caller without an array gets the number of tokens. *)

From stdpp Require Import base tactics list strings.
From Stdlib Require Import ZArith Lia Ascii.
From S2P Require Import Prelude CString Jsmn JsmnSpec JsmnTree JsmnRoundtrip.

Module JsmnResume.
Import CString Jsmn JsmnSpec JsmnTree JsmnRoundtrip.

(** ** The parser with a larger array *)

Section More.
Variable extra : list jsmntok_t.

Definition more (p : jsmn_parser) : jsmn_parser :=
  Parser (pos p) (toknext p) (toksuper p) ((fun ts => ts ++ extra) <$> tokens p).

(** What [m] does from [p], [m'] does with the larger array. *)
Definition same_at {A : Type} (m m' : M jsmn_parser A) (p : jsmn_parser) : Prop :=
  forall a p', m p = Ret a p' -> m' (more p) = Ret a (more p').

Lemma same_bind {A B : Type} (m m' : M jsmn_parser A) (k k' : A -> M jsmn_parser B) p :
  same_at m m' p -> (forall a p1, m p = Ret a p1 -> same_at (k a) (k' a) p1) ->
  same_at (m ≫= k) (m' ≫= k') p.
Proof.
  intros Hm Hk b p' (a & p1 & Ha & Hb)%bind_Ret_inv. rewrite (bind_Ret _ _ _ _ _ (Hm _ _ Ha)).
  by apply (Hk a p1 Ha).
Qed.

Lemma same_ret {A : Type} (a : A) p : same_at (mret a) (mret a) p.
Proof. by intros b p' [= <- <-]. Qed.

Lemma same_get {B : Type} (k k' : jsmn_parser -> M jsmn_parser B) p :
  same_at (k p) (k' (more p)) p -> same_at (get ≫= k) (get ≫= k') p.
Proof. done. Qed.

Lemma same_modify f p : more (f p) = f (more p) -> same_at (modify f) (modify f) p.
Proof. intros Hf a p' [= <- <-]. unfold modify. by rewrite Hf. Qed.

Lemma same_if {A : Type} (b : bool) (m1 m2 m1' m2' : M jsmn_parser A) p :
  same_at m1 m1' p -> same_at m2 m2' p -> same_at (if b then m1 else m2) (if b then m1' else m2') p.
Proof. by destruct b. Qed.

Lemma same_get_token i p : same_at (get_token i) (get_token i) p.
Proof.
  intros t p'. unfold get_token. cbn [tokens more]. destruct (tokens p) as [ts|] eqn:Et; [|done]. cbn.
  case_if; [|done]. destruct (ts !! Z.to_nat i) eqn:E; [|done]. intros [= <- <-].
  by rewrite (lookup_app_l_Some _ _ _ _ E).
Qed.

Lemma same_put_token i t p : same_at (put_token i t) (put_token i t) p.
Proof.
  intros a p'. unfold put_token. cbn [tokens more]. destruct (tokens p) as [ts|] eqn:Et; [|done]. cbn.
  case_if; [|done]. zbool. intros [= <- <-].
  rewrite length_app, (proj2 (Z.leb_le 0 i)), (proj2 (Z.ltb_lt i _)) by lia. cbn.
  unfold set_tokens, more. cbn. by rewrite insert_app_l by lia.
Qed.

Lemma same_count_child p : same_at count_child count_child p.
Proof.
  apply same_get. cbn [toksuper more tokens].
  assert (bool_decide (is_Some ((fun ts => ts ++ extra) <$> tokens p)) = bool_decide (is_Some (tokens p))) as ->
    by (apply bool_decide_ext; by rewrite fmap_is_Some).
  apply same_if; [|apply same_ret]. apply same_bind; [apply same_get_token|]. intros t p1 _. apply same_put_token.
Qed.

Lemma same_find_token f n p : same_at (find_token f n) (find_token f n) p.
Proof.
  revert p. induction n as [|n IH]; intros p; cbn [find_token]; [apply same_ret|].
  apply same_bind; [apply same_get_token|]. intros t p1 _. apply same_if; [apply same_ret|apply IH].
Qed.

(** A step that may fail for want of a token: it leaves the parser as it was, or
    does the same with the larger array. *)
Definition grows_at (m m' : M jsmn_parser Z) (p : jsmn_parser) : Prop :=
  forall r p', m p = Ret r p' ->
    (r = JSMN_ERROR_NOMEM /\ p' = p) \/ (r <> JSMN_ERROR_NOMEM /\ m' (more p) = Ret r (more p')).

Lemma same_grows (m m' : M jsmn_parser Z) p :
  same_at m m' p -> (forall r p', m p = Ret r p' -> r <> JSMN_ERROR_NOMEM) -> grows_at m m' p.
Proof. intros Hs Hr r p' E. right. split; [by eapply Hr|by apply Hs]. Qed.

Lemma grows_bind (m m' : M jsmn_parser Z) (k k' : M jsmn_parser Z) p :
  grows_at m m' p ->
  (forall r p1, m p = Ret r p1 -> 0 <= r -> same_at k k' p1) ->
  (forall p1 r p2, k p1 = Ret r p2 -> r <> JSMN_ERROR_NOMEM) ->
  grows_at (r ← m ; if r <? 0 then mret r else k) (r ← m' ; if r <? 0 then mret r else k') p.
Proof.
  intros Hm Hk Hnm r p' (a & p1 & Ha & Hr)%bind_Ret_inv. destruct (Hm a p1 Ha) as [[-> ->]|[Hne E]].
  - left. by injection Hr as <- <-.
  - right. rewrite (bind_Ret _ _ _ _ _ E). case_if; zbool.
    + by injection Hr as <- <-.
    + split; [by eapply Hnm|]. by eapply Hk.
Qed.

Variables N N' : Z.
Hypothesis N_le : N <= N'.

Lemma alloc_more p i p' :
  jsmn_alloc_token N p = Ret i p' ->
  (i = None /\ p' = p) \/ (is_Some i /\ jsmn_alloc_token N' (more p) = Ret i (more p')).
Proof.
  unfold jsmn_alloc_token. intros (? & ? & [= <- <-] & H)%bind_Ret_inv.
  destruct (N <=? toknext p) eqn:E; zbool; [left; by injection H as <- <-|].
  right. split.
  { apply bind_Ret_inv in H as (? & ? & _ & H). apply bind_Ret_inv in H as (? & ? & _ & H).
    apply bind_Ret_inv in H as (? & ? & _ & H). by injection H as <- _. }
  erewrite bind_Ret by done. cbn [toknext more]. rewrite (proj2 (Z.leb_gt _ _)) by lia.
  revert i p' H. apply same_bind; [apply same_get_token|]. intros t p1 _.
  apply same_bind; [apply same_put_token|]. intros _ p2 _.
  apply same_bind; [by apply same_modify|]. intros _ p3 _. apply same_ret.
Qed.

Lemma add_token_more ty back s e p r p' :
  add_token N ty back s e p = Ret r p' ->
  (r = JSMN_ERROR_NOMEM /\ p' = set_pos back p) \/
  (r = 0 /\ add_token N' ty back s e (more p) = Ret 0 (more p')).
Proof.
  unfold add_token. intros (i & p1 & Ha & H)%bind_Ret_inv.
  destruct (alloc_more p i p1 Ha) as [[-> ->]|[[j ->] E]]; [left; by injection H as <- <-|].
  right. pose proof H as H'. apply bind_Ret_inv in H' as (? & ? & _ & H'). injection H' as <- ->. split; [done|].
  rewrite (bind_Ret _ _ _ _ _ E). revert H. apply same_bind; [apply same_put_token|]. intros. apply same_ret.
Qed.

Lemma set_pos_same (p : jsmn_parser) : set_pos (pos p) p = p.
Proof. by destruct p. Qed.

Lemma set_pos_twice a b (p : jsmn_parser) : set_pos a (set_pos b p) = set_pos a p.
Proof. done. Qed.

Variable js : chars.

Lemma string_more p : grows_at (jsmn_parse_string js N) (jsmn_parse_string js N') p.
Proof.
  intros r p'. unfold jsmn_parse_string. intros (? & ? & [= <- <-] & H)%bind_Ret_inv.
  cbv zeta in *. erewrite bind_Ret by done. cbn [pos tokens more].
  destruct (scan_string js (scan_fuel js) (u32 (pos p + 1))) as [e| |];
    [|right; by injection H as <- <-..].
  apply bind_Ret_inv in H as (? & ? & [= <- <-] & H). erewrite bind_Ret by done.
  destruct (tokens p) as [ts|] eqn:Et; cbn.
  - destruct (add_token_more _ _ _ _ _ _ _ H) as [[-> ->]|[-> E]]; [left|right].
    + by rewrite set_pos_twice, set_pos_same.
    + split; [done|]. rewrite <- E. unfold set_pos, more. cbn. by rewrite Et.
  - right. injection H as <- <-. split; [done|]. unfold set_pos, more. cbn. by rewrite Et.
Qed.

Lemma primitive_more p : grows_at (jsmn_parse_primitive js N) (jsmn_parse_primitive js N') p.
Proof.
  intros r p'. unfold jsmn_parse_primitive. intros (? & ? & [= <- <-] & H)%bind_Ret_inv.
  cbv zeta in *. erewrite bind_Ret by done. cbn [pos tokens more].
  destruct (scan_primitive js (scan_fuel js) (pos p)) as [e|]; [|right; by injection H as <- <-].
  apply bind_Ret_inv in H as (? & ? & [= <- <-] & H). erewrite bind_Ret by done.
  destruct (tokens p) as [ts|] eqn:Et; cbn.
  - apply bind_Ret_inv in H as (a & p1 & Ha & H).
    destruct (add_token_more _ _ _ _ _ _ _ Ha) as [[-> ->]|[-> E]]; [left|right].
    + injection H as <- <-. by rewrite set_pos_twice, set_pos_same.
    + injection H as <- <-. split; [done|].
      assert (set_pos e (more p) = more (set_pos e p)) as -> by done.
      by erewrite bind_Ret by exact E.
  - right. injection H as <- <-. split; [done|]. unfold set_pos, more. cbn. by rewrite Et.
Qed.

Lemma open_more ty p : grows_at (open_container N ty) (open_container N' ty) p.
Proof.
  intros r p'. unfold open_container. intros (? & ? & [= <- <-] & H)%bind_Ret_inv.
  erewrite bind_Ret by done. cbn [pos tokens more].
  destruct (tokens p) as [ts|] eqn:Et; cbn [fmap option_fmap option_map];
    [|right; injection H as <- <-; split; [done|]; unfold more; by rewrite Et].
  apply bind_Ret_inv in H as (i & p1 & Ha & H). destruct (alloc_more p i p1 Ha) as [[-> ->]|[[j ->] E]];
    [left; by injection H as <- <-|]. right.
  assert (r = 0) as -> by (repeat (apply bind_Ret_inv in H as (? & ? & _ & H)); by injection H as <- _).
  split; [done|].
  rewrite (bind_Ret _ _ _ _ _ E). revert H. clear.
  apply same_bind; [apply same_count_child|]. intros _ p2 _.
  apply same_bind; [apply same_get_token|]. intros t p3 _.
  apply same_bind; [apply same_put_token|]. intros _ p4 _.
  apply same_bind; [by apply same_modify|]. intros. apply same_ret.
Qed.

Lemma close_more ty p : grows_at (close_container ty) (close_container ty) p.
Proof.
  apply same_grows.
  - apply same_get. cbn [tokens more]. destruct (tokens p) as [ts|]; cbn [fmap option_fmap option_map]; [|apply same_ret].
    apply same_bind; [apply same_find_token|]. intros i p1 _. apply same_if; [apply same_ret|].
    apply same_bind; [apply same_get_token|]. intros t p2 _. destruct (decide (type t = ty)); [|apply same_ret].
    apply same_bind; [by apply same_modify|]. intros _ p3 _.
    apply same_bind; [apply same_put_token|]. intros _ p4 _.
    apply same_bind; [apply same_find_token|]. intros j p5 _.
    apply same_bind; [apply same_if; [apply same_ret|by apply same_modify]|]. intros. apply same_ret.
  - unfold close_container. intros r p' (? & ? & [= <- <-] & H)%bind_Ret_inv.
    destruct (tokens p); [|by injection H as <- _]. apply bind_Ret_inv in H as (i & ? & _ & H).
    case_if; [by injection H as <- _|]. apply bind_Ret_inv in H as (t & ? & _ & H).
    destruct (decide (type t = ty)); [|by injection H as <- _].
    repeat (apply bind_Ret_inv in H as (? & ? & _ & H)). by injection H as <- _.
Qed.

Lemma comma_more p : same_at comma comma p.
Proof.
  apply same_get. cbn [tokens more]. destruct (tokens p) as [ts|]; cbn [fmap option_fmap option_map]; [|apply same_ret].
  apply same_bind; [apply same_get_token|]. intros t p1 _. apply same_if; [apply same_ret|].
  apply same_bind; [apply same_find_token|]. intros i p2 _.
  apply same_if; [apply same_ret|by apply same_modify].
Qed.

Lemma child_more (m m' : M jsmn_parser Z) p :
  grows_at m m' p ->
  grows_at (r ← m ; if r <? 0 then mret r else count_child ;; mret 1)
    (r ← m' ; if r <? 0 then mret r else count_child ;; mret 1) p.
Proof.
  intros Hm. apply (grows_bind m m' (count_child ;; mret 1) (count_child ;; mret 1)); [done| |].
  - intros r p1 _ _. apply same_bind; [apply same_count_child|]. intros. apply same_ret.
  - intros p1 r p2 (? & ? & _ & Hr)%bind_Ret_inv. by injection Hr as <- _.
Qed.

Lemma parse_char_more c p : grows_at (parse_char js N c) (parse_char js N' c) p.
Proof.
  unfold parse_char.
  destruct (Ascii.eqb c "{" || Ascii.eqb c "[").
  { apply (grows_bind _ _ (mret 1) (mret 1)); [apply open_more|intros; apply same_ret|].
    intros p1 r p2 Hr. by injection Hr as <- _. }
  destruct (Ascii.eqb c "}" || Ascii.eqb c "]"); [apply close_more|].
  destruct (Ascii.eqb c quote); [apply child_more, string_more|].
  destruct (is_white c); [apply same_grows; [apply same_ret|intros r p' Hr; by injection Hr as <- _]|].
  destruct (Ascii.eqb c ":").
  { apply same_grows; [|intros r p' (? & ? & _ & Hr)%bind_Ret_inv; by injection Hr as <- _].
    apply same_bind; [by apply same_modify|]. intros. apply same_ret. }
  destruct (Ascii.eqb c ","); [|apply child_more, primitive_more].
  apply same_grows; [|intros r p' (? & ? & _ & Hr)%bind_Ret_inv; by injection Hr as <- _].
  apply same_bind; [apply comma_more|]. intros. apply same_ret.
Qed.

(** ** The loop *)

Hypothesis js_short : Z.of_nat (length js) < 2 ^ 31.
Hypothesis N_range : 0 <= N < 2 ^ 31.
Hypothesis N'_range : N' = N + Zlen extra /\ N' < 2 ^ 31.

Lemma inv_more b p ts : inv js N b p ts -> inv js N' b (more p) (ts ++ extra).
Proof.
  destruct N'_range as [-> _]. intros [Ht [Hl Hok] Hn Hs Hp Hcl]. constructor; cbn [tokens toknext toksuper pos more].
  - by rewrite Ht.
  - split; [rewrite length_app; unfold Zlen; lia|]. intros i t Hi Hlk. apply (Hok i t Hi).
    rewrite lookup_app_l in Hlk; [done|lia].
  - zsolve.
  - done.
  - done.
  - intros Hsup i t Hi Hlk. apply (Hcl Hsup i t Hi). rewrite lookup_app_l in Hlk; [done|lia].
Qed.

(** Up to the token for which there is no room, both runs go the same way. *)
Lemma nomem_loop fuel p ts count p' :
  inv js N (pos p) p ts -> 0 <= count -> Zlen js - pos p < Z.of_nat fuel ->
  parse_loop js fuel N count p = Ret JSMN_ERROR_NOMEM p' ->
  (exists ts', inv js N (pos p') p' ts') /\ toknext p <= toknext p' /\
  exists fuel', Zlen js - pos p' < Z.of_nat fuel' /\
    parse_loop js fuel N' count (more p) =
      parse_loop js fuel' N' (count + (toknext p' - toknext p)) (more p').
Proof.
  revert p ts count. induction fuel as [|fuel IH]; intros p ts count Hi Hc Hf Hr; [done|].
  pose proof Hr as Hr'. cbn [parse_loop] in Hr'. erewrite bind_Ret in Hr' by done.
  destruct (peek js (pos p)) as [c|] eqn:Hpk; [|injection Hr' as -> _; by destruct Hc].
  destruct (runs_parse_char js js_short N N_range p ts c Hi Hpk) as [(E & _)|(r & p1 & E & Hst)].
  { unfold mbind at 1, M_bind at 1 in Hr'. by rewrite E in Hr'. }
  erewrite bind_Ret in Hr' by exact E.
  destruct (parse_char_more c p r p1 E) as [[-> ->]|[Hne E']].
  - injection Hr' as <-. split; [by exists ts|]. split; [done|]. exists (S fuel). split; [done|].
    by rewrite Z.sub_diag, Z.add_0_r.
  - destruct (r <? 0) eqn:Hr0; zbool; [by injection Hr'|]. erewrite bind_Ret in Hr' by done.
    destruct Hst as [Herr|(_ & (ts1 & Hi1) & Hpos & Hnext)]; [apply (is_error_neg js) in Herr; zbool; lia|].
    pose proof (iv_pos _ _ _ _ _ Hi) as Hp0. rewrite wrap_small in Hr' by lia.
    destruct (IH (set_pos (pos p1 + 1) p1) ts1 (count + r)) as (Hinv & Hle & fuel' & Hf' & Hrun);
      [|lia|cbn; unfold Zlen in *; lia|done|].
    { destruct Hi1. constructor; cbn; try done; [eapply toks_mono; [|done]; lia|lia]. }
    split; [done|]. cbn [toknext set_pos] in Hle. split; [lia|]. exists fuel'. split; [done|]. cbn [parse_loop]. erewrite bind_Ret by done.
    cbn [pos more]. rewrite Hpk. erewrite bind_Ret by exact E'. rewrite (proj2 (Z.ltb_ge r 0)) by lia.
    erewrite bind_Ret by done. rewrite wrap_small by (cbn; lia). cbn [toknext set_pos] in Hrun.
    replace (count + (toknext p' - toknext p)) with (count + r + (toknext p' - toknext p1)) by lia.
    exact Hrun.
Qed.

Definition map_more {A : Type} (r : res jsmn_parser A) : res jsmn_parser A :=
  match r with
  | Ret a p => Ret a (more p)
  | Throw p => Throw (more p)
  | Fault f => Fault f
  | Block p => Block (more p)
  end.

Lemma comma_fault p ts :
  inv js N (pos p) p ts -> comma p = Fault OutOfBounds -> comma (more p) = Fault OutOfBounds.
Proof.
  intros Hi Hf. destruct (decide (toksuper p = -1)) as [Hs|Hs].
  - apply (comma_outside (more p) (ts ++ extra)); [|done]. destruct Hi as [Ht _ _ _ _ _]. cbn. by rewrite Ht.
  - destruct Hi as [Ht Hok Hn Hsup Hp Hcl].
    destruct (runs_comma js N p ts) as (? & ? & E & _); [by constructor|lia|]. congruence.
Qed.

(** Unless there is no room for a token, the larger array makes no difference. *)
Lemma loop_more fuel p ts count :
  inv js N (pos p) p ts -> 0 <= count ->
  (exists p', parse_loop js fuel N count p = Ret JSMN_ERROR_NOMEM p') \/
  parse_loop js fuel N' count (more p) = map_more (parse_loop js fuel N count p).
Proof.
  revert p ts count. induction fuel as [|fuel IH]; intros p ts count Hi Hc; [by right|].
  cbn [parse_loop]. erewrite !bind_Ret by done. cbn [pos more].
  destruct (peek js (pos p)) as [c|] eqn:Hpk; [|by right].
  destruct (runs_parse_char js js_short N N_range p ts c Hi Hpk) as [(E & -> & _)|(r & p1 & E & Hst)].
  { right. change (parse_char js N ",") with (comma ≫= fun _ => mret 0) in *.
    change (parse_char js N' ",") with (comma ≫= fun _ => mret 0).
    assert (comma p = Fault OutOfBounds) as Ec.
    { unfold mbind, M_bind in E. destruct (comma p); try done. by injection E as ->. }
    unfold mbind, M_bind. by rewrite Ec, (comma_fault p ts). }
  rewrite (bind_Ret _ _ _ _ _ E). destruct (parse_char_more c p r p1 E) as [[-> ->]|[Hne E']].
  - left. by exists p.
  - rewrite (bind_Ret _ _ _ _ _ E'). destruct (r <? 0) eqn:Hr0; zbool; [by right|].
    erewrite !bind_Ret by done.
    destruct Hst as [Herr|(_ & (ts1 & Hi1) & Hpos & Hnext)]; [apply (is_error_neg js) in Herr; zbool; lia|].
    pose proof (iv_pos _ _ _ _ _ Hi) as Hp0. rewrite !wrap_small by (cbn; lia).
    apply (IH (set_pos (pos p1 + 1) p1) ts1 (count + r)); [|lia].
    destruct Hi1. constructor; cbn; try done; [eapply toks_mono; [|done]; lia|lia].
Qed.

End More.

(** ** Counts and rounds *)

Definition shift (d : Z) (r : res jsmn_parser Z) : res jsmn_parser Z :=
  match r with
  | Ret r p => Ret (if r <? 0 then r else r + d) p
  | x => x
  end.

(** With enough rounds, their number does not matter, and the count only shifts
    the result. *)
Lemma loop_shift js N f1 f2 p ts c1 c2 :
  Z.of_nat (length js) < 2 ^ 31 -> 0 <= N < 2 ^ 31 -> inv js N (pos p) p ts ->
  Zlen js - pos p < Z.of_nat f1 -> Zlen js - pos p < Z.of_nat f2 -> 0 <= c1 -> 0 <= c2 ->
  parse_loop js f1 N c1 p = shift (c1 - c2) (parse_loop js f2 N c2 p).
Proof.
  intros Hjs HN. revert f2 p ts c1 c2.
  induction f1 as [|f1 IH]; intros f2 p ts c1 c2 Hi Hf1 Hf2 Hc1 Hc2.
  { pose proof (iv_pos _ _ _ _ _ Hi). unfold Zlen in *. lia. }
  destruct f2 as [|f2]; [pose proof (iv_pos _ _ _ _ _ Hi); unfold Zlen in *; lia|].
  cbn [parse_loop]. erewrite !bind_Ret by done. destruct (peek js (pos p)) as [c|] eqn:Hpk.
  2:{ unfold mret, M_ret, shift. rewrite (proj2 (Z.ltb_ge c2 0)) by lia. f_equal. lia. }
  destruct (runs_parse_char js Hjs N HN p ts c Hi Hpk) as [(E & _)|(r & p1 & E & Hst)].
  { unfold mbind, M_bind. by rewrite E. }
  erewrite !bind_Ret by exact E. destruct (r <? 0) eqn:Hr0; zbool.
  { unfold mret, M_ret, shift. by rewrite (proj2 (Z.ltb_lt r 0)). }
  destruct Hst as [Herr|(_ & (ts1 & Hi1) & Hpos & _)]; [apply (is_error_neg js) in Herr; zbool; lia|].
  pose proof (iv_pos _ _ _ _ _ Hi) as Hp0. erewrite !bind_Ret by done. rewrite wrap_small by lia.
  rewrite (IH f2 (set_pos (pos p1 + 1) p1) ts1 (c1 + r) (c2 + r)).
  - f_equal. lia.
  - destruct Hi1. constructor; cbn; try done; [eapply toks_mono; [|done]; lia|lia].
  - cbn [pos set_pos]. unfold Zlen in *. lia.
  - cbn [pos set_pos]. unfold Zlen in *. lia.
  - lia.
  - lia.
Qed.

Lemma init_inv js N mem : Zlen mem = N -> inv js N 0 (jsmn_init (Some mem)) mem.
Proof.
  unfold Zlen. intros Hm. constructor; cbn; try done; try lia; [split; [done|]; lia|]. intros _ i t Hlt. lia.
Qed.

(** ** Parsing again *)

Lemma jsmn_parse_nomem js N p p' :
  jsmn_parse js N p = Ret JSMN_ERROR_NOMEM p' ->
  parse_loop js (S (length js)) N 0 p = Ret JSMN_ERROR_NOMEM p'.
Proof.
  unfold jsmn_parse. intros (r & p1 & E & H)%bind_Ret_inv. rewrite E. case_if; zbool; [by injection H as -> ->|].
  apply bind_Ret_inv in H as (? & ? & _ & H). apply bind_Ret_inv in H as (i & ? & _ & H).
  case_if; injection H as H _; unfold JSMN_ERROR_NOMEM, JSMN_ERROR_PART in *; lia.
Qed.

Lemma parse_again js N extra p0 ts0 p (N' := N + Zlen extra) :
  Z.of_nat (length js) < 2 ^ 31 -> 0 <= N -> N' < 2 ^ 31 -> inv js N (pos p0) p0 ts0 ->
  jsmn_parse js N p0 = Ret JSMN_ERROR_NOMEM p ->
  (exists ts, inv js N (pos p) p ts) /\
  jsmn_parse js N' (more extra p0) =
    shift (toknext p - toknext p0) (jsmn_parse js N' (more extra p)).
Proof.
  intros Hjs HN HN' Hi E%jsmn_parse_nomem. pose proof (Zlen_nonneg extra). pose proof (iv_pos _ _ _ _ _ Hi).
  assert (N' = N + Zlen extra) as EN by done. clearbody N'.
  assert (N <= N' /\ 0 <= N < 2 ^ 31 /\ 0 <= N' < 2 ^ 31) as (Hle & HNr & HNr') by lia.
  destruct (nomem_loop extra N N' Hle js Hjs HNr (S (length js)) p0 ts0 0 p Hi ltac:(done)
    ltac:(unfold Zlen; lia) E) as ((ts & Hi') & Hd & fuel & Hf & Hrun).
  split; [by exists ts|]. unfold jsmn_parse, mbind, M_bind.
  pose proof (inv_more extra N N' Hle js (conj EN HN') _ _ _ Hi') as Hm. pose proof (iv_pos _ _ _ _ _ Hi').
  rewrite Hrun, (loop_shift js N' _ (S (length js)) (more extra p) _ _ 0 Hjs HNr' Hm);
    [|cbn [pos more]; lia|cbn [pos more]; unfold Zlen; lia|lia|lia].
  destruct (parse_loop js (S (length js)) N' 0 (more extra p)) as [r p1| | |]; try done.
  cbn [shift]. destruct (r <? 0) eqn:Hr; zbool.
  - unfold mret, M_ret, shift. by rewrite (proj2 (Z.ltb_lt r 0)) by lia.
  - rewrite (proj2 (Z.ltb_ge (_ + _) 0)) by lia. unfold get.
    destruct (find_token is_open (Z.to_nat (toknext p1)) p1) as [i p2| | |]; try done.
    destruct (i =? -1); cbn [mret M_ret]; [|done]. unfold mret, M_ret, shift.
    rewrite (proj2 (Z.ltb_ge r 0)) by lia. f_equal. lia.
Qed.

(** C24: going on with more room: when [jsmn_parse] ends with [JSMN_ERROR_NOMEM],
    a second call with the same parser and an array enlarged at the end by any
    tokens leaves the same tokens and the same parser as one call with the large
    array, and reports the same error.  The number that the second call returns is
    not that of the one call: it counts only the tokens that it has made itself,
    without those of the first call, where the one call returns [toknext]. *)
Theorem jsmn_resume (js : chars) (N : Z) (mem extra : list jsmntok_t) (p : jsmn_parser) :
  Z.of_nat (length js) < 2 ^ 31 -> Zlen mem = N -> N + Zlen extra < 2 ^ 31 ->
  jsmn_parse js N (jsmn_init (Some mem)) = Ret JSMN_ERROR_NOMEM p ->
  match jsmn_parse js (N + Zlen extra) (more extra p) with
  | Ret r q =>
      (r < 0 /\ jsmn_parse js (N + Zlen extra) (jsmn_init (Some (mem ++ extra))) = Ret r q) \/
      (r = toknext q - toknext p /\
       jsmn_parse js (N + Zlen extra) (jsmn_init (Some (mem ++ extra))) = Ret (toknext q) q)
  | second => jsmn_parse js (N + Zlen extra) (jsmn_init (Some (mem ++ extra))) = second
  end.
Proof.
  intros Hjs HN HN' E. pose proof (Zlen_nonneg mem). pose proof (Zlen_nonneg extra).
  destruct (parse_again js N extra (jsmn_init (Some mem)) mem p Hjs ltac:(lia) HN' (init_inv js N mem HN) E) as [[ts Hi] H1].
  pose proof (iv_next _ _ _ _ _ Hi).
  change (more extra (jsmn_init (Some mem))) with (jsmn_init (Some (mem ++ extra))) in H1.
  cbn [toknext jsmn_init] in H1. rewrite Z.sub_0_r in H1.
  destruct (runs_jsmn_parse js Hjs (N + Zlen extra) ltac:(lia) (mem ++ extra)) as [[Hf _]|(r & p' & Hr & Hres)].
  { change (Z.of_nat (length (mem ++ extra))) with (Zlen (mem ++ extra)). zsolve. }
  - rewrite Hf in H1 |- *. by destruct (jsmn_parse js (N + Zlen extra) (more extra p)).
  - rewrite Hr in H1 |- *. destruct (jsmn_parse js (N + Zlen extra) (more extra p)) as [r' p''| | |];
      try done. cbn in H1. destruct (r' <? 0) eqn:Hr'; injection H1 as -> ->; [left|right]; zbool; [done|].
    destruct Hres as [Herr|[Hk _]]; [exfalso; apply (is_error_neg js) in Herr; lia|].
    split; [lia|]. f_equal. lia.
Qed.

(** Two tokens are too few for [[1,[2]]]; with two more, the second call ends the
    work and returns 2, where one call with four tokens returns 4. *)
Lemma jsmn_resume_witness :
  let extra := [Tok JSMN_STRING 7 7 7; Tok JSMN_STRING 8 8 8] in
  let p := Parser 3 2 0 (Some [Tok JSMN_ARRAY 0 (-1) 1; Tok JSMN_PRIMITIVE 1 2 0]) in
  let q := Parser 7 4 (-1) (Some [Tok JSMN_ARRAY 0 7 2; Tok JSMN_PRIMITIVE 1 2 0;
      Tok JSMN_ARRAY 3 6 1; Tok JSMN_PRIMITIVE 4 5 0]) in
  jsmn_parse (lit "[1,[2]]") 4 (more extra p) = Ret 2 q /\
  jsmn_parse (lit "[1,[2]]") 4 (jsmn_init (Some (replicate 2 (Tok JSMN_STRING 9 9 9) ++ extra))) = Ret 4 q.
Proof.
  intros extra p q.
  assert (jsmn_parse (lit "[1,[2]]") 4 (more extra p) = Ret 2 q) as E by (vm_compute; reflexivity).
  split; [exact E|].
  pose proof (jsmn_resume (lit "[1,[2]]") 2 (replicate 2 (Tok JSMN_STRING 9 9 9)) extra p
    ltac:(vm_compute; reflexivity) ltac:(vm_compute; reflexivity) ltac:(vm_compute; reflexivity)
    ltac:(vm_compute; reflexivity)) as Hr.
  change (2 + Zlen extra) with 4 in Hr. rewrite E in Hr. destruct Hr as [[Hneg _]|[_ Hr]]; [lia|exact Hr].
Defined.

(** ** Too little room *)

(** The text of a value that needs more tokens than there are. *)
Lemma document_nomem w1 v w2 N mem :
  white w1 = true -> wf v = true -> white w2 = true -> Zlen (document w1 v w2) < 2 ^ 31 ->
  Zlen mem = N -> N < ntoks v < 2 ^ 31 ->
  exists p, jsmn_parse (document w1 v w2) N (jsmn_init (Some mem)) = Ret JSMN_ERROR_NOMEM p.
Proof.
  intros Hw1 Hwf Hw2 Hl Hm HN. set (js := document w1 v w2) in *. pose proof (Zlen_nonneg mem).
  set (extra := replicate (Z.to_nat (ntoks v - N)) (Tok JSMN_STRING 0 0 0)).
  assert (Zlen extra = ntoks v - N) as Ex by (unfold Zlen, extra; rewrite length_replicate; lia).
  assert (Zlen (mem ++ extra) = ntoks v) as Em by (rewrite Zlen_app; lia).
  pose proof (parse_document w1 v w2 (ntoks v) (mem ++ extra) Hw1 Hwf Hw2 Hl Em ltac:(lia) ltac:(lia)) as Hbig.
  unfold jsmn_parse in Hbig. apply bind_Ret_inv in Hbig as (k & p1 & Ek & Hbig).
  assert (k = ntoks v) as ->.
  { destruct (k <? 0) eqn:Hk; zbool; [injection Hbig as -> _; lia|].
    apply bind_Ret_inv in Hbig as (? & ? & _ & Hbig). apply bind_Ret_inv in Hbig as (i & ? & _ & Hbig).
    destruct (i =? -1); injection Hbig; unfold JSMN_ERROR_PART; lia. }
  pose proof (init_inv js N mem Hm) as Hi.
  destruct (loop_more extra N (ntoks v) ltac:(lia) js Hl ltac:(lia) (S (length js)) (jsmn_init (Some mem)) mem 0 Hi)
    as [[p E]|E]; [done|exists p; unfold jsmn_parse; by rewrite (bind_Ret _ _ _ _ _ E)|exfalso].
  change (more extra (jsmn_init (Some mem))) with (jsmn_init (Some (mem ++ extra))) in E.
  fold js in Ek. rewrite Ek in E.
  destruct (runs_parse_loop js Hl N ltac:(lia) (S (length js)) (jsmn_init (Some mem)) mem 0 Hi)
    as [[Ef _]|(r & p2 & Er & Hr)]; [done|cbn; unfold Zlen; lia|by rewrite Ef in E|].
  rewrite Er in E. injection E as <- _.
  destruct Hr as [Herr|(Hr & ts & Hi2)]; [apply (is_error_neg js) in Herr; zbool; lia|].
  pose proof (iv_next _ _ _ _ _ Hi2). lia.
Qed.

(** ** Counting *)

(** The parser of a caller that passes no array. *)
Definition bare (p : jsmn_parser) : jsmn_parser := Parser (pos p) 0 (-1) None.

Definition keeps_pos {A : Type} (m : M jsmn_parser A) : Prop :=
  forall p a p', m p = Ret a p' -> pos p' = pos p.

Lemma keeps_bind {A B : Type} (m : M jsmn_parser A) (k : A -> M jsmn_parser B) :
  keeps_pos m -> (forall a, keeps_pos (k a)) -> keeps_pos (m ≫= k).
Proof.
  intros Hm Hk p b p' (a & p1 & Ha & Hb)%bind_Ret_inv. rewrite (Hk a p1 b p' Hb). by eapply Hm.
Qed.

Lemma keeps_ret {A : Type} (a : A) : keeps_pos (mret a).
Proof. by intros p b p' [= _ <-]. Qed.

Lemma keeps_get : keeps_pos get.
Proof. by intros p b p' [= _ <-]. Qed.

Lemma keeps_get_token i : keeps_pos (get_token i).
Proof. intros p t p' H. by apply get_token_state in H as ->. Qed.

Lemma keeps_put_token i t : keeps_pos (put_token i t).
Proof. intros p a p' H. by eapply put_token_pos. Qed.

Lemma keeps_find_token f n : keeps_pos (find_token f n).
Proof.
  induction n as [|n IH]; cbn [find_token]; [apply keeps_ret|].
  apply keeps_bind; [apply keeps_get_token|]. intros t. destruct (f t); [apply keeps_ret|done].
Qed.

Lemma keeps_modify f : (forall p, pos (f p) = pos p) -> keeps_pos (modify f).
Proof. by intros Hf p a p' [= _ <-]. Qed.

Create HintDb jsmn_pos.
#[local] Hint Resolve keeps_bind keeps_ret keeps_get keeps_get_token keeps_put_token keeps_find_token : jsmn_pos.

Lemma keeps_alloc N : keeps_pos (jsmn_alloc_token N).
Proof.
  apply keeps_bind; [apply keeps_get|]. intros p. case_if; [auto with jsmn_pos|].
  repeat (apply keeps_bind; [auto using keeps_modify with jsmn_pos|intros ?]). auto with jsmn_pos.
Qed.

Lemma keeps_count_child : keeps_pos count_child.
Proof. apply keeps_bind; [apply keeps_get|]. intros p. case_if; auto with jsmn_pos. Qed.

Lemma keeps_open N ty : keeps_pos (open_container N ty).
Proof.
  apply keeps_bind; [apply keeps_get|]. intros p. destruct (tokens p); [|apply keeps_ret].
  apply keeps_bind; [apply keeps_alloc|]. intros [i|]; [|apply keeps_ret].
  apply keeps_bind; [apply keeps_count_child|]. intros _.
  repeat (apply keeps_bind; [auto using keeps_modify with jsmn_pos|intros ?]). auto with jsmn_pos.
Qed.

Lemma keeps_close ty : keeps_pos (close_container ty).
Proof.
  apply keeps_bind; [apply keeps_get|]. intros p. destruct (tokens p); [|apply keeps_ret].
  apply keeps_bind; [apply keeps_find_token|]. intros i. case_if; [apply keeps_ret|].
  apply keeps_bind; [apply keeps_get_token|]. intros t. destruct (decide (type t = ty)); [|apply keeps_ret].
  do 3 (apply keeps_bind; [auto using keeps_modify with jsmn_pos|intros ?]).
  apply keeps_bind; [case_if; auto using keeps_modify with jsmn_pos|]. auto with jsmn_pos.
Qed.

Lemma keeps_comma : keeps_pos comma.
Proof.
  apply keeps_bind; [apply keeps_get|]. intros p. destruct (tokens p); [|apply keeps_ret].
  apply keeps_bind; [apply keeps_get_token|]. intros t. case_if; [apply keeps_ret|].
  apply keeps_bind; [apply keeps_find_token|]. intros i. case_if; auto using keeps_modify with jsmn_pos.
Qed.

Section Count.
Variables N N' : Z.
Variable js : chars.

(** What [m] counts with an array, [m'] counts without. *)
Definition counts_at (m m' : M jsmn_parser Z) (p : jsmn_parser) : Prop :=
  forall r p', m p = Ret r p' -> 0 <= r -> m' (bare p) = Ret r (bare p').

Lemma counts_keeps (m m' : M jsmn_parser Z) p :
  keeps_pos m -> (forall r p', m p = Ret r p' -> 0 <= r -> m' (bare p) = Ret r (bare p)) -> counts_at m m' p.
Proof. intros Hk Hm r p' E Hr. rewrite (Hm r p' E Hr). unfold bare. by rewrite (Hk p r p' E). Qed.

Lemma counts_child (m m' : M jsmn_parser Z) p :
  counts_at m m' p ->
  counts_at (r ← m ; if r <? 0 then mret r else count_child ;; mret 1)
    (r ← m' ; if r <? 0 then mret r else count_child ;; mret 1) p.
Proof.
  intros Hm r p' (a & p1 & Ha & Hr)%bind_Ret_inv Hr0. case_if; zbool; [injection Hr as <- <-; lia|].
  apply bind_Ret_inv in Hr as (? & p2 & Hc & Hr). injection Hr as <- <-. pose proof (count_child_pos _ _ _ Hc) as Ep.
  erewrite bind_Ret by (by eapply Hm). rewrite (proj2 (Z.ltb_ge a 0)) by lia.
  unfold bare. rewrite Ep. done.
Qed.

Lemma counts_string p ts :
  tokens p = Some ts -> counts_at (jsmn_parse_string js N) (jsmn_parse_string js N') p.
Proof.
  intros Ht r p' E Hr. unfold jsmn_parse_string in *. erewrite bind_Ret in E |- * by done. cbv zeta in *.
  cbn [pos bare tokens]. rewrite Ht in E.
  destruct (scan_string js (scan_fuel js) (u32 (pos p + 1))) as [e| |];
    [|injection E as <- _; unfold JSMN_ERROR_INVAL, JSMN_ERROR_PART in *; lia..].
  erewrite bind_Ret in E |- * by done. assert (pos p' = e) as Ep by (by eapply add_token_pos in E).
  assert (r = 0) as ->.
  { apply add_token_more with (extra := []) (N' := N) in E as [[-> _]|[-> _]]; done || lia. }
  unfold bare. rewrite Ep. done.
Qed.

Lemma counts_primitive p ts :
  tokens p = Some ts -> counts_at (jsmn_parse_primitive js N) (jsmn_parse_primitive js N') p.
Proof.
  intros Ht r p' E Hr. unfold jsmn_parse_primitive in *. erewrite bind_Ret in E |- * by done. cbv zeta in *.
  cbn [pos bare tokens]. rewrite Ht in E.
  destruct (scan_primitive js (scan_fuel js) (pos p)) as [e|];
    [|injection E as <- _; unfold JSMN_ERROR_INVAL in *; lia].
  erewrite bind_Ret in E |- * by done. apply bind_Ret_inv in E as (r1 & p1 & _ & E).
  case_if; zbool; [injection E as <- _; lia|]. injection E as <- <-. done.
Qed.

Lemma counts_char c p ts :
  tokens p = Some ts -> counts_at (parse_char js N c) (parse_char js N' c) p.
Proof.
  intros Ht. unfold parse_char.
  destruct (Ascii.eqb c "{" || Ascii.eqb c "[").
  { apply counts_keeps.
    - apply keeps_bind; [apply keeps_open|]. intros r. case_if; apply keeps_ret.
    - intros r p' (a & p1 & _ & E)%bind_Ret_inv Hr.
      destruct (a <? 0) eqn:Ha; zbool; injection E as <- _; [lia|done]. }
  destruct (Ascii.eqb c "}" || Ascii.eqb c "]").
  { apply counts_keeps; [apply keeps_close|]. intros r p' E Hr. unfold close_container in *.
    erewrite bind_Ret in E |- * by done. rewrite Ht in E. apply bind_Ret_inv in E as (i & p1 & _ & E).
    destruct (i =? -1); [injection E as <- _; unfold JSMN_ERROR_INVAL in *; lia|].
    apply bind_Ret_inv in E as (t & p2 & _ & E).
    case_decide; [|injection E as <- _; unfold JSMN_ERROR_INVAL in *; lia].
    repeat (apply bind_Ret_inv in E as (? & ? & _ & E)). by injection E as <- _. }
  destruct (Ascii.eqb c quote); [by eapply counts_child, counts_string|].
  destruct (is_white c); [by intros r p' [= <- <-]|].
  destruct (Ascii.eqb c ":"); [by intros r p' [= <- <-]|].
  destruct (Ascii.eqb c ","); [|by eapply counts_child, counts_primitive].
  apply counts_keeps; [apply keeps_bind; [apply keeps_comma|intros _; apply keeps_ret]|].
  intros r p' (a & p1 & _ & E)%bind_Ret_inv Hr. by injection E as <- _.
Qed.

Hypothesis js_short : Z.of_nat (length js) < 2 ^ 31.
Hypothesis N_range : 0 <= N < 2 ^ 31.

Lemma counts_loop fuel p ts count r p' :
  inv js N (pos p) p ts -> 0 <= count -> parse_loop js fuel N count p = Ret r p' -> 0 <= r ->
  parse_loop js fuel N' count (bare p) = Ret r (bare p').
Proof.
  revert p ts count. induction fuel as [|fuel IH]; intros p ts count Hi Hc E Hr; [done|].
  cbn [parse_loop] in *. erewrite bind_Ret in E |- * by done. cbn [pos bare].
  destruct (peek js (pos p)) as [c|] eqn:Hpk; [|by injection E as <- <-].
  destruct (runs_parse_char js js_short N N_range p ts c Hi Hpk) as [(Ef & _)|(k & p1 & Ek & Hst)].
  { unfold mbind at 1, M_bind at 1 in E. by rewrite Ef in E. }
  erewrite bind_Ret in E by exact Ek. destruct (k <? 0) eqn:Hk; zbool; [injection E as <- _; lia|].
  erewrite bind_Ret by (eapply counts_char; [by destruct Hi|done|done]).
  rewrite (proj2 (Z.ltb_ge k 0)) by lia. erewrite bind_Ret in E |- * by done.
  destruct Hst as [Herr|(_ & (ts1 & Hi1) & Hpos & _)]; [apply (is_error_neg js) in Herr; zbool; lia|].
  pose proof (iv_pos _ _ _ _ _ Hi). rewrite wrap_small in E |- * by (cbn; lia).
  refine (IH (set_pos (pos p1 + 1) p1) ts1 (count + k) _ ltac:(lia) E Hr).
  destruct Hi1. constructor; cbn; try done; [eapply toks_mono; [|done]; lia|lia].
Qed.

End Count.

(** C25: counting agrees with parsing: whenever [jsmn_parse] accepts a text with
    some array and returns a number of tokens, the call without an array
    (the null pointer) returns the same number. *)
Theorem jsmn_count_agrees (js : chars) (N N' r : Z) (mem : list jsmntok_t) (p : jsmn_parser) :
  Z.of_nat (length js) < 2 ^ 31 -> Zlen mem = N -> N < 2 ^ 31 ->
  jsmn_parse js N (jsmn_init (Some mem)) = Ret r p -> 0 <= r ->
  jsmn_parse js N' (jsmn_init None) = Ret r (bare p).
Proof.
  intros Hjs Hm HN E Hr. pose proof (Zlen_nonneg mem). unfold jsmn_parse in *.
  apply bind_Ret_inv in E as (k & p1 & Ek & E).
  destruct (k <? 0) eqn:Hk; zbool; [injection E as <- _; lia|].
  pose proof (counts_loop N N' js Hjs ltac:(lia) _ (jsmn_init (Some mem)) mem 0 k p1 (init_inv js N mem Hm) ltac:(done) Ek Hk) as E'.
  erewrite bind_Ret by exact E'. rewrite (proj2 (Z.ltb_ge k 0)) by lia. erewrite bind_Ret in E |- * by done.
  apply bind_Ret_inv in E as (i & p2 & Ef & E). apply keeps_find_token in Ef.
  case_if; injection E as <- <-; [|unfold JSMN_ERROR_PART in *; lia].
  unfold bare. rewrite Ef. done.
Qed.

Lemma jsmn_count_agrees_witness :
  jsmn_parse (lit "[1,[2]]") 0 (jsmn_init None) = Ret 4 (Parser 7 0 (-1) None).
Proof.
  apply (jsmn_count_agrees (lit "[1,[2]]") 4 0 4 (replicate 4 (Tok JSMN_STRING 9 9 9))
    (Parser 7 4 (-1) (Some [Tok JSMN_ARRAY 0 7 2; Tok JSMN_PRIMITIVE 1 2 0;
      Tok JSMN_ARRAY 3 6 1; Tok JSMN_PRIMITIVE 4 5 0]))); vm_compute; done.
Defined.
End JsmnResume.
