(* ===== verification/JsmnPrint.v ===== *)
(** * Printing the statistics

    The Raft process sends its statistics as a JSON object of strings.
    [raft_print_stats] prints the keys and values of such an object. *)

From stdpp Require Import base tactics list strings.
From Stdlib Require Import ZArith Lia Ascii.
From S2P Require Import Prelude CString Jsmn JsmnSpec JsmnTree JsmnRoundtrip.

Module JsmnPrint.
Import CString Jsmn JsmnSpec JsmnTree JsmnRoundtrip.

(** ** The text of a token *)

Definition spells (js : chars) (t : jsmntok_t) (s : chars) : Prop :=
  in_string js t = true /\ substring js (start t) (tend t) = s.

Lemma spells_middle pre s post ty a n :
  a = Zlen pre -> spells (pre ++ s ++ post) (Tok ty a (a + Zlen s) n) s.
Proof.
  intros ->. split.
  - unfold in_string. cbn [start tend]. change (Z.of_nat (length ?l)) with (Zlen l).
    repeat (apply andb_true_intro; split); apply Z.leb_le; zsolve.
  - unfold substring. cbn [start tend]. rewrite Zlen_nat, drop_app_length.
    replace (Zlen pre + Zlen s - Zlen pre) with (Zlen s) by lia. by rewrite Zlen_nat, take_app_length.
Qed.

(** A quoted string whose opening quote is at [a]. *)
Lemma spells_quoted pre s post ty a n :
  a = Zlen pre -> spells (pre ++ quoted s ++ post) (Tok ty (a + 1) (a + 1 + Zlen s) n) s.
Proof.
  intros ->. unfold quoted.
  replace (pre ++ (quote :: s ++ [quote]) ++ post) with ((pre ++ [quote]) ++ s ++ quote :: post)
    by (by repeat (rewrite <- ?app_assoc; cbn [app])).
  apply spells_middle. zsolve.
Qed.

(** ** Objects of strings *)

(** The keys and values of an object whose values are strings. *)
Fixpoint pairs_of (ms : members) : option (list (chars * chars)) :=
  match ms with
  | MNil => Some []
  | MCons _ k _ _ (JString s) _ ms => kvs ← pairs_of ms ; Some ((k, s) :: kvs)
  | MCons _ _ _ _ _ _ _ => None
  end.

Lemma pairs_of_size ms kvs :
  pairs_of ms = Some kvs -> nmembers ms = Zlen kvs /\ members_ntoks ms = 2 * Zlen kvs.
Proof.
  revert kvs. induction ms as [|w1 k w2 w3 v w4 ms IH]; intros kvs Hk; simplify_eq/=; [done|].
  destruct v; try done. apply bind_Some in Hk as (kvs' & Hk & ?); simplify_eq.
  destruct (IH kvs' Hk) as [-> ->]. cbn [ntoks]. zsolve.
Qed.

Lemma lookup_past {A : Type} (l1 l2 : list A) (i : nat) : (l1 ++ l2) !! (length l1 + i)%nat = l2 !! i.
Proof. rewrite lookup_app_r by lia. f_equal. lia. Qed.

(** One round of the loop over the keys. *)
Lemma print_key js n key ts acc kt vt k v :
  ts !! Z.to_nat (1 + 2 * key) = Some kt -> ts !! Z.to_nat (1 + 2 * key + 1) = Some vt ->
  type kt = JSMN_STRING -> type vt = JSMN_STRING -> spells js kt k -> spells js vt v ->
  print_keys js (S n) key ts acc = print_keys js n (key + 1) ts ((k, v) :: acc).
Proof.
  intros Hk Hv Tk Tv [Ik <-] [Iv <-]. cbn [print_keys]. rewrite Hk, Hv, Tk, Tv, Ik, Iv. done.
Qed.

(** The loop prints the members, [A] being the tokens before them. *)
Lemma print_members ms kvs pre post A rest key acc :
  pairs_of ms = Some kvs -> length A = S (2 * key) ->
  print_keys (pre ++ members_text ms ++ post) (length kvs) (Z.of_nat key)
    (A ++ members_toks (Zlen pre) ms ++ rest) acc = Ret (Lines (reverse acc ++ kvs) true) ().
Proof.
  revert kvs pre A key acc. induction ms as [|w1 k w2 w3 v w4 ms IH]; intros kvs pre A key acc Hk HA;
    cbn [pairs_of members_text members_toks] in *; [simplify_eq/=; by rewrite app_nil_r|].
  destruct v as [|s| |]; try done. apply bind_Some in Hk as (kvs' & Hk & ?); simplify_eq.
  cbn [length text toks app].
  set (val := Zlen pre + Zlen w1 + Zlen (quoted k) + Zlen w2 + 1 + Zlen w3).
  set (kt := Tok JSMN_STRING (Zlen pre + Zlen w1 + 1) (Zlen pre + Zlen w1 + 1 + Zlen k) 1).
  set (vt := Tok JSMN_STRING (val + 1) (val + 1 + Zlen s) 0).
  set (A1 := pre ++ w1). set (A2 := A1 ++ quoted k ++ w2 ++ ":"%char :: w3).
  set (A3 := A2 ++ quoted s ++ w4 ++ msep ms).
  assert (forall X Y, pre ++ (w1 ++ quoted k ++ w2 ++ ":"%char :: w3 ++ quoted s ++ w4 ++ msep ms ++ X) ++ Y =
    A3 ++ X ++ Y) as EA3.
  { intros X Y. unfold A3, A2, A1. by repeat (rewrite <- ?app_assoc; cbn [app]). }
  rewrite EA3.
  rewrite (print_key _ _ _ _ _ kt vt k s).
  - replace (Z.of_nat key + 1) with (Z.of_nat (S key)) by lia.
    assert (Zlen A3 = val + Zlen (quoted s) + Zlen w4 + Zlen (msep ms)) as <- by (unfold val, A3, A2, A1; zsolve).
    replace (A ++ kt :: vt :: members_toks (Zlen A3) ms ++ rest)
      with ((A ++ [kt; vt]) ++ members_toks (Zlen A3) ms ++ rest) by (by rewrite <- app_assoc).
    rewrite (IH kvs' A3 (A ++ [kt; vt]) (S key)); [|done|rewrite length_app; cbn; lia].
    by rewrite reverse_cons, <- app_assoc.
  - replace (Z.to_nat (1 + 2 * Z.of_nat key)) with (length A + 0)%nat by lia. by rewrite lookup_past.
  - replace (Z.to_nat (1 + 2 * Z.of_nat key + 1)) with (length A + 1)%nat by lia. by rewrite lookup_past.
  - done.
  - done.
  - assert (A3 ++ members_text ms ++ post = A1 ++ quoted k ++ w2 ++ ":"%char :: w3 ++ quoted s ++ w4 ++ msep ms ++ members_text ms ++ post) as ->
      by (unfold A3, A2; by repeat (rewrite <- ?app_assoc; cbn [app])).
    apply spells_quoted. unfold A1. zsolve.
  - assert (A3 ++ members_text ms ++ post = A2 ++ quoted s ++ w4 ++ msep ms ++ members_text ms ++ post) as ->
      by (unfold A3; by repeat (rewrite <- ?app_assoc; cbn [app])).
    apply spells_quoted. unfold val, A2, A1. zsolve.
Qed.

(** C21: [raft_print_stats] prints the statistics as they were sent: for a JSON
    object of strings with at most 31 keys, with any white space and escapes, it
    writes one line per key, in order, with exactly the key and the value, and
    reports no error, whatever the 64 tokens on the stack held. *)
Theorem print_stats_roundtrip (w1 w w2 : chars) (ms : members) (kvs : list (chars * chars))
    (mem : list jsmntok_t) :
  pairs_of ms = Some kvs -> wf (JObject w ms) = true -> white w1 = true -> white w2 = true ->
  Zlen (document w1 (JObject w ms) w2) < 2 ^ 31 -> 2 * Zlen kvs + 1 <= 64 -> Zlen mem = 64 ->
  raft_print_stats mem (Some (document w1 (JObject w ms) w2)) = Ret (Lines kvs true) ().
Proof.
  intros Hk Hwf Hw1 Hw2 Hl Hroom Hm. destruct (pairs_of_size ms kvs Hk) as [Hn Ht]. unfold raft_print_stats.
  rewrite parse_document by (done || (cbn [ntoks]; lia)). pose proof (Zlen_nonneg kvs).
  cbn [ntoks]. rewrite (proj2 (Z.ltb_ge _ 1)) by lia. cbn [tokens]. unfold document_toks. cbn [toks app].
  rewrite decide_False by (intros H'; by apply H'). cbn [size]. rewrite Hn, Zlen_nat.
  unfold document. cbn [text].
  assert (w1 ++ ("{"%char :: w ++ members_text ms ++ ["}"%char]) ++ w2 =
    (w1 ++ "{"%char :: w) ++ members_text ms ++ ["}"%char] ++ w2) as ->
    by (by repeat (rewrite <- ?app_assoc; cbn [app])).
  replace (Zlen w1 + 1 + Zlen w) with (Zlen (w1 ++ "{"%char :: w)) by zsolve.
  by apply (print_members ms kvs (w1 ++ "{"%char :: w) (["}"%char] ++ w2) [_] _ 0 []).
Qed.

Definition sample_stats : members :=
  MCons [] (lit "state") [] [" "%char] (JString (lit "Leader")) []
    (MCons [" "%char] (lit "term") [] [] (JString (lit "12")) []
      (MCons [] (lit "last_contact") [] [] (JString []) ["010"%char] MNil)).

Lemma print_stats_roundtrip_witness :
  raft_print_stats (replicate 64 (Tok JSMN_ARRAY 1 2 3)) (Some (document [] (JObject [] sample_stats) [])) =
  Ret (Lines [(lit "state", lit "Leader"); (lit "term", lit "12"); (lit "last_contact", [])] true) ().
Proof. apply print_stats_roundtrip; vm_compute; done. Defined.

(** An object whose keys are not all followed by values has more children than
    the array has pairs of tokens: the loop over the keys reads past its end. *)
Definition many_strings : chars :=
  "{"%char :: mjoin (replicate 63 (quoted [])) ++ ["}"%char].

Theorem print_stats_overruns :
  raft_print_stats (replicate 64 (Tok JSMN_ARRAY 1 2 3)) (Some many_strings) = Fault OutOfBounds.
Proof. vm_compute. reflexivity. Qed.

End JsmnPrint.
