(* ===== verification/Jsondump.v ===== *)
(** * The example programs of the JSON tokenizer

    zserge-jsmn/example/jsondump.c reads JSON from its standard input and prints
    it in the style of YAML; zserge-jsmn/example/simple.c picks the known keys
    out of a fixed text. *)

From stdpp Require Import base tactics list strings.
From Stdlib Require Import ZArith Lia Ascii.
From S2P Require Import Prelude CString Jsmn JsmnSpec JsmnTree JsmnRoundtrip JsmnResume.

Module Jsondump.
Import CString Jsmn JsmnTree JsmnRoundtrip JsmnResume.

(** ** Output

    The state of a function that prints is what has been printed. *)

Definition put (s : chars) : M chars () := modify (fun out => out ++ s).

Definition newline : ascii := "010"%char.

(** [printf("%.*s", n, js + i)]: at most [n] characters, up to a NUL. *)
Fixpoint put_text (js : chars) (n : nat) (i : Z) : M chars () :=
  match n with
  | O => mret ()
  | S n =>
      match (if 0 <=? i then js !! Z.to_nat i else None) with
      | None => fail OutOfBounds
      | Some c => if Ascii.eqb c NUL then mret () else put [c] ;; put_text js n (i + 1)
      end
  end.

(** The text of a token.  A negative precision counts as none, so that [printf]
    would look for a NUL, which the buffer does not have. *)
Definition put_token_text (js : chars) (t : jsmntok_t) : M chars () :=
  if tend t - start t <? 0 then fail OutOfBounds
  else put_text js (Z.to_nat (tend t - start t)) (start t).

(** [for (k = 0; k < n; k++) printf("  ")] *)
Fixpoint put_indent (n : nat) : M chars () :=
  match n with O => mret () | S n => put (lit "  ") ;; put_indent n end.

(** ** [dump] *)

Section Dump.
Variable js : chars.
(** The array of tokens; a pointer into it is an index. *)
Variable ts : list jsmntok_t.

Definition token_at (t : Z) : M chars jsmntok_t := fun out =>
  match (if 0 <=? t then ts !! Z.to_nat t else None) with
  | Some tk => Ret tk out
  | None => Fault OutOfBounds
  end.

(** The loops over the children; [rec] is the recursive call, on a pointer and
    the count of tokens. *)
Fixpoint dump_members (rec : Z -> Z -> M chars Z) (t count indent : Z) (n : nat) (j : Z) : M chars Z :=
  match n with
  | O => mret j
  | S n =>
      put_indent (Z.to_nat indent) ;;
      d ← rec (t + 1 + j) (u64 (count - j)) ;
      put (lit ": ") ;;
      d' ← rec (t + 1 + (j + d)) (u64 (count - (j + d))) ;
      put [newline] ;;
      dump_members rec t count indent n (j + d + d')
  end.

Fixpoint dump_elements (rec : Z -> Z -> M chars Z) (t count indent : Z) (n : nat) (j : Z) : M chars Z :=
  match n with
  | O => mret j
  | S n =>
      put_indent (Z.to_nat (indent - 1)) ;;
      put (lit "   - ") ;;
      d ← rec (t + 1 + j) (u64 (count - j)) ;
      put [newline] ;;
      dump_elements rec t count indent n (j + d)
  end.

(** [fuel] bounds the depth of the recursion. *)
Fixpoint dump (fuel : nat) (t count indent : Z) : M chars Z :=
  match fuel with
  | O => block
  | S fuel =>
      if count =? 0 then mret 0
      else
        tk ← token_at t ;
        match type tk with
        | JSMN_PRIMITIVE => put_token_text js tk ;; mret 1
        | JSMN_STRING => put ["'"%char] ;; put_token_text js tk ;; put ["'"%char] ;; mret 1
        | JSMN_OBJECT =>
            put [newline] ;;
            j ← dump_members (fun t count => dump fuel t count (indent + 1)) t count indent
                  (Z.to_nat (size tk)) 0 ;
            mret (j + 1)
        | JSMN_ARRAY =>
            put [newline] ;;
            j ← dump_elements (fun t count => dump fuel t count (indent + 1)) t count indent
                  (Z.to_nat (size tk)) 0 ;
            mret (j + 1)
        end
  end.

End Dump.

(** ** [main] of jsondump.c *)

(** What [strncpy] finds to copy in a buffer. *)
Fixpoint until_nul (buf : chars) : chars :=
  match buf with
  | [] => []
  | c :: buf => if Ascii.eqb c NUL then [] else c :: until_nul buf
  end.

(** The answers of [malloc] and [realloc], by size, and what new tokens hold. *)
Record Heap := {
  alloc_ok : Z -> bool;
  junk : nat -> jsmntok_t
}.

(** [BUFSIZ] of the GNU C library *)
Definition BUFSIZ : Z := 8192.
(** [sizeof(jsmntok_t)] *)
Definition SIZEOF_TOK : Z := 16.

(** The messages on the standard error output. *)
Inductive message := MallocMsg | ReallocMsg | FreadMsg | EofMsg.

Record dworld := DWorld {
  dw_js : chars; dw_parser : jsmn_parser; dw_tokcount : Z; dw_eof_expected : bool;
  dw_out : chars; dw_err : list message }.

Definition set_js v w := DWorld v (dw_parser w) (dw_tokcount w) (dw_eof_expected w) (dw_out w) (dw_err w).
Definition set_parser v w := DWorld (dw_js w) v (dw_tokcount w) (dw_eof_expected w) (dw_out w) (dw_err w).
Definition set_tokcount v w := DWorld (dw_js w) (dw_parser w) v (dw_eof_expected w) (dw_out w) (dw_err w).
Definition set_eof v w := DWorld (dw_js w) (dw_parser w) (dw_tokcount w) v (dw_out w) (dw_err w).
Definition set_out v w := DWorld (dw_js w) (dw_parser w) (dw_tokcount w) (dw_eof_expected w) v (dw_err w).
Definition set_err v w := DWorld (dw_js w) (dw_parser w) (dw_tokcount w) (dw_eof_expected w) (dw_out w) v.

Definition complain (m : message) : M dworld () := modify (fun w => set_err (dw_err w ++ [m]) w).

Section Main.
Variable H : Heap.

(** The tokens that [realloc] adds when the array grows from [n] to [m]. *)
Definition new_toks (n m : Z) : list jsmntok_t :=
  junk H <$> seq (Z.to_nat n) (Z.to_nat (m - n)).

(** From the label [again] on; the result is the status to return, or [None] to
    read on.  [fuel] bounds the times the array is enlarged. *)
Fixpoint again (fuel : nat) : M dworld (option Z) :=
  match fuel with
  | O => block
  | S fuel =>
      w ← get ;
      r ← zoom dw_parser set_parser (jsmn_parse (dw_js w) (u32 (dw_tokcount w))) ;
      if r <? 0 then
        if r =? JSMN_ERROR_NOMEM then
          let n := u64 (dw_tokcount w * 2) in
          modify (set_tokcount n) ;;
          if alloc_ok H (u64 (SIZEOF_TOK * n)) then
            modify (fun w' => set_parser (more (new_toks (dw_tokcount w) n) (dw_parser w')) w') ;;
            again fuel
          else complain ReallocMsg ;; mret (Some 3)
        else mret None
      else
        w' ← get ;
        match tokens (dw_parser w') with
        | None => fail BadPointer
        | Some ts =>
            _ ← zoom dw_out set_out (dump (dw_js w') ts (S (length ts)) 0 (toknext (dw_parser w')) 0) ;
            modify (set_eof true) ;; mret None
        end
  end.

(** The loop; [input]: what the calls of [fread] return until it returns
    nothing. *)
Fixpoint read_loop (input : list chars) : M dworld Z :=
  let at_eof :=
    w ← get ;
    if dw_eof_expected w then mret 0 else complain EofMsg ;; mret 2 in
  match input with
  | [] => at_eof
  | buf :: input =>
      let r := Z.of_nat (length buf) in
      if r <? 0 then complain FreadMsg ;; mret 1
      else if r =? 0 then at_eof
      else
        w ← get ;
        let jslen := Z.of_nat (length (dw_js w)) in
        if alloc_ok H (jslen + r + 1) then
          modify (fun w => set_js (dw_js w ++ strncpy [] (until_nul buf) (length buf)) w) ;;
          s ← again 64 ;
          match s with
          | Some status => mret status
          | None => read_loop input
          end
        else complain ReallocMsg ;; mret 3
  end.

Definition main_init : dworld :=
  DWorld [] (jsmn_init (Some (new_toks 0 2))) 2 false [] [].

Definition dump_main (input : list chars) : res dworld Z :=
  if alloc_ok H (SIZEOF_TOK * 2) then read_loop input main_init
  else (complain MallocMsg ;; mret 3) (DWorld [] (jsmn_init None) 2 false [] []).

End Main.
End Jsondump.
