(* ===== verification/JsondumpSpec.v ===== *)
(** * What jsondump prints

    [dump] on the tokens of a JSON value prints the value, and [main] prints the
    document it reads. *)

From stdpp Require Import base tactics list strings.
From Stdlib Require Import ZArith Lia Ascii.
From S2P Require Import Prelude CString Jsmn JsmnSpec JsmnTree JsmnRoundtrip JsmnResume Jsondump.

Module JsondumpSpec.
Import CString Jsmn JsmnSpec JsmnTree JsmnRoundtrip JsmnResume Jsondump.

(** ** The rendering *)

Fixpoint spaces (n : nat) : chars := match n with O => [] | S n => lit "  " ++ spaces n end.

Definition in_quotes (s : chars) : chars := "'"%char :: s ++ ["'"%char].

Fixpoint yaml (indent : Z) (v : json) : chars :=
  match v with
  | JPrimitive s => s
  | JString s => in_quotes s
  | JArray _ vs => newline :: yaml_elements indent vs
  | JObject _ ms => newline :: yaml_members indent ms
  end
with yaml_elements (indent : Z) (vs : elements) : chars :=
  match vs with
  | ENil => []
  | ECons _ v _ vs =>
      spaces (Z.to_nat (indent - 1)) ++ lit "   - " ++ yaml (indent + 1) v ++
      newline :: yaml_elements indent vs
  end
with yaml_members (indent : Z) (ms : members) : chars :=
  match ms with
  | MNil => []
  | MCons _ k _ _ v _ ms =>
      spaces (Z.to_nat indent) ++ in_quotes k ++ lit ": " ++ yaml (indent + 1) v ++
      newline :: yaml_members indent ms
  end.

(** ** Printing *)

Lemma put_indent_eq n out : put_indent n out = Ret () (out ++ spaces n).
Proof.
  revert out. induction n as [|n IH]; intros out; cbn [put_indent spaces]; [by rewrite app_nil_r|].
  erewrite bind_Ret by done. by rewrite IH, <- app_assoc.
Qed.

Lemma put_text_eq js s pre post out :
  js = pre ++ s ++ post -> no_nul s -> put_text js (length s) (Zlen pre) out = Ret () (out ++ s).
Proof.
  revert pre out. induction s as [|c s IH]; intros pre out Hjs Hs; cbn [length put_text]; [by rewrite app_nil_r|].
  apply Forall_cons in Hs as [Hc Hs]. pose proof (Zlen_nonneg pre).
  rewrite (proj2 (Z.leb_le 0 _)), Zlen_nat by done. 
  assert (js !! length pre = Some c) as -> by (rewrite Hjs; by apply list_lookup_middle).
  destruct (Ascii.eqb_spec c NUL); [done|]. erewrite bind_Ret by done.
  replace (Zlen pre + 1) with (Zlen (pre ++ [c])) by zsolve.
  rewrite IH; [by rewrite <- app_assoc| |done]. rewrite Hjs. by rewrite <- app_assoc.
Qed.

Lemma put_token_text_eq js s pre post ty a e n out :
  js = pre ++ s ++ post -> no_nul s -> a = Zlen pre -> e = a + Zlen s ->
  put_token_text js (Tok ty a e n) out = Ret () (out ++ s).
Proof.
  intros Hjs Hs -> ->. unfold put_token_text. cbn [start tend].
  replace (Zlen pre + Zlen s - Zlen pre) with (Zlen s) by lia.
  rewrite (proj2 (Z.ltb_ge _ 0)), Zlen_nat by apply Zlen_nonneg. by eapply put_text_eq.
Qed.

Lemma primitive_no_nul s : primitive s = true -> no_nul s.
Proof.
  intros Hs. assert (forallb prim_char s = true) as Hp by (destruct s; [done|]; cbn [primitive] in Hs; by zbool).
  clear Hs. apply Forall_forall. intros c Hc ->. rewrite forallb_forall in Hp.
  apply list_elem_of_In in Hc. by specialize (Hp _ Hc).
Qed.

Lemma string_body_no_nul s : string_body s = true -> no_nul s.
Proof.
  induction s as [s IH] using (induction_ltof1 _ (@length ascii)); unfold ltof in IH. intros Hs.
  destruct s as [|c s1]; [constructor|]. cbn [string_body] in Hs.
  destruct (Ascii.eqb c quote); [done|]. destruct (Ascii.eqb_spec c NUL) as [|Hc]; [done|]. cbn [orb] in Hs.
  constructor; [done|]. destruct (Ascii.eqb c backslash); [|apply IH; [cbn; lia|done]].
  destruct s1 as [|e s2]; [done|]. assert (e <> NUL) as He by (by intros ->).
  constructor; [done|]. destruct (is_escape e); [apply IH; [cbn; lia|done]|].
  destruct (Ascii.eqb e "u"); [|done]. destruct s2 as [|h1 [|h2 [|h3 [|h4 s3]]]]; try done. zbool.
  repeat (constructor; [by apply not_hex_nul|]). apply IH; [cbn; lia|done].
Qed.

(** ** [dump] on the tokens of a value *)

Section Dump.
Variable js : chars.
Variable ts : list jsmntok_t.

Lemma token_at_eq A t rest out : ts = A ++ t :: rest -> token_at ts (Zlen A) out = Ret t out.
Proof.
  intros ->. unfold token_at. rewrite (proj2 (Z.leb_le 0 _)) by apply Zlen_nonneg. by rewrite lookup_Zlen.
Qed.

(** A string, as a value or a key. *)
Lemma dump_string fuel s pre post A rest count indent out n :
  js = pre ++ quoted s ++ post -> string_body s = true ->
  ts = A ++ Tok JSMN_STRING (Zlen pre + 1) (Zlen pre + 1 + Zlen s) n :: rest -> 0 < count ->
  dump js ts (S fuel) (Zlen A) count indent out = Ret 1 (out ++ in_quotes s).
Proof.
  intros Hjs Hs Hts Hc. cbn [dump]. rewrite (proj2 (Z.eqb_neq count 0)) by lia.
  erewrite bind_Ret by (by eapply token_at_eq). cbn [type]. erewrite bind_Ret by done.
  erewrite bind_Ret.
  2:{ eapply (put_token_text_eq js s (pre ++ [quote]) (quote :: post)); [|by apply string_body_no_nul|zsolve|done].
      rewrite Hjs. unfold quoted. by repeat (rewrite <- ?app_assoc; cbn [app]). }
  erewrite bind_Ret by done. unfold mret, M_ret, in_quotes. by rewrite <- !app_assoc.
Qed.

Definition value_dumps (v : json) : Prop := forall fuel pre post A rest count indent out,
  js = pre ++ text v ++ post -> wf v = true -> ts = A ++ toks (Zlen pre) v ++ rest ->
  ntoks v <= count < 2 ^ 64 -> ntoks v <= Z.of_nat fuel ->
  dump js ts fuel (Zlen A) count indent out = Ret (ntoks v) (out ++ yaml indent v).

Definition elements_dump (vs : elements) : Prop := forall fuel pre post A rest t count indent j out,
  js = pre ++ elements_text vs ++ post -> elements_wf vs = true ->
  ts = A ++ elements_toks (Zlen pre) vs ++ rest -> t + 1 + j = Zlen A ->
  0 <= j -> j + elements_ntoks vs <= count < 2 ^ 64 -> elements_ntoks vs <= Z.of_nat fuel ->
  dump_elements (fun t count => dump js ts fuel t count (indent + 1)) t count indent
    (Z.to_nat (nelements vs)) j out = Ret (j + elements_ntoks vs) (out ++ yaml_elements indent vs).

Definition members_dump (ms : members) : Prop := forall fuel pre post A rest t count indent j out,
  js = pre ++ members_text ms ++ post -> members_wf ms = true ->
  ts = A ++ members_toks (Zlen pre) ms ++ rest -> t + 1 + j = Zlen A ->
  0 <= j -> j + members_ntoks ms <= count < 2 ^ 64 -> members_ntoks ms <= Z.of_nat fuel ->
  dump_members (fun t count => dump js ts fuel t count (indent + 1)) t count indent
    (Z.to_nat (nmembers ms)) j out = Ret (j + members_ntoks ms) (out ++ yaml_members indent ms).

Lemma nelements_nonneg vs : 0 <= nelements vs.
Proof. induction vs; cbn; lia. Qed.

Lemma nmembers_nonneg ms : 0 <= nmembers ms.
Proof. induction ms; cbn; lia. Qed.

Lemma dump_elements_cons w1 v w2 vs : value_dumps v -> elements_dump vs -> elements_dump (ECons w1 v w2 vs).
Proof.
  intros IHv IH fuel pre post A rest t count indent j out Hjs Hwf Hts Ht Hj Hc Hf.
  cbn [elements_text elements_wf elements_ntoks elements_toks nelements yaml_elements] in *. zbool.
  pose proof (ntoks_nonneg v). pose proof (elements_ntoks_nonneg vs). pose proof (nelements_nonneg vs).
  replace (Z.to_nat (1 + nelements vs)) with (S (Z.to_nat (nelements vs))) by lia. cbn [dump_elements].
  erewrite bind_Ret by apply put_indent_eq. erewrite bind_Ret by done.
  rewrite Ht, wrap_small by lia.
  set (A1 := pre ++ w1). set (A2 := A1 ++ text v ++ w2 ++ esep vs).
  replace (Zlen pre + Zlen w1) with (Zlen A1) in Hts by (unfold A1; zsolve).
  replace (Zlen A1 + Zlen (text v) + Zlen w2 + Zlen (esep vs)) with (Zlen A2) in Hts by (unfold A2; zsolve).
  rewrite <- app_assoc in Hts.
  erewrite bind_Ret.
  2:{ eapply (IHv fuel A1); [|done|exact Hts|lia|lia]. rewrite Hjs. unfold A1. by rewrite <- !app_assoc. }
  erewrite bind_Ret by done.
  rewrite (IH fuel A2 post (A ++ toks (Zlen A1) v) rest t count).
  - unfold lit. f_equal; [lia|]. by repeat (rewrite <- ?app_assoc; cbn [app]).
  - rewrite Hjs. unfold A2, A1. by rewrite <- !app_assoc.
  - done.
  - rewrite Hts. by rewrite <- !app_assoc.
  - rewrite Zlen_app, Zlen_toks. lia.
  - lia.
  - lia.
  - lia.
Qed.

Lemma dump_members_cons w1 k w2 w3 v w4 ms :
  value_dumps v -> members_dump ms -> members_dump (MCons w1 k w2 w3 v w4 ms).
Proof.
  intros IHv IH fuel pre post A rest t count indent j out Hjs Hwf Hts Ht Hj Hc Hf.
  cbn [members_text members_wf members_ntoks members_toks nmembers yaml_members] in *. zbool. cbv zeta in Hts.
  pose proof (ntoks_nonneg v). pose proof (members_ntoks_nonneg ms). pose proof (nmembers_nonneg ms).
  replace (Z.to_nat (1 + nmembers ms)) with (S (Z.to_nat (nmembers ms))) by lia. cbn [dump_members].
  erewrite bind_Ret by apply put_indent_eq. rewrite Ht, wrap_small by lia.
  set (A1 := pre ++ w1). set (A2 := A1 ++ quoted k ++ w2 ++ ":"%char :: w3).
  set (A3 := A2 ++ text v ++ w4 ++ msep ms).
  replace (Zlen pre + Zlen w1) with (Zlen A1) in Hts by (unfold A1; zsolve).
  replace (Zlen A1 + Zlen (quoted k) + Zlen w2 + 1 + Zlen w3) with (Zlen A2) in Hts by (unfold A2; zsolve).
  replace (Zlen A2 + Zlen (text v) + Zlen w4 + Zlen (msep ms)) with (Zlen A3) in Hts by (unfold A3; zsolve).
  cbn [app] in Hts. rewrite <- app_assoc in Hts. destruct fuel as [|fuel]; [lia|].
  set (key := Tok JSMN_STRING (Zlen A1 + 1) (Zlen A1 + 1 + Zlen k) 1) in *.
  erewrite bind_Ret.
  2:{ eapply (dump_string fuel k A1); [|done|exact Hts|lia]. rewrite Hjs. unfold A1. by rewrite <- !app_assoc. }
  erewrite bind_Ret by done. rewrite wrap_small by lia.
  replace (t + 1 + (j + 1)) with (Zlen (A ++ [key])) by zsolve.
  erewrite bind_Ret.
  2:{ eapply (IHv (S fuel) A2 (w4 ++ msep ms ++ members_text ms ++ post) (A ++ [key])
        (members_toks (Zlen A3) ms ++ rest)); [|done| |lia|lia].
      - rewrite Hjs. unfold A2, A1. by repeat (rewrite <- ?app_assoc; cbn [app]).
      - rewrite Hts. by rewrite <- app_assoc. }
  erewrite bind_Ret by done.
  rewrite (IH (S fuel) A3 post (A ++ [key] ++ toks (Zlen A2) v) rest t count).
  - unfold lit. f_equal; [lia|]. by repeat (rewrite <- ?app_assoc; cbn [app]).
  - rewrite Hjs. unfold A3, A2, A1. by repeat (rewrite <- ?app_assoc; cbn [app]).
  - done.
  - rewrite Hts. by repeat (rewrite <- ?app_assoc; cbn [app]).
  - rewrite !Zlen_app, Zlen_toks. change (Zlen [key]) with 1. lia.
  - lia.
  - lia.
  - lia.
Qed.

Lemma dump_array w vs : elements_dump vs -> value_dumps (JArray w vs).
Proof.
  intros IH fuel pre post A rest count indent out Hjs Hwf Hts Hc Hf. cbn [text wf ntoks toks yaml] in *. zbool.
  pose proof (elements_ntoks_nonneg vs). destruct fuel as [|fuel]; [lia|]. cbn [dump].
  rewrite (proj2 (Z.eqb_neq count 0)) by lia. cbn [app] in Hts.
  erewrite bind_Ret by (by eapply token_at_eq). cbn [type size]. erewrite bind_Ret by done.
  erewrite bind_Ret.
  2:{ eapply (IH fuel (pre ++ "["%char :: w) ("]"%char :: post) (A ++ [_]) rest (Zlen A) count indent 0).
      - rewrite Hjs. by repeat (rewrite <- ?app_assoc; cbn [app]).
      - done.
      - rewrite Hts, <- app_assoc. cbn [app]. do 4 f_equal. zsolve.
      - zsolve.
      - done.
      - lia.
      - lia. }
  unfold mret, M_ret. rewrite <- app_assoc. f_equal. lia.
Qed.

Lemma dump_object w ms : members_dump ms -> value_dumps (JObject w ms).
Proof.
  intros IH fuel pre post A rest count indent out Hjs Hwf Hts Hc Hf. cbn [text wf ntoks toks yaml] in *. zbool.
  pose proof (members_ntoks_nonneg ms). destruct fuel as [|fuel]; [lia|]. cbn [dump].
  rewrite (proj2 (Z.eqb_neq count 0)) by lia. cbn [app] in Hts.
  erewrite bind_Ret by (by eapply token_at_eq). cbn [type size]. erewrite bind_Ret by done.
  erewrite bind_Ret.
  2:{ eapply (IH fuel (pre ++ "{"%char :: w) ("}"%char :: post) (A ++ [_]) rest (Zlen A) count indent 0).
      - rewrite Hjs. by repeat (rewrite <- ?app_assoc; cbn [app]).
      - done.
      - rewrite Hts, <- app_assoc. cbn [app]. do 4 f_equal. zsolve.
      - zsolve.
      - done.
      - lia.
      - lia. }
  unfold mret, M_ret. rewrite <- app_assoc. f_equal. lia.
Qed.

Lemma all_dump : (forall v, value_dumps v) /\ (forall vs, elements_dump vs) /\ (forall ms, members_dump ms).
Proof.
  apply json_elements_members_ind.
  - intros s fuel pre post A rest count indent out Hjs Hwf Hts Hc Hf. cbn [text wf ntoks toks yaml] in *.
    destruct fuel as [|fuel]; [lia|]. cbn [dump]. rewrite (proj2 (Z.eqb_neq count 0)) by lia.
    erewrite bind_Ret by (by eapply token_at_eq). cbn [type].
    by erewrite bind_Ret by (eapply (put_token_text_eq js s pre post); [done|by apply primitive_no_nul|done|done]).
  - intros s fuel pre post A rest count indent out Hjs Hwf Hts Hc Hf. cbn [text wf ntoks toks yaml] in *.
    destruct fuel as [|fuel]; [lia|]. eapply dump_string; [done|done|exact Hts|lia].
  - apply dump_array.
  - apply dump_object.
  - intros fuel pre post A rest t count indent j out _ _ _ _ _ _ _.
    cbn. unfold mret, M_ret. by rewrite app_nil_r, Z.add_0_r.
  - intros w1 v IHv w2 vs IHvs. by apply dump_elements_cons.
  - intros fuel pre post A rest t count indent j out _ _ _ _ _ _ _.
    cbn. unfold mret, M_ret. by rewrite app_nil_r, Z.add_0_r.
  - intros w1 k w2 w3 v IHv w4 ms IHms. by apply dump_members_cons.
Qed.
End Dump.

(** C40: [dump] prints the tree: on the tokens of a JSON value, wherever the value
    stands in the text and its tokens in the array, it prints the rendering
    of the value and returns how many tokens it took, which are all of them. *)
Theorem dump_prints_tree (js pre post : chars) (v : json) (ts A rest : list jsmntok_t)
    (fuel : nat) (count indent : Z) (out : chars) :
  js = pre ++ text v ++ post -> wf v = true -> ts = A ++ toks (Zlen pre) v ++ rest ->
  ntoks v <= count < 2 ^ 64 -> ntoks v <= Z.of_nat fuel ->
  dump js ts fuel (Zlen A) count indent out = Ret (ntoks v) (out ++ yaml indent v).
Proof. apply all_dump. Qed.

Lemma dump_prints_tree_witness :
  dump (document [" "%char] sample []) (document_toks [" "%char] sample []) 7 0 7 0 [] =
    Ret 7 (newline :: lit "'a': " ++ newline :: lit "   - 1" ++ newline :: lit "   - " ++ newline :: newline ::
      newline :: in_quotes (backslash :: lit "u00e9") ++ lit ": 'x'" ++ [newline]).
Proof.
  apply (dump_prints_tree _ [" "%char] [] sample _ [] [] 7 7 0 []); vm_compute; done.
Defined.

(** ** Termination of [dump] *)

(** It ends, with a count that is not negative if it returns. *)
Definition ends (r : res chars Z) : Prop :=
  match r with Ret d _ => 0 <= d | Block _ => False | _ => True end.

Definition ends' {A : Type} (r : res chars A) : Prop :=
  match r with Block _ => False | _ => True end.

Lemma ends_bind {A : Type} (m : M chars A) (k : A -> M chars Z) out :
  ends' (m out) -> (forall a out', ends (k a out')) -> ends ((m ≫= k) out).
Proof. intros Hm Hk. unfold mbind, M_bind. destruct (m out); done || apply Hk. Qed.

Lemma ends_rec (m : M chars Z) (k : Z -> M chars Z) out :
  ends (m out) -> (forall d out', 0 <= d -> ends (k d out')) -> ends ((m ≫= k) out).
Proof. intros Hm Hk. unfold mbind, M_bind. destruct (m out); try done; by apply Hk. Qed.

Lemma put_text_ends js n i out : ends' (put_text js n i out).
Proof.
  revert i out. induction n as [|n IH]; intros i out; cbn [put_text]; [done|].
  destruct (if 0 <=? i then _ else _); [|done]. destruct (Ascii.eqb a NUL); [done|]. apply IH.
Qed.

Lemma put_token_text_ends js t out : ends' (put_token_text js t out).
Proof. unfold put_token_text. destruct (_ <? 0); [done|]. apply put_text_ends. Qed.

Lemma put_indent_ends n out : ends' (put_indent n out).
Proof. by rewrite put_indent_eq. Qed.

Lemma dump_members_ends rec t count indent n j out :
  (forall t' c out', t < t' -> ends (rec t' c out')) -> 0 <= j ->
  ends (dump_members rec t count indent n j out).
Proof.
  intros Hrec. revert j out. induction n as [|n IH]; intros j out Hj; cbn [dump_members]; [done|].
  apply ends_bind; [apply put_indent_ends|]. intros _ out1.
  apply ends_rec; [apply Hrec; lia|]. intros d out2 Hd. apply ends_bind; [done|]. intros _ out3.
  apply ends_rec; [apply Hrec; lia|]. intros d' out4 Hd'. apply ends_bind; [done|]. intros _ out5. apply IH. lia.
Qed.

Lemma dump_elements_ends rec t count indent n j out :
  (forall t' c out', t < t' -> ends (rec t' c out')) -> 0 <= j ->
  ends (dump_elements rec t count indent n j out).
Proof.
  intros Hrec. revert j out. induction n as [|n IH]; intros j out Hj; cbn [dump_elements]; [done|].
  apply ends_bind; [apply put_indent_ends|]. intros _ out1. apply ends_bind; [done|]. intros _ out2.
  apply ends_rec; [apply Hrec; lia|]. intros d out3 Hd. apply ends_bind; [done|]. intros _ out4. apply IH. lia.
Qed.

Lemma dump_ends_from js ts fuel t count indent out :
  Zlen ts - t < Z.of_nat fuel -> 0 < Z.of_nat fuel -> ends (dump js ts fuel t count indent out).
Proof.
  revert t count indent out. induction fuel as [|fuel IH]; intros t count indent out Hf Hf0; [lia|]. cbn [dump].
  destruct (count =? 0); [done|]. unfold mbind at 1, M_bind at 1. unfold token_at.
  destruct (0 <=? t) eqn:Ht; zbool; [|done]. destruct (ts !! Z.to_nat t) as [tk|] eqn:Hlk; [|done].
  apply lookup_lt_Some in Hlk. unfold Zlen in Hf.
  assert (forall t' c out', t < t' -> ends (dump js ts fuel t' c (indent + 1) out')) as Hrec.
  { intros t' c out' Ht'. apply IH; unfold Zlen; lia. }
  destruct (type tk).
  - apply ends_bind; [apply put_token_text_ends|done].
  - apply ends_bind; [done|]. intros _ out1. apply ends_rec; [by apply dump_members_ends|].
    intros d out2 Hd. cbn. lia.
  - apply ends_bind; [done|]. intros _ out1. apply ends_rec; [by apply dump_elements_ends|].
    intros d out2 Hd. cbn. lia.
  - apply ends_bind; [done|]. intros _ out1. apply ends_bind; [apply put_token_text_ends|].
    intros _ out2. by apply ends_bind.
Qed.

(** On any array of tokens, also one that does not come from the tokenizer, [dump]
    does not run out of fuel: it returns, or it reads outside the array or the
    text, and then the model stops; its recursion up to there is never deeper than
    the array is long. *)
Theorem dump_ends (js : chars) (ts : list jsmntok_t) (count indent : Z) (out : chars) :
  ends (dump js ts (S (length ts)) 0 count indent out).
Proof. apply dump_ends_from; unfold Zlen; lia. Qed.

(** ** [main] *)

(** Every token has a character of its own. *)
Lemma ntoks_text_all :
  (forall v, wf v = true -> ntoks v <= Zlen (text v)) /\
  (forall vs, elements_wf vs = true -> elements_ntoks vs <= Zlen (elements_text vs)) /\
  (forall ms, members_wf ms = true -> members_ntoks ms <= Zlen (members_text ms)).
Proof.
  apply json_elements_members_ind; intros;
    cbn [wf elements_wf members_wf ntoks elements_ntoks members_ntoks text elements_text members_text] in *;
    zbool; unfold quoted in *;
    repeat match goal with H : ?a = true -> _, H' : ?a = true |- _ => specialize (H H') end; try zsolve.
  destruct s; [done|zsolve].
Qed.

Lemma ntoks_document w1 v w2 : wf v = true -> ntoks v <= Zlen (document w1 v w2).
Proof. intros Hv. pose proof (proj1 ntoks_text_all v Hv). unfold document. zsolve. Qed.

Lemma no_nul_app s1 s2 : no_nul s1 -> no_nul s2 -> no_nul (s1 ++ s2).
Proof. intros. by apply Forall_app. Qed.

Lemma no_nul_cons c s : c <> NUL -> no_nul s -> no_nul (c :: s).
Proof. intros. by apply Forall_cons. Qed.

Lemma white_no_nul w : white w = true -> no_nul w.
Proof.
  intros Hw. apply Forall_forall. intros c Hc ->. unfold white in Hw. rewrite forallb_forall in Hw.
  apply list_elem_of_In in Hc. by specialize (Hw _ Hc).
Qed.

Lemma quoted_no_nul s : string_body s = true -> no_nul (quoted s).
Proof.
  intros Hs%string_body_no_nul. apply no_nul_cons; [done|]. apply no_nul_app; [done|]. apply no_nul_cons; [done|constructor].
Qed.

Create HintDb no_nul.
#[local] Hint Resolve no_nul_app white_no_nul quoted_no_nul primitive_no_nul : no_nul.
#[local] Hint Extern 1 (no_nul (_ :: _)) => apply no_nul_cons; [done|] : no_nul.
#[local] Hint Extern 1 (no_nul []) => constructor : no_nul.

Lemma text_no_nul_all :
  (forall v, wf v = true -> no_nul (text v)) /\
  (forall vs, elements_wf vs = true -> no_nul (elements_text vs)) /\
  (forall ms, members_wf ms = true -> no_nul (members_text ms)).
Proof.
  assert (forall vs, no_nul (esep vs)) by (intros []; cbn; auto with no_nul).
  assert (forall ms, no_nul (msep ms)) by (intros []; cbn; auto with no_nul).
  apply json_elements_members_ind; intros;
    cbn [wf elements_wf members_wf text elements_text members_text] in *; zbool; auto 12 with no_nul.
Qed.

Lemma document_no_nul w1 v w2 :
  white w1 = true -> wf v = true -> white w2 = true -> no_nul (document w1 v w2).
Proof. intros. unfold document. pose proof (proj1 text_no_nul_all v). auto with no_nul. Qed.

Lemma until_nul_all s : no_nul s -> until_nul s = s.
Proof.
  induction 1 as [|c s Hc Hs IH]; cbn; [done|]. destruct (Ascii.eqb_spec c NUL); [done|]. by rewrite IH.
Qed.

Lemma copy_all s : no_nul s -> strncpy [] (until_nul s) (length s) = s.
Proof. intros Hs. unfold strncpy. by rewrite until_nul_all, take_app_length, drop_nil, app_nil_r. Qed.

Lemma shift_Ret d x k p : shift d x = Ret k p -> 0 <= k -> exists r, x = Ret r p /\ 0 <= r.
Proof.
  destruct x as [r p'| | |]; cbn; try done. intros [= Hk ->] H0. exists r. split; [done|].
  destruct (r <? 0) eqn:E; zbool; lia.
Qed.

Lemma shift_error d x k p : shift d x = Ret k p -> 0 <= d -> k < 0 -> x = Ret k p.
Proof.
  destruct x as [r p'| | |]; cbn; try done. intros [= Hk ->] Hd H0.
  destruct (r <? 0) eqn:E; zbool; [by subst|lia].
Qed.

Section Main.
Variable H : Heap.
Variables w1 w2 : chars.
Variable v : json.
Hypothesis Hw1 : white w1 = true.
Hypothesis Hw2 : white w2 = true.
Hypothesis Hwf : wf v = true.

Abbreviation doc := (document w1 v w2).

Hypothesis doc_fits : 0 < Zlen doc <= BUFSIZ.
Hypothesis room : forall n, n <= 2 ^ 18 -> alloc_ok H n = true.

Lemma Zlen_new n m : 0 <= n <= m -> Zlen (new_toks H n m) = m - n.
Proof. intros Hn. unfold Zlen, new_toks. rewrite length_fmap, length_seq. lia. Qed.

Lemma new_toks_app n m : 0 <= n <= m -> new_toks H 0 n ++ new_toks H n m = new_toks H 0 m.
Proof.
  intros Hn. unfold new_toks. rewrite <- fmap_app. f_equal.
  replace (Z.to_nat (m - 0)) with (Z.to_nat (n - 0) + Z.to_nat (m - n))%nat by lia.
  rewrite seq_app. do 2 f_equal. lia.
Qed.

(** The parser [p] will end as one that had started with its [n] tokens. *)
Definition on_track (n d : Z) (p : jsmn_parser) : Prop :=
  0 <= d /\ jsmn_parse doc n (jsmn_init (Some (new_toks H 0 n))) = shift d (jsmn_parse doc n p).

Lemma track_more n d p :
  2 <= n < ntoks v -> on_track n d p ->
  exists p', jsmn_parse doc n p = Ret JSMN_ERROR_NOMEM p' /\
    exists d', on_track (n * 2) d' (more (new_toks H n (n * 2)) p').
Proof.
  intros Hn [Hd Ht]. pose proof (ntoks_document w1 v w2 Hwf). unfold BUFSIZ in *.
  assert (Zlen (new_toks H 0 n) = n) as El by (rewrite Zlen_new; lia).
  destruct (document_nomem w1 v w2 n (new_toks H 0 n)) as [p' E]; [done..|lia|done|lia|].
  exists p'. split; [rewrite E in Ht; by apply (shift_error d _ _ _ (eq_sym Ht))|].
  assert (n * 2 = n + Zlen (new_toks H n (n * 2))) as En by (rewrite Zlen_new; lia).
  destruct (parse_again doc n (new_toks H n (n * 2)) (jsmn_init (Some (new_toks H 0 n))) (new_toks H 0 n) p')
    as [[ts Hi] Hs]; [unfold Zlen in *; lia|lia|lia|by apply (init_inv doc n)|done|].
  rewrite <- En in Hs. exists (toknext p' - toknext (jsmn_init (Some (new_toks H 0 n)))). split.
  - pose proof (iv_next _ _ _ _ _ Hi). cbn. lia.
  - rewrite <- Hs. unfold more. cbn [jsmn_init tokens fmap option_fmap option_map pos toknext toksuper].
    by rewrite new_toks_app by lia.
Qed.

(** There is room: the document is printed. *)
Lemma again_fits fuel n d w :
  2 <= n < 2 * BUFSIZ -> ntoks v <= n -> dw_tokcount w = n -> dw_js w = doc -> on_track n d (dw_parser w) ->
  exists w', again H (S fuel) w = Ret None w' /\
    dw_out w' = dw_out w ++ yaml 0 v /\ dw_err w' = dw_err w /\ dw_eof_expected w' = true.
Proof.
  intros Hn Hfit Htc Hjs [Hd Ht]. unfold BUFSIZ in *. pose proof (ntoks_nonneg v).
  rewrite (parse_document w1 v w2 n) in Ht by (done || lia || (rewrite Zlen_new; lia)).
  destruct (shift_Ret d _ _ _ (eq_sym Ht)) as (r & Er & Hr); [done|].
  cbn [again]. erewrite bind_Ret by done. rewrite Htc, Hjs, (wrap_small 32 n) by lia.
  erewrite bind_Ret by (by apply zoom_Ret). rewrite (proj2 (Z.ltb_ge r 0)) by lia. erewrite bind_Ret by done.
  cbn [dw_parser set_parser tokens dw_js toknext]. rewrite Hjs.
  set (ts := document_toks w1 v (new_toks H 0 n)).
  erewrite bind_Ret.
  2:{ apply zoom_Ret. eapply (proj1 (all_dump doc ts) v _ w1 w2 [] (Zdrop (ntoks v) (new_toks H 0 n)));
        [done|done|done|lia|].
      assert (Zlen ts = n) as El; [|unfold Zlen in El; lia].
      unfold ts, document_toks. rewrite Zlen_app, Zlen_toks, Zlen_drop; rewrite Zlen_new; lia. }
  erewrite bind_Ret by done. eexists. split; [reflexivity|]. done.
Qed.

(** There is none: the array is doubled. *)
Lemma again_grows fuel n d w :
  2 <= n < ntoks v -> dw_tokcount w = n -> dw_js w = doc -> on_track n d (dw_parser w) ->
  exists w' d', again H (S fuel) w = again H fuel w' /\ dw_tokcount w' = n * 2 /\ dw_js w' = doc /\
    on_track (n * 2) d' (dw_parser w') /\ dw_out w' = dw_out w /\ dw_err w' = dw_err w.
Proof.
  intros Hn Htc Hjs Htr. pose proof (ntoks_document w1 v w2 Hwf) as Hnt. unfold BUFSIZ in *.
  destruct (track_more n d (dw_parser w) Hn Htr) as (p' & E & d' & Htr').
  cbn [again]. erewrite bind_Ret by done. rewrite Htc, Hjs, (wrap_small 32 n), (wrap_small 64 (n * 2)), (wrap_small 64 (SIZEOF_TOK * _))
    by (unfold SIZEOF_TOK; lia).
  erewrite bind_Ret by (by apply zoom_Ret). change (JSMN_ERROR_NOMEM <? 0) with true.
  change (JSMN_ERROR_NOMEM =? JSMN_ERROR_NOMEM) with true. cbv iota zeta. erewrite bind_Ret by done.
  rewrite room by (unfold SIZEOF_TOK; lia). erewrite bind_Ret by done.
  eexists _, d'. split; [reflexivity|]. done.
Qed.

Lemma again_document fuel n d w :
  2 <= n < 2 * BUFSIZ -> dw_tokcount w = n -> dw_js w = doc -> on_track n d (dw_parser w) ->
  ntoks v <= n * 2 ^ (Z.of_nat fuel) ->
  exists w', again H (S fuel) w = Ret None w' /\
    dw_out w' = dw_out w ++ yaml 0 v /\ dw_err w' = dw_err w /\ dw_eof_expected w' = true.
Proof.
  pose proof (ntoks_document w1 v w2 Hwf) as Hnt.
  revert n d w. induction fuel as [|fuel IH]; intros n d w Hn Htc Hjs Htr Hf;
    (destruct (decide (ntoks v <= n)) as [Hfit|Hfit]; [by eapply again_fits|]); [lia|].
  destruct (again_grows (S fuel) n d w) as (w' & d' & -> & Htc' & Hjs' & Htr' & Ho & He); [lia|done..|].
  destruct (IH (n * 2) d' w') as (w'' & Hr & Ho' & He' & Heof); [lia|done|done|done| |].
  - replace (Z.of_nat (S fuel)) with (Z.of_nat fuel + 1) in Hf by lia. rewrite Z.pow_add_r in Hf by lia. lia.
  - exists w''. by rewrite Ho', He', Ho, He.
Qed.

End Main.

(** C26: [main] of jsondump prints a document that one [fread] delivers: given
    one JSON value of at most [BUFSIZ] (8192) bytes with any white space around and
    in it, which the first [fread] returns as a whole, and memory for the tokens,
    it prints exactly the rendering of the value, writes nothing
    to the standard error output and ends with status 0, however often the array
    of tokens has to be doubled on the way. *)
Theorem dump_main_prints (H : Heap) (w1 w2 : chars) (v : json) :
  white w1 = true -> wf v = true -> white w2 = true -> Zlen (document w1 v w2) <= BUFSIZ ->
  (forall n, n <= 2 ^ 18 -> alloc_ok H n = true) ->
  exists w, dump_main H [document w1 v w2] = Ret 0 w /\ dw_out w = yaml 0 v /\ dw_err w = [].
Proof.
  intros Hw1 Hwf Hw2 Hlen Hroom. pose proof (ntoks_document w1 v w2 Hwf) as Hnt.
  assert (0 < Zlen (document w1 v w2)) as Hpos.
  { assert (1 <= ntoks v) as Hone; [|lia]. destruct v; cbn [ntoks]; [lia|lia| |].
    - pose proof (elements_ntoks_nonneg vs). lia.
    - pose proof (members_ntoks_nonneg ms). lia. }
  unfold dump_main. rewrite Hroom by (unfold SIZEOF_TOK; lia). cbn [read_loop].
  change (Z.of_nat (length (document w1 v w2))) with (Zlen (document w1 v w2)).
  rewrite (proj2 (Z.ltb_ge _ 0)), (proj2 (Z.eqb_neq _ 0)) by lia. erewrite bind_Ret by done.
  cbn [main_init dw_js length]. rewrite Hroom by (unfold BUFSIZ in *; cbn; lia). erewrite bind_Ret by done.
  rewrite copy_all by (by apply document_no_nul). cbn [app].
  destruct (again_document H w1 w2 v Hw1 Hw2 Hwf ltac:(lia) Hroom 63 2 0
    (set_js (document w1 v w2) (main_init H))) as (w & Hr & Ho & He & Heof).
  - unfold BUFSIZ. lia.
  - done.
  - done.
  - split; [done|]. cbn [set_js main_init dw_parser].
    destruct (jsmn_parse (document w1 v w2) 2 (jsmn_init (Some (new_toks H 0 2)))) as [r p| | |]; try done.
    cbn. rewrite Z.add_0_r. by destruct (r <? 0).
  - unfold BUFSIZ in Hlen. lia.
  - erewrite bind_Ret by exact Hr. cbn [read_loop]. erewrite bind_Ret by done. rewrite Heof.
    exists w. by rewrite Ho, He.
Qed.

(** Everything can be allocated; new tokens are not initialised. *)
Definition roomy : Heap := {| alloc_ok := fun n => n <=? 2 ^ 18; junk := fun i => Tok JSMN_STRING (Z.of_nat i) 0 0 |}.

Lemma dump_main_prints_witness :
  exists w, dump_main roomy [document [" "%char] sample [newline]] = Ret 0 w /\
    dw_out w = newline :: lit "'a': " ++ newline :: lit "   - 1" ++ newline :: lit "   - " ++ newline :: newline ::
      newline :: in_quotes (backslash :: lit "u00e9") ++ lit ": 'x'" ++ [newline] /\ dw_err w = [].
Proof.
  apply (dump_main_prints roomy [" "%char] [newline] sample); [done|done|done|vm_compute; discriminate|].
  intros n Hn. cbn [alloc_ok roomy]. apply Z.leb_le. exact Hn.
Defined.

(** ** Where the programs do not do what they mean to *)

(** A key without a value: [dump] hands the value [count - j] tokens, one more
    than there are, and reads the token past the end of the array. *)
Theorem dump_overruns : dump_main roomy [lit "{a}"] = Fault OutOfBounds.
Proof. vm_compute. reflexivity. Qed.

(** A full buffer of input that ends with the given text, for the smallest
    [BUFSIZ] that the C standard allows. *)
Definition chunk (s : chars) : chars := replicate (256 - length s) " "%char ++ s.

(** When a document ends with the buffer, more input, be it white space only,
    prints the document once more. *)
Theorem dump_prints_twice :
  exists w, dump_main roomy [chunk (lit "[1]"); [newline]] = Ret 0 w /\
    dw_out w = yaml 0 (JArray [] (ECons [] (JPrimitive (lit "1")) [] ENil)) ++
      yaml 0 (JArray [] (ECons [] (JPrimitive (lit "1")) [] ENil)).
Proof.
  assert (match dump_main roomy [chunk (lit "[1]"); [newline]] with
          | Ret r w => Some (r, dw_out w) | _ => None end =
    Some (0, newline :: lit "   - 1" ++ newline :: newline :: lit "   - 1" ++ [newline])) as E
    by (vm_compute; reflexivity).
  destruct (dump_main roomy _) as [r w| | |]; try done. injection E as -> Ho. by exists w.
Qed.

(** A number that is cut in two by the end of the buffer becomes two numbers. *)
Theorem dump_splits_primitives :
  exists w, dump_main roomy [chunk (lit "[12"); lit "34]"] = Ret 0 w /\
    dw_out w = newline :: lit "   - 12" ++ newline :: lit "   - 34" ++ [newline].
Proof.
  assert (match dump_main roomy [chunk (lit "[12"); lit "34]"] with
          | Ret r w => Some (r, dw_out w) | _ => None end =
    Some (0, newline :: lit "   - 12" ++ newline :: lit "   - 34" ++ [newline])) as E
    by (vm_compute; reflexivity).
  destruct (dump_main roomy _) as [r w| | |]; try done. injection E as -> Ho. by exists w.
Qed.

End JsondumpSpec.
