(* ===== verification/JsmnSimple.v ===== *)
(** * The example program simple.c

    zserge-jsmn/example/simple.c: [jsoneq] and [main], which prints the values of
    the known keys of a JSON object. *)

From stdpp Require Import base tactics list strings.
From Stdlib Require Import ZArith Lia Ascii.
From S2P Require Import Prelude CString Jsmn JsmnSpec JsmnTree JsmnRoundtrip Jsondump JsondumpSpec.

Module JsmnSimple.
Import CString Jsmn JsmnTree JsmnRoundtrip Jsondump JsondumpSpec.

(** ** C strings

    A string constant is the list of its characters; a NUL follows. *)

(** [strncmp(a, b, n) == 0] *)
Fixpoint strncmp_eq (a b : chars) (n : nat) {struct n} : bool :=
  match n with
  | O => true
  | S n =>
      match a, b with
      | [], [] => true
      | x :: a, y :: b => Ascii.eqb x y && strncmp_eq a b n
      | _, _ => false
      end
  end.

(** [printf("%.*s", n, js + i)] *)
Fixpoint put_cstr (js : chars) (n : nat) (i : Z) : M chars () :=
  match n with
  | O => mret ()
  | S n =>
      if (0 <=? i) && (i <=? Z.of_nat (length js)) then
        match js !! Z.to_nat i with
        | None => mret ()
        | Some c => if Ascii.eqb c NUL then mret () else put [c] ;; put_cstr js n (i + 1)
        end
      else fail OutOfBounds
  end.

(** A negative precision counts as none. *)
Definition put_field (js : chars) (t : jsmntok_t) : M chars () :=
  if tend t - start t <? 0 then put_cstr js (S (length js)) (start t)
  else put_cstr js (Z.to_nat (tend t - start t)) (start t).

Definition print_int (n : Z) : chars := if n <? 0 then "-"%char :: print_u (- n) else print_u n.

(** ** [jsoneq] *)

Definition jsoneq (json : chars) (tok : jsmntok_t) (s : chars) : M chars Z :=
  if bool_decide (type tok = JSMN_STRING) && (Z.of_nat (length s) =? tend tok - start tok) then
    if (0 <=? start tok) && (start tok <=? Z.of_nat (length json)) then
      if strncmp_eq (drop (Z.to_nat (start tok)) json) s (Z.to_nat (tend tok - start tok)) then mret 0
      else mret (-1)
    else fail OutOfBounds
  else mret (-1).

(** ** [main] *)

Section Main.
Variable js : chars.
(** The array [t]. *)
Variable ts : list jsmntok_t.

(** [printf("- Name: %.*s\n", ...)] for the token at [i] *)
Definition put_line (label : chars) (i : Z) : M chars () :=
  v ← token_at ts i ;
  put label ;; put_field js v ;; put [newline].

(** The loop over the groups, [n] of them left, the next one at [g] *)
Fixpoint put_groups (n : nat) (g : Z) : M chars () :=
  match n with
  | O => mret ()
  | S n => put_line (lit "  * ") g ;; put_groups n (g + 1)
  end.

(** The loop over the keys, from token [i] on; [fuel] bounds the rounds. *)
Fixpoint keys_loop (fuel : nat) (r i : Z) : M chars () :=
  match fuel with
  | O => block
  | S fuel =>
      if i <? r then
        k ← token_at ts i ;
        e ← jsoneq js k (lit "user") ;
        if e =? 0 then put_line (lit "- User: ") (i + 1) ;; keys_loop fuel r (i + 2)
        else
          e ← jsoneq js k (lit "admin") ;
          if e =? 0 then put_line (lit "- Admin: ") (i + 1) ;; keys_loop fuel r (i + 2)
          else
            e ← jsoneq js k (lit "uid") ;
            if e =? 0 then put_line (lit "- UID: ") (i + 1) ;; keys_loop fuel r (i + 2)
            else
              e ← jsoneq js k (lit "groups") ;
              if e =? 0 then
                put (lit "- Groups:" ++ [newline]) ;;
                v ← token_at ts (i + 1) ;
                if bool_decide (type v <> JSMN_ARRAY) then keys_loop fuel r (i + 1)
                else
                  put_groups (Z.to_nat (size v)) (i + 2) ;;
                  keys_loop fuel r (i + (size v + 1) + 1)
              else
                put_line (lit "Unexpected key: ") i ;; keys_loop fuel r (i + 1)
      else mret ()
  end.
End Main.

(** [main] on the text [js]; [mem]: what the 128 tokens on the stack held. *)
Definition simple_main (js : chars) (mem : list jsmntok_t) : res chars Z :=
  match jsmn_parse js 128 (jsmn_init (Some mem)) with
  | Ret r p =>
      match tokens p with
      | Some ts =>
          (if r <? 0 then
             put (lit "Failed to parse JSON: " ++ print_int r ++ [newline]) ;; mret 1
           else if r <? 1 then put (lit "Object expected" ++ [newline]) ;; mret 1
           else
             t0 ← token_at ts 0 ;
             if bool_decide (type t0 <> JSMN_OBJECT) then
               put (lit "Object expected" ++ [newline]) ;; mret 1
             else keys_loop js ts (S (Z.to_nat r)) r 1 ;; mret 0) []
      | None => Fault BadPointer
      end
  | Throw _ => Throw []
  | Fault f => Fault f
  | Block _ => Block []
  end.

(** ** [jsoneq] compares the text of a string *)

Lemma strncmp_eq_spec x post s : length x = length s -> strncmp_eq (x ++ post) s (length s) = bool_decide (x = s).
Proof.
  revert s. induction x as [|c x IH]; intros [|d s] Hl; cbn in Hl; try lia.
  { done. }
  cbn. rewrite IH by lia. destruct (Ascii.eqb_spec c d) as [->|Hne]; cbn.
  - apply bool_decide_ext. naive_solver.
  - symmetry. apply bool_decide_eq_false. naive_solver.
Qed.

(** [jsoneq] answers 0 exactly for a string token whose text is the given
    string. *)
Theorem jsoneq_spec (pre x post s : chars) (ty : jsmntype_t) (n : Z) (out : chars) :
  jsoneq (pre ++ x ++ post) (Tok ty (Zlen pre) (Zlen pre + Zlen x) n) s out =
    Ret (if bool_decide (ty = JSMN_STRING /\ x = s) then 0 else -1) out.
Proof.
  unfold jsoneq. cbn [type start tend]. replace (Zlen pre + Zlen x - Zlen pre) with (Zlen x) by lia.
  destruct (decide (ty = JSMN_STRING)) as [Hty|Hty].
  2:{ rewrite (bool_decide_false (ty = _)) by done. by rewrite bool_decide_false by naive_solver. }
  rewrite (bool_decide_true (ty = _)) by done. cbn [andb]. change (Z.of_nat (length s)) with (Zlen s).
  destruct (Zlen s =? Zlen x) eqn:El; zbool.
  - change (Z.of_nat (length ?l)) with (Zlen l).
    rewrite (proj2 (Z.leb_le 0 _)), (proj2 (Z.leb_le _ (Zlen (_ ++ _)))) by zsolve. cbn [andb].
    rewrite Zlen_nat, drop_app_length, <- El, Zlen_nat, strncmp_eq_spec by (unfold Zlen in El; lia).
    destruct (decide (x = s)) as [Hx|Hx].
    + by rewrite !bool_decide_true by done.
    + by rewrite !bool_decide_false by naive_solver.
  - rewrite bool_decide_false; [done|]. intros [_ ->]. done.
Qed.

(** ** The program's own text *)

Definition key (s : string) : chars := lit s.

(** [JSON_STRING], with its white space *)
Definition user_json : json :=
  let sp := [" "%char] in
  JObject []
    (MCons [] (key "user") [] sp (JString (lit "johndoe")) []
    (MCons sp (key "admin") [] sp (JPrimitive (lit "false")) []
    (MCons sp (key "uid") [] sp (JPrimitive (lit "1000")) []
    (MCons [newline; " "%char; " "%char] (key "groups") [] sp
       (JArray [] (ECons [] (JString (lit "users")) [] (ECons sp (JString (lit "wheel")) []
          (ECons sp (JString (lit "audio")) [] (ECons sp (JString (lit "video")) [] ENil))))) [] MNil)))).

Definition dq (s : string) : chars := quoted (lit s).

Definition JSON_STRING : chars :=
  lit "{" ++ dq "user" ++ lit ": " ++ dq "johndoe" ++ lit ", " ++ dq "admin" ++ lit ": false, " ++
  dq "uid" ++ lit ": 1000," ++ [newline] ++ lit "  " ++ dq "groups" ++ lit ": [" ++ dq "users" ++ lit ", " ++
  dq "wheel" ++ lit ", " ++ dq "audio" ++ lit ", " ++ dq "video" ++ lit "]}".

(** simple.c prints the user, the admin flag, the user id and the groups of
    its text and ends with status 0, whatever its array on the stack held. *)
Theorem simple_prints_user (mem : list jsmntok_t) :
  Zlen mem = 128 ->
  simple_main JSON_STRING mem = Ret 0 (lit "- User: johndoe" ++ newline :: lit "- Admin: false" ++ newline ::
    lit "- UID: 1000" ++ newline :: lit "- Groups:" ++ newline :: lit "  * users" ++ newline ::
    lit "  * wheel" ++ newline :: lit "  * audio" ++ newline :: lit "  * video" ++ [newline]).
Proof.
  intros Hm. assert (JSON_STRING = document [] user_json []) as Ej by reflexivity.
  unfold simple_main. rewrite Ej at 1. rewrite parse_document by (done || (vm_compute; done)).
  cbn [tokens]. unfold document_toks. generalize (Zdrop (ntoks user_json) mem). intros rest.
  vm_compute. reflexivity.
Qed.

Lemma simple_prints_user_witness :
  simple_main JSON_STRING (replicate 128 (Tok JSMN_STRING 1 2 3)) = Ret 0 (lit "- User: johndoe" ++ newline ::
    lit "- Admin: false" ++ newline :: lit "- UID: 1000" ++ newline :: lit "- Groups:" ++ newline ::
    lit "  * users" ++ newline :: lit "  * wheel" ++ newline :: lit "  * audio" ++ newline ::
    lit "  * video" ++ [newline]).
Proof. apply simple_prints_user. reflexivity. Defined.

(** The value of an unexpected key is taken for a key. *)
Theorem simple_value_as_key :
  simple_main (text (JObject [] (MCons [] (lit "x") [] [] (JString (lit "uid")) []
      (MCons [] (lit "user") [] [] (JString (lit "me")) [] MNil)))) (replicate 128 (Tok JSMN_STRING 1 2 3)) =
    Ret 0 (lit "Unexpected key: x" ++ newline :: lit "- UID: user" ++ newline ::
      lit "Unexpected key: me" ++ [newline]).
Proof. vm_compute. reflexivity. Qed.

End JsmnSimple.
