(* ===== verification/ArrayQueue.v ===== *)
(** * The bounded blocking queue of queue.h

    [ArrayBlockingQueue<T, Capacity>] carries the calls between the client and
    the Raft process.  Module [ABQ] is the data structure and the critical
    sections of its operations; the interleaving of threads that run [put],
    [take] and [close] is in ArrayQueueThreads.v. *)

From stdpp Require Import base tactics list sets.
From Stdlib Require Import ZArith Lia.
From S2P Require Import Prelude.

Module ABQ.
Section Data.
Context {T : Type} (Capacity : Z).

(** The members of the class.  [mutex], [not_empty] and [not_full] belong to
    the thread model. *)
Record abq := Abq {
  array : list T;
  head : Z;
  tail : Z;
  count : Z;
  closed : bool
}.

(** [uint32_t inc(uint32_t& i)]: the previous value and the new one. *)
Definition inc (i : Z) : Z * Z :=
  let prev := i in
  if i =? u32 (Capacity - 1) then (prev, 0) else (prev, u32 (i + 1)).

(** [array[i] = val]; an index outside the array is undefined behaviour. *)
Definition array_set (a : list T) (i : Z) (val : T) : option (list T) :=
  if (0 <=? i) && (i <? Z.of_nat (length a)) then Some (<[Z.to_nat i := val]> a) else None.

(** [array[i]] *)
Definition array_get (a : list T) (i : Z) : option T :=
  if 0 <=? i then a !! Z.to_nat i else None.

(** The body of [put] once the loop has seen a free place:
    [array[inc(head)] = val; ++count;]. *)
Definition put_body (val : T) (q : abq) : option abq :=
  let '(prev, head') := inc (head q) in
  a ← array_set (array q) prev val;
  Some (Abq a head' (tail q) (u32 (count q + 1)) (closed q)).

(** The body of [take] once the loop has seen an element:
    [T val = array[inc(tail)]; --count;]. *)
Definition take_body (q : abq) : option (T * abq) :=
  let '(prev, tail') := inc (tail q) in
  val ← array_get (array q) prev;
  Some (val, Abq (array q) (head q) tail' (u32 (count q - 1)) (closed q)).

(** [closed = true] in [close]. *)
Definition close_body (q : abq) : abq :=
  Abq (array q) (head q) (tail q) (count q) true.

(** [check_closed] as a test: does it throw? *)
Definition check_closed (q : abq) : bool := closed q.

(** The loop conditions of [put] and [take]. *)
Definition full (q : abq) : bool := count q =? Capacity.
Definition empty (q : abq) : bool := count q =? 0.

(** A whole [put] or [take] that runs without interference; it blocks where
    the code would wait on the condition variable. *)
Definition put (val : T) : M abq () := fun q =>
  if check_closed q then Throw q
  else if full q then Block q
  else match put_body val q with
       | Some q' => Ret () q'
       | None => Fault OutOfBounds
       end.

Definition take : M abq T := fun q =>
  if check_closed q then Throw q
  else if empty q then Block q
  else match take_body q with
       | Some (v, q') => Ret v q'
       | None => Fault OutOfBounds
       end.

(** What is left of [put] and [take] once [check_closed] at their beginning has
    let a thread pass: it goes on also when the queue is closed in the meantime. *)
Definition put_checked (val : T) : M abq () := fun q =>
  if full q then Block q
  else match put_body val q with
       | Some q' => Ret () q'
       | None => Fault OutOfBounds
       end.

Definition take_checked : M abq T := fun q =>
  if empty q then Block q
  else match take_body q with
       | Some (v, q') => Ret v q'
       | None => Fault OutOfBounds
       end.

Definition close : M abq () := modify close_body.

(** Well-formedness: the indices are in range, and the free places start where
    the stored elements end. *)
Record wf (q : abq) : Prop := Wf {
  wf_length : Z.of_nat (length (array q)) = Capacity;
  wf_tail : 0 <= tail q < Capacity;
  wf_count : 0 <= count q <= Capacity;
  wf_head : head q = (tail q + count q) mod Capacity
}.

(** What the queue holds, oldest first. *)
Definition cell (q : abq) (i : nat) : option T :=
  array q !! Z.to_nat ((tail q + Z.of_nat i) mod Capacity).

Definition contents (q : abq) : list T :=
  omap (cell q) (seq 0 (Z.to_nat (count q))).

End Data.

Arguments abq : clear implicits.
Arguments Abq {T} _ _ _ _ _.

Section Facts.
Context {T : Type} {Capacity : Z}.
Hypothesis capacity_range : 0 < Capacity < 2 ^ 32.
Implicit Types q : abq T.

Lemma inc_spec (i : Z) :
  0 <= i < Capacity -> inc Capacity i = (i, (i + 1) mod Capacity).
Proof.
  intros Hi. unfold inc. rewrite wrap_small by lia. case_if; zbool.
  - subst. by rewrite Z.sub_add, Z.mod_same by lia.
  - rewrite wrap_small, Z.mod_small by lia. done.
Qed.

Lemma cell_is_Some q (i : nat) : wf Capacity q -> is_Some (cell Capacity q i).
Proof.
  intros [Hl Ht Hc Hh]. apply lookup_lt_is_Some.
  pose proof (Z.mod_pos_bound (tail q + Z.of_nat i) Capacity). lia.
Qed.

Lemma length_contents q :
  wf Capacity q -> Z.of_nat (length (contents Capacity q)) = count q.
Proof.
  intros Hwf. unfold contents.
  rewrite length_omap_total by (intros; by apply cell_is_Some).
  rewrite length_seq. destruct Hwf. lia.
Qed.

(** The place that [put] writes is none of the occupied ones. *)
Lemma mod_distinct (t c i : Z) :
  0 <= i < c -> c < Capacity -> (t + i) mod Capacity <> (t + c) mod Capacity.
Proof.
  intros Hi Hc E.
  assert (((t + c) - (t + i)) mod Capacity = 0) as H0.
  { rewrite Zminus_mod, E, Z.sub_diag. apply Z.mod_0_l. lia. }
  rewrite Z.mod_small in H0; lia.
Qed.

Lemma put_body_spec q (v : T) :
  wf Capacity q -> count q < Capacity ->
  exists q', put_body Capacity v q = Some q' /\ wf Capacity q' /\
    contents Capacity q' = contents Capacity q ++ [v] /\
    count q' = count q + 1 /\ closed q' = closed q.
Proof.
  intros [Hl Ht Hc Hh] Hlt.
  pose proof (Z.mod_pos_bound (tail q + count q) Capacity) as Hb.
  unfold put_body. rewrite inc_spec by lia. unfold array_set.
  destruct ((0 <=? head q) && (head q <? Z.of_nat (length (array q)))) eqn:E; [|lia].
  eexists. split; [done|]. rewrite wrap_small by lia. split_and!; [..|done|done].
  - constructor; cbn; rewrite ?length_insert; try lia.
    rewrite Hh, Zplus_mod_idemp_l. f_equal; lia.
  - unfold contents; cbn [count].
    replace (Z.to_nat (count q + 1)) with (Z.to_nat (count q) + 1)%nat by lia.
    rewrite seq_app, omap_app. f_equal.
    + apply omap_ext_in. intros i Hi%elem_of_seq. unfold cell; cbn.
      apply list_lookup_insert_ne. intros En.
      apply (mod_distinct (tail q) (count q) (Z.of_nat i)); [lia..|].
      pose proof (Z.mod_pos_bound (tail q + Z.of_nat i) Capacity). lia.
    + cbn. unfold cell; cbn.
      replace (tail q + Z.of_nat (Z.to_nat (count q))) with (tail q + count q) by lia.
      rewrite <- Hh, list_lookup_insert_eq by lia. done.
Qed.

Lemma take_body_spec q :
  wf Capacity q -> 0 < count q ->
  exists v q', take_body Capacity q = Some (v, q') /\ wf Capacity q' /\
    contents Capacity q = v :: contents Capacity q' /\
    count q' = count q - 1 /\ closed q' = closed q.
Proof.
  intros Hwf Hlt. pose proof Hwf as [Hl Ht Hc Hh].
  unfold take_body. rewrite inc_spec by lia. unfold array_get.
  destruct (0 <=? tail q) eqn:E; [|lia].
  destruct (cell_is_Some q 0 Hwf) as [v Hv]. pose proof Hv as Hv'. unfold cell in Hv'.
  rewrite Z.add_0_r, Z.mod_small in Hv' by lia. rewrite Hv'. cbn.
  eexists v, _. split; [done|]. rewrite wrap_small by lia. split_and!; [..|done|done].
  - pose proof (Z.mod_pos_bound (tail q + 1) Capacity). constructor; cbn; try lia.
    rewrite Hh, Zplus_mod_idemp_l. f_equal; lia.
  - unfold contents; cbn [count].
    replace (Z.to_nat (count q)) with (S (Z.to_nat (count q - 1))) by lia.
    cbn. rewrite Hv. f_equal. 
    rewrite omap_seq_S. apply omap_ext_in. intros i _. unfold cell; cbn.
    rewrite Zplus_mod_idemp_l. do 2 f_equal. f_equal. lia.
Qed.

Lemma put_open q (v : T) q' :
  closed q = false -> full Capacity q = false -> put_body Capacity v q = Some q' ->
  put Capacity v q = Ret () q'.
Proof. intros H1 H2 H3. unfold put, check_closed. by rewrite H1, H2, H3. Qed.

Lemma put_closed q (v : T) : closed q = true -> put Capacity v q = Throw q.
Proof. intros H1. unfold put, check_closed. by rewrite H1. Qed.

Lemma take_open q (v : T) q' :
  closed q = false -> empty q = false -> take_body Capacity q = Some (v, q') ->
  take Capacity q = Ret v q'.
Proof. intros H1 H2 H3. unfold take, check_closed. by rewrite H1, H2, H3. Qed.

Lemma take_closed q : closed q = true -> take Capacity q = Throw q.
Proof. intros H1. unfold take, check_closed. by rewrite H1. Qed.

End Facts.
End ABQ.
