(* ===== verification/ArrayQueueThreads.v ===== *)
(** * Threads on the bounded blocking queue

    The interleavings of threads that call [put], [take] and [close] of
    [ArrayBlockingQueue] (queue.h).  A step is one access to the atomic
    [closed] outside the mutex, or a piece of code that runs with the mutex
    held.  Waiting on a condition variable releases the mutex; a woken thread
    has to get it back before it looks at the queue again. *)

From stdpp Require Import base tactics list relations.
From Stdlib Require Import ZArith Lia.
From S2P Require Import Prelude ArrayQueue.

Module Threads.
Import ABQ.

Section Model.
Context {T : Type} (Capacity : Z).

(** A call that a thread makes. *)
Inductive call :=
  | CPut (v : T)
  | CTake
  | CClose.

(** Where a thread is. [Lock]: waits for the mutex; [Test]: at the loop
    condition; [Wait]: in the wait set of the condition variable; [Wake]:
    removed from it, and waits for the mutex; [Recheck]: at the [check_closed]
    of the loop; [Store], [Load], [Set]: at the code after the loop. *)
Inductive pc :=
  | Ready
  | PutLock (v : T) | PutTest (v : T) | PutWait (v : T) | PutWake (v : T)
  | PutRecheck (v : T) | PutStore (v : T)
  | TakeLock | TakeTest | TakeWait | TakeWake | TakeRecheck | TakeLoad
  | CloseSet.

(** A thread: its place, and the calls it still has to make. *)
Record thread := Thread { at_pc : pc; todo : list call }.

Record sys := Sys {
  q : abq T;
  owner : option nat;
  threads : list thread
}.

(** What a step does to the queue, as seen from outside. *)
Inductive event :=
  | Silent
  | Enq (v : T)
  | Deq (v : T)
  | Closed.

(** Which condition variable a step notifies. *)
Inductive signal := SigNone | SigNotEmpty | SigNotFull | SigAll.

(** One step of thread [i]: the queue, the owner of the mutex and the thread,
    before and after. *)
Inductive tstep (i : nat) :
  abq T -> option nat -> thread -> abq T -> option nat -> thread -> signal -> event -> Prop :=
  | put_call_closed q o v cs :
      check_closed q = true ->
      tstep i q o (Thread Ready (CPut v :: cs)) q o (Thread Ready cs) SigNone Silent
  | put_call q o v cs :
      check_closed q = false ->
      tstep i q o (Thread Ready (CPut v :: cs)) q o (Thread (PutLock v) cs) SigNone Silent
  | put_lock q v cs :
      tstep i q None (Thread (PutLock v) cs) q (Some i) (Thread (PutTest v) cs) SigNone Silent
  | put_full q v cs :
      full Capacity q = true ->
      tstep i q (Some i) (Thread (PutTest v) cs) q None (Thread (PutWait v) cs) SigNone Silent
  | put_not_full q v cs :
      full Capacity q = false ->
      tstep i q (Some i) (Thread (PutTest v) cs) q (Some i) (Thread (PutStore v) cs) SigNone Silent
  | put_store q v cs q' :
      put_body Capacity v q = Some q' ->
      tstep i q (Some i) (Thread (PutStore v) cs) q' None (Thread Ready cs) SigNotEmpty (Enq v)
  | put_relock q v cs :
      tstep i q None (Thread (PutWake v) cs) q (Some i) (Thread (PutRecheck v) cs) SigNone Silent
  | put_recheck_closed q v cs :
      check_closed q = true ->
      tstep i q (Some i) (Thread (PutRecheck v) cs) q None (Thread Ready cs) SigNone Silent
  | put_recheck q v cs :
      check_closed q = false ->
      tstep i q (Some i) (Thread (PutRecheck v) cs) q (Some i) (Thread (PutTest v) cs) SigNone Silent
  | take_call_closed q o cs :
      check_closed q = true ->
      tstep i q o (Thread Ready (CTake :: cs)) q o (Thread Ready cs) SigNone Silent
  | take_call q o cs :
      check_closed q = false ->
      tstep i q o (Thread Ready (CTake :: cs)) q o (Thread TakeLock cs) SigNone Silent
  | take_lock q cs :
      tstep i q None (Thread TakeLock cs) q (Some i) (Thread TakeTest cs) SigNone Silent
  | take_empty q cs :
      empty q = true ->
      tstep i q (Some i) (Thread TakeTest cs) q None (Thread TakeWait cs) SigNone Silent
  | take_not_empty q cs :
      empty q = false ->
      tstep i q (Some i) (Thread TakeTest cs) q (Some i) (Thread TakeLoad cs) SigNone Silent
  | take_load q cs v q' :
      take_body Capacity q = Some (v, q') ->
      tstep i q (Some i) (Thread TakeLoad cs) q' None (Thread Ready cs) SigNotFull (Deq v)
  | take_relock q cs :
      tstep i q None (Thread TakeWake cs) q (Some i) (Thread TakeRecheck cs) SigNone Silent
  | take_recheck_closed q cs :
      check_closed q = true ->
      tstep i q (Some i) (Thread TakeRecheck cs) q None (Thread Ready cs) SigNone Silent
  | take_recheck q cs :
      check_closed q = false ->
      tstep i q (Some i) (Thread TakeRecheck cs) q (Some i) (Thread TakeTest cs) SigNone Silent
  | close_lock q cs :
      tstep i q None (Thread Ready (CClose :: cs)) q (Some i) (Thread CloseSet cs) SigNone Silent
  | close_set q cs :
      tstep i q (Some i) (Thread CloseSet cs) (close_body q) None (Thread Ready cs) SigAll Closed.

(** The place a notified thread goes to; [None] if the thread is not in the
    wait set of the condition variable. *)
Definition wake_not_empty (p : pc) : option pc :=
  match p with TakeWait => Some TakeWake | _ => None end.
Definition wake_not_full (p : pc) : option pc :=
  match p with PutWait v => Some (PutWake v) | _ => None end.
Definition wake_any (p : pc) : option pc :=
  match wake_not_empty p with Some p' => Some p' | None => wake_not_full p end.

(** [notify_one]: any one of the waiting threads, if there is one. *)
Inductive notify_one (wk : pc -> option pc) (ts : list thread) : list thread -> Prop :=
  | notify_nobody :
      (forall i t, ts !! i = Some t -> wk (at_pc t) = None) -> notify_one wk ts ts
  | notify_somebody i t p :
      ts !! i = Some t -> wk (at_pc t) = Some p ->
      notify_one wk ts (<[i := Thread p (todo t)]> ts).

Definition notify_all (t : thread) : thread :=
  match wake_any (at_pc t) with Some p => Thread p (todo t) | None => t end.

Inductive signalled (ts : list thread) : signal -> list thread -> Prop :=
  | signalled_none : signalled ts SigNone ts
  | signalled_not_empty ts' :
      notify_one wake_not_empty ts ts' -> signalled ts SigNotEmpty ts'
  | signalled_not_full ts' :
      notify_one wake_not_full ts ts' -> signalled ts SigNotFull ts'
  | signalled_all : signalled ts SigAll (notify_all <$> ts).

(** A step of the program. *)
Inductive nstep (s : sys) (e : event) : sys -> Prop :=
  | nstep_thread i t q' o' t' sg ts' :
      threads s !! i = Some t ->
      tstep i (q s) (owner s) t q' o' t' sg e ->
      signalled (<[i := t']> (threads s)) sg ts' ->
      nstep s e (Sys q' o' ts').

(** A step of the program, or a spurious wakeup. *)
Inductive step (s : sys) : event -> sys -> Prop :=
  | step_program e s' : nstep s e s' -> step s e s'
  | step_spurious i t p :
      threads s !! i = Some t -> wake_any (at_pc t) = Some p ->
      step s Silent (Sys (q s) (owner s) (<[i := Thread p (todo t)]> (threads s))).

(** The start: an open queue, and threads that have not begun. *)
Definition start (q0 : abq T) (progs : list (list call)) : sys :=
  Sys q0 None (Thread Ready <$> progs).

(** ** The abstract queue: a list of at most [Capacity] elements. *)
Record spec := Spec { items : list T; shut : bool }.

Inductive spec_step : spec -> event -> spec -> Prop :=
  | spec_silent s : spec_step s Silent s
  | spec_enq l c v :
      Z.of_nat (length l) < Capacity ->
      spec_step (Spec l c) (Enq v) (Spec (l ++ [v]) c)
  | spec_deq l c v : spec_step (Spec (v :: l) c) (Deq v) (Spec l c)
  | spec_close l c : spec_step (Spec l c) Closed (Spec l true).

Definition abs (s : sys) : spec := Spec (contents Capacity (q s)) (closed (q s)).

(** The elements put and taken in a run. *)
Definition enqs (es : list event) : list T :=
  omap (fun e => match e with Enq v => Some v | _ => None end) es.
Definition deqs (es : list event) : list T :=
  omap (fun e => match e with Deq v => Some v | _ => None end) es.

(** Classes of threads. *)
Definition holds (p : pc) : bool :=
  match p with
  | PutTest _ | PutRecheck _ | PutStore _ | TakeTest | TakeRecheck | TakeLoad | CloseSet => true
  | _ => false
  end.
Definition taker_waits (t : thread) : bool :=
  match at_pc t with TakeWait => true | _ => false end.
Definition taker_active (t : thread) : bool :=
  match at_pc t with TakeWake | TakeRecheck | TakeTest | TakeLoad => true | _ => false end.
Definition putter_waits (t : thread) : bool :=
  match at_pc t with PutWait _ => true | _ => false end.
Definition putter_active (t : thread) : bool :=
  match at_pc t with PutWake _ | PutRecheck _ | PutTest _ | PutStore _ => true | _ => false end.
Definition finished (t : thread) : bool :=
  match t with Thread Ready [] => true | _ => false end.

(** No thread can go on. *)
Definition stuck (s : sys) : Prop := forall e s', ~ nstep s e s'.

Record inv (s : sys) : Prop := Inv {
  inv_wf : wf Capacity (q s);
  inv_mutex i t : threads s !! i = Some t -> (holds (at_pc t) = true <-> owner s = Some i);
  inv_owner i : owner s = Some i -> is_Some (threads s !! i);
  inv_store i v cs : threads s !! i = Some (Thread (PutStore v) cs) -> count (q s) < Capacity;
  inv_load i cs : threads s !! i = Some (Thread TakeLoad cs) -> 0 < count (q s);
  inv_takers : closed (q s) = false -> 0 < countb taker_waits (threads s) ->
    count (q s) <= countb taker_active (threads s);
  inv_putters : closed (q s) = false -> 0 < countb putter_waits (threads s) ->
    Capacity - count (q s) <= countb putter_active (threads s)
}.

End Model.

Arguments call : clear implicits.
Arguments pc : clear implicits.
Arguments thread : clear implicits.
Arguments sys : clear implicits.
Arguments event : clear implicits.
Arguments spec : clear implicits.

Section Signals.
Context {T : Type}.
Implicit Types ts : list (thread T).

Lemma wake_any_cases (p p' : pc T) :
  wake_any p = Some p' ->
  (p = TakeWait /\ p' = TakeWake) \/ (exists v, p = PutWait v /\ p' = PutWake v).
Proof. destruct p; intros [= <-]; eauto. Qed.

Lemma notify_one_wake_any ts ts' wk j t' :
  (forall p p' : pc T, wk p = Some p' -> wake_any p = Some p') ->
  notify_one wk ts ts' -> ts' !! j = Some t' ->
  exists t, ts !! j = Some t /\
    (t' = t \/ (wake_any (at_pc t) = Some (at_pc t') /\ todo t' = todo t)).
Proof.
  intros Hwk Hn Hj. destruct Hn as [|i t p Hi Hp]; [by eauto|].
  destruct (decide (i = j)) as [->|Hne].
  - rewrite list_lookup_insert_eq in Hj by eauto using lookup_lt_Some.
    simplify_eq/=. eauto 10.
  - rewrite list_lookup_insert_ne in Hj by done. eauto.
Qed.

(** A signal moves threads out of wait sets and does nothing else. *)
Lemma signalled_lookup ts sg ts' j t' :
  signalled ts sg ts' -> ts' !! j = Some t' ->
  exists t, ts !! j = Some t /\
    (t' = t \/ (wake_any (at_pc t) = Some (at_pc t') /\ todo t' = todo t)).
Proof.
  intros Hs Hj. destruct Hs as [|ts' Hn|ts' Hn|].
  - eauto.
  - eapply notify_one_wake_any; [|done..]. by intros [].
  - eapply notify_one_wake_any; [|done..]. by intros [].
  - rewrite list_lookup_fmap, fmap_Some in Hj. destruct Hj as (t & Ht & ->).
    exists t. split; [done|]. unfold notify_all. destruct (wake_any (at_pc t)); auto.
Qed.

Lemma length_signalled ts sg ts' : signalled ts sg ts' -> length ts' = length ts.
Proof.
  intros [|? []|? []|]; rewrite ?length_insert, ?length_fmap; done.
Qed.

(** How [notify_one] changes the numbers of waiting and active threads. *)
Lemma notify_not_empty_counts ts ts' :
  notify_one wake_not_empty ts ts' ->
  ((countb taker_waits ts = 0 /\ countb taker_waits ts' = 0 /\
    countb taker_active ts' = countb taker_active ts) \/
   (0 < countb taker_waits ts /\ countb taker_active ts' = countb taker_active ts + 1)) /\
  countb putter_waits ts' = countb putter_waits ts /\
  countb putter_active ts' = countb putter_active ts.
Proof.
  intros [Hno|i [p cs] p' Hi Hp].
  - split; [|done]. left.
    assert (countb taker_waits ts = 0); [|done].
    apply countb_zero. intros i t Ht. specialize (Hno i t Ht).
    unfold taker_waits. by destruct (at_pc t).
  - destruct p; simplify_eq/=.
    pose proof (countb_pos taker_waits ts i _ Hi eq_refl).
    pose proof (fun f x => countb_insert f ts i x _ Hi) as Hc.
    pose proof (Hc taker_active (Thread TakeWake cs)).
    pose proof (Hc putter_active (Thread TakeWake cs)).
    pose proof (Hc putter_waits (Thread TakeWake cs)). simpl in *. lia.
Qed.

Lemma notify_not_full_counts ts ts' :
  notify_one wake_not_full ts ts' ->
  ((countb putter_waits ts = 0 /\ countb putter_waits ts' = 0 /\
    countb putter_active ts' = countb putter_active ts) \/
   (0 < countb putter_waits ts /\ countb putter_active ts' = countb putter_active ts + 1)) /\
  countb taker_waits ts' = countb taker_waits ts /\
  countb taker_active ts' = countb taker_active ts.
Proof.
  intros [Hno|i [p cs] p' Hi Hp].
  - split; [|done]. left.
    assert (countb putter_waits ts = 0); [|done].
    apply countb_zero. intros i t Ht. specialize (Hno i t Ht).
    unfold putter_waits. by destruct (at_pc t).
  - destruct p; simplify_eq/=.
    pose proof (countb_pos putter_waits ts i _ Hi eq_refl).
    pose proof (fun f x => countb_insert f ts i x _ Hi) as Hc.
    pose proof (Hc putter_active (Thread (PutWake v) cs)).
    pose proof (Hc taker_active (Thread (PutWake v) cs)).
    pose proof (Hc taker_waits (Thread (PutWake v) cs)). simpl in *. lia.
Qed.
End Signals.

Section Invariant.
Context {T : Type} {Capacity : Z}.
Hypothesis capacity_range : 0 < Capacity < 2 ^ 32.
Implicit Types (s : sys T) (t : thread T).

Lemma tstep_mutex i q0 o t q1 o' t' sg e :
  tstep Capacity i q0 o t q1 o' t' sg e ->
  (holds (at_pc t) = true <-> o = Some i) ->
  (holds (at_pc t') = true <-> o' = Some i) /\
  (forall j, j <> i -> (o' = Some j <-> o = Some j)).
Proof. intros Ht [H1 H2]. revert H1 H2. inv Ht; simpl; naive_solver. Qed.

Lemma nstep_mutex s e s' :
  (forall i t, threads s !! i = Some t -> (holds (at_pc t) = true <-> owner s = Some i)) ->
  nstep Capacity s e s' ->
  forall i t, threads s' !! i = Some t -> (holds (at_pc t) = true <-> owner s' = Some i).
Proof.
  intros Hm [i t q' o' t' sg ts' Hi Ht Hs] j tj Hj; simpl in *.
  destruct (tstep_mutex _ _ _ _ _ _ _ _ _ Ht (Hm i t Hi)) as [Hsame Hother].
  destruct (signalled_lookup _ _ _ _ _ Hs Hj) as (t0 & H0 & Ht0).
  assert (holds (at_pc t0) = true <-> o' = Some j) as Hh.
  { destruct (decide (i = j)) as [->|Hne].
    - rewrite list_lookup_insert_eq in H0 by eauto using lookup_lt_Some. by simplify_eq.
    - rewrite list_lookup_insert_ne in H0 by done. rewrite Hother by done. eauto. }
  destruct Ht0 as [->|[[[H1 H2]|(v & H1 & H2)]%wake_any_cases _]]; [done|..];
    rewrite H1 in Hh; rewrite H2; simpl in *; naive_solver.
Qed.

Lemma nstep_owner s e s' :
  (forall i, owner s = Some i -> is_Some (threads s !! i)) ->
  nstep Capacity s e s' ->
  forall i, owner s' = Some i -> is_Some (threads s' !! i).
Proof.
  intros Ho [i t q' o' t' sg ts' Hi Ht Hs] j Hj; simpl in *.
  apply lookup_lt_is_Some. rewrite (length_signalled _ _ _ Hs), length_insert.
  apply lookup_lt_is_Some. inv Ht; naive_solver.
Qed.

(** A thread that does not hold the mutex leaves the queue alone while another
    thread holds it. *)
Lemma tstep_frame i j q0 t q1 o' t' sg e :
  tstep Capacity i q0 (Some j) t q1 o' t' sg e -> j <> i -> q1 = q0.
Proof. intros Ht Hne. inv Ht; done. Qed.

(** On a well-formed queue every step is a step of the abstract queue. *)
Lemma tstep_queue i q0 o t q1 o' t' sg e :
  tstep Capacity i q0 o t q1 o' t' sg e -> wf Capacity q0 ->
  (forall v, at_pc t = PutStore v -> count q0 < Capacity) ->
  (at_pc t = TakeLoad -> 0 < count q0) ->
  wf Capacity q1 /\
  spec_step Capacity (Spec (contents Capacity q0) (closed q0)) e
    (Spec (contents Capacity q1) (closed q1)).
Proof.
  intros Ht Hwf Hst Hld. inv Ht; try (split; [done|constructor]).
  - destruct (put_body_spec capacity_range q0 v Hwf (Hst v eq_refl))
      as (q2 & E & Hwf2 & Hc & _ & Hcl). simplify_eq.
    split; [done|]. rewrite Hc, Hcl. constructor. rewrite (length_contents capacity_range); [|done].
    by apply (Hst v).
  - destruct (take_body_spec capacity_range q0 Hwf (Hld eq_refl))
      as (v2 & q2 & E & Hwf2 & Hc & _ & Hcl). simplify_eq.
    split; [done|]. rewrite Hc, Hcl. constructor.
  - destruct Hwf. split; [by constructor|constructor].
Qed.

Lemma tstep_queue_inv s i t q1 o' t' sg e :
  inv Capacity s -> threads s !! i = Some t ->
  tstep Capacity i (q s) (owner s) t q1 o' t' sg e ->
  wf Capacity q1 /\
  spec_step Capacity (abs Capacity s) e (Spec (contents Capacity q1) (closed q1)).
Proof.
  intros Hinv Hi Ht. eapply tstep_queue; [done|by apply inv_wf|..].
  - intros v Hv. destruct t as [p cs]; simplify_eq/=. by eapply inv_store.
  - intros Hl. destruct t as [p cs]; simplify_eq/=. by eapply inv_load.
Qed.

(** The value of a thread after a step, when it is at a place that no signal
    leads to. *)
Lemma nstep_lookup i t t' ts sg ts' j p cs :
  ts !! i = Some t -> signalled (<[i := t']> ts) sg ts' ->
  (forall p0 : pc T, wake_any p0 <> Some p) ->
  ts' !! j = Some (Thread p cs) ->
  (j = i /\ t' = Thread p cs) \/ (j <> i /\ ts !! j = Some (Thread p cs)).
Proof.
  intros Hi Hs Hp Hj. destruct (signalled_lookup _ _ _ _ _ Hs Hj) as (t0 & H0 & [<-|[Hw _]]).
  - destruct (decide (i = j)) as [->|Hne].
    + rewrite list_lookup_insert_eq in H0 by eauto using lookup_lt_Some. left. by simplify_eq.
    + rewrite list_lookup_insert_ne in H0 by done. auto.
  - by destruct (Hp (at_pc t0)).
Qed.

Lemma nstep_store s e s' i v cs :
  inv Capacity s -> nstep Capacity s e s' ->
  threads s' !! i = Some (Thread (PutStore v) cs) -> count (q s') < Capacity.
Proof.
  intros Hinv [j t q' o' t' sg ts' Hj Ht Hs] Hi; simpl in *.
  destruct (nstep_lookup j t t' (threads s) sg ts' i (PutStore v) cs Hj Hs ltac:(by intros []) Hi)
    as [[-> ->]|[Hne H0]].
  - inv Ht. pose proof (wf_count _ _ (inv_wf _ _ Hinv)).
    unfold full in *. zbool. lia.
  - pose proof (proj1 (inv_mutex _ _ Hinv _ _ H0) eq_refl) as Ho. rewrite Ho in Ht.
    rewrite (tstep_frame _ _ _ _ _ _ _ _ _ Ht) by done. by eapply inv_store.
Qed.

Lemma nstep_load s e s' i cs :
  inv Capacity s -> nstep Capacity s e s' ->
  threads s' !! i = Some (Thread TakeLoad cs) -> 0 < count (q s').
Proof.
  intros Hinv [j t q' o' t' sg ts' Hj Ht Hs] Hi; simpl in *.
  destruct (nstep_lookup j t t' (threads s) sg ts' i TakeLoad cs Hj Hs ltac:(by intros []) Hi)
    as [[-> ->]|[Hne H0]].
  - inv Ht. pose proof (wf_count _ _ (inv_wf _ _ Hinv)).
    unfold empty in *. zbool. lia.
  - pose proof (proj1 (inv_mutex _ _ Hinv _ _ H0) eq_refl) as Ho. rewrite Ho in Ht.
    rewrite (tstep_frame _ _ _ _ _ _ _ _ _ Ht) by done. by eapply inv_load.
Qed.

(** The four counters after thread [i] has moved from [t] to [t']. *)
Ltac count_moves Hi t' :=
  match type of Hi with
  | ?ts !! ?i = Some ?t =>
    pose proof (countb_insert taker_waits ts i t' t Hi);
    pose proof (countb_insert taker_active ts i t' t Hi);
    pose proof (countb_insert putter_waits ts i t' t Hi);
    pose proof (countb_insert putter_active ts i t' t Hi)
  end.

Ltac signal_counts Hs :=
  inv Hs;
  try match goal with
  | H : notify_one wake_not_empty _ _ |- _ => apply notify_not_empty_counts in H
  | H : notify_one wake_not_full _ _ |- _ => apply notify_not_full_counts in H
  end.

Lemma nstep_counts s e s' :
  inv Capacity s -> nstep Capacity s e s' -> closed (q s') = false ->
  (0 < countb taker_waits (threads s') ->
    count (q s') <= countb taker_active (threads s')) /\
  (0 < countb putter_waits (threads s') ->
    Capacity - count (q s') <= countb putter_active (threads s')).
Proof.
  intros Hinv [i t q' o' t' sg ts' Hi Ht Hs] Hcl; simpl in *.
  pose proof (inv_takers _ _ Hinv) as IT. pose proof (inv_putters _ _ Hinv) as IP.
  pose proof (wf_count _ _ (inv_wf _ _ Hinv)) as Hc.
  pose proof (countb_nonneg taker_active (<[i := t']> (threads s))).
  pose proof (countb_nonneg putter_active (<[i := t']> (threads s))).
  count_moves Hi t'.
  destruct (tstep_queue_inv s i t q' o' t' sg e Hinv Hi Ht) as [Hwf' _].
  pose proof (wf_count _ _ Hwf') as Hc'.
  inv Ht; simpl in *; try discriminate; signal_counts Hs;
    unfold full, empty, check_closed in *; zbool;
    try congruence; try (specialize (IT Hcl); specialize (IP Hcl); lia).
  - destruct (put_body_spec capacity_range (q s) v (inv_wf _ _ Hinv)) as (q2 & E & _ & _ & E2 & E3);
      [by eapply inv_store|]. simplify_eq. rewrite E3 in Hcl. specialize (IT Hcl). specialize (IP Hcl). lia.
  - destruct (take_body_spec capacity_range (q s) (inv_wf _ _ Hinv)) as (v2 & q2 & E & _ & _ & E2 & E3);
      [by eapply inv_load|]. simplify_eq. rewrite E3 in Hcl. specialize (IT Hcl). specialize (IP Hcl). lia.
Qed.

Lemma inv_nstep s e s' : inv Capacity s -> nstep Capacity s e s' -> inv Capacity s'.
Proof.
  intros Hinv Hst. constructor.
  - destruct Hst as [i t q' o' t' sg ts' Hi Ht Hs]. by eapply tstep_queue_inv.
  - eapply nstep_mutex; [|done]. intros. by eapply inv_mutex.
  - eapply nstep_owner; [|done]. intros. by eapply inv_owner.
  - intros i v cs Hi. by eapply nstep_store.
  - intros i cs Hi. by eapply nstep_load.
  - intros Hcl. by apply (nstep_counts s e s').
  - intros Hcl. by apply (nstep_counts s e s').
Qed.

Lemma inv_spurious s i t p :
  inv Capacity s -> threads s !! i = Some t -> wake_any (at_pc t) = Some p ->
  inv Capacity (Sys (q s) (owner s) (<[i := Thread p (todo t)]> (threads s))).
Proof.
  intros Hinv Hi Hp. pose proof (inv_mutex _ _ Hinv) as Hm.
  pose proof (inv_takers _ _ Hinv) as IT. pose proof (inv_putters _ _ Hinv) as IP.
  count_moves Hi (Thread p (todo t)).
  assert (forall j t0, <[i := Thread p (todo t)]> (threads s) !! j = Some t0 ->
    threads s !! j = Some t0 \/ (j = i /\ t0 = Thread p (todo t))) as Hlk.
  { intros j t0 Hj. destruct (decide (i = j)) as [->|Hne].
    - rewrite list_lookup_insert_eq in Hj by eauto using lookup_lt_Some. simplify_eq. auto.
    - rewrite list_lookup_insert_ne in Hj by done. auto. }
  destruct t as [p0 cs]; simpl in *.
  destruct (wake_any_cases _ _ Hp) as [[-> ->]|(v & -> & ->)]; constructor; simpl.
  all: try (apply Hinv).
  all: try (intros j t0 [Hj|[-> ->]]%Hlk; [by eauto|]; specialize (Hm i _ Hi); done).
  all: try (intros j Hj; apply lookup_lt_is_Some; rewrite length_insert;
            by apply lookup_lt_is_Some, (inv_owner _ _ Hinv)).
  all: try (intros j v0 cs0 [Hj|[-> ?]]%Hlk; [by eapply inv_store|done]).
  all: try (intros j cs0 [Hj|[-> ?]]%Hlk; [by eapply inv_load|done]).
  all: intros Hcl ?; specialize (IT Hcl); specialize (IP Hcl); simpl in *; lia.
Qed.

Lemma inv_step s e s' : inv Capacity s -> step Capacity s e s' -> inv Capacity s'.
Proof. intros Hinv []; [by eapply inv_nstep|by apply inv_spurious]. Qed.

Lemma inv_start (q0 : abq T) progs : wf Capacity q0 -> inv Capacity (start q0 progs).
Proof.
  intros Hwf.
  assert (forall i t, (Thread Ready <$> progs) !! i = Some t -> at_pc t = @Ready T) as Hr.
  { intros i t. rewrite list_lookup_fmap, fmap_Some. by intros (? & _ & ->). }
  assert (forall f : thread T -> bool, (forall cs, f (Thread Ready cs) = false) ->
    countb f (Thread Ready <$> progs) = 0) as Hz.
  { intros f Hf. apply countb_zero. intros i t Ht.
    specialize (Hr i t Ht). destruct t; simplify_eq/=. apply Hf. }
  constructor; simpl; try done.
  - intros i t Ht. by rewrite (Hr i t Ht).
  - intros i v cs Hi%Hr. done.
  - intros i cs Hi%Hr. done.
  - intros _. rewrite Hz by done. lia.
  - intros _. rewrite Hz by done. lia.
Qed.

Lemma inv_reachable (q0 : abq T) progs es s :
  wf Capacity q0 -> lrun (step Capacity) (start q0 progs) es s -> inv Capacity s.
Proof.
  intros Hwf Hrun. eapply lrun_invariant; [apply inv_step|done|]. by apply inv_start.
Qed.

Lemma step_abs s e s' :
  inv Capacity s -> step Capacity s e s' -> spec_step Capacity (abs Capacity s) e (abs Capacity s').
Proof.
  intros Hinv [e' s2 [i t q' o' t' sg ts' Hi Ht Hs]|i t p Hi Hp].
  - by eapply tstep_queue_inv.
  - constructor.
Qed.

Lemma spec_fifo (a b : spec T) es :
  lrun (spec_step Capacity) a es b -> items a ++ enqs es = deqs es ++ items b.
Proof.
  induction 1 as [s0|s0 e s1 es s2 Hst Hrun IH]; [apply app_nil_r|].
  inv Hst; simpl in *; try done.
  - rewrite <- IH. cbn. by rewrite <- app_assoc.
  - by rewrite IH.
Qed.

Lemma signalled_total (ts : list (thread T)) sg : exists ts', signalled ts sg ts'.
Proof.
  assert (forall wk, exists ts', notify_one wk ts ts') as Hn.
  { intros wk.
    destruct (decide (Exists (fun t => is_Some (wk (at_pc t))) ts)) as [Hex|Hno].
    - apply Exists_exists in Hex as (t & [i Hi]%list_elem_of_lookup & p & Hp).
      eexists. by eapply notify_somebody.
    - exists ts. constructor. intros i t Hi. apply not_Exists_Forall in Hno; [|tc_solve].
      rewrite Forall_lookup in Hno. specialize (Hno i t Hi).
      destruct (wk (at_pc t)) eqn:E; [|done]. by destruct Hno. }
  destruct sg.
  - eexists. constructor.
  - destruct (Hn wake_not_empty). eexists. by constructor.
  - destruct (Hn wake_not_full). eexists. by constructor.
  - eexists. constructor.
Qed.

Lemma stuck_tstep s i t q' o' t' sg e :
  stuck Capacity s -> threads s !! i = Some t ->
  ~ tstep Capacity i (q s) (owner s) t q' o' t' sg e.
Proof.
  intros Hstuck Hi Ht. destruct (signalled_total (<[i := t']> (threads s)) sg) as [ts' Hs].
  by eapply Hstuck, nstep_thread.
Qed.

(** A thread that holds the mutex can always go on. *)
Lemma holder_steps s i t :
  inv Capacity s -> threads s !! i = Some t -> owner s = Some i ->
  exists q' o' t' sg e, tstep Capacity i (q s) (owner s) t q' o' t' sg e.
Proof.
  intros Hinv Hi Ho. pose proof (proj2 (inv_mutex _ _ Hinv _ _ Hi) Ho) as Hh.
  rewrite Ho. destruct t as [[] cs]; simplify_eq/=.
  - destruct (full Capacity (q s)) eqn:E; do 5 eexists; by constructor.
  - destruct (check_closed (q s)) eqn:E; do 5 eexists; by constructor.
  - destruct (put_body_spec capacity_range (q s) v (inv_wf _ _ Hinv)) as (q2 & E & _);
      [by eapply inv_store|]. do 5 eexists; by constructor.
  - destruct (empty (q s)) eqn:E; do 5 eexists; by constructor.
  - destruct (check_closed (q s)) eqn:E; do 5 eexists; by constructor.
  - destruct (take_body_spec capacity_range (q s) (inv_wf _ _ Hinv)) as (v & q2 & E & _);
      [by eapply inv_load|]. do 5 eexists; by constructor.
  - do 5 eexists; by constructor.
Qed.

Lemma stuck_unowned s : inv Capacity s -> stuck Capacity s -> owner s = None.
Proof.
  intros Hinv Hstuck. destruct (owner s) as [i|] eqn:Ho; [|done].
  destruct (inv_owner _ _ Hinv i Ho) as [t Hi].
  destruct (holder_steps s i t Hinv Hi Ho) as (?&?&?&?&?&Ht).
  by destruct (stuck_tstep s i t _ _ _ _ _ Hstuck Hi Ht).
Qed.

(** When no thread can go on, each one has finished or sleeps. *)
Lemma stuck_places s i t :
  inv Capacity s -> stuck Capacity s -> threads s !! i = Some t ->
  finished t = true \/ taker_waits t = true \/ putter_waits t = true.
Proof.
  intros Hinv Hstuck Hi. pose proof (stuck_unowned s Hinv Hstuck) as Ho.
  pose proof (fun q' o' t' sg e => stuck_tstep s i t q' o' t' sg e Hstuck Hi) as Hno.
  assert (holds (at_pc t) = false) as Hh.
  { destruct (holds (at_pc t)) eqn:E; [|done]. apply (inv_mutex _ _ Hinv _ _ Hi) in E. congruence. }
  rewrite Ho in Hno. destruct t as [[] cs]; simplify_eq/=; auto.
  - destruct cs as [|[]]; auto; destruct (check_closed (q s)) eqn:E; exfalso; eapply Hno; by constructor.
  - exfalso. eapply Hno. constructor.
  - exfalso. eapply Hno. constructor.
  - exfalso. eapply Hno. constructor.
  - exfalso. eapply Hno. constructor.
Qed.

Lemma stuck_inactive s (f : thread T -> bool) :
  inv Capacity s -> stuck Capacity s ->
  (forall t, f t = true -> finished t = false /\ taker_waits t = false /\ putter_waits t = false) ->
  countb f (threads s) = 0.
Proof.
  intros Hinv Hstuck Hf. apply countb_zero. intros i t Hi.
  destruct (f t) eqn:E; [|done]. destruct (Hf t E) as (H1 & H2 & H3).
  destruct (stuck_places s i t Hinv Hstuck Hi) as [?|[?|?]]; congruence.
Qed.

(** ** Properties *)

(** C5: Every interleaving of threads that call [put], [take] and [close],
    spurious wakeups included, is a run of the abstract queue: a list of at
    most [Capacity] elements where [put] appends, [take] removes the first
    element, and [close] marks the queue as closed. *)
Theorem abq_refines_fifo (q0 : abq T) progs es s :
  wf Capacity q0 -> lrun (step Capacity) (start q0 progs) es s ->
  lrun (spec_step Capacity) (abs Capacity (start q0 progs)) es (abs Capacity s).
Proof.
  intros Hwf Hrun. eapply lrun_simulation; [apply inv_step|apply step_abs|done|].
  by apply inv_start.
Qed.

(** First in, first out: what has been taken, followed by what is still in
    the queue, is what was there at the start followed by what has been put,
    in the same order. No element is lost, duplicated or overtaken. *)
Theorem abq_fifo_order (q0 : abq T) progs es s :
  wf Capacity q0 -> lrun (step Capacity) (start q0 progs) es s ->
  contents Capacity q0 ++ enqs es = deqs es ++ contents Capacity (q s).
Proof.
  intros Hwf Hrun. apply (spec_fifo (abs Capacity (start q0 progs)) (abs Capacity s)).
  eapply lrun_simulation; [apply inv_step|apply step_abs|done|]. by apply inv_start.
Qed.

(** C13: In every reachable state at most one thread is inside a critical
    section; the indices and the counter are in range; and a thread at the code
    after the loop of [put] or [take] finds the place it accesses inside the
    array, so that no access is out of bounds and no counter wraps around. *)
Theorem abq_safe (q0 : abq T) progs es s :
  wf Capacity q0 -> lrun (step Capacity) (start q0 progs) es s ->
  (forall i j ti tj, threads s !! i = Some ti -> threads s !! j = Some tj ->
    holds (at_pc ti) = true -> holds (at_pc tj) = true -> i = j) /\
  (0 <= head (q s) < Capacity /\ 0 <= tail (q s) < Capacity /\ 0 <= count (q s) <= Capacity) /\
  (forall i v cs, threads s !! i = Some (Thread (PutStore v) cs) ->
    exists q', put_body Capacity v (q s) = Some q' /\ count q' = count (q s) + 1) /\
  (forall i cs, threads s !! i = Some (Thread TakeLoad cs) ->
    exists v q', take_body Capacity (q s) = Some (v, q') /\ count q' = count (q s) - 1).
Proof.
  intros Hwf Hrun. pose proof (inv_reachable q0 progs es s Hwf Hrun) as Hinv.
  pose proof (inv_wf _ _ Hinv) as Hq. split_and!; try apply Hq.
  - intros i j ti tj Hi Hj H1 H2. apply (inv_mutex _ _ Hinv _ _ Hi) in H1.
    apply (inv_mutex _ _ Hinv _ _ Hj) in H2. congruence.
  - rewrite (wf_head _ _ Hq). apply Z.mod_pos_bound. lia.
  - rewrite (wf_head _ _ Hq). apply Z.mod_pos_bound. lia.
  - intros i v cs Hi. destruct (put_body_spec capacity_range (q s) v Hq) as (q' & ? & _ & _ & ? & _);
      [by eapply inv_store|eauto].
  - intros i cs Hi. destruct (take_body_spec capacity_range (q s) Hq) as (v & q' & ? & _ & _ & ? & _);
      [by eapply inv_load|eauto].
Qed.

(** C14: No wakeup is lost while the queue is open: when no thread can go on,
    every thread has finished its calls, or sleeps in [take] on an empty
    queue, or sleeps in [put] on a full one. *)
Theorem abq_open_deadlock (q0 : abq T) progs es s :
  wf Capacity q0 -> lrun (step Capacity) (start q0 progs) es s ->
  closed (q s) = false -> stuck Capacity s ->
  forall i t, threads s !! i = Some t ->
    finished t = true \/
    (taker_waits t = true /\ count (q s) = 0) \/
    (putter_waits t = true /\ count (q s) = Capacity).
Proof.
  intros Hwf Hrun Hcl Hstuck i t Hi.
  pose proof (inv_reachable q0 progs es s Hwf Hrun) as Hinv.
  pose proof (wf_count _ _ (inv_wf _ _ Hinv)).
  destruct (stuck_places s i t Hinv Hstuck Hi) as [Hf|[Ht|Hp]]; [auto|..].
  - pose proof (inv_takers _ _ Hinv Hcl (countb_pos _ _ i t Hi Ht)) as Hle.
    rewrite (stuck_inactive s taker_active Hinv Hstuck) in Hle by (by intros [[] ?]).
    right; left. split; [done|lia].
  - pose proof (inv_putters _ _ Hinv Hcl (countb_pos _ _ i t Hi Hp)) as Hle.
    rewrite (stuck_inactive s putter_active Hinv Hstuck) in Hle by (by intros [[] ?]).
    right; right. split; [done|lia].
Qed.

End Invariant.

(** ** Concrete runs on the queue of eight places that the calls go through *)

(** Run thread [i] for one step. *)
Ltac run_thread i :=
  eapply lrun_cons;
  [apply step_program; eapply (nstep_thread _ _ _ i);
   [reflexivity | econstructor; reflexivity |
    econstructor; try (apply notify_nobody; by intros [|[|?]] ? ?; simplify_eq/=)] | simpl].

Definition empty8 : abq Z := Abq (replicate 8 0) 0 0 0 false.

Lemma empty8_wf : wf 8 empty8.
Proof. by constructor. Qed.

Lemma put_take_run :
  lrun (step 8) (start empty8 [[CPut 7]; [CTake]])
    [Silent; Silent; Silent; Enq 7; Silent; Silent; Silent; Deq 7]
    (Sys (Abq (7 :: replicate 7 0) 1 1 0 false) None [Thread Ready []; Thread Ready []]).
Proof.
  unfold start; simpl. do 4 run_thread 0%nat. do 4 run_thread 1%nat. constructor.
Qed.

Lemma abq_refines_fifo_witness :
  lrun (spec_step 8) (Spec [] false)
    [Silent; Silent; Silent; Enq 7; Silent; Silent; Silent; Deq 7] (Spec [] false).
Proof.
  refine (abq_refines_fifo (Capacity := 8) _ empty8 _ _ _ empty8_wf put_take_run).
  split; reflexivity.
Defined.

Lemma abq_fifo_order_witness :
  enqs [Silent; Silent; Silent; Enq 7; Silent; Silent; Silent; Deq 7] = [7].
Proof.
  refine (abq_fifo_order (Capacity := 8) _ empty8 _ _ _ empty8_wf put_take_run).
  split; reflexivity.
Defined.

Lemma abq_safe_witness : 0 <= 1 < 8.
Proof.
  refine (proj1 (proj1 (proj2 (abq_safe (Capacity := 8) _ empty8 _ _ _ empty8_wf put_take_run)))).
  split; reflexivity.
Defined.

(** A lone [take] on an empty queue goes to sleep. *)
Lemma lone_take_run :
  lrun (step 8) (start empty8 [[CTake]]) [Silent; Silent; Silent]
    (Sys empty8 None [Thread TakeWait []]).
Proof. unfold start; simpl. do 3 run_thread 0%nat. constructor. Qed.

Lemma lone_take_stuck : stuck 8 (Sys empty8 None [Thread TakeWait []]).
Proof.
  intros e s' [[|i] t q' o' t' sg ts' Hi Ht Hs]; simplify_eq/=. inv Ht.
Qed.

Lemma abq_open_deadlock_witness :
  false = true \/ (true = true /\ 0 = 0) \/ (false = true /\ 0 = 8).
Proof.
  refine (abq_open_deadlock (Capacity := 8) _ empty8 _ _ _ empty8_wf lone_take_run
    eq_refl lone_take_stuck 0%nat (Thread TakeWait []) eq_refl).
  split; reflexivity.
Defined.

(** [close] can miss a thread: [take] looks at [closed] before it has the
    mutex. If [close] runs between the two, the thread goes to sleep on a
    closed queue and nobody is left to wake it, so that joining it never
    returns. *)
Theorem abq_close_misses_taker :
  exists es s, lrun (step 8) (start empty8 [[CTake]; [CClose]]) es s /\
    closed (q s) = true /\ stuck 8 s /\
    threads s = [Thread TakeWait []; Thread Ready []].
Proof.
  eexists _, (Sys (close_body empty8) None [Thread TakeWait []; Thread Ready []]).
  split_and!; [|done| |done].
  - unfold start; simpl. run_thread 0%nat. do 2 run_thread 1%nat. do 2 run_thread 0%nat. constructor.
  - intros e s' [[|[|i]] t q' o' t' sg ts' Hi Ht Hs]; simplify_eq/=; inv Ht.
Qed.

End Threads.
