(* ===== verification/Deque.v ===== *)
(** * The unbounded blocking queue of queue.h

    [Deque<T>] holds the orphaned calls (raft_shm.cc) and the snapshot jobs
    (raft_c_if.cc).  All its accesses to shared data are made with the mutex
    held, so a step of the thread model is a whole critical section: from the
    acquisition of the mutex to its release, which is the end of the call or a
    wait on the condition variable [ready]. *)

From stdpp Require Import base tactics list relations.
From Stdlib Require Import ZArith Lia.
From S2P Require Import Prelude.

Module Deque.
Section Model.
Context {T : Type}.

Record dq := Dq { deque : list T; closed : bool }.

(** How a critical section of [put], [take] or [poll_until] ends. *)
Inductive outcome :=
  | Thrown
  | Sleeps
  | Pushed (d : dq)
  | Popped (v : T) (d : dq).

(** [put] and [emplace]: [check_closed(); deque.push_back(val);
    ready.notify_one();] *)
Definition put_section (v : T) (d : dq) : outcome :=
  if closed d then Thrown else Pushed (Dq (deque d ++ [v]) (closed d)).

(** [take] and [poll_until], from the start or after a wakeup: in both cases
    [check_closed()] comes first, then the test of the loop, then the
    removal of the front. *)
Definition take_section (d : dq) : outcome :=
  if closed d then Thrown
  else match deque d with
       | [] => Sleeps
       | v :: rest => Popped v (Dq rest (closed d))
       end.

Definition close_section (d : dq) : dq := Dq (deque d) true.
Definition reset_section (d : dq) : dq := Dq [] false.

(** A whole call that runs without interference. *)
Definition put (v : T) : M dq () := fun d =>
  match put_section v d with
  | Pushed d' => Ret () d'
  | _ => Throw d
  end.

Definition take : M dq T := fun d =>
  match take_section d with
  | Popped v d' => Ret v d'
  | Sleeps => Block d
  | _ => Throw d
  end.

(** [poll_until] with the time [expired] when it would have to wait. *)
Definition poll_until : M dq (option T) := fun d =>
  match take_section d with
  | Popped v d' => Ret (Some v) d'
  | Sleeps => Ret None d
  | _ => Throw d
  end.

Definition close : M dq () := modify close_section.
Definition reset : M dq () := modify reset_section.

(** ** Threads *)

Inductive call := CPut (v : T) | CTake | CPoll | CClose | CReset.

(** [Wait]: in the wait set; [Wake]: out of it, before the mutex is back. *)
Inductive pc := Ready | TakeWait | TakeWake | PollWait | PollWake.

Record thread := Thread { at_pc : pc; todo : list call }.

Record sys := Sys { d : dq; threads : list thread }.

Inductive event :=
  | Silent
  | Enq (v : T)
  | Deq (v : T)
  | PollFailed
  | Threw
  | Closed
  | Reset.

Inductive signal := SigNone | SigOne | SigAll.

(** The critical section of a consumer: what it does to the deque, the event,
    and the place the thread goes to ([w] when it has to sleep). *)
Definition consume (w : pc) (x : dq) : dq * event * pc :=
  match take_section x with
  | Popped v x' => (x', Deq v, Ready)
  | Sleeps => (x, Silent, w)
  | _ => (x, Threw, Ready)
  end.

Definition produce (v : T) (x : dq) : dq * event * signal :=
  match put_section v x with
  | Pushed x' => (x', Enq v, SigOne)
  | _ => (x, Threw, SigNone)
  end.

Inductive tstep : dq -> thread -> dq -> thread -> signal -> event -> Prop :=
  | put_call x v cs x' e sg :
      produce v x = (x', e, sg) ->
      tstep x (Thread Ready (CPut v :: cs)) x' (Thread Ready cs) sg e
  | take_call x cs x' e p :
      consume TakeWait x = (x', e, p) ->
      tstep x (Thread Ready (CTake :: cs)) x' (Thread p cs) SigNone e
  | take_resume x cs x' e p :
      consume TakeWait x = (x', e, p) ->
      tstep x (Thread TakeWake cs) x' (Thread p cs) SigNone e
  | poll_no_lock x cs :
      tstep x (Thread Ready (CPoll :: cs)) x (Thread Ready cs) SigNone PollFailed
  | poll_call x cs x' e p :
      consume PollWait x = (x', e, p) ->
      tstep x (Thread Ready (CPoll :: cs)) x' (Thread p cs) SigNone e
  | poll_resume x cs x' e p :
      consume PollWait x = (x', e, p) ->
      tstep x (Thread PollWake cs) x' (Thread p cs) SigNone e
  | poll_timeout x p cs :
      p = PollWait \/ p = PollWake ->
      tstep x (Thread p cs) x (Thread Ready cs) SigNone PollFailed
  | close_call x cs :
      tstep x (Thread Ready (CClose :: cs)) (close_section x) (Thread Ready cs) SigAll Closed
  | reset_call x cs :
      tstep x (Thread Ready (CReset :: cs)) (reset_section x) (Thread Ready cs) SigAll Reset.

Definition wake (p : pc) : option pc :=
  match p with TakeWait => Some TakeWake | PollWait => Some PollWake | _ => None end.

Definition woken (t : thread) : thread :=
  match wake (at_pc t) with Some p => Thread p (todo t) | None => t end.

Inductive signalled (ts : list thread) : signal -> list thread -> Prop :=
  | signalled_none : signalled ts SigNone ts
  | signalled_nobody :
      (forall i t, ts !! i = Some t -> wake (at_pc t) = None) -> signalled ts SigOne ts
  | signalled_one i t :
      ts !! i = Some t -> is_Some (wake (at_pc t)) ->
      signalled ts SigOne (<[i := woken t]> ts)
  | signalled_all : signalled ts SigAll (woken <$> ts).

Inductive step (s : sys) : event -> sys -> Prop :=
  | step_thread i t x' t' sg e ts' :
      threads s !! i = Some t ->
      tstep (d s) t x' t' sg e ->
      signalled (<[i := t']> (threads s)) sg ts' ->
      step s e (Sys x' ts')
  | step_spurious i t :
      threads s !! i = Some t -> step s Silent (Sys (d s) (<[i := woken t]> (threads s))).

Definition start (x : dq) (progs : list (list call)) : sys :=
  Sys x (Thread Ready <$> progs).

(** ** The abstract queue *)
Inductive spec_step : dq -> event -> dq -> Prop :=
  | spec_silent x : spec_step x Silent x
  | spec_poll_failed x : spec_step x PollFailed x
  | spec_enq l v : spec_step (Dq l false) (Enq v) (Dq (l ++ [v]) false)
  | spec_deq l v : spec_step (Dq (v :: l) false) (Deq v) (Dq l false)
  | spec_threw l : spec_step (Dq l true) Threw (Dq l true)
  | spec_close l c : spec_step (Dq l c) Closed (Dq l true)
  | spec_reset l c : spec_step (Dq l c) Reset (Dq [] false).

Definition waits (t : thread) : bool :=
  match at_pc t with TakeWait | PollWait => true | _ => false end.

(** A call that may wait. *)
Definition consumes (c : call) : bool :=
  match c with CTake | CPoll => true | _ => false end.

(** Thread [c] is the only one that takes elements. *)
Definition single_consumer (c : nat) (progs : list (list call)) : Prop :=
  forall i cs, progs !! i = Some cs -> i <> c -> forallb (fun x => negb (consumes x)) cs = true.

End Model.

Arguments dq : clear implicits.
Arguments call : clear implicits.
Arguments thread : clear implicits.
Arguments sys : clear implicits.
Arguments event : clear implicits.

Section Facts.
Context {T : Type}.
Implicit Types (s : sys T) (t : thread T).

Lemma tstep_spec (x x' : dq T) t t' sg e :
  tstep x t x' t' sg e -> spec_step x e x'.
Proof.
  intros Ht. destruct x as [l []]; inv Ht;
    unfold consume, produce, take_section, put_section in *; simpl in *;
    repeat case_match; simplify_eq/=; constructor.
Qed.

Lemma step_spec s e s' : step s e s' -> spec_step (d s) e (d s').
Proof. intros [i t x' t' sg e' ts' Hi Ht Hs|]; [by eapply tstep_spec|constructor]. Qed.

(** A thread sleeps after a step only if it slept before, or has just found
    the deque empty and open. *)
Lemma tstep_waits (x x' : dq T) t t' sg e :
  tstep x t x' t' sg e -> waits t' = true -> x' = Dq [] false /\ sg = SigNone.
Proof.
  intros Ht Hw. destruct x as [l c]. inv Ht; unfold consume, take_section, waits in *;
    simpl in *; repeat case_match; simplify_eq/=; done.
Qed.

Lemma woken_waits t : waits (woken t) = false.
Proof. by destruct t as [[] ?]. Qed.

Lemma signalled_waits (ts ts' : list (thread T)) sg j t' :
  signalled ts sg ts' -> ts' !! j = Some t' -> waits t' = true ->
  ts !! j = Some t' /\ sg <> SigAll.
Proof.
  intros Hs Hj Hw. destruct Hs as [| |i t Hi _|]; try done.
  - destruct (decide (i = j)) as [->|].
    + rewrite list_lookup_insert_eq in Hj by eauto using lookup_lt_Some. simplify_eq.
      by rewrite woken_waits in Hw.
    + by rewrite list_lookup_insert_ne in Hj.
  - rewrite list_lookup_fmap, fmap_Some in Hj. destruct Hj as (t & _ & ->).
    by rewrite woken_waits in Hw.
Qed.

(** Nobody sleeps on a closed deque. *)
Definition closed_awake s : Prop :=
  forall i t, threads s !! i = Some t -> waits t = true -> closed (d s) = false.

Lemma closed_awake_step s e s' : closed_awake s -> step s e s' -> closed_awake s'.
Proof.
  intros HI [i t x' t' sg e' ts' Hi Ht Hs|i t Hi] j tj Hj Hw; simpl in *.
  - destruct (signalled_waits _ _ _ _ _ Hs Hj Hw) as [H0 Hsg].
    destruct (decide (i = j)) as [->|].
    + rewrite list_lookup_insert_eq in H0 by eauto using lookup_lt_Some. simplify_eq.
      by destruct (tstep_waits _ _ _ _ _ _ Ht Hw) as [-> _].
    + rewrite list_lookup_insert_ne in H0 by done. specialize (HI j tj H0 Hw).
      apply tstep_spec in Ht as Hsp. inv Ht; simpl in *; try done;
        unfold consume, produce, take_section, put_section in *;
        repeat case_match; simplify_eq/=; congruence.
  - destruct (decide (i = j)) as [->|].
    + rewrite list_lookup_insert_eq in Hj by eauto using lookup_lt_Some. simplify_eq.
      by rewrite woken_waits in Hw.
    + rewrite list_lookup_insert_ne in Hj by done. eauto.
Qed.

Lemma start_places (x : dq T) progs i t :
  threads (start x progs) !! i = Some t -> exists cs, progs !! i = Some cs /\ t = Thread Ready cs.
Proof. simpl. rewrite list_lookup_fmap, fmap_Some. naive_solver. Qed.

Lemma closed_awake_start (x : dq T) progs : closed_awake (start x progs).
Proof. by intros i t (cs & _ & ->)%start_places. Qed.

(** With a single consumer: the others never wait, and the consumer sleeps only
    on an empty deque. *)
Record consumer_inv (c : nat) s : Prop := ConsumerInv {
  others_produce i t : threads s !! i = Some t -> i <> c ->
    at_pc t = Ready /\ forallb (fun x => negb (consumes x)) (todo t) = true;
  sleeps_on_empty t : threads s !! c = Some t -> waits t = true -> deque (d s) = []
}.

Lemma deque_signalled_lookup (ts ts' : list (thread T)) sg j t' :
  signalled ts sg ts' -> ts' !! j = Some t' ->
  exists t, ts !! j = Some t /\ (t' = t \/ t' = woken t).
Proof.
  intros Hs Hj. destruct Hs as [| |i t Hi _|]; eauto.
  - destruct (decide (i = j)) as [->|].
    + rewrite list_lookup_insert_eq in Hj by eauto using lookup_lt_Some. simplify_eq. eauto.
    + rewrite list_lookup_insert_ne in Hj by done. eauto.
  - rewrite list_lookup_fmap, fmap_Some in Hj. destruct Hj as (t & ? & ->). eauto.
Qed.

(** A producer that is between its calls stays there, and signals what it
    puts. *)
Lemma producer_tstep (x x' : dq T) t t' sg e :
  tstep x t x' t' sg e -> at_pc t = Ready ->
  forallb (fun c => negb (consumes c)) (todo t) = true ->
  (at_pc t' = Ready /\ forallb (fun c => negb (consumes c)) (todo t') = true) /\
  (deque x' = [] \/ sg <> SigNone \/ x' = x).
Proof.
  intros Ht Hp Hall. inv Ht; simpl in *; try done; try (by destruct Hp).
  - split; [done|]. unfold produce, put_section in *. case_match; simplify_eq/=; auto.
  - naive_solver.
  - auto.
  - auto.
Qed.

Lemma others_produce_step c s i t x' t' sg e ts' :
  consumer_inv c s -> threads s !! i = Some t -> tstep (d s) t x' t' sg e ->
  signalled (<[i := t']> (threads s)) sg ts' ->
  forall j tj, ts' !! j = Some tj -> j <> c ->
    at_pc tj = Ready /\ forallb (fun x => negb (consumes x)) (todo tj) = true.
Proof.
  intros HI Hi Ht Hs j tj Hj Hne.
  destruct (deque_signalled_lookup _ _ _ _ _ Hs Hj) as (t0 & H0 & Ht0).
  assert (at_pc t0 = Ready /\ forallb (fun x => negb (consumes x)) (todo t0) = true) as Hp.
  { destruct (decide (i = j)) as [->|].
    - rewrite list_lookup_insert_eq in H0 by eauto using lookup_lt_Some. simplify_eq.
      destruct (others_produce _ _ HI _ _ Hi Hne). by eapply producer_tstep.
    - rewrite list_lookup_insert_ne in H0 by done. by eapply others_produce. }
  destruct Ht0 as [-> | ->]; [done|]. unfold woken. by rewrite (proj1 Hp).
Qed.

(** A single [notify_one] reaches the consumer, since nobody else waits. *)
Lemma notify_reaches_consumer c (ts ts' : list (thread T)) sg t :
  (forall i ti, ts !! i = Some ti -> i <> c -> at_pc ti = Ready) ->
  signalled ts sg ts' -> ts' !! c = Some t -> waits t = true -> sg = SigNone.
Proof.
  intros Ho Hs Hc Hw. destruct (signalled_waits _ _ _ _ _ Hs Hc Hw) as [H0 Hsg].
  inv Hs; try done.
  - match goal with Hn : forall i t, _ -> wake _ = None |- _ => specialize (Hn c t Hc) end.
    by destruct t as [[] ?].
  - destruct (decide (i = c)) as [->|Hne].
    + rewrite list_lookup_insert_eq in Hc by eauto using lookup_lt_Some. simplify_eq.
      by rewrite woken_waits in Hw.
    + match goal with
      | Hi : _ !! i = Some ?ti, Hp : is_Some (wake (at_pc ?ti)) |- _ =>
        rewrite (Ho _ _ Hi Hne) in Hp; by destruct Hp
      end.
Qed.

Lemma consumer_inv_step c s e s' : consumer_inv c s -> step s e s' -> consumer_inv c s'.
Proof.
  intros HI [i t x' t' sg e' ts' Hi Ht Hs|i t Hi].
  - pose proof (others_produce_step c s i t x' t' sg e' ts' HI Hi Ht Hs) as Hoth.
    constructor; [done|]; simpl. intros tc Hc Hw.
    destruct (signalled_waits _ _ _ _ _ Hs Hc Hw) as [H0 _].
    destruct (decide (i = c)) as [->|Hne].
    + rewrite list_lookup_insert_eq in H0 by eauto using lookup_lt_Some. simplify_eq.
      by destruct (tstep_waits _ _ _ _ _ _ Ht Hw) as [-> _].
    + rewrite list_lookup_insert_ne in H0 by done.
      pose proof (sleeps_on_empty _ _ HI tc H0 Hw) as Hd.
      destruct (others_produce _ _ HI i t Hi Hne) as [Hr Hall].
      destruct (producer_tstep _ _ _ _ _ _ Ht Hr Hall) as [[Hr' _] [?|[Hsg | ->]]]; try done.
      destruct Hsg. eapply notify_reaches_consumer; [|done..].
      intros j tj. destruct (decide (i = j)) as [->|].
      * rewrite list_lookup_insert_eq by eauto using lookup_lt_Some. naive_solver.
      * rewrite list_lookup_insert_ne by done. intros ? ?. by eapply (others_produce c s).
  - constructor; simpl.
    + intros j tj Hj Hne. destruct (decide (i = j)) as [->|].
      * rewrite list_lookup_insert_eq in Hj by eauto using lookup_lt_Some. simplify_eq.
        destruct (others_produce _ _ HI j t Hi Hne) as [Hr Hall].
        unfold woken. by rewrite Hr.
      * rewrite list_lookup_insert_ne in Hj by done. by eapply others_produce.
    + intros tc Hc Hw. destruct (decide (i = c)) as [->|].
      * rewrite list_lookup_insert_eq in Hc by eauto using lookup_lt_Some. simplify_eq.
        by rewrite woken_waits in Hw.
      * rewrite list_lookup_insert_ne in Hc by done. by eapply sleeps_on_empty.
Qed.

Lemma consumer_inv_start c (x : dq T) progs :
  single_consumer c progs -> consumer_inv c (start x progs).
Proof.
  intros Hp. constructor.
  - intros i t (cs & Hcs & ->)%start_places Hne. split; [done|]. by eapply Hp.
  - by intros t (cs & _ & ->)%start_places.
Qed.

(** ** Properties *)

(** C32: Every run of threads on the deque, time-outs and spurious wakeups
    included, is a run of the abstract queue: first in, first out, unbounded;
    elements go in and out only while the queue is open, and a call throws
    [queue_closed] only when the queue is closed. *)
Theorem deque_refines_spec (x : dq T) progs es s :
  lrun step (start x progs) es s -> lrun spec_step x es (d s).
Proof.
  intros Hrun. change x with (d (start x progs)).
  eapply (lrun_simulation step spec_step (fun _ => True) d); try done.
  intros s0 e s1 _. apply step_spec.
Qed.

(** Closing never leaves a thread behind: in every reachable state, a thread
    that sleeps in [take] or [poll_until] sleeps on an open deque. The check of
    [closed] is made with the mutex held, unlike in [ArrayBlockingQueue]. *)
Theorem deque_close_wakes_all (x : dq T) progs es s i t :
  lrun step (start x progs) es s -> threads s !! i = Some t -> waits t = true ->
  closed (d s) = false.
Proof.
  intros Hrun. revert i t. change (closed_awake s).
  eapply lrun_invariant; [apply closed_awake_step|done|apply closed_awake_start].
Qed.

(** C37: With one consumer thread, as for the orphaned calls and the snapshot
    jobs, no notification is lost: the consumer sleeps only while the deque is
    empty, and no other thread ever sleeps. *)
Theorem deque_single_consumer (x : dq T) progs c es s :
  single_consumer c progs -> lrun step (start x progs) es s ->
  forall i t, threads s !! i = Some t -> waits t = true -> i = c /\ deque (d s) = [].
Proof.
  intros Hp Hrun i t Hi Hw.
  assert (consumer_inv c s) as HI.
  { eapply lrun_invariant; [apply consumer_inv_step|done|by apply consumer_inv_start]. }
  destruct (decide (i = c)) as [->|Hne].
  - split; [done|]. by eapply sleeps_on_empty.
  - destruct (others_produce _ _ HI i t Hi Hne) as [Hr _].
    destruct t; simplify_eq/=.
Qed.

End Facts.

(** ** Concrete runs *)

Ltac run_thread i :=
  eapply lrun_cons; [eapply (step_thread _ i); [reflexivity|econstructor; reflexivity|]|simpl].

Definition empty_deque : dq Z := Dq [] false.

(** The consumer sleeps, is woken by [put], and takes the element. *)
Lemma deque_put_take_run :
  lrun step (start empty_deque [[CTake; CTake]; [CPut 5]])
    [Silent; Enq 5; Deq 5; Silent]
    (Sys empty_deque [Thread TakeWait []; Thread Ready []]).
Proof.
  unfold start; simpl. run_thread 0%nat; [constructor|].
  run_thread 1%nat; [by apply (signalled_one _ 0 (Thread TakeWait [CTake]))|].
  do 2 (run_thread 0%nat; [constructor|]). constructor.
Qed.

Lemma deque_refines_spec_witness :
  lrun spec_step empty_deque [Silent; Enq 5; Deq 5; Silent] empty_deque.
Proof. exact (deque_refines_spec _ _ _ _ deque_put_take_run). Defined.

Lemma deque_close_wakes_all_witness : false = false.
Proof.
  exact (deque_close_wakes_all _ _ _ _ 0%nat (Thread TakeWait []) deque_put_take_run eq_refl eq_refl).
Defined.

Lemma single_consumer_demo : single_consumer 0 [[CTake; CTake]; [CPut 5]].
Proof. by intros [|[|i]] cs ? ?; simplify_eq/=. Qed.

Lemma deque_single_consumer_witness : 0%nat = 0%nat /\ @nil Z = [].
Proof.
  exact (deque_single_consumer _ _ 0%nat _ _ single_consumer_demo deque_put_take_run
    0%nat (Thread TakeWait []) eq_refl eq_refl).
Defined.

End Deque.
