(* ===== verification/Slot.v ===== *)
(** * Call slots

    The call structures, [Timings], and the part of [BaseSlot] and [CallSlot]
    that concerns one slot (raft_shm.h, raft_shm.cc). *)

From stdpp Require Import base tactics list strings relations.
From Stdlib Require Import ZArith Lia Ascii.
From S2P Require Import Prelude CString Defs.

Module Slot.
Import CString Defs.

(** ** Arguments of calls *)

(** Pointers, handles and lengths are integers. *)
Inductive call_args :=
  | NoArgs
  | ApplyArgs (cmd_buf cmd_len timeout_ns : Z)
  | BarrierArgs (timeout_ns : Z)
  | LogEntry (index term : Z) (log_type : RaftLogType) (data_buf data_len : Z)
  | Filename (path : chars)
  | NetworkAddr (host : chars) (port : Z).

(** [Filename::Filename] and [NetworkAddr::NetworkAddr]: [mem] is what the 256
    bytes of the array held before. *)
Definition make_Filename (mem path : chars) : call_args := Filename (strncpy mem path 255).
Definition make_NetworkAddr (mem host : chars) (port : Z) : call_args :=
  NetworkAddr (strncpy mem host 255) (u16 port).

(** ** Timings *)

Definition MAX_ENT : Z := 32.

Record entry := Entry { ent_tag : chars; ts : Z }.

Record Timings := MkTimings { n_entries : Z; entries : list entry }.

(** Value-initialised memory. *)
Definition zero_timings : Timings :=
  MkTimings 0 (replicate 32 (Entry (replicate 20 NUL) 0)).

(** [record(tag, t)] *)
Definition record (tag : chars) (t : Z) (x : Timings) : Timings :=
  if n_entries x <? MAX_ENT then
    let i := Z.to_nat (n_entries x) in
    let ent := match entries x !! i with Some e => e | None => Entry (replicate 20 NUL) 0 end in
    MkTimings (u32 (n_entries x + 1))
      (<[i := Entry (strncpy (ent_tag ent) tag 19) t]> (entries x))
  else x.

(** [Timings(t)]: the entries are not initialised; [mem] is what they held. *)
Definition start_timings (mem : list entry) (t : Z) : Timings :=
  record (lit "start") t (MkTimings 0 mem).

(** [print]: one line per entry after the first, with the time since the start
    and since the entry before, in microseconds ([duration_cast] truncates). *)
Definition print_line (start prev : Z) (e : entry) : chars * Z * Z :=
  (ent_tag e, Z.quot (ts e - start) 1000, Z.quot (ts e - prev) 1000).

Fixpoint print_lines (start prev : Z) (es : list entry) : list (chars * Z * Z) :=
  match es with
  | [] => []
  | e :: es' => print_line start prev e :: print_lines start (ts e) es'
  end.

Definition print (msg_timing : bool) (x : Timings) : list (chars * Z * Z) :=
  if negb msg_timing then []
  else if n_entries x <=? 1 then []
  else match take (Z.to_nat (n_entries x)) (entries x) with
       | [] => []
       | e0 :: es => print_lines (ts e0) (ts e0) es
       end.

(** ** The slot *)

(** [owned] says whether a thread holds the mutex of the slot. *)
Record slot := MkSlot {
  tag : CallTag;
  args : call_args;
  state : CallState;
  client_state : ClientState;
  retval : Z;
  error : RaftError;
  timings : Timings;
  owned : bool
}.

(** [BaseSlot::BaseSlot(tag)] and [CallSlot::CallSlot(argv...)] *)
Definition new_slot (t : CallTag) (a : call_args) : slot :=
  MkSlot t a Pending Issued 0 RAFT_SUCCESS zero_timings false.

Definition set_state (v : CallState) (s : slot) : slot :=
  MkSlot (tag s) (args s) v (client_state s) (retval s) (error s) (timings s) (owned s).
Definition set_client_state (v : ClientState) (s : slot) : slot :=
  MkSlot (tag s) (args s) (state s) v (retval s) (error s) (timings s) (owned s).
Definition set_retval (v : Z) (s : slot) : slot :=
  MkSlot (tag s) (args s) (state s) (client_state s) v (error s) (timings s) (owned s).
Definition set_error (v : RaftError) (s : slot) : slot :=
  MkSlot (tag s) (args s) (state s) (client_state s) (retval s) v (timings s) (owned s).
Definition set_timings (v : Timings) (s : slot) : slot :=
  MkSlot (tag s) (args s) (state s) (client_state s) (retval s) (error s) v (owned s).
Definition set_owned (v : bool) (s : slot) : slot :=
  MkSlot (tag s) (args s) (state s) (client_state s) (retval s) (error s) (timings s) v.

(** [slot->timings.record(tag)] at time [now] *)
Definition record_timing (label : chars) (now : Z) (s : slot) : slot :=
  set_timings (record label now (timings s)) s.

(** [reply(RaftError err)]; [ret_cond.notify_one()] wakes a thread that waits in
    [wait], which looks at [state] again. *)
Definition reply (err : RaftError) (now : Z) : M slot () :=
  modify (set_error err) ;;
  s ← get ;
  assert (negb (is_terminal (state s))) ;;
  modify (set_state (if decide (err = RAFT_SUCCESS) then Success else Error)) ;;
  modify (record_timing (lit "reply sent") now).

(** [reply(uint64_t retval)] *)
Definition reply_value (v : Z) (now : Z) : M slot () :=
  modify (set_retval v) ;; reply RAFT_SUCCESS now.

(** [wait] once the mutex is held and the predicate holds. *)
Definition observe (now : Z) (s : slot) : slot :=
  record_timing (lit "result received") now (set_client_state Observed s).

(** [poll]: [try_to_lock], then the state. *)
Definition poll (s : slot) : bool := negb (owned s) && is_terminal (state s).

(** [std::chrono::milliseconds(wait_ms)] for a [uint64_t]: the count is signed. *)
Definition milliseconds (wait_ms : Z) : Z := s64 wait_ms.

(** [make_ptime]: the time limit of [wait_for] in microseconds; [None] if the
    conversion from milliseconds overflows, which is undefined. *)
Definition make_ptime (now duration : Z) : option Z :=
  let usec := duration * 1000 in
  if (- 2 ^ 63 <=? usec) && (usec <? 2 ^ 63) then Some (now + usec) else None.

(** The end of [get_ptr], after the wait; [res] says whether the pointer is
    given.  The result is the error and the value stored at it. *)
Definition get_ptr_result (res : bool) (s : slot) : RaftError * option Z :=
  if has_ret (tag s) then
    if res then (error s, if decide (error s = RAFT_SUCCESS) then Some (retval s) else None)
    else (RAFT_E_INVALID_ADDRESS, None)
  else (RAFT_E_INVALID_OP, None).

(** ** Facts *)

Record timings_wf (x : Timings) : Prop := TimingsWf {
  tw_n : 0 <= n_entries x <= MAX_ENT;
  tw_len : length (entries x) = 32%nat
}.

Lemma zero_timings_wf : timings_wf zero_timings.
Proof. by constructor. Qed.

Lemma record_wf (label : chars) (t : Z) (x : Timings) :
  timings_wf x -> timings_wf (record label t x).
Proof.
  intros [Hn Hl]. unfold record, MAX_ENT in *. case_if; zbool; [|by constructor].
  constructor; cbn; [|by rewrite length_insert].
  unfold MAX_ENT. rewrite wrap_small by lia. lia.
Qed.

(** Successful replies, as equations. *)
Lemma reply_open (err : RaftError) (now : Z) (s : slot) :
  is_terminal (state s) = false ->
  reply err now s = Ret () (record_timing (lit "reply sent") now
    (set_state (if decide (err = RAFT_SUCCESS) then Success else Error) (set_error err s))).
Proof. intros H. destruct s as [? ? st]; simpl in *. by destruct st. Qed.

Lemma reply_terminal (err : RaftError) (now : Z) (s : slot) :
  is_terminal (state s) = true -> reply err now s = Fault AssertFailed.
Proof. intros H. destruct s as [? ? st]; simpl in *. by destruct st. Qed.

(** The life of a call: the steps a slot can make. *)
Inductive life : slot -> slot -> Prop :=
  | life_dispatch s now : state s = Pending ->
      life s (record_timing (lit "FSM call dispatched") now (set_state Dispatched s))
  | life_reply s s' err now : reply err now s = Ret () s' -> life s s'
  | life_reply_value s s' v now : reply_value v now s = Ret () s' -> life s s'
  | life_observe s now : is_terminal (state s) = true -> life s (observe now s)
  | life_abandon s : client_state s = Issued -> life s (set_client_state Abandoned s)
  | life_lock s b : life s (set_owned b s)
  | life_record s label now : life s (record_timing label now s).

(** Slots that answer consistently: a final state fits the error, and a client
    that has seen the answer has seen a final state. *)
Record slot_wf (s : slot) : Prop := SlotWf {
  sw_success : state s = Success -> error s = RAFT_SUCCESS;
  sw_error : state s = Error -> error s <> RAFT_SUCCESS;
  sw_open : is_terminal (state s) = false -> error s = RAFT_SUCCESS;
  sw_observed : client_state s = Observed -> is_terminal (state s) = true;
  sw_timings : timings_wf (timings s)
}.

Lemma new_slot_wf (t : CallTag) (a : call_args) : slot_wf (new_slot t a).
Proof. by constructor. Qed.

Lemma reply_wf (err : RaftError) (now : Z) (s s' : slot) :
  slot_wf s -> reply err now s = Ret () s' -> slot_wf s'.
Proof.
  intros [] H. destruct (is_terminal (state s)) eqn:E.
  - by rewrite reply_terminal in H.
  - rewrite reply_open in H by done. simplify_eq.
    constructor; cbn; try (by case_decide); try done. by apply record_wf.
Qed.

Lemma reply_value_eq (v now : Z) (s : slot) :
  reply_value v now s = reply RAFT_SUCCESS now (set_retval v s).
Proof. done. Qed.

Lemma life_wf (s s' : slot) : slot_wf s -> life s s' -> slot_wf s'.
Proof.
  intros Hwf Hl. inv Hl; try (by eapply reply_wf).
  - match goal with H : state s = Pending |- _ => rename H into Hp end.
    destruct Hwf. rewrite Hp in *. constructor; cbn; auto using record_wf.
  - rewrite reply_value_eq in *. eapply reply_wf; [|done]. destruct Hwf. by constructor.
  - destruct Hwf. constructor; cbn; try done. by apply record_wf.
  - destruct Hwf. by constructor.
  - destruct Hwf. by constructor.
  - destruct Hwf. constructor; cbn; try done. by apply record_wf.
Qed.

(** What a step does to a slot that has its answer. *)
Lemma life_terminal (s s' : slot) :
  is_terminal (state s) = true -> life s s' ->
  state s' = state s /\ error s' = error s /\ retval s' = retval s.
Proof.
  intros Ht Hl. inv Hl; try done.
  - match goal with H : state s = Pending |- _ => by rewrite H in Ht end.
  - by rewrite reply_terminal in *.
  - rewrite reply_value_eq in *. by rewrite reply_terminal in *.
Qed.

(** The time limit of [raft_future_wait_for]: what was asked for up to 2^63
    microseconds; longer times are undefined, and the longest ones, among them
    the largest [uint64_t], give a time limit in the past. *)
Theorem wait_for_deadline (now wait_ms : Z) :
  0 <= wait_ms < 2 ^ 64 ->
  make_ptime now (milliseconds wait_ms) =
    if wait_ms <=? 9223372036854775 then Some (now + 1000 * wait_ms)
    else if wait_ms <? 2 ^ 64 - 9223372036854775 then None
    else Some (now - 1000 * (2 ^ 64 - wait_ms)).
Proof.
  intros Hw. unfold make_ptime, milliseconds, s64. rewrite !(wrap_small 64) by lia.
  repeat case_if; zbool; try lia; f_equal; lia.
Qed.

Lemma wait_for_deadline_witness : make_ptime 5000000 (milliseconds (2 ^ 64 - 1)) = Some 4999000.
Proof. apply (wait_for_deadline 5000000 (2 ^ 64 - 1)). lia. Defined.

(** ** Properties *)


(** An answer is final: once a slot is in a terminal state, no history
    changes its state, its error or its value; a second reply is stopped by the
    assertion in [reply]. *)
Theorem slot_answer_final (s s' : slot) :
  is_terminal (state s) = true -> rtc life s s' ->
  state s' = state s /\ error s' = error s /\ retval s' = retval s /\
  (forall err now, reply err now s' = Fault AssertFailed).
Proof.
  intros Ht Hr.
  assert (state s' = state s /\ error s' = error s /\ retval s' = retval s) as (H1 & H2 & H3).
  { revert Ht. induction Hr as [s|s s1 s2 Hl Hr IH]; intros Ht; [done|].
    destruct (life_terminal _ _ Ht Hl) as (E1 & E2 & E3).
    destruct IH as (F1 & F2 & F3); [by rewrite E1|]. by rewrite F1, F2, F3. }
  split_and!; try done. intros err now. apply reply_terminal. by rewrite H1.
Qed.

Definition demo_slot : slot := new_slot Apply (ApplyArgs 4096 256 0).

Definition demo_answered : slot :=
  match reply_value 42 7 demo_slot with Ret _ s => s | _ => demo_slot end.

Lemma demo_life : rtc life demo_slot (observe 8 demo_answered).
Proof.
  eapply rtc_l; [by eapply (life_reply_value _ demo_answered 42 7)|].
  apply rtc_once. by apply life_observe.
Qed.


Lemma slot_answer_final_witness : retval (observe 8 demo_answered) = 42.
Proof.
  refine (proj1 (proj2 (proj2 (slot_answer_final demo_answered _ _ _)))).
  - reflexivity.
  - apply rtc_once. constructor. reflexivity.
Defined.

End Slot.
