(* ===== verification/SlotThreads.v ===== *)
(** * Threads on one call slot

    The interleavings of the threads that share a call slot: the FSM worker that
    answers it (raft_c_if.cc), clients that wait, poll, read the answer and
    dispose of it, and the orphan collector (raft_shm.h, raft_shm.cc).  A step is
    one access to a field of the slot, to its mutex or to its condition variable.
    Slot.v and Shm.v treat [reply], [wait], [get_ptr] and [dispose] as single
    actions; here they are sequences of steps, some of them without the mutex,
    and the abstract object they implement is a future that is written once.

    The mutex is [owner], which also says which thread holds it (the flag [owned]
    of the record [slot] is not used in this file). *)

From stdpp Require Import base tactics list strings relations.
From Stdlib Require Import ZArith Lia.
From S2P Require Import Prelude CString Defs Slot.

Module SlotThreads.
Import CString Defs Slot.

(** ** Programs *)

(** A call that a client makes on a future.  [FutureGet res]: [get_ptr], with or
    without a pointer for the value. *)
Inductive call :=
  | FutureWait
  | FuturePoll
  | FutureWaitFor (wait_ms : Z)
  | FutureGet (res : bool).

(** What a client does with the future.  After a call it goes on with [yes] if the
    result was [true] or [RAFT_SUCCESS], and with [no] otherwise.  Nothing comes
    after [raft_future_dispose]. *)
Inductive prog :=
  | Finish
  | Dispose
  | Do (c : call) (yes no : prog).

(** What the worker has to do for a call: apply a command that the FSM answers
    with [response], a log entry that is not a command, a restore that returns
    [result], or a snapshot that is reported complete with [success]. *)
Inductive job :=
  | JApply (response : Z)
  | JNoop
  | JRestore (result : Z)
  | JSnapshot (success : bool).

(** ** Places *)

(** The worker: [fsm_worker_step] with the [dispatch_fsm_*] function of the tag,
    and for a snapshot [raft_fsm_snapshot_complete].  [WAnswer]: a thread of the
    Raft process that is going to call [reply] with the mutex held.  The argument
    of [WUnlock] and [WDone] says whether there was a reply. *)
Inductive wpc :=
  | WAnswer (err : RaftError) (v : Z)
  | WLock (j : job) | WReceived (j : job) | WPending (j : job)
  | WData (response : Z) | WDispatch (response : Z) | WDispatched (response : Z) | WApply (response : Z)
  | WApplied (response : Z) | WRetval (response : Z)
  | WRelease (success : bool) | WPath (success : bool) | WComplete (success : bool)
  | WRestore (result : Z)
  | WError (err : RaftError) | WCheck (err : RaftError) | WState (err : RaftError)
  | WNotify | WRecord | WUnlock (replied : bool) | WDone (replied : bool)
  | WAbort.

(** The places in [CallSlot::dispose] after the load of [client_state]. *)
Inductive dpc := DAbandon | DTrack | DClean | DFree.

(** Where [BaseSlot::wait] returns to. *)
Inductive cont :=
  | InWait (yes no : prog)
  | InGet (res : bool) (yes no : prog).

(** A client.  [CWaitSleep]: in the wait set of [ret_cond]; [CWaitWake]: removed
    from it, and waits for the mutex. *)
Inductive cpc :=
  | CReady (p : prog)
  | CWaitLock (k : cont) | CWaitTest (k : cont) | CWaitSleep (k : cont) | CWaitWake (k : cont)
  | CWaitObserve (k : cont) | CWaitRecord (k : cont) | CWaitUnlock (k : cont)
  | CWaitPrint (yes no : prog) | CWaitError (yes no : prog)
  | CPollTest (yes no : prog) | CPollUnlock (b : bool) (yes no : prog)
  | CGetError (yes no : prog) | CGetRetval (yes no : prog)
  | CGetReturn (v : option Z) (yes no : prog)
  | CDispose (d : dpc)
  | CGone.

(** The collector: it takes the slot from [orphaned_calls] and runs
    [try_dispose_orphan] until that returns [true]. *)
Inductive gpc :=
  | GWait | GTry | GTest | GLoad | GDispose (d : dpc) | GUnlock (disposed : bool) | GDone.

Inductive tid := TWorker | TClient (i : nat) | TCollector.

#[global] Instance tid_eq_dec : EqDecision tid.
Proof. solve_decision. Defined.

(** What is shared: the slot, the holder of its mutex, whether it is in
    [orphaned_calls], and whether it has been deallocated. *)
Record shared := Shared {
  sl : slot;
  owner : option tid;
  tracked : bool;
  freed : bool
}.

Record sys := Sys {
  sh : shared;
  worker : wpc;
  clients : list cpc;
  collector : gpc
}.

(** ** Events *)

(** The result of a call of a client. *)
Inductive outcome :=
  | OWait (err : RaftError)
  | OReady (b : bool)
  | OGet (res : bool) (err : RaftError) (v : option Z).

(** What is seen from outside.  [Retry]: the collector leaves the slot for its
    next round; [Spurious]: a wakeup without a notification. *)
Inductive event :=
  | Silent
  | Retry
  | Spurious
  | Replied (err : RaftError) (v : Z)
  | Returned (o : outcome)
  | Freed.

Definition on_slot (f : slot -> slot) (x : shared) : shared :=
  Shared (f (sl x)) (owner x) (tracked x) (freed x).
Definition set_owner (o : option tid) (x : shared) : shared :=
  Shared (sl x) o (tracked x) (freed x).
Definition set_tracked (b : bool) (x : shared) : shared :=
  Shared (sl x) (owner x) b (freed x).
Definition deallocate_one (x : shared) : shared :=
  Shared (sl x) (owner x) (tracked x) true.

(** [lock]: the mutex, if it is free. *)
Definition acquire (t : tid) (x : shared) : option shared :=
  match owner x with None => Some (set_owner (Some t) x) | Some _ => None end.

(** ** The worker *)

(** [strlen(slot.args.path) > 0] *)
Definition path_given (a : call_args) : bool :=
  match a with
  | Filename path => match c_str path with Some (_ :: _) => true | _ => false end
  | _ => false
  end.

(** [log.data_buf] *)
Definition data_given (a : call_args) : bool :=
  match a with LogEntry _ _ _ data_buf _ => negb (data_buf =? 0) | _ => false end.

Definition error_of (ok : bool) : RaftError := if ok then RAFT_SUCCESS else RAFT_E_OTHER.

(** The dispatch on the tag, after [assert(slot->state == Pending)]. *)
Definition dispatch (j : job) : wpc :=
  match j with
  | JApply response => WData response
  | JNoop => WUnlock false
  | JRestore result => WRestore result
  | JSnapshot success => WRelease success
  end.

(** One step of the worker other than [notify_one]; [now] is the clock. *)
Definition wstep (now : Z) (w : wpc) (x : shared) : option (wpc * shared * event) :=
  let record (label : chars) := on_slot (record_timing label now) x in
  match w with
  | WAnswer err v =>
      x' ← acquire TWorker x;
      Some (if decide (err = RAFT_SUCCESS) then WRetval v else WError err, x', Silent)
  | WLock j => x' ← acquire TWorker x; Some (WReceived j, x', Silent)
  | WReceived j => Some (WPending j, record (lit "FSM call received"), Silent)
  | WPending j =>
      if decide (state (sl x) = Pending) then Some (dispatch j, x, Silent)
      else Some (WAbort, x, Silent)
  | WData v => Some (if data_given (args (sl x)) then WDispatch v else WAbort, x, Silent)
  | WDispatch v => Some (WDispatched v, on_slot (set_state Dispatched) x, Silent)
  | WDispatched v => Some (WApply v, record (lit "FSM call dispatched"), Silent)
  | WApply v => Some (WApplied v, x, Silent)
  | WApplied v => Some (WRetval v, record (lit "FSM command applied"), Silent)
  | WRetval v => Some (WError RAFT_SUCCESS, on_slot (set_retval (u64 v)) x, Silent)
  | WRelease b => Some (WPath b, set_owner None x, Silent)
  | WPath b =>
      if path_given (args (sl x)) then Some (WComplete b, x, Silent)
      else Some (WAbort, x, Silent)
  | WRestore result =>
      if path_given (args (sl x)) then Some (WError (error_of (result =? 0)), x, Silent)
      else Some (WAbort, x, Silent)
  | WComplete b => x' ← acquire TWorker x; Some (WError (error_of b), x', Silent)
  | WError err => Some (WCheck err, on_slot (set_error err) x, Silent)
  | WCheck err =>
      if is_terminal (state (sl x)) then Some (WAbort, x, Silent)
      else Some (WState err, x, Silent)
  | WState err =>
      Some (WNotify,
            on_slot (set_state (if decide (err = RAFT_SUCCESS) then Success else Error)) x,
            Replied (error (sl x)) (retval (sl x)))
  | WNotify => None
  | WRecord => Some (WUnlock true, record (lit "reply sent"), Silent)
  | WUnlock b => Some (WDone b, set_owner None x, Silent)
  | WDone _ | WAbort => None
  end.

(** ** The clients *)

Definition branch (b : bool) (yes no : prog) : cpc := CReady (if b then yes else no).
Definition succeeds (err : RaftError) : bool := bool_decide (err = RAFT_SUCCESS).

(** [get_ptr] after the wait. *)
Definition get_answer (x : shared) (res : bool) (yes no : prog) : cpc * event :=
  if has_ret (tag (sl x)) then
    if res then (CGetError yes no, Silent)
    else (branch false yes no, Returned (OGet res RAFT_E_INVALID_ADDRESS None))
  else (branch false yes no, Returned (OGet res RAFT_E_INVALID_OP None)).

(** [dispose]: the load of [client_state] and the [switch]. *)
Definition dispose_case (x : shared) : dpc :=
  match client_state (sl x) with
  | Issued => DAbandon
  | Observed => DFree
  | Abandoned => DClean
  end.

(** The rest of [dispose]; [None] as the next place when it returns. *)
Definition dstep (d : dpc) (x : shared) : option dpc * shared * event :=
  match d with
  | DAbandon => (Some DTrack, on_slot (set_client_state Abandoned) x, Silent)
  | DTrack => (None, set_tracked true x, Silent)
  | DClean => (Some DFree, x, Silent)
  | DFree => (None, deallocate_one x, Freed)
  end.

(** [wait] returns: to [raft_future_wait], or to [get_ptr]. *)
Definition wait_returns (x : shared) (k : cont) : cpc * event :=
  match k with
  | InWait yes no => (CWaitPrint yes no, Silent)
  | InGet res yes no => get_answer x res yes no
  end.

(** [poll]: [try_to_lock]. *)
Definition try_poll (i : nat) (x : shared) (yes no : prog) : cpc * shared * event :=
  match acquire (TClient i) x with
  | Some x' => (CPollTest yes no, x', Silent)
  | None => (branch false yes no, x, Returned (OReady false))
  end.

(** [wait_for]: [poll] for a time of 0, else [timed_lock]; [late]: its time is
    over. *)
Definition wait_for_step (i : nat) (late : bool) (wait_ms : Z) (yes no : prog) (x : shared) :
  option (cpc * shared * event) :=
  if wait_ms =? 0 then Some (try_poll i x yes no)
  else if late then Some (branch false yes no, x, Returned (OReady false))
  else x' ← acquire (TClient i) x; Some (CPollTest yes no, x', Silent).

(** [get_ptr]: the test of [state], without the mutex. *)
Definition get_ptr_step (res : bool) (yes no : prog) (x : shared) : cpc * event :=
  if is_terminal (state (sl x)) then get_answer x res yes no
  else (CWaitLock (InGet res yes no), Silent).

(** The first step of a call. *)
Definition call_step (i : nat) (late : bool) (c : call) (yes no : prog) (x : shared) :
  option (cpc * shared * event) :=
  match c with
  | FutureWait => Some (CWaitLock (InWait yes no), x, Silent)
  | FuturePoll => Some (try_poll i x yes no)
  | FutureWaitFor wait_ms => wait_for_step i late wait_ms yes no x
  | FutureGet res => let '(c', e) := get_ptr_step res yes no x in Some (c', x, e)
  end.

(** One step of client [i]. *)
Definition cstep (i : nat) (now : Z) (late : bool) (c : cpc) (x : shared) :
  option (cpc * shared * event) :=
  match c with
  | CReady Finish => None
  | CReady Dispose => Some (CDispose (dispose_case x), x, Silent)
  | CReady (Do c yes no) => call_step i late c yes no x
  | CWaitLock k | CWaitWake k => x' ← acquire (TClient i) x; Some (CWaitTest k, x', Silent)
  | CWaitTest k =>
      if is_terminal (state (sl x)) then Some (CWaitObserve k, x, Silent)
      else Some (CWaitSleep k, set_owner None x, Silent)
  | CWaitSleep _ => None
  | CWaitObserve k => Some (CWaitRecord k, on_slot (set_client_state Observed) x, Silent)
  | CWaitRecord k =>
      Some (CWaitUnlock k, on_slot (record_timing (lit "result received") now) x, Silent)
  | CWaitUnlock k =>
      let '(c', e) := wait_returns x k in Some (c', set_owner None x, e)
  | CWaitPrint yes no => Some (CWaitError yes no, x, Silent)
  | CWaitError yes no =>
      let err := error (sl x) in
      Some (branch (succeeds err) yes no, x, Returned (OWait err))
  | CPollTest yes no => Some (CPollUnlock (is_terminal (state (sl x))) yes no, x, Silent)
  | CPollUnlock b yes no => Some (branch b yes no, set_owner None x, Returned (OReady b))
  | CGetError yes no =>
      Some (if succeeds (error (sl x)) then CGetRetval yes no else CGetReturn None yes no, x, Silent)
  | CGetRetval yes no => Some (CGetReturn (Some (retval (sl x))) yes no, x, Silent)
  | CGetReturn v yes no =>
      let err := error (sl x) in
      Some (branch (succeeds err) yes no, x, Returned (OGet true err v))
  | CDispose d =>
      let '(d', x', e) := dstep d x in
      Some (match d' with Some d' => CDispose d' | None => CGone end, x', e)
  | CGone => None
  end.

(** ** The collector *)

Definition gstep (g : gpc) (x : shared) : option (gpc * shared * event) :=
  match g with
  | GWait => if tracked x then Some (GTry, set_tracked false x, Silent) else None
  | GTry =>
      match acquire TCollector x with
      | Some x' => Some (GTest, x', Silent)
      | None => Some (GTry, x, Retry)
      end
  | GTest => Some (if is_terminal (state (sl x)) then GLoad else GUnlock false, x, Silent)
  | GLoad => Some (GDispose (dispose_case x), x, Silent)
  | GDispose d =>
      let '(d', x', e) := dstep d x in
      Some (match d' with Some d' => GDispose d' | None => GUnlock true end, x', e)
  | GUnlock true => Some (GDone, set_owner None x, Silent)
  | GUnlock false => Some (GTry, set_owner None x, Retry)
  | GDone => None
  end.

(** ** The system *)

Definition sleeping (c : cpc) : bool := match c with CWaitSleep _ => true | _ => false end.
Definition wake (c : cpc) : cpc := match c with CWaitSleep k => CWaitWake k | _ => c end.

(** A move of the scheduler.  [MNotify who]: the worker's [notify_one] wakes
    client [who], or nobody. *)
Inductive move :=
  | MWorker (now : Z)
  | MNotify (who : option nat)
  | MClient (i : nat) (now : Z) (late : bool)
  | MCollector
  | MSpurious (i : nat).

(** [notify_one] wakes one of the sleeping clients, if there is one. *)
Definition notify_one (who : option nat) (cs : list cpc) : option (list cpc) :=
  match who with
  | None => if existsb sleeping cs then None else Some cs
  | Some i => c ← cs !! i; if sleeping c then Some (<[i := wake c]> cs) else None
  end.

Definition do_move (m : move) (s : sys) : option (sys * event) :=
  match m with
  | MWorker now =>
      '(w, x, e) ← wstep now (worker s) (sh s);
      Some (Sys x w (clients s) (collector s), e)
  | MNotify who =>
      match worker s with
      | WNotify =>
          cs ← notify_one who (clients s);
          Some (Sys (sh s) WRecord cs (collector s), Silent)
      | _ => None
      end
  | MClient i now late =>
      c ← clients s !! i;
      '(c', x, e) ← cstep i now late c (sh s);
      Some (Sys x (worker s) (<[i := c']> (clients s)) (collector s), e)
  | MCollector =>
      '(g, x, e) ← gstep (collector s) (sh s);
      Some (Sys x (worker s) (clients s) g, e)
  | MSpurious i =>
      c ← clients s !! i;
      if sleeping c then
        Some (Sys (sh s) (worker s) (<[i := wake c]> (clients s)) (collector s), Spurious)
      else None
  end.

Definition step (s : sys) (e : event) (s' : sys) : Prop := exists m, do_move m s = Some (s', e).

(** A run under a given schedule. *)
Fixpoint run (ms : list move) (s : sys) : option (sys * list event) :=
  match ms with
  | [] => Some (s, [])
  | m :: ms' =>
      '(s1, e) ← do_move m s;
      '(s2, es) ← run ms' s1;
      Some (s2, e :: es)
  end.

(** The start: a call in the queue of the worker, and clients that hold it. *)
Definition job_tag (j : job) : CallTag :=
  match j with
  | JApply _ | JNoop => FSMApply
  | JRestore _ => FSMRestore
  | JSnapshot _ => FSMSnapshot
  end.

Definition start (j : job) (a : call_args) (progs : list prog) : sys :=
  Sys (Shared (new_slot (job_tag j) a) None false false) (WLock j) (CReady <$> progs) GWait.

(** A call of a client to the Raft process, which answers it with [reply(v)], or
    with [reply(err)] if it fails. *)
Definition start_api (t : CallTag) (err : RaftError) (v : Z) (a : call_args) (progs : list prog) : sys :=
  Sys (Shared (new_slot t a) None false false) (WAnswer err v) (CReady <$> progs) GWait.

(** A call that has failed at once ([make_error_request], or [send_request] on a
    closed queue): no thread answers it any more. *)
Definition start_failed (err : RaftError) (t : CallTag) (a : call_args) (progs : list prog) : sys :=
  Sys (Shared (set_state Error (set_error err (new_slot t a))) None false false)
    (WDone true) (CReady <$> progs) GWait.

(** The calls there are, their tags, and the answer that each of them gets. *)
Inductive origin :=
  | FromFsm (j : job)
  | FromApi (t : CallTag) (err : RaftError) (v : Z)
  | Failed (t : CallTag) (err : RaftError).

Definition launch (o : origin) (a : call_args) (progs : list prog) : sys :=
  match o with
  | FromFsm j => start j a progs
  | FromApi t err v => start_api t err v a progs
  | Failed t err => start_failed err t a progs
  end.

Definition tag_of (o : origin) : CallTag :=
  match o with FromFsm j => job_tag j | FromApi t _ _ | Failed t _ => t end.

Definition job_reply (j : job) : option (RaftError * Z) :=
  match j with
  | JApply response => Some (RAFT_SUCCESS, u64 response)
  | JNoop => None
  | JRestore result => Some (error_of (result =? 0), 0)
  | JSnapshot success => Some (error_of success, 0)
  end.

Definition reply_of (o : origin) : option (RaftError * Z) :=
  match o with
  | FromFsm j => job_reply j
  | FromApi _ err v => Some (err, if decide (err = RAFT_SUCCESS) then u64 v else 0)
  | Failed _ err => Some (err, 0)
  end.

(** ** The abstract slot: a future that is answered once and freed once *)

Record future := Future { answer : option (RaftError * Z); gone : bool }.

(** What [get_ptr] makes of an answer. *)
Definition get_result (t : CallTag) (res : bool) (a : RaftError * Z) : RaftError * option Z :=
  if has_ret t then
    if res then (a.1, if decide (a.1 = RAFT_SUCCESS) then Some a.2 else None)
    else (RAFT_E_INVALID_ADDRESS, None)
  else (RAFT_E_INVALID_OP, None).

(** The results that a future for a call of tag [t] allows. *)
Definition allowed (t : CallTag) (a : option (RaftError * Z)) (o : outcome) : Prop :=
  match o, a with
  | OReady false, _ => True
  | OReady true, Some _ => True
  | OWait err, Some r => err = r.1
  | OGet res err v, Some r => (err, v) = get_result t res r
  | _, None => False
  end.

Inductive future_step (t : CallTag) : future -> event -> future -> Prop :=
  | future_silent f e : e ∈ [Silent; Retry; Spurious] -> future_step t f e f
  | future_reply err v :
      future_step t (Future None false) (Replied err v) (Future (Some (err, v)) false)
  | future_return a o : allowed t a o -> future_step t (Future a false) (Returned o) (Future a false)
  | future_free r : future_step t (Future (Some r) false) Freed (Future (Some r) true).

(** The answer in the slot. *)
Definition answer_of (s : slot) : option (RaftError * Z) :=
  if is_terminal (state s) then Some (error s, retval s) else None.

Definition abs (s : sys) : future := Future (answer_of (sl (sh s))) (freed (sh s)).

(** ** The invariant *)

(** Who is in a part of the code that runs with the mutex. *)
Definition wholds (w : wpc) : bool :=
  match w with
  | WAnswer _ _ | WLock _ | WPath _ | WComplete _ | WDone _ | WAbort => false
  | _ => true
  end.
Definition cholds (c : cpc) : bool :=
  match c with
  | CWaitTest _ | CWaitObserve _ | CWaitRecord _ | CWaitUnlock _
  | CPollTest _ _ | CPollUnlock _ _ _ => true
  | _ => false
  end.
Definition gholds (g : gpc) : bool :=
  match g with GTest | GLoad | GDispose _ | GUnlock _ => true | _ => false end.

(** What a thread knows of the slot. *)
Definition job_ready (j : job) (s : slot) : Prop :=
  match j with
  | JApply _ => data_given (args s) = true
  | JNoop => True
  | JRestore _ | JSnapshot _ => path_given (args s) = true
  end.

Definition worker_ok (w : wpc) (s : slot) : Prop :=
  match w with
  | WLock j | WReceived j | WPending j => state s = Pending /\ job_ready j s
  | WData _ => state s = Pending /\ data_given (args s) = true
  | WAnswer _ _ | WDispatch _ => state s = Pending
  | WRelease _ | WPath _ | WComplete _ | WRestore _ => state s = Pending /\ path_given (args s) = true
  | WCheck err | WState err => is_terminal (state s) = false /\ error s = err
  | WNotify | WRecord | WUnlock true | WDone true => is_terminal (state s) = true
  | WAbort => False
  | _ => is_terminal (state s) = false
  end.

Definition client_ok (c : cpc) (s : slot) : Prop :=
  match c with
  | CWaitObserve _ | CWaitRecord _ | CWaitUnlock _ | CWaitPrint _ _ | CWaitError _ _
  | CPollUnlock true _ _ => is_terminal (state s) = true
  | CGetError _ _ => is_terminal (state s) = true /\ has_ret (tag s) = true
  | CGetRetval _ _ =>
      is_terminal (state s) = true /\ has_ret (tag s) = true /\ error s = RAFT_SUCCESS
  | CGetReturn v _ _ =>
      is_terminal (state s) = true /\ has_ret (tag s) = true /\
      v = (if decide (error s = RAFT_SUCCESS) then Some (retval s) else None)
  | _ => True
  end.

(** Programs that never dispose of the future. *)
Fixpoint keeps (p : prog) : bool :=
  match p with Finish => true | Dispose => false | Do _ yes no => keeps yes && keeps no end.

Definition cont_keeps (k : cont) : bool :=
  match k with InWait yes no | InGet _ yes no => keeps yes && keeps no end.

Definition client_keeps (c : cpc) : bool :=
  match c with
  | CReady p => keeps p
  | CWaitLock k | CWaitTest k | CWaitSleep k | CWaitWake k | CWaitObserve k | CWaitRecord k
  | CWaitUnlock k => cont_keeps k
  | CWaitPrint yes no | CWaitError yes no | CPollTest yes no | CPollUnlock _ yes no
  | CGetError yes no | CGetRetval yes no | CGetReturn _ yes no => keeps yes && keeps no
  | CDispose _ | CGone => false
  end.

(** The stages of the slot's end: in the hands of the client, with the collector,
    or deallocated. *)
Definition with_client (g : gpc) (x : shared) : Prop :=
  g = GWait /\ tracked x = false /\ freed x = false.

Definition with_collector (w : wpc) (g : gpc) (x : shared) : Prop :=
  match g with
  | GWait => tracked x = true /\ freed x = false
  | GTry | GTest | GUnlock false => tracked x = false /\ freed x = false
  | GLoad | GDispose DClean | GDispose DFree =>
      tracked x = false /\ freed x = false /\ is_terminal (state (sl x)) = true
  | GDispose _ => False
  | GUnlock true | GDone => tracked x = false /\ freed x = true /\ w = WDone true
  end.

Definition client_mem (w : wpc) (c : cpc) (g : gpc) (x : shared) : Prop :=
  match c with
  | CGone =>
      match client_state (sl x) with
      | Issued => False
      | Observed => g = GWait /\ tracked x = false /\ freed x = true
      | Abandoned => with_collector w g x
      end
  | CDispose DAbandon => client_state (sl x) = Issued /\ with_client g x
  | CDispose DTrack => client_state (sl x) = Abandoned /\ with_client g x
  | CDispose DFree => client_state (sl x) = Observed /\ with_client g x
  | CDispose DClean => False
  | _ => client_state (sl x) <> Abandoned /\ with_client g x
  end.

(** Either one client has the future, or there are several and none of them
    disposes of it. *)
Definition memory (s : sys) : Prop :=
  (exists c, clients s = [c] /\ client_mem (worker s) c (collector s) (sh s)) \/
  (length (clients s) <> 1%nat /\ Forall (fun c => client_keeps c = true) (clients s) /\
   with_client (collector s) (sh s)).

Record inv (s : sys) : Prop := Inv {
  inv_wmutex : wholds (worker s) = true <-> owner (sh s) = Some TWorker;
  inv_cmutex i c : clients s !! i = Some c ->
    (cholds c = true <-> owner (sh s) = Some (TClient i));
  inv_range i : owner (sh s) = Some (TClient i) -> is_Some (clients s !! i);
  inv_gmutex : gholds (collector s) = true <-> owner (sh s) = Some TCollector;
  inv_worker : worker_ok (worker s) (sl (sh s));
  inv_clients i c : clients s !! i = Some c -> client_ok c (sl (sh s));
  inv_observed : client_state (sl (sh s)) = Observed -> worker s = WDone true;
  inv_memory : memory s
}.

(** The places whose next step uses the memory of the slot; a thread that sleeps
    on [ret_cond] uses it too. *)
Definition wtouches (w : wpc) : bool :=
  match w with WDone _ | WAbort => false | _ => true end.
Definition ctouches (c : cpc) : bool :=
  match c with CReady Finish | CDispose DTrack | CGone => false | _ => true end.
Definition gtouches (g : gpc) : bool :=
  match g with GWait | GDone => false | _ => true end.

(** ** Steps of the threads *)

(** A step that leaves the answer alone, and one that does not change an answer
    that is there. *)
Record same_answer (s s' : slot) : Prop := SameAnswer {
  sa_tag : tag s' = tag s;
  sa_args : args s' = args s;
  sa_state : state s' = state s;
  sa_error : error s' = error s;
  sa_retval : retval s' = retval s
}.

Record grows (s s' : slot) : Prop := Grows {
  gr_tag : tag s' = tag s;
  gr_args : args s' = args s;
  gr_client : client_state s' = client_state s;
  gr_answer : is_terminal (state s) = true ->
    state s' = state s /\ error s' = error s /\ retval s' = retval s
}.

(** Take apart a step of a thread. *)
Ltac tsteps H :=
  unfold wstep, cstep, gstep, call_step, wait_for_step, get_ptr_step, try_poll, get_answer, wait_returns,
    dstep, acquire in H;
  repeat (first [progress unfold get_ptr_step, get_answer, wait_returns in * | progress simplify_option_eq
                | case_match | progress simplify_eq/=]).

Lemma wstep_mutex now w x w' x' e :
  wstep now w x = Some (w', x', e) -> worker_ok w (sl x) ->
  (wholds w = true <-> owner x = Some TWorker) ->
  (wholds w' = true <-> owner x' = Some TWorker) /\
  (forall u, u <> TWorker -> owner x' = Some u <-> owner x = Some u).
Proof.
  intros H Hok [H1 H2]. destruct w; tsteps H; try naive_solver.
  all: match goal with j : job |- _ => destruct j end; naive_solver.
Qed.

Lemma cstep_mutex i now late c x c' x' e :
  cstep i now late c x = Some (c', x', e) ->
  (cholds c = true <-> owner x = Some (TClient i)) ->
  (cholds c' = true <-> owner x' = Some (TClient i)) /\
  (forall u, u <> TClient i -> owner x' = Some u <-> owner x = Some u).
Proof. intros H [H1 H2]. destruct c; tsteps H; naive_solver. Qed.

Lemma gstep_mutex g x g' x' e :
  gstep g x = Some (g', x', e) ->
  (gholds g = true <-> owner x = Some TCollector) ->
  (gholds g' = true <-> owner x' = Some TCollector) /\
  (forall u, u <> TCollector -> owner x' = Some u <-> owner x = Some u).
Proof. intros H [H1 H2]. destruct g; tsteps H; naive_solver. Qed.

(** What the steps do to the slot. *)
Lemma same_answer_refl s : same_answer s s.
Proof. by constructor. Qed.

Lemma same_answer_grows s s' :
  same_answer s s' -> client_state s' = client_state s -> grows s s'.
Proof. intros [] ?. by constructor. Qed.

Lemma cstep_answer i now late c x c' x' e :
  cstep i now late c x = Some (c', x', e) -> same_answer (sl x) (sl x').
Proof. intros H. destruct c; tsteps H; by constructor. Qed.

Lemma gstep_answer g x g' x' e :
  gstep g x = Some (g', x', e) -> same_answer (sl x) (sl x').
Proof. intros H. destruct g; tsteps H; by constructor. Qed.

Lemma wstep_grows now w x w' x' e :
  wstep now w x = Some (w', x', e) -> worker_ok w (sl x) -> grows (sl x) (sl x').
Proof.
  intros H Hok. destruct w; tsteps H; constructor; simpl in *; try done;
    destruct_and?; try congruence.
  by rewrite Hok.
Qed.

Lemma wstep_ok now w x w' x' e :
  wstep now w x = Some (w', x', e) -> worker_ok w (sl x) -> worker_ok w' (sl x').
Proof.
  intros H Hok. destruct w; tsteps H; simpl in *; try naive_solver.
  all: try (by rewrite Hok); destruct Hok as [Hp Hj]; try (by rewrite Hp).
  destruct j; simpl in *; rewrite ?Hp; done.
Qed.

Lemma cstep_ok i now late c x c' x' e :
  cstep i now late c x = Some (c', x', e) -> client_ok c (sl x) -> client_ok c' (sl x').
Proof.
  intros H Hok. destruct c; tsteps H; simpl in *; try naive_solver;
    unfold succeeds in *; case_bool_decide; naive_solver.
Qed.

Lemma worker_ok_same w s s' : same_answer s s' -> worker_ok w s -> worker_ok w s'.
Proof.
  intros [Et Ea Es Ee Er]. unfold worker_ok, job_ready. by rewrite Es, Ea, Ee.
Qed.

Lemma client_ok_same c s s' : same_answer s s' -> client_ok c s -> client_ok c s'.
Proof.
  intros [Et Ea Es Ee Er]. unfold client_ok. by rewrite Es, Et, Ee, Er.
Qed.

Lemma client_ok_grows c s s' : grows s s' -> client_ok c s -> client_ok c s'.
Proof.
  intros [Et Ea Ec Hg] H.
  destruct (is_terminal (state s)) eqn:E.
  - destruct (Hg eq_refl) as (E1 & E2 & E3). by apply (client_ok_same c s).
  - unfold client_ok in *. repeat case_match; simplify_eq/=; try done; naive_solver congruence.
Qed.

(** A worker that has answered and does not hold the mutex has finished. *)
Lemma worker_finished w s :
  worker_ok w s -> wholds w = false -> is_terminal (state s) = true -> w = WDone true.
Proof.
  intros Hok Hh Ht. destruct w as [| | | | | | | | | | | | | | | | | | | |[]|]; simpl in *;
    destruct_and?; try done; try congruence;
    match goal with Hp : state s = Pending |- _ => by rewrite Hp in Ht end.
Qed.

Lemma wstep_frame now w x w' x' e :
  wstep now w x = Some (w', x', e) ->
  tracked x' = tracked x /\ freed x' = freed x /\ w <> WDone true.
Proof. intros H. destruct w; tsteps H; done. Qed.

Lemma cstep_keeps i now late c x c' x' e :
  cstep i now late c x = Some (c', x', e) -> client_keeps c = true ->
  client_keeps c' = true /\ tracked x' = tracked x /\ freed x' = freed x.
Proof.
  intros H Hk. destruct c; tsteps H; unfold branch, cont_keeps in *; simpl in *;
    rewrite ?andb_true_iff in *; repeat case_match; naive_solver.
Qed.

(** The slot's end, step by step. *)
Lemma wstep_mem now w x w' x' e c g :
  wstep now w x = Some (w', x', e) -> worker_ok w (sl x) ->
  client_mem w c g x -> client_mem w' c g x'.
Proof.
  intros H Hok Hm. destruct (wstep_frame _ _ _ _ _ _ H) as (Et & Ef & Hnd).
  destruct (wstep_grows _ _ _ _ _ _ H Hok) as [_ _ Ec Hg].
  assert (is_terminal (state (sl x)) = true -> is_terminal (state (sl x')) = true) as Hmono.
  { intros Ht. destruct (Hg Ht) as [-> _]. done. }
  clear Hg. unfold client_mem, with_collector, with_client in *. rewrite Et, Ef, Ec.
  repeat case_match; naive_solver.
Qed.

Lemma cstep_mem i now late w c g x c' x' e :
  cstep i now late c x = Some (c', x', e) ->
  client_mem w c g x -> client_mem w c' g x'.
Proof.
  intros H Hm. destruct c as [| | | | | | | | | | | | | | |[]|]; tsteps H;
    unfold dispose_case, branch, with_client in *; simpl in *; destruct_and?; simplify_eq/=;
    repeat case_match; try done; naive_solver.
Qed.

(** Only a slot that the client has given away is with the collector. *)
Lemma gstep_abandoned w c g x g' x' e :
  gstep g x = Some (g', x', e) -> client_mem w c g x ->
  c = CGone /\ client_state (sl x) = Abandoned /\ with_collector w g x.
Proof.
  intros H Hm. assert (~ (g = GWait /\ tracked x = false)) as Hno.
  { intros [-> Ht]. simpl in H. by rewrite Ht in H. }
  unfold client_mem, with_client in Hm. repeat case_match; naive_solver.
Qed.

Lemma gstep_mem w c g x g' x' e :
  gstep g x = Some (g', x', e) -> worker_ok w (sl x) ->
  (gholds g = true -> wholds w = false) ->
  client_mem w c g x -> client_mem w c g' x'.
Proof.
  intros H Hok Hh Hm. pose proof (worker_finished w (sl x) Hok) as Hf.
  destruct (gstep_abandoned _ _ _ _ _ _ _ H Hm) as (-> & Ec & Hc). clear Hm Hok. simpl.
  assert (dispose_case x = DClean) as Ed by (unfold dispose_case; by rewrite Ec).
  destruct g as [| | | |[]|[]|]; tsteps H; try done; rewrite ?Ec; naive_solver.
Qed.

(** ** The invariant holds on every run *)

Lemma inv_worker_step s now w' x' e :
  inv s -> wstep now (worker s) (sh s) = Some (w', x', e) ->
  inv (Sys x' w' (clients s) (collector s)).
Proof.
  intros [Hw Hc Hr Hg Hwo Hco Hob Hm] H.
  destruct (wstep_mutex _ _ _ _ _ _ H Hwo Hw) as [Hw' Hoth].
  pose proof (wstep_grows _ _ _ _ _ _ H Hwo) as Hgr.
  destruct (wstep_frame _ _ _ _ _ _ H) as (Et & Ef & Hnd).
  constructor; simpl; try done.
  - intros i c Hi. rewrite Hoth by done. eauto.
  - intros i. rewrite Hoth by done. eauto.
  - by rewrite Hoth.
  - by eapply wstep_ok.
  - intros i c Hi. eapply client_ok_grows; eauto.
  - rewrite (gr_client _ _ Hgr). intros Ho. by destruct Hnd; auto.
  - destruct Hm as [(c & Ec & Hmem)|(Hl & Hk & Hcl)]; [left|right]; simpl.
    + exists c. split; [done|]. by eapply wstep_mem.
    + split_and!; [done..|]. unfold with_client in *. by rewrite Et, Ef.
Qed.

Lemma inv_client_step s i c now late c' x' e :
  inv s -> clients s !! i = Some c -> cstep i now late c (sh s) = Some (c', x', e) ->
  inv (Sys x' (worker s) (<[i := c']> (clients s)) (collector s)).
Proof.
  intros [Hw Hc Hr Hg Hwo Hco Hob Hm] Hi H.
  destruct (cstep_mutex _ _ _ _ _ _ _ _ H (Hc i c Hi)) as [Hc' Hoth].
  pose proof (cstep_answer _ _ _ _ _ _ _ _ H) as Hs.
  constructor; simpl; try done.
  - by rewrite Hoth.
  - intros j cj Hj. apply list_lookup_insert_Some in Hj as [(<- & <- & _)|[Hne Hj]]; [done|].
    rewrite Hoth by congruence. eauto.
  - intros j Ho. apply lookup_lt_is_Some. rewrite length_insert. apply lookup_lt_is_Some.
    destruct (decide (j = i)) as [->|Hne]; [done|]. apply Hr. apply Hoth; congruence.
  - by rewrite Hoth.
  - by eapply worker_ok_same.
  - intros j cj Hj. apply list_lookup_insert_Some in Hj as [(<- & <- & _)|[Hne Hj]].
    + by eapply cstep_ok; eauto.
    + eapply client_ok_same; eauto.
  - intros Ho. destruct (decide (client_state (sl (sh s)) = Observed)) as [|Hno]; [auto|].
    eapply worker_finished; [done|..].
    + apply not_true_iff_false. intros E%Hw. specialize (Hc i c Hi).
      destruct c; tsteps H; naive_solver.
    + specialize (Hco i c Hi). destruct c; tsteps H; naive_solver.
  - destruct Hm as [(c0 & Ec & Hmem)|(Hl & Hk & Hcl)]; [left|right]; simpl.
    + rewrite Ec in *. destruct i as [|i]; simplify_eq/=. exists c'. split; [done|]. by eapply cstep_mem.
    + destruct (cstep_keeps _ _ _ _ _ _ _ _ H) as (Hk' & Et & Ef).
      { by eapply Forall_lookup_1 in Hi; [|exact Hk]. }
      rewrite length_insert. split_and!; [done|by apply Forall_insert|].
      unfold with_client in *. by rewrite Et, Ef.
Qed.

Lemma inv_collector_step s g' x' e :
  inv s -> gstep (collector s) (sh s) = Some (g', x', e) ->
  inv (Sys x' (worker s) (clients s) g').
Proof.
  intros [Hw Hc Hr Hg Hwo Hco Hob Hm] H.
  destruct (gstep_mutex _ _ _ _ _ H Hg) as [Hg' Hoth].
  pose proof (gstep_answer _ _ _ _ _ H) as Hs.
  assert (exists c, clients s = [c] /\ client_mem (worker s) c (collector s) (sh s)) as (c & Ec & Hmem).
  { destruct Hm as [|(_ & _ & Eg & Et & _)]; [done|]. rewrite Eg in H. simpl in H. by rewrite Et in H. }
  constructor; simpl; try done.
  - by rewrite Hoth.
  - intros i ci Hi. rewrite Hoth by done. eauto.
  - intros i. rewrite Hoth by done. eauto.
  - by eapply worker_ok_same.
  - intros i ci Hi. eapply client_ok_same; eauto.
  - destruct (gstep_abandoned _ _ _ _ _ _ _ H Hmem) as (_ & Ea & Hcol). intros Ho. apply Hob.
    destruct (collector s) as [| | | |[]|[]|]; tsteps H; done.
  - left. exists c. split; [done|]. simpl. eapply gstep_mem; [done|done| |done].
    intros Hh%Hg. apply not_true_iff_false. intros E%Hw. congruence.
Qed.

(** A client that leaves the wait set. *)
Lemma inv_wake s i c :
  inv s -> clients s !! i = Some c -> sleeping c = true ->
  inv (Sys (sh s) (worker s) (<[i := wake c]> (clients s)) (collector s)).
Proof.
  intros [Hw Hc Hr Hg Hwo Hco Hob Hm] Hi Hsl. destruct c as [| | |k| | | | | | | | | | | | |]; try done.
  constructor; simpl; try done.
  - intros j cj Hj. apply list_lookup_insert_Some in Hj as [(<- & <- & _)|[Hne Hj]]; [|eauto].
    by apply (Hc i (CWaitSleep k)).
  - intros j Ho. apply lookup_lt_is_Some. rewrite length_insert. by apply lookup_lt_is_Some, Hr.
  - intros j cj Hj. apply list_lookup_insert_Some in Hj as [(<- & <- & _)|[Hne Hj]]; [done|eauto].
  - destruct Hm as [(c0 & Ec & Hmem)|(Hl & Hk & Hcl)]; [left|right]; simpl.
    + rewrite Ec in *. destruct i as [|i]; simplify_eq/=. by exists (CWaitWake k).
    + rewrite length_insert. split_and!; [done| |done]. apply Forall_insert; [done|]. by eapply Forall_lookup_1 in Hi; [|exact Hk].
Qed.

Lemma inv_notified s : inv s -> worker s = WNotify ->
  inv (Sys (sh s) WRecord (clients s) (collector s)).
Proof.
  intros [Hw Hc Hr Hg Hwo Hco Hob Hm] Ew. unfold memory in Hm. rewrite Ew in *.
  constructor; simpl; try done.
  - intros Ho. by specialize (Hob Ho).
  - destruct Hm as [(c & Ec & Hmem)|Hm]; [left|by right]. exists c. split; [done|].
    unfold client_mem, with_collector in *; simpl. repeat case_match; naive_solver.
Qed.

(** The moves of the scheduler, one by one. *)
Inductive moved (s : sys) : event -> sys -> Prop :=
  | moved_worker now w x e :
      wstep now (worker s) (sh s) = Some (w, x, e) ->
      moved s e (Sys x w (clients s) (collector s))
  | moved_notify_none :
      worker s = WNotify -> existsb sleeping (clients s) = false ->
      moved s Silent (Sys (sh s) WRecord (clients s) (collector s))
  | moved_notify i c :
      worker s = WNotify -> clients s !! i = Some c -> sleeping c = true ->
      moved s Silent (Sys (sh s) WRecord (<[i := wake c]> (clients s)) (collector s))
  | moved_client i now late c c' x e :
      clients s !! i = Some c -> cstep i now late c (sh s) = Some (c', x, e) ->
      moved s e (Sys x (worker s) (<[i := c']> (clients s)) (collector s))
  | moved_collector g x e :
      gstep (collector s) (sh s) = Some (g, x, e) ->
      moved s e (Sys x (worker s) (clients s) g)
  | moved_spurious i c :
      clients s !! i = Some c -> sleeping c = true ->
      moved s Spurious (Sys (sh s) (worker s) (<[i := wake c]> (clients s)) (collector s)).

Lemma step_moved s e s' : step s e s' <-> moved s e s'.
Proof.
  split.
  - intros [m Hm]. destruct m as [now|[i|]|i now late| |i]; unfold do_move in Hm.
    + destruct (wstep now (worker s) (sh s)) as [[[w x] e']|] eqn:H; simplify_eq/=. by econstructor.
    + destruct (worker s) eqn:Ew; simplify_eq/=.
      destruct (clients s !! i) as [c|] eqn:Hi; simplify_eq/=.
      destruct (sleeping c) eqn:Hs; simplify_eq/=. by econstructor.
    + destruct (worker s) eqn:Ew; simplify_eq/=.
      destruct (existsb sleeping (clients s)) eqn:Hs; simplify_eq/=. by econstructor.
    + destruct (clients s !! i) as [c|] eqn:Hi; simplify_eq/=.
      destruct (cstep i now late c (sh s)) as [[[c' x] e']|] eqn:H; simplify_eq/=. by econstructor.
    + destruct (gstep (collector s) (sh s)) as [[[g x] e']|] eqn:H; simplify_eq/=. by econstructor.
    + destruct (clients s !! i) as [c|] eqn:Hi; simplify_eq/=.
      destruct (sleeping c) eqn:Hs; simplify_eq/=. by econstructor.
  - intros [now w x e' H|Ew Hs|i c Ew Hi Hs|i now late c c' x e' Hi H|g x e' H|i c Hi Hs].
    + exists (MWorker now). simpl. by rewrite H.
    + exists (MNotify None). simpl. by rewrite Ew, Hs.
    + exists (MNotify (Some i)). simpl. by rewrite Ew, Hi; simpl; rewrite Hs.
    + exists (MClient i now late). simpl. by rewrite Hi; simpl; rewrite H.
    + exists MCollector. simpl. by rewrite H.
    + exists (MSpurious i). simpl. by rewrite Hi; simpl; rewrite Hs.
Qed.

Lemma slot_inv_step s e s' : inv s -> step s e s' -> inv s'.
Proof.
  intros Hinv [now w x e' H|Ew Hs|i c Ew Hi Hs|i now late c c' x e' Hi H|g x e' H|i c Hi Hs]%step_moved.
  - by eapply inv_worker_step.
  - by apply inv_notified.
  - by apply (inv_wake _ i c (inv_notified s Hinv Ew)).
  - by eapply inv_client_step.
  - by eapply inv_collector_step.
  - by apply inv_wake.
Qed.

(** Clients that may share a future: one client, or several that all keep it. *)
Definition share (progs : list prog) : Prop :=
  length progs = 1%nat \/ Forall (fun p => keeps p = true) progs.

Lemma inv_init x w progs :
  owner x = None -> with_client GWait x -> client_state (sl x) = Issued ->
  wholds w = false -> worker_ok w (sl x) -> share progs ->
  inv (Sys x w (CReady <$> progs) GWait).
Proof.
  intros Ho Hx Hcs Hw Hok Hsh.
  assert (forall i c, (CReady <$> progs) !! i = Some c -> exists p, c = CReady p /\ progs !! i = Some p) as Hr.
  { intros i c. rewrite list_lookup_fmap, fmap_Some. by intros (p & Hp & ->); eauto. }
  constructor; simpl; rewrite ?Ho, ?Hw, ?Hcs; try done.
  - intros i c (p & -> & _)%Hr. done.
  - intros i c (p & -> & _)%Hr. done.
  - destruct (decide (length progs = 1%nat)) as [Hl|Hl].
    + left. destruct progs as [|p [|]]; simplify_eq/=. exists (CReady p). split; [done|]. simpl.
      by rewrite Hcs.
    + right. destruct Hsh as [|Hk]; [done|]. simpl. rewrite length_fmap. split_and!; [done| |apply Hx..].
      apply Forall_fmap. eapply Forall_impl; [exact Hk|]. done.
Qed.

(** Calls that can be dealt with: a command has its data, a snapshot and a restore
    the name of a file. *)
Definition ready (o : origin) (a : call_args) : Prop :=
  match o with FromFsm j => job_ready j (new_slot (job_tag j) a) | _ => True end.

Lemma inv_launch o a progs : ready o a -> share progs -> inv (launch o a progs).
Proof. intros Hr Hsh. by destruct o; apply inv_init. Qed.

Lemma slot_inv_reachable o a progs es s :
  ready o a -> share progs -> lrun step (launch o a progs) es s -> inv s.
Proof.
  intros Hr Hsh Hrun. eapply lrun_invariant; [apply slot_inv_step|done|]. by apply inv_launch.
Qed.

(** A run under a schedule is a run. *)
Lemma run_lrun ms s s' es : run ms s = Some (s', es) -> lrun step s es s'.
Proof.
  revert s s' es. induction ms as [|m ms IH]; intros s s' es H; simpl in H; simplify_eq/=.
  { constructor. }
  destruct (do_move m s) as [[s1 e]|] eqn:E; simplify_eq/=.
  destruct (run ms s1) as [[s2 es2]|] eqn:E2; simplify_eq/=.
  econstructor; [by exists m|by apply IH].
Qed.

End SlotThreads.
