(* ===== verification/SlotFuture.v ===== *)
(** * A call slot is a future

    What the threads of SlotThreads.v make of a call slot: a future that is
    answered once, with the answer of the FSM, and freed once, after its last
    use. *)

From stdpp Require Import base tactics list strings relations.
From Stdlib Require Import ZArith Lia.
From S2P Require Import Prelude CString Defs Slot SlotThreads.

Module SlotFuture.
Import CString Defs Slot SlotThreads.

(** ** Memory, and the abstract future *)

(** After the slot is freed nobody uses it but the collector, which still has to
    unlock its mutex. *)
Lemma freed_quiet s :
  inv s -> freed (sh s) = true ->
  worker s = WDone true /\ (forall c, c ∈ clients s -> c = CGone) /\
  (collector s = GWait \/ collector s = GUnlock true \/ collector s = GDone).
Proof.
  intros Hinv Hf. pose proof (inv_observed s Hinv) as Hob.
  destruct (inv_memory s Hinv) as [(c & Ec & Hm)|(_ & _ & _ & _ & Hf')]; [|congruence].
  assert (c = CGone) as ->.
  { destruct c as [| | | | | | | | | | | | | | |[]|]; try done;
      unfold client_mem, with_client in Hm; naive_solver congruence. }
  rewrite Ec. split_and!.
  - unfold client_mem, with_collector in Hm. rewrite Hf in Hm.
    repeat case_match; naive_solver.
  - by intros c ->%list_elem_of_singleton.
  - unfold client_mem, with_collector in Hm. rewrite Hf in Hm.
    repeat case_match; naive_solver.
Qed.

Lemma answer_of_same s s' : same_answer s s' -> answer_of s' = answer_of s.
Proof. intros [_ _ Es Ee Er]. unfold answer_of. by rewrite Es, Ee, Er. Qed.

Lemma answer_of_open s : is_terminal (state s) = false -> answer_of s = None.
Proof. intros H. unfold answer_of. by rewrite H. Qed.

Lemma answer_of_final s : is_terminal (state s) = true -> answer_of s = Some (error s, retval s).
Proof. intros H. unfold answer_of. by rewrite H. Qed.

Lemma future_quiet t f : future_step t f Silent f.
Proof. constructor. set_solver. Qed.

(** Every step of the worker but the store to [state] is silent. *)
Lemma wstep_silent now w x w' x' e :
  wstep now w x = Some (w', x', e) -> worker_ok w (sl x) ->
  (exists err, w = WState err) \/ (e = Silent /\ answer_of (sl x') = answer_of (sl x)).
Proof.
  intros H Hok. destruct w; tsteps H; eauto; right; split; try done;
    simpl in Hok; unfold answer_of; simpl; by rewrite Hok.
Qed.

Lemma wstep_abs now w x w' x' e :
  wstep now w x = Some (w', x', e) -> worker_ok w (sl x) -> freed x = false ->
  future_step (tag (sl x)) (Future (answer_of (sl x)) (freed x)) e
    (Future (answer_of (sl x')) (freed x')).
Proof.
  intros H Hok Hf. destruct (wstep_frame _ _ _ _ _ _ H) as (_ & Ef & _). rewrite Ef, Hf.
  destruct (wstep_silent _ _ _ _ _ _ H Hok) as [[err ->]|[-> ->]].
  - destruct Hok as [Hop Herr]. simpl in H. simplify_eq.
    rewrite (answer_of_open _ Hop). unfold answer_of; simpl.
    case_decide; simpl; constructor.
  - constructor. set_solver.
Qed.

Lemma cstep_abs i now late c x c' x' e :
  cstep i now late c x = Some (c', x', e) -> client_ok c (sl x) ->
  freed x = false -> (c = CDispose DFree -> is_terminal (state (sl x)) = true) ->
  future_step (tag (sl x)) (Future (answer_of (sl x)) (freed x)) e
    (Future (answer_of (sl x')) (freed x')).
Proof.
  intros H Hok Hf Hd. rewrite (answer_of_same _ _ (cstep_answer _ _ _ _ _ _ _ _ H)).
  destruct c; tsteps H; rewrite Hf; try apply future_quiet; try (by apply future_return);
    destruct_and?; try specialize (Hd eq_refl);
    rewrite answer_of_final by done; constructor; try done;
    cbn [allowed]; unfold get_result; cbn [fst snd]; repeat case_match; congruence.
Qed.

Lemma gstep_abs g x g' x' e :
  gstep g x = Some (g', x', e) ->
  (g = GDispose DFree -> freed x = false /\ is_terminal (state (sl x)) = true) ->
  future_step (tag (sl x)) (Future (answer_of (sl x)) (freed x)) e
    (Future (answer_of (sl x')) (freed x')).
Proof.
  intros H Hd. rewrite (answer_of_same _ _ (gstep_answer _ _ _ _ _ H)).
  destruct g; tsteps H; try (constructor; set_solver).
  destruct (Hd eq_refl) as [-> Ht]. rewrite answer_of_final by done. constructor.
Qed.

(** Every step of the threads is a step of the future. *)
Lemma slot_step_abs s e s' :
  inv s -> step s e s' -> future_step (tag (sl (sh s))) (abs s) e (abs s').
Proof.
  intros Hinv Hst. pose proof (freed_quiet s Hinv) as Hq. unfold abs.
  apply step_moved in Hst
    as [now w x e' H|Ew Hs|i c Ew Hi Hs|i now late c c' x e' Hi H|g x e' H|i c Hi Hs]; simpl;
    try (constructor; set_solver).
  - eapply wstep_abs; [done|by apply inv_worker|]. apply not_true_iff_false. intros Hf.
    destruct (Hq Hf) as (Ew & _). by rewrite Ew in H.
  - eapply cstep_abs; [done|by eapply inv_clients|..].
    + apply not_true_iff_false. intros Hf. destruct (Hq Hf) as (_ & Hc & _).
      rewrite (Hc c) in H by (by eapply list_elem_of_lookup_2). done.
    + intros ->. pose proof (inv_worker s Hinv) as Hok.
      destruct (inv_memory s Hinv) as [(c0 & Ec & Hm)|(_ & Hk & _)].
      * rewrite Ec in Hi. destruct i as [|i]; simplify_eq/=.
        rewrite (inv_observed s Hinv) in Hok by apply Hm. done.
      * by eapply Forall_lookup_1 in Hi; [|exact Hk].
  - eapply gstep_abs; [done|]. intros Eg. rewrite Eg in *.
    destruct (inv_memory s Hinv) as [(c0 & Ec & Hm)|(_ & _ & Hw & _)]; [|congruence].
    rewrite Eg in Hm. destruct (gstep_abandoned _ _ _ _ _ _ _ H Hm) as (_ & _ & Hc).
    simpl in Hc. naive_solver.
Qed.

Lemma step_tag s e s' : inv s -> step s e s' -> tag (sl (sh s')) = tag (sl (sh s)).
Proof.
  intros Hinv [now w x e' H|Ew Hs|i c Ew Hi Hs|i now late c c' x e' Hi H|g x e' H|i c Hi Hs]%step_moved;
    simpl; try done.
  - eapply gr_tag, wstep_grows; [done|]. by apply inv_worker.
  - by eapply sa_tag, cstep_answer.
  - by eapply sa_tag, gstep_answer.
Qed.


(** ** The answer that is due *)

(** The answer that is in the slot, or that the worker is going to give. *)
Definition due (w : wpc) (s : slot) : option (RaftError * Z) :=
  match w with
  | WAnswer err v => Some (err, if decide (err = RAFT_SUCCESS) then u64 v else retval s)
  | WLock j | WReceived j | WPending j =>
      match j with
      | JApply response => Some (RAFT_SUCCESS, u64 response)
      | JNoop => None
      | JRestore result => Some (error_of (result =? 0), retval s)
      | JSnapshot success => Some (error_of success, retval s)
      end
  | WData v | WDispatch v | WDispatched v | WApply v | WApplied v | WRetval v => Some (RAFT_SUCCESS, u64 v)
  | WRelease b | WPath b | WComplete b => Some (error_of b, retval s)
  | WRestore result => Some (error_of (result =? 0), retval s)
  | WError err | WCheck err | WState err => Some (err, retval s)
  | WNotify | WRecord | WUnlock true | WDone true => Some (error s, retval s)
  | WUnlock false | WDone false | WAbort => None
  end.

Definition due_in (s : sys) : option (RaftError * Z) := due (worker s) (sl (sh s)).

Lemma wstep_due now w x w' x' e :
  wstep now w x = Some (w', x', e) -> worker_ok w (sl x) -> due w' (sl x') = due w (sl x).
Proof.
  intros H Hok. destruct w as [|[]|[]|[]|?|?|?|?|?|?|?|?|?|?|?|?|?| | |[]|[]|]; tsteps H;
    destruct_and?; by simplify_eq/=.
Qed.

Lemma due_same w s s' : same_answer s s' -> due w s' = due w s.
Proof. intros [_ _ _ Ee Er]. unfold due. by rewrite Ee, Er. Qed.

(** What is due never changes. *)
Lemma step_due s e s' : inv s -> step s e s' -> due_in s' = due_in s.
Proof.
  intros Hinv Hst. unfold due_in. apply step_moved in Hst
    as [now w x e' H|Ew Hs|i c Ew Hi Hs|i now late c c' x e' Hi H|g x e' H|i c Hi Hs]; simpl;
    rewrite ?Ew; try done.
  - eapply wstep_due; [done|]. by apply inv_worker.
  - by eapply due_same, cstep_answer.
  - by eapply due_same, gstep_answer.
Qed.

Lemma answer_due w s r : worker_ok w s -> answer_of s = Some r -> due w s = Some r.
Proof.
  unfold answer_of. intros Hok Ha. destruct (is_terminal (state s)) eqn:Ht; [|done].
  destruct w as [|[]|[]|[]|?|?|?|?|?|?|?|?|?|?|?|?|?| | |[]|[]|]; simpl in *; destruct_and?;
    simplify_eq; try done; try congruence;
    match goal with Hp : state _ = Pending |- _ => by rewrite Hp in Ht end.
Qed.

(** A result allowed by the answer so far is allowed by the answer that is due. *)
Lemma allowed_due t w s o :
  worker_ok w s -> allowed t (answer_of s) o -> allowed t (due w s) o.
Proof.
  intros Hok Hal. destruct (answer_of s) as [r|] eqn:Ha.
  - by rewrite (answer_due w s r Hok Ha).
  - by destruct o as [|[]|].
Qed.

(** The results and the reply of a run, and what is due. *)
Lemma step_results s e s' :
  inv s -> step s e s' ->
  (forall o, e = Returned o -> allowed (tag (sl (sh s))) (due_in s) o) /\
  (forall err v, e = Replied err v -> due_in s = Some (err, v)).
Proof.
  intros Hinv Hst. pose proof (slot_step_abs s e s' Hinv Hst) as Hf.
  pose proof (slot_inv_step s e s' Hinv Hst) as Hinv'. unfold abs in Hf. split.
  - intros o ->. apply allowed_due; [by apply inv_worker|]. inv Hf; [set_solver|done].
  - intros err v ->. rewrite <- (step_due s _ s' Hinv Hst).
    apply answer_due; [by apply inv_worker|]. inv Hf; [set_solver|done].
Qed.

Lemma lrun_results s es s' :
  lrun step s es s' -> inv s ->
  (forall o, Returned o ∈ es -> allowed (tag (sl (sh s))) (due_in s) o) /\
  (forall err v, Replied err v ∈ es -> due_in s = Some (err, v)).
Proof.
  induction 1 as [s|s e s1 es s2 Hst Hrun IH]; intros Hinv; [set_solver|].
  destruct (step_results s e s1 Hinv Hst) as [Hr Hp].
  destruct (IH (slot_inv_step s e s1 Hinv Hst)) as [IHr IHp].
  rewrite (step_tag s e s1 Hinv Hst), (step_due s e s1 Hinv Hst) in *.
  split; intros; set_solver.
Qed.

(** At the start this is the answer of the call. *)
Lemma launch_due o a progs : due_in (launch o a progs) = reply_of o.
Proof. by destruct o as [[]| |]. Qed.

Lemma launch_tag o a progs : tag (sl (sh (launch o a progs))) = tag_of o.
Proof. by destruct o as [[]| |]. Qed.

(** ** Properties *)

(** C6: A call slot is a future.  Take a call that the FSM worker handles step by
    step (lock, time stamps, the stores to [retval], [error] and [state],
    [notify_one], unlock; for a snapshot in two critical sections), or that the
    Raft process answers with [reply], or that failed at once; any number of
    clients that wait, poll, wait with a time limit and read the answer with
    [get_ptr] (which looks at [state] without the mutex); and the collector, in any
    interleaving and with spurious wakeups.  If there is one client, or none of
    them disposes of the call, the run is one of the abstract future: one reply,
    then one deallocation at most, and no result after it.  Every result that a
    client gets is the one that the answer to the call allows, and no other answer
    is ever stored. *)
Theorem slot_future_refines (o : origin) (a : call_args) (progs : list prog) (es : list event) (s : sys) :
  ready o a -> share progs -> lrun step (launch o a progs) es s ->
  lrun (future_step (tag_of o)) (abs (launch o a progs)) es (abs s) /\
  (forall r, Returned r ∈ es -> allowed (tag_of o) (reply_of o) r) /\
  (forall err v, Replied err v ∈ es -> reply_of o = Some (err, v)).
Proof.
  intros Hr Hsh Hrun. pose proof (inv_launch o a progs Hr Hsh) as Hinv.
  pose proof (launch_tag o a progs) as Ht. split.
  - eapply (lrun_simulation step (future_step (tag_of o))
              (fun s => inv s /\ tag (sl (sh s)) = tag_of o) abs); [| |done|done].
    + intros s1 e s2 [H1 Ht1] Hst. split; [by eapply slot_inv_step|]. by rewrite (step_tag s1 e s2).
    + intros s1 e s2 [H1 <-] Hst. by apply slot_step_abs.
  - rewrite <- (launch_due o a progs), <- Ht. by eapply lrun_results.
Qed.

(** C16: No thread uses a call slot after it is freed, and no assertion of
    [fsm_worker_step] and [reply] fails.  With one client, or several that keep the
    call, in every interleaving: once the slot is deallocated, the worker and the
    clients have finished with it and the collector is done too, but for one
    access: the unlock at the end of [try_dispose_orphan], when the collector
    itself has freed the slot.  The mutex excludes: at most one thread is in a
    critical section. *)
Theorem slot_memory_safe (o : origin) (a : call_args) (progs : list prog) (es : list event) (s : sys) :
  ready o a -> share progs -> lrun step (launch o a progs) es s ->
  worker s <> WAbort /\
  (freed (sh s) = true ->
    wtouches (worker s) = false /\ (forall c, c ∈ clients s -> ctouches c = false) /\
    (gtouches (collector s) = true -> collector s = GUnlock true)) /\
  (forall i k c1 c2, clients s !! i = Some c1 -> clients s !! k = Some c2 ->
    cholds c1 = true -> cholds c2 = true -> i = k) /\
  (wholds (worker s) = true -> forall c, c ∈ clients s -> cholds c = false) /\
  (gholds (collector s) = true ->
    wholds (worker s) = false /\ forall c, c ∈ clients s -> cholds c = false).
Proof.
  intros Hs Hsh Hrun. pose proof (slot_inv_reachable o a progs es s Hs Hsh Hrun) as Hinv.
  pose proof (freed_quiet s Hinv) as Hq. destruct Hinv as [Hw Hc Hr Hg Hwo Hco Hob Hm].
  assert (forall c, c ∈ clients s -> cholds c = true -> exists i, owner (sh s) = Some (TClient i)) as Hcl.
  { intros c [i Hi]%list_elem_of_lookup_1 Hh. exists i. by apply (Hc i c). }
  split_and!.
  - intros Ew. by rewrite Ew in Hwo.
  - intros Hf. destruct (Hq Hf) as (-> & Hcs & Hgs). split_and!; [done|..].
    + by intros c ->%Hcs.
    + intros Ht. by destruct Hgs as [Eg|[Eg|Eg]]; rewrite Eg in *.
  - intros i k c1 c2 Hi Hk H1%(Hc i c1 Hi) H2%(Hc k c2 Hk). congruence.
  - intros Hh%Hw c Hin. apply not_true_iff_false. intros [i Ho]%(Hcl c Hin). congruence.
  - intros Hh%Hg. split.
    + apply not_true_iff_false. intros E%Hw. congruence.
    + intros c Hin. apply not_true_iff_false. intros [i Ho]%(Hcl c Hin). congruence.
Qed.

(** A run: the client reads the answer before the worker has notified and
    unlocked, and disposes of the call; the collector comes once too early. *)
Definition demo_prog : prog := Do (FutureGet true) Dispose (Do (FutureWaitFor 5) Finish Dispose).

Definition demo_args : call_args := LogEntry 1 1 RAFT_LOG_COMMAND 64 4.

Definition demo_moves : list move :=
  replicate 12 (MWorker 9) ++ replicate 7 (MClient 0 9 false) ++ [MCollector; MCollector] ++
  [MNotify None] ++ replicate 2 (MWorker 9) ++ replicate 6 MCollector.

Definition demo_run (n : nat) : sys * list event :=
  match run (take n demo_moves) (start (JApply 7) demo_args [demo_prog]) with
  | Some r => r
  | None => (start JNoop NoArgs [], [])
  end.

Lemma demo_lrun (n : nat) (r : sys * list event) :
  run (take n demo_moves) (start (JApply 7) demo_args [demo_prog]) = Some r ->
  lrun step (start (JApply 7) demo_args [demo_prog]) r.2 r.1.
Proof. destruct r. apply run_lrun. Qed.

Lemma slot_future_refines_witness :
  (demo_run 30).2 ≫= (fun e => match e with Silent => [] | _ => [e] end) =
    [Replied RAFT_SUCCESS 7; Returned (OGet true RAFT_SUCCESS (Some 7)); Retry; Freed] /\
  lrun (future_step FSMApply) (Future None false) (demo_run 30).2 (abs (demo_run 30).1).
Proof.
  split; [by vm_compute|].
  refine (proj1 (slot_future_refines (FromFsm (JApply 7)) demo_args [demo_prog] _ _ _ _ _)).
  - by vm_compute.
  - left. reflexivity.
  - apply (demo_lrun 30). by vm_compute.
Defined.

Lemma slot_memory_safe_witness :
  freed (sh (demo_run 29).1) = true /\ collector (demo_run 29).1 = GUnlock true /\
  wtouches (worker (demo_run 29).1) = false.
Proof.
  split_and!; [by vm_compute..|].
  refine (proj1 (proj1 (proj2 (slot_memory_safe (FromFsm (JApply 7)) demo_args
    [demo_prog] (demo_run 29).2 (demo_run 29).1 _ _ _)) _)).
  - by vm_compute.
  - left. reflexivity.
  - apply (demo_lrun 29). by vm_compute.
  - by vm_compute.
Defined.

End SlotFuture.
