(* ===== verification/SlotProgress.v ===== *)
(** * Waiting on a call slot

    Liveness of the threads of SlotThreads.v: with one client the notification of
    [reply] is never lost and every thread comes to its end; with two clients that
    wait on one call, [notify_one] can leave one of them asleep.  And data races:
    which accesses to the fields of a slot are ordered by the mutex. *)

From stdpp Require Import base tactics list strings relations.
From Stdlib Require Import ZArith Lia.
From S2P Require Import Prelude CString Defs Slot SlotThreads SlotFuture.

Module SlotProgress.
Import CString Defs Slot SlotThreads SlotFuture.

(** ** No lost wakeup *)

(** A client that sleeps although the answer is there is about to be notified. *)
Definition heard (s : sys) : Prop :=
  forall c, clients s = [c] -> sleeping c = true ->
    is_terminal (state (sl (sh s))) = true -> worker s = WNotify.

Lemma wstep_answers now w x w' x' e :
  wstep now w x = Some (w', x', e) ->
  is_terminal (state (sl x')) = true -> is_terminal (state (sl x)) = true \/ w' = WNotify.
Proof. intros H Ht. destruct w; tsteps H; auto; congruence. Qed.

Lemma cstep_sleeps i now late c x c' x' e :
  cstep i now late c x = Some (c', x', e) -> sleeping c' = true ->
  is_terminal (state (sl x')) = false.
Proof. intros H Hs. destruct c; tsteps H; done. Qed.

Lemma existsb_sole c : existsb sleeping [c] = sleeping c.
Proof. simpl. by destruct (sleeping c). Qed.

Lemma wake_awake c : sleeping (wake c) = false.
Proof. by destruct c. Qed.

Lemma insert_sole {A : Type} (l : list A) (i : nat) (x y c : A) :
  l !! i = Some x -> <[i := y]> l = [c] -> c = y /\ l = [x].
Proof.
  intros Hi He. assert (length l = 1%nat) as Hl by (rewrite <- (length_insert l i y), He; done).
  destruct l as [|z [|]]; try done. destruct i as [|i]; by simplify_eq/=.
Qed.

Lemma heard_step s e s' : heard s -> step s e s' -> heard s'.
Proof.
  intros Hh Hst. apply step_moved in Hst
    as [now w x e' H|Ew Hn|i d Ew Hi Hd|i now late d d' x e' Hi H|g x e' H|i d Hi Hd];
    intros c Ec Hs Ht; simpl in *.
  - destruct (wstep_answers _ _ _ _ _ _ H Ht) as [Ht0| ->]; [|done].
    rewrite (Hh c Ec Hs Ht0) in H. done.
  - rewrite Ec, existsb_sole in Hn. congruence.
  - destruct (insert_sole _ _ _ _ _ Hi Ec) as [-> _]. by rewrite wake_awake in Hs.
  - destruct (insert_sole _ _ _ _ _ Hi Ec) as [-> _].
    by rewrite (cstep_sleeps _ _ _ _ _ _ _ _ H Hs) in Ht.
  - apply (Hh c Ec Hs). by rewrite <- (sa_state _ _ (gstep_answer _ _ _ _ _ H)).
  - destruct (insert_sole _ _ _ _ _ Hi Ec) as [-> _]. by rewrite wake_awake in Hs.
Qed.

Lemma clients_length s e s' : step s e s' -> length (clients s') = length (clients s).
Proof. intros []%step_moved; simpl; by rewrite ?length_insert. Qed.

(** ** The work that is left *)

Definition wleft (w : wpc) : Z :=
  match w with
  | WAnswer _ _ => 14
  | WLock _ => 21 | WReceived _ => 20 | WPending _ => 19
  | WData _ => 18 | WDispatch _ => 17 | WDispatched _ => 16 | WApply _ => 15 | WApplied _ => 14 | WRetval _ => 13
  | WRestore _ => 13 | WRelease _ => 15 | WPath _ => 14 | WComplete _ => 13
  | WError _ => 12 | WCheck _ => 11 | WState _ => 10 | WNotify => 9 | WRecord => 2
  | WUnlock _ => 1 | WDone _ | WAbort => 0
  end.

Fixpoint cost (p : prog) : Z :=
  match p with
  | Finish => 0
  | Dispose => 20
  | Do _ yes no => 20 + Z.max (cost yes) (cost no)
  end.

Definition cont_cost (k : cont) : Z :=
  match k with InWait yes no | InGet _ yes no => Z.max (cost yes) (cost no) end.

Definition cleft (c : cpc) : Z :=
  match c with
  | CReady p => cost p
  | CWaitLock k | CWaitWake k => 19 + cont_cost k
  | CWaitTest k => 18 + cont_cost k
  | CWaitSleep k => 17 + cont_cost k
  | CWaitObserve k => 16 + cont_cost k
  | CWaitRecord k => 15 + cont_cost k
  | CWaitUnlock k => 14 + cont_cost k
  | CWaitPrint yes no | CGetError yes no => 13 + Z.max (cost yes) (cost no)
  | CWaitError yes no | CGetRetval yes no => 12 + Z.max (cost yes) (cost no)
  | CGetReturn _ yes no => 11 + Z.max (cost yes) (cost no)
  | CPollTest yes no => 18 + Z.max (cost yes) (cost no)
  | CPollUnlock _ yes no => 17 + Z.max (cost yes) (cost no)
  | CDispose DAbandon => 14 | CDispose DTrack | CDispose DClean => 13 | CDispose DFree => 12
  | CGone => 0
  end.

Definition gleft (g : gpc) (x : shared) : Z :=
  match g with
  | GWait => if tracked x then 10 else 0
  | GTry => 8 | GTest => 7 | GLoad => 6 | GUnlock false => 6
  | GDispose DClean => 5 | GDispose _ => 4 | GUnlock true => 2 | GDone => 0
  end.

(** The work that is left to do with client [c]. *)
Definition left_in (s : sys) (c : cpc) : Z :=
  5 * wleft (worker s) + cleft c + gleft (collector s) (sh s).

(** A retry of the collector, or a spurious wakeup. *)
Definition idle (e : event) : bool := match e with Retry | Spurious => true | _ => false end.

Lemma cost_nonneg p : 0 <= cost p.
Proof. induction p; simpl; lia. Qed.

Lemma cont_cost_nonneg k : 0 <= cont_cost k.
Proof. destruct k as [yes no|res yes no]; simpl; pose proof (cost_nonneg yes); lia. Qed.

Lemma cleft_nonneg c : 0 <= cleft c.
Proof.
  destruct c as [p|k|k|k|k|k|k|k|y n|y n|y n|b y n|y n|y n|v y n|[]|]; simpl;
    try pose proof (cost_nonneg p); try pose proof (cont_cost_nonneg k);
    try pose proof (cost_nonneg y); lia.
Qed.

Lemma left_nonneg s c : 0 <= left_in s c.
Proof.
  assert (0 <= wleft (worker s)) by (by destruct (worker s)).
  assert (0 <= gleft (collector s) (sh s)) by (unfold gleft; repeat case_match; lia).
  pose proof (cleft_nonneg c). unfold left_in. lia.
Qed.

Lemma wstep_left now w x w' x' e :
  wstep now w x = Some (w', x', e) -> wleft w' + 1 <= wleft w /\ idle e = false.
Proof.
  intros H. destruct w as [|[]|[]|[]|?|?|?|?|?|?|?|?|?|?|?|?|?| | |?|?|]; tsteps H; lia.
Qed.

(** A client that has not disposed of the call keeps the collector waiting. *)
Lemma cstep_waiting i now late c x c' x' e w g :
  cstep i now late c x = Some (c', x', e) -> client_mem w c g x ->
  g = GWait /\ tracked x = false.
Proof.
  intros H Hm. destruct c as [| | | | | | | | | | | | | | |[]|]; try done;
    unfold client_mem, with_client in Hm; naive_solver.
Qed.

Lemma cstep_left i now late c x c' x' e :
  cstep i now late c x = Some (c', x', e) -> tracked x = false ->
  cleft c' + gleft GWait x' + 1 <= cleft c + gleft GWait x /\ idle e = false.
Proof.
  intros H Ht. destruct c as [| | | | | | | | | | | | | | |[]|]; tsteps H;
    unfold branch, dispose_case in *; simpl in *; rewrite ?Ht; repeat case_match; simplify_eq/=; split; try done; lia.
Qed.

Lemma gstep_left g x g' x' e w c :
  gstep g x = Some (g', x', e) -> client_mem w c g x ->
  gleft g' x' + 1 <= gleft g x + (if idle e then 3 else 0).
Proof.
  intros H Hm. destruct (gstep_abandoned _ _ _ _ _ _ _ H Hm) as (_ & Ec & Hc).
  assert (dispose_case x = DClean) as Ed by (unfold dispose_case; by rewrite Ec).
  destruct g as [| | | |[]|[]|]; tsteps H; try done; lia.
Qed.

Lemma sole_memory s c :
  inv s -> clients s = [c] -> client_mem (worker s) c (collector s) (sh s).
Proof.
  intros Hinv Ec. destruct (inv_memory s Hinv) as [(c0 & Ec0 & Hm)|[Hl _]].
  - congruence.
  - by rewrite Ec in Hl.
Qed.

(** Every step takes from the work that is left, idle ones apart. *)
Lemma step_left s e s' c :
  inv s -> clients s = [c] -> step s e s' ->
  exists c', clients s' = [c'] /\
    left_in s' c' + 1 <= left_in s c + (if idle e then 3 else 0).
Proof.
  intros Hinv Ec Hst. pose proof (sole_memory s c Hinv Ec) as Hm. unfold left_in.
  apply step_moved in Hst
    as [now w x e' H|Ew Hs|i d Ew Hi Hd|i now late d d' x e' Hi H|g x e' H|i d Hi Hd]; simpl.
  - exists c. split; [done|]. destruct (wstep_left _ _ _ _ _ _ H) as [Hl ->].
    destruct (wstep_frame _ _ _ _ _ _ H) as (Et & _). unfold gleft. rewrite Et. lia.
  - exists c. rewrite Ew. split; [done|]. simpl. lia.
  - rewrite Ec in *. destruct i as [|i]; simplify_eq/=. exists (wake d). split; [done|].
    rewrite Ew. destruct d; simplify_eq/=. lia.
  - rewrite Ec in *. destruct i as [|i]; simplify_eq/=. exists d'. split; [done|].
    destruct (cstep_waiting _ _ _ _ _ _ _ _ _ _ H Hm) as [-> Ht].
    destruct (cstep_left _ _ _ _ _ _ _ _ H Ht) as [Hl ->]. lia.
  - exists c. split; [done|]. pose proof (gstep_left _ _ _ _ _ _ _ H Hm). lia.
  - rewrite Ec in *. destruct i as [|i]; simplify_eq/=. exists (wake d). split; [done|].
    destruct d; simplify_eq/=. lia.
Qed.

(** The number of idle steps of a run. *)
Definition idles (es : list event) : Z := countb idle es.

Lemma lrun_left s es s' c :
  lrun step s es s' -> inv s -> clients s = [c] ->
  exists c', clients s' = [c'] /\ left_in s' c' + Z.of_nat (length es) <= left_in s c + 3 * idles es.
Proof.
  intros Hrun. revert c. induction Hrun as [s|s e s1 es s2 Hst Hrun IH]; intros c Hinv Ec.
  { exists c. split; [done|]. unfold idles. simpl. lia. }
  destruct (step_left s e s1 c Hinv Ec Hst) as (c1 & Ec1 & Hl).
  destruct (IH c1 (slot_inv_step s e s1 Hinv Hst) Ec1) as (c2 & Ec2 & Hl2).
  exists c2. split; [done|]. unfold idles in *. cbn [length countb]. destruct (idle e); lia.
Qed.

(** ** Somebody can always go on *)

Lemma worker_enabled w x :
  worker_ok w (sl x) -> wholds w = true \/ owner x = None ->
  (exists b, w = WDone b) \/ w = WNotify \/ exists w' x' e, wstep 0 w x = Some (w', x', e).
Proof.
  intros Hok Ho. destruct w; simpl in *; eauto; right; right; unfold acquire;
    repeat case_match; simplify_eq/=; eauto; naive_solver.
Qed.

Lemma client_enabled i c x :
  cholds c = true \/ owner x = None -> sleeping c = false ->
  c = CReady Finish \/ c = CGone \/ exists c' x' e, cstep i 0 false c x = Some (c', x', e).
Proof.
  intros Ho Hs. destruct c as [[| |[]]| | | | | | | | | | | | | | | |]; auto; right; right; simpl in *;
    unfold wait_for_step, try_poll, acquire; repeat case_match; simplify_eq/=; eauto; naive_solver.
Qed.

(** All threads have come to their end, and a call that the client has disposed
    of is deallocated. *)
Record finished (s : sys) : Prop := Finished {
  fin_worker : worker s = WDone true;
  fin_client c : c ∈ clients s -> c = CReady Finish \/ (c = CGone /\ freed (sh s) = true);
  fin_collector : collector s = GDone \/ (collector s = GWait /\ tracked (sh s) = false)
}.

(** The work that is left, with the collector led to its next try. *)
Definition glead (g : gpc) (x : shared) : Z :=
  match g with
  | GTest => if is_terminal (state (sl x)) then 7 else 10
  | GUnlock false => 9
  | _ => gleft g x
  end.

Definition lead (s : sys) (c : cpc) : Z :=
  5 * wleft (worker s) + cleft c + glead (collector s) (sh s).

(** [s] can go on to a state with less to do. *)
Definition advances (s : sys) (c : cpc) : Prop :=
  exists e s' c', step s e s' /\ clients s' = [c'] /\ lead s' c' < lead s c.

Lemma advance_worker s c w x e :
  inv s -> clients s = [c] -> wstep 0 (worker s) (sh s) = Some (w, x, e) -> advances s c.
Proof.
  intros Hinv Ec H. eexists _, _, c. split; [apply step_moved; by econstructor|].
  split; [done|]. unfold lead; simpl. destruct (wstep_left _ _ _ _ _ _ H) as [Hl _].
  destruct (wstep_frame _ _ _ _ _ _ H) as (Et & _).
  destruct (wstep_grows _ _ _ _ _ _ H (inv_worker s Hinv)) as [_ _ _ Hg].
  unfold glead, gleft. rewrite Et.
  destruct (is_terminal (state (sl (sh s)))) eqn:Ht.
  - destruct (Hg eq_refl) as [Es _]. rewrite Es, Ht. lia.
  - repeat case_match; lia.
Qed.

Lemma advance_notify s c : clients s = [c] -> worker s = WNotify -> advances s c.
Proof.
  intros Ec Ew. destruct (sleeping c) eqn:Hs.
  - eexists Silent, _, (wake c). split; [apply step_moved; by eapply (moved_notify s 0); rewrite ?Ec|].
    split; [by rewrite Ec|]. unfold lead; simpl. rewrite Ew. destruct c; simplify_eq/=. lia.
  - eexists Silent, _, c. split; [apply step_moved; apply moved_notify_none; [done|]|].
    { by rewrite Ec, existsb_sole. }
    split; [done|]. unfold lead; simpl. rewrite Ew. simpl. lia.
Qed.

Lemma advance_client s c c' x e :
  inv s -> clients s = [c] -> cstep 0 0 false c (sh s) = Some (c', x, e) -> advances s c.
Proof.
  intros Hinv Ec H. eexists _, _, c'. split.
  { apply step_moved. eapply (moved_client s 0); [by rewrite Ec|done]. }
  split; [by rewrite Ec|]. unfold lead; simpl.
  destruct (cstep_waiting _ _ _ _ _ _ _ _ _ _ H (sole_memory s c Hinv Ec)) as [-> Ht].
  destruct (cstep_left _ _ _ _ _ _ _ _ H Ht) as [Hl _]. simpl in *. lia.
Qed.

Lemma advance_collector s c g x e :
  clients s = [c] -> gstep (collector s) (sh s) = Some (g, x, e) ->
  glead g x < glead (collector s) (sh s) -> advances s c.
Proof.
  intros Ec H Hl. eexists _, _, c. split; [apply step_moved; by econstructor|].
  split; [done|]. unfold lead; simpl. lia.
Qed.

(** The collector with the mutex, or with a slot that has its answer. *)
Lemma collector_advances g x w c :
  client_mem w c g x -> gholds g = true \/ (owner x = None /\ is_terminal (state (sl x)) = true) ->
  g = GDone \/ (g = GWait /\ tracked x = false) \/
  exists g' x' e, gstep g x = Some (g', x', e) /\ glead g' x' < glead g x.
Proof.
  intros Hm Ho. destruct g as [| | | |d|[]|]; auto; right; simpl in *.
  - destruct (tracked x); [|auto]. right. eexists _, _, _. split; [done|]. simpl. lia.
  - right. destruct Ho as [|[Ho Ht]]; [done|]. unfold acquire. rewrite Ho.
    eexists _, _, _. split; [done|]. simpl. rewrite Ht. lia.
  - right. eexists _, _, _. split; [done|]. destruct (is_terminal (state (sl x))); simpl; lia.
  - right. eexists _, _, _. split; [done|]. unfold dispose_case. repeat case_match; simpl; try lia.
  - right. destruct d; eexists _, _, _; (split; [done|]); simpl; try lia.
    all: unfold client_mem, with_collector, with_client in Hm; repeat case_match; naive_solver.
  - right. eexists _, _, _. split; [done|]. simpl. lia.
  - right. eexists _, _, _. split; [done|]. simpl. lia.
Qed.

Lemma due_done s b : due_in s <> None -> worker s = WDone b -> b = true.
Proof. unfold due_in. intros Hd Ew. rewrite Ew in Hd. by destruct b. Qed.

(** A thread that holds the mutex can go on. *)
Lemma holder_advances s c t :
  inv s -> clients s = [c] -> owner (sh s) = Some t -> advances s c.
Proof.
  intros Hinv Ec Ho. destruct t as [|i|].
  - pose proof (proj2 (inv_wmutex s Hinv) Ho) as Hh.
    destruct (worker_enabled (worker s) (sh s) (inv_worker s Hinv) (or_introl Hh))
      as [[b Ew]|[Ew|(w' & x' & e & H)]].
    + by rewrite Ew in Hh.
    + by apply advance_notify.
    + by eapply advance_worker.
  - destruct (inv_range s Hinv i Ho) as [d Hi].
    pose proof (proj2 (inv_cmutex s Hinv i d Hi) Ho) as Hh.
    rewrite Ec in Hi. destruct i as [|i]; simplify_eq/=.
    destruct (client_enabled 0 d (sh s) (or_introl Hh)) as [->|[->|(c' & x' & e & H)]];
      [by destruct d|done..|]. by eapply advance_client.
  - pose proof (proj2 (inv_gmutex s Hinv) Ho) as Hh.
    destruct (collector_advances _ _ _ _ (sole_memory s c Hinv Ec) (or_introl Hh))
      as [Eg|[[Eg _]|(g' & x' & e & H & Hl)]]; [by rewrite Eg in Hh..|].
    by eapply advance_collector.
Qed.

Lemma gone_freed w g x :
  client_mem w CGone g x -> g = GDone \/ (g = GWait /\ tracked x = false) -> freed x = true.
Proof.
  intros Hm Hg. unfold client_mem, with_collector in Hm. repeat case_match; naive_solver congruence.
Qed.

(** A thread can go on, or all have come to their end. *)
Lemma advance s c :
  inv s -> heard s -> clients s = [c] -> due_in s <> None -> finished s \/ advances s c.
Proof.
  intros Hinv Hh Ec Hd. destruct (owner (sh s)) as [t|] eqn:Ho; [right; by eapply holder_advances|].
  destruct (worker_enabled (worker s) (sh s) (inv_worker s Hinv) (or_intror Ho))
    as [[b Ew]|[Ew|(w' & x' & e & H)]].
  2: { right. by apply advance_notify. }
  2: { right. by eapply advance_worker. }
  rewrite (due_done s b Hd Ew) in Ew.
  assert (is_terminal (state (sl (sh s))) = true) as Ht.
  { pose proof (inv_worker s Hinv) as Hok. by rewrite Ew in Hok. }
  assert (sleeping c = false) as Hs.
  { apply not_true_iff_false. intros Hs. pose proof (Hh c Ec Hs Ht). congruence. }
  pose proof (sole_memory s c Hinv Ec) as Hm.
  assert ((collector s = GDone \/ (collector s = GWait /\ tracked (sh s) = false)) \/ advances s c)
    as [Hg|]; [| |by right].
  { destruct (collector_advances _ _ _ _ Hm (or_intror (conj Ho Ht)))
      as [Eg|[Eg|(g' & x' & e & H & Hl)]]; [by auto..|]. right. by eapply advance_collector. }
  destruct (client_enabled 0 c (sh s) (or_intror Ho) Hs) as [Hc|[Hc|(c' & x' & e & H)]];
    [left..|right; by eapply advance_client].
  all: constructor; [done| |done]; rewrite Ec; intros d ->%list_elem_of_singleton; subst c.
  - by left.
  - right. split; [done|]. by eapply gone_freed.
Qed.

(** From every reachable state the threads can come to their end. *)
Lemma completes s c :
  inv s -> heard s -> clients s = [c] -> due_in s <> None ->
  exists es s', lrun step s es s' /\ finished s'.
Proof.
  remember (Z.to_nat (lead s c)) as n eqn:En. revert s c En.
  induction n as [n IH] using lt_wf_ind. intros s c En Hinv Hh Ec Hd.
  destruct (advance s c Hinv Hh Ec Hd) as [Hfin|(e & s1 & c1 & Hst & Ec1 & Hl)].
  { exists [], s. split; [constructor|done]. }
  assert (0 <= lead s1 c1) as Hpos.
  { pose proof (left_nonneg s1 c1). unfold lead, left_in in *.
    assert (gleft (collector s1) (sh s1) <= glead (collector s1) (sh s1)); [|lia].
    unfold glead. repeat case_match; simpl; lia. }
  destruct (IH (Z.to_nat (lead s1 c1))) with (s := s1) (c := c1) as (es & s2 & Hrun & Hfin); try done.
  - lia.
  - by eapply slot_inv_step.
  - by eapply heard_step.
  - by rewrite (step_due s e s1).
  - exists (e :: es), s2. split; [by econstructor|done].
Qed.

Lemma heard_launch o a p : heard (launch o a [p]).
Proof. destruct o as [j| |]; by intros c [= <-]. Qed.

Lemma launch_clients o a p : clients (launch o a [p]) = [CReady p].
Proof. by destruct o. Qed.

Lemma heard_reachable s es s' : lrun step s es s' -> heard s -> heard s'.
Proof. apply (lrun_invariant step heard heard_step). Qed.

Lemma due_reachable s es s' : lrun step s es s' -> inv s -> due_in s' = due_in s.
Proof.
  induction 1 as [s|s e s1 es s2 Hst Hrun IH]; intros Hinv; [done|].
  rewrite IH by (by eapply (slot_inv_step s e s1)). by eapply step_due.
Qed.

(** ** Data races *)

(** The fields of a slot that are neither atomic nor constant, and the access of
    a thread's next step to them ([true]: a store). *)
Inductive field := FState | FError | FRetval | FTimings.

Definition waccess (w : wpc) : option (field * bool) :=
  match w with
  | WReceived _ | WDispatched _ | WApplied _ | WRecord => Some (FTimings, true)
  | WPending _ | WCheck _ => Some (FState, false)
  | WDispatch _ | WState _ => Some (FState, true)
  | WRetval _ => Some (FRetval, true)
  | WError _ => Some (FError, true)
  | _ => None
  end.

Definition caccess (c : cpc) : option (field * bool) :=
  match c with
  | CReady (Do (FutureGet _) _ _) | CWaitTest _ | CPollTest _ _ => Some (FState, false)
  | CWaitRecord _ => Some (FTimings, true)
  | CWaitPrint _ _ => Some (FTimings, false)
  | CWaitError _ _ | CGetError _ _ | CGetReturn _ _ _ => Some (FError, false)
  | CGetRetval _ _ => Some (FRetval, false)
  | _ => None
  end.

Definition gaccess (g : gpc) : option (field * bool) :=
  match g with GTest => Some (FState, false) | _ => None end.

(** Two accesses to one field, one of them a store. *)
Definition conflict (a b : option (field * bool)) : Prop :=
  match a, b with
  | Some (f, st), Some (f', st') => f = f' /\ (st || st') = true
  | _, _ => False
  end.

(** Two threads are about to make conflicting accesses. *)
Inductive race (s : sys) : Prop :=
  | race_worker c : c ∈ clients s -> conflict (waccess (worker s)) (caccess c) -> race s
  | race_collector : conflict (waccess (worker s)) (gaccess (collector s)) -> race s
  | race_client_collector c :
      c ∈ clients s -> conflict (caccess c) (gaccess (collector s)) -> race s
  | race_clients i k c d :
      i <> k -> clients s !! i = Some c -> clients s !! k = Some d ->
      conflict (caccess c) (caccess d) -> race s.

(** Programs that call [get_ptr] only after they have seen, with the mutex, that
    the answer is there: after a wait, or a poll that returned [true].  [seen]:
    they have. *)
Fixpoint synced (seen : bool) (p : prog) : bool :=
  match p with
  | Finish | Dispose => true
  | Do FutureWait yes no => synced true yes && synced true no
  | Do FuturePoll yes no | Do (FutureWaitFor _) yes no => synced true yes && synced seen no
  | Do (FutureGet _) yes no => seen && (synced true yes && synced true no)
  end.

Definition cont_synced (seen : bool) (k : cont) : bool :=
  match k with
  | InWait yes no => synced true yes && synced true no
  | InGet _ yes no => seen && (synced true yes && synced true no)
  end.

(** A client that keeps to this, given that the worker has finished or not. *)
Definition client_synced (fin : bool) (c : cpc) : bool :=
  match c with
  | CReady p => synced fin p
  | CWaitLock k | CWaitTest k | CWaitSleep k | CWaitWake k | CWaitObserve k | CWaitRecord k
  | CWaitUnlock k => cont_synced fin k
  | CPollTest yes no | CPollUnlock _ yes no => synced true yes && synced fin no
  | CWaitPrint yes no | CWaitError yes no | CGetError yes no | CGetRetval yes no
  | CGetReturn _ yes no => fin && (synced true yes && synced true no)
  | CDispose _ | CGone => true
  end.

Definition worker_fin (w : wpc) : bool := match w with WDone true => true | _ => false end.

Lemma synced_mono p : synced false p = true -> synced true p = true.
Proof.
  induction p as [| |[] yes IH1 no IH2]; simpl; rewrite ?andb_true_iff; naive_solver.
Qed.

Lemma client_synced_mono c : client_synced false c = true -> client_synced true c = true.
Proof.
  pose proof synced_mono as Hmono.
  destruct c as [p|[]|[]|[]|[]|[]|[]|[]| | | | | | | | |]; simpl; rewrite ?andb_true_iff; naive_solver.
Qed.

Lemma cstep_synced i now late c x c' x' e fin :
  cstep i now late c x = Some (c', x', e) -> client_synced fin c = true ->
  (is_terminal (state (sl x)) = true -> cholds c = true -> fin = true) ->
  (fin = true -> is_terminal (state (sl x)) = true) -> client_ok c (sl x) ->
  client_synced fin c' = true.
Proof.
  intros H Hs Hf Ht Hok. pose proof synced_mono as Hmono.
  destruct c as [p|[]|[]|[]|[]|[]|[]|[]|y n|y n|y n|[] y n|y n|y n|v y n|d|]; tsteps H;
    unfold branch in *; simpl in *; rewrite ?andb_true_iff in *; destruct_and?;
    repeat case_match; simplify_eq/=; rewrite ?andb_true_iff; naive_solver.
Qed.

Definition sync (s : sys) : Prop :=
  inv s /\ exists c, clients s = [c] /\ client_synced (worker_fin (worker s)) c = true.

Lemma wake_synced fin c : client_synced fin (wake c) = client_synced fin c.
Proof. by destruct c. Qed.

(** With the mutex, or after it has finished, the worker does not write. *)
Lemma holder_fin s c :
  inv s -> clients s = [c] -> is_terminal (state (sl (sh s))) = true -> cholds c = true ->
  worker_fin (worker s) = true.
Proof.
  intros Hinv Ec Ht Hh. rewrite (worker_finished _ _ (inv_worker s Hinv)); [done| |done].
  apply not_true_iff_false. intros E%(inv_wmutex s Hinv).
  apply (inv_cmutex s Hinv 0 c) in Hh; [|by rewrite Ec]. congruence.
Qed.

Lemma sync_step s e s' : sync s -> step s e s' -> sync s'.
Proof.
  intros (Hinv & c & Ec & Hs) Hst. split; [by eapply slot_inv_step|].
  apply step_moved in Hst
    as [now w x e' H|Ew Hn|i d Ew Hi Hd|i now late d d' x e' Hi H|g x e' H|i d Hi Hd]; simpl.
  - exists c. split; [done|]. destruct (wstep_frame _ _ _ _ _ _ H) as (_ & _ & Hnd).
    assert (worker_fin (worker s) = false) as Hf by (by destruct (worker s) as [| | | | | | | | | | | | | | | | | | | |[]|]).
    rewrite Hf in Hs. destruct (worker_fin w); [by apply client_synced_mono|done].
  - exists c. by rewrite Ew in Hs.
  - rewrite Ec in *. destruct i as [|i]; simplify_eq/=. exists (wake d). split; [done|].
    rewrite wake_synced. by rewrite Ew in Hs.
  - rewrite Ec in *. destruct i as [|i]; simplify_eq/=. exists d'. split; [done|].
    eapply cstep_synced; [done|done|by intros; eapply holder_fin| |by eapply (inv_clients s Hinv 0); rewrite Ec].
    intros Hf. pose proof (inv_worker s Hinv) as Hok.
    by destruct (worker s) as [| | | | | | | | | | | | | | | | | | | |[]|].
  - by exists c.
  - rewrite Ec in *. destruct i as [|i]; simplify_eq/=. exists (wake d). split; [done|].
    by rewrite wake_synced.
Qed.

(** The accesses of the worker and of the collector are made with the mutex; those
    of a synced client with the mutex, or after the worker has finished. *)
Lemma waccess_holds w : waccess w <> None -> wholds w = true.
Proof. by destruct w. Qed.

Lemma caccess_safe fin c :
  client_synced fin c = true -> caccess c <> None -> cholds c = true \/ fin = true.
Proof.
  destruct c as [[| |[]]| | | | | | | | | | | | | | | |]; simpl; rewrite ?andb_true_iff; naive_solver.
Qed.

Lemma conflict_some a b : conflict a b -> a <> None /\ b <> None.
Proof. by destruct a as [[]|], b as [[]|]. Qed.

Lemma sync_race_free s : sync s -> ~ race s.
Proof.
  intros (Hinv & c & Ec & Hs) [d Hin Hc|Hc|d Hin Hc|i k d d' Hne Hi Hk Hc].
  - rewrite Ec in Hin. apply list_elem_of_singleton in Hin as ->.
    destruct (conflict_some _ _ Hc) as [Ha Hb]. pose proof (waccess_holds _ Ha) as Hw.
    destruct (caccess_safe _ _ Hs Hb) as [Hh|Hf].
    + apply (inv_wmutex s Hinv) in Hw. apply (inv_cmutex s Hinv 0 c) in Hh; [|by rewrite Ec]. congruence.
    + by destruct (worker s).
  - destruct (conflict_some _ _ Hc) as [Ha Hb]. pose proof (waccess_holds _ Ha) as Hw.
    apply (inv_wmutex s Hinv) in Hw. assert (gholds (collector s) = true) as Hg by (by destruct (collector s)).
    apply (inv_gmutex s Hinv) in Hg. congruence.
  - rewrite Ec in Hin. apply list_elem_of_singleton in Hin as ->.
    destruct (conflict_some _ _ Hc) as [Ha Hb].
    assert (collector s = GTest) as Eg by (by destruct (collector s)).
    pose proof (sole_memory s c Hinv Ec) as Hm. rewrite Eg in Hm.
    unfold client_mem, with_client in Hm. repeat case_match; naive_solver.
  - rewrite Ec in *. destruct i as [|i], k as [|k]; by simplify_eq/=.
Qed.

Lemma share_sole p : share [p].
Proof. by left. Qed.

(** ** Properties *)

(** C15: With one client, the notification of [reply] is not lost and everything
    comes to its end.  For every call that has an answer (a command, a restore, a
    snapshot, a call to the Raft process, or one that failed at once) and every
    program of its client, in every reachable state: a client that sleeps on [ret_cond] although the answer
    is there is about to be notified; the threads can go on to a state in which the
    worker has finished, the client is through with its program and the collector
    too, and in which the call is deallocated if the client disposed of it.  A run
    has at most [left_in] steps, plus three for each spurious wakeup and each time
    the collector finds the call busy or unanswered. *)
Theorem slot_completes (o : origin) (a : call_args) (p : prog) (es : list event) (s : sys) :
  ready o a -> reply_of o <> None -> lrun step (launch o a [p]) es s ->
  heard s /\
  (exists es' s', lrun step s es' s' /\ finished s') /\
  Z.of_nat (length es) <= left_in (launch o a [p]) (CReady p) + 3 * idles es.
Proof.
  intros Hr Hd Hrun. pose proof (inv_launch o a [p] Hr (share_sole p)) as Hinv0.
  pose proof (slot_inv_reachable o a [p] es s Hr (share_sole p) Hrun) as Hinv.
  pose proof (heard_reachable _ _ _ Hrun (heard_launch o a p)) as Hh.
  destruct (lrun_left _ es s (CReady p) Hrun Hinv0 (launch_clients o a p)) as (c & Ec & Hl).
  split_and!; [done| |pose proof (left_nonneg s c); lia].
  eapply completes; [done|done|exact Ec|]. by rewrite (due_reachable _ es s Hrun), launch_due.
Qed.

(** C17: The only client of a call, if it looks at the answer only after a wait, or
    after a poll that returned [true], never races with the worker or the
    collector: no reachable state of one client has two threads whose next steps access the same plain field ([state], [error],
    [retval], [timings]), one of them with a store.  This is what makes the model of
    single, ordered accesses right for such a client; two clients of one future race
    on [timings] if one reads them while the other waits. *)
Theorem slot_race_free (o : origin) (a : call_args) (p : prog) (es : list event) (s : sys) :
  ready o a -> synced false p = true -> lrun step (launch o a [p]) es s -> ~ race s.
Proof.
  intros Hr Hp Hrun. apply sync_race_free.
  eapply (lrun_invariant step sync sync_step); [done|]. split.
  - by apply inv_launch, share_sole.
  - exists (CReady p). split; [apply launch_clients|]. simpl.
    destruct (worker_fin _); [by apply synced_mono|done].
Qed.

(** A client that waits, reads the answer and disposes of the call. *)
Definition careful : prog := Do FutureWait (Do (FutureGet true) Dispose Dispose) Dispose.

Definition careful_moves : list move :=
  replicate 3 (MClient 0 9 false) ++ replicate 12 (MWorker 9) ++ [MNotify (Some 0%nat)] ++
  replicate 2 (MWorker 9) ++ replicate 7 (MClient 0 9 false).

Definition careful_run : sys * list event :=
  match run careful_moves (start (JApply 7) demo_args [careful]) with
  | Some r => r
  | None => (start JNoop NoArgs [], [])
  end.

Lemma careful_lrun : lrun step (start (JApply 7) demo_args [careful]) careful_run.2 careful_run.1.
Proof. apply (run_lrun careful_moves). by vm_compute. Qed.

Lemma slot_completes_witness :
  clients careful_run.1 = [CReady (Do (FutureGet true) Dispose Dispose)] /\
  exists es' s', lrun step careful_run.1 es' s' /\ finished s'.
Proof.
  split; [by vm_compute|].
  refine (proj1 (proj2 (slot_completes (FromFsm (JApply 7)) demo_args careful _ _ _ _ careful_lrun))); by vm_compute.
Defined.

Lemma slot_race_free_witness :
  caccess (CReady (Do (FutureGet true) Dispose Dispose)) = Some (FState, false) /\
  ~ race careful_run.1.
Proof.
  split; [by vm_compute|].
  refine (slot_race_free (FromFsm (JApply 7)) demo_args careful _ _ _ _ careful_lrun); by vm_compute.
Defined.

(** [get_ptr] reads [state] without the mutex: on a call that is still open it races
    with the worker. *)
Theorem get_ptr_races :
  exists es s, lrun step (start (JApply 7) demo_args [Do (FutureGet true) Finish Finish]) es s /\
    race s.
Proof.
  destruct (run (replicate 4 (MWorker 9)) (start (JApply 7) demo_args [Do (FutureGet true) Finish Finish]))
    as [[s es]|] eqn:E; [|by vm_compute in E].
  exists es, s. split; [by eapply run_lrun|]. vm_compute in E. simplify_eq.
  eapply (race_worker _ (CReady (Do (FutureGet true) Finish Finish))); [|done]. apply list_elem_of_here.
Qed.

(** Two clients that wait on one call: [reply] notifies one of them, and the other
    one sleeps on although the answer is there and all other threads have finished. *)
Theorem two_waiters_lost :
  exists es s,
    lrun step (start (JApply 7) demo_args [Do FutureWait Finish Finish; Do FutureWait Finish Finish]) es s /\
    abs s = Future (Some (RAFT_SUCCESS, 7)) false /\ worker s = WDone true /\
    clients s = [CReady Finish; CWaitSleep (InWait Finish Finish)] /\
    (forall e s', step s e s' -> e = Spurious).
Proof.
  destruct (run (replicate 3 (MClient 0 9 false) ++ replicate 3 (MClient 1 9 false) ++
                 replicate 12 (MWorker 9) ++ [MNotify (Some 0%nat)] ++ replicate 2 (MWorker 9) ++
                 replicate 7 (MClient 0 9 false))
              (start (JApply 7) demo_args [Do FutureWait Finish Finish; Do FutureWait Finish Finish]))
    as [[s es]|] eqn:E; [|by vm_compute in E].
  exists es, s. split; [by eapply run_lrun|]. vm_compute in E. simplify_eq.
  split_and!; [done..|]. intros e s' Hst. apply step_moved in Hst.
  inv Hst; try done.
  destruct i as [|[|i]]; by simplify_eq/=.
Qed.

End SlotProgress.
