(* ===== verification/Shm.v ===== *)
(** * The shared-memory segment, its calls and the orphan collector

    raft_shm.cc and the templates of raft_shm.h: buffers, call slots and their
    counters (stats.h), the scoreboard with its two queues, requests, waiting,
    and the collection of calls whose future the client has given up.

    The computations are those of one thread.  Where the code waits, the other
    threads and the Raft process run: [sched] is the list of what they will do,
    and [await] lets them go on until the condition holds. *)

From stdpp Require Import base tactics list strings gmap.
From Stdlib Require Import ZArith Lia Ascii.
From S2P Require Import Prelude CString Defs ArrayQueue Deque Slot.

Module Shm.
Import CString Defs Slot.

(** ** The segment

    [boost::interprocess::managed_mapped_file] is a library: what the code
    relies on is that an allocation gives an address of the segment that is not
    in use.  [seg_alloc] is [shm.allocate], [seg_alloc_node] the
    [allocate_one] of the node allocators; [None] stands for [bad_alloc]. *)
Class Segment := {
  shm_base : Z;
  shm_bytes : Z;
  seg_alloc : gset Z -> Z -> option Z;
  seg_alloc_node : gset Z -> option Z;
  seg_range : 0 < shm_base /\ 0 < shm_bytes /\ shm_base + shm_bytes <= 2 ^ 64;
  seg_alloc_fresh used len p : seg_alloc used len = Some p ->
    (p ∉ used) /\ shm_base <= p < shm_base + shm_bytes;
  seg_alloc_node_fresh used p : seg_alloc_node used = Some p ->
    (p ∉ used) /\ shm_base <= p < shm_base + shm_bytes
}.

(** [Stats] (stats.h) *)
Record Stats := MkStats {
  buffer_alloc : Z; buffer_free : Z; call_alloc : Z; call_free : Z }.

(** [Counter::inc] *)
Definition inc (c : Z) : Z := u64 (c + 1).

(** A request as it is queued: [BaseSlot::call_rec] *)
Definition call_rec : Type := CallTag * Z.

(** [CallQueue] holds eight requests. *)
Definition queue_capacity : Z := 8.
Abbreviation CallQueue := (ABQ.abq call_rec).

(** [Scoreboard] *)
Record Scoreboard := MkScoreboard {
  is_raft_running : bool;
  is_leader : bool;
  shutdown_requested : bool;
  raft_killed : bool;
  msg_timing : bool;
  api_queue : CallQueue;
  fsm_queue : CallQueue
}.

Inductive which_queue := ApiQueue | FsmQueue.

(** What other threads and the Raft process can do. *)
Inductive env_step :=
  | ERaftTake
  | ERaftReply (p : Z) (err : RaftError)
  | ERaftReplyValue (p : Z) (v : Z)
  | ELock (p : Z)
  | EUnlock (p : Z)
  | ECloseApi
  | ESetLeader (b : bool)
  | ESetRunning
  | ERaftSend (p : Z) (t : CallTag) (a : call_args)
  | ETick (d : Z).

Record world := World {
  slots : gmap Z slot;
  bufs : gmap Z Z;
  stats : Stats;
  scoreboard : Scoreboard;
  orphaned_calls : Deque.dq Z;
  orphan_backlog : list Z;
  next_check : Z;
  clock : Z;
  stale_unlocks : list Z;
  sched : list env_step
}.

Definition set_slots (v : gmap Z slot) (w : world) : world :=
  World v (bufs w) (stats w) (scoreboard w) (orphaned_calls w) (orphan_backlog w)
    (next_check w) (clock w) (stale_unlocks w) (sched w).
Definition set_bufs (v : gmap Z Z) (w : world) : world :=
  World (slots w) v (stats w) (scoreboard w) (orphaned_calls w) (orphan_backlog w)
    (next_check w) (clock w) (stale_unlocks w) (sched w).
Definition set_stats (v : Stats) (w : world) : world :=
  World (slots w) (bufs w) v (scoreboard w) (orphaned_calls w) (orphan_backlog w)
    (next_check w) (clock w) (stale_unlocks w) (sched w).
Definition set_scoreboard (v : Scoreboard) (w : world) : world :=
  World (slots w) (bufs w) (stats w) v (orphaned_calls w) (orphan_backlog w)
    (next_check w) (clock w) (stale_unlocks w) (sched w).
Definition set_orphaned_calls (v : Deque.dq Z) (w : world) : world :=
  World (slots w) (bufs w) (stats w) (scoreboard w) v (orphan_backlog w)
    (next_check w) (clock w) (stale_unlocks w) (sched w).
Definition set_orphan_backlog (v : list Z) (w : world) : world :=
  World (slots w) (bufs w) (stats w) (scoreboard w) (orphaned_calls w) v
    (next_check w) (clock w) (stale_unlocks w) (sched w).
Definition set_next_check (v : Z) (w : world) : world :=
  World (slots w) (bufs w) (stats w) (scoreboard w) (orphaned_calls w) (orphan_backlog w)
    v (clock w) (stale_unlocks w) (sched w).
Definition set_clock (v : Z) (w : world) : world :=
  World (slots w) (bufs w) (stats w) (scoreboard w) (orphaned_calls w) (orphan_backlog w)
    (next_check w) v (stale_unlocks w) (sched w).
Definition set_stale_unlocks (v : list Z) (w : world) : world :=
  World (slots w) (bufs w) (stats w) (scoreboard w) (orphaned_calls w) (orphan_backlog w)
    (next_check w) (clock w) v (sched w).
Definition set_sched (v : list env_step) (w : world) : world :=
  World (slots w) (bufs w) (stats w) (scoreboard w) (orphaned_calls w) (orphan_backlog w)
    (next_check w) (clock w) (stale_unlocks w) v.

Definition get_queue (which : which_queue) (w : world) : CallQueue :=
  match which with
  | ApiQueue => api_queue (scoreboard w)
  | FsmQueue => fsm_queue (scoreboard w)
  end.

Definition set_queue (which : which_queue) (q : CallQueue) (w : world) : world :=
  let sb := scoreboard w in
  set_scoreboard
    match which with
    | ApiQueue => MkScoreboard (is_raft_running sb) (is_leader sb) (shutdown_requested sb)
                    (raft_killed sb) (msg_timing sb) q (fsm_queue sb)
    | FsmQueue => MkScoreboard (is_raft_running sb) (is_leader sb) (shutdown_requested sb)
                    (raft_killed sb) (msg_timing sb) (api_queue sb) q
    end w.

Definition set_flags (running leader : bool) (w : world) : world :=
  let sb := scoreboard w in
  set_scoreboard (MkScoreboard running leader (shutdown_requested sb) (raft_killed sb)
    (msg_timing sb) (api_queue sb) (fsm_queue sb)) w.

Definition request_shutdown (w : world) : world :=
  let sb := scoreboard w in
  set_scoreboard (MkScoreboard (is_raft_running sb) (is_leader sb) true (raft_killed sb)
    (msg_timing sb) (api_queue sb) (fsm_queue sb)) w.

(** The counters that the code increments. *)
Definition count_call_alloc (w : world) : world :=
  let s := stats w in
  set_stats (MkStats (buffer_alloc s) (buffer_free s) (inc (call_alloc s)) (call_free s)) w.
Definition count_call_free (w : world) : world :=
  let s := stats w in
  set_stats (MkStats (buffer_alloc s) (buffer_free s) (call_alloc s) (inc (call_free s))) w.
Definition count_buffer_alloc (w : world) : world :=
  let s := stats w in
  set_stats (MkStats (inc (buffer_alloc s)) (buffer_free s) (call_alloc s) (call_free s)) w.
Definition count_buffer_free (w : world) : world :=
  let s := stats w in
  set_stats (MkStats (buffer_alloc s) (inc (buffer_free s)) (call_alloc s) (call_free s)) w.

(** The state after [shm_init]: the segment is new, so its memory is zero. *)
Definition empty_queue : CallQueue := ABQ.Abq (replicate 8 (Invalid, 0)) 0 0 0 false.

Definition init_world (msg_timing : bool) (es : list env_step) : world :=
  World ∅ ∅ (MkStats 0 0 0 0)
    (MkScoreboard false false false false msg_timing empty_queue empty_queue)
    (Deque.Dq [] false) [] 0 0 [] es.

(** ** Other threads *)

(** Change the slot at [p], if there is one. *)
Definition update_slot (p : Z) (f : slot -> slot) (w : world) : world :=
  set_slots (alter f p (slots w)) w.

(** A reply made by another thread; if it fails an assertion, that thread ends
    and the slot is as it was. *)
Definition env_reply (p : Z) (m : M slot ()) (w : world) : world :=
  update_slot p (fun s => match m s with Ret _ s' => s' | _ => s end) w.

(** [send_fsm_request] by the Raft process, whose allocator picks the address
    [p].  The slot is allocated and counted before [put]: when the queue is
    closed [put] throws, and the slot is left in the segment and in no queue.  A
    [put] that has to wait for room is not over, and no event yet. *)
Definition env_send (p : Z) (t : CallTag) (a : call_args) (w : world) : world :=
  if decide (p ∈ dom (slots w) ∪ dom (bufs w)) then w
  else
    let w1 := count_call_alloc (set_slots (<[p := new_slot t a]> (slots w)) w) in
    match ABQ.put queue_capacity (t, p) (get_queue FsmQueue w1) with
    | Ret _ q => set_queue FsmQueue q w1
    | Throw _ => w1
    | _ => w
    end.

Definition run_env (e : env_step) (w : world) : world :=
  match e with
  | ERaftTake =>
      match ABQ.take queue_capacity (get_queue ApiQueue w) with
      | Ret _ q => set_queue ApiQueue q w
      | _ => w
      end
  | ERaftReply p err => env_reply p (reply err (clock w)) w
  | ERaftReplyValue p v => env_reply p (reply_value (u64 v) (clock w)) w
  | ELock p => update_slot p (set_owned true) w
  | EUnlock p => update_slot p (set_owned false) w
  | ECloseApi => set_queue ApiQueue (ABQ.close_body (get_queue ApiQueue w)) w
  | ESetLeader b => set_flags (is_raft_running (scoreboard w)) b w
  | ESetRunning => set_flags true (is_leader (scoreboard w)) w
  | ERaftSend p t a => env_send p t a w
  | ETick d => set_clock (clock w + Z.max 0 d) w
  end.

(** Wait until [cond] holds, the others going on in the meantime.  This is what a
    wait on a condition variable comes to for the one thread that waits on it;
    that the wait is woken at all, and only if one thread waits, is the subject of
    ArrayQueueThreads.v, Deque.v and SlotProgress.v. *)
Fixpoint await_loop (cond : world -> bool) (es : list env_step) (w : world) : res world () :=
  if cond w then Ret () (set_sched es w)
  else match es with
       | [] => Block (set_sched [] w)
       | e :: es' => await_loop cond es' (run_env e w)
       end.

Definition await (cond : world -> bool) : M world () := fun w => await_loop cond (sched w) w.

(** The same with a time limit, which has passed when the others have nothing
    more to do: does [cond] hold in time? *)
Fixpoint await_timed_loop (cond : world -> bool) (es : list env_step) (w : world) :
    res world bool :=
  if cond w then Ret true (set_sched es w)
  else match es with
       | [] => Ret false (set_sched [] w)
       | e :: es' => await_timed_loop cond es' (run_env e w)
       end.

Definition await_timed (cond : world -> bool) : M world bool :=
  fun w => await_timed_loop cond (sched w) w.

Arguments await : simpl never.
Arguments await_timed : simpl never.

(** ** Slots by address *)

(** An access to a slot that is not there is an access to freed or foreign
    memory. *)
Definition get_slot (p : Z) : M world slot := fun w =>
  match slots w !! p with
  | Some s => Ret s w
  | None => Fault BadPointer
  end.

Definition now : M world Z := fun w => Ret (clock w) w.

Section Code.
Context `{Segment}.

Definition in_shm_bounds (ptr : Z) : bool :=
  (shm_base <=? ptr) && (ptr <? shm_base + shm_bytes).

Definition used (w : world) : gset Z := dom (slots w) ∪ dom (bufs w).

(** An allocation that fails throws [bad_alloc], which nothing catches. *)
Definition allocate_buf (len : Z) : M world Z :=
  w ← get ;
  match seg_alloc (used w) len with
  | Some buf =>
      modify (fun w => set_bufs (<[buf := len]> (bufs w)) w) ;;
      modify count_buffer_alloc ;;
      mret buf
  | None => fail Aborted
  end.

(** Freeing what is not an allocated buffer is undefined behaviour. *)
Definition free_buf (buf : Z) : M world () :=
  modify count_buffer_free ;;
  w ← get ;
  match bufs w !! buf with
  | Some _ => modify (fun w => set_bufs (delete buf (bufs w)) w)
  | None => fail BadPointer
  end.

Definition alloc_raft_buffer (len : Z) : M world Z := allocate_buf len.
Definition free_raft_buffer (buf : Z) : M world () := free_buf buf.

(** ** Requests *)

Definition alloc_request (t : CallTag) (a : call_args) : M world Z :=
  modify count_call_alloc ;;
  w ← get ;
  match seg_alloc_node (used w) with
  | Some p => modify (fun w => set_slots (<[p := new_slot t a]> (slots w)) w) ;; mret p
  | None => fail Aborted
  end.

(** [queue.put(rec)]: [check_closed] comes before the loop and after each wait. *)
Definition queue_put (which : which_queue) (r : call_rec) : M world () :=
  await (fun w => ABQ.check_closed (get_queue which w)
                  || negb (ABQ.full queue_capacity (get_queue which w))) ;;
  zoom (get_queue which) (set_queue which) (ABQ.put queue_capacity r).

(** [queue.take()] *)
Definition queue_take (which : which_queue) : M world call_rec :=
  await (fun w => ABQ.check_closed (get_queue which w)
                  || negb (ABQ.empty (get_queue which w))) ;;
  zoom (get_queue which) (set_queue which) (ABQ.take queue_capacity).

(** [slot->error = err; slot->state = CallState::Error;] *)
Definition set_failed (p : Z) (err : RaftError) (w : world) : world :=
  update_slot p (fun s => set_state Error (set_error err s)) w.

Definition send_request (which : which_queue) (throw_ok : bool) (t : CallTag) (a : call_args) :
    M world Z :=
  start_t ← now ;
  p ← alloc_request t a ;
  built_t ← now ;
  modify (update_slot p (set_timings (start_timings (entries zero_timings) start_t))) ;;
  modify (update_slot p (record_timing (lit "constructed") built_t)) ;;
  catch (queue_put which (t, p))
    (if throw_ok then throw else modify (set_failed p RAFT_E_IN_SHUTDOWN)) ;;
  mret p.

Definition send_api_request (t : CallTag) (a : call_args) : M world Z :=
  send_request ApiQueue false t a.
Definition send_fsm_request (t : CallTag) (a : call_args) : M world Z :=
  send_request FsmQueue true t a.

Definition make_error_request (err : RaftError) (t : CallTag) (a : call_args) : M world Z :=
  assert (bool_decide (err <> RAFT_SUCCESS)) ;;
  p ← alloc_request t a ;
  modify (set_failed p err) ;;
  mret p.

(** ** Waiting *)

(** [wait]: the mutex is free and the state is terminal; or the slot is gone. *)
Definition wait_ready (p : Z) (w : world) : bool :=
  match slots w !! p with
  | Some s => poll s
  | None => true
  end.

Definition wait (p : Z) : M world () :=
  await (wait_ready p) ;;
  s ← get_slot p ;
  t ← now ;
  modify (update_slot p (observe t)).

Definition slot_poll (p : Z) : M world bool :=
  s ← get_slot p ;
  mret (poll s).

(** [wait_for(rel_time)]: only the mutex is waited for. *)
Definition mutex_free (p : Z) (w : world) : bool :=
  match slots w !! p with
  | Some s => negb (owned s)
  | None => true
  end.

Definition wait_for (p : Z) (rel_time : Z) : M world bool :=
  if rel_time =? 0 then slot_poll p
  else
    locked ← await_timed (mutex_free p) ;
    if locked : bool then s ← get_slot p ; mret (is_terminal (state s)) else mret false.

(** ** Disposal and orphans *)

Definition track_orphan (p : Z) : M world () :=
  zoom orphaned_calls set_orphaned_calls (Deque.put p).

(** [orphan_cleanup]: only the arguments of [Apply] own something. *)
Definition orphan_cleanup (a : call_args) : M world () :=
  match a with
  | ApplyArgs cmd_buf _ _ =>
      if in_shm_bounds cmd_buf then free_raft_buffer cmd_buf else mret ()
  | _ => mret ()
  end.

(** [Call::allocator->deallocate_one(this); stats->call_free.inc();] *)
Definition deallocate (p : Z) : M world () :=
  modify (fun w => set_slots (delete p (slots w)) w) ;;
  modify count_call_free.

Definition dispose (p : Z) : M world () :=
  s ← get_slot p ;
  match client_state s with
  | Issued => modify (update_slot p (set_client_state Abandoned)) ;; track_orphan p
  | Observed => deallocate p
  | Abandoned => orphan_cleanup (args s) ;; deallocate p
  end.

(** The destructor of [unique_lock]: it writes to the mutex inside the slot,
    also when the slot has been given back to the allocator.  That write to freed
    memory is undefined behaviour of the code; the allocator of the segment does
    not notice it, so the run goes on, and [stale_unlocks] records it. *)
Definition unlock (p : Z) : M world () := fun w =>
  match slots w !! p with
  | Some _ => Ret () (update_slot p (set_owned false) w)
  | None => Ret () (set_stale_unlocks (stale_unlocks w ++ [p]) w)
  end.

Definition try_dispose_orphan (p : Z) : M world bool :=
  assert (negb (p =? 0)) ;;
  s ← get_slot p ;
  if owned s then mret false
  else
    modify (update_slot p (set_owned true)) ;;
    if is_terminal (state s) then dispose p ;; unlock p ;; mret true
    else unlock p ;; mret false.

(** [scan_orphans(calls)]: what stays in the list. *)
Fixpoint scan_orphans (calls : list Z) : M world (list Z) :=
  match calls with
  | [] => mret []
  | p :: rest =>
      gone ← try_dispose_orphan p ;
      rest' ← scan_orphans rest ;
      mret (if gone : bool then rest' else p :: rest')
  end.

(** 100 milliseconds, in nanoseconds *)
Definition orphan_interval : Z := 100000000.

(** [poll_until(next_check)].  When nothing arrives the time goes by: after the
    timeout the clock is past [next_check]. *)
Definition poll_orphan : M world (option Z) :=
  r ← zoom orphaned_calls set_orphaned_calls Deque.poll_until ;
  match r with
  | Some p => mret (Some p)
  | None => modify (fun w => set_clock (Z.max (clock w) (next_check w + 1)) w) ;; mret None
  end.

(** The scan of the backlog by [run_orphan_gc], from where [kept] has been passed
    and [todo] has not been looked at. *)
Definition gc_scan (kept todo : list Z) : M world () :=
  rest ← scan_orphans todo ;
  modify (set_orphan_backlog (kept ++ rest)) ;;
  t ← now ;
  modify (set_next_check (t + orphan_interval)).

(** A round of the loop of [run_orphan_gc] once [orphan] has been fetched. *)
Definition gc_handle (orphan : option Z) : M world () :=
  match orphan with
  | Some p =>
      gone ← try_dispose_orphan p ;
      if gone : bool then mret ()
      else modify (fun w => set_orphan_backlog (orphan_backlog w ++ [p]) w)
  | None => mret ()
  end ;;
  w ← get ;
  if bool_decide (orphan_backlog w <> []) && (next_check w <? clock w) then
    gc_scan [] (orphan_backlog w)
  else mret ().

(** One round of the loop of [run_orphan_gc]. *)
Definition gc_round : M world () :=
  w ← get ;
  orphan ←
    match orphan_backlog w with
    | [] => p ← zoom orphaned_calls set_orphaned_calls Deque.take ; mret (Some p)
    | _ => poll_orphan
    end ;
  gc_handle orphan.

(** [run_orphan_gc]: the loop ends when the deque is closed.  [fuel] bounds the
    rounds; running out of it is waiting. *)
Fixpoint gc_loop (fuel : nat) : M world () :=
  match fuel with
  | O => block
  | S n => gc_round ;; gc_loop n
  end.

Definition run_orphan_gc (fuel : nat) : M world () :=
  modify (set_orphan_backlog []) ;;
  t ← now ;
  modify (set_next_check (t + orphan_interval)) ;;
  catch (gc_loop fuel) (mret ()).

End Code.
End Shm.
