(* ===== verification/ShmInv.v ===== *)
(** * Invariants of the shared memory

    The counters of stats.h balance the calls and buffers that are allocated.
    This is proved for every computation of Shm.v, whatever the other threads
    do, with the rules for [preserves]. *)

From stdpp Require Import base tactics list strings gmap.
From Stdlib Require Import ZArith Lia Ascii.
From S2P Require Import Prelude CString Defs ArrayQueue Deque Slot Shm.

Module ShmInv.
Import CString Defs Slot Shm.

(** ** A calculus for the computations of Shm.v *)

(** Decompose a [preserves] goal along the structure of the computation. *)
Ltac pres :=
  repeat match goal with
  | |- forall _, _ => intro
  | |- preserves _ (mret _) => apply preserves_ret
  | |- preserves _ (catch _ _) => apply preserves_catch
  | |- preserves _ (_ ≫= _) => apply preserves_bind
  | |- preserves _ (match ?x with _ => _ end) => destruct x eqn:?
  | |- _ => solve [eauto with raft]
  end.

Section Await.
Context (I : world -> Prop).
Hypothesis I_sched : forall es w, I w -> I (set_sched es w).
Hypothesis I_env : forall e w, I w -> I (run_env e w).

Lemma preserves_await_loop cond es w : I w -> after I (await_loop cond es w).
Proof.
  revert w. induction es as [|e es IH]; intros w Hw; simpl; case_if; simpl; auto.
Qed.

Lemma preserves_await cond : preserves I (await cond).
Proof. intros w Hw. by apply preserves_await_loop. Qed.

Lemma preserves_await_timed cond : preserves I (await_timed cond).
Proof.
  intros w. unfold await_timed. generalize (sched w) as es. intros es. revert w.
  induction es as [|e es IH]; intros w Hw; simpl; case_if; simpl; auto.
Qed.

Lemma preserves_get_slot p : preserves I (get_slot p).
Proof. intros w Hw. unfold get_slot. by destruct (slots w !! p). Qed.

Lemma preserves_now : preserves I now.
Proof. by intros w Hw. Qed.
End Await.

#[export] Hint Resolve preserves_await preserves_await_timed preserves_get_slot preserves_now : raft.

(** ** The counters *)

Record balanced (w : world) : Prop := Balanced {
  bal_calls : u64 (call_alloc (stats w) - call_free (stats w)) = u64 (Z.of_nat (size (slots w)));
  bal_bufs : u64 (buffer_alloc (stats w) - buffer_free (stats w)) = u64 (Z.of_nat (size (bufs w)))
}.

Lemma u64_inc_l (a b n : Z) : u64 (a - b) = u64 n -> u64 (inc a - b) = u64 (n + 1).
Proof.
  unfold inc, wrap. intros H. rewrite Zminus_mod_idemp_l.
  replace (a + 1 - b) with ((a - b) + 1) by lia. by rewrite <- Zplus_mod_idemp_l, H, Zplus_mod_idemp_l.
Qed.

Lemma u64_inc_r (a b n : Z) : u64 (a - b) = u64 n -> u64 (a - inc b) = u64 (n - 1).
Proof.
  unfold inc, wrap. intros H. rewrite Zminus_mod_idemp_r.
  replace (a - (b + 1)) with ((a - b) - 1) by lia. by rewrite <- Zminus_mod_idemp_l, H, Zminus_mod_idemp_l.
Qed.

Lemma size_alter (f : slot -> slot) (p : Z) (m : gmap Z slot) : size (alter f p m) = size m.
Proof. rewrite <- !size_dom, dom_alter_L. done. Qed.

Lemma size_delete_pos {A : Type} (p : Z) (m : gmap Z A) :
  is_Some (m !! p) -> Z.of_nat (size (delete p m)) = Z.of_nat (size m) - 1.
Proof.
  intros H. rewrite map_size_delete_Some by done.
  destruct H as [x Hx]. assert (size m <> 0)%nat; [|lia].
  intros H0%map_size_empty_inv. subst. by rewrite lookup_empty in Hx.
Qed.

Lemma balanced_update p f w : balanced w -> balanced (update_slot p f w).
Proof. intros []. constructor; cbn; rewrite ?size_alter; done. Qed.

Lemma balanced_env_send p t a w : balanced w -> balanced (env_send p t a w).
Proof.
  intros [H1 H2]. unfold env_send. case_decide as Hp; [done|].
  assert (forall which q, balanced (set_queue which q
    (count_call_alloc (set_slots (<[p := new_slot t a]> (slots w)) w)))) as Hb.
  { intros which q. constructor; [|by destruct which]. destruct which; cbn;
      (rewrite map_size_insert_None by (apply not_elem_of_dom; set_solver));
      rewrite Nat2Z.inj_succ; by apply u64_inc_l. }
  cbv zeta. case_match; try done. destruct (Hb FsmQueue empty_queue). by constructor.
Qed.

Lemma balanced_env e w : balanced w -> balanced (run_env e w).
Proof.
  intros Hb. destruct e; simpl; try (by apply balanced_env_send); try (by apply balanced_update); try (by destruct Hb; constructor).
  case_match; try done. by destruct Hb; constructor.
Qed.

Lemma balanced_put which q w : balanced w -> balanced (set_queue which q w).
Proof. intros []. by constructor. Qed.

Lemma balanced_orphans d w : balanced w -> balanced (set_orphaned_calls d w).
Proof. intros []. by constructor. Qed.

Lemma balanced_frame (f : world -> world) :
  (forall w, slots (f w) = slots w /\ bufs (f w) = bufs w /\ stats (f w) = stats w) ->
  forall w, balanced w -> balanced (f w).
Proof. intros Hf w []. destruct (Hf w) as (E1 & E2 & E3). constructor; by rewrite ?E1, ?E2, ?E3. Qed.

#[local] Hint Resolve balanced_update balanced_env balanced_put balanced_orphans : raft.

Lemma preserves_balanced_modify (f : world -> world) :
  (forall w, slots (f w) = slots w /\ bufs (f w) = bufs w /\ stats (f w) = stats w) ->
  preserves balanced (modify f).
Proof. intros Hf. apply preserves_modify. by apply balanced_frame. Qed.

Lemma preserves_balanced_update p f : preserves balanced (modify (update_slot p f)).
Proof. apply preserves_modify. intros w. by apply balanced_update. Qed.

Lemma balanced_await cond : preserves balanced (await cond).
Proof. apply preserves_await; [|apply balanced_env]. by intros es w []; constructor. Qed.

Lemma balanced_await_timed cond : preserves balanced (await_timed cond).
Proof. apply preserves_await_timed; [|apply balanced_env]. by intros es w []; constructor. Qed.

Lemma balanced_zoom_queue {A : Type} which (m : M CallQueue A) :
  preserves balanced (zoom (get_queue which) (set_queue which) m).
Proof. apply preserves_zoom. intros w q. apply balanced_put. Qed.

Lemma balanced_zoom_orphans {A : Type} (m : M (Deque.dq Z) A) :
  preserves balanced (zoom orphaned_calls set_orphaned_calls m).
Proof. apply preserves_zoom. intros w q. apply balanced_orphans. Qed.

#[local] Hint Resolve preserves_balanced_update balanced_await balanced_await_timed
  balanced_zoom_queue balanced_zoom_orphans : raft.
#[local] Hint Extern 2 (preserves balanced (modify _)) =>
  solve [apply preserves_balanced_modify; done] : raft.

Section Balance.
Context `{Segment}.

Lemma balanced_alloc_request t a : preserves balanced (alloc_request t a).
Proof.
  intros w []. unfold alloc_request. mrun.
  destruct (seg_alloc_node _) as [p|] eqn:E; cbn; [|done].
  apply seg_alloc_node_fresh in E as [Hp _]. unfold used in Hp. cbn in Hp.
  constructor; cbn; [|done].
  rewrite map_size_insert_None by (apply not_elem_of_dom; set_solver).
  rewrite Nat2Z.inj_succ. by apply u64_inc_l.
Qed.

Lemma balanced_allocate_buf len : preserves balanced (allocate_buf len).
Proof.
  intros w []. unfold allocate_buf. mrun.
  destruct (seg_alloc _ _) as [p|] eqn:E; cbn; [|done].
  apply seg_alloc_fresh in E as [Hp _]. unfold used in Hp.
  constructor; cbn; [done|].
  rewrite map_size_insert_None by (apply not_elem_of_dom; set_solver).
  rewrite Nat2Z.inj_succ. by apply u64_inc_l.
Qed.

Lemma balanced_free_buf b : preserves balanced (free_buf b).
Proof.
  intros w []. unfold free_buf. mrun.
  destruct (bufs w !! b) eqn:E; cbn; [|done].
  constructor; cbn; [done|]. rewrite size_delete_pos by done. by apply u64_inc_r.
Qed.

#[local] Hint Resolve balanced_alloc_request balanced_allocate_buf balanced_free_buf : raft.

Lemma balanced_orphan_cleanup a : preserves balanced (orphan_cleanup a).
Proof. unfold orphan_cleanup, free_raft_buffer. pres. Qed.

(** [orphan_cleanup] does not touch the slots. *)
Lemma orphan_cleanup_slots a w :
  after (fun w' => slots w' = slots w) (orphan_cleanup a w).
Proof.
  destruct a; try done. unfold orphan_cleanup. case_if; [|done].
  unfold free_raft_buffer, free_buf. mrun. by destruct (bufs w !! cmd_buf).
Qed.

Lemma balanced_deallocate p w :
  balanced w -> is_Some (slots w !! p) -> after balanced (deallocate p w).
Proof.
  intros [] Hp. unfold deallocate. mrun. constructor; cbn; [|done].
  rewrite size_delete_pos by done. by apply u64_inc_r.
Qed.

Lemma balanced_dispose p : preserves balanced (dispose p).
Proof.
  intros w Hw. unfold dispose, mbind, M_bind, get_slot.
  destruct (slots w !! p) as [s|] eqn:Hp; [|done].
  destruct (client_state s).
  - cbn -[track_orphan]. apply balanced_zoom_orphans. by apply balanced_update.
  - by apply balanced_deallocate.
  - pose proof (balanced_orphan_cleanup (args s) w Hw) as Hb.
    pose proof (orphan_cleanup_slots (args s) w) as Hs.
    destruct (orphan_cleanup (args s) w); simpl in Hb, Hs |- *; try done.
    apply balanced_deallocate; [done|]. rewrite Hs. eauto.
Qed.

Lemma balanced_unlock p : preserves balanced (unlock p).
Proof.
  intros w Hw. unfold unlock. case_match; simpl; [by apply balanced_update|].
  by destruct Hw; constructor.
Qed.

#[local] Hint Resolve balanced_dispose balanced_unlock : raft.

Lemma balanced_try_dispose p : preserves balanced (try_dispose_orphan p).
Proof. unfold try_dispose_orphan. pres. Qed.

#[local] Hint Resolve balanced_try_dispose : raft.

Lemma balanced_scan ps : preserves balanced (scan_orphans ps).
Proof. induction ps as [|p ps IH]; simpl; pres. Qed.

#[local] Hint Resolve balanced_scan : raft.

Lemma balanced_gc_round : preserves balanced gc_round.
Proof. unfold gc_round, gc_handle, gc_scan, poll_orphan. pres. Qed.

Lemma balanced_run_orphan_gc fuel : preserves balanced (run_orphan_gc fuel).
Proof.
  unfold run_orphan_gc. pres. induction fuel; simpl; [by intros w|].
  apply preserves_bind; [apply balanced_gc_round|done].
Qed.

Lemma balanced_send_request which ok t a : preserves balanced (send_request which ok t a).
Proof.
  unfold send_request, queue_put, set_failed. pres.
Qed.

Lemma balanced_make_error_request e t a : preserves balanced (make_error_request e t a).
Proof.
  unfold make_error_request, set_failed. pres.
Qed.

Lemma balanced_wait p : preserves balanced (wait p).
Proof. unfold wait. pres. Qed.

Lemma balanced_slot_poll p : preserves balanced (slot_poll p).
Proof. unfold slot_poll. pres. Qed.

Lemma balanced_wait_for p t : preserves balanced (wait_for p t).
Proof. unfold wait_for, slot_poll. pres. Qed.

End Balance.

#[export] Hint Resolve balanced_alloc_request balanced_allocate_buf balanced_free_buf
  balanced_dispose balanced_send_request balanced_make_error_request balanced_wait
  balanced_slot_poll balanced_wait_for balanced_gc_round balanced_zoom_queue : raft.

End ShmInv.
