(* ===== verification/ShmSpec.v ===== *)
(** * What requests and waits do

    Functional descriptions of [send_request], [make_error_request] and [wait]
    (raft_shm.h, raft_shm.cc), and of what the other threads can do to a slot
    in the meantime. *)

From stdpp Require Import base tactics list strings gmap relations.
From Stdlib Require Import ZArith Lia Ascii.
From S2P Require Import Prelude CString Defs ArrayQueue Deque Slot Shm ShmInv.

Module ShmSpec.
Import CString Defs Slot Shm.

(** ** Other threads *)

Definition run_envs (es : list env_step) (w : world) : world := fold_left (fun w e => run_env e w) es w.

(** What other threads can do to a slot: it stays the slot of the same call in
    the same hands, and makes steps of its life. *)
Definition evolves (s s' : slot) : Prop :=
  rtc life s s' /\ tag s' = tag s /\ args s' = args s /\ client_state s' = client_state s.

Lemma evolves_refl s : evolves s s.
Proof. done. Qed.

Lemma evolves_trans s1 s2 s3 : evolves s1 s2 -> evolves s2 s3 -> evolves s1 s3.
Proof.
  intros (H1 & H2 & H3 & H4) (G1 & G2 & G3 & G4).
  split_and!; [by etrans|congruence..].
Qed.

Lemma reply_frame err t s s' :
  reply err t s = Ret () s' -> tag s' = tag s /\ args s' = args s /\ client_state s' = client_state s.
Proof.
  destruct (is_terminal (state s)) eqn:E.
  - by rewrite reply_terminal.
  - rewrite reply_open by done. by intros; simplify_eq.
Qed.

Lemma env_reply_evolves (m : M slot ()) s :
  (forall s', m s = Ret () s' -> evolves s s') ->
  evolves s (match m s with Ret _ s' => s' | _ => s end).
Proof. intros Hm. destruct (m s) as [[] s'|?|?|?]; try apply evolves_refl. by apply Hm. Qed.

Lemma update_slot_evolves p q f w s :
  (forall s, evolves s (f s)) -> slots w !! p = Some s ->
  exists s', slots (update_slot q f w) !! p = Some s' /\ evolves s s'.
Proof.
  intros Hf Hs. cbn. destruct (decide (q = p)) as [->|Hne].
  - rewrite lookup_alter_eq, Hs. cbn. eauto.
  - rewrite lookup_alter_ne, Hs by done. eauto using evolves_refl.
Qed.

Lemma env_send_slot q t a w p s :
  slots w !! p = Some s -> slots (env_send q t a w) !! p = Some s.
Proof.
  intros Hs. unfold env_send. case_decide as Hq; [done|].
  case_match; try done; cbn; (rewrite lookup_insert_ne; [done|]); intros ->; apply Hq, elem_of_union_l; by apply elem_of_dom.
Qed.

Lemma env_slot e w p s :
  slots w !! p = Some s -> exists s', slots (run_env e w) !! p = Some s' /\ evolves s s'.
Proof.
  intros Hs. destruct e as [|q err|q v|q|q| | | |q t a|]; simpl;
    eauto using evolves_refl, env_send_slot.
  - case_match; eauto using evolves_refl.
  - apply update_slot_evolves; [|done]. intros s0. apply env_reply_evolves.
    intros s' E. split; [|by eapply reply_frame]. apply rtc_once. by eapply life_reply.
  - apply update_slot_evolves; [|done]. intros s0. apply env_reply_evolves.
    intros s' E. split; [apply rtc_once; by eapply life_reply_value|].
    rewrite reply_value_eq in E. by apply reply_frame in E.
  - apply update_slot_evolves; [|done]. intros s0. split; [|done]. apply rtc_once. constructor.
  - apply update_slot_evolves; [|done]. intros s0. split; [|done]. apply rtc_once. constructor.
Qed.

Lemma envs_slot es w p s :
  slots w !! p = Some s -> exists s', slots (run_envs es w) !! p = Some s' /\ evolves s s'.
Proof.
  revert w s. induction es as [|e es IH]; intros w s Hs; cbn; [eauto using evolves_refl|].
  destruct (env_slot e w p s Hs) as (s1 & H1 & E1).
  destruct (IH _ _ H1) as (s2 & H2 & E2). eauto using evolves_trans.
Qed.

Lemma run_envs_app es1 es2 w : run_envs (es1 ++ es2) w = run_envs es2 (run_envs es1 w).
Proof. apply fold_left_app. Qed.

(** An answer that is there stays the same. *)
Lemma life_answer s s' :
  is_terminal (state s) = true -> rtc life s s' ->
  state s' = state s /\ error s' = error s /\ retval s' = retval s.
Proof.
  intros Ht Hr. revert Ht. induction Hr as [s|s s1 s2 Hl Hr IH]; intros Ht; [done|].
  destruct (life_terminal _ _ Ht Hl) as (E1 & E2 & E3).
  destruct IH as (F1 & F2 & F3); [by rewrite E1|]. by rewrite F1, F2, F3.
Qed.

(** ** Running a computation step by step *)

Lemma get_slot_eq p w s : slots w !! p = Some s -> get_slot p w = Ret s w.
Proof. intros Hs. unfold get_slot. by rewrite Hs. Qed.

(** Run the first computation of a sequence. *)
Ltac mstep :=
  erewrite bind_Ret;
  [| first [done | apply get_slot_eq; eassumption | apply get_slot_eq, lookup_insert_eq
           | apply assert_true; first [done | by apply negb_true_iff, Z.eqb_neq]]];
  cbv beta.

(** ** Waiting *)

Lemma await_now cond w : cond w = true -> await cond w = Ret () w.
Proof. intros Hc. unfold await. destruct w as [? ? ? ? ? ? ? ? ? []]; simpl in *; by rewrite Hc. Qed.

Lemma await_timed_now cond w : cond w = true -> await_timed cond w = Ret true w.
Proof. intros Hc. unfold await_timed. destruct w as [? ? ? ? ? ? ? ? ? []]; simpl in *; by rewrite Hc. Qed.

(** A wait ends as soon as the condition holds: if it does after [es1], the wait
    returns after [es1] or a part of it. *)
Lemma await_loop_complete cond es1 es2 w :
  cond (run_envs es1 w) = true ->
  exists es0 es0', es1 = es0 ++ es0' /\ cond (run_envs es0 w) = true /\
    await_loop cond (es1 ++ es2) w = Ret () (set_sched (es0' ++ es2) (run_envs es0 w)).
Proof.
  revert w. induction es1 as [|e es1 IH]; intros w Hc.
  - exists [], []. cbn in *. split_and!; [done..|]. by destruct es2; simpl; rewrite Hc.
  - destruct (cond w) eqn:E.
    + exists [], (e :: es1). cbn in *. split_and!; [done..|]. by rewrite E.
    + destruct (IH (run_env e w) Hc) as (es0 & es0' & -> & H1 & H2).
      exists (e :: es0), es0'. split_and!; [done..|]. cbn. by rewrite E.
Qed.

(** What a wait that returns has seen. *)
Lemma await_loop_Ret cond es w w' :
  await_loop cond es w = Ret () w' ->
  exists es1 es2, es = es1 ++ es2 /\ cond (run_envs es1 w) = true /\
    w' = set_sched es2 (run_envs es1 w).
Proof.
  revert w. induction es as [|e es IH]; intros w; simpl; destruct (cond w) eqn:E; intros Hr; simplify_eq.
  - by exists [], [].
  - by exists [], (e :: es).
  - destruct (IH _ Hr) as (es1 & es2 & -> & H1 & H2). by exists (e :: es1), es2.
Qed.

(** [wait] returns once the slot has its answer and its mutex is free. *)
Lemma wait_returns p w s es1 es2 s1 :
  slots w !! p = Some s -> sched w = es1 ++ es2 ->
  slots (run_envs es1 w) !! p = Some s1 -> poll s1 = true ->
  exists w' s0 t, wait p w = Ret () w' /\ slots w' !! p = Some (observe t s0) /\
    evolves s s0 /\ is_terminal (state s0) = true /\
    error s0 = error s1 /\ retval s0 = retval s1.
Proof.
  intros Hs Hes H1 Hpoll.
  destruct (await_loop_complete (wait_ready p) es1 es2 w) as (es0 & es0' & -> & Hc & Hrun).
  { unfold wait_ready. by rewrite H1. }
  destruct (envs_slot es0 w p s Hs) as (s0 & H0 & E0).
  unfold wait_ready in Hc. rewrite H0 in Hc.
  rewrite run_envs_app in H1. destruct (envs_slot es0' _ p s0 H0) as (s1' & H1' & E1).
  simplify_eq. unfold poll in Hc. apply andb_prop in Hc as [_ Ht].
  destruct (life_answer s0 s1 Ht (proj1 E1)) as (_ & Ee & Er).
  eexists _, s0, _. split_and!; [| |done..].
  - unfold wait. erewrite bind_Ret by (unfold await; rewrite Hes; done). unfold get_slot, now. mrun. rewrite H0. done.
  - cbn. by rewrite lookup_alter_eq, H0.
Qed.

(** ... at once if the answer is there. *)
Lemma wait_answered p w s :
  slots w !! p = Some s -> poll s = true -> wait p w = Ret () (update_slot p (observe (clock w)) w).
Proof.
  intros Hs Hpoll. unfold wait.
  erewrite bind_Ret by (apply await_now; unfold wait_ready; by rewrite Hs).
  by do 2 mstep.
Qed.

(** ** Requests *)

Section Requests.
Context `{Segment}.

(** The slot of a request when it is queued. *)
Definition sent_slot (t : CallTag) (a : call_args) (now : Z) : slot :=
  record_timing (lit "constructed") now
    (set_timings (start_timings (entries zero_timings) now) (new_slot t a)).

(** The world with the new slot [s] at [p]. *)
Definition with_call (p : Z) (s : slot) (w : world) : world :=
  set_slots (<[p := s]> (slots w)) (count_call_alloc w).

Lemma alloc_request_eq t a w p :
  seg_alloc_node (used w) = Some p -> alloc_request t a w = Ret p (with_call p (new_slot t a) w).
Proof.
  intros E. unfold alloc_request. mrun. change (used (count_call_alloc w)) with (used w). by rewrite E.
Qed.

Lemma update_with_call p f s w : update_slot p f (with_call p s w) = with_call p (f s) w.
Proof. unfold update_slot, with_call. cbn. by rewrite alter_insert_eq. Qed.

(** The queue of the world before the request is that of the world with it. *)
Lemma send_request_eq which ok t a w p :
  seg_alloc_node (used w) = Some p ->
  send_request which ok t a w =
    (catch (queue_put which (t, p))
       (if ok then throw else modify (set_failed p RAFT_E_IN_SHUTDOWN)) ≫= fun _ => mret p)
    (with_call p (sent_slot t a (clock w)) w).
Proof.
  intros E. unfold send_request, now. mrun. rewrite (alloc_request_eq _ _ _ _ E). cbn.
  by rewrite !update_with_call.
Qed.

Lemma send_request_open which ok t a w p q' :
  seg_alloc_node (used w) = Some p ->
  ABQ.closed (get_queue which w) = false -> ABQ.full queue_capacity (get_queue which w) = false ->
  ABQ.put_body queue_capacity (t, p) (get_queue which w) = Some q' ->
  send_request which ok t a w =
    Ret p (set_queue which q' (with_call p (sent_slot t a (clock w)) w)).
Proof.
  intros E Hcl Hfull Hq. rewrite (send_request_eq _ _ _ _ _ _ E).
  set (w1 := with_call p (sent_slot t a (clock w)) w).
  assert (get_queue which w1 = get_queue which w) as Eq by (by destruct which).
  erewrite bind_Ret; [done|]. apply catch_Ret. unfold queue_put.
  erewrite bind_Ret by (apply await_now; rewrite Eq, Hfull; apply orb_true_r).
  apply zoom_Ret. rewrite Eq. by apply ABQ.put_open.
Qed.

Lemma send_request_closed which t a w p :
  seg_alloc_node (used w) = Some p -> ABQ.closed (get_queue which w) = true ->
  send_request which false t a w =
    Ret p (with_call p (set_state Error (set_error RAFT_E_IN_SHUTDOWN
      (sent_slot t a (clock w)))) w).
Proof.
  intros E Hcl. rewrite (send_request_eq _ _ _ _ _ _ E).
  set (w1 := with_call p (sent_slot t a (clock w)) w).
  assert (get_queue which w1 = get_queue which w) as Eq by (by destruct which).
  assert (queue_put which (t, p) w1 = Throw w1) as Hput.
  { unfold queue_put.
    erewrite bind_Ret by (apply await_now; unfold ABQ.check_closed; rewrite Eq, Hcl; done).
    erewrite zoom_Throw by (apply ABQ.put_closed; by rewrite Eq).
    by destruct which, w as [? ? ? []]. }
  erewrite bind_Ret by (erewrite catch_Throw by done; done).
  unfold set_failed, w1. by rewrite update_with_call.
Qed.

Lemma make_error_request_eq err t a w p :
  seg_alloc_node (used w) = Some p -> err <> RAFT_SUCCESS ->
  make_error_request err t a w =
    Ret p (with_call p (set_state Error (set_error err (new_slot t a))) w).
Proof.
  intros E He. unfold make_error_request. rewrite bool_decide_true by done.
  erewrite bind_Ret by done. erewrite bind_Ret by (by apply alloc_request_eq).
  erewrite bind_Ret by done. unfold set_failed. by rewrite update_with_call.
Qed.

(** C30: [send_api_request] always returns a future for a new slot, and never
    throws. If the queue is open and has room, the slot is pending and the
    request is behind those already queued; if the queue is closed, the queue is
    as it was and the slot carries the error [RAFT_E_IN_SHUTDOWN] in a terminal
    state, so that a wait for it returns at once. No other slot changes. *)
Theorem send_api_request_outcome t a w p :
  seg_alloc_node (used w) = Some p ->
  ABQ.wf queue_capacity (api_queue (scoreboard w)) ->
  ABQ.closed (api_queue (scoreboard w)) = true \/
    ABQ.count (api_queue (scoreboard w)) < queue_capacity ->
  exists w' s, send_api_request t a w = Ret p w' /\
    slots w !! p = None /\ slots w' = <[p := s]> (slots w) /\ tag s = t /\ args s = a /\
    if ABQ.closed (api_queue (scoreboard w)) then
      api_queue (scoreboard w') = api_queue (scoreboard w) /\
      state s = Error /\ error s = RAFT_E_IN_SHUTDOWN /\ poll s = true
    else
      ABQ.contents queue_capacity (api_queue (scoreboard w')) =
        ABQ.contents queue_capacity (api_queue (scoreboard w)) ++ [(t, p)] /\
      state s = Pending /\ error s = RAFT_SUCCESS /\ poll s = false.
Proof.
  intros E Hwf Hq.
  assert (slots w !! p = None) as Hnew.
  { apply seg_alloc_node_fresh in E as [Hp _]. apply not_elem_of_dom. unfold used in Hp. set_solver. }
  destruct (ABQ.closed (api_queue (scoreboard w))) eqn:Hcl.
  - eexists _, _. split; [by apply (send_request_closed ApiQueue)|]. done.
  - destruct Hq as [?|Hlt]; [done|].
    destruct (ABQ.put_body_spec (Capacity := queue_capacity) ltac:(done) _ (t, p) Hwf Hlt)
      as (q' & Hput & _ & Hc & _).
    eexists _, _. split.
    { apply (send_request_open ApiQueue); [done..| |done]. unfold ABQ.full. cbn. lia. }
    split_and!; done.
Qed.

(** ** Requests that return *)

Lemma node_in_bounds (X : gset Z) p :
  seg_alloc_node X = Some p -> p <> 0 /\ in_shm_bounds p = true.
Proof.
  intros [_ Hp]%seg_alloc_node_fresh. pose proof seg_range. unfold in_shm_bounds. lia.
Qed.

(** A request that returns, having waited for room or not, has a slot that
    nobody else has in hand. *)
Definition issued (p : Z) (t : CallTag) (a : call_args) (w : world) : Prop :=
  p <> 0 /\ in_shm_bounds p = true /\
  exists s, slots w !! p = Some s /\ tag s = t /\ args s = a /\ client_state s = Issued.

Lemma issued_evolves p t a w w' :
  (forall s, slots w !! p = Some s -> exists s', slots w' !! p = Some s' /\ evolves s s') ->
  issued p t a w -> issued p t a w'.
Proof.
  intros He (H1 & H2 & s & Hs & Ht & Ha & Hc). destruct (He s Hs) as (s' & Hs' & _ & E1 & E2 & E3).
  split_and!; [done..|]. exists s'. split_and!; congruence.
Qed.

(** The slots of [w'] are those of [w] after some steps of other threads. *)
Definition slots_evolve (w w' : world) : Prop :=
  forall p s, slots w !! p = Some s -> exists s', slots w' !! p = Some s' /\ evolves s s'.

Lemma await_no_Throw cond w w' : await cond w <> Throw w'.
Proof.
  unfold await. generalize (sched w) as es. intros es. revert w.
  induction es as [|e es IH]; intros w; simpl; case_if; done.
Qed.

Lemma await_Ret cond w w' : await cond w = Ret () w' -> slots_evolve w w'.
Proof.
  intros (es1 & es2 & _ & _ & ->)%await_loop_Ret p s Hs.
  destruct (envs_slot es1 w p s Hs) as (s' & ? & ?). eauto.
Qed.

Lemma zoom_queue_slots {A : Type} which (m : M CallQueue A) w w' :
  (exists a, zoom (get_queue which) (set_queue which) m w = Ret a w') \/
    zoom (get_queue which) (set_queue which) m w = Throw w' ->
  slots w' = slots w.
Proof. unfold zoom. destruct (m _); intros [[? ?]|?]; simplify_eq; by destruct which. Qed.

Lemma queue_put_slots which r w w' :
  queue_put which r w = Ret () w' \/ queue_put which r w = Throw w' -> slots_evolve w w'.
Proof.
  unfold queue_put, mbind, M_bind. destruct (await _ w) as [[] w1|w1| |] eqn:E; try naive_solver.
  - intros Hz p s Hs. destruct (await_Ret _ _ _ E p s Hs) as (s' & ? & ?).
    rewrite (zoom_queue_slots which (ABQ.put queue_capacity r) w1 w'); [eauto|]. naive_solver.
  - by apply await_no_Throw in E.
Qed.

Lemma issued_put which r p t a w w' :
  queue_put which r w = Ret () w' \/ queue_put which r w = Throw w' ->
  issued p t a w -> issued p t a w'.
Proof. intros Hq%queue_put_slots. apply issued_evolves. apply Hq. Qed.

Lemma issued_failed p t a w err : issued p t a w -> issued p t a (set_failed p err w).
Proof.
  intros (H1 & H2 & s & Hs & ?). split_and!; [done..|]. eexists. cbn.
  rewrite lookup_alter_eq, Hs. done.
Qed.

Lemma send_request_issued which ok t a w p w' :
  send_request which ok t a w = Ret p w' -> issued p t a w'.
Proof.
  destruct (seg_alloc_node (used w)) as [p0|] eqn:E.
  - rewrite (send_request_eq _ _ _ _ _ _ E). intros (u & w1 & H1 & H2)%bind_Ret_inv.
    cbv [mret M_ret] in H2. injection H2 as -> ->.
    assert (issued p t a (with_call p (sent_slot t a (clock w)) w)) as Hi.
    { destruct (node_in_bounds _ _ E). split_and!; [done..|]. eexists. split; [apply lookup_insert_eq|done]. }
    unfold catch in H1. destruct (queue_put which (t, p) _) as [[] w2|w2| |] eqn:Eq; simplify_eq.
    + eapply issued_put; [by left|done].
    + destruct ok; [done|]. cbv [modify] in H1. injection H1 as _ <-.
      apply issued_failed. eapply issued_put; [by right|done].
  - unfold send_request, now, alloc_request. mrun.
    change (used (count_call_alloc w)) with (used w). by rewrite E.
Qed.

Lemma make_error_request_issued err t a w p w' :
  make_error_request err t a w = Ret p w' -> issued p t a w'.
Proof.
  destruct (decide (err = RAFT_SUCCESS)) as [->|Herr]; [done|].
  destruct (seg_alloc_node (used w)) as [p0|] eqn:E.
  - rewrite (make_error_request_eq _ _ _ _ _ E Herr). intros [= <- <-].
    destruct (node_in_bounds _ _ E). split_and!; [done..|]. eexists. split; [apply lookup_insert_eq|done].
  - unfold make_error_request, alloc_request. rewrite bool_decide_true by done. mrun.
    change (used (count_call_alloc w)) with (used w). by rewrite E.
Qed.

End Requests.

(** ** A segment for concrete runs: 64 blocks of 256 bytes from address 4096 *)

Definition demo_blocks : list Z := (fun k => 4096 + 256 * Z.of_nat k) <$> seq 0 64.

Definition demo_alloc (u : gset Z) : option Z := find (fun p => bool_decide (p ∉ u)) demo_blocks.

Lemma demo_alloc_fresh u p : demo_alloc u = Some p -> (p ∉ u) /\ 4096 <= p < 4096 + 16384.
Proof.
  intros [Hin Hp]%find_some. apply bool_decide_eq_true in Hp. split; [done|].
  apply list_elem_of_In, list_elem_of_fmap in Hin as (k & -> & Hk%elem_of_seq). lia.
Qed.

#[export, refine] Instance demo_segment : Segment := {|
  shm_base := 4096;
  shm_bytes := 16384;
  seg_alloc u _ := demo_alloc u;
  seg_alloc_node := demo_alloc
|}.
Proof.
  - lia.
  - intros u _. apply demo_alloc_fresh.
  - apply demo_alloc_fresh.
Defined.

End ShmSpec.
