(* ===== verification/Orphans.v ===== *)
(** * The orphan collector

    [dispose] hands a call that the client gives up to the collector thread
    ([track_orphan], [run_orphan_gc], [scan_orphans], [try_dispose_orphan] in
    raft_shm.cc).  Who owns an abandoned call and its command buffer is stated
    as an invariant; under it the collector frees each of them once.  It then
    unlocks the mutex inside the slot that it has freed, and touches no other
    memory that is not allocated. *)

From stdpp Require Import base tactics list strings gmap relations.
From Stdlib Require Import ZArith Lia Ascii.
From S2P Require Import Prelude CString Defs ArrayQueue Deque Slot Shm ShmInv ShmSpec.

Module Orphans.
Import CString Defs Slot Shm ShmSpec.

(** ** Custody *)

Section Custody.
Context `{Segment}.

(** The buffer that [orphan_cleanup] frees. *)
Definition buffer_of (a : call_args) : option Z :=
  match a with
  | ApplyArgs b _ _ => if in_shm_bounds b then Some b else None
  | _ => None
  end.

(** The arguments of an abandoned call. *)
Definition abandoned (w : world) (p : Z) : option call_args :=
  match slots w !! p with
  | Some s => if decide (client_state s = Abandoned) then Some (args s) else None
  | None => None
  end.

(** [L] are the addresses of the abandoned calls, each once, and each of them
    owns its command buffer. *)
Record owns (L : list Z) (w : world) : Prop := Owns {
  ow_nodup : NoDup L;
  ow_iff : forall p, p ∈ L <-> is_Some (abandoned w p);
  ow_null : 0 ∉ L;
  ow_buf : forall p a b, abandoned w p = Some a -> buffer_of a = Some b -> is_Some (bufs w !! b);
  ow_apart : forall p q a a' b, abandoned w p = Some a -> abandoned w q = Some a' ->
    buffer_of a = Some b -> buffer_of a' = Some b -> p = q
}.

(** The orphans that the collector knows of or will be told about. *)
Definition orphans (w : world) : list Z := orphan_backlog w ++ Deque.deque (orphaned_calls w).

(** The abandoned calls are those of the collector and, after a [dispose] that
    found the deque closed, the calls [X] that it was not told about. *)
Definition custody_with (X : list Z) (w : world) : Prop := owns (X ++ orphans w) w.

Definition custody (w : world) : Prop := custody_with [] w.

(** The mutex is free and the answer is there. *)
Definition answered (w : world) (p : Z) : bool :=
  match slots w !! p with
  | Some s => poll s
  | None => false
  end.

Lemma owns_frame L w w' :
  (forall p, abandoned w' p = abandoned w p) ->
  (forall b, is_Some (bufs w !! b) -> is_Some (bufs w' !! b)) ->
  owns L w -> owns L w'.
Proof.
  intros Ha Hb [H1 H2 H3 H4 H5]. constructor; [done| |done| |].
  - intros p. by rewrite Ha.
  - intros p a b. rewrite Ha. eauto.
  - intros p q a a' b. rewrite !Ha. eauto.
Qed.

Lemma owns_perm L L' w : L ≡ₚ L' -> owns L w -> owns L' w.
Proof.
  intros Hp [H1 H2 H3 H4 H5]. constructor; [by rewrite <- Hp| |by rewrite <- Hp|done..].
  intros p. by rewrite <- Hp.
Qed.

(** ** What happens to a disposed orphan *)

(** The world after the call at [p] with the arguments [a] is freed. *)
Definition released (p : Z) (a : call_args) (w : world) : world :=
  let w1 := match buffer_of a with
            | Some b => set_bufs (delete b (bufs w)) (count_buffer_free w)
            | None => w
            end in
  set_stale_unlocks (stale_unlocks w ++ [p])
    (count_call_free (set_slots (delete p (slots w)) w1)).

Lemma released_slots p a w : slots (released p a w) = delete p (slots w).
Proof. unfold released. by destruct (buffer_of a). Qed.

Lemma released_bufs p a w :
  bufs (released p a w) = match buffer_of a with Some b => delete b (bufs w) | None => bufs w end.
Proof. unfold released. by destruct (buffer_of a). Qed.

Lemma released_abandoned p a w q :
  abandoned (released p a w) q = if decide (q = p) then None else abandoned w q.
Proof.
  unfold abandoned. rewrite released_slots. case_decide as E.
  - subst. by rewrite lookup_delete_eq.
  - by rewrite lookup_delete_ne.
Qed.

Lemma owns_released L p a w :
  owns (p :: L) w -> abandoned w p = Some a -> owns L (released p a w).
Proof.
  intros [H1 H2 H3 H4 H5] Hp. apply NoDup_cons in H1 as [Hni Hnd].
  constructor.
  - done.
  - intros q. rewrite released_abandoned. case_decide as E.
    + subst. split; [done|]. by intros [? ?].
    + rewrite <- H2. set_solver.
  - set_solver.
  - intros q a' b. rewrite released_abandoned. case_decide; [done|]. intros Hq Hb.
    rewrite released_bufs. destruct (buffer_of a) as [b0|] eqn:E; [|eauto].
    rewrite lookup_delete_ne; [eauto|]. intros ->. by assert (p = q) by eauto.
  - intros q1 q2 a1 a2 b. rewrite !released_abandoned. repeat case_decide; try done. eauto.
Qed.

Lemma orphan_cleanup_eq a w :
  (forall b, buffer_of a = Some b -> is_Some (bufs w !! b)) ->
  orphan_cleanup a w = Ret () (match buffer_of a with
    | Some b => set_bufs (delete b (bufs w)) (count_buffer_free w) | None => w end).
Proof.
  intros Hb. destruct a; try done. unfold orphan_cleanup. simpl in *.
  destruct (in_shm_bounds cmd_buf); [|done].
  destruct (Hb _ eq_refl) as [l Hl]. unfold free_raft_buffer, free_buf. mrun. by rewrite Hl.
Qed.

(** [dispose] on an abandoned call, with the mutex held, and the unlock after. *)
Lemma dispose_abandoned p s w :
  slots w !! p = Some s -> client_state s = Abandoned ->
  (forall b, buffer_of (args s) = Some b -> is_Some (bufs w !! b)) ->
  (dispose p ≫= fun _ => unlock p) (update_slot p (set_owned true) w) =
    Ret () (released p (args s) w).
Proof.
  intros Hs Hc Hb. set (w1 := update_slot p (set_owned true) w).
  assert (slots w1 !! p = Some (set_owned true s)) as Hs1 by (cbn; by rewrite lookup_alter_eq, Hs).
  unfold dispose. erewrite bind_Ret.
  2:{ mstep. cbn [client_state set_owned]. rewrite Hc.
      erewrite bind_Ret by (by apply orphan_cleanup_eq). unfold deallocate. by mstep. }
  unfold unlock, released, modify. cbn [args set_owned].
  destruct (buffer_of (args s)); cbn; rewrite delete_alter_eq, lookup_delete_eq; done.
Qed.

Lemma unlock_relock p s w :
  slots w !! p = Some s -> owned s = false ->
  update_slot p (set_owned false) (update_slot p (set_owned true) w) = w.
Proof.
  intros Hs Ho. destruct w as [m]. unfold update_slot, set_slots. cbn in *. f_equal.
  apply map_eq. intros q. destruct (decide (q = p)) as [->|].
  - rewrite !lookup_alter_eq, Hs. cbn. destruct s; cbn in *. by subst.
  - by rewrite !lookup_alter_ne.
Qed.

(** [try_dispose_orphan] on an orphan: nothing changes while it is locked or
    waits for its answer; otherwise it is freed with its buffer. *)
Lemma try_dispose_orphan_eq p L w :
  owns (p :: L) w -> exists a, abandoned w p = Some a /\
    try_dispose_orphan p w =
      if answered w p then Ret true (released p a w) else Ret false w.
Proof.
  intros Ho. destruct (proj1 (ow_iff _ _ Ho p)) as [a Ha]; [apply list_elem_of_here|].
  exists a. split; [done|]. pose proof (ow_buf _ _ Ho p a) as Hb. specialize (fun b => Hb b Ha).
  unfold abandoned in Ha. unfold answered.
  destruct (slots w !! p) as [s|] eqn:Hs; [|done]. case_decide as Hc; [|done]. simplify_eq.
  assert (p <> 0) as Hp by (intros ->; apply (ow_null _ _ Ho), list_elem_of_here).
  unfold try_dispose_orphan. mstep. mstep. unfold poll.
  destruct (owned s) eqn:Ho'; [done|]. cbn [negb andb].
  erewrite bind_Ret by done. destruct (is_terminal (state s)).
  - pose proof (dispose_abandoned p s w Hs Hc Hb) as Hd.
    apply bind_Ret_inv in Hd as (u & w1 & H1 & H2).
    erewrite bind_Ret by done. by erewrite bind_Ret by done.
  - erewrite bind_Ret.
    2:{ unfold unlock. cbn. rewrite lookup_alter_eq, Hs. done. }
    by rewrite (unlock_relock p s).
Qed.

(** ** A scan of the backlog *)

(** The buffers of the calls of [ps] that have their answer. *)
Definition freed_buffer (w : world) (p : Z) : option Z :=
  if answered w p then abandoned w p ≫= buffer_of else None.

Definition freed_buffers (ps : list Z) (w : world) : list Z := omap (freed_buffer w) ps.

(** [w'] is [w] with the answered calls of [ps] and their buffers freed. *)
Record swept (ps : list Z) (w w' : world) : Prop := Swept {
  sp_slots : forall q, slots w' !! q =
    if decide (q ∈ ps /\ answered w q = true) then None else slots w !! q;
  sp_bufs : forall b, bufs w' !! b =
    if decide (b ∈ freed_buffers ps w) then None else bufs w !! b
}.

(** What a round knows besides. *)
Record same_gc (w w' : world) : Prop := SameGc {
  sg_deque : orphaned_calls w' = orphaned_calls w;
  sg_backlog : orphan_backlog w' = orphan_backlog w;
  sg_check : next_check w' = next_check w;
  sg_clock : clock w' = clock w
}.

Lemma same_gc_refl w : same_gc w w.
Proof. done. Qed.

Lemma same_gc_trans w1 w2 w3 : same_gc w1 w2 -> same_gc w2 w3 -> same_gc w1 w3.
Proof. intros [] []. constructor; congruence. Qed.

Lemma same_gc_released p a w : same_gc w (released p a w).
Proof. unfold released. by destruct (buffer_of a). Qed.

Definition waiting (w : world) (ps : list Z) : list Z := filter (fun p => answered w p = false) ps.

(** Freeing one orphan does not change what is known of the others. *)
Lemma answered_released p a w q :
  q <> p -> answered (released p a w) q = answered w q.
Proof. intros Hq. unfold answered. by rewrite released_slots, lookup_delete_ne. Qed.

Lemma freed_buffer_released p a w q :
  q <> p -> freed_buffer (released p a w) q = freed_buffer w q.
Proof.
  intros Hq. unfold freed_buffer. by rewrite answered_released, released_abandoned, decide_False.
Qed.

Lemma waiting_released p a w ps :
  p ∉ ps -> waiting (released p a w) ps = waiting w ps.
Proof.
  intros Hp. unfold waiting. induction ps as [|q ps IH]; [done|].
  apply not_elem_of_cons in Hp as [Hne Hp].
  rewrite !filter_cons, answered_released, IH by done. done.
Qed.

Lemma freed_buffers_released p a w ps :
  p ∉ ps -> freed_buffers ps (released p a w) = freed_buffers ps w.
Proof.
  intros Hp. apply omap_ext_in. intros q Hq. apply freed_buffer_released. set_solver.
Qed.

Lemma freed_buffers_cons p ps w :
  freed_buffers (p :: ps) w =
    match freed_buffer w p with Some b => b :: freed_buffers ps w | None => freed_buffers ps w end.
Proof. done. Qed.

Lemma swept_same w w' : slots w' = slots w -> bufs w' = bufs w -> swept [] w w'.
Proof. intros E1 E2. constructor; intros q; rewrite ?E1, ?E2, decide_False; set_solver. Qed.

Lemma swept_nil w : swept [] w w.
Proof. by apply swept_same. Qed.

Lemma swept_skip p ps w w' : answered w p = false -> swept ps w w' -> swept (p :: ps) w w'.
Proof.
  intros Hp [H1 H2]. constructor; try done.
  - intros q. rewrite H1. apply decide_ext. rewrite elem_of_cons. naive_solver congruence.
  - intros b. rewrite H2, freed_buffers_cons. unfold freed_buffer. by rewrite Hp.
Qed.

Lemma swept_free p a ps w w' :
  p ∉ ps -> answered w p = true -> abandoned w p = Some a ->
  swept ps (released p a w) w' -> swept (p :: ps) w w'.
Proof.
  intros Hp Hans Ha [H1 H2]. constructor.
  - intros q. rewrite H1, released_slots. destruct (decide (q = p)) as [->|Hne].
    + rewrite lookup_delete_eq, (decide_True (P := p ∈ p :: ps /\ _)) by (split; [apply list_elem_of_here|done]).
      by case_decide.
    + rewrite answered_released, lookup_delete_ne by done. apply decide_ext. set_solver.
  - intros b. rewrite H2, freed_buffers_released, released_bufs, freed_buffers_cons by done.
    unfold freed_buffer. rewrite Hans, Ha. cbn.
    destruct (buffer_of a) as [b0|]; [|done]. destruct (decide (b = b0)) as [->|Hne].
    + rewrite lookup_delete_eq, (decide_True (P := b0 ∈ b0 :: _)) by apply list_elem_of_here.
      by case_decide.
    + rewrite lookup_delete_ne by done. apply decide_ext. set_solver.
Qed.

Lemma scan_orphans_eq ps L w :
  owns (ps ++ L) w -> exists w', scan_orphans ps w = Ret (waiting w ps) w' /\
    swept ps w w' /\ same_gc w w' /\ owns (waiting w ps ++ L) w'.
Proof.
  revert L w. induction ps as [|p ps IH]; intros L w Ho.
  - exists w. split_and!; [done|apply swept_nil|done|done].
  - destruct (try_dispose_orphan_eq p (ps ++ L) w Ho) as (a & Ha & Ht).
    assert (p ∉ ps) as Hp.
    { pose proof (ow_nodup _ _ Ho) as Hn. apply NoDup_cons in Hn as [Hn _]. set_solver. }
    unfold waiting. rewrite filter_cons. cbn [scan_orphans]. destruct (answered w p) eqn:Hans.
    + destruct (IH L (released p a w)) as (w' & Hs & Hw & Hg & Ho').
      { by apply owns_released. }
      rewrite waiting_released in * by done. exists w'.
      erewrite bind_Ret by done. erewrite bind_Ret by done.
      split_and!; [done|by eapply swept_free|by eapply same_gc_trans, Hg; apply same_gc_released|done].
    + destruct (IH (p :: L) w) as (w' & Hs & Hw & Hg & Ho').
      { eapply owns_perm; [|done]. apply Permutation_middle. }
      exists w'. erewrite bind_Ret by done. erewrite bind_Ret by done.
      split_and!; [done|by apply swept_skip|done|].
      eapply owns_perm; [|done]. symmetry. apply Permutation_middle.
Qed.

(** Two sweeps after each other. *)
Lemma swept_answered ps w w1 q :
  swept ps w w1 -> answered w1 q = answered w q && negb (bool_decide (q ∈ ps)).
Proof.
  intros [H1 _]. unfold answered at 1. rewrite H1. case_decide as Hd.
  - destruct Hd as [Hq Ha]. rewrite Ha, bool_decide_true by done. done.
  - unfold answered in *. destruct (slots w !! q) as [s|]; [|done].
    destruct (poll s); [|done]. rewrite bool_decide_false by naive_solver. done.
Qed.

Lemma swept_freed ps w w1 q b :
  swept ps w w1 -> (freed_buffer w1 q = Some b <-> (q ∉ ps) /\ freed_buffer w q = Some b).
Proof.
  intros Hw. unfold freed_buffer. rewrite (swept_answered ps w w1 q Hw).
  destruct (decide (q ∈ ps)) as [Hq|Hq].
  - rewrite bool_decide_true, andb_false_r by done. naive_solver.
  - rewrite bool_decide_false, andb_true_r by done. unfold abandoned.
    rewrite (sp_slots _ _ _ Hw q), decide_False by naive_solver. naive_solver.
Qed.

Lemma elem_of_freed ps w b : b ∈ freed_buffers ps w <-> exists q, q ∈ ps /\ freed_buffer w q = Some b.
Proof. apply list_elem_of_omap. Qed.

Lemma swept_app ps qs w w1 w2 :
  swept ps w w1 -> swept (qs ++ waiting w ps) w1 w2 -> swept (qs ++ ps) w w2.
Proof.
  intros Hw1 Hw2. constructor.
  - intros q. rewrite (sp_slots _ _ _ Hw2), (sp_slots _ _ _ Hw1), (swept_answered _ _ _ _ Hw1).
    assert (q ∈ qs ++ ps /\ answered w q = true <->
      (q ∈ qs ++ waiting w ps /\ answered w q && negb (bool_decide (q ∈ ps)) = true) \/
      (q ∈ ps /\ answered w q = true)) as Hiff.
    { unfold waiting. rewrite !elem_of_app, list_elem_of_filter.
      case_bool_decide; destruct (answered w q); naive_solver. }
    repeat case_decide; naive_solver.
  - intros b. rewrite (sp_bufs _ _ _ Hw2), (sp_bufs _ _ _ Hw1).
    assert (b ∈ freed_buffers (qs ++ ps) w <->
      b ∈ freed_buffers (qs ++ waiting w ps) w1 \/ b ∈ freed_buffers ps w) as Hiff.
    { rewrite !elem_of_freed. setoid_rewrite (swept_freed ps w w1 _ b Hw1).
      setoid_rewrite elem_of_app. split.
      - intros (q & Hq & Hb). destruct (decide (q ∈ ps)); naive_solver.
      - unfold waiting. setoid_rewrite list_elem_of_filter. naive_solver. }
    repeat case_decide; naive_solver.
Qed.

Lemma waiting_swept ps qs w w1 :
  swept ps w w1 -> (forall q, q ∈ qs -> q ∉ ps) -> waiting w1 qs = waiting w qs.
Proof.
  intros Hw. unfold waiting. induction qs as [|q qs IH]; intros Hd; [done|].
  rewrite !filter_cons, IH, (swept_answered ps w w1 q Hw), bool_decide_false, andb_true_r
    by set_solver. done.
Qed.

(** ** A round of the collector *)

Lemma owns_fields L w w' :
  slots w' = slots w -> bufs w' = bufs w -> owns L w -> owns L w'.
Proof.
  intros Hs Hb. apply owns_frame.
  - intros p. unfold abandoned. by rewrite Hs.
  - intros b. by rewrite Hb.
Qed.

(** [if (orphan && !try_dispose_orphan(orphan)) orphan_backlog.push_back(orphan)] *)
Lemma handle_orphan_eq p L w :
  owns (p :: L) w -> exists w',
    (gone ← try_dispose_orphan p ;
     if gone : bool then mret ()
     else modify (fun w => set_orphan_backlog (orphan_backlog w ++ [p]) w)) w = Ret () w' /\
    swept [p] w w' /\ owns (waiting w [p] ++ L) w' /\
    orphan_backlog w' = orphan_backlog w ++ waiting w [p] /\
    orphaned_calls w' = orphaned_calls w /\ next_check w' = next_check w /\ clock w' = clock w.
Proof.
  intros Ho. destruct (try_dispose_orphan_eq p L w Ho) as (a & Ha & Ht).
  unfold waiting. rewrite filter_cons. destruct (answered w p) eqn:Hans.
  - exists (released p a w). erewrite bind_Ret by done.
    destruct (same_gc_released p a w) as [E1 E2 E3 E4]. cbn. rewrite app_nil_r.
    split_and!; try done; [|by apply owns_released].
    apply (swept_free p a); [set_solver|done..|apply swept_nil].
  - eexists. erewrite bind_Ret by done. cbn. split_and!; try done.
    + apply swept_skip; [done|]. by apply swept_same.
    + by eapply owns_fields, Ho.
Qed.

(** The second half of a round: the scan, when it is due. *)
Definition due (w : world) : bool := next_check w <? clock w.

Lemma sweep_eq L w :
  owns (orphan_backlog w ++ L) w -> exists w',
    (w ← get ;
     if bool_decide (orphan_backlog w <> []) && (next_check w <? clock w) then
       gc_scan [] (orphan_backlog w)
     else mret ()) w = Ret () w' /\
    swept (if due w then orphan_backlog w else []) w w' /\
    orphan_backlog w' = (if due w then waiting w (orphan_backlog w) else orphan_backlog w) /\
    owns (orphan_backlog w' ++ L) w' /\ orphaned_calls w' = orphaned_calls w.
Proof.
  intros Ho. erewrite bind_Ret by done. cbv beta. fold (due w).
  destruct (due w) eqn:Hd; [|rewrite andb_false_r; exists w; split_and!; try done; apply swept_nil].
  rewrite andb_true_r. case_bool_decide as Hb.
  - destruct (scan_orphans_eq _ _ _ Ho) as (w' & Hs & Hw & [E1 E2 E3 E4] & Ho').
    unfold gc_scan. eexists. erewrite bind_Ret by done. erewrite bind_Ret by done. erewrite bind_Ret by done.
    cbn. split_and!; try done.
    + by destruct Hw.
    + by eapply owns_fields, Ho'.
  - exists w. rewrite Hb in *. split_and!; try done; rewrite ?Hb; try done; apply swept_nil.
Qed.

(** What is taken from the deque in a round. *)
Definition next_orphan (w : world) : list Z := firstn 1 (Deque.deque (orphaned_calls w)).

(** A round scans the backlog if the time has come, or if it finds nothing in the
    deque and so waits until the time has come. *)
Definition scans (w : world) : bool := due w || bool_decide (Deque.deque (orphaned_calls w) = []).

(** The orphans that a round looks at: the new one, and the backlog if it scans. *)
Definition looked_at (w : world) : list Z :=
  (if scans w then orphan_backlog w else []) ++ next_orphan w.

Definition backlog_after (w : world) : list Z :=
  (if scans w then waiting w (orphan_backlog w) else orphan_backlog w) ++ waiting w (next_orphan w).

(** The first part of a round: fetch the next orphan. *)
Lemma fetch_eq w :
  Deque.closed (orphaned_calls w) = false -> orphans w <> [] -> exists w',
    (match orphan_backlog w with
     | [] => p ← zoom orphaned_calls set_orphaned_calls Deque.take ; mret (Some p)
     | _ => poll_orphan
     end) w = Ret (head (next_orphan w)) w' /\
    slots w' = slots w /\ bufs w' = bufs w /\ orphan_backlog w' = orphan_backlog w /\
    orphaned_calls w' = Deque.Dq (skipn 1 (Deque.deque (orphaned_calls w))) false /\
    due w' = scans w.
Proof.
  unfold orphans, next_orphan, poll_orphan, scans. intros Hc Hne.
  assert (forall (A : Type) (m : M (Deque.dq Z) A) (a : A) d, m (orphaned_calls w) = Ret a d ->
    zoom orphaned_calls set_orphaned_calls m w = Ret a (set_orphaned_calls d w)) as Hz
    by (intros; by apply zoom_Ret).
  destruct (Deque.deque (orphaned_calls w)) as [|p rest] eqn:Hq.
  - destruct (orphan_backlog w) as [|b bs] eqn:Hb; [done|].
    erewrite bind_Ret by (apply (Hz _ _ None (orphaned_calls w)); unfold Deque.poll_until,
      Deque.take_section; by rewrite Hc, Hq).
    eexists. split; [done|]. cbn. split_and!; try done.
    + destruct (orphaned_calls w); cbn in *. by subst.
    + unfold due. cbn. rewrite orb_true_r. lia.
  - rewrite bool_decide_false, orb_false_r by done. destruct (orphan_backlog w) as [|b bs] eqn:Hb.
    + erewrite bind_Ret by (apply (Hz _ _ p (Deque.Dq rest false)); unfold Deque.take,
        Deque.take_section; by rewrite Hc, Hq). eexists. split; [done|]. by cbn.
    + erewrite bind_Ret by (apply (Hz _ _ (Some p) (Deque.Dq rest false)); unfold Deque.poll_until,
        Deque.take_section; by rewrite Hc, Hq). eexists. split; [done|]. by cbn.
Qed.

(** The middle part: handle the orphan that was fetched, if there is one. *)
Lemma handle_next_eq o L w :
  owns (option_list o ++ L) w -> exists w',
    match o with
    | Some p =>
        gone ← try_dispose_orphan p ;
        if gone : bool then mret ()
        else modify (fun w => set_orphan_backlog (orphan_backlog w ++ [p]) w)
    | None => mret ()
    end w = Ret () w' /\
    swept (option_list o) w w' /\ owns (waiting w (option_list o) ++ L) w' /\
    orphan_backlog w' = orphan_backlog w ++ waiting w (option_list o) /\
    orphaned_calls w' = orphaned_calls w /\ due w' = due w.
Proof.
  intros Ho. destruct o as [p|].
  - destruct (handle_orphan_eq p L w Ho) as (w' & H1 & H2 & H3 & H4 & H5 & H6 & H7).
    exists w'. split_and!; try done. unfold due. by rewrite H6, H7.
  - exists w. cbn. rewrite app_nil_r. split_and!; done.
Qed.

Lemma swept_from w w1 ps w' :
  slots w1 = slots w -> bufs w1 = bufs w -> swept ps w1 w' -> swept ps w w'.
Proof.
  intros Hs Hb Hw. rewrite <- (app_nil_r ps).
  apply (swept_app [] ps w w1); [by apply swept_same|]. cbn. by rewrite app_nil_r.
Qed.

Lemma swept_then_nil ps w w1 w2 : swept ps w w1 -> swept [] w1 w2 -> swept ps w w2.
Proof.
  intros [H1 H2] [G1 G2]. constructor.
  - intros q. rewrite G1, H1, (decide_False (P := q ∈ [] /\ _)) by set_solver. done.
  - intros b. rewrite G2, H2, (decide_False (P := b ∈ freed_buffers [] _)) by set_solver. done.
Qed.

Lemma waiting_all w ps : (forall q, q ∈ ps -> answered w q = false) -> waiting w ps = ps.
Proof.
  unfold waiting. induction ps as [|q ps IH]; intros Hq; [done|].
  rewrite filter_cons, decide_True, IH by set_solver. done.
Qed.

Lemma waiting_again ps qs w w1 :
  swept ps w w1 -> waiting w1 (waiting w qs) = waiting w qs.
Proof.
  intros Hw. apply waiting_all. intros q [Hq _]%list_elem_of_filter.
  by rewrite (swept_answered ps w w1 q Hw), Hq.
Qed.

Lemma waiting_same w w1 ps : slots w1 = slots w -> waiting w1 ps = waiting w ps.
Proof.
  intros E. unfold waiting. apply list_filter_iff. intros q. unfold answered. by rewrite E.
Qed.

(** A whole round. *)
Lemma gc_round_eq w :
  custody w -> Deque.closed (orphaned_calls w) = false -> orphans w <> [] ->
  exists w', gc_round w = Ret () w' /\ swept (looked_at w) w w' /\
    orphan_backlog w' = backlog_after w /\
    orphaned_calls w' = Deque.Dq (skipn 1 (Deque.deque (orphaned_calls w))) false /\ custody w'.
Proof.
  intros Hcu Hc Hne.
  destruct (fetch_eq w Hc Hne) as (w1 & F1 & F2 & F3 & F4 & F5 & F6).
  set (o := head (next_orphan w)) in *. set (rest := skipn 1 _) in *.
  assert (next_orphan w = option_list o) as En.
  { unfold o, next_orphan. by destruct (Deque.deque _) as [|? []]. }
  assert (orphans w = orphan_backlog w ++ option_list o ++ rest) as Eo.
  { unfold orphans. f_equal. rewrite <- En. unfold rest, next_orphan. by rewrite take_drop. }
  unfold custody, custody_with in Hcu. rewrite Eo in Hcu. cbn [app] in Hcu.
  destruct (handle_next_eq o (orphan_backlog w ++ rest) w1) as (w2 & G1 & G2 & G3 & G4 & G5 & G6).
  { eapply owns_perm, owns_fields, Hcu; [|done..]. by rewrite !app_assoc, (Permutation_app_comm (option_list o)). }
  rewrite (waiting_same w w1) in * by done. apply (swept_from w) in G2; [|done..].
  destruct (sweep_eq rest w2) as (w3 & S1 & S2 & S3 & S4 & S5).
  { eapply owns_perm, G3. rewrite G4, F4, !app_assoc. by rewrite (Permutation_app_comm (waiting _ _)). }
  rewrite G6, F6, G4, F4 in *.
  exists w3. split_and!.
  - unfold gc_round, gc_handle. erewrite bind_Ret by done. erewrite bind_Ret by done.
    by erewrite bind_Ret by done.
  - unfold looked_at. rewrite En. destruct (scans w); [by apply (swept_app _ _ w w2)|].
    by apply (swept_then_nil _ w w2).
  - rewrite S3. unfold backlog_after. rewrite En. destruct (scans w); [|done].
    unfold waiting at 1. rewrite filter_app. f_equal.
    + apply (waiting_swept (option_list o)); [done|]. intros q Hq Hq'.
      apply ow_nodup, NoDup_app in Hcu as (_ & Hd & _). apply (Hd q Hq). set_solver.
    + by apply (waiting_again (option_list o)).
  - by rewrite S5, G5, F5.
  - unfold custody, custody_with, orphans. rewrite S5, G5, F5. done.
Qed.

Lemma gc_round_empty w :
  Deque.closed (orphaned_calls w) = false -> orphans w = [] -> exists w', gc_round w = Block w' /\
    slots w' = slots w /\ bufs w' = bufs w /\ orphans w' = [].
Proof.
  intros Hc [Hb Hq]%app_nil. unfold gc_round, zoom, Deque.take, Deque.take_section. mrun.
  rewrite Hb. cbn. rewrite Hc, Hq. eexists. split; [done|]. unfold orphans. cbn. by rewrite Hb.
Qed.

Lemma gc_round_closed w : Deque.closed (orphaned_calls w) = true -> gc_round w = Throw w.
Proof.
  intros Hc. assert (set_orphaned_calls (orphaned_calls w) w = w) as E by (by destruct w).
  unfold gc_round, poll_orphan, zoom, Deque.take, Deque.poll_until, Deque.take_section. mrun.
  destruct (orphan_backlog w); cbn; by rewrite Hc, E.
Qed.

(** ** Draining *)

Lemma waiting_none w ps : (forall q, q ∈ ps -> answered w q = true) -> waiting w ps = [].
Proof.
  unfold waiting. induction ps as [|q ps IH]; intros Hq; [done|].
  rewrite filter_cons, decide_False, IH; [done|set_solver|]. by rewrite Hq by apply list_elem_of_here.
Qed.

Lemma swept_set ps qs w w' : (forall p, p ∈ ps <-> p ∈ qs) -> swept ps w w' -> swept qs w w'.
Proof.
  intros Hpq [H1 H2]. constructor.
  - intros q. rewrite H1. apply decide_ext. by rewrite Hpq.
  - intros b. rewrite H2. apply decide_ext. rewrite !elem_of_freed. by setoid_rewrite Hpq.
Qed.

(** What a round leaves when every orphan is answered: each of them is freed in
    the round or left, and there are fewer left. *)
Lemma round_leaves w w1 :
  custody w -> (forall p, p ∈ orphans w -> answered w p = true) -> orphans w <> [] ->
  orphan_backlog w1 = backlog_after w -> Deque.deque (orphaned_calls w1) = skipn 1 (Deque.deque (orphaned_calls w)) ->
  (forall p, p ∈ orphans w1 ++ looked_at w <-> p ∈ orphans w) /\
  (forall p, p ∈ orphans w1 -> p ∉ looked_at w) /\ (length (orphans w1) < length (orphans w))%nat.
Proof.
  intros Hcu Hans Hne Hbl Hq.
  assert (orphans w1 = (if scans w then [] else orphan_backlog w) ++ skipn 1 (Deque.deque (orphaned_calls w))) as E.
  { unfold orphans. rewrite Hbl, Hq. unfold backlog_after. f_equal.
    rewrite (waiting_none w (next_orphan w)), app_nil_r.
    - destruct (scans w); [|done]. apply waiting_none. intros q Hq'. apply Hans, elem_of_app. by left.
    - intros q (? & ?%list_elem_of_lookup_2 & _)%elem_of_take. apply Hans, elem_of_app. by right. }
  pose proof (ow_nodup _ _ Hcu) as Hnd. cbn [app] in Hnd. rewrite E. unfold orphans, looked_at, next_orphan in *. clear E Hbl Hq.
  rewrite <- (take_drop 1 (Deque.deque (orphaned_calls w))) in Hnd. split_and!.
  - intros p. rewrite <- (take_drop 1 (Deque.deque (orphaned_calls w))) at 3. rewrite !elem_of_app.
    destruct (scans w); rewrite ?not_elem_of_nil; set_solver.
  - apply NoDup_app in Hnd as (_ & Hd1 & (_ & Hd2 & _)%NoDup_app). intros p. destruct (scans w); set_solver.
  - unfold scans. rewrite !length_app, length_skipn. destruct (Deque.deque (orphaned_calls w)) as [|x l].
    + rewrite bool_decide_true, orb_true_r by done. destruct (orphan_backlog w); [done|cbn; lia].
    + destruct (due w || _); cbn; lia.
Qed.

Lemma gc_loop_drains n w :
  custody w -> Deque.closed (orphaned_calls w) = false ->
  (forall p, p ∈ orphans w -> answered w p = true) -> (length (orphans w) < n)%nat ->
  exists w', gc_loop n w = Block w' /\ orphans w' = [] /\ custody w' /\ swept (orphans w) w w'.
Proof.
  revert w. induction n as [|n IH]; intros w Hcu Hc Hans Hn; [lia|].
  cbn [gc_loop]. destruct (decide (orphans w = [])) as [E|Hne].
  - destruct (gc_round_empty w Hc E) as (w' & Hr & Hs & Hb & Ho). exists w'.
    unfold mbind, M_bind. rewrite Hr. split_and!; try done.
    + unfold custody, custody_with in *. rewrite Ho, E in *. by eapply owns_fields.
    + rewrite E. by apply swept_same.
  - destruct (gc_round_eq w Hcu Hc Hne) as (w1 & Hr & Hsw & Hbl & Hq & Hcu1).
    erewrite bind_Ret by done.
    destruct (round_leaves w w1 Hcu Hans Hne Hbl) as (Hall & Hrest & Hlt); [by rewrite Hq|].
    destruct (IH w1) as (w' & ? & ? & ? & Hsw'); [done|by rewrite Hq| |lia|].
    + intros p Hp. rewrite (swept_answered _ _ _ _ Hsw), Hans by (apply Hall, elem_of_app; by left).
      by rewrite bool_decide_false by (by apply Hrest).
    + exists w'. split_and!; try done. apply (swept_set _ _ w w' Hall).
      apply (swept_app _ _ w w1); [done|]. rewrite waiting_none, app_nil_r; [done|].
      intros q Hq'. apply Hans, Hall, elem_of_app. by right.
Qed.

(** ** What a client may do

    Until the shutdown closes the deque, a client that keeps to the interface: it does not use a future after it has
    disposed of it, does not free the command of a call it has given up, and
    gives up two calls for the same buffer never.  The other threads and the
    collector run in between. *)
Inductive client_step : world -> world -> Prop :=
  | cs_alloc len w p w' : alloc_raft_buffer len w = Ret p w' -> client_step w w'
  | cs_free b w w' :
      (forall q a, abandoned w q = Some a -> buffer_of a <> Some b) ->
      free_raft_buffer b w = Ret () w' -> client_step w w'
  | cs_send t a w p w' : send_api_request t a w = Ret p w' -> client_step w w'
  | cs_error err t a w p w' : make_error_request err t a w = Ret p w' -> client_step w w'
  | cs_wait f w w' : abandoned w f = None -> wait f w = Ret () w' -> client_step w w'
  | cs_dispose f s w w' :
      f <> 0 -> slots w !! f = Some s -> client_state s <> Abandoned ->
      (forall b, client_state s = Issued -> buffer_of (args s) = Some b ->
         is_Some (bufs w !! b) /\ forall q a, abandoned w q = Some a -> buffer_of a <> Some b) ->
      dispose f w = Ret () w' -> client_step w w'
  | cs_others e w : client_step w (run_env e w)
  | cs_collector w w' : gc_round w = Ret () w' -> client_step w w'.

(** These lemmas are for any calls that the collector was not told about. *)
Section Frame.
Context {X : list Z}.

(** Custody depends on the abandoned calls, the live buffers and the lists. *)
Lemma custody_frame w w' :
  (forall p, abandoned w' p = abandoned w p) ->
  (forall b, is_Some (bufs w !! b) -> is_Some (bufs w' !! b)) ->
  orphans w' = orphans w -> custody_with X w -> custody_with X w'.
Proof. unfold custody_with. intros Ha Hb Ho Hc. rewrite Ho. by eapply owns_frame. Qed.

(** A change of one slot that neither abandons it nor takes it back. *)
Lemma abandoned_update p f w q :
  (forall s, client_state (f s) = client_state s /\ args (f s) = args s) ->
  abandoned (update_slot p f w) q = abandoned w q.
Proof.
  intros Hf. unfold abandoned. cbn. destruct (decide (q = p)) as [->|].
  - rewrite lookup_alter_eq. destruct (slots w !! p) as [s|]; [|done]. cbn.
    destruct (Hf s) as [-> ->]. done.
  - by rewrite lookup_alter_ne.
Qed.

Lemma custody_update p f w :
  (forall s, client_state (f s) = client_state s /\ args (f s) = args s) ->
  custody_with X w -> custody_with X (update_slot p f w).
Proof.
  intros Hf. apply custody_frame; [|done..]. intros q. by apply abandoned_update.
Qed.

Lemma env_reply_frame (m : M slot ()) s :
  (forall s', m s = Ret () s' -> client_state s' = client_state s /\ args s' = args s) ->
  let s' := match m s with Ret _ s' => s' | _ => s end in
  client_state s' = client_state s /\ args s' = args s.
Proof. intros Hm. destruct (m s) as [[] s'|?|?|?]; naive_solver. Qed.

(** The other threads do not change who owns what. *)
Lemma abandoned_env e w q : abandoned (run_env e w) q = abandoned w q.
Proof.
  destruct e as [|p err|p v|p|p| | | |p t a|]; simpl; try done; try (by apply abandoned_update).
  - by case_match.
  - apply abandoned_update. intros s. apply env_reply_frame.
    intros s' (? & ? & ?)%reply_frame. done.
  - apply abandoned_update. intros s. apply env_reply_frame.
    intros s' E. rewrite reply_value_eq in E. apply reply_frame in E as (? & ? & ?). done.
  - unfold env_send. case_decide as Hp; [done|].
    assert (slots w !! p = None) as E by (apply not_elem_of_dom; set_solver).
    assert (forall w1, slots w1 = <[p := new_slot t a]> (slots w) -> abandoned w1 q = abandoned w q) as Hn.
    { intros w1 Ew. unfold abandoned. rewrite Ew. destruct (decide (q = p)) as [->|]; [|by rewrite lookup_insert_ne].
      by rewrite lookup_insert_eq, E. }
    cbv zeta. case_match; try done; by apply Hn.
Qed.

Lemma custody_env e w : custody_with X w -> custody_with X (run_env e w).
Proof.
  assert (bufs (run_env e w) = bufs w /\ orphans (run_env e w) = orphans w) as [E1 E2].
  { destruct e; simpl; try done; [by case_match|].
    unfold env_send. case_decide; [done|]. by case_match. }
  apply custody_frame; [apply abandoned_env|by rewrite E1|done].
Qed.

Lemma custody_await cond : preserves (custody_with X) (await cond).
Proof. apply ShmInv.preserves_await; [|apply custody_env]. intros es w. by apply custody_frame. Qed.

Lemma custody_new_slot p s w :
  slots w !! p = None -> client_state s = Issued ->
  custody_with X w -> custody_with X (with_call p s w).
Proof.
  intros Hp Hs. apply custody_frame; [|done..]. intros q. unfold abandoned. cbn.
  destruct (decide (q = p)) as [->|].
  - by rewrite lookup_insert_eq, Hp, Hs.
  - by rewrite lookup_insert_ne.
Qed.

Lemma node_fresh w p : seg_alloc_node (used w) = Some p -> slots w !! p = None.
Proof.
  intros [Hp _]%seg_alloc_node_fresh. apply not_elem_of_dom. unfold used in Hp. set_solver.
Qed.

Lemma custody_queue_put which r : preserves (custody_with X) (queue_put which r).
Proof.
  apply preserves_bind; [apply custody_await|]. intros _. apply preserves_zoom.
  intros w q. destruct which; by apply custody_frame.
Qed.

Lemma custody_send_request which ok t a : preserves (custody_with X) (send_request which ok t a).
Proof.
  intros w Hc. destruct (seg_alloc_node (used w)) as [p|] eqn:E.
  - rewrite (send_request_eq _ _ _ _ _ _ E). apply preserves_bind; [|by intros u w'|].
    + apply preserves_catch; [apply custody_queue_put|]. destruct ok; [by intros w'|].
      apply preserves_modify. intros w'. by apply custody_update.
    + apply custody_new_slot; [by apply node_fresh|done|done].
  - unfold send_request, now, alloc_request. mrun.
    change (used (count_call_alloc w)) with (used w). by rewrite E.
Qed.

Lemma custody_make_error_request err t a : preserves (custody_with X) (make_error_request err t a).
Proof.
  intros w Hc. destruct (decide (err = RAFT_SUCCESS)) as [->|Herr]; [done|].
  destruct (seg_alloc_node (used w)) as [p|] eqn:E.
  - rewrite (make_error_request_eq _ _ _ _ _ E Herr).
    apply custody_new_slot; [by apply node_fresh|done|done].
  - unfold make_error_request, alloc_request. rewrite bool_decide_true by done. mrun.
    change (used (count_call_alloc w)) with (used w). by rewrite E.
Qed.

Lemma custody_wait f w w' :
  abandoned w f = None -> wait f w = Ret () w' -> custody_with X w -> custody_with X w'.
Proof.
  intros Hf Hw Hc. unfold wait in Hw. apply bind_Ret_inv in Hw as ([] & w1 & H1 & H2).
  assert (preserves (fun w => custody_with X w /\ abandoned w f = None) (await (wait_ready f))) as Hp.
  { apply ShmInv.preserves_await.
    - intros es w0 [? ?]. split; [|done]. by apply (custody_frame w0).
    - intros e w0 [? ?]. split; [by apply custody_env|by rewrite abandoned_env]. }
  specialize (Hp w (conj Hc Hf)). rewrite H1 in Hp. destruct Hp as [Hc1 Hf1].
  apply bind_Ret_inv in H2 as (s & w2 & H2 & H3). unfold get_slot in H2.
  destruct (slots w1 !! f) as [s1|] eqn:Hs; simplify_eq.
  cbv [mbind M_bind now modify] in H3. simplify_eq.
  apply (custody_frame w2); try done. intros q. unfold abandoned in *. cbn.
  destruct (decide (q = f)) as [->|]; [|by rewrite lookup_alter_ne].
  rewrite lookup_alter_eq. rewrite Hs in *. done.
Qed.

(** A call that becomes an orphan. *)
Lemma owns_add L f a w w' :
  owns L w -> f <> 0 -> abandoned w f = None ->
  (forall q, abandoned w' q = if decide (q = f) then Some a else abandoned w q) ->
  bufs w' = bufs w ->
  (forall b, buffer_of a = Some b ->
     is_Some (bufs w !! b) /\ forall q a, abandoned w q = Some a -> buffer_of a <> Some b) ->
  owns (L ++ [f]) w'.
Proof.
  intros [H1 H2 H3 H4 H5] Hf Hn Ha Hb Hbuf.
  assert (f ∉ L) as HfL by (rewrite H2, Hn; by intros [? ?]).
  constructor.
  - apply NoDup_app. split_and!; [done| |apply NoDup_singleton]. set_solver.
  - intros p. rewrite Ha, elem_of_app, list_elem_of_singleton. case_decide; [naive_solver|].
    rewrite H2. naive_solver.
  - set_solver.
  - intros p a' b. rewrite Ha, Hb. case_decide; [|by eauto]. intros [= <-] Hb'. by apply Hbuf.
  - intros p q a1 a2 b. rewrite !Ha.
    repeat case_decide; subst; intros; simplify_eq; try done; try by eauto.
    + by destruct (Hbuf b ltac:(done)) as [_ Hno]; destruct (Hno q a2).
    + by destruct (Hbuf b ltac:(done)) as [_ Hno]; destruct (Hno p a1).
Qed.

Lemma abandoned_slot w f s :
  slots w !! f = Some s -> client_state s <> Abandoned -> abandoned w f = None.
Proof. intros Hs Hc. unfold abandoned. by rewrite Hs, decide_False. Qed.

Lemma custody_dispose f s w w' :
  f <> 0 -> slots w !! f = Some s -> client_state s <> Abandoned ->
  (forall b, client_state s = Issued -> buffer_of (args s) = Some b ->
     is_Some (bufs w !! b) /\ forall q a, abandoned w q = Some a -> buffer_of a <> Some b) ->
  dispose f w = Ret () w' -> custody_with X w -> custody_with X w'.
Proof.
  intros Hf Hs Hna Hbuf Hd Hc. pose proof (abandoned_slot w f s Hs Hna) as Hn.
  unfold dispose in Hd. erewrite bind_Ret in Hd by (by apply get_slot_eq).
  destruct (client_state s) eqn:Hcs; [| |done].
  - erewrite bind_Ret in Hd by done. unfold track_orphan, zoom, Deque.put, Deque.put_section in Hd.
    destruct (Deque.closed _); simplify_eq/=. unfold custody_with, orphans. cbn.
    rewrite !app_assoc. apply (owns_add _ f (args s) w); try done; [by rewrite <- app_assoc| |by eauto].
    intros q. unfold abandoned. cbn. case_decide as E.
    + subst. by rewrite lookup_alter_eq, Hs.
    + by rewrite lookup_alter_ne.
  - unfold deallocate, modify in Hd. mrun. cbn in Hd. cbv [mbind M_bind] in Hd. simplify_eq.
    apply (custody_frame w); try done. intros q. unfold abandoned. cbn.
    destruct (decide (q = f)) as [->|]; [|by rewrite lookup_delete_ne].
    rewrite lookup_delete_eq. by unfold abandoned in Hn.
Qed.

(** A [dispose] that finds the deque closed leaves the call abandoned, and the
    collector does not hear of it. *)
Lemma dispose_throws f s w w' :
  slots w !! f = Some s -> client_state s <> Abandoned -> dispose f w = Throw w' ->
  client_state s = Issued /\ Deque.closed (orphaned_calls w) = true /\ w' = update_slot f (set_client_state Abandoned) w.
Proof.
  intros Hs Hna Hd. unfold dispose in Hd. erewrite bind_Ret in Hd by (by apply get_slot_eq).
  destruct (client_state s) eqn:Hcs; [|done|done]. erewrite bind_Ret in Hd by done.
  unfold track_orphan, zoom, Deque.put, Deque.put_section in Hd. destruct (Deque.closed _) eqn:Hc; [|done].
  injection Hd as <-. split_and!; [done|done|]. by destruct w.
Qed.

Lemma custody_dispose_closed f s w w' :
  f <> 0 -> slots w !! f = Some s -> client_state s <> Abandoned ->
  (forall b, client_state s = Issued -> buffer_of (args s) = Some b ->
     is_Some (bufs w !! b) /\ forall q a, abandoned w q = Some a -> buffer_of a <> Some b) ->
  dispose f w = Throw w' -> custody_with X w -> custody_with (f :: X) w'.
Proof.
  intros Hf Hs Hna Hbuf Hd Hc. pose proof (abandoned_slot w f s Hs Hna) as Hn.
  destruct (dispose_throws f s w w' Hs Hna Hd) as (Hcs & _ & ->). unfold custody_with.
  change (orphans (update_slot f (set_client_state Abandoned) w)) with (orphans w). cbn [app].
  apply (owns_perm ((X ++ orphans w) ++ [f])); [by rewrite Permutation_app_comm|].
  apply (owns_add _ f (args s) w); try done; [|by eauto].
  intros q. unfold abandoned. cbn. case_decide as E.
  - subst. by rewrite lookup_alter_eq, Hs.
  - by rewrite lookup_alter_ne.
Qed.

Lemma custody_free b w w' :
  (forall q a, abandoned w q = Some a -> buffer_of a <> Some b) ->
  free_raft_buffer b w = Ret () w' -> custody_with X w -> custody_with X w'.
Proof.
  intros Hno Hr [H1 H2 H3 H4 H5]. unfold free_raft_buffer, free_buf in Hr.
  cbv [mbind M_bind modify get fail] in Hr. simpl in Hr.
  destruct (bufs w !! b) eqn:E; simplify_eq. constructor; try done.
  intros p a b' Hp Hb. cbn. rewrite lookup_delete_ne; [by eauto|]. intros ->. by eapply Hno.
Qed.

Lemma custody_alloc len : preserves (custody_with X) (alloc_raft_buffer len).
Proof.
  intros w Hc. unfold alloc_raft_buffer, allocate_buf. mrun.
  destruct (seg_alloc (used w) len) as [p|]; [|done]. cbn.
  apply (custody_frame w); try done. intros b Hb. cbn.
  destruct (decide (b = p)) as [->|]; [by rewrite lookup_insert_eq|by rewrite lookup_insert_ne].
Qed.

Lemma preserves_Ret {A : Type} (m : M world A) a w w' :
  preserves (custody_with X) m -> m w = Ret a w' -> custody_with X w -> custody_with X w'.
Proof. intros Hp Hr Hc. specialize (Hp w Hc). by rewrite Hr in Hp. Qed.
End Frame.

Lemma custody_gc_round w w' : gc_round w = Ret () w' -> custody w -> custody w'.
Proof.
  intros Hr Hc. destruct (Deque.closed (orphaned_calls w)) eqn:Hcl.
  - by rewrite (gc_round_closed w Hcl) in Hr.
  - destruct (decide (orphans w = [])) as [E|Hne].
    + destruct (gc_round_empty w Hcl E) as (? & ? & _). congruence.
    + destruct (gc_round_eq w Hc Hcl Hne) as (? & ? & _ & _ & _ & ?). congruence.
Qed.

Lemma custody_step w w' : client_step w w' -> custody w -> custody w'.
Proof.
  intros Hst Hc. destruct Hst; try (by eapply custody_gc_round); unfold custody in *;
    eauto using preserves_Ret, custody_alloc, custody_free, custody_send_request,
    custody_make_error_request, custody_wait, custody_dispose, custody_env.
Qed.

Lemma custody_init timing es : custody (init_world timing es).
Proof.
  constructor; try done.
  - apply NoDup_nil_2.
  - intros p. split; [by intros ?%not_elem_of_nil|]. by intros [? ?].
  - apply not_elem_of_nil.
Qed.

Lemma custody_reachable timing es w : rtc client_step (init_world timing es) w -> custody w.
Proof.
  intros Hr. eapply invariant_rtc; [|exact Hr|apply custody_init].
  intros x y Hx Hst. by eapply custody_step.
Qed.

(** ** Properties *)

(** C9: What a round of [run_orphan_gc] does, when there is an orphan: it takes
    the next orphan from the deque, and looks at it and, if 100 ms have passed or
    if there was no orphan in the deque to take, in which case it waits until they
    have passed, at the whole backlog. Of the calls it looks at, those that are
    answered and whose mutex is free are freed with their command buffers, and no
    others; the rest stay in the backlog in the order they came. *)
Theorem gc_round_collects w :
  custody w -> Deque.closed (orphaned_calls w) = false -> orphans w <> [] ->
  exists w', gc_round w = Ret () w' /\
    orphan_backlog w' = backlog_after w /\
    Deque.deque (orphaned_calls w') = skipn 1 (Deque.deque (orphaned_calls w)) /\
    (forall q, slots w' !! q =
       if decide (q ∈ looked_at w /\ answered w q = true) then None else slots w !! q) /\
    (forall b, bufs w' !! b =
       if decide (b ∈ freed_buffers (looked_at w) w) then None else bufs w !! b).
Proof.
  intros Hc Hcl Hne.
  destruct (gc_round_eq w Hc Hcl Hne) as (w' & Hr & [H1 H2] & Hb & Hq & _).
  exists w'. by rewrite Hq.
Qed.

(** [scan_orphans] frees the calls of the list that are answered and whose
    mutex is free, each once and each with its buffer, leaves every other slot
    and buffer alone, and keeps the other calls in the list, in order. *)
Theorem scan_orphans_sweeps ps L w :
  owns (ps ++ L) w ->
  exists w', scan_orphans ps w = Ret (filter (fun p => answered w p = false) ps) w' /\
    (forall q, slots w' !! q =
       if decide (q ∈ ps /\ answered w q = true) then None else slots w !! q) /\
    (forall b, bufs w' !! b =
       if decide (b ∈ freed_buffers ps w) then None else bufs w !! b).
Proof.
  intros Ho. destruct (scan_orphans_eq ps L w Ho) as (w' & Hs & [H1 H2] & _). by exists w'.
Qed.

(** The collector frees every orphan once the answers are there: when all
    orphans are answered and unlocked, the loop of [run_orphan_gc] goes to sleep
    after at most one round per orphan, with nothing left to collect. The slots of
    the orphans and their command buffers are then free, and every other slot and
    buffer is as it was. *)
Theorem gc_drains w :
  custody w -> Deque.closed (orphaned_calls w) = false ->
  (forall p, p ∈ orphans w -> answered w p = true) ->
  exists w', gc_loop (S (length (orphans w))) w = Block w' /\ orphans w' = [] /\
    (forall p, slots w' !! p = if decide (p ∈ orphans w) then None else slots w !! p) /\
    (forall b, bufs w' !! b = if decide (b ∈ freed_buffers (orphans w) w) then None else bufs w !! b).
Proof.
  intros Hc Hcl Ha.
  destruct (gc_loop_drains (S (length (orphans w))) w Hc Hcl) as (w' & Hr & Ho & _ & Hsw); [done|lia|].
  exists w'. split_and!; [done|done| |apply Hsw]. intros p. rewrite (sp_slots _ _ _ Hsw). apply decide_ext.
  split; [tauto|]. auto.
Qed.

(** [try_dispose_orphan] frees the slot while its lock on the mutex in that
    slot is alive: when it returns true, the slot has been given back, and the
    destructor of the lock has then written to it. *)
Theorem try_dispose_unlocks_freed_slot p L w :
  owns (p :: L) w -> answered w p = true ->
  exists w', try_dispose_orphan p w = Ret true w' /\ slots w' !! p = None /\
    stale_unlocks w' = stale_unlocks w ++ [p].
Proof.
  intros Ho Ha. destruct (try_dispose_orphan_eq p L w Ho) as (a & _ & Ht).
  rewrite Ha in Ht. exists (released p a w). split_and!; [done| |done].
  rewrite released_slots. apply lookup_delete_eq.
Qed.

End Custody.

(** ** A concrete run: a command is sent, given up, and answered later *)

Definition run {A : Type} (m : M world A) (w : world) : world :=
  match m w with Ret _ w' | Throw w' | Block w' => w' | Fault _ => w end.

Definition orphan_start : world := init_world false [].
Definition orphan_buf : world := run (alloc_raft_buffer 16) orphan_start.
Definition orphan_sent : world := run (send_api_request Apply (ApplyArgs 4096 16 0)) orphan_buf.
Definition orphan_lost : world := run (dispose 4352) orphan_sent.
Definition orphan_answered : world := run_env (ERaftReplyValue 4352 7) orphan_lost.

Lemma orphan_run_sent : rtc client_step orphan_start orphan_sent.
Proof.
  eapply rtc_l; [by apply (cs_alloc 16 _ 4096 orphan_buf); vm_compute|].
  apply rtc_once. by apply (cs_send Apply (ApplyArgs 4096 16 0) _ 4352 orphan_sent); vm_compute.
Qed.

Lemma orphan_none q : abandoned orphan_sent q = None.
Proof.
  destruct (abandoned orphan_sent q) as [a|] eqn:E; [|done]. exfalso.
  pose proof (custody_reachable _ _ _ orphan_run_sent) as Hc.
  assert (q ∈ orphans orphan_sent) as Hq by (apply (ow_iff _ _ Hc); by eexists).
  vm_compute in Hq. by apply not_elem_of_nil in Hq.
Qed.

Lemma orphan_run_lost : rtc client_step orphan_start orphan_lost.
Proof.
  eapply rtc_r; [apply orphan_run_sent|].
  eapply (cs_dispose 4352 _ _ orphan_lost); [done|vm_compute; reflexivity|done| |by vm_compute].
  intros b _ Hb. vm_compute in Hb. simplify_eq. split; [vm_compute; by eexists|].
  intros q a. by rewrite orphan_none.
Qed.

Lemma orphan_run : rtc client_step orphan_start orphan_answered.
Proof. eapply rtc_r; [apply orphan_run_lost|apply cs_others]. Qed.

Lemma orphan_owned : custody orphan_answered.
Proof. exact (custody_reachable _ _ _ orphan_run). Qed.

Lemma gc_round_collects_witness :
  exists w', gc_round orphan_answered = Ret () w' /\ slots w' !! 4352 = None /\ bufs w' !! 4096 = None.
Proof.
  destruct (gc_round_collects orphan_answered) as (w' & Hr & _ & _ & Hs & Hb);
    [apply orphan_owned|by vm_compute|by vm_compute|].
  exists w'. rewrite Hs, Hb. by vm_compute.
Defined.

Lemma scan_orphans_sweeps_witness :
  exists w', scan_orphans [4352] orphan_lost = Ret [4352] w' /\ is_Some (slots w' !! 4352).
Proof.
  destruct (scan_orphans_sweeps [4352] [] orphan_lost) as (w' & Hs & Hsl & _);
    [exact (custody_reachable _ _ _ orphan_run_lost)|].
  exists w'. rewrite Hs, Hsl. split; [by vm_compute|vm_compute; by eexists].
Defined.

Lemma gc_drains_witness :
  exists w', gc_loop 2 orphan_answered = Block w' /\ orphans w' = [].
Proof.
  destruct (gc_drains orphan_answered) as (w' & Hr & Ho & _);
    [apply orphan_owned|by vm_compute| |by exists w'].
  intros p Hp. vm_compute in Hp.
  apply list_elem_of_singleton in Hp. subst. by vm_compute.
Defined.

Lemma try_dispose_unlocks_freed_slot_witness :
  exists w', try_dispose_orphan 4352 orphan_answered = Ret true w' /\ stale_unlocks w' = [4352].
Proof.
  destruct (try_dispose_unlocks_freed_slot 4352 [] orphan_answered) as (w' & Ht & _ & Hs);
    [apply orphan_owned|by vm_compute|]. exists w'. split; [done|]. rewrite Hs. by vm_compute.
Defined.

End Orphans.
