(* ===== verification/Collector.v ===== *)
(** * The collector in small steps

    The loop of [run_orphan_gc] as a step relation in which the other threads can
    run between any two of its accesses to the deque and to the slots.  An orphan
    that the loop has in its hands is kept at the end of the backlog, where
    [push_back] would put it. *)

From stdpp Require Import base tactics list strings gmap relations.
From Stdlib Require Import ZArith Lia.
From S2P Require Import Prelude CString Defs ArrayQueue Deque Slot Shm ShmInv ShmSpec Orphans.

Module Collector.
Import CString Defs Slot Shm ShmSpec Orphans.

Section Collector.
Context `{Segment}.

(** Where the loop is: before [take] or [poll_until], before
    [try_dispose_orphan(orphan)], before the test of the time, or in
    [scan_orphans] at a position of the backlog. *)
Inductive gc_pc := GcFetch | GcTry | GcCheck | GcScan (i : nat).

(** [!orphan_backlog.empty() && now() > next_check] *)
Definition scan_due (w : world) : bool := bool_decide (orphan_backlog w <> []) && (next_check w <? clock w).

(** [poll_until] gives up when the time has come, whatever the deque then holds
    and also when it has just been closed: the timed lock on its mutex may fail,
    and a wait that times out does not look at the deque again. *)
Inductive gc_step : gc_pc * world -> gc_pc * world -> Prop :=
  | gc_fetch w p rest :
      orphaned_calls w = Deque.Dq (p :: rest) false ->
      gc_step (GcFetch, w)
        (GcTry, set_orphan_backlog (orphan_backlog w ++ [p]) (set_orphaned_calls (Deque.Dq rest false) w))
  | gc_timeout w :
      orphan_backlog w <> [] -> next_check w <= clock w -> gc_step (GcFetch, w) (GcCheck, w)
  | gc_try w l p gone w' :
      orphan_backlog w = l ++ [p] -> try_dispose_orphan p w = Ret gone w' ->
      gc_step (GcTry, w) (GcCheck, if gone : bool then set_orphan_backlog l w' else w')
  | gc_skip w : scan_due w = false -> gc_step (GcCheck, w) (GcFetch, w)
  | gc_begin w : scan_due w = true -> gc_step (GcCheck, w) (GcScan 0, w)
  | gc_scan w i p gone w' :
      orphan_backlog w !! i = Some p -> try_dispose_orphan p w = Ret gone w' ->
      gc_step (GcScan i, w)
        (if gone : bool then (GcScan i, set_orphan_backlog (delete i (orphan_backlog w')) w') else (GcScan (S i), w'))
  | gc_end w :
      gc_step (GcScan (length (orphan_backlog w)), w) (GcFetch, set_next_check (clock w + orphan_interval) w).

(** What the place says about the backlog. *)
Definition gc_ok (g : gc_pc) (w : world) : Prop :=
  match g with
  | GcTry => orphan_backlog w <> []
  | GcScan i => (i <= length (orphan_backlog w))%nat
  | _ => True
  end.

(** ** What a step does

    [X] are abandoned calls that the collector was not told about. *)
Section Effect.
Context {X : list Z}.

Lemma released_backlog p a l w : released p a (set_orphan_backlog l w) = set_orphan_backlog l (released p a w).
Proof. unfold released. by destruct (buffer_of a). Qed.

Lemma set_backlog_id w : set_orphan_backlog (orphan_backlog w) w = w.
Proof. by destruct w. Qed.

(** [try_dispose_orphan] on one of the orphans: [None] if nothing changes. *)
Lemma try_orphan p w :
  custody_with X w -> p ∈ orphans w ->
  (exists a, try_dispose_orphan p w = Ret true (released p a w) /\ abandoned w p = Some a /\ answered w p = true) \/
  (try_dispose_orphan p w = Ret false w /\ answered w p = false).
Proof.
  intros Hc Hp. apply elem_of_Permutation in Hp as [L HL].
  destruct (try_dispose_orphan_eq p (X ++ L) w) as (a & Ha & Ht).
  { eapply owns_perm, Hc. by rewrite HL, <- Permutation_middle. }
  destruct (answered w p); [left; by exists a|by right].
Qed.

Lemma abandoned_slots w p a : abandoned w p = Some a -> is_Some (slots w !! p).
Proof. unfold abandoned. by destruct (slots w !! p). Qed.

(** Without the orphan that has been freed. *)
Lemma custody_gone p a l w :
  custody_with X w -> abandoned w p = Some a -> orphans w ≡ₚ p :: l ++ Deque.deque (orphaned_calls w) ->
  custody_with X (set_orphan_backlog l (released p a w)).
Proof.
  intros Hc Ha Hp. assert (owns (X ++ l ++ Deque.deque (orphaned_calls w)) (released p a w)) as Ho.
  { apply owns_released; [|done]. eapply owns_perm, Hc. by rewrite Hp, <- Permutation_middle. }
  unfold custody_with, orphans. cbn [orphan_backlog set_orphan_backlog].
  destruct (same_gc_released p a w) as [E _ _ _]. change (orphaned_calls (set_orphan_backlog l ?w)) with (orphaned_calls w).
  rewrite E. by eapply owns_fields, Ho.
Qed.

(** The slots that go are freed by the collector, which unlocks each of them after
    that: the log has exactly these. *)
Definition logged (w w' : world) : Prop :=
  (forall p, slots w' !! p = None \/ slots w' !! p = slots w !! p) /\
  exists l, stale_unlocks w' = stale_unlocks w ++ l /\
    forall p, p ∈ l <-> is_Some (slots w !! p) /\ slots w' !! p = None.

Lemma logged_same w w' : slots w' = slots w -> stale_unlocks w' = stale_unlocks w -> logged w w'.
Proof.
  intros Es El. split; [intros p; right; by rewrite Es|]. exists []. rewrite El, app_nil_r. split; [done|].
  intros p. rewrite Es. split; [by intros ?%not_elem_of_nil|]. intros [[? E] E']. congruence.
Qed.

Lemma logged_trans w w1 w2 : logged w w1 -> logged w1 w2 -> logged w w2.
Proof.
  intros [S1 (l1 & E1 & L1)] [S2 (l2 & E2 & L2)]. split.
  - intros p. destruct (S2 p) as [|E]; [by left|]. rewrite E. apply S1.
  - exists (l1 ++ l2). rewrite E2, E1, app_assoc. split; [done|]. intros p. rewrite elem_of_app, L1, L2.
    destruct (S1 p) as [Ep|Ep], (S2 p) as [Eq|Eq]; rewrite ?Eq, ?Ep; split; intros; destruct_or?; destruct_and?;
      try done; try (by left); try (by right); try (exfalso; by eapply is_Some_None); try (by right; rewrite ?Ep);
      try congruence.
Qed.

(** What a step leaves alone, and what it frees. *)
Record gc_effect (w w' : world) : Prop := GcEffect {
  ge_custody : custody_with X w';
  ge_swept : exists ps, swept ps w w' /\ ps ⊆ orphans w;
  ge_board : scoreboard w' = scoreboard w;
  ge_sched : sched w' = sched w;
  ge_open : Deque.closed (orphaned_calls w') = Deque.closed (orphaned_calls w);
  ge_logged : logged w w'
}.

Lemma effect_same w w' :
  custody_with X w' -> slots w' = slots w -> bufs w' = bufs w -> scoreboard w' = scoreboard w -> sched w' = sched w ->
  Deque.closed (orphaned_calls w') = Deque.closed (orphaned_calls w) -> stale_unlocks w' = stale_unlocks w ->
  gc_effect w w'.
Proof.
  intros Hc Hs Hb Hsb Hsc Ho Hl. constructor; try done; [|by apply logged_same].
  exists []. split; [by apply swept_same|set_solver].
Qed.

Lemma effect_refl w : custody_with X w -> gc_effect w w.
Proof. intros Hc. by apply effect_same. Qed.

Lemma effect_released p a l w :
  custody_with X w -> abandoned w p = Some a -> answered w p = true ->
  orphans w ≡ₚ p :: l ++ Deque.deque (orphaned_calls w) ->
  gc_effect w (set_orphan_backlog l (released p a w)).
Proof.
  intros Hc Ha Hans Hp. constructor.
  - by apply custody_gone.
  - exists [p]. split.
    + apply (swept_then_nil _ w (released p a w)); [|by apply swept_same].
      apply (swept_free p a); [set_solver|done..|apply swept_nil].
    + intros q ->%list_elem_of_singleton. rewrite Hp. apply list_elem_of_here.
  - unfold released. by destruct (buffer_of a).
  - unfold released. by destruct (buffer_of a).
  - unfold released. by destruct (buffer_of a).
  - apply abandoned_slots in Ha as [s Hs]. split.
    + intros q. cbn [slots set_orphan_backlog]. change (slots (set_orphan_backlog l ?w)) with (slots w).
      rewrite released_slots. destruct (decide (q = p)) as [->|]; [left; apply lookup_delete_eq|right; by apply lookup_delete_ne].
    + exists [p]. split; [done|]. intros q. change (slots (set_orphan_backlog l ?w)) with (slots w).
      rewrite released_slots, list_elem_of_singleton. destruct (decide (q = p)) as [->|Hne].
      * rewrite lookup_delete_eq, Hs. split; [by eauto|done].
      * rewrite lookup_delete_ne by done. split; [done|]. intros [[? E] E']. congruence.
Qed.

Lemma gc_step_effect g w g' w' :
  custody_with X w -> gc_ok g w -> gc_step (g, w) (g', w') -> gc_effect w w' /\ gc_ok g' w'.
Proof.
  intros Hc Hg Hst. inversion Hst as [x p rest Hd|x Hb Ht|x l p gone w1 Hb Ht|x Hd|x Hd|x i p gone w1 Hi Ht|x]; subst; clear Hst.
  - split; [|cbn; by destruct (orphan_backlog w)]. apply effect_same; try done; [|cbn; by rewrite Hd].
    apply (custody_frame w); try done. unfold orphans. cbn. rewrite Hd. by rewrite <- app_assoc.
  - split; [by apply effect_refl|done].
  - assert (orphans w ≡ₚ p :: l ++ Deque.deque (orphaned_calls w)) as Hp.
    { unfold orphans. rewrite Hb, <- app_assoc. cbn. by rewrite Permutation_middle. }
    destruct (try_orphan p w Hc) as [(a & E & Ha & Hans)|[E _]]; [rewrite Hp; apply list_elem_of_here| |];
      rewrite E in Ht; injection Ht as <- <-; (split; [|done]).
    + by apply effect_released.
    + by apply effect_refl.
  - split; [by apply effect_refl|done].
  - split; [by apply effect_refl|cbn; lia].
  - assert (orphans w ≡ₚ p :: delete i (orphan_backlog w) ++ Deque.deque (orphaned_calls w)) as Hp.
    { unfold orphans. by rewrite (delete_Permutation _ _ _ Hi) at 1. }
    pose proof (lookup_lt_Some _ _ _ Hi) as Hlt.
    destruct (try_orphan p w Hc) as [(a & E & Ha & Hans)|[E _]]; [rewrite Hp; apply list_elem_of_here| |];
      rewrite E in Ht; injection Ht as <- <-.
    + match goal with Hx : _ = (g', w') |- _ => injection Hx as <- <- end.
      set (bl := orphan_backlog _). assert (bl = orphan_backlog w) as -> by (unfold bl; by destruct (buffer_of a)).
      split; [by apply effect_released|]. cbn. rewrite length_delete by (by eexists). lia.
    + match goal with Hx : _ = (g', w') |- _ => injection Hx as <- <- end.
      split; [by apply effect_refl|cbn; lia].
  - split; [|done]. apply effect_same; try done. by apply (custody_frame w).
Qed.

(** The collector is never in the way of itself: in every place it can go on, or
    it waits for an orphan or for the time. *)
Lemma gc_progress g w :
  custody_with X w -> gc_ok g w -> g <> GcFetch -> exists g' w', gc_step (g, w) (g', w').
Proof.
  intros Hc Hg Hne. destruct g as [| | |i]; [done| | |].
  - destruct (exists_last Hg) as (l & p & Hb).
    assert (p ∈ orphans w) as Hp by (unfold orphans; rewrite Hb; set_solver).
    destruct (try_orphan p w Hc Hp) as [(a & E & _)|[E _]]; eexists _, _; by eapply gc_try.
  - destruct (scan_due w) eqn:E; eexists _, _; [by apply gc_begin|by apply gc_skip].
  - cbn in Hg. destruct (orphan_backlog w !! i) as [p|] eqn:Hi.
    + assert (p ∈ orphans w) as Hp by (apply elem_of_app; left; by eapply list_elem_of_lookup_2).
      destruct (try_orphan p w Hc Hp) as [(a & E & _)|[E _]]; eexists _, _.
      * by apply (gc_scan w i p true).
      * by apply (gc_scan w i p false).
    + apply lookup_ge_None in Hi. assert (i = length (orphan_backlog w)) as -> by lia. eexists _, _. apply gc_end.
Qed.
End Effect.

(** ** A round is a run of small steps *)

(** The collector alone, while time goes by. *)
Inductive gc_alone : gc_pc * world -> gc_pc * world -> Prop :=
  | ga_step x y : gc_step x y -> gc_alone x y
  | ga_tick d g w : gc_alone (g, w) (g, run_env (ETick d) w).

Lemma try_backlog p L w gone w' :
  owns (p :: L) w -> try_dispose_orphan p w = Ret gone w' ->
  (forall l, try_dispose_orphan p (set_orphan_backlog l w) = Ret gone (set_orphan_backlog l w')) /\
  orphan_backlog w' = orphan_backlog w /\ owns ((if gone : bool then [] else [p]) ++ L) w'.
Proof.
  intros Ho Ht. destruct (try_dispose_orphan_eq p L w Ho) as (a & Ha & E). rewrite Ht in E. split_and!.
  - intros l. assert (owns (p :: L) (set_orphan_backlog l w)) as Ho' by (by eapply owns_fields, Ho).
    destruct (try_dispose_orphan_eq p L _ Ho') as (a' & Ha' & E').
    change (abandoned (set_orphan_backlog l w) p) with (abandoned w p) in Ha'.
    change (answered (set_orphan_backlog l w) p) with (answered w p) in E'. rewrite E'.
    assert (a' = a) as -> by congruence. rewrite released_backlog.
    destruct (answered w p); by injection E as -> ->.
  - destruct (answered w p); injection E as -> ->; [|done]. unfold released. by destruct (buffer_of a).
  - destruct (answered w p); injection E as -> ->; [by apply owns_released|done].
Qed.

Lemma delete_middle (l1 l2 : list Z) p : delete (length l1) (l1 ++ p :: l2) = l1 ++ l2.
Proof. induction l1 as [|x l1 IH]; [done|]. cbn. by f_equal. Qed.

Lemma scan_small todo : forall kept L w rest w',
  owns (todo ++ L) w -> scan_orphans todo w = Ret rest w' ->
  rtc gc_alone (GcScan (length kept), set_orphan_backlog (kept ++ todo) w)
    (GcScan (length (kept ++ rest)), set_orphan_backlog (kept ++ rest) w').
Proof.
  induction todo as [|p todo IH]; intros kept L w rest w' Ho Hs.
  { injection Hs as <- <-. by rewrite app_nil_r. }
  cbn [scan_orphans] in Hs. apply bind_Ret_inv in Hs as (gone & w1 & Ht & Hs).
  apply bind_Ret_inv in Hs as (rest' & w2 & Hs & E). injection E as <- <-.
  destruct (try_backlog p (todo ++ L) w gone w1 Ho Ht) as (Hc & Hb & Ho1).
  eapply rtc_l.
  { apply ga_step, (gc_scan _ (length kept) p gone (set_orphan_backlog (kept ++ p :: todo) w1)).
    - cbn. by rewrite lookup_app_r, Nat.sub_diag by lia.
    - apply Hc. }
  destruct gone.
  - cbn [orphan_backlog set_orphan_backlog]. rewrite delete_middle. exact (IH kept L w1 rest' w2 Ho1 Hs).
  - specialize (IH (kept ++ [p]) (p :: L) w1 rest' w2). rewrite length_app, <- !app_assoc in IH. cbn [app length] in IH.
    rewrite Nat.add_1_r in IH. apply IH; [|done]. eapply owns_perm, Ho1. exact (Permutation_middle todo L p).
Qed.

(** The second half of a round. *)
Lemma check_small L w w' :
  owns (orphan_backlog w ++ L) w ->
  (w ← get ;
   if bool_decide (orphan_backlog w <> []) && (next_check w <? clock w) then
     rest ← scan_orphans (orphan_backlog w) ;
     modify (set_orphan_backlog rest) ;;
     t ← now ;
     modify (set_next_check (t + orphan_interval))
   else mret ()) w = Ret () w' ->
  rtc gc_alone (GcCheck, w) (GcFetch, w').
Proof.
  intros Ho Hr. erewrite bind_Ret in Hr by done. fold (scan_due w) in Hr. destruct (scan_due w) eqn:Hd.
  - apply bind_Ret_inv in Hr as (rest & w1 & Hs & Hr). cbv [mbind M_bind modify now] in Hr. injection Hr as <-.
    eapply rtc_l; [by apply ga_step, gc_begin|]. pose proof (scan_small (orphan_backlog w) [] L w rest w1 Ho Hs) as Hrun.
    cbn [app length] in Hrun. rewrite set_backlog_id in Hrun. etrans; [exact Hrun|].
    apply rtc_once, ga_step. exact (gc_end (set_orphan_backlog rest w1)).
  - injection Hr as <-. by apply rtc_once, ga_step, gc_skip.
Qed.

(** The first half, with an orphan from the deque. *)
Lemma handle_small p L w w' :
  owns (p :: L) w ->
  (gone ← try_dispose_orphan p ;
   if gone : bool then mret ()
   else modify (fun w => set_orphan_backlog (orphan_backlog w ++ [p]) w)) w = Ret () w' ->
  rtc gc_alone (GcTry, set_orphan_backlog (orphan_backlog w ++ [p]) w) (GcCheck, w').
Proof.
  intros Ho Hr. apply bind_Ret_inv in Hr as (gone & w1 & Ht & Hr).
  destruct (try_backlog p L w gone w1 Ho Ht) as (Hc & Hb & _).
  pose proof (gc_try (set_orphan_backlog (orphan_backlog w ++ [p]) w) (orphan_backlog w) p gone _ eq_refl (Hc _)) as Hst.
  apply rtc_once, ga_step. destruct gone; injection Hr as <-.
  - change (set_orphan_backlog ?l (set_orphan_backlog _ w1)) with (set_orphan_backlog l w1) in Hst.
    assert (set_orphan_backlog (orphan_backlog w) w1 = w1) as E by (rewrite <- Hb; apply set_backlog_id).
    rewrite E in Hst. exact Hst.
  - by rewrite Hb.
Qed.

(** A whole round. *)
Lemma gc_round_alone w w' :
  custody w -> gc_round w = Ret () w' -> rtc gc_alone (GcFetch, w) (GcFetch, w').
Proof.
  intros Hcu Hr. destruct (Deque.closed (orphaned_calls w)) eqn:Hcl; [by rewrite (gc_round_closed w Hcl) in Hr|].
  unfold gc_round, gc_handle in Hr. erewrite bind_Ret in Hr by done.
  assert (orphaned_calls w = Deque.Dq (Deque.deque (orphaned_calls w)) false) as Ed.
  { destruct (orphaned_calls w). cbn in *. by subst. }
  unfold custody, custody_with, orphans in Hcu. cbn [app] in Hcu. destruct (Deque.deque (orphaned_calls w)) as [|p rest] eqn:Hq.
  - rewrite app_nil_r in Hcu. destruct (orphan_backlog w) as [|b bs] eqn:Hb.
    { exfalso. revert Hr. unfold zoom, Deque.take, Deque.take_section, mbind, M_bind. by rewrite Hcl, Hq. }
    set (w1 := set_clock (Z.max (clock w) (next_check w + 1)) w).
    assert (poll_orphan w = Ret None w1) as Hp.
    { unfold poll_orphan, zoom, Deque.poll_until, Deque.take_section, mbind, M_bind. rewrite Hcl, Hq. cbn.
      unfold w1. by destruct w. }
    erewrite bind_Ret in Hr by exact Hp. erewrite bind_Ret in Hr by done.
    apply (rtc_l _ _ (GcFetch, w1)).
    { pose proof (ga_tick (next_check w + 1 - clock w) GcFetch w) as Ht. cbn in Ht.
      replace (clock w + Z.max 0 (next_check w + 1 - clock w)) with (Z.max (clock w) (next_check w + 1)) in Ht by lia. done. }
    eapply rtc_l; [apply ga_step, gc_timeout; [cbn; by rewrite Hb|cbn; lia]|].
    apply (check_small []); [|done]. rewrite app_nil_r. cbn. rewrite Hb. by eapply owns_fields, Hcu.
  - set (w1 := set_orphaned_calls (Deque.Dq rest false) w).
    assert (forall k : option Z -> M world (),
      ((match orphan_backlog w with
        | [] => p ← zoom orphaned_calls set_orphaned_calls Deque.take ; mret (Some p)
        | _ => poll_orphan
        end) ≫= k) w = k (Some p) w1) as Hf.
    { intros k. destruct (orphan_backlog w);
        unfold poll_orphan, zoom, Deque.take, Deque.poll_until, Deque.take_section, mbind, M_bind; by rewrite Hcl, Hq. }
    rewrite Hf in Hr. apply bind_Ret_inv in Hr as ([] & w2 & Hh & Hr).
    assert (owns (p :: orphan_backlog w ++ rest) w1) as Ho1.
    { eapply owns_perm, owns_fields, Hcu; [|done..]. by rewrite Permutation_middle. }
    eapply rtc_l; [by apply ga_step, gc_fetch|].
    etrans; [exact (handle_small p _ w1 w2 Ho1 Hh)|].
    destruct (handle_orphan_eq p _ w1 Ho1) as (w3 & E & _ & Ho3 & Hb3 & _). rewrite Hh in E. injection E as <-.
    apply (check_small rest); [|done]. rewrite Hb3. eapply owns_perm, Ho3.
    change (orphan_backlog w1) with (orphan_backlog w). by rewrite (Permutation_app_comm (waiting w1 [p])), <- !app_assoc,
      (Permutation_app_comm rest).
Qed.

(** Wherever the collector is, it comes back to the top of its loop. *)
Lemma gc_returns g w :
  custody w -> gc_ok g w -> exists w', rtc gc_alone (g, w) (GcFetch, w').
Proof.
  intros Hc Hg.
  assert (forall w, custody w -> exists w', rtc gc_alone (GcCheck, w) (GcFetch, w')) as Hcheck.
  { clear. intros w Hc. destruct (sweep_eq (Deque.deque (orphaned_calls w)) w Hc) as (w' & Hr & _).
    exists w'. eapply check_small; [exact Hc|exact Hr]. }
  destruct g as [| | |i].
  - by exists w.
  - destruct (gc_progress GcTry w Hc Hg) as (g' & w1 & Hst); [done|].
    destruct (gc_step_effect _ _ _ _ Hc Hg Hst) as [[Hc1 _ _ _ _] _].
    assert (g' = GcCheck) as -> by (by inversion Hst).
    destruct (Hcheck w1 Hc1) as (w' & Hr). exists w'. eapply rtc_l; [by apply ga_step|done].
  - by apply Hcheck.
  - cbn in Hg. remember (length (orphan_backlog w) - i)%nat as n eqn:En. revert i w Hc Hg En.
    induction n as [|n IH]; intros i w Hc Hg En.
    + assert (i = length (orphan_backlog w)) as -> by lia. eexists. apply rtc_once, ga_step, gc_end.
    + destruct (lookup_lt_is_Some_2 (orphan_backlog w) i ltac:(lia)) as [p Hi].
      assert (p ∈ orphans w) as Hp by (apply elem_of_app; left; by eapply list_elem_of_lookup_2).
      destruct (try_orphan p w Hc Hp) as [(a & E & _)|[E _]].
      * pose proof (gc_scan w i p true _ Hi E) as Hst.
        rewrite (sg_backlog _ _ (same_gc_released p a w)) in Hst.
        destruct (gc_step_effect (GcScan i) _ _ _ Hc Hg Hst) as [[Hc1 _ _ _ _] Hg1].
        destruct (IH i _ Hc1 Hg1) as (w' & Hr); [|exists w'; eapply rtc_l; [by apply ga_step|done]].
        cbn. rewrite length_delete by (by eexists). lia.
      * pose proof (gc_scan w i p false _ Hi E) as Hst.
        destruct (gc_step_effect (GcScan i) _ _ _ Hc Hg Hst) as [[Hc1 _ _ _ _] Hg1].
        destruct (IH (S i) _ Hc1 Hg1) as (w' & Hr); [lia|exists w'; eapply rtc_l; [by apply ga_step|done]].
Qed.

(** What the collector leaves alone, step after step. *)
Lemma alone_effect x y :
  rtc gc_alone x y -> custody x.2 -> gc_ok x.1 x.2 ->
  custody y.2 /\ gc_ok y.1 y.2 /\ scoreboard y.2 = scoreboard x.2 /\
  Deque.closed (orphaned_calls y.2) = Deque.closed (orphaned_calls x.2).
Proof.
  intros Hr. induction Hr as [x|x y z Hst _ IH]; intros Hc Hok; [done|].
  destruct Hst as [[g w] [g' w'] Hst|d g w]; cbn [fst snd] in *.
  - destruct (gc_step_effect _ _ _ _ Hc Hok Hst) as [[Hc1 _ Hsb _ Hcl] Hok1].
    destruct (IH Hc1 Hok1) as (? & ? & E1 & E2). split_and!; [done|done|congruence|congruence].
  - destruct (IH (custody_env (ETick d) w Hc)) as (? & ? & E1 & E2); [by destruct g|]. done.
Qed.

Lemma alone_logged x y : rtc gc_alone x y -> custody x.2 -> gc_ok x.1 x.2 -> logged x.2 y.2.
Proof.
  intros Hr. induction Hr as [x|x y z Hst _ IH]; intros Hc Hok; [by apply logged_same|].
  destruct Hst as [[g w] [g' w'] Hst|d g w]; cbn [fst snd] in *.
  - destruct (gc_step_effect _ _ _ _ Hc Hok Hst) as [[Hc1 _ _ _ _ Hl] Hok1].
    eapply logged_trans; [exact Hl|]. by apply IH.
  - eapply logged_trans; [|apply IH; [by apply (custody_env (ETick d))|by destruct g]]. by apply logged_same.
Qed.

(** C8: Until the shutdown, and while the clients keep to the interface, the
    collector has each abandoned call exactly once, in its backlog or in the
    deque, and nothing else: no abandoned call is forgotten. Each of these calls
    owns a live buffer, if it has one, that no other of them owns. A round of the
    collector fails no assertion, frees nothing twice and reads no slot that is not
    allocated; the one access it makes to freed memory is that it unlocks each
    slot that it has just freed, exactly those. *)
Theorem orphan_custody timing es w :
  rtc client_step (init_world timing es) w ->
  NoDup (orphans w) /\ (forall p, p ∈ orphans w <-> is_Some (abandoned w p)) /\
  (forall p a b, abandoned w p = Some a -> buffer_of a = Some b -> is_Some (bufs w !! b)) /\
  (forall p q a a' b, abandoned w p = Some a -> abandoned w q = Some a' ->
     buffer_of a = Some b -> buffer_of a' = Some b -> p = q) /\
  (forall f, gc_round w <> Fault f) /\
  (forall w', gc_round w = Ret () w' -> exists l, stale_unlocks w' = stale_unlocks w ++ l /\
     forall p, p ∈ l <-> is_Some (slots w !! p) /\ slots w' !! p = None).
Proof.
  intros Hc%custody_reachable. split_and!; [apply Hc..| |].
  - intros f Hr. destruct (Deque.closed (orphaned_calls w)) eqn:Hcl.
    + by rewrite (gc_round_closed w Hcl) in Hr.
    + destruct (decide (orphans w = [])) as [E|Hne].
      * destruct (gc_round_empty w Hcl E) as (? & ? & _). congruence.
      * destruct (gc_round_eq w Hc Hcl Hne) as (? & ? & _). congruence.
  - intros w' Hr. exact (proj2 (alone_logged _ _ (gc_round_alone w w' Hc Hr) Hc I)).
Qed.

(** One round of the loop of [run_orphan_gc], run without interruption, is a
    run of the small steps of the collector and of the clock, from the top of the
    loop to the top of the loop: the small steps do what the code does. *)
Theorem gc_round_small w w' :
  custody w -> gc_round w = Ret () w' -> rtc gc_alone (GcFetch, w) (GcFetch, w').
Proof. apply gc_round_alone. Qed.

End Collector.

Lemma orphan_custody_witness :
  orphans orphan_answered = [4352] /\ is_Some (abandoned orphan_answered 4352) /\
  exists w', gc_round orphan_answered = Ret () w' /\ stale_unlocks w' = [4352].
Proof.
  destruct (orphan_custody false [] orphan_answered orphan_run) as (_ & Hiff & _ & _ & Hf & _). split_and!.
  - by vm_compute.
  - apply Hiff. by vm_compute; left.
  - destruct (gc_round orphan_answered) as [[] w'|?|f|?] eqn:E; [|by vm_compute in E|by destruct (Hf f)|by vm_compute in E].
    exists w'. split; [done|]. vm_compute in E. injection E as <-. by vm_compute.
Defined.

Lemma gc_round_small_witness :
  exists w', gc_round orphan_answered = Ret () w' /\ rtc gc_alone (GcFetch, orphan_answered) (GcFetch, w').
Proof.
  destruct (gc_round orphan_answered) as [[] w'|?|?|?] eqn:E; [|by vm_compute in E..].
  exists w'. split; [done|]. exact (gc_round_small orphan_answered w' orphan_owned E).
Defined.
End Collector.
