(* ===== verification/Ledger.v ===== *)
(** * Who owns which call

    The bookkeeping behind the whole system: which calls still wait for their
    answer and who has them, who owns the slot of a call, and which command
    buffers are in use. *)

From stdpp Require Import base tactics list strings gmap.
From Stdlib Require Import ZArith Lia.
From S2P Require Import Prelude CString Defs ArrayQueue Deque Slot Shm ShmInv ShmSpec Orphans.

Module Ledger.
Import CString Defs Slot Shm ShmSpec Orphans.

Section Ledger.
Context `{Segment}.

(** The arguments of a call are of the type that the tables of calls give for
    its tag. *)
Definition kind_of (a : call_args) : arg_kind :=
  match a with
  | NoArgs => KNoArgs
  | ApplyArgs _ _ _ => KApplyArgs
  | BarrierArgs _ => KBarrierArgs
  | LogEntry _ _ _ _ _ => KLogEntry
  | Filename _ => KFilename
  | NetworkAddr _ _ => KNetworkAddr
  end.

#[global] Instance arg_kind_eq_dec : EqDecision arg_kind.
Proof. solve_decision. Defined.

Definition typed (t : CallTag) (a : call_args) : bool :=
  existsb (fun c => bool_decide (call_tag c = t) && bool_decide (call_arg c = kind_of a)) all_calls.

(** What the FSM worker asserts of the arguments of a call. *)
Definition worker_args (a : call_args) : bool :=
  match a with
  | LogEntry _ _ RAFT_LOG_COMMAND b _ => negb (b =? 0)
  | Filename path => match c_str path with Some (_ :: _) => true | _ => false end
  | _ => true
  end.

Definition sane (s : slot) : bool := typed (tag s) (args s) && worker_args (args s).

Definition is_open (s : slot) : bool := negb (is_terminal (state s)).

(** A call uses its command buffer until it has its answer, or, when it has been
    given up, until it is collected. *)
Definition in_use (s : slot) : bool := is_open s || bool_decide (client_state s = Abandoned).

Definition claims (m : gmap Z slot) (p b : Z) : Prop :=
  exists s, m !! p = Some s /\ in_use s = true /\ buffer_of (args s) = Some b.

(** The ledger for the slots [m] and the buffers [B]: [opens] are the calls that
    wait for their answer, [owners] the addresses of all slots, [held] those of
    the slots whose mutex is held from one step to the next.  A call is only
    dispatched while its mutex is held. *)
Record ledger (m : gmap Z slot) (B : gmap Z Z) (opens : list call_rec) (owners held : list Z) : Prop :=
  Ledger {
  lg_open_nodup : NoDup (opens.*2);
  lg_open : forall t p, (t, p) ∈ opens <-> exists s, m !! p = Some s /\ is_open s = true /\ tag s = t;
  lg_owner_nodup : NoDup owners;
  lg_owner : forall p, p ∈ owners <-> is_Some (m !! p);
  lg_null : 0 ∉ owners;
  lg_mutex : forall p s, m !! p = Some s -> owned s = true <-> p ∈ held;
  lg_dispatched : forall p s, m !! p = Some s -> state s = Dispatched -> owned s = true;
  lg_observed : forall p s, m !! p = Some s -> client_state s = Observed -> is_open s = false;
  lg_buffer : forall p b, claims m p b -> is_Some (B !! b);
  lg_apart : forall p q b, claims m p b -> claims m q b -> p = q;
  lg_sane : forall p s, m !! p = Some s -> sane s = true
}.

(** The order of the lists does not matter. *)
#[global] Instance ledger_Proper m B : Proper ((≡ₚ) ==> (≡ₚ) ==> (≡ₚ) ==> iff) (ledger m B).
Proof.
  assert (forall O O' L L' G G', O ≡ₚ O' -> L ≡ₚ L' -> G ≡ₚ G' -> ledger m B O L G -> ledger m B O' L' G') as Hp.
  { intros O O' L L' G G' HO HL HG [H1 H2 H3 H4 H5 H6 H6' H7 H8 H9 HT]. constructor; try done.
    - by rewrite <- HO.
    - intros t p. by rewrite <- HO.
    - by rewrite <- HL.
    - intros p. by rewrite <- HL.
    - by rewrite <- HL.
    - intros p s Hs. rewrite <- HG. exact (H6 p s Hs). }
  intros O O' HO L L' HL G G' HG. split; apply Hp; done || by symmetry.
Qed.

Lemma ledger_live m B O L G p : ledger m B O L G -> p ∈ L -> exists s, m !! p = Some s.
Proof. intros Hl Hp. by apply (lg_owner _ _ _ _ _ Hl) in Hp as [s ?]; exists s. Qed.

Lemma ledger_open m B O L G t p :
  ledger m B O L G -> (t, p) ∈ O -> exists s, m !! p = Some s /\ is_open s = true /\ tag s = t.
Proof. intros Hl. apply (lg_open _ _ _ _ _ Hl). Qed.

(** ** A new call *)

Lemma claims_insert m p s q b :
  claims (<[p := s]> m) q b ->
  (q = p /\ in_use s = true /\ buffer_of (args s) = Some b) \/ (q <> p /\ claims m q b).
Proof.
  intros (s' & Hs & Hu & Hb). destruct (decide (q = p)) as [->|Hne].
  - rewrite lookup_insert_eq in Hs. simplify_eq. by left.
  - rewrite lookup_insert_ne in Hs by done. right. split; [done|]. by exists s'.
Qed.

Lemma ledger_new m B O L G p s (O' := if is_open s then (tag s, p) :: O else O) :
  ledger m B O L G -> m !! p = None -> p <> 0 -> p ∉ G -> client_state s = Issued -> owned s = false ->
  state s <> Dispatched -> sane s = true ->
  (forall b, buffer_of (args s) = Some b -> is_open s = true -> is_Some (B !! b) /\ forall q, ~ claims m q b) ->
  ledger (<[p := s]> m) B O' (p :: L) G.
Proof.
  intros [H1 H2 H3 H4 H5 H6 H6' H7 H8 H9 HT] Hm Hp HpG Hcs How Hds Hsane Hbuf.
  assert (p ∉ L) as HpL by (rewrite H4, Hm; by intros [? ?]).
  assert (forall t, (t, p) ∉ O) as HpO by (intros t (s' & ? & _)%H2; congruence).
  assert (in_use s = is_open s) as Hu by (unfold in_use; by rewrite Hcs, orb_false_r).
  constructor.
  - unfold O'. destruct (is_open s); [|done]. apply NoDup_cons. split; [|done].
    cbn. intros ([t p'] & E & Ht)%list_elem_of_fmap. cbn in E. subst p'. by eapply HpO.
  - intros t q. unfold O'. destruct (decide (q = p)) as [->|Hne].
    + rewrite lookup_insert_eq. destruct (is_open s) eqn:Eo.
      * rewrite elem_of_cons. split; [intros [[= ->]|Hin]; [by exists s|by destruct (HpO t)]|].
        intros (s' & [= <-] & _ & <-). by left.
      * split; [intros Hin; by destruct (HpO t)|]. intros (s' & [= <-] & Ho & _). congruence.
    + rewrite lookup_insert_ne by done. rewrite <- H2. destruct (is_open s); [|done].
      rewrite elem_of_cons. split; [intros [[= _ ->]|?]; done|by right].
  - by apply NoDup_cons.
  - intros q. rewrite elem_of_cons, H4. destruct (decide (q = p)) as [->|Hne].
    + rewrite lookup_insert_eq. split; [done|]. by left.
    + rewrite lookup_insert_ne by done. split; [by intros [?|?]|by right].
  - rewrite elem_of_cons. by intros [?|?].
  - intros q s' Hs. destruct (decide (q = p)) as [->|Hne].
    + rewrite lookup_insert_eq in Hs. simplify_eq. by rewrite How.
    + rewrite lookup_insert_ne in Hs by done. exact (H6 q s' Hs).
  - intros q s' Hs. destruct (decide (q = p)) as [->|Hne].
    + rewrite lookup_insert_eq in Hs. by simplify_eq.
    + rewrite lookup_insert_ne in Hs by done. exact (H6' q s' Hs).
  - intros q s' Hs. destruct (decide (q = p)) as [->|Hne].
    + rewrite lookup_insert_eq in Hs. simplify_eq. congruence.
    + rewrite lookup_insert_ne in Hs by done. exact (H7 q s' Hs).
  - intros q b [(-> & Hi & Hb)|[_ Hc]]%claims_insert; [|by eapply H8]. apply Hbuf; congruence.
  - intros q1 q2 b [(-> & Hi & Hb)|[Hn1 Hc1]]%claims_insert [(-> & Hi2 & Hb2)|[Hn2 Hc2]]%claims_insert;
      [done| | |by eapply H9].
    + destruct (Hbuf b) as [_ Hno]; [done|congruence|]. by destruct (Hno q2).
    + destruct (Hbuf b) as [_ Hno]; [done|congruence|]. by destruct (Hno q1).
  - intros q s' Hs. destruct (decide (q = p)) as [->|Hne].
    + rewrite lookup_insert_eq in Hs. by simplify_eq.
    + rewrite lookup_insert_ne in Hs by done. exact (HT q s' Hs).
Qed.

(** ** A call that changes *)

Lemma ledger_change m B O O' L G G' p s s' :
  ledger m B O L G -> m !! p = Some s -> tag s' = tag s -> args s' = args s ->
  (owned s' = true <-> p ∈ G') -> (forall q, q <> p -> q ∈ G <-> q ∈ G') ->
  (state s' = Dispatched -> owned s' = true) ->
  (client_state s' = Observed -> is_open s' = false) ->
  (is_open s' = true -> is_open s = true) ->
  (is_open s' = is_open s /\ O' = O \/ is_open s' = false /\ O ≡ₚ (tag s, p) :: O') ->
  (forall b, in_use s' = true -> in_use s = false -> buffer_of (args s) = Some b ->
     is_Some (B !! b) /\ forall q, ~ claims m q b) ->
  ledger (<[p := s']> m) B O' L G'.
Proof.
  intros Hl Hs Ht Ha How HG Hds Hobs Hopen HO Hbuf. pose proof Hl as [H1 H2 H3 H4 H5 H6 H6' H7 H8 H9 HT].
  assert (forall q b, claims (<[p := s']> m) q b -> claims m q b \/
    (q = p /\ in_use s' = true /\ in_use s = false /\ buffer_of (args s) = Some b)) as Hcl.
  { intros q b [(-> & Hi & Hb)|[_ Hc]]%claims_insert; [|by left]. rewrite Ha in Hb.
    destruct (in_use s) eqn:Eu; [left; by exists s|by right]. }
  constructor; try done.
  - destruct HO as [[_ ->]|[_ HO]]; [done|]. rewrite HO in H1. cbn in H1. by apply NoDup_cons in H1 as [_ ?].
  - intros t q. destruct (decide (q = p)) as [->|Hne].
    + rewrite lookup_insert_eq. destruct HO as [[Ho ->]|[Ho HO]].
      * rewrite H2, Hs. split; intros (x & [= <-] & Hx & <-).
        -- exists s'. split_and!; [done|congruence|done].
        -- exists s. split_and!; [done|congruence|done].
      * split; [intros Hin|intros (? & ? & ? & ?); simplify_eq; congruence].
        rewrite HO in H1. cbn in H1. apply NoDup_cons in H1 as [Hno _]. destruct Hno.
        apply list_elem_of_fmap. by exists (t, p).
    + rewrite lookup_insert_ne by done. rewrite <- H2. destruct HO as [[_ ->]|[_ HO]]; [done|].
      rewrite HO, elem_of_cons. split; [by right|intros [[= _ ->]|?]; done].
  - intros q. rewrite H4. destruct (decide (q = p)) as [->|Hne].
    + rewrite lookup_insert_eq, Hs. split; intros _; by eexists.
    + by rewrite lookup_insert_ne.
  - intros q s0 Hs0. destruct (decide (q = p)) as [->|Hne].
    + rewrite lookup_insert_eq in Hs0. by simplify_eq.
    + rewrite lookup_insert_ne in Hs0 by done. rewrite <- HG by done. exact (H6 q s0 Hs0).
  - intros q s0 Hs0. destruct (decide (q = p)) as [->|Hne].
    + rewrite lookup_insert_eq in Hs0. by simplify_eq.
    + rewrite lookup_insert_ne in Hs0 by done. exact (H6' q s0 Hs0).
  - intros q s0 Hs0. destruct (decide (q = p)) as [->|Hne].
    + rewrite lookup_insert_eq in Hs0. by simplify_eq.
    + rewrite lookup_insert_ne in Hs0 by done. exact (H7 q s0 Hs0).
  - intros q b [Hc|(-> & Hi & Hi' & Hb)]%Hcl; [by eapply H8|]. by apply Hbuf.
  - intros q1 q2 b [Hc1|(-> & Hi1 & Hi1' & Hb1)]%Hcl [Hc2|(-> & Hi2 & Hi2' & Hb2)]%Hcl; [by eapply H9| | |done].
    + destruct (Hbuf b) as [_ Hno]; [done..|]. by destruct (Hno q1).
    + destruct (Hbuf b) as [_ Hno]; [done..|]. by destruct (Hno q2).
  - intros q s0 Hs0. destruct (decide (q = p)) as [->|Hne].
    + rewrite lookup_insert_eq in Hs0. simplify_eq. unfold sane. rewrite Ht, Ha. exact (HT p s Hs).
    + rewrite lookup_insert_ne in Hs0 by done. exact (HT q s0 Hs0).
Qed.

(** ** A call that goes *)

Lemma claims_delete m p q b : claims (delete p m) q b -> claims m q b.
Proof. intros (s & Hs & ?). apply lookup_delete_Some in Hs as [_ Hs]. by exists s. Qed.

Lemma ledger_gone m B O L G p s :
  ledger m B O (p :: L) G -> m !! p = Some s -> is_open s = false -> ledger (delete p m) B O L G.
Proof.
  intros [H1 H2 H3 H4 H5 H6 H6' H7 H8 H9 HT] Hs Ho. apply NoDup_cons in H3 as [HpL H3]. constructor; try done.
  - intros t q. rewrite H2. destruct (decide (q = p)) as [->|Hne].
    + rewrite lookup_delete_eq. split; intros (? & ? & ? & ?); simplify_eq. congruence.
    + by rewrite lookup_delete_ne.
  - intros q. destruct (decide (q = p)) as [->|Hne].
    + rewrite lookup_delete_eq. split; [done|by intros [? ?]].
    + rewrite lookup_delete_ne by done. rewrite <- H4, elem_of_cons. split; [by right|by intros [?|?]].
  - set_solver.
  - intros q s' [_ Hs']%lookup_delete_Some. exact (H6 q s' Hs').
  - intros q s' [_ Hs']%lookup_delete_Some. exact (H6' q s' Hs').
  - intros q s' [_ Hs']%lookup_delete_Some. exact (H7 q s' Hs').
  - intros q b Hc%claims_delete. by eapply H8.
  - intros q1 q2 b Hc1%claims_delete Hc2%claims_delete. by eapply H9.
  - intros q s' [_ Hs']%lookup_delete_Some. exact (HT q s' Hs').
Qed.

(** ** Buffers *)

Lemma ledger_buf_new m B O L G b n : ledger m B O L G -> ledger m (<[b := n]> B) O L G.
Proof.
  intros [H1 H2 H3 H4 H5 H6 H6' H7 H8 H9 HT]. constructor; try done. intros p b' Hc.
  destruct (decide (b' = b)) as [->|]; [by rewrite lookup_insert_eq|]. rewrite lookup_insert_ne by done. by eapply H8.
Qed.

Lemma ledger_buf_gone m B O L G b :
  ledger m B O L G -> (forall q, ~ claims m q b) -> ledger m (delete b B) O L G.
Proof.
  intros [H1 H2 H3 H4 H5 H6 H6' H7 H8 H9 HT] Hno. constructor; try done. intros p b' Hc.
  rewrite lookup_delete_ne; [by eapply H8|]. intros ->. by eapply Hno.
Qed.

(** ** A round of the collector *)

Lemma abandoned_inv w p a :
  abandoned w p = Some a -> exists s, slots w !! p = Some s /\ client_state s = Abandoned /\ args s = a.
Proof.
  unfold abandoned. destruct (slots w !! p) as [s|]; [|done]. case_decide; [|done]. intros [= <-]. by exists s.
Qed.

Lemma swept_slot ps w w' q s : swept ps w w' -> slots w' !! q = Some s -> slots w !! q = Some s.
Proof. intros [Hs _]. rewrite Hs. by case_decide. Qed.

Lemma swept_keeps ps w w' q s :
  swept ps w w' -> slots w !! q = Some s -> (q ∈ ps -> is_open s = true) -> slots w' !! q = Some s.
Proof.
  intros [Hs _] Hq Ho. rewrite Hs. case_decide as Hd; [|done]. destruct Hd as [Hin Ha]. exfalso.
  unfold answered in Ha. rewrite Hq in Ha. unfold poll in Ha. specialize (Ho Hin). unfold is_open in Ho.
  destruct (is_terminal (state s)); [done|]. by rewrite andb_false_r in Ha.
Qed.

Lemma freed_claims ps w b : b ∈ freed_buffers ps w -> exists q, q ∈ ps /\ answered w q = true /\ claims (slots w) q b.
Proof.
  intros (q & Hq & Hf)%elem_of_freed. exists q. split; [done|]. unfold freed_buffer in Hf.
  destruct (answered w q); [|done]. split; [done|]. apply bind_Some in Hf as (a & Ha & Hb).
  apply abandoned_inv in Ha as (s & Hs & Hc & <-). exists s. split; [done|]. split; [|done].
  unfold in_use. rewrite bool_decide_true by done. apply orb_true_r.
Qed.

Lemma ledger_swept X ps w w' O R G :
  ledger (slots w) (bufs w) O (R ++ orphans w) G -> custody_with X w -> custody_with X w' -> X ⊆ R -> swept ps w w' ->
  ps ⊆ orphans w -> ledger (slots w') (bufs w') O (R ++ orphans w') G.
Proof.
  intros [H1 H2 H3 H4 H5 H6 H6' H7 H8 H9 HT] Hc Hc' HX Hsw Hps.
  apply NoDup_app in H3 as (HR & Hd & _). pose proof (ow_nodup _ _ Hc') as (_ & Hd' & Hnd')%NoDup_app.
  assert (forall p s, slots w !! p = Some s -> slots w' !! p = Some s -> p ∈ orphans w -> p ∈ orphans w') as Hto.
  { intros p s Hs Hs' Hp. destruct (proj1 (ow_iff _ _ Hc p)) as [a Ha]; [apply elem_of_app; by right|].
    assert (p ∈ X ++ orphans w') as [Hx|]%elem_of_app; [|by destruct (Hd p (HX p Hx))|done].
    apply (ow_iff _ _ Hc'). exists a. unfold abandoned in *. rewrite Hs'. by rewrite Hs in Ha. }
  assert (forall p, p ∈ orphans w' -> p ∈ orphans w) as Hfrom.
  { intros p Hp. destruct (proj1 (ow_iff _ _ Hc' p)) as [a Ha]; [apply elem_of_app; by right|].
    assert (p ∈ X ++ orphans w) as [Hx|]%elem_of_app; [|by destruct (Hd' p Hx)|done]. apply (ow_iff _ _ Hc).
    apply abandoned_inv in Ha as (s & Hs & Hcs & _). apply (swept_slot _ _ _ _ _ Hsw) in Hs.
    exists (args s). unfold abandoned. by rewrite Hs, decide_True. }
  assert (forall q b, claims (slots w') q b -> claims (slots w) q b) as Hcl.
  { intros q b (s & Hs & Hu). exists s. split; [by eapply swept_slot|done]. }
  constructor.
  - done.
  - intros t p. rewrite H2. split; intros (s & Hs & Ho & Ht); exists s; (split; [|done]).
    + by eapply swept_keeps.
    + by eapply swept_slot.
  - apply NoDup_app. split_and!; [done| |done]. intros p Hp Hp'%Hfrom. by eapply Hd.
  - intros p. rewrite elem_of_app. split.
    + intros [Hp|Hp].
      * destruct (proj1 (H4 p)) as [s Hs]; [by apply elem_of_app; left|]. exists s.
        eapply swept_keeps; [done|done|]. intros Hin%Hps. by destruct (Hd p).
      * destruct (proj1 (ow_iff _ _ Hc' p)) as [a (s & Hs & _)%abandoned_inv]; [apply elem_of_app; by right|]. by exists s.
    + intros [s Hs]. pose proof (swept_slot _ _ _ _ _ Hsw Hs) as Hs0.
      assert (p ∈ R ++ orphans w) as [?|?]%elem_of_app by (apply H4; by eexists); [by left|right; by eapply Hto].
  - rewrite elem_of_app. intros [Hp|Hp%Hfrom]; apply H5, elem_of_app; [by left|by right].
  - intros p s Hs. apply (H6 p s). by eapply swept_slot.
  - intros p s Hs. apply (H6' p s). by eapply swept_slot.
  - intros p s Hs. apply (H7 p s). by eapply swept_slot.
  - intros p b Hcb. pose proof (Hcl p b Hcb) as Hcb0. rewrite (sp_bufs _ _ _ Hsw). case_decide as Hf; [|by eapply H8].
    apply freed_claims in Hf as (q & Hq & Ha & Hcq). pose proof (H9 _ _ _ Hcb0 Hcq) as ->.
    destruct Hcb as (s & Hs & _). rewrite (sp_slots _ _ _ Hsw), decide_True in Hs by done. done.
  - intros p q b Hcp Hcq. eapply H9; by apply Hcl.
  - intros p s Hs. apply (HT p s). by eapply swept_slot.
Qed.

End Ledger.
End Ledger.
