(* ===== verification/CIf.v ===== *)
(** * The client side of the C interface

    The functions of raft_c_if.cc that a client program calls: commands and
    queries, futures, and their disposal.  A [raft_future] is the address of a
    slot, 0 the null pointer; an output pointer is a boolean that says whether
    it is given, and what is stored through it is part of the result. *)

From stdpp Require Import base tactics list strings gmap.
From Stdlib Require Import ZArith Lia Ascii.
From S2P Require Import Prelude CString Defs ArrayQueue Deque Slot Shm ShmInv.

Module CIf.
Import CString Defs Slot Shm ShmInv.

Section Code.
Context `{Segment}.

(** ** Futures *)

(** [slot->timings.print()] writes to the error output only ([Slot.print]). *)
Definition raft_future_wait (f : Z) : M world RaftError :=
  if (f =? 0) || negb (in_shm_bounds f) then mret RAFT_E_INVALID_OP
  else
    wait f ;;
    s ← get_slot f ;
    mret (error s).

Definition raft_future_poll (f : Z) : M world bool := slot_poll f.
Definition raft_future_wait_for (f wait_ms : Z) : M world bool := wait_for f wait_ms.
Definition raft_future_dispose (f : Z) : M world () := dispose f.

Definition future_tag (f : Z) : M world CallTag :=
  assert (negb (f =? 0)) ;;
  s ← get_slot f ;
  mret (tag s).

Definition future_state (f : Z) : M world CallState :=
  assert (negb (f =? 0)) ;;
  s ← get_slot f ;
  mret (state s).

(** [CallSlot::get_ptr] *)
Definition get_ptr (f : Z) (res : bool) : M world (RaftError * option Z) :=
  s ← get_slot f ;
  (if negb (is_terminal (state s)) then wait f else mret ()) ;;
  s ← get_slot f ;
  mret (get_ptr_result res s).

(** [CallSlot::value] *)
Definition value (f : Z) : M world Z :=
  s ← get_slot f ;
  assert (has_ret (tag s)) ;;
  mret (retval s).

Definition raft_future_get_fsm_reply (f : Z) (value_ptr : bool) : M world (RaftError * option Z) :=
  t ← future_tag f ;
  if decide (t <> Apply) then mret (RAFT_E_INVALID_OP, None) else get_ptr f value_ptr.

Definition future_get (f : Z) (res : bool) : M world (RaftError * option Z) :=
  if f =? 0 then mret (RAFT_E_INVALID_OP, None)
  else if negb res then mret (RAFT_E_INVALID_ADDRESS, None)
  else
    st ← future_state f ;
    err ← (if negb (is_terminal st) then raft_future_wait f else mret RAFT_SUCCESS) ;
    if decide (err = RAFT_SUCCESS) then v ← value f ; mret (err, Some v)
    else mret (err, None).

Definition future_get_f (f : Z) : M world Z :=
  assert (negb (f =? 0)) ;;
  st ← future_state f ;
  assert (is_terminal st) ;;
  value f.

Definition future_eat (f : Z) (res : bool) : M world (RaftError * option Z) :=
  r ← future_get f res ;
  raft_future_dispose f ;;
  mret r.

(** [shm.get_address_from_handle]: handles count from the start of the segment. *)
Definition address_from_handle (h : Z) : Z := shm_base + h.

Definition raft_future_get_stats (f : Z) (res : bool) : M world (RaftError * option Z) :=
  t ← future_tag f ;
  if decide (t <> Defs.Stats) then mret (RAFT_E_INVALID_OP, None)
  else if negb res then mret (RAFT_E_INVALID_ADDRESS, None)
  else
    r ← future_get f true ;
    match r with
    | (RAFT_SUCCESS, Some handle) =>
        assert (negb (handle =? 0)) ;; mret (RAFT_SUCCESS, Some (address_from_handle handle))
    | (err, _) => mret (err, None)
    end.

(** ** Commands *)

Definition raft_apply (cmd cmd_len timeout_ns : Z) : M world Z :=
  if negb (cmd =? 0) && in_shm_bounds cmd && in_shm_bounds (u64 (cmd + cmd_len)) then
    send_api_request Apply (ApplyArgs cmd cmd_len timeout_ns)
  else make_error_request RAFT_E_INVALID_ADDRESS Apply (ApplyArgs cmd cmd_len timeout_ns).

Definition raft_apply_sync (cmd cmd_len timeout_ns : Z) (res : bool) :
    M world (RaftError * option Z) :=
  if negb res then mret (RAFT_E_INVALID_ADDRESS, None)
  else
    f ← raft_apply cmd cmd_len timeout_ns ;
    raft_future_wait f ;;
    r ← raft_future_get_fsm_reply f res ;
    raft_future_dispose f ;;
    mret r.

Definition raft_barrier (timeout_ns : Z) : M world Z :=
  send_api_request Barrier (BarrierArgs timeout_ns).
Definition raft_verify_leader : M world Z := send_api_request VerifyLeader NoArgs.
Definition raft_snapshot : M world Z := send_api_request Snapshot NoArgs.
Definition raft_stats : M world Z := send_api_request Defs.Stats NoArgs.

(** [mem]: the bytes of the new slot before the constructor of the address. *)
Definition raft_add_peer (mem host : chars) (port : Z) : M world Z :=
  send_api_request AddPeer (make_NetworkAddr mem host port).
Definition raft_remove_peer (mem host : chars) (port : Z) : M world Z :=
  send_api_request RemovePeer (make_NetworkAddr mem host port).

Definition raft_shutdown : M world Z :=
  modify request_shutdown ;; send_api_request Shutdown NoArgs.

Definition raft_is_leader : M world bool := w ← get ; mret (is_leader (scoreboard w)).

(** ** Queries that wait for the answer *)

(** The conversion of the value to [RaftState]; [None] for a value that is not
    one of the enumerators. *)
Definition raft_state : M world (option RaftState) :=
  f ← send_api_request GetState NoArgs ;
  err ← raft_future_wait f ;
  st ← (if decide (err = RAFT_SUCCESS) then v ← future_get_f f ; mret (raft_state_of v)
        else mret (Some RAFT_INVALID_STATE)) ;
  raft_future_dispose f ;;
  mret st.

(** The request is [GetState], as in the source. *)
Definition raft_last_contact : M world Z :=
  f ← send_api_request GetState NoArgs ;
  err ← raft_future_wait f ;
  t ← (if decide (err = RAFT_SUCCESS) then v ← future_get_f f ; mret (s64 v) else mret 0) ;
  raft_future_dispose f ;;
  mret t.

Definition raft_last_index : M world Z :=
  f ← send_api_request LastIndex NoArgs ;
  r ← future_eat f true ;
  match r with
  | (RAFT_SUCCESS, Some idx) => mret idx
  | _ => mret 0
  end.

Definition raft_leader (res : bool) : M world (RaftError * option Z) :=
  if negb res then mret (RAFT_E_INVALID_ADDRESS, None)
  else
    f ← send_api_request GetLeader NoArgs ;
    r ← future_eat f true ;
    match r with
    | (RAFT_SUCCESS, Some pval) =>
        assert (negb (pval =? 0)) ;; mret (RAFT_SUCCESS, Some (address_from_handle pval))
    | (err, _) => mret (err, None)
    end.

(** ** Any call that a client can make, and the work of the collector thread *)
Inductive api_op :=
  | OpAllocBuffer (len : Z)
  | OpFreeBuffer (buf : Z)
  | OpApply (cmd cmd_len timeout_ns : Z)
  | OpApplySync (cmd cmd_len timeout_ns : Z) (res : bool)
  | OpBarrier (timeout_ns : Z)
  | OpVerifyLeader
  | OpState
  | OpLastContact
  | OpLastIndex
  | OpLeader (res : bool)
  | OpSnapshot
  | OpAddPeer (mem host : chars) (port : Z)
  | OpRemovePeer (mem host : chars) (port : Z)
  | OpStats
  | OpShutdown
  | OpWait (f : Z)
  | OpPoll (f : Z)
  | OpWaitFor (f wait_ms : Z)
  | OpGetFsmReply (f : Z) (res : bool)
  | OpGetStats (f : Z) (res : bool)
  | OpDispose (f : Z)
  | OpGcRound
  | OpOthers (e : env_step).

Definition exec (op : api_op) : M world () :=
  match op with
  | OpAllocBuffer len => alloc_raft_buffer len ;; mret ()
  | OpFreeBuffer buf => free_raft_buffer buf
  | OpApply c l t => raft_apply c l t ;; mret ()
  | OpApplySync c l t r => raft_apply_sync c l t r ;; mret ()
  | OpBarrier t => raft_barrier t ;; mret ()
  | OpVerifyLeader => raft_verify_leader ;; mret ()
  | OpState => raft_state ;; mret ()
  | OpLastContact => raft_last_contact ;; mret ()
  | OpLastIndex => raft_last_index ;; mret ()
  | OpLeader r => raft_leader r ;; mret ()
  | OpSnapshot => raft_snapshot ;; mret ()
  | OpAddPeer m h p => raft_add_peer m h p ;; mret ()
  | OpRemovePeer m h p => raft_remove_peer m h p ;; mret ()
  | OpStats => raft_stats ;; mret ()
  | OpShutdown => raft_shutdown ;; mret ()
  | OpWait f => raft_future_wait f ;; mret ()
  | OpPoll f => raft_future_poll f ;; mret ()
  | OpWaitFor f t => raft_future_wait_for f t ;; mret ()
  | OpGetFsmReply f r => raft_future_get_fsm_reply f r ;; mret ()
  | OpGetStats f r => raft_future_get_stats f r ;; mret ()
  | OpDispose f => raft_future_dispose f
  | OpGcRound => gc_round
  | OpOthers e => modify (run_env e)
  end.

(** A history of the program: a sequence of calls, each of which returns,
    throws, or is left waiting. *)
Inductive history : world -> list api_op -> world -> Prop :=
  | history_nil w : history w [] w
  | history_cons w op w1 ops w2 :
      (exec op w = Ret () w1 \/ exec op w = Throw w1 \/ exec op w = Block w1) ->
      history w1 ops w2 -> history w (op :: ops) w2.

Lemma history_invariant (I : world -> Prop) :
  (forall op, preserves I (exec op)) ->
  forall w ops w', history w ops w' -> I w -> I w'.
Proof.
  intros Hop w ops w' Hh. induction Hh as [|w op w1 ops w2 Hx Hh IH]; [done|].
  intros Hw. apply IH. specialize (Hop op w Hw).
  destruct Hx as [E|[E|E]]; rewrite E in Hop; done.
Qed.

End Code.

Section Balance.
Context `{Segment}.

Lemma balanced_flags : preserves balanced (modify request_shutdown).
Proof. apply preserves_modify. by intros w []; constructor. Qed.

#[local] Hint Resolve balanced_flags : raft.

Lemma balanced_exec op : preserves balanced (exec op).
Proof.
  destruct op; simpl;
    unfold alloc_raft_buffer, free_raft_buffer, raft_apply, raft_apply_sync, raft_barrier,
      raft_verify_leader, raft_state, raft_last_contact, raft_last_index, raft_leader, raft_snapshot,
      raft_add_peer, raft_remove_peer, raft_stats, raft_shutdown, raft_future_wait, raft_future_poll,
      raft_future_wait_for, raft_future_get_fsm_reply, raft_future_get_stats, raft_future_dispose,
      future_eat, future_get, future_get_f, future_tag, future_state, get_ptr, value,
      send_api_request; pres.
  apply preserves_modify. intros w. apply balanced_env.
Qed.

(** C31: In every history of client calls, collector rounds and actions of other
    threads that starts from a new segment, the counters of stats.h balance what
    is allocated: [call_alloc - call_free] is the number of live call slots and
    [buffer_alloc - buffer_free] the number of live buffers, modulo 2^64. *)
Theorem stats_balanced (timing : bool) (es : list env_step) (ops : list api_op) (w : world) :
  history (init_world timing es) ops w ->
  u64 (call_alloc (stats w) - call_free (stats w)) = u64 (Z.of_nat (size (slots w))) /\
  u64 (buffer_alloc (stats w) - buffer_free (stats w)) = u64 (Z.of_nat (size (bufs w))).
Proof.
  intros Hh. assert (balanced w) as []; [|done].
  eapply history_invariant; [apply balanced_exec|done|]. by constructor.
Qed.

End Balance.
End CIf.
