(* ===== verification/CIfSpec.v ===== *)
(** * Correctness of the client interface

    What the functions of raft_c_if.cc return, on every branch, and the places
    where the code does not do what it means to. *)

From stdpp Require Import base tactics list strings gmap relations.
From Stdlib Require Import ZArith Lia Ascii.
From S2P Require Import Prelude CString Defs ArrayQueue Deque Slot Shm ShmInv ShmSpec CIf.

Module CIfSpec.
Import CString Defs Slot Shm ShmSpec CIf.

Section Spec.
Context `{Segment}.

(** ** Waiting for a future *)

(** [raft_future_wait] on the slot of a call: it returns the error of the
    answer, and the slot is then observed. *)
Lemma raft_future_wait_answer p w s es1 es2 s1 :
  p <> 0 -> in_shm_bounds p = true ->
  slots w !! p = Some s -> sched w = es1 ++ es2 ->
  slots (run_envs es1 w) !! p = Some s1 -> poll s1 = true ->
  exists w' s', raft_future_wait p w = Ret (error s1) w' /\ slots w' !! p = Some s' /\
    tag s' = tag s /\ args s' = args s /\ client_state s' = Observed /\
    is_terminal (state s') = true /\ error s' = error s1 /\ retval s' = retval s1.
Proof.
  intros Hp Hb Hs Hes H1 Hpoll.
  destruct (wait_returns p w s es1 es2 s1 Hs Hes H1 Hpoll)
    as (w' & s0 & t & Hw & Hs' & (_ & Et & Ea & _) & Hterm & Ee & Er).
  exists w', (observe t s0). split; [|by split_and!].
  unfold raft_future_wait. rewrite Hb, (proj2 (Z.eqb_neq p 0) Hp). cbn.
  erewrite bind_Ret by done.
  erewrite bind_Ret by (unfold get_slot; by rewrite Hs'). by rewrite <- Ee.
Qed.

(** Reading and disposing of a call that has been observed. *)
Lemma get_fsm_reply_observed p w s :
  p <> 0 -> slots w !! p = Some s -> tag s = Apply -> is_terminal (state s) = true ->
  raft_future_get_fsm_reply p true w =
    Ret (error s, if decide (error s = RAFT_SUCCESS) then Some (retval s) else None) w.
Proof.
  intros Hp Hs Ht Hterm. unfold raft_future_get_fsm_reply, future_tag, get_ptr.
  erewrite bind_Ret by (do 2 mstep; done). rewrite decide_False by (intros Hn; by apply Hn).
  mstep. rewrite Hterm. do 2 mstep. unfold get_ptr_result. by rewrite Ht.
Qed.

Lemma dispose_observed p w s :
  slots w !! p = Some s -> client_state s = Observed ->
  raft_future_dispose p w = Ret () (count_call_free (set_slots (delete p (slots w)) w)).
Proof.
  intros Hs Hc. unfold raft_future_dispose, dispose. mstep. by rewrite Hc.
Qed.

Lemma raft_apply_issued cmd len t w p w1 :
  raft_apply cmd len t w = Ret p w1 -> issued p Apply (ApplyArgs cmd len t) w1.
Proof.
  unfold raft_apply, send_api_request. case_if; intros Hr.
  - by eapply send_request_issued.
  - by eapply make_error_request_issued.
Qed.

(** [raft_apply_sync] when the call fails before it is queued. *)
Lemma raft_apply_sync_failed cmd len t w p s :
  seg_alloc_node (used w) = Some p ->
  raft_apply cmd len t w = Ret p (with_call p s w) ->
  tag s = Apply -> poll s = true -> error s <> RAFT_SUCCESS -> exists w',
    raft_apply_sync cmd len t true w = Ret (error s, None) w' /\
    slots w' = slots w /\ scoreboard w' = scoreboard w.
Proof.
  intros E Ha Ht Hpoll Herr. destruct (node_in_bounds _ _ E) as [Hp Hb].
  assert (slots w !! p = None) as Hnew.
  { apply seg_alloc_node_fresh in E as [Hu _]. apply not_elem_of_dom. unfold used in Hu. set_solver. }
  assert (slots (with_call p s w) !! p = Some s) as Hs by apply lookup_insert_eq.
  set (s1 := observe (clock w) s).
  assert (slots (with_call p s1 w) !! p = Some s1) as Hs1 by apply lookup_insert_eq.
  unfold raft_apply_sync. cbn [negb]. erewrite bind_Ret by done.
  assert (raft_future_wait p (with_call p s w) = Ret (error s) (with_call p s1 w)) as Hw.
  { unfold raft_future_wait. rewrite Hb, (proj2 (Z.eqb_neq p 0) Hp). cbn [negb orb].
    erewrite bind_Ret by (by apply (wait_answered p _ s)).
    rewrite update_with_call. by mstep. }
  erewrite bind_Ret by done.
  erewrite bind_Ret.
  2:{ apply (get_fsm_reply_observed p _ s1); [done..|].
      unfold poll in Hpoll. by apply andb_prop in Hpoll as [_ Hterm]. }
  erewrite bind_Ret by (by eapply dispose_observed).
  change (error s1) with (error s). rewrite decide_False by done.
  eexists. split; [done|]. cbn. rewrite delete_insert_id by done. done.
Qed.

(** ** Properties *)

(** For the one thread that waits, [raft_future_wait] on a live call returns as soon as the call has its
    answer: if the other threads answer it with the error [error s1] and leave
    its mutex free, the wait returns that error, and the future then counts as
    observed. A null future, or one outside the segment, is refused without
    waiting. *)
Theorem raft_future_wait_total f w :
  (f = 0 \/ in_shm_bounds f = false -> raft_future_wait f w = Ret RAFT_E_INVALID_OP w) /\
  (forall s es1 es2 s1, f <> 0 -> in_shm_bounds f = true -> slots w !! f = Some s ->
     sched w = es1 ++ es2 -> slots (run_envs es1 w) !! f = Some s1 -> poll s1 = true ->
     exists w' s', raft_future_wait f w = Ret (error s1) w' /\ slots w' !! f = Some s' /\
       client_state s' = Observed /\ is_terminal (state s') = true).
Proof.
  split.
  - intros Hf. unfold raft_future_wait.
    assert ((f =? 0) || negb (in_shm_bounds f) = true) as -> by (destruct Hf as [-> | ->]; auto using orb_true_r).
    done.
  - intros s es1 es2 s1 Hp Hb Hs Hes H1 Hpoll.
    destruct (raft_future_wait_answer f w s es1 es2 s1 Hp Hb Hs Hes H1 Hpoll)
      as (w' & s' & ? & ? & _ & _ & ? & ? & _). eauto 10.
Qed.

(** C10: [raft_apply_sync] with a result pointer returns the answer to its
    command: whenever the call that [raft_apply] makes is answered, by the Raft
    process or because it failed at once, the function returns the error of the
    answer, stores the result pointer exactly if there is no error, and leaves
    no slot behind. *)
Theorem raft_apply_sync_answer cmd len t w p w1 es1 es2 s1 :
  raft_apply cmd len t w = Ret p w1 -> sched w1 = es1 ++ es2 ->
  slots (run_envs es1 w1) !! p = Some s1 -> poll s1 = true ->
  exists w', raft_apply_sync cmd len t true w =
      Ret (error s1, if decide (error s1 = RAFT_SUCCESS) then Some (retval s1) else None) w' /\
    slots w' !! p = None.
Proof.
  intros Ha Hes H1 Hpoll.
  destruct (raft_apply_issued _ _ _ _ _ _ Ha) as (Hp & Hb & s & Hs & Ht & _ & _).
  destruct (raft_future_wait_answer p w1 s es1 es2 s1 Hp Hb Hs Hes H1 Hpoll)
    as (w2 & s2 & Hw & Hs2 & Ht2 & _ & Hc2 & Hterm & Ee & Er).
  unfold raft_apply_sync. cbn [negb].
  erewrite bind_Ret by done. erewrite bind_Ret by done.
  erewrite bind_Ret by (apply get_fsm_reply_observed; [done|done|congruence|done]).
  erewrite bind_Ret by (by eapply dispose_observed).
  rewrite Ee, Er. eexists. split; [done|]. cbn. apply lookup_delete_eq.
Qed.

(** C29: The errors of [raft_apply_sync] that do not come from Raft: no result
    pointer, and nothing is done; a command outside the segment, and the answer
    is [RAFT_E_INVALID_ADDRESS]; a closed queue, and the answer is
    [RAFT_E_IN_SHUTDOWN]. In the last two cases nothing is queued or waited for,
    and the slot that was made is freed again. *)
Theorem raft_apply_sync_errors cmd len t w p :
  seg_alloc_node (used w) = Some p ->
  let valid := negb (cmd =? 0) && in_shm_bounds cmd && in_shm_bounds (u64 (cmd + len)) in
  raft_apply_sync cmd len t false w = Ret (RAFT_E_INVALID_ADDRESS, None) w /\
  (valid = false -> exists w',
     raft_apply_sync cmd len t true w = Ret (RAFT_E_INVALID_ADDRESS, None) w' /\
     slots w' = slots w /\ scoreboard w' = scoreboard w) /\
  (valid = true -> ABQ.closed (api_queue (scoreboard w)) = true -> exists w',
     raft_apply_sync cmd len t true w = Ret (RAFT_E_IN_SHUTDOWN, None) w' /\
     slots w' = slots w /\ scoreboard w' = scoreboard w).
Proof.
  intros E valid. split; [done|].
  unfold valid. split.
  - intros Hv.
    destruct (raft_apply_sync_failed cmd len t w p (set_state Error (set_error RAFT_E_INVALID_ADDRESS
      (new_slot Apply (ApplyArgs cmd len t))))) as (w' & ?); try done; [|by eauto].
    unfold raft_apply. rewrite Hv. by apply make_error_request_eq.
  - intros Hv Hcl.
    destruct (raft_apply_sync_failed cmd len t w p (set_state Error (set_error RAFT_E_IN_SHUTDOWN
      (sent_slot Apply (ApplyArgs cmd len t) (clock w))))) as (w' & ?); try done; [|by eauto].
    unfold raft_apply. rewrite Hv. by apply (send_request_closed ApiQueue).
Qed.

(** When the end of the command does not pass 2^64, [raft_apply] sends the
    command exactly if it lies in the segment and ends before its last byte;
    otherwise it makes a call that has failed with [RAFT_E_INVALID_ADDRESS]. *)
Theorem raft_apply_range cmd len t w :
  0 <= len -> cmd + len < 2 ^ 64 ->
  raft_apply cmd len t w =
    if decide (shm_base <= cmd /\ cmd + len < shm_base + shm_bytes)
    then send_api_request Apply (ApplyArgs cmd len t) w
    else make_error_request RAFT_E_INVALID_ADDRESS Apply (ApplyArgs cmd len t) w.
Proof.
  intros Hl Hc. pose proof seg_range. unfold raft_apply, in_shm_bounds. case_decide as Hd.
  - rewrite wrap_small by lia. by case_if; [|lia].
  - case_if; [|done]. destruct Hd. zbool. rewrite wrap_small in * by lia. lia.
Qed.

(** The check can be passed by a length that wraps around: with a length of
    2^64 - 1, a command at any address of the segment but the first is sent to
    the Raft process, although it is longer than the segment. *)
Theorem raft_apply_range_wraps cmd t w :
  shm_base < cmd < shm_base + shm_bytes ->
  raft_apply cmd (2 ^ 64 - 1) t w = send_api_request Apply (ApplyArgs cmd (2 ^ 64 - 1) t) w.
Proof.
  intros Hc. pose proof seg_range.
  assert (u64 (cmd + (2 ^ 64 - 1)) = cmd - 1) as E.
  { replace (cmd + (2 ^ 64 - 1)) with ((cmd - 1) + 1 * 2 ^ 64) by lia.
    unfold wrap. rewrite Z_mod_plus_full. apply Z.mod_small. lia. }
  unfold raft_apply. rewrite E. unfold in_shm_bounds. by case_if; [|lia].
Qed.

(** Ask the Raft process with a call that has a value, and wait: the value, or
    0 if the call fails. *)
Definition ask (t : CallTag) : M world Z :=
  f ← send_api_request t NoArgs ;
  err ← raft_future_wait f ;
  v ← (if decide (err = RAFT_SUCCESS) then future_get_f f else mret 0) ;
  raft_future_dispose f ;;
  mret v.

(** [raft_state] and [raft_last_contact] are the same computation: both ask
    with a [GetState] call. So what [raft_last_contact] returns as a time is the
    number of the state, and the [LastContact] call is never made. *)
Theorem raft_last_contact_is_state w :
  raft_state w = (v ← ask GetState ; mret (raft_state_of v)) w /\
  raft_last_contact w = (v ← ask GetState ; mret (s64 v)) w.
Proof.
  unfold raft_state, raft_last_contact, ask. unfold mbind, M_bind, mret, M_ret.
  destruct (send_api_request GetState NoArgs w) as [f w1| | |]; try done.
  destruct (raft_future_wait f w1) as [err w2| | |]; try done.
  destruct (decide (err = RAFT_SUCCESS)).
  - destruct (future_get_f f w2) as [v w3| | |]; try done. by destruct (raft_future_dispose f w3).
  - by destruct (raft_future_dispose f w2).
Qed.

(** [raft_future_wait_for] does not wait for the answer: with the mutex of
    the slot free it returns at once, whatever the time limit, and says whether
    the answer is there already. *)
Theorem raft_future_wait_for_returns_at_once f ms w s :
  slots w !! f = Some s -> owned s = false ->
  exists w', raft_future_wait_for f ms w = Ret (is_terminal (state s)) w' /\
    slots w' = slots w /\ sched w' = sched w.
Proof.
  intros Hs Ho. unfold raft_future_wait_for, wait_for. case_if.
  - unfold slot_poll. mstep. unfold poll. rewrite Ho. eauto.
  - assert (mutex_free f w = true) as Hm by (unfold mutex_free; by rewrite Hs, Ho).
    erewrite bind_Ret by (by apply await_timed_now). cbn beta iota. mstep. eauto.
Qed.

(** [future_get] on a call that already has its answer. *)
Lemma future_get_answered f w s :
  f <> 0 -> slots w !! f = Some s -> has_ret (tag s) = true ->
  is_terminal (state s) = true ->
  future_get f true w = Ret (RAFT_SUCCESS, Some (retval s)) w.
Proof.
  intros Hf Hs Hr Ht. unfold future_get, future_state, value.
  rewrite (proj2 (Z.eqb_neq f 0) Hf). cbn [negb].
  erewrite bind_Ret by (do 2 mstep; done). rewrite Ht. cbn [negb]. mstep.
  rewrite decide_True by done. erewrite bind_Ret by (mstep; rewrite Hr; mstep; done). done.
Qed.

(** [future_get] hides an error that is already there: on a call that has
    failed before it looks, it returns [RAFT_SUCCESS] and the unset value 0. *)
Theorem future_get_hides_error f w s :
  f <> 0 -> slots w !! f = Some s -> has_ret (tag s) = true ->
  state s = Error -> error s <> RAFT_SUCCESS ->
  future_get f true w = Ret (RAFT_SUCCESS, Some (retval s)) w.
Proof. intros Hf Hs Hr Ht _. apply future_get_answered; try done. by rewrite Ht. Qed.

(** As a consequence [raft_leader] does not report the error when the queue
    of requests is closed: the assertion on the result fails and the program
    ends, where the other calls return [RAFT_E_IN_SHUTDOWN]. *)
Theorem raft_leader_asserts_when_closed w p :
  seg_alloc_node (used w) = Some p -> ABQ.closed (api_queue (scoreboard w)) = true ->
  Deque.closed (orphaned_calls w) = false ->
  raft_leader true w = Fault AssertFailed.
Proof.
  intros E Hcl Hd. destruct (node_in_bounds _ _ E) as [Hp _]. unfold raft_leader. cbn [negb].
  erewrite bind_Ret by (by apply (send_request_closed ApiQueue)).
  set (s := set_state Error _). set (w1 := with_call p s w).
  assert (slots w1 !! p = Some s) as Hs by (cbn; apply lookup_insert_eq).
  unfold future_eat.
  assert (future_get p true w1 = Ret (RAFT_SUCCESS, Some 0) w1) as Hg.
  { by rewrite (future_get_answered p w1 s). }
  assert (exists w2, raft_future_dispose p w1 = Ret () w2) as [w2 Hdisp].
  { unfold raft_future_dispose, dispose. mstep. assert (client_state s = Issued) as -> by done.
    eexists. mstep. apply zoom_Ret. unfold Deque.put, Deque.put_section. cbn. by rewrite Hd. }
  erewrite bind_Ret.
  2:{ erewrite bind_Ret by done. erewrite bind_Ret by done. done. }
  done.
Qed.

End Spec.

(** ** A client that polls

    It sends a command, reads the answer, gives up the future and frees its
    buffer, as raft_client.c does; [look] is how it finds out that the answer is
    there, and the collector runs once before the buffer is freed. *)
Definition one_command `{Segment} (look : Z -> M world ()) : M world (RaftError * option Z) :=
  cmd ← alloc_raft_buffer 16 ;
  f ← raft_apply cmd 16 0 ;
  modify (run_env (ERaftReplyValue f 7)) ;;
  look f ;;
  r ← raft_future_get_fsm_reply f true ;
  raft_future_dispose f ;;
  w ← get ;
  (if decide (Deque.deque (orphaned_calls w) = []) then mret () else gc_round) ;;
  free_raft_buffer cmd ;;
  mret r.

(** A future whose answer is read without [raft_future_wait] counts as
    abandoned when it is disposed of, although the answer has been seen: after
    [raft_future_poll] and [raft_future_get_fsm_reply], [raft_future_dispose]
    makes it an orphan, the collector frees the command buffer, and the client
    that then frees it, as it must after a wait, frees it twice. *)
Theorem polled_call_loses_buffer :
  (exists w, one_command (fun f => raft_future_wait f ;; mret ()) (init_world false []) =
     Ret (RAFT_SUCCESS, Some 7) w /\ bufs w = ∅) /\
  one_command (fun f => raft_future_poll f ;; mret ()) (init_world false []) = Fault BadPointer.
Proof. split; [eexists; split; vm_compute; reflexivity|vm_compute; reflexivity]. Qed.

(** ** Concrete runs *)

(** A client that has a command buffer at 4096, with the other threads still to
    do [es]. *)
Definition demo_world (es : list env_step) : world :=
  match alloc_raft_buffer 16 (init_world false es) with
  | Ret _ w => w
  | _ => init_world false es
  end.

(** The same when the queue of requests has been closed. *)
Definition demo_closed : world := run_env ECloseApi (demo_world []).

(** A call at 4352 that waits for its answer, which will be the value 77. *)
Definition demo_answer : list env_step := [ERaftTake; ELock 4352; ERaftReplyValue 4352 77; EUnlock 4352].

Definition demo_sent : world :=
  match raft_apply 4096 16 0 (demo_world demo_answer) with
  | Ret _ w => w
  | _ => demo_world []
  end.

Definition demo_final : world := run_envs demo_answer demo_sent.

Definition demo_slot_at (p : Z) (w : world) : slot :=
  match slots w !! p with Some s => s | None => new_slot Invalid NoArgs end.

(** [raft_future_wait_total]: the answer arrives while the client waits. *)
Lemma raft_future_wait_total_witness :
  raft_future_wait 0 demo_sent = Ret RAFT_E_INVALID_OP demo_sent /\
  exists w', raft_future_wait 4352 demo_sent = Ret RAFT_SUCCESS w'.
Proof.
  split; [by apply (proj1 (raft_future_wait_total 0 demo_sent)); left|].
  destruct (proj2 (raft_future_wait_total 4352 demo_sent) (demo_slot_at 4352 demo_sent)
    demo_answer [] (demo_slot_at 4352 demo_final)) as (w' & s' & Hw & _);
    [done|vm_compute; reflexivity..|].
  exists w'. rewrite Hw. by vm_compute.
Defined.

Lemma raft_apply_sync_answer_witness :
  exists w', raft_apply_sync 4096 16 0 true (demo_world demo_answer) =
    Ret (RAFT_SUCCESS, Some 77) w' /\ slots w' !! 4352 = None.
Proof.
  destruct (raft_apply_sync_answer 4096 16 0 (demo_world demo_answer) 4352 demo_sent
    demo_answer [] (demo_slot_at 4352 demo_final)) as (w' & Hw & Hs);
    [vm_compute; reflexivity..|].
  exists w'. split; [|done]. rewrite Hw. by vm_compute.
Defined.

Lemma raft_apply_sync_errors_witness :
  exists w', raft_apply_sync 4096 16 0 true demo_closed = Ret (RAFT_E_IN_SHUTDOWN, None) w' /\
    slots w' = slots demo_closed.
Proof.
  assert (seg_alloc_node (used demo_closed) = Some 4352) as E by (vm_compute; reflexivity).
  destruct (proj2 (proj2 (raft_apply_sync_errors 4096 16 0 demo_closed 4352 E)))
    as (w' & Hw & Hs & _); [vm_compute; reflexivity..|]. by exists w'.
Defined.

Lemma raft_apply_range_witness :
  raft_apply 4096 16 0 (demo_world []) =
    send_api_request Apply (ApplyArgs 4096 16 0) (demo_world []).
Proof. rewrite (raft_apply_range 4096 16 0 (demo_world [])) by lia. reflexivity. Defined.

Lemma raft_apply_range_wraps_witness :
  raft_apply 4097 (2 ^ 64 - 1) 0 (demo_world []) =
    send_api_request Apply (ApplyArgs 4097 (2 ^ 64 - 1) 0) (demo_world []).
Proof. apply (raft_apply_range_wraps 4097 0 (demo_world [])). simpl. lia. Defined.

Lemma raft_future_wait_for_returns_at_once_witness :
  exists w', raft_future_wait_for 4352 5000 demo_sent = Ret false w' /\ sched w' = demo_answer.
Proof.
  destruct (raft_future_wait_for_returns_at_once 4352 5000 demo_sent (demo_slot_at 4352 demo_sent))
    as (w' & Hw & _ & Hs); [vm_compute; reflexivity..|].
  exists w'. split; [rewrite Hw; by vm_compute|rewrite Hs; by vm_compute].
Defined.

(** A [LastIndex] call that has failed with [RAFT_E_SHUTDOWN]. *)
Definition demo_failed : world :=
  match send_api_request LastIndex NoArgs (demo_world []) with
  | Ret p w => run_env (ERaftReply p RAFT_E_SHUTDOWN) w
  | _ => demo_world []
  end.

Lemma future_get_hides_error_witness :
  error (demo_slot_at 4352 demo_failed) = RAFT_E_SHUTDOWN /\
  future_get 4352 true demo_failed = Ret (RAFT_SUCCESS, Some 0) demo_failed.
Proof.
  split; [by vm_compute|].
  rewrite (future_get_hides_error 4352 demo_failed (demo_slot_at 4352 demo_failed));
    [by vm_compute|done|vm_compute; reflexivity..|]. by vm_compute.
Defined.

Lemma raft_leader_asserts_when_closed_witness : raft_leader true demo_closed = Fault AssertFailed.
Proof. apply (raft_leader_asserts_when_closed demo_closed 4352); vm_compute; reflexivity. Defined.

Lemma send_api_request_outcome_witness :
  exists w' s, send_api_request Barrier (BarrierArgs 5) (demo_world []) = Ret 4352 w' /\
    slots w' !! 4352 = Some s /\ state s = Pending.
Proof.
  destruct (send_api_request_outcome Barrier (BarrierArgs 5) (demo_world []) 4352)
    as (w' & s & Hw & _ & Hs & _ & _ & _ & Hst & _); [by vm_compute| |right; by vm_compute|].
  - by constructor.
  - exists w', s. split_and!; [done| |done]. rewrite Hs. apply lookup_insert_eq.
Defined.

Definition demo_start : world := init_world false [ERaftReply 4096 RAFT_E_NOT_LEADER].

Definition state_after (op : api_op) (w : world) : world :=
  match exec op w with Ret _ w' => w' | _ => w end.

Definition demo_mid : world := state_after (OpBarrier 5) demo_start.
Definition demo_end : world := state_after (OpWait 4096) demo_mid.

Lemma demo_history : history demo_start [OpBarrier 5; OpWait 4096] demo_end.
Proof.
  apply (history_cons _ _ demo_mid); [left; vm_compute; reflexivity|].
  apply (history_cons _ _ demo_end); [left; vm_compute; reflexivity|]. apply history_nil.
Qed.

Lemma stats_balanced_witness : u64 (call_alloc (stats demo_end) - call_free (stats demo_end)) = 1.
Proof. rewrite (proj1 (stats_balanced _ _ _ _ demo_history)). by vm_compute. Defined.

End CIfSpec.
