(* ===== verification/RaftTest.v ===== *)
(** * The tests of the library

    The tests of test.cc and raft_shm_test.cc that are about the C++ side, on the
    model: the calls of the test with the expectations it states, the Raft
    process being the steps that it takes in the meantime.  Where a test expects
    something of the Raft process (the election, the peers), the process answers
    as the test expects, and the test checks that the answer gets through.  What
    buffers contain is not modelled, so the tests do not look at it.  The tests
    of the processes and of the state machine of test.cc are in RaftProcTest.v.
    [result] stands for what the state machine answers. *)

From stdpp Require Import base tactics list strings gmap.
From Stdlib Require Import ZArith Lia Ascii.
From S2P Require Import Prelude CString Defs ArrayQueue Deque Slot Shm ShmSpec CIf.

Module RaftTest.
Import CString Defs Slot Shm ShmSpec CIf.

(** [EXPECT_EQ] and the like. *)
Definition expect (cond : bool) : M world () := if cond then mret () else throw.

Definition expect_error (m : M world RaftError) (err : RaftError) : M world () :=
  e ← m ; expect (bool_decide (e = err)).

(** The counters of stats.h agree. *)
Definition all_freed (w : world) : bool :=
  (buffer_alloc (stats w) =? buffer_free (stats w)) && (call_alloc (stats w) =? call_free (stats w)).
Definition some_left (w : world) : bool :=
  negb (buffer_alloc (stats w) =? buffer_free (stats w)) && negb (call_alloc (stats w) =? call_free (stats w)).
Definition expect_stats (cond : world -> bool) : M world () := w ← get ; expect (cond w).

(** What the Raft process does for the call [f], as soon as this thread waits. *)
Definition raft_serves (f result : Z) : M world () :=
  modify (fun w => set_sched (sched w ++ [ERaftTake; ELock f; ERaftReplyValue f result; EUnlock f]) w).

Section Tests.
Variable result : Z.

(** [run_simple_op] *)
Definition run_simple_op : M world () :=
  buf ← alloc_raft_buffer 256 ;
  f ← raft_apply buf 256 0 ;
  raft_serves f result ;;
  expect_error (raft_future_wait f) RAFT_SUCCESS ;;
  free_raft_buffer buf ;;
  raft_future_dispose f.

(** TEST_F(RaftFixture, Simple): the commands, and what is left at the end,
    without the counter of the test's state machine *)
Definition Simple_ops : M world () :=
  run_simple_op ;; run_simple_op ;; run_simple_op ;; run_simple_op ;; run_simple_op ;;
  expect_stats all_freed.

(** The snapshot of the same test *)
Definition Simple_snapshot : M world () :=
  f ← raft_snapshot ;
  modify (set_sched [ERaftTake; ELock f; ERaftReply f RAFT_SUCCESS; EUnlock f]) ;;
  expect_error (raft_future_wait f) RAFT_SUCCESS ;;
  ok ← raft_future_poll f ; expect ok ;;
  ok ← raft_future_wait_for f 0 ; expect ok ;;
  ok ← raft_future_wait_for f 5 ; expect ok ;;
  raft_future_dispose f ;;
  expect_stats all_freed.

(** The Raft process is going to answer the next call with [v]. *)
Definition raft_will_serve (v : Z) : M world () :=
  w ← get ;
  match seg_alloc_node (used w) with
  | Some f => raft_serves f v
  | None => fail BadPointer
  end.

(** TEST_F(RaftFixture, Simple): the queries; [idx] is the index of the log.
    [first] keeps the start of the segment, where the handle would be 0. *)
Definition Simple_queries (idx : Z) : M world () :=
  first ← alloc_raft_buffer 8 ;
  raft_will_serve (raft_state_code RAFT_LEADER) ;;
  st ← raft_state ; expect (bool_decide (st = Some RAFT_LEADER)) ;;
  addr ← alloc_raft_buffer 15 ;
  raft_will_serve (addr - shm_base) ;;
  leader ← raft_leader true ; expect (bool_decide (leader = (RAFT_SUCCESS, Some addr))) ;;
  free_raft_buffer addr ;;
  raft_will_serve (raft_state_code RAFT_LEADER) ;;
  t ← raft_last_contact ; expect (t <? 86400) ;;
  raft_will_serve idx ;;
  start_idx ← raft_last_index ;
  free_raft_buffer first ;;
  Simple_ops ;;
  raft_will_serve (idx + 5) ;;
  last_idx ← raft_last_index ; expect (start_idx + 5 <=? last_idx) ;;
  expect_stats all_freed.

(** The statistics of the same test *)
Definition Simple_stats : M world () :=
  f ← raft_stats ;
  text ← alloc_raft_buffer 512 ;
  raft_serves f (text - shm_base) ;;
  expect_error (raft_future_wait f) RAFT_SUCCESS ;;
  r ← raft_future_get_stats f true ; expect (bool_decide (r = (RAFT_SUCCESS, Some text))) ;;
  free_raft_buffer text ;;
  raft_future_dispose f ;;
  expect_stats all_freed.

Definition NoCluster : M world () :=
  raft_will_serve (raft_state_code RAFT_FOLLOWER) ;;
  st ← raft_state ; expect (bool_decide (st = Some RAFT_FOLLOWER)).

(** The Raft process refuses the call [f] with [err]. *)
Definition raft_refuses (f : Z) (err : RaftError) : M world () :=
  modify (fun w => set_sched (sched w ++ [ERaftTake; ELock f; ERaftReply f err; EUnlock f]) w).

Definition NotLeaderYet : M world () :=
  buf ← alloc_raft_buffer 256 ;
  f ← raft_apply buf 256 0 ;
  raft_refuses f RAFT_E_NOT_LEADER ;;
  err ← raft_future_wait f ; expect (bool_decide (err <> RAFT_SUCCESS)).

(** A request about a peer that is refused. *)
Definition peer_refused (request : M world Z) (err : RaftError) : M world () :=
  f ← request ;
  raft_refuses f err ;;
  expect_error (raft_future_wait f) err ;;
  raft_future_dispose f.

(** [mem] is what the memory of the address held before. *)
Definition AddRemovePeer (mem : chars) : M world () :=
  let localhost := lit "localhost" ++ [NUL] in
  let bogus := lit "snuffleupagus.example.com" ++ [NUL] in
  peer_refused (raft_add_peer mem bogus 21064) RAFT_E_RESOLVE ;;
  peer_refused (raft_remove_peer mem bogus 21064) RAFT_E_RESOLVE ;;
  peer_refused (raft_remove_peer mem localhost 21064) RAFT_E_UNKNOWN_PEER ;;
  peer_refused (raft_add_peer mem localhost 9001) RAFT_E_KNOWN_PEER ;;
  peer_refused (raft_add_peer mem localhost 21064) RAFT_E_LEADERSHIP_LOST ;;
  expect_stats all_freed.

Definition FutureMisuse : M world () :=
  buf ← alloc_raft_buffer 256 ;
  f ← raft_apply buf 256 0 ;
  raft_serves f result ;;
  expect_error (raft_future_wait f) RAFT_SUCCESS ;;
  expect_error (r ← raft_future_get_stats f true ; mret r.1) RAFT_E_INVALID_OP ;;
  expect_error (r ← raft_future_get_fsm_reply f false ; mret r.1) RAFT_E_INVALID_ADDRESS ;;
  free_raft_buffer buf ;;
  raft_future_dispose f.

(** [scratch] is an array of the program, not in the segment. *)
Definition WaitMisuse (scratch : Z) : M world () :=
  buf ← alloc_raft_buffer 256 ;
  f ← raft_apply buf 256 0 ;
  raft_serves f result ;;
  expect_error (raft_future_wait f) RAFT_SUCCESS ;;
  expect_error (raft_future_wait f) RAFT_SUCCESS ;;
  free_raft_buffer buf ;;
  raft_future_dispose f ;;
  expect_error (raft_future_wait 0) RAFT_E_INVALID_OP ;;
  expect_error (raft_future_wait scratch) RAFT_E_INVALID_OP.

(** The future of a request that meets the closed queue. *)
Definition fails_in_shutdown (request : M world Z) : M world () :=
  f ← request ; expect_error (raft_future_wait f) RAFT_E_IN_SHUTDOWN.

Definition OnClose : M world () :=
  buf ← alloc_raft_buffer 256 ;
  modify (run_env ECloseApi) ;;
  expect_error (r ← raft_apply_sync buf 256 0 true ; mret r.1) RAFT_E_IN_SHUTDOWN ;;
  fails_in_shutdown (raft_apply buf 256 0) ;;
  fails_in_shutdown (raft_barrier 0) ;;
  fails_in_shutdown raft_verify_leader ;;
  fails_in_shutdown raft_snapshot ;;
  fails_in_shutdown raft_shutdown.

(** A command that is not in the segment. *)
Definition bad_apply (cmd : Z) : M world () :=
  f ← raft_apply cmd 256 0 ;
  expect_error (raft_future_wait f) RAFT_E_INVALID_ADDRESS ;;
  raft_future_dispose f.

Definition bad_apply_sync (cmd : Z) (res : bool) : M world () :=
  r ← raft_apply_sync cmd 256 0 res ;
  expect (bool_decide (r = (RAFT_E_INVALID_ADDRESS, None))).

(** [badbuf] comes from [new]. *)
Definition BadApply (badbuf : Z) : M world () :=
  buf ← alloc_raft_buffer 256 ;
  bad_apply badbuf ;;
  bad_apply 0 ;;
  bad_apply_sync badbuf true ;;
  bad_apply_sync 0 true ;;
  bad_apply_sync buf false ;;
  free_raft_buffer buf ;;
  expect_stats all_freed.

(** One pass: a command is sent, and its future given up. *)
Definition orphan_pass : M world () :=
  buf ← alloc_raft_buffer 256 ;
  f ← raft_apply buf 256 0 ;
  raft_serves f result ;;
  raft_future_dispose f.

Fixpoint times (n : nat) (m : M world ()) : M world () :=
  match n with O => mret () | S n => m ;; times n m end.

(** The collector has its rounds during the sleep of the test. *)
Definition OrphanCleanup (passes : nat) : M world () :=
  times passes orphan_pass ;;
  buf ← alloc_raft_buffer 256 ;
  f ← raft_apply buf 256 0 ;
  raft_serves f result ;;
  expect_error (raft_future_wait f) RAFT_SUCCESS ;;
  raft_future_dispose f ;;
  free_raft_buffer buf ;;
  expect_stats some_left ;;
  times passes gc_round ;;
  expect_stats all_freed.

(** TEST(RaftLib, TagNames) *)
Definition TagNames : bool :=
  bool_decide (tag_name (tag_code Apply) = Some "Apply"%string) &&
  bool_decide (tag_name (tag_code FSMApply) = Some "FSMApply"%string) &&
  bool_decide (tag_name 255 = Some "*invalid*"%string).

Definition passes (test : M world ()) : bool :=
  match test (init_world false []) with Ret _ _ => true | _ => false end.
End Tests.

(** ** All tests pass *)

(** Every expectation of these tests holds on the model, whatever the state
    machine answers; 300 is an address outside of the segment. *)
Theorem raft_tests_pass (result : Z) :
  passes (Simple_ops result) = true /\ passes Simple_snapshot = true /\
  passes (FutureMisuse result) = true /\ passes (WaitMisuse result 300) = true /\
  passes OnClose = true /\ passes (BadApply 300) = true /\
  passes (OrphanCleanup result 20) = true /\ TagNames = true /\
  passes (Simple_queries result 17) = true /\ passes Simple_stats = true /\
  passes NoCluster = true /\ passes NotLeaderYet = true /\
  passes (AddRemovePeer (replicate 256 "x"%char)) = true.
Proof. split_and!; vm_compute; reflexivity. Qed.

End RaftTest.
