(* ===== verification/FsmWorker.v ===== *)
(** * The FSM worker and the snapshot worker

    The thread that takes the requests of the Raft process from the FSM queue
    and calls the state machine of the client ([fsm_worker_step] and the
    dispatch functions of raft_c_if.cc), and the thread that writes snapshots.
    The state machine itself is client code, so it is a parameter. *)

From stdpp Require Import base tactics list strings gmap relations.
From Stdlib Require Import ZArith Lia Ascii.
From S2P Require Import Prelude CString Defs ArrayQueue Deque Slot Shm ShmInv ShmSpec CIf.

Module FsmWorker.
Import CString Defs Slot Shm ShmSpec.

(** [SnapshotJob]: the slot, the handle of the state and the function. *)
Record SnapshotJob := MkJob { job_slot : Z; job_handle : Z; job_func : Z }.

Section Code.
Context `{Segment} {U : Type}.

(** The process: the segment, the snapshot queue, whether the snapshot worker
    has been started, and the state of the client's state machine. *)
Record fworld := FWorld {
  shm : world;
  snapshot_queue : Deque.dq SnapshotJob;
  snapshot_worker : bool;
  user : U
}.

Definition set_shm (v : world) (x : fworld) : fworld :=
  FWorld v (snapshot_queue x) (snapshot_worker x) (user x).
Definition set_snapshot_queue (v : Deque.dq SnapshotJob) (x : fworld) : fworld :=
  FWorld (shm x) v (snapshot_worker x) (user x).
Definition set_snapshot_worker (v : bool) (x : fworld) : fworld :=
  FWorld (shm x) (snapshot_queue x) v (user x).
Definition set_user (v : U) (x : fworld) : fworld :=
  FWorld (shm x) (snapshot_queue x) (snapshot_worker x) v.

(** [RaftFSM]: the functions of the client.  [apply] and [restore] work on the
    state of the client; [begin_snapshot] may also call back into the library. *)
Record RaftFSM := MkFSM {
  fsm_apply : Z -> Z -> RaftLogType -> Z -> Z -> M U Z;
  fsm_begin_snapshot : chars -> Z -> M fworld ();
  fsm_restore : chars -> M U Z
}.

(** What the snapshot worker needs: files, which are part of the state of the
    client here, and the function of a job, by its address; it is given the
    handle and the open file. *)
Record Host := MkHost {
  fopen : chars -> M U bool;
  call_func : Z -> Z -> chars -> M U Z;
  fclose : chars -> M U bool
}.

Definition in_shm {A : Type} (m : M world A) : M fworld A := zoom shm set_shm m.

(** A call of client code. *)
Definition call_user {A : Type} (m : M U A) : M fworld A := zoom user set_user m.

(** [mutex_lock l(slot->owned)] *)
Definition lock (p : Z) : M world () :=
  await (mutex_free p) ;;
  s ← get_slot p ;
  modify (update_slot p (set_owned true)).

(** [slot->timings.record(label)] *)
Definition record_at (p : Z) (label : chars) : M world () :=
  t ← now ;
  modify (update_slot p (record_timing label t)).

(** A method of the slot at [p] that can fail an assertion: [r] is how it ends. *)
Definition put_slot (p : Z) (r : res slot ()) : M world () := fun w =>
  match r with
  | Ret _ s' => Ret () (update_slot p (fun _ => s') w)
  | Fault f => Fault f
  | Throw _ => Throw w
  | Block _ => Block w
  end.

Definition slot_method (p : Z) (m : Z -> M slot ()) : M world () :=
  s ← get_slot p ;
  t ← now ;
  put_slot p (m t s).

Definition reply_at (p : Z) (err : RaftError) : M world () := slot_method p (reply err).
Definition reply_value_at (p v : Z) : M world () := slot_method p (reply_value (u64 v)).

(** [assert(strlen(slot.args.path) > 0)]; a path without a terminator is read
    past its end. *)
Definition path_of (s : slot) : M world chars :=
  match args s with
  | Filename path =>
      match c_str path with
      | Some str => assert (negb (bool_decide (str = []))) ;; mret str
      | None => fail OutOfBounds
      end
  | _ => fail BadPointer
  end.

(** ** Dispatch *)

Variable fsm : RaftFSM.

Definition dispatch_fsm_apply_cmd (p index term : Z) (ty : RaftLogType) (data_buf data_len : Z) :
    M fworld () :=
  assert (negb (data_buf =? 0)) ;;
  in_shm (modify (update_slot p (set_state Dispatched))) ;;
  in_shm (record_at p (lit "FSM call dispatched")) ;;
  response ← call_user (fsm_apply fsm index term ty (CIf.address_from_handle data_buf) data_len) ;
  in_shm (record_at p (lit "FSM command applied")) ;;
  in_shm (reply_value_at p response).

Definition dispatch_fsm_apply (p : Z) : M fworld () :=
  s ← in_shm (get_slot p) ;
  match args s with
  | LogEntry index term ty data_buf data_len =>
      match ty with
      | RAFT_LOG_COMMAND => dispatch_fsm_apply_cmd p index term ty data_buf data_len
      | RAFT_LOG_NOOP | RAFT_LOG_ADD_PEER | RAFT_LOG_REMOVE_PEER | RAFT_LOG_BARRIER => mret ()
      end
  | _ => fail BadPointer
  end.

Definition dispatch_fsm_snapshot (p : Z) : M fworld () :=
  s ← in_shm (get_slot p) ;
  path ← in_shm (path_of s) ;
  fsm_begin_snapshot fsm path p.

Definition dispatch_fsm_restore (p : Z) : M fworld () :=
  s ← in_shm (get_slot p) ;
  path ← in_shm (path_of s) ;
  result ← call_user (fsm_restore fsm path) ;
  in_shm (reply_at p (if result =? 0 then RAFT_SUCCESS else RAFT_E_OTHER)).

(** The lock is released before the snapshot is begun, and at the end of the
    function otherwise. *)
Definition fsm_worker_step : M fworld () :=
  rec ← in_shm (queue_take FsmQueue) ;
  let '(t, p) := rec in
  in_shm (lock p) ;;
  in_shm (record_at p (lit "FSM call received")) ;;
  s ← in_shm (get_slot p) ;
  assert (bool_decide (state s = Pending)) ;;
  match t with
  | FSMApply => dispatch_fsm_apply p ;; in_shm (unlock p)
  | FSMSnapshot => in_shm (unlock p) ;; dispatch_fsm_snapshot p
  | FSMRestore => dispatch_fsm_restore p ;; in_shm (unlock p)
  | _ => fail Aborted
  end.

(** [run_fsm_worker]: steps until the queue is closed.  [fuel] bounds the
    steps; running out of it is waiting. *)
Fixpoint fsm_worker_loop (fuel : nat) : M fworld () :=
  match fuel with
  | O => block
  | S n => fsm_worker_step ;; fsm_worker_loop n
  end.

Definition run_fsm_worker (fuel : nat) : M fworld () := catch (fsm_worker_loop fuel) (mret ()).

(** ** Snapshots *)

Definition raft_fsm_snapshot_complete (p : Z) (success : bool) : M fworld () :=
  in_shm (lock p) ;;
  in_shm (reply_at p (if success then RAFT_SUCCESS else RAFT_E_OTHER)) ;;
  in_shm (unlock p).

Definition raft_fsm_take_snapshot (req h f : Z) : M fworld () :=
  assert (negb (req =? 0)) ;;
  assert (negb (h =? 0)) ;;
  assert (negb (f =? 0)) ;;
  modify (set_snapshot_worker true) ;;
  zoom snapshot_queue set_snapshot_queue (Deque.put (MkJob req h f)).

Variable host : Host.

(** The file of a job: success is a file that opens, a function that returns 0
    and a file that closes. *)
Definition write_sink (path : chars) (f h : Z) : M U bool :=
  sink ← fopen host path ;
  if (sink : bool) then
    rc ← call_func host f h path ;
    closed ← fclose host path ;
    mret (if (closed : bool) then rc =? 0 else false)
  else mret false.

Definition run_snapshot_job (job : SnapshotJob) : M fworld () :=
  s ← in_shm (get_slot (job_slot job)) ;
  match args s with
  | Filename buf =>
      match c_str buf with
      | Some path =>
          success ← call_user (write_sink path (job_func job) (job_handle job)) ;
          raft_fsm_snapshot_complete (job_slot job) success
      | None => fail OutOfBounds
      end
  | _ => fail BadPointer
  end.

Fixpoint snapshot_worker_loop (fuel : nat) : M fworld () :=
  match fuel with
  | O => block
  | S n =>
      job ← zoom snapshot_queue set_snapshot_queue Deque.take ;
      run_snapshot_job job ;;
      snapshot_worker_loop n
  end.

Definition run_snapshot_worker (fuel : nat) : M fworld () :=
  catch (snapshot_worker_loop fuel) (mret ()).

End Code.
End FsmWorker.
