(* ===== verification/FsmSpec.v ===== *)
(** * Correctness of the FSM worker

    The worker calls the state machine once per command, in the order of the
    queue, and answers each call with its response; restores and snapshots are
    answered with the outcome that the client reports. *)

From stdpp Require Import base tactics list strings gmap relations.
From Stdlib Require Import ZArith Lia Ascii.
From S2P Require Import Prelude CString Defs ArrayQueue Deque Slot Shm ShmInv ShmSpec CIf FsmWorker.

Module FsmSpec.
Import CString Defs Slot Shm ShmSpec FsmWorker.

(** ** The segment *)

(** The world with the slot [s] at [p]. *)
Definition upd (p : Z) (s : slot) (w : world) : world := set_slots (<[p := s]> (slots w)) w.

Lemma upd_lookup p s w : slots (upd p s w) !! p = Some s.
Proof. apply lookup_insert_eq. Qed.

Lemma upd_upd p s s' w : upd p s' (upd p s w) = upd p s' w.
Proof. unfold upd. cbn. by rewrite insert_insert_eq. Qed.

Lemma update_upd p f s w : slots w !! p = Some s -> update_slot p f w = upd p (f s) w.
Proof.
  intros Hs. unfold update_slot, upd. f_equal. apply map_eq. intros q.
  destruct (decide (q = p)) as [->|].
  - by rewrite lookup_alter_eq, lookup_insert_eq, Hs.
  - by rewrite lookup_alter_ne, lookup_insert_ne.
Qed.

(** The FSM queue is open and holds [rs]. *)
Record queued (w : world) (rs : list call_rec) : Prop := Queued {
  qd_wf : ABQ.wf queue_capacity (get_queue FsmQueue w);
  qd_open : ABQ.closed (get_queue FsmQueue w) = false;
  qd_contents : ABQ.contents queue_capacity (get_queue FsmQueue w) = rs
}.

Lemma queue_take_eq w r rs :
  queued w (r :: rs) -> exists q', queue_take FsmQueue w = Ret r (set_queue FsmQueue q' w) /\
    queued (set_queue FsmQueue q' w) rs.
Proof.
  intros [Hwf Ho Hc].
  pose proof (ABQ.length_contents (Capacity := queue_capacity) ltac:(done) _ Hwf) as Hl.
  rewrite Hc in Hl. cbn [length] in Hl.
  assert (ABQ.empty (get_queue FsmQueue w) = false) as He by (unfold ABQ.empty; lia).
  destruct (ABQ.take_body_spec (Capacity := queue_capacity) ltac:(done) _ Hwf) as (v & q' & Ht & Hwf' & Hc' & _ & Hcl);
    [lia|].
  rewrite Hc in Hc'. injection Hc' as <- ->. exists q'. split.
  - unfold queue_take. erewrite bind_Ret by (apply await_now; rewrite He; apply orb_true_r).
    apply zoom_Ret. by apply ABQ.take_open.
  - constructor; cbn; [done|by rewrite Hcl|done].
Qed.

Lemma queue_take_closed which w :
  ABQ.closed (get_queue which w) = true -> queue_take which w = Throw w.
Proof.
  intros Hcl. unfold queue_take.
  erewrite bind_Ret by (apply await_now; unfold ABQ.check_closed; by rewrite Hcl).
  erewrite zoom_Throw by (by apply ABQ.take_closed). by destruct which, w as [? ? ? []].
Qed.

Lemma queued_upd p s w rs : queued w rs -> queued (upd p s w) rs.
Proof. by intros []. Qed.

Lemma lock_eq p s w :
  slots w !! p = Some s -> owned s = false -> lock p w = Ret () (upd p (set_owned true s) w).
Proof.
  intros Hs Ho. unfold lock.
  erewrite bind_Ret by (apply await_now; unfold mutex_free; by rewrite Hs, Ho).
  mstep. unfold modify. by rewrite (update_upd p _ s).
Qed.

Lemma unlock_eq p s w : slots w !! p = Some s -> unlock p w = Ret () (upd p (set_owned false s) w).
Proof. intros Hs. unfold unlock. by rewrite Hs, (update_upd p _ s). Qed.

Lemma record_at_eq p l s w :
  slots w !! p = Some s -> record_at p l w = Ret () (upd p (record_timing l (clock w) s) w).
Proof. intros Hs. unfold record_at. mstep. unfold modify. by rewrite (update_upd p _ s). Qed.

Lemma slot_method_eq p m s s' w :
  slots w !! p = Some s -> m (clock w) s = Ret () s' -> slot_method p m w = Ret () (upd p s' w).
Proof.
  intros Hs Hm. unfold slot_method. do 2 mstep. unfold put_slot. by rewrite Hm, (update_upd p _ s).
Qed.

Section Spec.
Context `{Segment} {U : Type}.
Implicit Types x : fworld (U := U).
Implicit Types u : U.

Lemma in_shm_Ret {A : Type} (m : M world A) a w w' sq sw (u : U) :
  m w = Ret a w' -> in_shm m (FWorld w sq sw u) = Ret a (FWorld w' sq sw u).
Proof. intros E. unfold in_shm. by erewrite zoom_Ret by done. Qed.

Lemma call_user_Ret {A : Type} (m : M U A) a w sq sw u u' :
  m u = Ret a u' -> call_user m (FWorld w sq sw u) = Ret a (FWorld w sq sw u').
Proof. intros E. unfold call_user. by erewrite zoom_Ret by done. Qed.

Variable fsm : RaftFSM (U := U).

(** A request that is ready for the worker. *)
Definition ready (w : world) (p : Z) (s : slot) : Prop :=
  slots w !! p = Some s /\ owned s = false /\ state s = Pending.

(** The slot when the worker has it. *)
Definition received (now : Z) (s : slot) : slot :=
  record_timing (lit "FSM call received") now (set_owned true s).

(** The worker up to the dispatch: the request has left the queue, and its slot
    is locked and otherwise as it was. *)
Lemma worker_receives w sq sw u t p s rs :
  queued w ((t, p) :: rs) -> ready w p s -> exists w0, queued w0 rs /\ slots w0 = slots w /\
    fsm_worker_step fsm (FWorld w sq sw u) =
    (match t with
     | FSMApply => dispatch_fsm_apply fsm p ;; in_shm (unlock p)
     | FSMSnapshot => in_shm (unlock p) ;; dispatch_fsm_snapshot fsm p
     | FSMRestore => dispatch_fsm_restore fsm p ;; in_shm (unlock p)
     | _ => fail Aborted
     end) (FWorld (upd p (received (clock w) s) w0) sq sw u).
Proof.
  intros Hq (Hs & Ho & Hst). destruct (queue_take_eq w _ _ Hq) as (q' & Ht & Hq').
  exists (set_queue FsmQueue q' w). split_and!; [done|done|].
  unfold fsm_worker_step. erewrite bind_Ret by (by apply in_shm_Ret). cbv beta iota zeta.
  erewrite bind_Ret by (apply in_shm_Ret; by apply lock_eq).
  erewrite bind_Ret by (apply in_shm_Ret, record_at_eq, upd_lookup). rewrite upd_upd.
  erewrite bind_Ret by (apply in_shm_Ret, get_slot_eq, upd_lookup).
  erewrite bind_Ret by (apply assert_true; cbn; by rewrite Hst, bool_decide_true).
  by destruct t.
Qed.

(** What the answer to a request leaves in its slot. *)
Definition answered_with (err : RaftError) (s s' : slot) : Prop :=
  tag s' = tag s /\ args s' = args s /\ client_state s' = client_state s /\ owned s' = false /\
  error s' = err /\ state s' = if decide (err = RAFT_SUCCESS) then Success else Error.

Lemma apply_step w sq sw u p s rs i tm b l resp u' :
  queued w ((FSMApply, p) :: rs) -> ready w p s ->
  args s = LogEntry i tm RAFT_LOG_COMMAND b l -> b <> 0 ->
  fsm_apply fsm i tm RAFT_LOG_COMMAND (CIf.address_from_handle b) l u = Ret resp u' ->
  exists w0 s', queued w0 rs /\ slots w0 = slots w /\
    fsm_worker_step fsm (FWorld w sq sw u) = Ret () (FWorld (upd p s' w0) sq sw u') /\
    answered_with RAFT_SUCCESS s s' /\ retval s' = u64 resp.
Proof.
  intros Hq Hr Ha Hb Hf. destruct (worker_receives w sq sw u _ p s rs Hq Hr) as (w0 & Hq0 & E & ->).
  eexists w0, _. split; [done|]. split; [done|]. split.
  - unfold dispatch_fsm_apply. erewrite bind_Ret.
    2:{ erewrite bind_Ret by (apply in_shm_Ret, get_slot_eq, upd_lookup). cbn [args received record_timing
          set_timings set_owned]. rewrite Ha. unfold dispatch_fsm_apply_cmd.
        erewrite bind_Ret by (by apply assert_true, negb_true_iff, Z.eqb_neq).
        erewrite bind_Ret by (apply in_shm_Ret; unfold modify; rewrite (update_upd p _ _ _ (upd_lookup _ _ _)),
          upd_upd; done).
        erewrite bind_Ret by (apply in_shm_Ret, record_at_eq, upd_lookup). rewrite upd_upd.
        erewrite bind_Ret by (by apply call_user_Ret).
        erewrite bind_Ret by (apply in_shm_Ret, record_at_eq, upd_lookup). rewrite upd_upd.
        apply in_shm_Ret. unfold reply_value_at. eapply slot_method_eq; [apply upd_lookup|].
        rewrite reply_value_eq. apply reply_open. done. }
    rewrite upd_upd. erewrite in_shm_Ret by (apply unlock_eq, upd_lookup). by rewrite upd_upd.
  - done.
Qed.

(** ** Many commands *)

(** [n] steps of the worker *)
Fixpoint worker_steps (n : nat) : M (fworld (U := U)) () :=
  match n with
  | O => mret ()
  | S n => fsm_worker_step fsm ;; worker_steps n
  end.

(** The reference: a state machine that is given the entries one by one, with
    its responses. *)
Definition apply_entry (a : call_args) : M U Z :=
  match a with
  | LogEntry i tm ty b l => fsm_apply fsm i tm ty (CIf.address_from_handle b) l
  | _ => fail BadPointer
  end.

Fixpoint replay (entries : list call_args) : M U (list Z) :=
  match entries with
  | [] => mret []
  | a :: rest => resp ← apply_entry a ; resps ← replay rest ; mret (resp :: resps)
  end.

Definition is_command (a : call_args) : Prop :=
  exists i tm b l, a = LogEntry i tm RAFT_LOG_COMMAND b l /\ b <> 0.

(** The requests at [ps] with the arguments [entries] are ready. *)
Definition commands_ready (w : world) (ps : list Z) (entries : list call_args) : Prop :=
  Forall2 (fun p a => exists s, ready w p s /\ args s = a /\ is_command a) ps entries.

(** The requests at [ps] have been answered with [resps]. *)
Definition commands_answered (w : world) (ps resps : list Z) : Prop :=
  Forall2 (fun p r => exists s, slots w !! p = Some s /\ state s = Success /\
    error s = RAFT_SUCCESS /\ retval s = u64 r /\ owned s = false) ps resps.

Lemma commands_ready_upd w w0 p s ps entries :
  p ∉ ps -> slots w0 = slots w -> commands_ready w ps entries ->
  commands_ready (upd p s w0) ps entries.
Proof.
  intros Hp Hs Hr. unfold commands_ready in *. induction Hr as [|q a ps entries Hq Hr IH]; [by constructor|].
  apply not_elem_of_cons in Hp as [Hne Hp]. constructor; [|by apply IH].
  destruct Hq as (s' & (Hl & Ho & Hst) & Ha). exists s'. split; [|done]. split; [|done].
  cbn. by rewrite lookup_insert_ne, Hs.
Qed.

Lemma worker_steps_eq ps rs entries w sq sw u resps u' :
  NoDup ps -> queued w (((FSMApply,.) <$> ps) ++ rs) -> commands_ready w ps entries ->
  replay entries u = Ret resps u' ->
  exists w', worker_steps (length ps) (FWorld w sq sw u) = Ret () (FWorld w' sq sw u') /\
    queued w' rs /\ commands_answered w' ps resps /\
    (forall q, q ∉ ps -> slots w' !! q = slots w !! q).
Proof.
  revert entries w u resps. induction ps as [|p ps IH]; intros entries w u resps Hnd Hq Hr Hrep.
  - inv Hr. injection Hrep as <- <-. exists w. split_and!; [done|done|by constructor|done].
  - inv Hr as [|? a ? rest Hp Hrest]. destruct Hp as (s & Hrd & <- & (i & tm & b & l & Ha & Hb)).
    apply NoDup_cons in Hnd as [Hni Hnd]. cbn [replay] in Hrep.
    apply bind_Ret_inv in Hrep as (resp & u1 & Ef & Hrep). rewrite Ha in Ef. cbn in Ef.
    apply bind_Ret_inv in Hrep as (resps' & u2 & Hrep & [= <- <-]).
    destruct (apply_step w sq sw u p s _ i tm b l resp u1 Hq Hrd Ha Hb Ef)
      as (w0 & s' & Hq0 & Hs0 & Hstep & (_ & _ & _ & Hown & Herr & Hst) & Hret).
    destruct (IH rest (upd p s' w0) u1 resps') as (w' & Hrun & Hq' & Hans & Hsame); [done|by apply queued_upd|
      by eapply commands_ready_upd|done|].
    exists w'. split_and!.
    + cbn [length worker_steps]. erewrite bind_Ret by done. done.
    + done.
    + constructor; [|done]. exists s'. rewrite Hsame by done. rewrite upd_lookup. split_and!; done.
    + intros q Hqn. apply not_elem_of_cons in Hqn as [Hne Hqn]. rewrite Hsame by done.
      cbn. by rewrite lookup_insert_ne, Hs0.
Qed.

(** ** Restores and snapshots *)

Lemma path_of_eq s path str w :
  args s = Filename path -> c_str path = Some str -> str <> [] -> path_of s w = Ret str w.
Proof.
  intros Ha Hc Hne. unfold path_of. rewrite Ha, Hc, bool_decide_false by done. done.
Qed.

Lemma reply_at_eq p err s w :
  slots w !! p = Some s -> is_terminal (state s) = false -> exists s',
    reply_at p err w = Ret () (upd p s' w) /\ tag s' = tag s /\ args s' = args s /\
    client_state s' = client_state s /\ owned s' = owned s /\ error s' = err /\
    state s' = if decide (err = RAFT_SUCCESS) then Success else Error.
Proof.
  intros Hs Ht. eexists. split; [eapply slot_method_eq; [done|by apply reply_open]|]. done.
Qed.

Lemma restore_step w sq sw u p s rs path str rc u' :
  queued w ((FSMRestore, p) :: rs) -> ready w p s ->
  args s = Filename path -> c_str path = Some str -> str <> [] ->
  fsm_restore fsm str u = Ret rc u' ->
  exists w0 s', queued w0 rs /\ slots w0 = slots w /\
    fsm_worker_step fsm (FWorld w sq sw u) = Ret () (FWorld (upd p s' w0) sq sw u') /\
    answered_with (if rc =? 0 then RAFT_SUCCESS else RAFT_E_OTHER) s s'.
Proof.
  intros Hq Hr Ha Hc Hne Hf.
  destruct (worker_receives w sq sw u _ p s rs Hq Hr) as (w0 & Hq0 & E & ->).
  set (err := if rc =? 0 then RAFT_SUCCESS else RAFT_E_OTHER).
  destruct (reply_at_eq p err _ (upd p (received (clock w) s) w0) (upd_lookup _ _ _)) as
    (s' & Hrep & E1 & E2 & E3 & E4 & E5 & E6); [cbn; by destruct Hr as (_ & _ & ->)|].
  exists w0, (set_owned false s'). split_and!; [done|done| |done].
  unfold dispatch_fsm_restore. erewrite bind_Ret.
  2:{ erewrite bind_Ret by (apply in_shm_Ret, get_slot_eq, upd_lookup).
      erewrite bind_Ret by (apply in_shm_Ret; by eapply path_of_eq).
      erewrite bind_Ret by (by apply call_user_Ret). by apply in_shm_Ret. }
  rewrite upd_upd. erewrite in_shm_Ret by (apply unlock_eq, upd_lookup). by rewrite upd_upd.
Qed.

(** The worker gives the lock back before the client begins a snapshot. *)
Lemma snapshot_step w sq sw u p s rs path str :
  queued w ((FSMSnapshot, p) :: rs) -> ready w p s ->
  args s = Filename path -> c_str path = Some str -> str <> [] ->
  exists w0 s', queued w0 rs /\ slots w0 = slots w /\ ready (upd p s' w0) p s' /\
    tag s' = tag s /\ args s' = args s /\ client_state s' = client_state s /\
    fsm_worker_step fsm (FWorld w sq sw u) =
      fsm_begin_snapshot fsm str p (FWorld (upd p s' w0) sq sw u).
Proof.
  intros Hq Hr Ha Hc Hne.
  destruct (worker_receives w sq sw u _ p s rs Hq Hr) as (w0 & Hq0 & E & ->).
  exists w0, (set_owned false (received (clock w) s)). destruct Hr as (_ & _ & Hst).
  split_and!; try done.
  - split; [apply upd_lookup|]. by split.
  - erewrite bind_Ret by (apply in_shm_Ret, unlock_eq, upd_lookup). rewrite upd_upd.
    unfold dispatch_fsm_snapshot.
    erewrite bind_Ret by (apply in_shm_Ret, get_slot_eq, upd_lookup).
    by erewrite bind_Ret by (apply in_shm_Ret; by eapply path_of_eq).
Qed.

Lemma snapshot_complete_eq p s w sq sw u (ok : bool) :
  ready w p s -> exists s',
    raft_fsm_snapshot_complete p ok (FWorld w sq sw u) = Ret () (FWorld (upd p s' w) sq sw u) /\
    answered_with (if ok then RAFT_SUCCESS else RAFT_E_OTHER) s s'.
Proof.
  intros (Hs & Ho & Hst). set (err := if ok then RAFT_SUCCESS else RAFT_E_OTHER).
  destruct (reply_at_eq p err _ (upd p (set_owned true s) w) (upd_lookup _ _ _)) as
    (s' & Hrep & E1 & E2 & E3 & E4 & E5 & E6); [cbn; by rewrite Hst|].
  exists (set_owned false s'). split; [|done]. unfold raft_fsm_snapshot_complete.
  erewrite bind_Ret by (apply in_shm_Ret; by apply lock_eq).
  erewrite bind_Ret by (by apply in_shm_Ret). rewrite upd_upd.
  erewrite in_shm_Ret by (apply unlock_eq, upd_lookup). by rewrite upd_upd.
Qed.

Lemma run_snapshot_job_eq host p h f s w sq sw u u' (ok : bool) path str :
  ready w p s -> args s = Filename path -> c_str path = Some str ->
  write_sink host str f h u = Ret ok u' -> exists s',
    run_snapshot_job host (MkJob p h f) (FWorld w sq sw u) = Ret () (FWorld (upd p s' w) sq sw u') /\
    answered_with (if ok then RAFT_SUCCESS else RAFT_E_OTHER) s s'.
Proof.
  intros Hr Ha Hc Hw. destruct (snapshot_complete_eq p s w sq sw u' ok Hr) as (s' & Hrun & Hans).
  exists s'. split; [|done]. unfold run_snapshot_job.
  erewrite bind_Ret by (apply in_shm_Ret, get_slot_eq; by destruct Hr). rewrite Ha, Hc.
  by erewrite bind_Ret by (by apply call_user_Ret).
Qed.

(** [write_sink] on its branches. *)
Lemma write_sink_eq host str f h u rc u1 u2 u3 (closes : bool) :
  fopen host str u = Ret true u1 -> call_func host f h str u1 = Ret rc u2 ->
  fclose host str u2 = Ret closes u3 ->
  write_sink host str f h u = Ret (closes && (rc =? 0)) u3.
Proof.
  intros Ho Hf Hc. unfold write_sink. erewrite bind_Ret by done. cbn.
  erewrite bind_Ret by done. erewrite bind_Ret by done. by destruct closes.
Qed.

(** ** Workers on closed queues *)

Lemma fsm_worker_closed n x :
  ABQ.closed (fsm_queue (scoreboard (shm x))) = true ->
  run_fsm_worker fsm (S n) x = Ret () x.
Proof.
  intros Hcl. destruct x as [w sq sw u]. unfold run_fsm_worker, catch. cbn [fsm_worker_loop].
  unfold fsm_worker_step, mbind, M_bind, in_shm, zoom. cbn [shm].
  by rewrite (queue_take_closed FsmQueue).
Qed.

Lemma snapshot_worker_closed host n x :
  Deque.closed (snapshot_queue x) = true -> run_snapshot_worker host (S n) x = Ret () x.
Proof.
  intros Hcl. destruct x as [w sq sw u]. unfold run_snapshot_worker, catch. cbn [snapshot_worker_loop].
  unfold mbind, M_bind, zoom, Deque.take, Deque.take_section. cbn in *. by rewrite Hcl.
Qed.

(** ** Properties *)

(** C11: The FSM worker is the replicated state machine it is meant to be: when
    the queue begins with command requests, as many steps of the worker call the
    client's [apply] once per command, in the order of the queue, and answer
    each request with the response to its own command; the final state of the
    client is that of applying the log entries one after the other, the rest of
    the queue is still there, and no other slot is touched. *)
Theorem fsm_worker_replays ps rs entries w sq sw u resps u' :
  NoDup ps -> queued w (((FSMApply,.) <$> ps) ++ rs) -> commands_ready w ps entries ->
  replay entries u = Ret resps u' ->
  exists w', worker_steps (length ps) (FWorld w sq sw u) = Ret () (FWorld w' sq sw u') /\
    queued w' rs /\ commands_answered w' ps resps /\
    (forall q, q ∉ ps -> slots w' !! q = slots w !! q).
Proof. apply worker_steps_eq. Qed.

(** A restore request is answered with success exactly if the client's
    [restore] returns 0, and with [RAFT_E_OTHER] otherwise; the slot is unlocked
    and the other slots are as they were. *)
Theorem fsm_restore_answered w sq sw u p s rs path str rc u' :
  queued w ((FSMRestore, p) :: rs) -> ready w p s ->
  args s = Filename path -> c_str path = Some str -> str <> [] ->
  fsm_restore fsm str u = Ret rc u' ->
  exists w' s', fsm_worker_step fsm (FWorld w sq sw u) = Ret () (FWorld w' sq sw u') /\
    queued w' rs /\ slots w' = <[p := s']> (slots w) /\ owned s' = false /\
    (rc = 0 -> state s' = Success /\ error s' = RAFT_SUCCESS) /\
    (rc <> 0 -> state s' = Error /\ error s' = RAFT_E_OTHER).
Proof.
  intros Hq Hr Ha Hc Hne Hf.
  destruct (restore_step w sq sw u p s rs path str rc u' Hq Hr Ha Hc Hne Hf)
    as (w0 & s' & Hq0 & Hs0 & Hst & (_ & _ & _ & Ho & He & Hs)).
  exists (upd p s' w0), s'. split_and!; [done|by apply queued_upd| |done|..].
  - cbn. by rewrite Hs0.
  - intros ->. by rewrite He, Hs.
  - intros Hrc. rewrite (proj2 (Z.eqb_neq rc 0) Hrc) in He, Hs. by rewrite He, Hs.
Qed.

(** A snapshot that the client defers: the job is queued, the request is pending
    and unlocked, and the snapshot worker answers it. *)
Lemma snapshot_deferred_eq host w u u1 u' p s rs path str h f (ok : bool) :
  queued w ((FSMSnapshot, p) :: rs) -> ready w p s ->
  args s = Filename path -> c_str path = Some str -> str <> [] ->
  (forall w0, fsm_begin_snapshot fsm str p (FWorld w0 (Deque.Dq [] false) false u) =
     raft_fsm_take_snapshot p h f (FWorld w0 (Deque.Dq [] false) false u1)) ->
  p <> 0 -> h <> 0 -> f <> 0 -> write_sink host str f h u1 = Ret ok u' ->
  exists w1 s1 s2,
    fsm_worker_step fsm (FWorld w (Deque.Dq [] false) false u) =
      Ret () (FWorld w1 (Deque.Dq [MkJob p h f] false) true u1) /\
    queued w1 rs /\ ready w1 p s1 /\ (forall q, q <> p -> slots w1 !! q = slots w !! q) /\
    (job ← zoom snapshot_queue set_snapshot_queue Deque.take ; run_snapshot_job host job)
      (FWorld w1 (Deque.Dq [MkJob p h f] false) true u1) =
      Ret () (FWorld (upd p s2 w1) (Deque.Dq [] false) true u') /\
    answered_with (if ok then RAFT_SUCCESS else RAFT_E_OTHER) s s2.
Proof.
  intros Hq Hr Ha Hc Hne Hb Hp Hh Hf Hw.
  destruct (snapshot_step w (Deque.Dq [] false) false u p s rs path str Hq Hr Ha Hc Hne)
    as (w0 & s1 & Hq0 & Hs0 & Hr1 & Et & Ha1 & Ec & Hst).
  destruct (run_snapshot_job_eq host p h f s1 (upd p s1 w0) (Deque.Dq [] false) true u1 u' ok path str)
    as (s2 & Hrun & (E1 & E2 & E3 & E4)); [done|congruence|done|done|].
  exists (upd p s1 w0), s1, s2. split_and!; [|by apply queued_upd|done| |by rewrite <- Hrun|].
  - rewrite Hst, Hb. unfold raft_fsm_take_snapshot.
    rewrite !(fun z => proj2 (Z.eqb_neq z 0)) by done. done.
  - intros q Hqp. cbn. by rewrite lookup_insert_ne, Hs0 by done.
  - split_and!; try congruence; apply E4.
Qed.

(** C36: A snapshot that the client defers with [raft_fsm_take_snapshot] is
    answered by the snapshot worker: with success exactly if the file could be
    opened, the client's function returned 0 and the file could be closed, and
    with [RAFT_E_OTHER] otherwise. Until then the request is pending and
    unlocked, so that the FSM worker goes on with the other requests. *)
Theorem fsm_snapshot_deferred host w u u1 p s rs path str h f :
  queued w ((FSMSnapshot, p) :: rs) -> ready w p s ->
  args s = Filename path -> c_str path = Some str -> str <> [] ->
  (forall w0, fsm_begin_snapshot fsm str p (FWorld w0 (Deque.Dq [] false) false u) =
     raft_fsm_take_snapshot p h f (FWorld w0 (Deque.Dq [] false) false u1)) ->
  p <> 0 -> h <> 0 -> f <> 0 ->
  forall rc u2 u3 u4 opens closes,
  fopen host str u1 = Ret opens u2 -> call_func host f h str u2 = Ret rc u3 ->
  fclose host str u3 = Ret closes u4 ->
  exists w1 s1 s2,
    fsm_worker_step fsm (FWorld w (Deque.Dq [] false) false u) =
      Ret () (FWorld w1 (Deque.Dq [MkJob p h f] false) true u1) /\
    queued w1 rs /\ ready w1 p s1 /\
    (job ← zoom snapshot_queue set_snapshot_queue Deque.take ; run_snapshot_job host job)
      (FWorld w1 (Deque.Dq [MkJob p h f] false) true u1) =
      Ret () (FWorld (upd p s2 w1) (Deque.Dq [] false) true (if opens then u4 else u2)) /\
    error s2 = (if opens && closes && (rc =? 0) then RAFT_SUCCESS else RAFT_E_OTHER) /\
    state s2 = (if opens && closes && (rc =? 0) then Success else Error) /\ owned s2 = false.
Proof.
  intros Hq Hr Ha Hc Hne Hb Hp Hh Hf rc u2 u3 u4 opens closes Ho Hcall Hcl.
  assert (write_sink host str f h u1 = Ret (opens && closes && (rc =? 0)) (if opens then u4 else u2)) as Hw.
  { destruct opens; [by eapply write_sink_eq|]. unfold write_sink. by erewrite bind_Ret by done. }
  destruct (snapshot_deferred_eq host w u u1 _ p s rs path str h f _ Hq Hr Ha Hc Hne Hb Hp Hh Hf Hw)
    as (w1 & s1 & s2 & H1 & H2 & H3 & _ & H4 & (_ & _ & _ & Ho2 & He & Hs)).
  exists w1, s1, s2. split_and!; try done.
  rewrite Hs. by destruct (opens && closes && (rc =? 0)).
Qed.

(** A client that completes the snapshot inside its callback does not lock
    itself out: the worker has released the mutex of the request, so that
    [raft_fsm_snapshot_complete] takes it, answers, and the step returns. *)
Theorem fsm_snapshot_immediate w sq sw u p s rs path str ok :
  queued w ((FSMSnapshot, p) :: rs) -> ready w p s ->
  args s = Filename path -> c_str path = Some str -> str <> [] ->
  (forall pth req, fsm_begin_snapshot fsm pth req = raft_fsm_snapshot_complete req ok) ->
  exists w' s', fsm_worker_step fsm (FWorld w sq sw u) = Ret () (FWorld w' sq sw u) /\
    queued w' rs /\ slots w' !! p = Some s' /\
    answered_with (if ok then RAFT_SUCCESS else RAFT_E_OTHER) s s'.
Proof.
  intros Hq Hr Ha Hc Hne Hb.
  destruct (snapshot_step w sq sw u p s rs path str Hq Hr Ha Hc Hne)
    as (w0 & s1 & Hq0 & Hs0 & Hr1 & E1 & E2 & E3 & Hst).
  destruct (snapshot_complete_eq p s1 (upd p s1 w0) sq sw u ok Hr1) as (s2 & Hrun & Hans).
  exists (upd p s2 (upd p s1 w0)), s2. split_and!; [by rewrite Hst, Hb|by do 2 apply queued_upd| |].
  - apply upd_lookup.
  - unfold answered_with in *. by rewrite <- E1, <- E2, <- E3.
Qed.

(** Closing the FSM queue stops the worker at its next step, whatever the
    queue still holds: [take] looks at [closed] first, so the requests that are
    left are never answered. *)
Theorem fsm_worker_stops_on_close n x :
  ABQ.closed (fsm_queue (scoreboard (shm x))) = true ->
  run_fsm_worker fsm (S n) x = Ret () x.
Proof. apply fsm_worker_closed. Qed.

End Spec.

(** ** Concrete runs: a state machine that adds up the lengths of its commands *)

Definition adder : RaftFSM (U := Z) := {|
  fsm_apply _ _ _ _ len u := Ret (u + len) (u + len);
  fsm_begin_snapshot _ req := raft_fsm_take_snapshot req 1 2;
  fsm_restore _ u := Ret (if u =? 0 then 0 else 1) 0
|}.

Definition adder_now : RaftFSM (U := Z) := {|
  fsm_apply _ _ _ _ len u := Ret (u + len) (u + len);
  fsm_begin_snapshot _ req := raft_fsm_snapshot_complete req true;
  fsm_restore _ u := Ret 0 u
|}.

Definition disk : Host (U := Z) := 
  MkHost (fun _ u => Ret true u) (fun _ _ _ u => Ret 0 u) (fun _ u => Ret false u).

Definition entry1 : call_args := LogEntry 1 1 RAFT_LOG_COMMAND 8 5.
Definition entry2 : call_args := LogEntry 2 1 RAFT_LOG_COMMAND 24 7.

Definition demo_path : chars := lit "/tmp/snap" ++ replicate 247 NUL.

(** The Raft process has sent two commands; or a restore; or a snapshot request. *)
Definition demo_cmds : world :=
  run_envs [ERaftSend 4096 FSMApply entry1; ERaftSend 4352 FSMApply entry2] (init_world false []).
Definition demo_restore : world :=
  run_env (ERaftSend 4096 FSMRestore (Filename demo_path)) (init_world false []).
Definition demo_snapshot : world :=
  run_env (ERaftSend 4096 FSMSnapshot (Filename demo_path)) (init_world false []).

Lemma queued_demo w rs :
  ABQ.closed (get_queue FsmQueue w) = false ->
  ABQ.contents queue_capacity (get_queue FsmQueue w) = rs ->
  Z.of_nat (length (ABQ.array (get_queue FsmQueue w))) = 8 ->
  ABQ.tail (get_queue FsmQueue w) = 0 -> 0 <= ABQ.count (get_queue FsmQueue w) <= 8 ->
  ABQ.head (get_queue FsmQueue w) = ABQ.count (get_queue FsmQueue w) mod 8 -> queued w rs.
Proof.
  intros H1 H2 H3 H4 H5 H6. constructor; [|done|done].
  constructor; [done|rewrite H4; unfold queue_capacity; lia|done|by rewrite H4].
Qed.

Ltac demo_queued := apply queued_demo; vm_compute; try reflexivity; by split.
Ltac demo_ready := split; [vm_compute; reflexivity|by split].

Lemma fsm_worker_replays_witness :
  exists w', worker_steps adder 2 (FWorld demo_cmds (Deque.Dq [] false) false 10) =
      Ret () (FWorld w' (Deque.Dq [] false) false 22) /\
    commands_answered w' [4096; 4352] [15; 22].
Proof.
  destruct (fsm_worker_replays adder [4096; 4352] [] [entry1; entry2] demo_cmds (Deque.Dq [] false) false 10
    [15; 22] 22) as (w' & Hrun & _ & Hans & _).
  - by apply (bool_decide_unpack _).
  - demo_queued.
  - repeat constructor; eexists; (split; [demo_ready|]); (split; [reflexivity|]);
      by repeat eexists.
  - reflexivity.
  - exists w'. split; [exact Hrun|exact Hans].
Defined.

Lemma fsm_restore_answered_witness :
  exists w' s', fsm_worker_step adder (FWorld demo_restore (Deque.Dq [] false) false 3) =
      Ret () (FWorld w' (Deque.Dq [] false) false 0) /\
    slots w' = <[4096 := s']> (slots demo_restore) /\ error s' = RAFT_E_OTHER.
Proof.
  destruct (fsm_restore_answered adder demo_restore (Deque.Dq [] false) false 3 4096
    (new_slot FSMRestore (Filename demo_path)) [] demo_path (lit "/tmp/snap") 1 0)
    as (w' & s' & Hrun & _ & Hs & _ & _ & Hne);
    [demo_queued|demo_ready|reflexivity..|done|reflexivity|].
  exists w', s'. split; [exact Hrun|]. split; [exact Hs|]. by apply Hne.
Defined.

Lemma fsm_snapshot_deferred_witness :
  exists w1 s2, fsm_worker_step adder (FWorld demo_snapshot (Deque.Dq [] false) false 3) =
      Ret () (FWorld w1 (Deque.Dq [MkJob 4096 1 2] false) true 3) /\
    (job ← zoom snapshot_queue set_snapshot_queue Deque.take ; run_snapshot_job disk job)
      (FWorld w1 (Deque.Dq [MkJob 4096 1 2] false) true 3) =
      Ret () (FWorld (upd 4096 s2 w1) (Deque.Dq [] false) true 3) /\ error s2 = RAFT_E_OTHER.
Proof.
  destruct (fsm_snapshot_deferred adder disk demo_snapshot 3 3 4096
    (new_slot FSMSnapshot (Filename demo_path)) [] demo_path (lit "/tmp/snap") 1 2)
    with (rc := 0) (u2 := 3) (u3 := 3) (u4 := 3) (opens := true) (closes := false)
    as (w1 & s1 & s2 & Hrun & _ & _ & Hjob & He & _);
    [demo_queued|demo_ready|reflexivity..|done|reflexivity|done|done|done|reflexivity|reflexivity|reflexivity|].
  exists w1, s2. split; [exact Hrun|]. split; [exact Hjob|exact He].
Defined.

Lemma fsm_snapshot_immediate_witness :
  exists w' s', fsm_worker_step adder_now (FWorld demo_snapshot (Deque.Dq [] false) false 3) =
      Ret () (FWorld w' (Deque.Dq [] false) false 3) /\
    slots w' !! 4096 = Some s' /\ state s' = Success.
Proof.
  destruct (fsm_snapshot_immediate adder_now demo_snapshot (Deque.Dq [] false) false 3 4096
    (new_slot FSMSnapshot (Filename demo_path)) [] demo_path (lit "/tmp/snap") true)
    as (w' & s' & Hrun & _ & Hs & Hans);
    [demo_queued|demo_ready|reflexivity..|done|done|].
  exists w', s'. split; [exact Hrun|]. split; [exact Hs|]. by apply Hans.
Defined.

Lemma fsm_worker_stops_on_close_witness :
  let x := FWorld (set_queue FsmQueue (ABQ.close_body (get_queue FsmQueue demo_cmds)) demo_cmds)
    (Deque.Dq [] false) false 10 in
  run_fsm_worker adder 5 x = Ret () x /\
  ABQ.contents queue_capacity (fsm_queue (scoreboard (shm x))) = [(FSMApply, 4096); (FSMApply, 4352)].
Proof. intros x. split; [by apply (fsm_worker_stops_on_close adder 4 x)|by vm_compute]. Defined.

End FsmSpec.
