(* ===== verification/System.v ===== *)
(** * The whole system

    Clients, the collector, the Raft process and the FSM worker on one segment,
    as a step relation over the operations of the components.  A client thread
    that sends a request builds its slot and then puts it on the queue, two
    steps between which the others run.  The Raft process answers the calls it
    has taken, each once, and frees its own calls when they are answered; that is
    what the C++ side relies on. *)

From stdpp Require Import base tactics list strings gmap relations.
From Stdlib Require Import ZArith Lia Permutation.
From S2P Require Import Prelude CString Defs ArrayQueue Deque Slot Shm ShmInv ShmSpec Orphans Collector Ledger CIf FsmWorker FsmSpec.

Module System.
Import CString Defs Slot Shm ShmSpec Orphans Collector Ledger FsmWorker.

Section System.
Context `{Segment}.

(** ** Parts of the operations *)

(** [send_request] up to the queue *)
Definition build_request (t : CallTag) (a : call_args) : M world Z :=
  start_t ← now ;
  p ← alloc_request t a ;
  built_t ← now ;
  modify (update_slot p (set_timings (start_timings (entries zero_timings) start_t))) ;;
  modify (update_slot p (record_timing (lit "constructed") built_t)) ;;
  mret p.

Lemma send_request_split which ok t a w :
  send_request which ok t a w =
    (p ← build_request t a ;
     catch (queue_put which (t, p)) (if ok then throw else modify (set_failed p RAFT_E_IN_SHUTDOWN)) ;;
     mret p) w.
Proof.
  unfold send_request, build_request, now, mbind, M_bind, modify, mret, M_ret.
  by destruct (alloc_request t a w).
Qed.

(** [fsm_worker_step] up to the dispatch *)
Definition fsm_lock (rec : call_rec) : M world call_rec :=
  lock rec.2 ;;
  record_at rec.2 (lit "FSM call received") ;;
  s ← get_slot rec.2 ;
  assert (bool_decide (state s = Pending)) ;;
  mret rec.

Definition fsm_receive : M world call_rec :=
  rec ← queue_take FsmQueue ;
  fsm_lock rec.

(** The same from where [take] has let the worker pass. *)
Definition fsm_receive_checked : M world call_rec :=
  rec ← zoom (get_queue FsmQueue) (set_queue FsmQueue) (ABQ.take_checked queue_capacity) ;
  fsm_lock rec.

(** [dispatch_fsm_apply_cmd] before the client's [apply], and after it up to the
    end of the worker's lock *)
Definition fsm_dispatch (p : Z) : M world () :=
  modify (update_slot p (set_state Dispatched)) ;;
  record_at p (lit "FSM call dispatched").

Definition fsm_applied (p v : Z) : M world () :=
  record_at p (lit "FSM command applied") ;;
  reply_value_at p v ;;
  unlock p.

(** The end of [dispatch_fsm_restore] and of the worker's lock *)
Definition fsm_restored (p : Z) (ok : bool) : M world () :=
  reply_at p (if ok then RAFT_SUCCESS else RAFT_E_OTHER) ;;
  unlock p.

(** [raft_fsm_snapshot_complete] *)
Definition snapshot_done (p : Z) (ok : bool) : M world () :=
  lock p ;;
  reply_at p (if ok then RAFT_SUCCESS else RAFT_E_OTHER) ;;
  unlock p.

(** Together these parts are the functions of the worker. *)
Section Parts.
Context {U : Type} (fsm : @RaftFSM U).

Lemma in_shm_bind {A B : Type} (m : M world A) (k : A -> M world B) (x : @fworld U) :
  in_shm (a ← m ; k a) x = (a ← in_shm m ; in_shm (k a)) x.
Proof.
  destruct x as [w sq sw u]. unfold in_shm, zoom, mbind, M_bind. cbn. by destruct (m w).
Qed.

Definition fsm_dispatch_call (rec : call_rec) : M (@fworld U) () :=
  match rec.1 with
  | FSMApply => dispatch_fsm_apply fsm rec.2 ;; in_shm (unlock rec.2)
  | FSMSnapshot => in_shm (unlock rec.2) ;; dispatch_fsm_snapshot fsm rec.2
  | FSMRestore => dispatch_fsm_restore fsm rec.2 ;; in_shm (unlock rec.2)
  | _ => fail Aborted
  end.

Lemma fsm_worker_step_split x :
  fsm_worker_step fsm x = (rec ← in_shm fsm_receive ; fsm_dispatch_call rec) x.
Proof.
  unfold fsm_receive, fsm_lock. symmetry. etrans; [apply bind_congr; [apply in_shm_bind|done]|]. rewrite bind_bind.
  apply bind_congr; [done|]. intros [t p] y. cbn [fst snd].
  etrans; [apply bind_congr; [apply in_shm_bind|done]|]. rewrite bind_bind. apply bind_congr; [done|]. intros _ y1.
  etrans; [apply bind_congr; [apply in_shm_bind|done]|]. rewrite bind_bind. apply bind_congr; [done|]. intros _ y2.
  etrans; [apply bind_congr; [apply in_shm_bind|done]|]. rewrite bind_bind. apply bind_congr; [done|]. intros sl y3.
  destruct y3 as [w sq sw u]. unfold in_shm, zoom, mbind, M_bind, assert. cbn. by case_bool_decide.
Qed.

Lemma dispatch_fsm_apply_cmd_split p index term ty b n x :
  (dispatch_fsm_apply_cmd fsm p index term ty b n ;; in_shm (unlock p)) x =
    (assert (negb (b =? 0)) ;;
     in_shm (fsm_dispatch p) ;;
     response ← call_user (fsm_apply fsm index term ty (CIf.address_from_handle b) n) ;
     in_shm (fsm_applied p response)) x.
Proof.
  unfold dispatch_fsm_apply_cmd. rewrite bind_bind. apply bind_congr; [done|]. intros _ y.
  symmetry. etrans; [apply bind_congr; [apply in_shm_bind|done]|]. rewrite !bind_bind.
  apply bind_congr; [done|]. intros _ y1. rewrite bind_bind. apply bind_congr; [done|]. intros _ y2.
  rewrite bind_bind. apply bind_congr; [done|]. intros v y3. rewrite bind_bind.
  etrans; [apply in_shm_bind|]. apply bind_congr; [done|]. intros _ y4. apply in_shm_bind.
Qed.

Lemma dispatch_fsm_restore_split p x :
  (dispatch_fsm_restore fsm p ;; in_shm (unlock p)) x =
    (s ← in_shm (get_slot p) ;
     path ← in_shm (path_of s) ;
     result ← call_user (fsm_restore fsm path) ;
     in_shm (fsm_restored p (result =? 0))) x.
Proof.
  unfold dispatch_fsm_restore. rewrite bind_bind. apply bind_congr; [done|]. intros sl y. rewrite bind_bind.
  apply bind_congr; [done|]. intros path y1. rewrite bind_bind. apply bind_congr; [done|]. intros result y2.
  symmetry. apply in_shm_bind.
Qed.

Lemma raft_fsm_snapshot_complete_split p ok (x : @fworld U) :
  raft_fsm_snapshot_complete p ok x = in_shm (snapshot_done p ok) x.
Proof.
  symmetry. etrans; [apply in_shm_bind|]. apply bind_congr; [done|]. intros _ y. apply in_shm_bind.
Qed.
End Parts.

(** ** States *)

(** The segment with, outside of it, the requests that clients and the Raft
    process have built and are about to queue, the futures that clients hold, the
    calls that the Raft process has taken, its own calls, those that the FSM worker
    has taken and holds the mutex of, and those whose mutex it has given back
    without an answer.  The last two are what an exception leaves behind during the
    shutdown: [lost] are the calls to the state machine whose [put] found the queue
    closed, which nobody has a pointer to, and [leaked] the calls whose [dispose]
    found the deque of the collector closed. *)
Record sys := Sys {
  shm : world;
  sending : list call_rec;
  futures : list Z;
  raft_calls : list call_rec;
  guests : list Z;
  fsm_taken : list call_rec;
  released : list call_rec;
  lost : list call_rec;
  leaked : list Z
}.

Definition set_shm (w : world) (s : sys) : sys :=
  Sys w (sending s) (futures s) (raft_calls s) (guests s) (fsm_taken s) (released s) (lost s) (leaked s).

(** ** Steps *)

(** A client lets only one call at a time use a buffer. *)
Definition unclaimed (w : world) (b : Z) : Prop := forall q, ~ claims (slots w) q b.
Definition ready (w : world) (b : Z) : Prop := is_Some (bufs w !! b) /\ unclaimed w b.

#[local] Instance which_queue_eq_dec : EqDecision which_queue.
Proof. solve_decision. Defined.

(** A call of the Raft process to the state machine. *)
Definition is_fsm (t : CallTag) : bool := existsb (fun c => bool_decide (call_tag c = t)) raft_fsm_calls.

Definition is_command (a : call_args) : bool :=
  match a with LogEntry _ _ RAFT_LOG_COMMAND _ _ => true | _ => false end.

(** What the worker does with a call that it has taken: it hands commands to the
    client, gives the lock back for a snapshot, and just gives it back for any
    other log entry. *)
Definition gives_back (t : CallTag) (a : call_args) : bool :=
  match t with FSMApply => negb (is_command a) | FSMSnapshot => true | _ => false end.

(** A client gives up a call whose command nobody else uses. *)
Definition may_give_up (p : Z) (w : world) : Prop :=
  forall sl b, slots w !! p = Some sl -> client_state sl = Issued -> in_use sl = false ->
    buffer_of (args sl) = Some b -> ready w b.

(** [put] and [take] are the parts after the first [check_closed]: a thread that
    has passed it before the queue is closed may still put or take, or finds the
    queue closed when it wakes up, or sleeps for ever, which is that it does not
    take a step.  [sent_slot] is the slot with the times that [send_request]
    records.  The worker asserts [worker_args] of the calls that it gets. *)
Inductive act_step : sys -> sys -> Prop :=
  (* clients *)
  | st_alloc len s b w : alloc_raft_buffer len (shm s) = Ret b w -> act_step s (set_shm w s)
  | st_free b s w : unclaimed (shm s) b -> free_raft_buffer b (shm s) = Ret () w -> act_step s (set_shm w s)
  | st_build t a s p w :
      typed t a = true -> is_fsm t = false ->
      (forall b, buffer_of a = Some b -> ready (shm s) b) -> build_request t a (shm s) = Ret p w ->
      act_step s (Sys w ((t, p) :: sending s) (futures s) (raft_calls s) (guests s) (fsm_taken s) (released s)
        (lost s) (leaked s))
  | st_put r s l q :
      sending s ≡ₚ r :: l -> is_fsm r.1 = false ->
      ABQ.put_checked queue_capacity r (get_queue ApiQueue (shm s)) = Ret () q ->
      act_step s (Sys (set_queue ApiQueue q (shm s)) l (r.2 :: futures s) (raft_calls s) (guests s) (fsm_taken s)
        (released s) (lost s) (leaked s))
  | st_put_closed r s l :
      sending s ≡ₚ r :: l -> is_fsm r.1 = false -> ABQ.check_closed (get_queue ApiQueue (shm s)) = true ->
      act_step s (Sys (set_failed r.2 RAFT_E_IN_SHUTDOWN (shm s)) l (r.2 :: futures s)
        (raft_calls s) (guests s) (fsm_taken s) (released s) (lost s) (leaked s))
  | st_error err t a s p w :
      typed t a = true -> is_fsm t = false -> make_error_request err t a (shm s) = Ret p w ->
      act_step s (Sys w (sending s) (p :: futures s) (raft_calls s) (guests s) (fsm_taken s) (released s)
        (lost s) (leaked s))
  | st_wait p s w : p ∈ futures s -> wait p (shm s) = Ret () w -> act_step s (set_shm w s)
  | st_dispose p s l w :
      futures s ≡ₚ p :: l -> may_give_up p (shm s) -> dispose p (shm s) = Ret () w ->
      act_step s (Sys w (sending s) l (raft_calls s) (guests s) (fsm_taken s) (released s) (lost s) (leaked s))
  | st_dispose_closed p s l w :
      futures s ≡ₚ p :: l -> may_give_up p (shm s) -> dispose p (shm s) = Throw w ->
      act_step s (Sys w (sending s) l (raft_calls s) (guests s) (fsm_taken s) (released s) (lost s) (p :: leaked s))
  (* the Raft process *)
  | st_raft_take r s q :
      ABQ.take_checked queue_capacity (get_queue ApiQueue (shm s)) = Ret r q ->
      act_step s (Sys (set_queue ApiQueue q (shm s)) (sending s) (futures s) (r :: raft_calls s)
        (guests s) (fsm_taken s) (released s) (lost s) (leaked s))
  | st_raft_reply r err s l :
      raft_calls s ≡ₚ r :: l ->
      act_step s (Sys (run_env (ERaftReply r.2 err) (shm s)) (sending s) (futures s) l (guests s) (fsm_taken s)
        (released s) (lost s) (leaked s))
  | st_raft_reply_value r v s l :
      raft_calls s ≡ₚ r :: l ->
      act_step s (Sys (run_env (ERaftReplyValue r.2 v) (shm s)) (sending s) (futures s) l (guests s) (fsm_taken s)
        (released s) (lost s) (leaked s))
  | st_raft_build p t a s :
      typed t a = true -> is_fsm t = true -> worker_args a = true -> p ∉ used (shm s) -> in_shm_bounds p = true ->
      act_step s (Sys (with_call p (sent_slot t a (clock (shm s))) (shm s)) ((t, p) :: sending s) (futures s)
        (raft_calls s) (guests s) (fsm_taken s) (released s) (lost s) (leaked s))
  | st_raft_put r s l q :
      sending s ≡ₚ r :: l -> is_fsm r.1 = true ->
      ABQ.put_checked queue_capacity r (get_queue FsmQueue (shm s)) = Ret () q ->
      act_step s (Sys (set_queue FsmQueue q (shm s)) l (futures s) (raft_calls s) (r.2 :: guests s) (fsm_taken s)
        (released s) (lost s) (leaked s))
  | st_raft_put_closed r s l :
      sending s ≡ₚ r :: l -> is_fsm r.1 = true -> ABQ.check_closed (get_queue FsmQueue (shm s)) = true ->
      act_step s (Sys (shm s) l (futures s) (raft_calls s) (guests s) (fsm_taken s) (released s)
        (r :: lost s) (leaked s))
  | st_raft_free p s sl l w :
      guests s ≡ₚ p :: l -> slots (shm s) !! p = Some sl -> is_terminal (state sl) = true ->
      deallocate p (shm s) = Ret () w ->
      act_step s (Sys w (sending s) (futures s) (raft_calls s) l (fsm_taken s) (released s) (lost s) (leaked s))
  (* the FSM worker *)
  | st_fsm_take r s w :
      fsm_receive_checked (shm s) = Ret r w ->
      act_step s (Sys w (sending s) (futures s) (raft_calls s) (guests s) (r :: fsm_taken s) (released s)
        (lost s) (leaked s))
  | st_fsm_dispatch r s sl w :
      r ∈ fsm_taken s -> slots (shm s) !! r.2 = Some sl -> state sl = Pending ->
      r.1 = FSMApply -> is_command (args sl) = true -> fsm_dispatch r.2 (shm s) = Ret () w -> act_step s (set_shm w s)
  | st_fsm_applied r v s l sl w :
      fsm_taken s ≡ₚ r :: l -> slots (shm s) !! r.2 = Some sl -> state sl = Dispatched -> fsm_applied r.2 v (shm s) = Ret () w ->
      act_step s (Sys w (sending s) (futures s) (raft_calls s) (guests s) l (released s) (lost s) (leaked s))
  | st_fsm_restored r ok s l w :
      fsm_taken s ≡ₚ r :: l -> r.1 = FSMRestore -> fsm_restored r.2 ok (shm s) = Ret () w ->
      act_step s (Sys w (sending s) (futures s) (raft_calls s) (guests s) l (released s) (lost s) (leaked s))
  | st_fsm_release r s l sl w :
      fsm_taken s ≡ₚ r :: l -> slots (shm s) !! r.2 = Some sl -> state sl = Pending ->
      gives_back r.1 (args sl) = true -> unlock r.2 (shm s) = Ret () w ->
      act_step s (Sys w (sending s) (futures s) (raft_calls s) (guests s) l (r :: released s) (lost s) (leaked s))
  | st_snapshot_done r ok s l w :
      released s ≡ₚ r :: l -> r.1 = FSMSnapshot -> snapshot_done r.2 ok (shm s) = Ret () w ->
      act_step s (Sys w (sending s) (futures s) (raft_calls s) (guests s) (fsm_taken s) l (lost s) (leaked s))
  (* shutdown, flags and time *)
  | st_close which s :
      act_step s (set_shm (set_queue which (ABQ.close_body (get_queue which (shm s))) (shm s)) s)
  | st_close_orphans s :
      act_step s (set_shm (set_orphaned_calls (Deque.close_section (orphaned_calls (shm s))) (shm s)) s)
  | st_flags r b s : act_step s (set_shm (set_flags r b (shm s)) s)
  | st_shutdown s : act_step s (set_shm (request_shutdown (shm s)) s)
  | st_tick d s : act_step s (set_shm (run_env (ETick d) (shm s)) s).

(** The collector runs in between, in steps of its own. *)
Inductive sys_step : gc_pc * sys -> gc_pc * sys -> Prop :=
  | ss_act g s s' : act_step s s' -> sys_step (g, s) (g, s')
  | ss_gc g g' s w : gc_step (g, shm s) (g', w) -> sys_step (g, s) (g', set_shm w s).

Definition sys_start (timing : bool) : sys := Sys (init_world timing []) [] [] [] [] [] [] [] [].
Definition sys_init (timing : bool) : gc_pc * sys := (GcFetch, sys_start timing).

(** ** The invariant *)

Definition queued (which : which_queue) (w : world) : list call_rec :=
  ABQ.contents queue_capacity (get_queue which w).

(** The calls that wait for their answer, by who has them. *)
Definition opens (s : sys) : list call_rec :=
  sending s ++ queued ApiQueue (shm s) ++ raft_calls s ++ queued FsmQueue (shm s) ++ fsm_taken s ++ released s ++ lost s.

(** The slots, by who owns them, or who lost them. *)
Definition owners (s : sys) : list Z :=
  ((sending s).*2 ++ futures s ++ guests s ++ (lost s).*2 ++ leaked s) ++ orphans (shm s).

(** The slots whose mutex the worker holds. *)
Definition held (s : sys) : list Z := (fsm_taken s).*2.

Record good (s : sys) : Prop := Good {
  gd_custody : custody_with (leaked s) (shm s);
  gd_sched : sched (shm s) = [];
  gd_queue : forall which, ABQ.wf queue_capacity (get_queue which (shm s));
  gd_ledger : ledger (slots (shm s)) (bufs (shm s)) (opens s) (owners s) (held s)
}.

Lemma good_init timing : good (sys_start timing).
Proof.
  constructor.
  - apply custody_init.
  - done.
  - by intros [].
  - constructor; try done.
    + apply NoDup_nil_2.
    + intros t p. split; [by intros ?%not_elem_of_nil|]. by intros (? & ? & _).
    + apply NoDup_nil_2.
    + intros p. split; [by intros ?%not_elem_of_nil|by intros [? ?]].
    + apply not_elem_of_nil.
    + by intros p b (? & ? & _).
    + by intros p q b (? & ? & _).
Qed.

(** ** Each step keeps it *)

(** Permutations of concatenations, by counting. *)
Ltac perm_count HP x :=
  let HP' := fresh in
  pose proof (proj1 (Permutation_count_occ (fun a b => decide (a = b)) _ _) HP x) as HP'; clear HP.

Ltac perm :=
  apply (proj2 (Permutation_count_occ (fun a b => decide (a = b)) _ _));
  let x := fresh "x" in intros x;
  repeat match goal with HP : @Permutation ?A _ _ |- _ =>
    lazymatch type of x with A => perm_count HP x end end;
  rewrite ?fmap_app in *; rewrite ?count_occ_app in *; cbn [count_occ app fmap list_fmap] in *;
  rewrite ?count_occ_app in *; cbn [count_occ] in *;
  repeat case_decide; lia.

Lemma put_Ret (q q' : CallQueue) r :
  ABQ.wf queue_capacity q -> ABQ.put_checked queue_capacity r q = Ret () q' ->
  ABQ.wf queue_capacity q' /\ ABQ.contents queue_capacity q' = ABQ.contents queue_capacity q ++ [r] /\
  ABQ.closed q' = ABQ.closed q.
Proof.
  intros Hwf. unfold ABQ.put_checked. destruct (ABQ.full queue_capacity q) eqn:Hf; [done|]. unfold ABQ.full in Hf. zbool.
  destruct (ABQ.put_body_spec (Capacity := queue_capacity) ltac:(done) q r Hwf) as (q1 & E & Hw & Hc & _);
    [destruct Hwf; lia|]. rewrite E. intros [= <-]. split_and!; [done|done|].
  unfold ABQ.put_body in E. destruct (ABQ.inc _ _) as [i h]. cbn in E. destruct (ABQ.array_set _ _ _); [|done]. by injection E as <-.
Qed.

Lemma take_Ret (q q' : CallQueue) r :
  ABQ.wf queue_capacity q -> ABQ.take_checked queue_capacity q = Ret r q' ->
  ABQ.wf queue_capacity q' /\ ABQ.contents queue_capacity q = r :: ABQ.contents queue_capacity q' /\
  ABQ.closed q' = ABQ.closed q.
Proof.
  intros Hwf. unfold ABQ.take_checked. destruct (ABQ.empty q) eqn:Hf; [done|]. unfold ABQ.empty in Hf. zbool.
  destruct (ABQ.take_body_spec (Capacity := queue_capacity) ltac:(done) q Hwf) as (v & q1 & E & Hw & Hc & _);
    [destruct Hwf; lia|]. rewrite E. intros [= <- <-]. split_and!; [done|done|].
  unfold ABQ.take_body in E. destruct (ABQ.inc _ _) as [i h]. cbn in E. destruct (ABQ.array_get _ _); [|done]. by injection E as _ <-.
Qed.

Lemma get_set_queue which which' q w :
  get_queue which (set_queue which' q w) = if decide (which = which') then q else get_queue which w.
Proof. by destruct which, which'. Qed.

Lemma slots_update p f w sl :
  slots w !! p = Some sl -> slots (update_slot p f w) = <[p := f sl]> (slots w).
Proof.
  intros Hs. apply map_eq. intros q. cbn. destruct (decide (q = p)) as [->|].
  - by rewrite lookup_alter_eq, lookup_insert_eq, Hs.
  - by rewrite lookup_alter_ne, lookup_insert_ne.
Qed.

Lemma good_world s w :
  good s -> custody_with (leaked s) w -> scoreboard w = scoreboard (shm s) ->
  sched w = [] -> orphans w = orphans (shm s) ->
  ledger (slots w) (bufs w) (opens s) (owners s) (held s) -> good (set_shm w s).
Proof.
  intros [G1 G2 G3 G5] Hc Hsb Hsc Ho Hl.
  assert (forall which, get_queue which w = get_queue which (shm s)) as Hq by (intros []; cbn; by rewrite Hsb).
  constructor; cbn [shm set_shm guests fsm_taken released lost leaked].
  - done.
  - done.
  - intros which. by rewrite Hq.
  - unfold opens, owners, queued in *. cbn [shm set_shm sending futures raft_calls guests fsm_taken released lost leaked].
    by rewrite !Hq, Ho.
Qed.

Lemma good_alloc len s b w : good s -> alloc_raft_buffer len (shm s) = Ret b w -> good (set_shm w s).
Proof.
  intros Hg Hr. pose proof (preserves_Ret _ _ _ _ (custody_alloc len) Hr (gd_custody s Hg)) as Hc.
  unfold alloc_raft_buffer, allocate_buf in Hr. cbv [mbind M_bind get modify fail mret M_ret] in Hr.
  destruct (seg_alloc _ len) as [b'|]; [|done]. injection Hr as <- <-. pose proof Hg as [G1 G2 G3 G5].
  by apply good_world; try done; apply ledger_buf_new.
Qed.

Lemma good_free b s w :
  good s -> unclaimed (shm s) b -> free_raft_buffer b (shm s) = Ret () w -> good (set_shm w s).
Proof.
  intros Hg Hno Hr. pose proof Hg as [G1 G2 G3 G5].
  assert (custody_with (leaked s) w) as Hc.
  { apply (custody_free b (shm s)); [|done|done]. intros q a Ha Hb. apply (Hno q).
    apply abandoned_inv in Ha as (sl & Hs & Hcs & <-). exists sl. split_and!; [done| |done].
    unfold in_use. rewrite bool_decide_true by done. apply orb_true_r. }
  unfold free_raft_buffer, free_buf in Hr. cbv [mbind M_bind get modify fail mret M_ret] in Hr. cbn in Hr.
  destruct (bufs (shm s) !! b); [|done]. injection Hr as <-.
  by apply good_world; try done; apply ledger_buf_gone.
Qed.

Lemma build_request_eq t a w p w' :
  build_request t a w = Ret p w' ->
  seg_alloc_node (used w) = Some p /\ w' = with_call p (sent_slot t a (clock w)) w.
Proof.
  intros Hr. unfold build_request in Hr. cbv [now mbind M_bind modify mret M_ret] in Hr.
  destruct (seg_alloc_node (used w)) as [p0|] eqn:E.
  - rewrite (alloc_request_eq _ _ _ _ E) in Hr. injection Hr as <- <-. split; [done|].
    by rewrite !update_with_call.
  - unfold alloc_request in Hr. cbv [mbind M_bind modify get fail] in Hr.
    change (used (count_call_alloc w)) with (used w) in Hr. by rewrite E in Hr.
Qed.

Lemma fresh_node w p : seg_alloc_node (used w) = Some p -> slots w !! p = None /\ p <> 0.
Proof.
  intros E. split; [by apply node_fresh|]. apply seg_alloc_node_fresh in E as [_ E].
  pose proof seg_range. lia.
Qed.

(** A call that waits for its answer has a slot. *)
Lemma open_slot s r :
  good s -> r ∈ opens s ->
  exists sl, slots (shm s) !! r.2 = Some sl /\ is_terminal (state sl) = false /\ tag sl = r.1.
Proof.
  intros Hg Hr. destruct (ledger_open _ _ _ _ _ r.1 r.2 (gd_ledger s Hg)) as (sl & Hsl & Ho & Ht).
  { by rewrite <- surjective_pairing. }
  exists sl. split_and!; [done| |done]. unfold Ledger.is_open in Ho. by destruct (is_terminal (state sl)).
Qed.

Lemma taken_open s r : r ∈ fsm_taken s -> r ∈ opens s.
Proof. intros Hr. unfold opens. rewrite !elem_of_app. tauto. Qed.

Lemma not_held s p : good s -> slots (shm s) !! p = None -> p ∉ held s.
Proof.
  intros Hg Hp. unfold held. intros (r & -> & Hr%taken_open)%list_elem_of_fmap.
  destruct (open_slot s r Hg Hr) as (sl & Hsl & _). congruence.
Qed.

Lemma sane_api t a s :
  tag s = t -> args s = a -> typed t a = true -> is_fsm t = false -> sane s = true.
Proof. intros Ht Ha Hty Hf. unfold sane. rewrite Ht, Ha, Hty. by destruct t, a. Qed.

Lemma good_build t a s p w :
  good s -> typed t a = true -> is_fsm t = false -> (forall b, buffer_of a = Some b -> ready (shm s) b) -> build_request t a (shm s) = Ret p w ->
  good (Sys w ((t, p) :: sending s) (futures s) (raft_calls s) (guests s) (fsm_taken s) (released s) (lost s) (leaked s)).
Proof.
  intros Hg Hty Hfsm Hbuf [E ->]%build_request_eq. pose proof Hg as [G1 G2 G3 G5]. destruct (fresh_node _ _ E) as [Hp Hp0].
  constructor; cbn [shm guests fsm_taken released lost leaked]; try done.
  - by apply custody_new_slot.
  - refine (ledger_new _ _ _ _ _ p (sent_slot t a (clock (shm s))) G5 Hp Hp0 _ _ _ _ _ _);
      [by apply not_held|done|done|done|by apply (sane_api t a)|].
    intros b Hb _. by apply Hbuf.
Qed.
Lemma custody_queue X which q w : custody_with X w -> custody_with X (set_queue which q w).
Proof. destruct which; by apply custody_frame. Qed.

Lemma good_put r s l q :
  good s -> sending s ≡ₚ r :: l -> ABQ.put_checked queue_capacity r (get_queue ApiQueue (shm s)) = Ret () q ->
  good (Sys (set_queue ApiQueue q (shm s)) l (r.2 :: futures s) (raft_calls s) (guests s) (fsm_taken s) (released s) (lost s) (leaked s)).
Proof.
  intros [G1 G2 G3 G5] Hl Hq. destruct (put_Ret _ _ _ (G3 ApiQueue) Hq) as (Hwf & Hc & _).
  pose proof (fmap_Permutation snd _ _ Hl) as Hl2. cbn [fmap list_fmap] in Hl2.
  constructor; cbn [shm guests fsm_taken released lost leaked]; try done.
  - by apply custody_queue.
  - intros []; [done|apply (G3 FsmQueue)].
  - cbn [slots bufs set_queue set_scoreboard].
    assert (opens s ≡ₚ opens (Sys (set_queue ApiQueue q (shm s)) l (r.2 :: futures s) (raft_calls s)
      (guests s) (fsm_taken s) (released s) (lost s) (leaked s))) as <-.
    { unfold opens, queued. cbn [sending shm raft_calls fsm_taken released lost leaked]. rewrite !get_set_queue, decide_True, decide_False by done.
      rewrite Hc. clear Hl2. perm. }
    assert (owners s ≡ₚ owners (Sys (set_queue ApiQueue q (shm s)) l (r.2 :: futures s) (raft_calls s)
      (guests s) (fsm_taken s) (released s) (lost s) (leaked s))) as <-; [|done].
    unfold owners. cbn [sending futures guests shm lost leaked].
    change (orphans (set_queue ApiQueue q (shm s))) with (orphans (shm s)). clear Hl. perm.
Qed.

(** What the slot of an open call becomes when it is answered. *)
Lemma good_answered s s' r l f sl :
  good s -> opens s ≡ₚ r :: l -> slots (shm s) !! r.2 = Some sl ->
  tag (f sl) = tag sl -> args (f sl) = args sl -> client_state (f sl) = client_state sl ->
  is_terminal (state (f sl)) = true ->
  (owned (f sl) = true <-> r.2 ∈ held s') -> (forall q, q <> r.2 -> q ∈ held s <-> q ∈ held s') ->
  slots (shm s') = <[r.2 := f sl]> (slots (shm s)) -> bufs (shm s') = bufs (shm s) ->
  opens s' ≡ₚ l -> owners s' ≡ₚ owners s ->
  ledger (slots (shm s')) (bufs (shm s')) (opens s') (owners s') (held s').
Proof.
  intros Hg Hl Hsl Ht Ha Hcs Hterm Hown Hheld -> -> -> ->. pose proof (gd_ledger s Hg) as G5.
  destruct (ledger_open _ _ _ _ _ r.1 r.2 G5) as (sl' & Hsl' & Hopen & Htag).
  { rewrite Hl, <- surjective_pairing. apply list_elem_of_here. }
  rewrite Hsl in Hsl'. injection Hsl' as <-.
  assert (is_open (f sl) = false) as Hop by (unfold is_open; by rewrite Hterm).
  eapply ledger_change; [exact G5|done|done|done|done|done| | |congruence| |].
  - intros E. by rewrite E in Hterm.
  - done.
  - right. split; [done|]. rewrite Hl, Htag, <- surjective_pairing. done.
  - intros b Hu Hu'. exfalso. unfold in_use in *. rewrite Hop, Hcs in Hu. cbn in Hu. rewrite Hu, orb_true_r in Hu'. done.
Qed.

(** A live slot of which the mutex is not held. *)
Lemma good_mutex s p sl : good s -> slots (shm s) !! p = Some sl -> owned sl = true <-> p ∈ held s.
Proof. intros Hg. exact (lg_mutex _ _ _ _ _ (gd_ledger s Hg) p sl). Qed.

Lemma good_put_closed r s l :
  good s -> sending s ≡ₚ r :: l ->
  good (Sys (set_failed r.2 RAFT_E_IN_SHUTDOWN (shm s)) l (r.2 :: futures s) (raft_calls s) (guests s) (fsm_taken s) (released s) (lost s) (leaked s)).
Proof.
  intros Hg Hl. pose proof Hg as [G1 G2 G3 G5]. pose proof (fmap_Permutation snd _ _ Hl) as Hl2. cbn [fmap list_fmap] in Hl2.
  destruct (ledger_open _ _ _ _ _ r.1 r.2 G5) as (sl & Hsl & Hopen & Htag).
  { unfold opens. rewrite Hl, <- surjective_pairing. apply list_elem_of_here. }
  constructor; [by apply custody_update|done|exact G3|].
  eapply (good_answered s (Sys _ l _ _ _ _ _ _ _) r _ (fun s => set_state Error (set_error RAFT_E_IN_SHUTDOWN s)) sl); try done.
  - unfold opens. by rewrite Hl.
  - exact (good_mutex s r.2 sl Hg Hsl).
  - exact (slots_update r.2 (fun s => set_state Error (set_error RAFT_E_IN_SHUTDOWN s)) (shm s) sl Hsl).
  - unfold owners. cbn [sending futures guests shm lost leaked]. change (orphans (set_failed _ _ (shm s))) with (orphans (shm s)).
    clear Hl. perm.
Qed.

Lemma good_error err t a s p w :
  good s -> typed t a = true -> is_fsm t = false -> make_error_request err t a (shm s) = Ret p w ->
  good (Sys w (sending s) (p :: futures s) (raft_calls s) (guests s) (fsm_taken s) (released s) (lost s) (leaked s)).
Proof.
  intros Hg Hty Hfsm Hr. pose proof Hg as [G1 G2 G3 G5].
  pose proof (preserves_Ret _ _ _ _ (custody_make_error_request err t a) Hr G1) as Hc.
  destruct (decide (err = RAFT_SUCCESS)) as [->|Herr]; [done|].
  destruct (seg_alloc_node (used (shm s))) as [p0|] eqn:E.
  2:{ unfold make_error_request, alloc_request in Hr. rewrite bool_decide_true in Hr by done.
      cbv [mbind M_bind modify get fail assert mret M_ret] in Hr.
      change (used (count_call_alloc (shm s))) with (used (shm s)) in Hr. by rewrite E in Hr. }
  rewrite (make_error_request_eq _ _ _ _ _ E Herr) in Hr. injection Hr as <- <-.
  destruct (fresh_node _ _ E) as [Hp Hp0]. constructor; cbn [shm guests fsm_taken released lost leaked]; try done.
  assert (owners (Sys (with_call p0 (set_state Error (set_error err (new_slot t a))) (shm s)) (sending s)
    (p0 :: futures s) (raft_calls s) (guests s) (fsm_taken s) (released s) (lost s) (leaked s)) ≡ₚ p0 :: owners s) as ->.
  { unfold owners. cbn [sending futures guests shm lost leaked]. change (orphans (with_call _ _ (shm s))) with (orphans (shm s)). perm. }
  refine (ledger_new _ _ _ _ _ p0 (set_state Error (set_error err (new_slot t a))) G5 Hp Hp0 _ _ _ _ _ _); try done.
  - by apply not_held.
  - by apply (sane_api t a).
Qed.

(** What a client or the Raft process holds has not been given up. *)
Lemma held_not_abandoned s p : good s -> p ∈ futures s ++ guests s -> abandoned (shm s) p = None.
Proof.
  intros [G1 G2 G3 G5] Hp. destruct (abandoned (shm s) p) as [a|] eqn:E; [|done]. exfalso.
  pose proof (lg_owner_nodup _ _ _ _ _ G5) as Hnd. unfold owners in Hnd.
  assert (p ∈ leaked s ++ orphans (shm s)) as Hx by (apply (ow_iff _ _ G1); by eexists).
  assert (owners s ≡ₚ (futures s ++ guests s) ++ (leaked s ++ orphans (shm s)) ++ (sending s).*2 ++ (lost s).*2) as E1
    by (unfold owners; perm).
  unfold owners in E1. rewrite E1 in Hnd. apply NoDup_app in Hnd as (_ & Hd & _).
  apply (Hd p); [done|]. apply elem_of_app. by left.
Qed.

(** A future belongs to a call that is live and has not been given up. *)
Lemma good_future s p :
  good s -> p ∈ futures s ->
  exists sl, slots (shm s) !! p = Some sl /\ client_state sl <> Abandoned /\ p <> 0 /\ abandoned (shm s) p = None.
Proof.
  intros Hg Hp. pose proof (gd_ledger s Hg) as G5.
  assert (p ∈ owners s) as Hpo by (unfold owners; rewrite !elem_of_app; tauto).
  destruct (ledger_live _ _ _ _ _ _ G5 Hpo) as [sl Hsl]. exists sl.
  assert (abandoned (shm s) p = None) as Hna by (apply held_not_abandoned; [done|apply elem_of_app; by left]).
  split_and!; [done| | |done].
  - intros Hcs. unfold abandoned in Hna. by rewrite Hsl, decide_True in Hna.
  - intros ->. by apply (lg_null _ _ _ _ _ G5).
Qed.

Lemma await_idle cond w : sched w = [] -> await cond w = if cond w then Ret () w else Block w.
Proof. unfold await. intros Hs. rewrite Hs. destruct w; cbn in *; subst. by case_match. Qed.

Lemma await_idle_inv cond w w' : sched w = [] -> await cond w = Ret () w' -> cond w = true /\ w' = w.
Proof. intros Hs. rewrite await_idle by done. case_match; [|done]. by intros [= <-]. Qed.

Lemma good_wait p s w : good s -> p ∈ futures s -> wait p (shm s) = Ret () w -> good (set_shm w s).
Proof.
  intros Hg Hp Hr. pose proof Hg as [G1 G2 G3 G5].
  destruct (good_future s p Hg Hp) as (sl & Hsl & Hcs & Hp0 & Hna).
  pose proof (custody_wait _ _ _ Hna Hr G1) as Hc. unfold wait in Hr.
  apply bind_Ret_inv in Hr as ([] & w1 & Hw & Hr). apply await_idle_inv in Hw as [Hready ->]; [|done].
  rewrite (bind_Ret _ _ _ _ _ (get_slot_eq _ _ _ Hsl)) in Hr. cbv [now mbind M_bind modify] in Hr. injection Hr as <-.
  unfold wait_ready in Hready. rewrite Hsl in Hready. unfold poll in Hready. apply andb_prop in Hready as [_ Hterm].
  apply good_world; try done. rewrite (slots_update _ _ _ _ Hsl).
  eapply ledger_change; [exact G5|done|done|done|exact (good_mutex s p sl Hg Hsl)|done| | |done|by left|].
  - exact (lg_dispatched _ _ _ _ _ G5 p sl Hsl).
  - intros _. unfold Ledger.is_open. cbn. by rewrite Hterm.
  - intros b Hu. unfold in_use, Ledger.is_open in Hu. cbn in Hu. by rewrite Hterm in Hu.
Qed.

(** The slot of a future that is given up uses its buffer alone. *)
Lemma good_abandon_buffer s p sl b :
  good s -> p ∈ futures s -> slots (shm s) !! p = Some sl -> buffer_of (args sl) = Some b ->
  (in_use sl = false -> ready (shm s) b) ->
  is_Some (bufs (shm s) !! b) /\ forall q a, abandoned (shm s) q = Some a -> buffer_of a <> Some b.
Proof.
  intros Hg Hp Hsl Hb Hready. pose proof (gd_ledger s Hg) as G5.
  destruct (good_future s p Hg Hp) as (sl' & Hsl' & Hcs & _ & Hna). rewrite Hsl in Hsl'. injection Hsl' as <-.
  assert (forall q a, abandoned (shm s) q = Some a -> buffer_of a = Some b -> claims (slots (shm s)) q b) as Hcl.
  { intros q a (s0 & Hs0 & Hcs0 & <-)%abandoned_inv Hb0. exists s0. split_and!; [done| |done].
    unfold in_use. rewrite bool_decide_true by done. apply orb_true_r. }
  destruct (in_use sl) eqn:Hu.
  - assert (claims (slots (shm s)) p b) as Hpc by (by exists sl). split; [by eapply lg_buffer|].
    intros q a Ha Hqb. pose proof (lg_apart _ _ _ _ _ G5 _ _ _ Hpc (Hcl q a Ha Hqb)) as <-. congruence.
  - destruct (Hready eq_refl) as [Hlive Hno]. split; [done|]. intros q a Ha Hqb. by apply (Hno q), (Hcl q a).
Qed.

Lemma good_dispose p s l w :
  good s -> futures s ≡ₚ p :: l -> may_give_up p (shm s) -> dispose p (shm s) = Ret () w ->
  good (Sys w (sending s) l (raft_calls s) (guests s) (fsm_taken s) (released s) (lost s) (leaked s)).
Proof.
  intros Hg Hl Hbuf Hr. pose proof Hg as [G1 G2 G3 G5].
  assert (p ∈ futures s) as Hp by (rewrite Hl; apply list_elem_of_here).
  destruct (good_future s p Hg Hp) as (sl & Hsl & Hcs & Hp0 & Hna).
  assert (custody_with (leaked s) w) as Hc.
  { eapply custody_dispose; [exact Hp0|exact Hsl|exact Hcs| |exact Hr|exact G1].
    intros b Hi Hb. eapply good_abandon_buffer; [done|done|done|done|]. intros Hu. by eapply Hbuf. }
  unfold dispose in Hr. rewrite (bind_Ret _ _ _ _ _ (get_slot_eq _ _ _ Hsl)) in Hr.
  destruct (client_state sl) eqn:Ecs; [| |done].
  - cbv [mbind M_bind modify] in Hr. unfold track_orphan, zoom, Deque.put, Deque.put_section in Hr.
    destruct (Deque.closed _); [done|]. injection Hr as <-.
    constructor; [exact Hc|done|exact G3|].
    assert (owners s ≡ₚ owners (Sys (set_orphaned_calls (Deque.Dq (Deque.deque (orphaned_calls (shm s)) ++ [p]) false)
      (update_slot p (set_client_state Abandoned) (shm s))) (sending s) l (raft_calls s) (guests s) (fsm_taken s) (released s) (lost s) (leaked s))) as <-.
    { unfold owners, orphans. cbn [sending futures guests shm orphan_backlog orphaned_calls set_orphaned_calls update_slot set_slots Deque.deque lost leaked].
      perm. }
    cbn [shm set_orphaned_calls bufs]. change (slots (set_orphaned_calls ?d ?w)) with (slots w).
    rewrite (slots_update _ _ _ _ Hsl).
    eapply ledger_change; [exact G5|done|done|done|exact (good_mutex s p sl Hg Hsl)|done| |done|done|by left|].
    { exact (lg_dispatched _ _ _ _ _ G5 p sl Hsl). }
    intros b _ Hu Hb. exact (Hbuf sl b Hsl Ecs Hu Hb).
  - cbv [deallocate mbind M_bind modify] in Hr. injection Hr as <-.
    constructor; [exact Hc|done|exact G3|].
    cbn [shm slots bufs set_slots count_call_free set_stats].
    eapply ledger_gone; [|exact Hsl|by apply (lg_observed _ _ _ _ _ G5 p sl)].
    assert (p :: owners (Sys (count_call_free (set_slots (delete p (slots (shm s))) (shm s))) (sending s) l
      (raft_calls s) (guests s) (fsm_taken s) (released s) (lost s) (leaked s)) ≡ₚ owners s) as ->; [|exact G5].
    unfold owners. cbn [sending futures guests shm lost leaked].
    change (orphans (count_call_free (set_slots _ (shm s)))) with (orphans (shm s)). perm.
Qed.

(** A call that is given up when the collector has been stopped. *)
Lemma good_dispose_closed p s l w :
  good s -> futures s ≡ₚ p :: l -> may_give_up p (shm s) -> dispose p (shm s) = Throw w ->
  good (Sys w (sending s) l (raft_calls s) (guests s) (fsm_taken s) (released s) (lost s) (p :: leaked s)).
Proof.
  intros Hg Hl Hbuf Hr. pose proof Hg as [G1 G2 G3 G5].
  assert (p ∈ futures s) as Hp by (rewrite Hl; apply list_elem_of_here).
  destruct (good_future s p Hg Hp) as (sl & Hsl & Hcs & Hp0 & Hna).
  assert (custody_with (p :: leaked s) w) as Hc.
  { eapply custody_dispose_closed; [exact Hp0|exact Hsl|exact Hcs| |exact Hr|exact G1].
    intros b Hi Hb. eapply good_abandon_buffer; [done|done|done|done|]. intros Hu. by eapply Hbuf. }
  destruct (dispose_throws p sl _ _ Hsl Hcs Hr) as (Ecs & _ & ->). constructor; [exact Hc|done|exact G3|].
  assert (owners s ≡ₚ owners (Sys (update_slot p (set_client_state Abandoned) (shm s)) (sending s) l (raft_calls s)
    (guests s) (fsm_taken s) (released s) (lost s) (p :: leaked s))) as <-.
  { unfold owners. cbn [sending futures guests shm lost leaked].
    change (orphans (update_slot _ _ (shm s))) with (orphans (shm s)). perm. }
  cbn [shm]. rewrite (slots_update _ _ _ _ Hsl).
  eapply ledger_change; [exact G5|done|done|done|exact (good_mutex s p sl Hg Hsl)|done| |done|done|by left|].
  { exact (lg_dispatched _ _ _ _ _ G5 p sl Hsl). }
  intros b _ Hu Hb. exact (Hbuf sl b Hsl Ecs Hu Hb).
Qed.

(** ** The collector *)

Lemma good_gc g g' s w :
  good s -> gc_ok g (shm s) -> gc_step (g, shm s) (g', w) -> good (set_shm w s) /\ gc_ok g' w.
Proof.
  intros Hg Hok Hst. pose proof Hg as [G1 G2 G3 G5].
  destruct (gc_step_effect _ _ _ _ G1 Hok Hst) as [[Hc (ps & Hsw & Hps) Hsb Hsc _ _] Hok']. split; [|done].
  assert (forall which, get_queue which w = get_queue which (shm s)) as Eq by (intros []; cbn; by rewrite Hsb).
  constructor; cbn [shm set_shm]; try done.
  - congruence.
  - intros which. by rewrite Eq.
  - unfold opens, owners, queued. cbn [shm set_shm sending futures raft_calls guests fsm_taken released lost leaked]. rewrite !Eq.
    eapply (ledger_swept (leaked s)); [exact G5|done|done| |exact Hsw|done].
    intros x Hx. rewrite !elem_of_app. tauto.
Qed.

Lemma good_raft_take r s q :
  good s -> ABQ.take_checked queue_capacity (get_queue ApiQueue (shm s)) = Ret r q ->
  good (Sys (set_queue ApiQueue q (shm s)) (sending s) (futures s) (r :: raft_calls s) (guests s) (fsm_taken s) (released s) (lost s) (leaked s)).
Proof.
  intros [G1 G2 G3 G5] Hq. destruct (take_Ret _ _ _ (G3 ApiQueue) Hq) as (Hwf & Hc & _).
  constructor; cbn [shm guests fsm_taken released lost leaked]; try done.
  - by apply custody_queue.
  - intros []; [done|apply (G3 FsmQueue)].
  - cbn [slots bufs set_queue set_scoreboard].
    assert (opens s ≡ₚ opens (Sys (set_queue ApiQueue q (shm s)) (sending s) (futures s) (r :: raft_calls s)
      (guests s) (fsm_taken s) (released s) (lost s) (leaked s))) as <-; [|exact G5].
    unfold opens, queued. cbn [sending shm raft_calls fsm_taken released lost leaked].
    rewrite !get_set_queue, decide_True, decide_False by done. rewrite Hc. perm.
Qed.

Lemma terminal_reply err : is_terminal (if decide (err = RAFT_SUCCESS) then Success else Error) = true.
Proof. by case_decide. Qed.

Lemma good_raft_answer r s l (m : M slot ()) f :
  good s -> raft_calls s ≡ₚ r :: l ->
  (forall sl, is_terminal (state sl) = false -> m sl = Ret () (f sl)) ->
  (forall sl, client_state (f sl) = client_state sl /\ args (f sl) = args sl) ->
  (forall sl, tag (f sl) = tag sl /\ owned (f sl) = owned sl /\ is_terminal (state (f sl)) = true) ->
  custody_with (leaked s) (env_reply r.2 m (shm s)) ->
  good (Sys (env_reply r.2 m (shm s)) (sending s) (futures s) l (guests s) (fsm_taken s) (released s) (lost s) (leaked s)).
Proof.
  intros Hg Hl Hm Hf Hf' Hc. pose proof Hg as [G1 G2 G3 G5].
  destruct (open_slot s r Hg) as (sl & Hsl & Ho & Ht).
  { unfold opens. rewrite Hl, !elem_of_app, elem_of_cons. tauto. }
  set (g := fun s => match m s with Ret _ s' => s' | _ => s end).
  assert (g sl = f sl) as Eg by (unfold g; by rewrite Hm).
  destruct (Hf sl) as [Hf1 Hf2], (Hf' sl) as (Hf3 & Hf4 & Hf5).
  constructor; [exact Hc|done|exact G3|].
  eapply (good_answered s (Sys _ (sending s) (futures s) l (guests s) (fsm_taken s) (released s) (lost s) (leaked s)) r _ g sl);
    rewrite ?Eg; try done.
  - unfold opens. rewrite Hl. cbn [app]. by rewrite !Permutation_middle.
  - rewrite Hf4. exact (good_mutex s r.2 sl Hg Hsl).
  - rewrite <- Eg. exact (slots_update r.2 g (shm s) sl Hsl).
Qed.

Lemma good_raft_reply r err s l :
  good s -> raft_calls s ≡ₚ r :: l ->
  good (Sys (run_env (ERaftReply r.2 err) (shm s)) (sending s) (futures s) l (guests s) (fsm_taken s) (released s) (lost s) (leaked s)).
Proof.
  intros Hg Hl. eapply good_raft_answer; [done|done| | | |apply (custody_env (ERaftReply r.2 err)), Hg].
  - intros sl Ho. by apply reply_open.
  - done.
  - intros sl. split_and!; [done|done|]. cbn. apply terminal_reply.
Qed.

Lemma good_raft_reply_value r v s l :
  good s -> raft_calls s ≡ₚ r :: l ->
  good (Sys (run_env (ERaftReplyValue r.2 v) (shm s)) (sending s) (futures s) l (guests s) (fsm_taken s) (released s) (lost s) (leaked s)).
Proof.
  intros Hg Hl. eapply good_raft_answer; [done|done| | | |apply (custody_env (ERaftReplyValue r.2 v)), Hg].
  - intros sl Ho. rewrite reply_value_eq. by apply reply_open.
  - done.
  - done.
Qed.

Lemma good_raft_build p t a s :
  good s -> typed t a = true -> is_fsm t = true -> worker_args a = true -> p ∉ used (shm s) -> in_shm_bounds p = true ->
  good (Sys (with_call p (sent_slot t a (clock (shm s))) (shm s)) ((t, p) :: sending s) (futures s) (raft_calls s)
    (guests s) (fsm_taken s) (released s) (lost s) (leaked s)).
Proof.
  intros Hg Hty Hfsm Hwa Hu Hb. pose proof Hg as [G1 G2 G3 G5].
  assert (slots (shm s) !! p = None) as Hp by (apply not_elem_of_dom; unfold used in Hu; set_solver).
  assert (p <> 0) as Hp0. { unfold in_shm_bounds in Hb. pose proof seg_range. zbool. lia. }
  constructor; cbn [shm]; try done; [by apply custody_new_slot|].
  refine (ledger_new _ _ _ _ _ p (sent_slot t a (clock (shm s))) G5 Hp Hp0 _ _ _ _ _ _); [by apply not_held|done|done|done| |].
  - unfold sane. cbn [tag args sent_slot]. change (typed t a && worker_args a = true). by rewrite Hty, Hwa.
  - change (args (sent_slot t a (clock (shm s)))) with a. by destruct t, a.
Qed.

Lemma good_raft_put r s l q :
  good s -> sending s ≡ₚ r :: l -> ABQ.put_checked queue_capacity r (get_queue FsmQueue (shm s)) = Ret () q ->
  good (Sys (set_queue FsmQueue q (shm s)) l (futures s) (raft_calls s) (r.2 :: guests s) (fsm_taken s) (released s)
    (lost s) (leaked s)).
Proof.
  intros [G1 G2 G3 G5] Hl Hq. destruct (put_Ret _ _ _ (G3 FsmQueue) Hq) as (Hwf & Hc & _).
  pose proof (fmap_Permutation snd _ _ Hl) as Hl2. cbn [fmap list_fmap] in Hl2.
  set (s' := Sys _ _ _ _ _ _ _ _ _). constructor; cbn [shm leaked s']; try done.
  - by apply custody_queue.
  - intros []; [apply (G3 ApiQueue)|done].
  - cbn [slots bufs set_queue set_scoreboard].
    assert (opens s ≡ₚ opens s') as <-.
    { unfold opens, queued. cbn [sending shm raft_calls fsm_taken released lost s'].
      rewrite !get_set_queue, decide_False, decide_True by done. rewrite Hc. clear Hl2. perm. }
    assert (owners s ≡ₚ owners s') as <-; [|done].
    unfold owners. cbn [sending futures guests shm lost leaked s'].
    change (orphans (set_queue FsmQueue q (shm s))) with (orphans (shm s)). clear Hl. perm.
Qed.

Lemma good_raft_put_closed r s l :
  good s -> sending s ≡ₚ r :: l ->
  good (Sys (shm s) l (futures s) (raft_calls s) (guests s) (fsm_taken s) (released s) (r :: lost s) (leaked s)).
Proof.
  intros [G1 G2 G3 G5] Hl. pose proof (fmap_Permutation snd _ _ Hl) as Hl2. cbn [fmap list_fmap] in Hl2.
  set (s' := Sys _ _ _ _ _ _ _ _ _). constructor; cbn [shm leaked s']; try done.
  assert (opens s ≡ₚ opens s') as <-.
  { unfold opens. cbn [sending shm raft_calls fsm_taken released lost s']. clear Hl2. perm. }
  assert (owners s ≡ₚ owners s') as <-; [|done].
  unfold owners. cbn [sending futures guests shm lost leaked s']. clear Hl. perm.
Qed.

Lemma good_raft_free p s sl l w :
  good s -> guests s ≡ₚ p :: l -> slots (shm s) !! p = Some sl -> is_terminal (state sl) = true ->
  deallocate p (shm s) = Ret () w ->
  good (Sys w (sending s) (futures s) (raft_calls s) l (fsm_taken s) (released s) (lost s) (leaked s)).
Proof.
  intros Hg Hl Hsl Ht Hr. pose proof Hg as [G1 G2 G3 G5]. cbv [deallocate mbind M_bind modify] in Hr. injection Hr as <-.
  set (w := count_call_free (set_slots (delete p (slots (shm s))) (shm s))).
  assert (p ∈ guests s) as Hp by (rewrite Hl; apply list_elem_of_here).
  assert (owners s ≡ₚ p :: owners (Sys w (sending s) (futures s) (raft_calls s) l (fsm_taken s) (released s) (lost s) (leaked s))) as Ho.
  { unfold owners. cbn [sending futures guests shm lost leaked]. change (orphans w) with (orphans (shm s)). perm. }
  assert (abandoned (shm s) p = None) as Hna by (apply held_not_abandoned; [done|apply elem_of_app; by right]).
  constructor; [|done|exact G3|].
  - apply (custody_frame (shm s)); try done. intros q. unfold abandoned in *. cbn.
    destruct (decide (q = p)) as [->|]; [|by rewrite lookup_delete_ne]. by rewrite lookup_delete_eq.
  - cbn [shm slots bufs w set_slots count_call_free set_stats guests lost leaked].
    eapply ledger_gone; [|exact Hsl|unfold Ledger.is_open; by rewrite Ht].
    rewrite <- Ho. exact G5.
Qed.

(** ** The FSM worker *)

Lemma opens_nodup s l1 x l2 y l3 r :
  good s -> opens s = l1 ++ x ++ l2 ++ y ++ l3 -> r ∈ x -> r.2 ∉ y.*2.
Proof.
  intros Hg E Hx Hy. pose proof (lg_open_nodup _ _ _ _ _ (gd_ledger s Hg)) as Hnd. rewrite E in Hnd.
  rewrite !fmap_app in Hnd. apply NoDup_app in Hnd as (_ & _ & Hnd). apply NoDup_app in Hnd as (_ & Hd & _).
  apply (Hd r.2); [apply list_elem_of_fmap; by exists r|]. rewrite !elem_of_app. tauto.
Qed.

(** The slot of a call in the worker's queue is as the worker expects it. *)
Lemma queued_slot s r :
  good s -> r ∈ queued FsmQueue (shm s) ->
  exists sl, slots (shm s) !! r.2 = Some sl /\ owned sl = false /\ state sl = Pending /\ tag sl = r.1.
Proof.
  intros Hg Hr. destruct (open_slot s r Hg) as (sl & Hsl & Ho & Ht). { unfold opens. rewrite !elem_of_app. tauto. }
  assert (r.2 ∉ held s) as Hh.
  { eapply (opens_nodup s (sending s ++ queued ApiQueue (shm s) ++ raft_calls s) _ [] (fsm_taken s)); [done| |done].
    unfold opens. by rewrite <- !app_assoc. }
  assert (owned sl = false) as How.
  { rewrite <- (good_mutex s r.2 sl Hg Hsl) in Hh. by destruct (owned sl). }
  exists sl. split_and!; [done|done| |done]. pose proof (lg_dispatched _ _ _ _ _ (gd_ledger s Hg) r.2 sl Hsl) as Hd.
  destruct (state sl); try done. by rewrite How in Hd; specialize (Hd eq_refl).
Qed.

Definition fsm_received (r : call_rec) (q : CallQueue) (w : world) : world :=
  update_slot r.2 (record_timing (lit "FSM call received") (clock w))
    (update_slot r.2 (set_owned true) (set_queue FsmQueue q w)).

(** What [take] can do once it has passed [check_closed]. *)
Lemma take_cases (q : CallQueue) :
  ABQ.wf queue_capacity q ->
  (ABQ.empty q = true /\ ABQ.contents queue_capacity q = [] /\ ABQ.take_checked queue_capacity q = Block q) \/
  (ABQ.empty q = false /\ exists r q', ABQ.take_checked queue_capacity q = Ret r q').
Proof.
  intros Hwf. unfold ABQ.take_checked. destruct (ABQ.empty q) eqn:Hf; [left|right]; split_and!; try done.
  - unfold ABQ.empty in Hf. zbool. unfold ABQ.contents. by rewrite Hf.
  - unfold ABQ.empty in Hf. zbool.
    destruct (ABQ.take_body_spec (Capacity := queue_capacity) ltac:(done) q Hwf) as (v & q1 & -> & _);
      [destruct Hwf; lia|]. by exists v, q1.
Qed.

Lemma fsm_receive_cases s :
  good s ->
  (exists r q, ABQ.take_checked queue_capacity (get_queue FsmQueue (shm s)) = Ret r q /\
     fsm_receive_checked (shm s) = Ret r (fsm_received r q (shm s))) \/
  (queued FsmQueue (shm s) = [] /\ exists w, fsm_receive_checked (shm s) = Block w).
Proof.
  intros Hg. pose proof Hg as [G1 G2 G3 G5]. unfold fsm_receive_checked.
  destruct (take_cases _ (G3 FsmQueue)) as [(He & Hn & Ht)|(He & r & q & Ht)].
  - right. split; [done|]. unfold zoom, mbind, M_bind. rewrite Ht. eauto.
  - left. exists r, q. split; [done|]. destruct (take_Ret _ _ _ (G3 FsmQueue) Ht) as (_ & Hq & _).
    destruct (queued_slot s r Hg) as (sl & Hsl & How & Hst & _).
    { unfold queued. rewrite Hq. apply list_elem_of_here. }
    erewrite bind_Ret by (unfold zoom; by rewrite Ht). unfold fsm_lock.
    set (w := set_queue FsmQueue q (shm s)). assert (slots w !! r.2 = Some sl) as Hw by done.
    erewrite bind_Ret.
    2:{ unfold lock. erewrite bind_Ret; [|rewrite await_idle by done; unfold mutex_free; by rewrite Hw, How].
        erewrite bind_Ret by (by apply get_slot_eq). done. }
    unfold record_at. cbn [negb].
    erewrite bind_Ret; [|by erewrite bind_Ret by done].
    erewrite bind_Ret.
    2:{ apply get_slot_eq. cbn. by rewrite !lookup_alter_eq, Hsl. }
    cbn. by rewrite Hst.
Qed.

(** [take] from its beginning. *)
Lemma fsm_receive_eq w :
  sched w = [] ->
  fsm_receive w = (if ABQ.check_closed (get_queue FsmQueue w) then Throw w else fsm_receive_checked w).
Proof.
  intros Hs. assert (set_queue FsmQueue (get_queue FsmQueue w) w = w) as Ew by (by destruct w as [? ? ? [] ? ? ? ? ? ?]).
  unfold fsm_receive, fsm_receive_checked, queue_take, zoom, mbind, M_bind. rewrite await_idle by done.
  unfold ABQ.take, ABQ.take_checked.
  destruct (ABQ.check_closed (get_queue FsmQueue w)) eqn:Hc; cbn [orb]; [by rewrite Hc, Ew|].
  destruct (ABQ.empty (get_queue FsmQueue w)) eqn:He; cbn [negb]; [by rewrite Ew|by rewrite Hc, He].
Qed.

Lemma good_fsm_take r s w :
  good s -> fsm_receive_checked (shm s) = Ret r w ->
  good (Sys w (sending s) (futures s) (raft_calls s) (guests s) (r :: fsm_taken s) (released s) (lost s) (leaked s)).
Proof.
  intros Hg Hr. pose proof Hg as [G1 G2 G3 G5].
  destruct (fsm_receive_cases s Hg) as [(r' & q & Hq & E)|(_ & ? & E)]; rewrite E in Hr; try done.
  injection Hr as -> <-. destruct (take_Ret _ _ _ (G3 FsmQueue) Hq) as (Hwf & Hc & _).
  set (w := fsm_received r q (shm s)).
  set (s' := Sys w (sending s) (futures s) (raft_calls s) (guests s) (r :: fsm_taken s) (released s) (lost s) (leaked s)).
  assert (queued FsmQueue (shm s) = r :: queued FsmQueue w) as Eq by exact Hc.
  destruct (queued_slot s r Hg) as (sl & Hsl & How & Hst & _). { rewrite Eq. apply list_elem_of_here. }
  constructor; [|done| |].
  - apply custody_update; [done|]. apply custody_update; [done|]. by apply custody_queue.
  - intros []; [apply (G3 ApiQueue)|done].
  - assert (opens s' ≡ₚ opens s) as ->.
    { unfold opens. cbn [sending shm raft_calls fsm_taken released s' lost leaked]. rewrite Eq.
      change (queued ApiQueue w) with (queued ApiQueue (shm s)). perm. }
    assert (slots w = <[r.2 := record_timing (lit "FSM call received") (clock (shm s)) (set_owned true sl)]>
      (slots (shm s))) as Ew.
    { unfold w, fsm_received. erewrite (slots_update r.2 _ _ (set_owned true sl)).
      - erewrite slots_update by exact Hsl. apply insert_insert_eq.
      - erewrite slots_update by exact Hsl. apply lookup_insert_eq. }
    cbn [shm s']. rewrite Ew. change (bufs w) with (bufs (shm s)). change (owners s') with (owners s).
    eapply ledger_change; [exact G5|exact Hsl|done|done| | |done| |done|by left|].
    + split; [|done]. intros _. apply list_elem_of_here.
    + intros x Hx. unfold held. cbn. rewrite elem_of_cons. split; [by right|by intros [?|?]].
    + intros Ho. exact (lg_observed _ _ _ _ _ G5 _ _ Hsl Ho).
    + intros b Hu. unfold in_use, Ledger.is_open in *. cbn in Hu. congruence.
Qed.

(** A slot with its answer, unlocked. *)
Definition answers (sl sl' : slot) : Prop :=
  tag sl' = tag sl /\ args sl' = args sl /\ client_state sl' = client_state sl /\
  is_terminal (state sl') = true /\ owned sl' = false.

Lemma unlock_after p (m : M world ()) sl' w :
  m w = Ret () (FsmSpec.upd p sl' w) -> (m ;; unlock p) w = Ret () (FsmSpec.upd p (set_owned false sl') w).
Proof.
  intros Hm. erewrite bind_Ret by exact Hm.
  erewrite FsmSpec.unlock_eq by apply FsmSpec.upd_lookup. by rewrite FsmSpec.upd_upd.
Qed.

Lemma fsm_restored_eq p ok sl w :
  slots w !! p = Some sl -> is_terminal (state sl) = false ->
  exists sl', fsm_restored p ok w = Ret () (FsmSpec.upd p sl' w) /\ answers sl sl'.
Proof.
  intros Hsl Ho. destruct (FsmSpec.reply_at_eq p (if ok then RAFT_SUCCESS else RAFT_E_OTHER) sl w Hsl Ho) as
    (sl' & Hr & H1 & H2 & H3 & _ & _ & H4).
  exists (set_owned false sl'). split; [by apply unlock_after|]. unfold answers. cbn. rewrite H4. by destruct ok.
Qed.

Lemma fsm_applied_eq p v sl w :
  slots w !! p = Some sl -> is_terminal (state sl) = false ->
  exists sl', fsm_applied p v w = Ret () (FsmSpec.upd p sl' w) /\ answers sl sl'.
Proof.
  intros Hsl Ho. unfold fsm_applied. erewrite bind_Ret by (by apply FsmSpec.record_at_eq).
  erewrite unlock_after; [rewrite FsmSpec.upd_upd; eexists; split; [done|]|].
  2:{ unfold reply_value_at. eapply FsmSpec.slot_method_eq; [apply FsmSpec.upd_lookup|].
      rewrite reply_value_eq. by apply reply_open. }
  done.
Qed.

Lemma snapshot_done_eq p ok sl w :
  sched w = [] -> slots w !! p = Some sl -> is_terminal (state sl) = false -> owned sl = false ->
  exists sl', snapshot_done p ok w = Ret () (FsmSpec.upd p sl' w) /\ answers sl sl'.
Proof.
  intros Hs Hsl Ho How. unfold snapshot_done.
  assert (lock p w = Ret () (FsmSpec.upd p (set_owned true sl) w)) as Hlock.
  { unfold lock. erewrite bind_Ret; [|rewrite await_idle by done; unfold mutex_free; by rewrite Hsl, How].
    erewrite bind_Ret by (by apply get_slot_eq). unfold modify. by rewrite (FsmSpec.update_upd p _ sl). }
  destruct (fsm_restored_eq p ok (set_owned true sl) (FsmSpec.upd p (set_owned true sl) w)) as (sl' & Hr & Ha);
    [apply FsmSpec.upd_lookup|done|].
  exists sl'. split; [|done]. erewrite bind_Ret by exact Hlock. fold (fsm_restored p ok). by rewrite Hr, FsmSpec.upd_upd.
Qed.

Lemma custody_upd X p sl sl' w :
  slots w !! p = Some sl -> client_state sl' = client_state sl -> args sl' = args sl ->
  custody_with X w -> custody_with X (FsmSpec.upd p sl' w).
Proof.
  intros Hsl Hcs Ha. apply custody_frame; try done. intros q. unfold abandoned. cbn.
  destruct (decide (q = p)) as [->|]; [|by rewrite lookup_insert_ne].
  rewrite lookup_insert_eq, Hsl. by rewrite Hcs, Ha.
Qed.

(** The worker's calls are open, and no other part of the system has them. *)
Lemma taken_slot s r :
  good s -> r ∈ fsm_taken s -> exists sl, slots (shm s) !! r.2 = Some sl /\ is_terminal (state sl) = false /\ owned sl = true.
Proof.
  intros Hg Hr. destruct (open_slot s r Hg (taken_open s r Hr)) as (sl & Hsl & Ho & _). exists sl. split_and!; [done|done|].
  apply (good_mutex s r.2 sl Hg Hsl). unfold held. apply list_elem_of_fmap. by exists r.
Qed.

Lemma released_slot s r :
  good s -> r ∈ released s -> exists sl, slots (shm s) !! r.2 = Some sl /\ is_terminal (state sl) = false /\ owned sl = false.
Proof.
  intros Hg Hr. destruct (open_slot s r Hg) as (sl & Hsl & Ho & _). { unfold opens. rewrite !elem_of_app. tauto. }
  exists sl. split_and!; [done|done|]. destruct (owned sl) eqn:E; [exfalso|done].
  apply (good_mutex s r.2 sl Hg Hsl), list_elem_of_fmap in E as (r' & E & Hr').
  destruct (opens_nodup s (sending s ++ queued ApiQueue (shm s) ++ raft_calls s ++ queued FsmQueue (shm s))
    (fsm_taken s) [] (released s) (lost s) r' Hg) as []; [|done|rewrite <- E; apply list_elem_of_fmap; by exists r].
  unfold opens. by rewrite <- !app_assoc.
Qed.

Lemma held_remove s r l q :
  good s -> fsm_taken s ≡ₚ r :: l -> (r.2 ∉ l.*2) /\ (q <> r.2 -> q ∈ held s <-> q ∈ l.*2).
Proof.
  intros Hg Hl. split.
  - pose proof (lg_open_nodup _ _ _ _ _ (gd_ledger s Hg)) as Hnd. unfold opens in Hnd. rewrite !fmap_app in Hnd.
    do 4 apply NoDup_app in Hnd as (_ & _ & Hnd). apply NoDup_app in Hnd as (Hnd & _ & _). rewrite Hl in Hnd.
    by apply NoDup_cons in Hnd as [? _].
  - intros Hq. unfold held. rewrite Hl. cbn. rewrite elem_of_cons. split; [by intros [?|?]|by right].
Qed.

Lemma good_fsm_done r s l sl sl' :
  good s -> fsm_taken s ≡ₚ r :: l -> slots (shm s) !! r.2 = Some sl -> answers sl sl' ->
  good (Sys (FsmSpec.upd r.2 sl' (shm s)) (sending s) (futures s) (raft_calls s) (guests s) l (released s) (lost s) (leaked s)).
Proof.
  intros Hg Hl Hsl (Ht & Ha & Hcs & Hterm & How). pose proof Hg as [G1 G2 G3 G5].
  constructor; [by eapply custody_upd|done|exact G3|].
  eapply (good_answered s (Sys _ (sending s) (futures s) (raft_calls s) (guests s) l (released s) (lost s) (leaked s)) r _
    (fun _ => sl') sl); try done.
  - unfold opens. rewrite Hl. cbn [app]. by rewrite <- !Permutation_middle.
  - rewrite How. split; [done|]. intros Hin. by destruct (held_remove s r l 0 Hg Hl).
  - intros q Hq. by apply (held_remove s r l q).
Qed.

Lemma good_snapshot_done r ok s l w :
  good s -> released s ≡ₚ r :: l -> snapshot_done r.2 ok (shm s) = Ret () w ->
  good (Sys w (sending s) (futures s) (raft_calls s) (guests s) (fsm_taken s) l (lost s) (leaked s)).
Proof.
  intros Hg Hl Hr. pose proof Hg as [G1 G2 G3 G5].
  destruct (released_slot s r Hg) as (sl & Hsl & Ho & How). { rewrite Hl. apply list_elem_of_here. }
  destruct (snapshot_done_eq r.2 ok sl (shm s) G2 Hsl Ho How) as (sl' & E & Ht & Ha & Hcs & Hterm & How').
  rewrite E in Hr. injection Hr as <-.
  constructor; [by eapply custody_upd|done|exact G3|].
  eapply (good_answered s (Sys _ (sending s) (futures s) (raft_calls s) (guests s) (fsm_taken s) l (lost s) (leaked s)) r _
    (fun _ => sl') sl); try done.
  - unfold opens. rewrite Hl. cbn [app]. by rewrite <- !Permutation_middle.
  - rewrite How', <- How. exact (good_mutex s r.2 sl Hg Hsl).
Qed.

Lemma good_fsm_applied r v s l w :
  good s -> fsm_taken s ≡ₚ r :: l -> fsm_applied r.2 v (shm s) = Ret () w ->
  good (Sys w (sending s) (futures s) (raft_calls s) (guests s) l (released s) (lost s) (leaked s)).
Proof.
  intros Hg Hl Hr. destruct (taken_slot s r Hg) as (sl & Hsl & Ho & _); [rewrite Hl; apply list_elem_of_here|].
  destruct (fsm_applied_eq r.2 v sl (shm s) Hsl Ho) as (sl' & E & Ha). rewrite E in Hr. injection Hr as <-.
  by eapply good_fsm_done.
Qed.

Lemma good_fsm_restored r ok s l w :
  good s -> fsm_taken s ≡ₚ r :: l -> fsm_restored r.2 ok (shm s) = Ret () w ->
  good (Sys w (sending s) (futures s) (raft_calls s) (guests s) l (released s) (lost s) (leaked s)).
Proof.
  intros Hg Hl Hr. destruct (taken_slot s r Hg) as (sl & Hsl & Ho & _); [rewrite Hl; apply list_elem_of_here|].
  destruct (fsm_restored_eq r.2 ok sl (shm s) Hsl Ho) as (sl' & E & Ha). rewrite E in Hr. injection Hr as <-.
  by eapply good_fsm_done.
Qed.

Lemma good_fsm_dispatch r s w :
  good s -> r ∈ fsm_taken s -> fsm_dispatch r.2 (shm s) = Ret () w -> good (set_shm w s).
Proof.
  intros Hg Hin Hr. pose proof Hg as [G1 G2 G3 G5]. destruct (taken_slot s r Hg Hin) as (sl & Hsl & Ho & How).
  unfold fsm_dispatch, record_at in Hr. cbv [mbind M_bind modify now] in Hr. injection Hr as <-.
  rewrite (FsmSpec.update_upd r.2 (set_state Dispatched) sl) by done. erewrite FsmSpec.update_upd by apply FsmSpec.upd_lookup.
  rewrite FsmSpec.upd_upd. apply good_world; try done; [by eapply custody_upd|].
  cbn [FsmSpec.upd slots bufs set_slots].
  eapply ledger_change; [exact G5|exact Hsl|done|done|exact (good_mutex s r.2 sl Hg Hsl)|done|done| | | |].
  - intros Hob. pose proof (lg_observed _ _ _ _ _ G5 _ _ Hsl Hob) as E. unfold Ledger.is_open in E. by rewrite Ho in E.
  - intros _. unfold Ledger.is_open. by rewrite Ho.
  - left. split; [|done]. unfold Ledger.is_open. by rewrite Ho.
  - intros b _ Hu. unfold in_use, Ledger.is_open in Hu. by rewrite Ho in Hu.
Qed.

Lemma good_fsm_release r s l sl w :
  good s -> fsm_taken s ≡ₚ r :: l -> slots (shm s) !! r.2 = Some sl -> state sl = Pending ->
  unlock r.2 (shm s) = Ret () w ->
  good (Sys w (sending s) (futures s) (raft_calls s) (guests s) l (r :: released s) (lost s) (leaked s)).
Proof.
  intros Hg Hl Hsl Hst Hr. pose proof Hg as [G1 G2 G3 G5].
  rewrite (FsmSpec.unlock_eq _ _ _ Hsl) in Hr. injection Hr as <-.
  set (s' := Sys _ _ _ _ _ _ _ _ _). constructor; [by eapply custody_upd|done|exact G3|].
  assert (opens s' ≡ₚ opens s) as ->.
  { unfold opens. cbn [sending raft_calls fsm_taken released s' lost leaked].
    change (queued ?q (shm s')) with (queued q (shm s)). perm. }
  change (owners s') with (owners s). cbn [FsmSpec.upd slots bufs set_slots shm s'].
  eapply ledger_change; [exact G5|exact Hsl|done|done| | | | |done|by left|].
  - cbn. split; [done|]. intros Hin. by destruct (held_remove s r l 0 Hg Hl).
  - intros q Hq. by apply (held_remove s r l q).
  - cbn. by rewrite Hst.
  - intros Hob. exact (lg_observed _ _ _ _ _ G5 _ _ Hsl Hob).
  - intros b Hu. unfold in_use, Ledger.is_open in *. cbn in Hu. congruence.
Qed.

Lemma good_close which s :
  good s -> good (set_shm (set_queue which (ABQ.close_body (get_queue which (shm s))) (shm s)) s).
Proof.
  intros [G1 G2 G3 G5].
  set (w := set_queue which _ (shm s)).
  assert (forall which', queued which' w = queued which' (shm s)) as Eq.
  { intros which'. unfold queued, w. rewrite get_set_queue. by case_decide; subst. }
  constructor; cbn [shm set_shm].
  - by apply custody_queue.
  - by destruct which.
  - intros which'. unfold w. rewrite get_set_queue. case_decide as E; [subst|apply G3].
    destruct (G3 which). by constructor.
  - unfold opens, owners. cbn [shm set_shm sending futures raft_calls guests fsm_taken released lost leaked]. rewrite !Eq.
    by destruct which.
Qed.

Lemma good_flags s w :
  good s -> custody_with (leaked s) w -> sched w = sched (shm s) -> (forall which, get_queue which w = get_queue which (shm s)) ->
  orphans w = orphans (shm s) -> slots w = slots (shm s) -> bufs w = bufs (shm s) -> good (set_shm w s).
Proof.
  intros [G1 G2 G3 G5] Hc Hs Hq Ho E1 E2. constructor; cbn [shm set_shm].
  - done.
  - congruence.
  - intros which. by rewrite Hq.
  - unfold opens, owners, queued. cbn [shm set_shm sending futures raft_calls guests fsm_taken released lost leaked].
    by rewrite !Hq, Ho, E1, E2.
Qed.

Lemma good_act s s' : act_step s s' -> good s -> good s'.
Proof.
  intros Hst Hg. destruct Hst.
  - by eapply good_alloc.
  - by eapply good_free.
  - by eapply good_build.
  - by eapply good_put.
  - by eapply good_put_closed.
  - by eapply good_error.
  - by eapply good_wait.
  - by eapply good_dispose.
  - by eapply good_dispose_closed.
  - by apply good_raft_take.
  - by apply good_raft_reply.
  - by apply good_raft_reply_value.
  - by apply good_raft_build.
  - by eapply good_raft_put.
  - by apply good_raft_put_closed.
  - by eapply good_raft_free.
  - by apply good_fsm_take.
  - by eapply good_fsm_dispatch.
  - by eapply good_fsm_applied.
  - by eapply good_fsm_restored.
  - by eapply good_fsm_release.
  - by eapply good_snapshot_done.
  - by apply good_close.
  - pose proof (gd_custody _ Hg). apply good_flags; [done|by apply (custody_frame (shm s))|done|by intros []|done..].
  - pose proof (gd_custody _ Hg). apply good_flags; [done|by apply (custody_frame (shm s))|done|by intros []|done..].
  - pose proof (gd_custody _ Hg). apply good_flags; [done|by apply (custody_frame (shm s))|done|by intros []|done..].
  - apply good_flags; [done|apply custody_env, Hg|done|by intros []|done..].
Qed.

End System.
End System.
