(* ===== verification/SystemSpec.v ===== *)
(** * What the whole system guarantees

    Every slot has one owner, every call that waits for an answer is in one
    place, and nothing that the parts of the system do with the calls they have
    fails. *)

From stdpp Require Import base tactics list strings gmap relations.
From Stdlib Require Import ZArith Lia Permutation.
From S2P Require Import Prelude CString Defs ArrayQueue Deque Slot Shm ShmInv ShmSpec Orphans Collector Ledger CIf FsmWorker FsmSpec System.

Module SystemSpec.
Import CString Defs Slot Shm ShmSpec Orphans Collector Ledger FsmWorker System.

Section Spec.
Context `{Segment}.

(** ** What the operations leave alone *)

(** The operations on slots and buffers leave the queues, the backlog and the
    time alone, and only add to the orphans; the flag says whether they unlock. *)
Definition still (w : world) : Scoreboard * list Z * Z * Z := (scoreboard w, orphan_backlog w, next_check w, clock w).

Inductive slot_op : bool -> forall {A : Type}, M world A -> Prop :=
  | op_alloc len : slot_op false (alloc_raft_buffer len)
  | op_free b : slot_op false (free_raft_buffer b)
  | op_build t a : slot_op false (build_request t a)
  | op_error err t a : slot_op false (make_error_request err t a)
  | op_wait p : slot_op false (wait p)
  | op_dispose p : slot_op false (dispose p)
  | op_deallocate p : slot_op false (deallocate p)
  | op_dispatch p : slot_op false (fsm_dispatch p)
  | op_applied p v : slot_op true (fsm_applied p v)
  | op_restored p ok : slot_op true (fsm_restored p ok)
  | op_unlock p : slot_op true (unlock p)
  | op_snapshot p ok : slot_op true (snapshot_done p ok).
#[local] Hint Constructors slot_op : raft.

Section Ops.
Variable I : world -> Prop.
Hypothesis I_idle : forall w, I w -> sched w = [].
Hypothesis I_keep : forall w w',
  still w' = still w -> orphaned_calls w' = orphaned_calls w -> sched w' = sched w ->
  stale_unlocks w' = stale_unlocks w -> I w -> I w'.
Hypothesis I_put : forall p, preserves I (zoom orphaned_calls set_orphaned_calls (Deque.put p)).
Variable unlocks : bool.
Hypothesis I_unlock : unlocks = true -> forall p, preserves I (unlock p).

Lemma ops_modify f :
  (forall w, still (f w) = still w) -> (forall w, orphaned_calls (f w) = orphaned_calls w) ->
  (forall w, sched (f w) = sched w) -> (forall w, stale_unlocks (f w) = stale_unlocks w) -> preserves I (modify f).
Proof. intros F1 F2 F3 F4. apply preserves_modify. intros w. by apply I_keep. Qed.

Lemma ops_await cond : preserves I (await cond).
Proof. intros w Hw. rewrite await_idle by (by apply I_idle). by case_match. Qed.

#[local] Hint Resolve I_put ops_await ShmInv.preserves_get_slot ShmInv.preserves_now : raft.
#[local] Hint Extern 1 (preserves I (modify _)) => by apply ops_modify : raft.

Lemma ops_alloc_request t a : preserves I (alloc_request t a).
Proof. unfold alloc_request. ShmInv.pres. Qed.

Lemma ops_lock p : preserves I (lock p).
Proof. unfold lock. ShmInv.pres. Qed.

Lemma ops_record p l : preserves I (record_at p l).
Proof. unfold record_at. ShmInv.pres. Qed.

Lemma ops_slot_method p m : preserves I (slot_method p m).
Proof.
  unfold slot_method. ShmInv.pres. intros w Hw. unfold put_slot. case_match; try done. cbn. eapply I_keep; [..|exact Hw]; done.
Qed.
#[local] Hint Resolve ops_alloc_request ops_lock ops_record ops_slot_method : raft.

Lemma slot_op_preserves {A : Type} (m : M world A) : slot_op unlocks m -> preserves I m.
Proof.
  intros Hop. destruct Hop; try pose proof (I_unlock eq_refl); unfold alloc_raft_buffer, allocate_buf, free_raft_buffer, free_buf, build_request, make_error_request, wait,
    dispose, track_orphan, orphan_cleanup, free_raft_buffer, free_buf, deallocate, fsm_dispatch, fsm_applied,
    fsm_restored, snapshot_done, reply_at, reply_value_at; ShmInv.pres.
Qed.
End Ops.

(** ** Which side a call is on *)

(** Clients call the Raft process, and the Raft process calls the worker. *)
Record sides (s : sys) : Prop := Sides {
  sd_api : Forall (fun r => is_fsm r.1 = false) (queued ApiQueue (shm s));
  sd_raft : Forall (fun r => is_fsm r.1 = false) (raft_calls s);
  sd_fsm : Forall (fun r => is_fsm r.1 = true) (queued FsmQueue (shm s));
  sd_taken : Forall (fun r => is_fsm r.1 = true) (fsm_taken s);
  sd_released : Forall (fun r => r.1 = FSMApply \/ r.1 = FSMSnapshot) (released s)
}.

Lemma sides_init timing : sides (sys_start timing).
Proof. by constructor. Qed.

Lemma queued_same which w w' : scoreboard w' = scoreboard w -> queued which w' = queued which w.
Proof. intros E. unfold queued. destruct which; cbn; by rewrite E. Qed.

Lemma get_queue_same which w w' : scoreboard w' = scoreboard w -> get_queue which w' = get_queue which w.
Proof. intros E. destruct which; cbn; by rewrite E. Qed.

Lemma queues_Ret {A : Type} b (m : M world A) a w w' :
  slot_op b m -> sched w = [] -> m w = Ret a w' ->
  (forall which, get_queue which w' = get_queue which w) /\ orphan_backlog w' = orphan_backlog w /\
  next_check w' = next_check w /\ clock w' = clock w.
Proof.
  intros Hm Hs Hr. assert (preserves (fun x => still x = still w /\ sched x = []) m) as Hp.
  { eapply slot_op_preserves; [by intros x []|intros x y E1 _ E2 _ [? ?]; split; congruence|
      intros p; by apply preserves_zoom| |exact Hm].
    intros _ p x [E1 E2]. unfold unlock. by destruct (slots x !! p). }
  specialize (Hp w (conj eq_refl Hs)). rewrite Hr in Hp. destruct Hp as [Hp _].
  injection Hp as E1 E2 E3 E4. split_and!; [|done..]. intros which. by apply get_queue_same.
Qed.

(** The operations that do not unlock make no access to freed memory, and all of
    them keep the deque closed. *)
Lemma stale_Ret {A : Type} (m : M world A) a w w' :
  slot_op false m -> sched w = [] -> m w = Ret a w' -> stale_unlocks w' = stale_unlocks w.
Proof.
  intros Hm Hs Hr. assert (preserves (fun x => stale_unlocks x = stale_unlocks w /\ sched x = []) m) as Hp.
  { apply slot_op_preserves with (unlocks := false); [by intros x []|intros x y _ _ E1 E2 [? ?]; split; congruence|
      intros p; by apply preserves_zoom|done|exact Hm]. }
  specialize (Hp w (conj eq_refl Hs)). rewrite Hr in Hp. apply Hp.
Qed.

Lemma deque_closed_Ret {A : Type} b (m : M world A) a w w' :
  slot_op b m -> sched w = [] -> m w = Ret a w' ->
  Deque.closed (orphaned_calls w) = true -> Deque.closed (orphaned_calls w') = true.
Proof.
  intros Hm Hs Hr Hc. assert (preserves (fun x => Deque.closed (orphaned_calls x) = true /\ sched x = []) m) as Hp.
  { eapply slot_op_preserves; [by intros x []|intros x y _ E1 E2 _ [? ?]; split; congruence| | |exact Hm].
    - intros p x [E1 E2]. unfold zoom, Deque.put, Deque.put_section. by rewrite E1.
    - intros _ p x [E1 E2]. unfold unlock. by destruct (slots x !! p). }
  specialize (Hp w (conj Hc Hs)). rewrite Hr in Hp. apply Hp.
Qed.

(** A step that leaves the queues alone. *)
Ltac quiet :=
  match goal with
  | Hr : _ (shm ?s) = Ret _ ?w, G : sched (shm ?s) = [] |- _ =>
      let E := fresh in
      assert (forall which, queued which w = queued which (shm s)) as E
        by (intros; unfold queued; f_equal; eapply queues_Ret; [|exact G|exact Hr]; eauto with raft); rewrite ?E
  end.

Ltac drop_head :=
  match goal with
  | HP : ?l ≡ₚ _ :: _, HF : Forall _ ?l |- _ => rewrite HP in HF; apply Forall_cons in HF as [? HF]
  end.

Ltac by_fields := constructor; cbn [sending shm raft_calls fsm_taken released set_shm]; repeat constructor; done.

Lemma queued_put which r q w :
  ABQ.wf queue_capacity (get_queue which w) -> ABQ.put_checked queue_capacity r (get_queue which w) = Ret () q ->
  ABQ.contents queue_capacity q = queued which w ++ [r].
Proof. intros Hwf Hq. by apply (put_Ret _ _ _ Hwf Hq). Qed.

Lemma queued_take which r q w :
  ABQ.wf queue_capacity (get_queue which w) -> ABQ.take_checked queue_capacity (get_queue which w) = Ret r q ->
  queued which w = r :: ABQ.contents queue_capacity q.
Proof. intros Hwf Hq. by apply (take_Ret _ _ _ Hwf Hq). Qed.

Lemma queued_close which which' w :
  queued which (set_queue which' (ABQ.close_body (get_queue which' w)) w) = queued which w.
Proof. unfold queued. rewrite get_set_queue. by case_decide; subst. Qed.

(** The first of a list, and the slot of a future that is given up. *)
Ltac the_first := match goal with HP : _ ≡ₚ _ :: _ |- _ => rewrite HP end; apply list_elem_of_here.
Ltac the_future := match goal with HP : futures ?s ≡ₚ ?p :: _, Hg : good ?s |- _ =>
  let Hin := fresh in assert (p ∈ futures s) as Hin by the_first;
  destruct (good_future s p Hg Hin) as (sl & Hsl & Hcs & _) end.

Lemma sides_act s s' : act_step s s' -> good s -> sides s -> sides s'.
Proof.
  intros Hst Hg [S2 S3 S4 S5 S6]. pose proof Hg as [G1 G2 G3 G5]. destruct Hst; try drop_head;
    try (constructor; cbn [sending shm raft_calls fsm_taken released set_shm]; quiet; repeat constructor; done);
    try by_fields.
  - (* put *) epose proof (queued_put _ _ _ _ (G3 ApiQueue) ltac:(eassumption)) as E. constructor; try done.
    cbn [shm]. unfold queued. cbn. rewrite E. apply Forall_app. by repeat constructor.
  - (* dispose *) the_future. by destruct (dispose_throws _ _ _ _ Hsl Hcs ltac:(eassumption)) as (_ & _ & ->).
  - (* take *) epose proof (queued_take _ _ _ _ (G3 ApiQueue) ltac:(eassumption)) as E. rewrite E in S2. apply Forall_cons in S2 as [? S2].
    constructor; try done. by constructor.
  - (* send *) epose proof (queued_put _ _ _ _ (G3 FsmQueue) ltac:(eassumption)) as E. constructor; try done.
    cbn [shm]. unfold queued. cbn. rewrite E. apply Forall_app. by repeat constructor.
  - (* receive *) destruct (fsm_receive_cases s Hg) as [(r' & q & Hq & E)|(_ & ? & E)];
      rewrite E in *; simplify_eq.
    pose proof (queued_take _ _ _ _ (G3 FsmQueue) Hq) as E1. rewrite E1 in S4. apply Forall_cons in S4 as [? S4].
    constructor; try done. by constructor.
  - (* release *) constructor; cbn [sending shm raft_calls fsm_taken released]; quiet; try done.
    constructor; [|done]. unfold gives_back in *. destruct r.1; try done; auto.
  - (* close *) constructor; cbn [set_shm sending shm raft_calls fsm_taken released]; rewrite ?queued_close; done.
Qed.

Lemma sides_gc g g' s w : good s -> gc_ok g (shm s) -> gc_step (g, shm s) (g', w) -> sides s -> sides (set_shm w s).
Proof.
  intros Hg Hok Hst [S2 S3 S4 S5 S6].
  destruct (gc_step_effect _ _ _ _ (gd_custody s Hg) Hok Hst) as [[_ _ Hsb _ _ _] _].
  constructor; cbn [set_shm sending shm raft_calls fsm_taken released]; rewrite ?(queued_same _ _ _ Hsb); done.
Qed.

(** Only the collector uses its backlog. *)
Lemma act_backlog s s' : act_step s s' -> good s -> orphan_backlog (shm s') = orphan_backlog (shm s).
Proof.
  intros Hst Hg. pose proof Hg as [_ G2 _ _]. destruct Hst; cbn [shm set_shm]; try done;
    try (match goal with Hr : _ (shm s) = Ret _ ?w |- _ =>
      eapply queues_Ret; [|exact G2|exact Hr]; by eauto with raft end).
  - (* dispose *) the_future. by destruct (dispose_throws _ _ _ _ Hsl Hcs ltac:(eassumption)) as (_ & _ & ->).
  - (* receive *) destruct (fsm_receive_cases s Hg) as [(r' & q & Hq & E)|(_ & ? & E)];
      rewrite E in *; by simplify_eq.
Qed.

(** Nothing opens a queue or the deque again. *)
Lemma act_closed s s' which :
  act_step s s' -> good s -> ABQ.closed (get_queue which (shm s)) = true -> ABQ.closed (get_queue which (shm s')) = true.
Proof.
  intros Hst Hg Hc. pose proof Hg as [_ G2 G3 _]. destruct Hst; cbn [shm set_shm]; try done;
    try (match goal with Hr : _ (shm s) = Ret _ ?w |- _ =>
      assert (get_queue which w = get_queue which (shm s)) as ->; [|exact Hc];
      eapply queues_Ret; [|exact G2|exact Hr]; by eauto with raft end).
  - (* put *) rewrite get_set_queue. case_decide; subst; [|done]. by rewrite (proj2 (proj2 (put_Ret _ _ _ (G3 ApiQueue) ltac:(eassumption)))).
  - (* dispose *) the_future. by destruct (dispose_throws _ _ _ _ Hsl Hcs ltac:(eassumption)) as (_ & _ & ->), which.
  - (* take *) rewrite get_set_queue. case_decide; subst; [|done]. by rewrite (proj2 (proj2 (take_Ret _ _ _ (G3 ApiQueue) ltac:(eassumption)))).
  - (* send *) rewrite get_set_queue. case_decide; subst; [|done]. by rewrite (proj2 (proj2 (put_Ret _ _ _ (G3 FsmQueue) ltac:(eassumption)))).
  - (* receive *) destruct (fsm_receive_cases s Hg) as [(r' & q & Hq & E)|(_ & ? & E)]; rewrite E in *; simplify_eq.
    destruct which; [done|]. by rewrite <- Hc, <- (proj2 (proj2 (take_Ret _ _ _ (G3 FsmQueue) Hq))).
  - (* close *) rewrite get_set_queue. by case_decide.
Qed.

Lemma act_deque_closed s s' :
  act_step s s' -> good s -> Deque.closed (orphaned_calls (shm s)) = true -> Deque.closed (orphaned_calls (shm s')) = true.
Proof.
  intros Hst Hg Hc. pose proof Hg as [_ G2 _ _]. destruct Hst; cbn [shm set_shm]; try done;
    try (match goal with Hr : _ (shm s) = Ret _ ?w |- _ =>
      eapply deque_closed_Ret; [|exact G2|exact Hr|exact Hc]; by eauto with raft end).
  - (* dispose *) the_future. by destruct (dispose_throws _ _ _ _ Hsl Hcs ltac:(eassumption)) as (_ & _ & ->).
  - (* receive *) destruct (fsm_receive_cases s Hg) as [(r' & q & Hq & E)|(_ & ? & E)]; rewrite E in *; by simplify_eq.
Qed.

(** Only the collector writes to memory that has been freed. *)
Lemma act_stale s s' : act_step s s' -> good s -> stale_unlocks (shm s') = stale_unlocks (shm s).
Proof.
  intros Hst Hg. pose proof Hg as [_ G2 _ _]. destruct Hst; cbn [shm set_shm]; try done;
    try (match goal with Hr : _ (shm s) = Ret _ ?w |- _ => eapply stale_Ret; [|exact G2|exact Hr]; by eauto with raft end).
  - (* dispose *) the_future. by destruct (dispose_throws _ _ _ _ Hsl Hcs ltac:(eassumption)) as (_ & _ & ->).
  - (* receive *) destruct (fsm_receive_cases s Hg) as [(r' & q & Hq & E)|(_ & ? & E)]; rewrite E in *; by simplify_eq.
  - (* applied *) destruct (fsm_applied_eq r.2 v sl (shm s)) as (sl' & E & _); [done|by match goal with Hs : state _ = _ |- _ => rewrite Hs end|].
    rewrite E in *. by simplify_eq.
  - (* restored *) destruct (taken_slot s r Hg) as (sl & Hsl & Ho & _); [the_first|].
    destruct (fsm_restored_eq r.2 ok sl (shm s) Hsl Ho) as (sl' & E & _). rewrite E in *. by simplify_eq.
  - (* release *) erewrite FsmSpec.unlock_eq in * by eassumption. by simplify_eq.
  - (* snapshot *) destruct (released_slot s r Hg) as (sl & Hsl & Ho & How); [the_first|].
    destruct (snapshot_done_eq r.2 ok sl (shm s) G2 Hsl Ho How) as (sl' & E & _). rewrite E in *. by simplify_eq.
Qed.

(** What an exception has left behind. *)
Definition astray (s : sys) : Prop :=
  (lost s <> [] -> ABQ.closed (get_queue FsmQueue (shm s)) = true) /\
  (leaked s <> [] -> Deque.closed (orphaned_calls (shm s)) = true).

Lemma astray_act s s' : act_step s s' -> good s -> astray s -> astray s'.
Proof.
  intros Hst Hg [A1 A2].
  assert ((lost s <> [] -> ABQ.closed (get_queue FsmQueue (shm s')) = true) /\
    (leaked s <> [] -> Deque.closed (orphaned_calls (shm s')) = true)) as [B1 B2].
  { split; intros Hn; [apply (act_closed s s' FsmQueue Hst Hg); auto|apply (act_deque_closed s s' Hst Hg); auto]. }
  unfold astray. destruct Hst; cbn [shm set_shm lost leaked] in *; try done.
  - (* dispose *) split; [done|]. intros _. the_future.
    by destruct (dispose_throws _ _ _ _ Hsl Hcs ltac:(eassumption)) as (_ & ? & ->).
Qed.

(** What holds in every reachable state. *)
Definition inv (x : gc_pc * sys) : Prop := good x.2 /\ sides x.2 /\ gc_ok x.1 (shm x.2).

Lemma inv_sys_step x y : sys_step x y -> inv x -> inv y.
Proof.
  intros [g s s' Hst|g g' s w Hst] (Hg & Hsd & Hok); unfold inv; cbn [fst snd shm set_shm] in *.
  - split_and!; [by eapply good_act|by eapply sides_act|]. unfold gc_ok in *.
    by destruct g; rewrite ?(act_backlog s s' Hst Hg).
  - destruct (good_gc _ _ _ _ Hg Hok Hst). split_and!; [done|by eapply sides_gc|done].
Qed.

Lemma inv_run x y : rtc sys_step x y -> inv x -> inv y.
Proof. intros Hr. eapply invariant_rtc; [|exact Hr]. intros a b Ha Hab. by eapply inv_sys_step. Qed.

Lemma reachable timing x : rtc sys_step (sys_init timing) x -> inv x.
Proof. intros Hr. eapply inv_run; [exact Hr|]. split_and!; [apply good_init|apply sides_init|done]. Qed.

Lemma astray_step x y : sys_step x y -> inv x -> astray x.2 -> astray y.2.
Proof.
  intros [g s s' Hst|g g' s w Hst] (Hg & Hsd & Hok) [A1 A2]; cbn [fst snd] in *; [by apply (astray_act s s')|].
  destruct (gc_step_effect _ _ _ _ (gd_custody s Hg) Hok Hst) as [[_ _ Hsb _ Hcl _] _].
  split; cbn [set_shm shm lost leaked]; [rewrite (get_queue_same _ _ _ Hsb)|rewrite Hcl]; done.
Qed.

Lemma astray_reachable timing x : rtc sys_step (sys_init timing) x -> astray x.2.
Proof.
  intros Hr. enough (inv x /\ astray x.2) by tauto.
  eapply (invariant_rtc sys_step (fun x => inv x /\ astray x.2)); [|exact Hr|].
  - intros a b [Ha Aa] Hab. split; [by eapply inv_sys_step|by eapply astray_step].
  - split; [by apply (reachable timing)|done].
Qed.

(** ** The worker on a reachable segment *)

Section Worker.
Context {U : Type} (fsm : @RaftFSM U).

(** The client's functions themselves do not crash. *)
Record tame : Prop := Tame {
  tame_apply : forall i t ty b n u, safe (fsm_apply fsm i t ty b n) u;
  tame_snapshot : forall path p x, safe (fsm_begin_snapshot fsm path p) x;
  tame_restore : forall path u, safe (fsm_restore fsm path) u
}.

Lemma in_shm_inv {A : Type} (m : M world A) a w sq sw (u : U) y :
  in_shm m (FWorld w sq sw u) = Ret a y -> exists w', m w = Ret a w' /\ y = FWorld w' sq sw u.
Proof. unfold in_shm, zoom. cbn. destruct (m w) eqn:E; try done. intros [= <- <-]. by eexists. Qed.

Lemma call_user_inv {A : Type} (m : M U A) a w sq sw (u : U) y :
  call_user m (FWorld w sq sw u) = Ret a y -> exists u', y = FWorld w sq sw u'.
Proof. unfold call_user, zoom. cbn. destruct (m u) eqn:E; try done. intros [= <- <-]. by eexists. Qed.

Lemma safe_path sl w :
  kind_of (args sl) = KFilename -> worker_args (args sl) = true -> safe (path_of sl) w.
Proof.
  intros Hk Hw f. unfold path_of. destruct (args sl) as [| | | |path|]; try done. cbn in Hw.
  destruct (c_str path) as [[|c str]|]; try done.
Qed.

Lemma path_world sl w path w' : path_of sl w = Ret path w' -> w' = w.
Proof.
  unfold path_of. destruct (args sl) as [| | | |p|]; try done. destruct (c_str p) as [str|]; [|done].
  unfold mbind, M_bind, assert. destruct (negb _); [|done]. by intros [= _ <-].
Qed.

Lemma typed_fsm sl :
  sane sl = true ->
  match tag sl with
  | FSMApply => kind_of (args sl) = KLogEntry
  | FSMSnapshot | FSMRestore => kind_of (args sl) = KFilename
  | _ => True
  end /\ worker_args (args sl) = true.
Proof.
  unfold sane. intros [Ht Hw]%andb_prop. split; [|done]. by destruct (tag sl), (args sl).
Qed.

Lemma apply_safe p sl w sq sw u :
  tame -> slots w !! p = Some sl -> is_terminal (state sl) = false -> kind_of (args sl) = KLogEntry ->
  worker_args (args sl) = true ->
  safe (dispatch_fsm_apply fsm p ;; in_shm (unlock p)) (FWorld w sq sw u).
Proof.
  intros Ht Hsl Ho Hk Hw. unfold dispatch_fsm_apply.
  assert (forall x : @fworld U, safe (in_shm (unlock p)) x) as Hun.
  { intros x. apply safe_zoom. unfold safe, unlock. by case_match. }
  destruct (args sl) as [| | |index term ty b n| |] eqn:Ea; try done.
  intros f. rewrite bind_bind. revert f. eapply safe_then; [by apply FsmSpec.in_shm_Ret, get_slot_eq|].
  rewrite Ea. destruct ty; try (apply safe_bind; [done|]; intros; apply Hun).
  intros f. rewrite dispatch_fsm_apply_cmd_split. cbn in Hw. rewrite Hw. revert f.
  apply safe_bind; [done|]. intros [] y [= <-]. apply safe_bind; [by apply safe_zoom|].
  intros [] y (w1 & E & ->)%in_shm_inv. cbv [fsm_dispatch record_at mbind M_bind modify now] in E. injection E as <-.
  apply safe_bind; [apply safe_zoom, Ht|]. intros v y (u' & ->)%call_user_inv.
  apply safe_zoom. cbn [FsmWorker.shm].
  edestruct (fsm_applied_eq p v) as (sl' & E & _); [| |exact (safe_Ret _ _ _ _ E)].
  - cbn. by rewrite !lookup_alter_eq, Hsl.
  - done.
Qed.

Lemma restore_safe p sl w sq sw u :
  tame -> slots w !! p = Some sl -> is_terminal (state sl) = false -> kind_of (args sl) = KFilename ->
  worker_args (args sl) = true ->
  safe (dispatch_fsm_restore fsm p ;; in_shm (unlock p)) (FWorld w sq sw u).
Proof.
  intros Ht Hsl Ho Hk Hw f. rewrite dispatch_fsm_restore_split. revert f.
  apply safe_bind; [apply safe_zoom; eapply safe_Ret, get_slot_eq, Hsl|].
  intros sl0 y (w' & E & ->)%in_shm_inv. rewrite (get_slot_eq _ _ _ Hsl) in E. injection E as <- <-.
  apply safe_bind; [apply safe_zoom; by apply safe_path|].
  intros path y (w' & E & ->)%in_shm_inv.
  apply path_world in E as ->.
  apply safe_bind; [apply safe_zoom, Ht|]. intros v y (u' & ->)%call_user_inv.
  apply safe_zoom. destruct (fsm_restored_eq p (v =? 0) sl w Hsl Ho) as (sl' & E' & _). exact (safe_Ret _ _ _ _ E').
Qed.

Lemma snapshot_safe p sl w sq sw u :
  tame -> slots w !! p = Some sl -> kind_of (args sl) = KFilename -> worker_args (args sl) = true ->
  safe (in_shm (unlock p) ;; dispatch_fsm_snapshot fsm p) (FWorld w sq sw u).
Proof.
  intros Ht Hsl Hk Hw. eapply safe_then; [by apply FsmSpec.in_shm_Ret, FsmSpec.unlock_eq|].
  eapply safe_then; [apply FsmSpec.in_shm_Ret, get_slot_eq, FsmSpec.upd_lookup|].
  apply safe_bind; [apply safe_zoom; by apply safe_path|]. intros path y _. apply Ht.
Qed.

Lemma worker_has s :
  good s ->
  (exists r q, ABQ.take_checked queue_capacity (get_queue FsmQueue (shm s)) = Ret r q /\
     fsm_receive (shm s) = Ret r (fsm_received r q (shm s))) \/
  (exists w, fsm_receive (shm s) = Throw w) \/ (exists w, fsm_receive (shm s) = Block w).
Proof.
  intros Hg. rewrite fsm_receive_eq by apply Hg. destruct (ABQ.check_closed _); [right; left; eauto|].
  destruct (fsm_receive_cases s Hg) as [|(_ & w & E)]; [by left|]. right. right. eauto.
Qed.

Lemma worker_safe s sq sw u :
  tame -> good s -> sides s -> safe (fsm_worker_step fsm) (FWorld (shm s) sq sw u).
Proof.
  intros Ht Hg Hsd f. rewrite fsm_worker_step_split. revert f. pose proof (gd_queue s Hg FsmQueue) as Hwf.
  destruct (worker_has s Hg) as [(r & q & Hq & E)|[(? & E)|(? & E)]].
  2,3: intros f; unfold mbind, M_bind, in_shm, zoom; cbn [FsmWorker.shm]; by rewrite E.
  eapply safe_then; [by apply FsmSpec.in_shm_Ret|].
  pose proof (queued_take _ _ _ _ Hwf Hq) as Eq. pose proof (sd_fsm s Hsd) as Hk. rewrite Eq in Hk.
  apply Forall_cons in Hk as [Hk _].
  destruct (queued_slot s r Hg) as (sl & Hsl & How & Hst & Htag). { rewrite Eq. apply list_elem_of_here. }
  destruct (typed_fsm sl (lg_sane _ _ _ _ _ (gd_ledger s Hg) _ _ Hsl)) as [Hty Hwa].
  set (sl' := record_timing (lit "FSM call received") (clock (shm s)) (set_owned true sl)).
  assert (slots (fsm_received r q (shm s)) !! r.2 = Some sl') as Hsl'.
  { unfold fsm_received. cbn. by rewrite !lookup_alter_eq, Hsl. }
  assert (is_terminal (state sl') = false) as Ho by (cbn; by rewrite Hst).
  unfold fsm_dispatch_call. rewrite Htag in Hty.
  destruct r.1; try done; [by eapply apply_safe|by eapply snapshot_safe|by eapply restore_safe].
Qed.
End Worker.

(** A run of the others while the collector stands still. *)
Lemma acts_run (s s' : sys) g : rtc act_step s s' -> rtc sys_step (g, s) (g, s').
Proof. induction 1 as [|s1 s2 s3 Hst _ IH]; [done|]. eapply rtc_l; [by apply ss_act|done]. Qed.

(** ** Properties *)

(** C1: Who has what, in every state that clients, the collector, the Raft
    process and the FSM worker can reach together, shutdown included: each live
    slot is in exactly one list, of the threads that are about to queue it, of the
    clients' futures, of the Raft process, of the collector, or of what exceptions
    left behind during the shutdown, so no slot is ever freed twice. The calls that
    wait for their answer are each in exactly one place (being sent, in one of the
    two queues, with the Raft process or with the worker, or left behind) and are
    exactly the live slots without an answer. The mutex of a slot is held between
    steps only by the worker, for the calls it is working on. And nothing is left
    behind before the shutdown: no call to the state machine as long as the queue
    of the worker is open, no future that was given up as long as the deque of the
    collector is open. *)
Theorem sys_ownership timing g s :
  rtc sys_step (sys_init timing) (g, s) ->
  NoDup (owners s) /\ (forall p, p ∈ owners s <-> is_Some (slots (shm s) !! p)) /\
  NoDup ((opens s).*2) /\
  (forall t p, (t, p) ∈ opens s <->
     exists sl, slots (shm s) !! p = Some sl /\ is_terminal (state sl) = false /\ tag sl = t) /\
  (forall p sl, slots (shm s) !! p = Some sl -> owned sl = true <-> p ∈ (fsm_taken s).*2) /\
  (ABQ.closed (get_queue FsmQueue (shm s)) = false -> lost s = []) /\
  (Deque.closed (orphaned_calls (shm s)) = false -> leaked s = []).
Proof.
  intros Hr. pose proof (astray_reachable _ _ Hr) as [A1 A2]. apply reachable in Hr as (Hg & _ & _). cbn [snd] in *.
  pose proof (gd_ledger s Hg) as [H1 H2 H3 H4 _ H6 _ _ _ _ _].
  split_and!; [done|done|done| |done| |].
  - intros t p. rewrite H2. unfold Ledger.is_open.
    split; intros (sl & Hsl & Ho & Ht); exists sl; (split_and!; [done| |done]); by destruct (is_terminal (state sl)).
  - intros Ho. destruct (lost s); [done|]. rewrite A1 in Ho; done.
  - intros Ho. destruct (leaked s); [done|]. rewrite A2 in Ho; done.
Qed.

(** A future that a client holds can be waited for and disposed of. *)
Lemma future_safe s p : good s -> p ∈ futures s -> safe (wait p) (shm s) /\ safe (dispose p) (shm s).
Proof.
  intros Hg Hp. destruct (good_future s p Hg Hp) as (sl & Hsl & Hcs & _). split.
  - apply safe_bind.
    + intros f. rewrite await_idle by apply Hg. by case_match.
    + intros [] w [_ ->]%await_idle_inv; [|apply Hg]. eapply safe_then; [by apply get_slot_eq|]. done.
  - eapply safe_then; [by apply get_slot_eq|]. destruct (client_state sl); [|done|done].
    intros f. unfold mbind, M_bind, modify, track_orphan, zoom, Deque.put, Deque.put_section.
    by destruct (Deque.closed _).
Qed.


(** C27: On a reachable segment a whole step of the FSM worker, from taking the
    call to giving its lock back, does not crash for any client code that does
    not crash itself: the slot it finds in the queue is live, unlocked and
    pending, its tag is one of the three it handles, its arguments have the type
    it casts to and pass the worker's assertions, and the answer is the first. *)
Theorem sys_worker_safe {U : Type} (fsm : @RaftFSM U) timing g s sq sw u :
  tame fsm -> rtc sys_step (sys_init timing) (g, s) ->
  forall f, fsm_worker_step fsm (FWorld (shm s) sq sw u) <> Fault f.
Proof. intros Ht (Hg & Hsd & _)%reachable. by apply worker_safe. Qed.

End Spec.

(** ** A concrete run

    A client sends a command and gives it up; meanwhile the Raft process has
    taken it and sent it on to the worker. *)
Definition demo_entry : call_args := LogEntry 1 1 RAFT_LOG_COMMAND 4096 16.

Definition put_queue (which : which_queue) (r : call_rec) (w : world) : CallQueue :=
  match ABQ.put queue_capacity r (get_queue which w) with Ret _ q => q | _ => get_queue which w end.
Definition take_queue (which : which_queue) (w : world) : CallQueue :=
  match ABQ.take queue_capacity (get_queue which w) with Ret _ q => q | _ => get_queue which w end.

Definition demo1 : world := run (alloc_raft_buffer 16) (init_world false []).
Definition demo2 : world := run (build_request Apply (ApplyArgs 4096 16 0)) demo1.
Definition demo3 : world := set_queue ApiQueue (put_queue ApiQueue (Apply, 4352) demo2) demo2.
Definition demo4 : world := run (dispose 4352) demo3.
Definition demo5 : world := set_queue ApiQueue (take_queue ApiQueue demo4) demo4.
Definition demo_built : world := with_call 4608 (sent_slot FSMApply demo_entry (clock demo5)) demo5.
Definition demo6 : world := set_queue FsmQueue (put_queue FsmQueue (FSMApply, 4608) demo_built) demo_built.
Definition demo7 : world := run fsm_receive demo6.

Definition demo : sys := Sys demo7 [] [] [(Apply, 4352)] [4608] [(FSMApply, 4608)] [] [] [].

#[local] Strategy 100 [demo1 demo2 demo3 demo4 demo5 demo_built demo6 demo7].

(** When the Raft process has taken the call of the client. *)
Definition demo_taken : sys := Sys demo5 [] [] [(Apply, 4352)] [] [] [] [] [].

Lemma demo_taken_run : rtc act_step (sys_start false) demo_taken.
Proof.
  apply (rtc_l _ _ (Sys demo1 [] [] [] [] [] [] [] [])); [by apply (st_alloc 16 (sys_start false) 4096); vm_compute|].
  apply (rtc_l _ _ (Sys demo2 [(Apply, 4352)] [] [] [] [] [] [] [])).
  { apply (st_build Apply (ApplyArgs 4096 16 0) (Sys demo1 [] [] [] [] [] [] [] [])); [done|done| |by vm_compute].
    intros b Hb. vm_compute in Hb. simplify_eq. split; [vm_compute; by eexists|].
    intros q (sl & Hsl & _). assert (slots demo1 = ∅) as E by (by vm_compute).
    cbn [shm] in Hsl. by rewrite E, lookup_empty in Hsl. }
  apply (rtc_l _ _ (Sys demo3 [] [4352] [] [] [] [] [] [])).
  { unfold demo3. apply (st_put (Apply, 4352) (Sys demo2 [(Apply, 4352)] [] [] [] [] [] [] []) []
      (put_queue ApiQueue (Apply, 4352) demo2)); [done|done|by vm_compute]. }
  apply (rtc_l _ _ (Sys demo4 [] [] [] [] [] [] [] [])).
  { apply (st_dispose 4352 (Sys demo3 [] [4352] [] [] [] [] [] []) []); [done| |by vm_compute].
    intros sl b Hsl _ Hu _. vm_compute in Hsl. by simplify_eq. }
  apply rtc_once. unfold demo_taken, demo5.
  by apply (st_raft_take (Apply, 4352) (Sys demo4 [] [] [] [] [] [] [] []) (take_queue ApiQueue demo4)); vm_compute.
Qed.

(** Before the worker has taken the call of the Raft process. *)
Definition demo_waiting : sys := Sys demo6 [] [] [(Apply, 4352)] [4608] [] [] [] [].

Lemma demo_waiting_run : rtc act_step (sys_start false) demo_waiting.
Proof.
  etrans; [exact demo_taken_run|].
  apply (rtc_l _ _ (Sys demo_built [(FSMApply, 4608)] [] [(Apply, 4352)] [] [] [] [] [])).
  { apply (st_raft_build 4608 FSMApply demo_entry demo_taken); [done|done|done| |done].
    apply (bool_decide_unpack _). by vm_compute. }
  apply rtc_once. unfold demo_waiting, demo6.
  apply (st_raft_put (FSMApply, 4608) (Sys demo_built [(FSMApply, 4608)] [] [(Apply, 4352)] [] [] [] [] []) []
    (put_queue FsmQueue (FSMApply, 4608) demo_built)); [done|done|by vm_compute].
Qed.

Lemma demo_run : rtc act_step (sys_start false) demo.
Proof.
  eapply rtc_r; [exact demo_waiting_run|]. by apply (st_fsm_take (FSMApply, 4608) demo_waiting demo7); vm_compute.
Qed.

Lemma demo_reached : rtc sys_step (sys_init false) (GcFetch, demo).
Proof. apply acts_run, demo_run. Qed.

Lemma sys_ownership_witness : owners demo = [4608; 4352] /\ NoDup (owners demo) /\ is_Some (slots (shm demo) !! 4352).
Proof.
  destruct (sys_ownership false GcFetch demo demo_reached) as (H1 & H2 & _).
  split_and!; [by vm_compute|exact H1|apply H2; vm_compute; right; by left].
Defined.


(** A state machine that counts. *)
Definition count_fsm : @RaftFSM Z :=
  MkFSM (fun _ _ _ _ _ => modify (Z.add 1) ;; get) (fun _ _ => mret ()) (fun _ => mret 0).

Lemma count_tame : tame count_fsm.
Proof. by constructor. Qed.

Lemma sys_worker_safe_witness :
  queued FsmQueue (shm demo_waiting) = [(FSMApply, 4608)] /\
  forall f, fsm_worker_step count_fsm (FWorld (shm demo_waiting) (Deque.Dq [] false) false 0) <> Fault f.
Proof.
  split; [by vm_compute|].
  exact (sys_worker_safe count_fsm false GcFetch demo_waiting _ _ _ count_tame (acts_run _ _ _ demo_waiting_run)).
Defined.
End SystemSpec.
