(* ===== verification/SystemCalls.v ===== *)
(** * What becomes of the calls

    Which of the calls that wait never get their answer: the log entries that are
    not commands, which the worker takes and does not answer, and the calls that
    an exception leaves behind during the shutdown.  A step of the system never
    takes a call out of these two kinds. *)

From stdpp Require Import base tactics list strings gmap relations.
From Stdlib Require Import ZArith Lia Permutation.
From S2P Require Import Prelude CString Defs ArrayQueue Deque Slot Shm ShmInv ShmSpec Orphans Collector Ledger CIf FsmWorker FsmSpec System SystemSpec.

Module SystemCalls.
Import CString Defs Slot Shm ShmSpec Orphans Collector Ledger FsmWorker System SystemSpec.

Section Live.
Context `{Segment}.

(** ** The slot of a call that waits *)

(** A log entry that is not a command, as long as it has no answer. *)
Definition mute (sl : slot) : bool :=
  bool_decide (tag sl = FSMApply) && bool_decide (state sl = Pending) && negb (is_command (args sl)).

Lemma mute_inv sl : mute sl = true -> tag sl = FSMApply /\ state sl = Pending /\ is_command (args sl) = false.
Proof.
  unfold mute. intros [[Ht%bool_decide_eq_true Hs%bool_decide_eq_true]%andb_prop Hc%negb_true_iff]%andb_prop. done.
Qed.

(** What a step can do to the slot of an open call: it stays, with its tag and
    arguments, is not set back, and gets no answer if it is mute. *)
Definition same_call (sl sl' : slot) : Prop :=
  tag sl' = tag sl /\ args sl' = args sl /\ (state sl' = Pending -> state sl = Pending) /\
  (mute sl = true -> state sl' = state sl).

Definition keeps_calls (m m' : gmap Z slot) : Prop :=
  forall p sl, m !! p = Some sl -> is_terminal (state sl) = false ->
    exists sl', m' !! p = Some sl' /\ same_call sl sl'.

Lemma same_call_refl sl : same_call sl sl.
Proof. done. Qed.
#[local] Hint Resolve same_call_refl : core.

Lemma keeps_same m : keeps_calls m m.
Proof. intros p sl Hsl _. by exists sl. Qed.

Lemma keeps_insert m q sl sl' :
  m !! q = Some sl -> (is_terminal (state sl) = false -> same_call sl sl') -> keeps_calls m (<[q := sl']> m).
Proof.
  intros Hq Hs p x Hx Ho. destruct (decide (q = p)) as [->|Hne].
  - rewrite Hq in Hx. injection Hx as <-. exists sl'. rewrite lookup_insert_eq. auto.
  - exists x. by rewrite lookup_insert_ne by done.
Qed.

Lemma keeps_new m q sl' : m !! q = None -> keeps_calls m (<[q := sl']> m).
Proof. intros Hq p x Hx Ho. exists x. by rewrite lookup_insert_ne by congruence. Qed.

Lemma keeps_delete m q :
  (forall sl, m !! q = Some sl -> is_terminal (state sl) = true) -> keeps_calls m (delete q m).
Proof.
  intros Hq p x Hx Ho. destruct (decide (q = p)) as [->|Hne]; [by rewrite (Hq x Hx) in Ho|].
  exists x. by rewrite lookup_delete_ne by done.
Qed.

Lemma keeps_update w q f :
  (forall sl, slots w !! q = Some sl -> is_terminal (state sl) = false -> same_call sl (f sl)) ->
  keeps_calls (slots w) (slots (update_slot q f w)).
Proof.
  intros Hf p x Hx Ho. cbn. destruct (decide (q = p)) as [->|Hne].
  - exists (f x). rewrite lookup_alter_eq, Hx. auto.
  - exists x. by rewrite lookup_alter_ne by done.
Qed.

Lemma get_slot_inv p w sl w' : get_slot p w = Ret sl w' -> slots w !! p = Some sl /\ w' = w.
Proof. unfold get_slot. destruct (slots w !! p); [|done]. by intros [= -> ->]. Qed.

(** A call that is not for the state machine is not mute. *)
Lemma not_mute s r sl :
  good s -> r ∈ opens s -> r.1 <> FSMApply -> slots (shm s) !! r.2 = Some sl -> mute sl = false.
Proof.
  intros Hg Hr Hne Hsl. destruct (open_slot s r Hg Hr) as (sl' & Hsl' & _ & Ht). rewrite Hsl in Hsl'.
  injection Hsl' as <-. unfold mute. by rewrite bool_decide_false by congruence.
Qed.

Lemma api_not_apply (r : call_rec) : is_fsm r.1 = false -> r.1 <> FSMApply.
Proof. intros Hf E. by rewrite E in Hf. Qed.

(** The answer to a call that is not mute. *)
Lemma keeps_answered m q sl sl' : m !! q = Some sl -> mute sl = false -> answers sl sl' -> keeps_calls m (<[q := sl']> m).
Proof. intros Hq Hm (? & ? & _ & Ht & _). eapply keeps_insert; [exact Hq|]. intros _. split_and!; [done|done| |congruence].
  intros E. by rewrite E in Ht. Qed.

Lemma keeps_error err t a w p w' :
  make_error_request err t a w = Ret p w' -> keeps_calls (slots w) (slots w').
Proof.
  intros Hr. destruct (decide (err = RAFT_SUCCESS)) as [->|Herr]; [done|].
  destruct (seg_alloc_node (used w)) as [p1|] eqn:E.
  - rewrite (make_error_request_eq _ _ _ _ _ E Herr) in Hr. injection Hr as <- <-.
    apply keeps_new. by apply fresh_node.
  - unfold make_error_request, alloc_request in Hr. rewrite bool_decide_true in Hr by done.
    cbv [mbind M_bind modify get fail assert mret M_ret] in Hr.
    change (used (count_call_alloc w)) with (used w) in Hr. by rewrite E in Hr.
Qed.

Lemma keeps_dispose s p w :
  good s -> p ∈ futures s -> dispose p (shm s) = Ret () w -> keeps_calls (slots (shm s)) (slots w).
Proof.
  intros Hg Hp Hr. unfold dispose in Hr.
  apply bind_Ret_inv in Hr as (sl & w1 & Hw & Hr). apply get_slot_inv in Hw as [Hsl ->].
  destruct (good_future s p Hg Hp) as (sl' & Hsl' & Hcs & _). rewrite Hsl in Hsl'. injection Hsl' as <-.
  destruct (client_state sl) eqn:Ecs; [| |done].
  - cbv [mbind M_bind modify] in Hr. unfold track_orphan, zoom, Deque.put, Deque.put_section in Hr.
    destruct (Deque.closed _); [done|]. injection Hr as <-. by apply (keeps_update (shm s)).
  - injection Hr as <-. apply keeps_delete. intros sl' Hsl'. rewrite Hsl in Hsl'. injection Hsl' as <-.
    pose proof (lg_observed _ _ _ _ _ (gd_ledger s Hg) _ _ Hsl Ecs) as Ho. unfold Ledger.is_open in Ho.
    by destruct (is_terminal (state sl)).
Qed.

Lemma keeps_wait s p w :
  good s -> wait p (shm s) = Ret () w -> keeps_calls (slots (shm s)) (slots w).
Proof.
  intros Hg Hr. unfold wait in Hr.
  apply bind_Ret_inv in Hr as ([] & w1 & Hw & Hr). apply await_idle_inv in Hw as [_ ->]; [|apply Hg].
  apply bind_Ret_inv in Hr as (sl & w1 & Hw & Hr). apply get_slot_inv in Hw as [_ ->].
  cbv [now mbind M_bind modify] in Hr. injection Hr as <-. by apply keeps_update.
Qed.

Lemma keeps_buffers {A : Type} (m : M world A) w a w' :
  preserves (fun x => slots x = slots w) m -> m w = Ret a w' -> keeps_calls (slots w) (slots w').
Proof. intros Hp Hr. specialize (Hp w eq_refl). rewrite Hr in Hp. cbn in Hp. rewrite Hp. apply keeps_same. Qed.

Lemma alloc_slots len w : preserves (fun x => slots x = slots w) (alloc_raft_buffer len).
Proof.
  intros x Hx. unfold alloc_raft_buffer, allocate_buf. cbv [mbind M_bind get modify fail mret M_ret].
  by destruct (seg_alloc _ len).
Qed.

Lemma free_slots b w : preserves (fun x => slots x = slots w) (free_raft_buffer b).
Proof.
  intros x Hx. unfold free_raft_buffer, free_buf. cbv [mbind M_bind get modify fail mret M_ret]. cbn.
  by destruct (bufs x !! b).
Qed.

Lemma keeps_dispatch p sl w w' :
  slots w !! p = Some sl -> is_command (args sl) = true -> fsm_dispatch p w = Ret () w' -> keeps_calls (slots w) (slots w').
Proof.
  intros Hsl Hc Hr. unfold fsm_dispatch, record_at in Hr. cbv [mbind M_bind modify now] in Hr. injection Hr as <-.
  erewrite (FsmSpec.update_upd p (set_state Dispatched)) by exact Hsl.
  erewrite FsmSpec.update_upd by apply FsmSpec.upd_lookup. rewrite FsmSpec.upd_upd.
  eapply keeps_insert; [exact Hsl|]. intros _. split_and!; [done|done|done|]. unfold mute. by rewrite Hc, andb_false_r.
Qed.

Lemma keeps_receive s r w :
  good s -> fsm_receive_checked (shm s) = Ret r w -> keeps_calls (slots (shm s)) (slots w).
Proof.
  intros Hg Hr. destruct (fsm_receive_cases s Hg) as [(r' & q & Hq & E)|(_ & ? & E)];
    rewrite E in Hr; simplify_eq. unfold fsm_received.
  intros p sl Hsl _. cbn [update_slot slots set_slots]. destruct (decide (r.2 = p)) as [->|].
  - rewrite !lookup_alter_eq. cbn. rewrite Hsl. by eexists.
  - rewrite !lookup_alter_ne by done. by exists sl.
Qed.

(** The run of the operation that a step is about, and the call it is about. *)
Ltac the_run Hr := match goal with H : _ (shm _) = Ret _ _ |- _ => rename H into Hr end.
Ltac the_future := match goal with HP : futures ?s ≡ₚ ?p :: _, Hg : good ?s |- _ =>
  let Hin := fresh in assert (p ∈ futures s) as Hin by (rewrite HP; apply list_elem_of_here);
  destruct (good_future s p Hg Hin) as (sl & Hsl & Hcs & _) end.
Ltac the_call := match goal with HP : _ ≡ₚ _ :: _ |- _ => rewrite HP end; apply list_elem_of_here.

Lemma opens_parts s r :
  r ∈ sending s \/ r ∈ raft_calls s \/ r ∈ fsm_taken s \/ r ∈ released s \/ r ∈ lost s -> r ∈ opens s.
Proof. unfold opens. rewrite !elem_of_app. tauto. Qed.

Lemma act_keeps s s' : act_step s s' -> good s -> sides s -> keeps_calls (slots (shm s)) (slots (shm s')).
Proof.
  intros Hst Hg [_ S3 _ _ _]. rewrite Forall_forall in S3.
  assert (forall r q sl, r ∈ opens s -> r.1 <> FSMApply -> r.2 = q -> slots (shm s) !! q = Some sl -> mute sl = false) as Hnm.
  { intros r q sl Hr Hne <- Hsl. by eapply not_mute. }
  destruct Hst; cbn [shm set_shm]; try apply keeps_same.
  - eapply keeps_buffers; [apply alloc_slots|eassumption].
  - eapply keeps_buffers; [apply free_slots|eassumption].
  - the_run Hr. apply build_request_eq in Hr as [E ->]. apply keeps_new. by apply fresh_node.
  - assert (r ∈ sending s) as Hin by the_call. apply (keeps_update (shm s)). intros sl Hsl _. split_and!; [done|done|done|].
    rewrite (Hnm r r.2 sl); [done|apply opens_parts; auto|by apply api_not_apply|done|done].
  - by eapply keeps_error.
  - by eapply keeps_wait.
  - eapply keeps_dispose; [done| |eassumption]. the_call.
  - the_future. destruct (dispose_throws _ _ _ _ Hsl Hcs ltac:(eassumption)) as (_ & _ & ->). by apply (keeps_update (shm s)).
  - assert (r ∈ raft_calls s) as Hin by the_call. apply (keeps_update (shm s)). intros sl Hsl Ho.
    rewrite reply_open by done. split_and!; [done|done|by destruct err|].
    rewrite (Hnm r r.2 sl); [done|apply opens_parts; auto|by apply api_not_apply, S3|done|done].
  - assert (r ∈ raft_calls s) as Hin by the_call. apply (keeps_update (shm s)). intros sl Hsl Ho.
    rewrite reply_value_eq, reply_open by done. split_and!; [done|done|done|].
    rewrite (Hnm r r.2 sl); [done|apply opens_parts; auto|by apply api_not_apply, S3|done|done].
  - apply keeps_new, not_elem_of_dom. unfold used in *. set_solver.
  - the_run Hr. injection Hr as <-. apply keeps_delete. intros sl' Hsl'. congruence.
  - by eapply keeps_receive.
  - eapply keeps_dispatch; eassumption.
  - the_run Hr. destruct (fsm_applied_eq r.2 v sl (shm s)) as (sl' & E & Ha);
      [done|by match goal with Hs : state _ = Dispatched |- _ => rewrite Hs end|].
    rewrite E in Hr. injection Hr as <-. eapply keeps_answered; [eassumption| |done].
    unfold mute. match goal with Hs : state _ = Dispatched |- _ => rewrite Hs end. cbn. by rewrite andb_false_r.
  - the_run Hr. assert (r ∈ fsm_taken s) as Hin by the_call. destruct (taken_slot s r Hg Hin) as (sl & Hsl & Ho & _).
    destruct (fsm_restored_eq r.2 ok sl (shm s) Hsl Ho) as (sl' & E & Ha). rewrite E in Hr. injection Hr as <-.
    eapply keeps_answered; [exact Hsl| |done]. eapply Hnm; [apply opens_parts; eauto 6|congruence|done|done].
  - the_run Hr. erewrite FsmSpec.unlock_eq in Hr by eassumption. injection Hr as <-. by eapply keeps_insert.
  - the_run Hr. assert (r ∈ released s) as Hin by the_call. destruct (released_slot s r Hg Hin) as (sl & Hsl & Ho & How).
    destruct (snapshot_done_eq r.2 ok sl (shm s) (gd_sched s Hg) Hsl Ho How) as (sl' & E & Ha). rewrite E in Hr. injection Hr as <-.
    eapply keeps_answered; [exact Hsl| |done]. eapply Hnm; [apply opens_parts; eauto 6|congruence|done|done].
Qed.

Lemma sys_keeps x y : sys_step x y -> inv x -> keeps_calls (slots (shm x.2)) (slots (shm y.2)).
Proof.
  intros Hst (Hg & Hsd & Hok). destruct Hst as [g s s' Hst|g g' s w Hst]; cbn [fst snd shm set_shm] in *; [by apply act_keeps|].
  destruct (gc_step_effect _ _ _ _ (gd_custody s Hg) Hok Hst) as [[_ (ps & Hsw & _) _ _ _ _] _].
  intros p sl Hsl Ho. exists sl. split; [|done]. rewrite (sp_slots _ _ _ Hsw), decide_False; [done|].
  intros [_ Ha]. unfold answered in Ha. rewrite Hsl in Ha. unfold poll in Ha. by rewrite Ho, andb_false_r in Ha.
Qed.

(** ** Calls without an answer for ever *)

(** The calls that the worker has given back unanswered, apart from snapshots,
    are log entries that are not commands. *)
Definition hushed (s : sys) : Prop :=
  forall r, r ∈ released s -> r.1 = FSMApply -> exists sl, slots (shm s) !! r.2 = Some sl /\ mute sl = true.

Lemma mute_open sl : mute sl = true -> is_terminal (state sl) = false.
Proof. by intros (_ & -> & _)%mute_inv. Qed.

Lemma mute_same sl sl' : same_call sl sl' -> mute sl = true -> mute sl' = true.
Proof. intros (Et & Ea & _ & Es) Hm. pose proof (Es Hm) as E. unfold mute in *. by rewrite Et, Ea, E. Qed.

Lemma mute_keeps m m' p sl :
  keeps_calls m m' -> m !! p = Some sl -> mute sl = true -> exists sl', m' !! p = Some sl' /\ mute sl' = true.
Proof.
  intros Hk Hsl Hm. destruct (Hk p sl Hsl (mute_open sl Hm)) as (sl' & Hsl' & Hs). exists sl'. split; [done|].
  by eapply mute_same.
Qed.

(** What a step adds to the calls that were given back. *)
Lemma released_new s s' r :
  act_step s s' -> r ∈ released s' ->
  r ∈ released s \/ exists sl w, slots (shm s) !! r.2 = Some sl /\ state sl = Pending /\
    gives_back r.1 (args sl) = true /\ unlock r.2 (shm s) = Ret () w /\ shm s' = w /\ r ∈ fsm_taken s.
Proof.
  intros Hst Hr. destruct Hst; cbn [released set_shm shm] in *; try (by left).
  - apply elem_of_cons in Hr as [->|Hr]; [right|by left]. do 2 eexists. split_and!; try eassumption; [done|]. the_call.
  - left. match goal with HP : _ ≡ₚ _ :: _ |- _ => rewrite HP end. by apply list_elem_of_further.
Qed.

Lemma hushed_act s s' : act_step s s' -> good s -> sides s -> hushed s -> hushed s'.
Proof.
  intros Hst Hg Hsd Hh r Hr Hr1. destruct (released_new s s' r Hst Hr) as [Hin|(sl & w & Hsl & Hp & Hb & Hu & <- & Hin)].
  - destruct (Hh r Hin Hr1) as (sl & Hsl & Hm). eapply mute_keeps; [by apply act_keeps|exact Hsl|exact Hm].
  - rewrite (FsmSpec.unlock_eq _ _ _ Hsl) in Hu. injection Hu as <-. eexists. split; [apply FsmSpec.upd_lookup|].
    destruct (open_slot s r Hg (taken_open s r Hin)) as (sl0 & Hsl0 & _ & Ht). rewrite Hsl in Hsl0. injection Hsl0 as <-.
    rewrite Hr1 in Hb. unfold mute. cbn [tag state args set_owned]. by rewrite Ht, Hr1, Hp.
Qed.

Lemma hushed_step x y : sys_step x y -> inv x -> hushed x.2 -> hushed y.2.
Proof.
  intros Hst Hi Hh. destruct Hst as [g s s' Hst|g g' s w Hst]; cbn [fst snd] in *.
  - apply (hushed_act s s' Hst); [apply Hi|apply Hi|done].
  - intros r Hr Hr1. destruct (Hh r Hr Hr1) as (sl & Hsl & Hm).
    eapply mute_keeps; [by apply (sys_keeps _ _ (ss_gc g g' s w Hst))|exact Hsl|exact Hm].
Qed.

(** The state of the system between steps. *)
Definition sound (x : gc_pc * sys) : Prop := inv x /\ hushed x.2.

Lemma sound_step x y : sys_step x y -> sound x -> sound y.
Proof. intros Hst [Hi Hh]. split; [by eapply inv_sys_step|by eapply hushed_step]. Qed.

Lemma sound_run x y : rtc sys_step x y -> sound x -> sound y.
Proof. intros Hr. eapply invariant_rtc; [|exact Hr]. intros a b Ha Hab. by eapply sound_step. Qed.

Lemma sound_reachable timing x : rtc sys_step (sys_init timing) x -> sound x.
Proof.
  intros Hr. eapply sound_run; [exact Hr|]. split; [by apply (reachable timing)|]. by intros r ?%not_elem_of_nil.
Qed.

(** The calls that nobody will answer: the log entries that are not commands. *)
Definition unanswerable (s : sys) (r : call_rec) : Prop :=
  r.1 = FSMApply /\ exists sl, slots (shm s) !! r.2 = Some sl /\ mute sl = true.

Lemma unanswerable_opens s r : good s -> unanswerable s r -> r ∈ opens s.
Proof.
  intros Hg (Hr & sl & Hsl & Hm). destruct (mute_inv sl Hm) as (Ht & Hs & _). destruct r as [t p]. cbn [fst snd] in *.
  apply (lg_open _ _ _ _ _ (gd_ledger s Hg)). exists sl. unfold Ledger.is_open. by rewrite Hs, Ht, Hr.
Qed.

(** What an exception has left behind stays so. *)
Definition adrift (s : sys) (r : call_rec) : Prop := r ∈ lost s \/ unanswerable s r.

Lemma adrift_opens s r : good s -> adrift s r -> r ∈ opens s.
Proof. intros Hg [Hr|Hr]; [apply opens_parts; tauto|by apply unanswerable_opens]. Qed.

Lemma act_lost s s' : act_step s s' -> lost s ⊆ lost s' /\ leaked s ⊆ leaked s'.
Proof. intros []; cbn [lost leaked set_shm]; set_solver. Qed.

Lemma step_lost x y : sys_step x y -> lost x.2 ⊆ lost y.2 /\ leaked x.2 ⊆ leaked y.2.
Proof. intros [g s s' Hst|g g' s w _]; [by apply act_lost|done]. Qed.

Lemma run_lost x y : rtc sys_step x y -> lost x.2 ⊆ lost y.2 /\ leaked x.2 ⊆ leaked y.2.
Proof.
  induction 1 as [|x y z Hst _ [IH1 IH2]]; [done|]. destruct (step_lost x y Hst). split; by etrans.
Qed.

Lemma adrift_step x y r : sys_step x y -> inv x -> adrift x.2 r -> adrift y.2 r.
Proof.
  intros Hst Hi [Hr|(Hr & sl & Hsl & Hm)]; [left; by apply (step_lost x y Hst)|].
  right. split; [done|]. eapply mute_keeps; [by apply sys_keeps|exact Hsl|exact Hm].
Qed.

Lemma adrift_run x y r : rtc sys_step x y -> inv x -> adrift x.2 r -> adrift y.2 r.
Proof.
  intros Hr Hi Hs. enough (inv y /\ adrift y.2 r) by tauto.
  eapply (invariant_rtc sys_step (fun x => inv x /\ adrift x.2 r)); [|exact Hr|done].
  intros a b [Ha Hsa] Hab. split; [by eapply inv_sys_step|by eapply adrift_step].
Qed.

(** Such a call has a slot without an answer, now and later. *)
Lemma adrift_slot x y r :
  inv x -> adrift x.2 r -> rtc sys_step x y ->
  exists sl, slots (shm y.2) !! r.2 = Some sl /\ is_terminal (state sl) = false.
Proof.
  intros Hi Hs Hr. assert (good y.2) as Hg by (apply (inv_run x y Hr Hi)).
  destruct (open_slot y.2 r Hg) as (sl & Hsl & Ho & _); [|by exists sl].
  apply adrift_opens; [done|]. by eapply adrift_run.
Qed.

(** ** Properties *)

(** A log entry that is not a command is never answered: once the worker has
    taken it and given its lock back, its slot stays without an answer, and so in
    the segment, in every later state. *)
Theorem entry_never_answered timing g g' s s' p :
  rtc sys_step (sys_init timing) (g, s) -> (FSMApply, p) ∈ released s -> rtc sys_step (g, s) (g', s') ->
  exists sl, slots (shm s') !! p = Some sl /\ is_terminal (state sl) = false.
Proof.
  intros [Hi Hh]%sound_reachable Hin Hr. apply (adrift_slot (g, s) (g', s') (FSMApply, p) Hi); [|done].
  right. split; [done|]. by apply (Hh (FSMApply, p)).
Qed.


End Live.

(** ** Runs

    The worker takes an entry that is not a command. *)
Definition noop_entry : call_args := LogEntry 1 1 RAFT_LOG_NOOP 0 0.
Definition noop_built : world := with_call 4608 (sent_slot FSMApply noop_entry (clock demo5)) demo5.
Definition noop1 : world := set_queue FsmQueue (put_queue FsmQueue (FSMApply, 4608) noop_built) noop_built.
Definition noop2 : world := run fsm_receive noop1.
Definition noop3 : world := run (unlock 4608) noop2.
#[local] Strategy 100 [demo1 demo2 demo3 demo4 demo5 demo6 demo7 noop_built noop1 noop2 noop3].

Lemma noop_run : rtc act_step (sys_start false) (Sys noop3 [] [] [(Apply, 4352)] [4608] [] [(FSMApply, 4608)] [] []).
Proof.
  etrans; [exact demo_taken_run|].
  apply (rtc_l _ _ (Sys noop_built [(FSMApply, 4608)] [] [(Apply, 4352)] [] [] [] [] [])).
  { apply (st_raft_build 4608 FSMApply noop_entry demo_taken); [done|done|done| |done].
    apply (bool_decide_unpack _). by vm_compute. }
  apply (rtc_l _ _ (Sys noop1 [] [] [(Apply, 4352)] [4608] [] [] [] [])).
  { apply (st_raft_put (FSMApply, 4608) (Sys noop_built [(FSMApply, 4608)] [] [(Apply, 4352)] [] [] [] [] []) []
      (put_queue FsmQueue (FSMApply, 4608) noop_built)); [done|done|by vm_compute]. }
  apply (rtc_l _ _ (Sys noop2 [] [] [(Apply, 4352)] [4608] [(FSMApply, 4608)] [] [] [])).
  { by apply (st_fsm_take (FSMApply, 4608) (Sys noop1 [] [] [(Apply, 4352)] [4608] [] [] [] [])); vm_compute. }
  apply rtc_once.
  eapply (st_fsm_release (FSMApply, 4608) (Sys noop2 [] [] [(Apply, 4352)] [4608] [(FSMApply, 4608)] [] [] []) []);
    [done|by vm_compute|done|done|by vm_compute].
Qed.

Lemma entry_never_answered_witness :
  exists sl, slots noop3 !! 4608 = Some sl /\ is_terminal (state sl) = false.
Proof.
  exact (entry_never_answered false GcFetch _ _ _ 4608 (acts_run _ _ _ noop_run) (list_elem_of_here _ _) (rtc_refl _ _)).
Defined.

(** The queue of the worker and the deque of the collector are closed while the
    Raft process is about to call the worker, and then a client gives up a call. *)
Definition shut1 : world := run (build_request Barrier (BarrierArgs 0)) (init_world false []).
Definition shut2 : world := set_queue ApiQueue (put_queue ApiQueue (Barrier, 4096) shut1) shut1.
Definition shut3 : world := with_call 4608 (sent_slot FSMApply demo_entry (clock shut2)) shut2.
Definition shut4 : world := set_queue FsmQueue (ABQ.close_body (get_queue FsmQueue shut3)) shut3.
Definition shut5 : world := set_orphaned_calls (Deque.close_section (orphaned_calls shut4)) shut4.
Definition shut6 : world := run (dispose 4096) shut5.
#[local] Strategy 100 [shut1 shut2 shut3 shut4 shut5 shut6].

Definition shut_down : sys := Sys shut6 [] [] [] [] [] [] [(FSMApply, 4608)] [4096].

Lemma shut_run : rtc sys_step (sys_init false) (GcFetch, shut_down).
Proof.
  apply acts_run.
  eapply rtc_l; [by apply (st_build Barrier (BarrierArgs 0) (sys_start false) 4096 shut1); [| | |vm_compute]|].
  eapply rtc_l; [by apply (st_put (Barrier, 4096) (Sys shut1 [(Barrier, 4096)] [] [] [] [] [] [] []) []
    (put_queue ApiQueue (Barrier, 4096) shut1)); [| |vm_compute]|].
  eapply rtc_l; [apply (st_raft_build 4608 FSMApply demo_entry (Sys shut2 [] [4096] [] [] [] [] [] []));
    [done|done|done|apply (bool_decide_unpack _); by vm_compute|done]|].
  eapply rtc_l; [exact (st_close FsmQueue (Sys shut3 [(FSMApply, 4608)] [4096] [] [] [] [] [] []))|].
  eapply rtc_l; [exact (st_close_orphans (Sys shut4 [(FSMApply, 4608)] [4096] [] [] [] [] [] []))|].
  eapply rtc_l; [by apply (st_raft_put_closed (FSMApply, 4608) (Sys shut5 [(FSMApply, 4608)] [4096] [] [] [] [] [] []) [])|].
  apply rtc_once. apply (st_dispose_closed 4096 (Sys shut5 [] [4096] [] [] [] [] [(FSMApply, 4608)] []) []);
    [done| |by vm_compute].
  intros sl b Hsl _ Hu _. vm_compute in Hsl. by simplify_eq.
Qed.

End SystemCalls.
