(* ===== verification/SystemLive.v ===== *)
(** * The system can always finish

    From every state that the system can reach before the queues are closed there
    is a way on, with the queues open, that answers every call but the log entries
    that are not commands, and gives back every other slot: no such state is a
    deadlock, and none has leaked memory.  If the log holds only commands,
    everything comes back. *)

From stdpp Require Import base tactics list strings gmap relations.
From Stdlib Require Import ZArith Lia Permutation.
From S2P Require Import Prelude CString Defs ArrayQueue Deque Slot Shm ShmInv ShmSpec Orphans Collector Ledger CIf FsmWorker FsmSpec System SystemSpec SystemCalls.

Module SystemLive.
Import CString Defs Slot Shm ShmSpec Orphans Collector Ledger FsmWorker System SystemSpec SystemCalls.

Section Live.
Context `{Segment}.

(** ** Runs that close nothing and add nothing to what nobody answers *)

Record stays (s s' : sys) : Prop := Stays {
  sy_queue : forall which, ABQ.closed (get_queue which (shm s')) = ABQ.closed (get_queue which (shm s));
  sy_deque : Deque.closed (orphaned_calls (shm s')) = Deque.closed (orphaned_calls (shm s));
  sy_astray : lost s' = lost s /\ leaked s' = leaked s;
  sy_mute : forall r, unanswerable s' r -> unanswerable s r
}.

Lemma stays_trans s1 s2 s3 : stays s1 s2 -> stays s2 s3 -> stays s1 s3.
Proof.
  intros [A1 A2 [A3 A4] A5] [B1 B2 [B3 B4] B5].
  constructor; [intros which; by rewrite B1|congruence|split; congruence|auto].
Qed.

(** No call turns mute. *)
Lemma stays_intro s s' :
  (forall which, ABQ.closed (get_queue which (shm s')) = ABQ.closed (get_queue which (shm s))) ->
  Deque.closed (orphaned_calls (shm s')) = Deque.closed (orphaned_calls (shm s)) ->
  lost s' = lost s /\ leaked s' = leaked s ->
  (forall p sl', slots (shm s') !! p = Some sl' -> mute sl' = true ->
     exists sl, slots (shm s) !! p = Some sl /\ mute sl = true) ->
  stays s s'.
Proof.
  intros Hc Hd Hl Hm. constructor; [done|done|done|]. intros r (Hr & sl' & Hsl' & Hm'). split; [done|]. by eapply Hm.
Qed.

(** One slot changes. *)
Lemma stays_slot s s' p sl sl' :
  slots (shm s) !! p = Some sl -> slots (shm s') = <[p := sl']> (slots (shm s)) ->
  (mute sl' = true -> mute sl = true) ->
  orphaned_calls (shm s') = orphaned_calls (shm s) -> lost s' = lost s /\ leaked s' = leaked s ->
  (forall which, get_queue which (shm s') = get_queue which (shm s)) -> stays s s'.
Proof.
  intros Hsl Hs Hm Hd Hl Hq. apply stays_intro.
  - intros which. by rewrite Hq.
  - by rewrite Hd.
  - done.
  - intros q sl0. rewrite Hs. destruct (decide (q = p)) as [->|]; [|rewrite lookup_insert_ne by done; eauto].
    rewrite lookup_insert_eq. intros [= <-]. eauto.
Qed.

(** An answer changes it. *)
Lemma not_mute_answered sl : is_terminal (state sl) = true -> mute sl = false.
Proof. intros Ht. destruct (mute sl) eqn:E; [|done]. apply mute_open in E. congruence. Qed.

Lemma stays_answered s s' p sl sl' :
  slots (shm s) !! p = Some sl -> slots (shm s') = <[p := sl']> (slots (shm s)) ->
  is_terminal (state sl') = true -> orphaned_calls (shm s') = orphaned_calls (shm s) ->
  lost s' = lost s /\ leaked s' = leaked s ->
  (forall which, get_queue which (shm s') = get_queue which (shm s)) -> stays s s'.
Proof. intros ? ? Ht%not_mute_answered. eapply stays_slot; try done. congruence. Qed.

(** A queue changes. *)
Lemma stays_change_queue s s' which q :
  shm s' = set_queue which q (shm s) -> ABQ.closed q = ABQ.closed (get_queue which (shm s)) ->
  lost s' = lost s /\ leaked s' = leaked s -> stays s s'.
Proof.
  intros Es Hq Hl. apply stays_intro; rewrite ?Es.
  - intros which'. rewrite get_set_queue. case_decide; [by subst|done].
  - by destruct which.
  - done.
  - destruct which; cbn; eauto.
Qed.

(** ** One call forward *)

(** How far the calls are from their answers. *)
Definition weight (s : sys) : nat :=
  4 * length (sending s) + 2 * length (queued ApiQueue (shm s)) + length (raft_calls s) +
  3 * length (queued FsmQueue (shm s)) + 2 * length (fsm_taken s) + length (released s).

Definition onward (s s' : sys) : Prop := rtc act_step s s' /\ stays s s'.
Definition closer (s s' : sys) : Prop := onward s s' /\ (weight s' < weight s)%nat.

(** Before the shutdown. *)
Record up (s : sys) : Prop := Up {
  up_queue : forall which, ABQ.closed (get_queue which (shm s)) = false;
  up_lost : lost s = [] /\ leaked s = []
}.

Definition calm (s : sys) : Prop := good s /\ sides s /\ hushed s /\ up s.

Lemma up_stays s s' : stays s s' -> up s -> up s'.
Proof.
  intros [A1 _ [A2 A3] _] [U1 [U2 U3]]. constructor; [intros which; by rewrite A1|split; congruence].
Qed.

Lemma calm_acts s s' : rtc act_step s s' -> stays s s' -> calm s -> calm s'.
Proof.
  intros Hr Hst (Hg & Hsd & Hh & Hu). enough (good s' /\ sides s' /\ hushed s') as (? & ? & ?).
  { split_and!; [done|done|done|by eapply up_stays]. }
  eapply (invariant_rtc act_step (fun s => good s /\ sides s /\ hushed s)); [|exact Hr|done].
  intros a b (Ha & Hb & Hc) Hab. split_and!; [by eapply good_act|by eapply sides_act|by eapply hushed_act].
Qed.

Lemma onward_step s s' : act_step s s' -> stays s s' -> onward s s'.
Proof. intros Hst. split; [by apply rtc_once|done]. Qed.

Lemma onward_trans s1 s2 s3 : onward s1 s2 -> onward s2 s3 -> onward s1 s3.
Proof. intros [H1 K1] [H2 K2]. split; [by etrans|by eapply stays_trans]. Qed.

(** The weight of a state whose segment differs in the slots only. *)
Ltac weigh := unfold weight; cbn [sending shm raft_calls fsm_taken released];
  change (queued ?w (FsmSpec.upd _ _ (shm ?s))) with (queued w (shm s));
  change (queued ?w (run_env (ERaftReply _ _) (shm ?s))) with (queued w (shm s));
  repeat match goal with HP : _ ≡ₚ _ |- _ => rewrite HP end; cbn [length]; lia.

Lemma finish_released s r l :
  good s -> released s ≡ₚ r :: l -> r.1 = FSMSnapshot -> exists s', closer s s'.
Proof.
  intros Hg Hr Hr1. assert (r ∈ released s) as Hin by (rewrite Hr; apply list_elem_of_here).
  destruct (released_slot s r Hg Hin) as (sl & Hsl & Ho & How).
  destruct (snapshot_done_eq r.2 true sl (shm s) (gd_sched s Hg) Hsl Ho How) as (sl' & E & Ht & Ha & _ & Hterm & _).
  eexists. split; [apply onward_step; [by eapply st_snapshot_done|]|by weigh].
  by eapply stays_answered; [exact Hsl| |exact Hterm| | |intros []].
Qed.

Lemma finish_raft s r l : good s -> raft_calls s ≡ₚ r :: l -> exists s', closer s s'.
Proof.
  intros Hg Hr.
  destruct (open_slot s r Hg) as (sl & Hsl & Ho & _). { unfold opens. rewrite Hr, !elem_of_app, elem_of_cons. tauto. }
  eexists. split; [apply onward_step; [by apply (st_raft_reply r RAFT_SUCCESS)|]|by weigh].
  eapply (stays_answered _ _ r.2 sl); [done|exact (slots_update r.2 _ _ sl Hsl)| |done|done|by intros []].
  by rewrite reply_open.
Qed.

(** The worker answers the call that it has. *)
Lemma taken_done s r l sl sl' s' :
  fsm_taken s ≡ₚ r :: l -> slots (shm s) !! r.2 = Some sl -> answers sl sl' ->
  s' = Sys (FsmSpec.upd r.2 sl' (shm s)) (sending s) (futures s) (raft_calls s) (guests s) l (released s)
    (lost s) (leaked s) ->
  act_step s s' -> closer s s'.
Proof.
  intros Hr Hsl (_ & _ & _ & Hterm & _) -> Hst. split; [|by weigh]. apply onward_step; [done|].
  by eapply stays_answered; [exact Hsl| |exact Hterm| | |intros []].
Qed.

Lemma finish_dispatched s r l sl :
  fsm_taken s ≡ₚ r :: l -> slots (shm s) !! r.2 = Some sl -> state sl = Dispatched -> exists s', closer s s'.
Proof.
  intros Hr Hsl Hst. destruct (fsm_applied_eq r.2 0 sl (shm s) Hsl) as (sl' & E & Ha); [by rewrite Hst|].
  eexists. eapply taken_done; [exact Hr|exact Hsl|exact Ha|done|]. by eapply st_fsm_applied.
Qed.

Lemma fsm_dispatch_eq p sl w :
  slots w !! p = Some sl -> exists sl', fsm_dispatch p w = Ret () (FsmSpec.upd p sl' w) /\ state sl' = Dispatched.
Proof.
  intros Hsl. eexists. split.
  - unfold fsm_dispatch. erewrite bind_Ret by done. rewrite (FsmSpec.update_upd p (set_state Dispatched) sl) by done.
    erewrite FsmSpec.record_at_eq by apply FsmSpec.upd_lookup. by rewrite FsmSpec.upd_upd.
  - done.
Qed.

Lemma finish_command s r l sl :
  fsm_taken s ≡ₚ r :: l -> slots (shm s) !! r.2 = Some sl -> state sl = Pending ->
  r.1 = FSMApply -> is_command (args sl) = true -> exists s', closer s s'.
Proof.
  intros Hr Hsl Hst Hr1 Hc. destruct (fsm_dispatch_eq r.2 sl (shm s) Hsl) as (sl1 & E & Hs1).
  set (s1 := set_shm (FsmSpec.upd r.2 sl1 (shm s)) s).
  assert (onward s s1) as H1.
  { apply onward_step.
    - eapply (st_fsm_dispatch r s sl); [rewrite Hr; apply list_elem_of_here|done..].
    - eapply (stays_slot _ _ r.2 sl sl1); [done|done| |done|done|by intros []]. intros (_ & Hm & _)%mute_inv. congruence. }
  destruct (finish_dispatched s1 r l sl1) as (s2 & H2 & Hw); [done|apply FsmSpec.upd_lookup|done|].
  exists s2. split; [by eapply onward_trans|exact Hw].
Qed.

(** The worker gives back what it does not answer at once. *)
Lemma finish_given_back s r l sl :
  fsm_taken s ≡ₚ r :: l -> slots (shm s) !! r.2 = Some sl -> state sl = Pending ->
  gives_back r.1 (args sl) = true -> exists s', closer s s'.
Proof.
  intros Hr Hsl Hst Hb. eexists. split.
  - apply onward_step; [eapply (st_fsm_release r s l sl); try done; by apply FsmSpec.unlock_eq|].
    by eapply (stays_slot _ _ r.2 sl); [| | | | |intros []].
  - by weigh.
Qed.

Lemma finish_taken s r l : good s -> sides s -> fsm_taken s ≡ₚ r :: l -> exists s', closer s s'.
Proof.
  intros Hg Hsd Hr. assert (r ∈ fsm_taken s) as Hin by (rewrite Hr; apply list_elem_of_here).
  pose proof (sd_taken s Hsd) as Hk. rewrite Hr in Hk. apply Forall_cons in Hk as [Hk _].
  destruct (open_slot s r Hg (taken_open s r Hin)) as (sl & Hsl & Ho & Htag).
  destruct (state sl) eqn:Hst; try done; [|by eapply finish_dispatched].
  destruct (gives_back r.1 (args sl)) eqn:Hb; [by eapply finish_given_back|].
  destruct r.1 eqn:Hr1; try done.
  - eapply finish_command; try done. cbn in Hb. by destruct (is_command (args sl)).
  - destruct (fsm_restored_eq r.2 true sl (shm s) Hsl) as (sl' & E & Ha); [by rewrite Hst|].
    eexists. eapply taken_done; [exact Hr|exact Hsl|exact Ha|done|]. by eapply st_fsm_restored.
Qed.

Lemma finish_fsm_queue s r l : good s -> queued FsmQueue (shm s) = r :: l -> exists s', closer s s'.
Proof.
  intros Hg Hr. pose proof (gd_queue s Hg FsmQueue) as Hwf.
  destruct (fsm_receive_cases s Hg) as [(r' & q & Hq & E)|(E & _)]; [|congruence].
  pose proof (queued_take _ _ _ _ Hwf Hq) as Eq. rewrite Hr in Eq. injection Eq as <- ->.
  destruct (queued_slot s r Hg) as (sl & Hsl & _). { rewrite Hr. apply list_elem_of_here. }
  eexists. split.
  - apply onward_step; [by apply st_fsm_take|]. apply stays_intro.
    + intros []; [done|]. exact (proj2 (proj2 (take_Ret _ _ _ Hwf Hq))).
    + done.
    + done.
    + intros p sl0. cbn [shm]. unfold fsm_received. cbn [update_slot slots set_slots set_queue set_scoreboard].
      destruct (decide (p = r.2)) as [->|]; [|rewrite !lookup_alter_ne by done; eauto].
      rewrite !lookup_alter_eq, Hsl. intros [= <-] Hm. by exists sl.
  - unfold weight. cbn [sending shm raft_calls fsm_taken released]. rewrite Hr.
    change (queued ApiQueue (fsm_received r q (shm s))) with (queued ApiQueue (shm s)).
    change (queued FsmQueue (fsm_received r q (shm s))) with (ABQ.contents queue_capacity q). cbn [length]. lia.
Qed.

Lemma finish_api_queue s r l : good s -> queued ApiQueue (shm s) = r :: l -> exists s', closer s s'.
Proof.
  intros Hg Hr. pose proof (gd_queue s Hg ApiQueue) as Hwf.
  destruct (take_cases _ Hwf) as [(_ & E & _)|(_ & r' & q & Hq)]; [unfold queued in Hr; congruence|].
  pose proof (queued_take _ _ _ _ Hwf Hq) as Eq. rewrite Hr in Eq. injection Eq as <- ->.
  eexists. split.
  - apply onward_step; [by apply st_raft_take|].
    eapply stays_change_queue; [done|exact (proj2 (proj2 (take_Ret _ _ _ Hwf Hq)))|done].
  - unfold weight. cbn [sending shm raft_calls fsm_taken released]. rewrite Hr.
    change (queued FsmQueue (set_queue ApiQueue q (shm s))) with (queued FsmQueue (shm s)).
    change (queued ApiQueue (set_queue ApiQueue q (shm s))) with (ABQ.contents queue_capacity q). cbn [length]. lia.
Qed.

Lemma put_empty r (q : CallQueue) :
  ABQ.wf queue_capacity q -> ABQ.contents queue_capacity q = [] -> exists q', ABQ.put_checked queue_capacity r q = Ret () q'.
Proof.
  intros Hwf Hn. unfold ABQ.put_checked. destruct (ABQ.full _ _) eqn:Hf; unfold ABQ.full in Hf; zbool.
  - destruct (ABQ.take_body_spec (Capacity := queue_capacity) ltac:(done) _ Hwf) as (v & q1 & _ & _ & E & _);
      [rewrite Hf; done|]. congruence.
  - destruct (ABQ.put_body_spec (Capacity := queue_capacity) ltac:(done) _ r Hwf) as (q1 & -> & _); [destruct Hwf; lia|].
    by exists q1.
Qed.

Lemma finish_sending s r l :
  good s -> sending s ≡ₚ r :: l -> (forall which, queued which (shm s) = []) -> exists s', closer s s'.
Proof.
  intros Hg Hr Hn.
  assert (forall which, exists q, ABQ.put_checked queue_capacity r (get_queue which (shm s)) = Ret () q /\
    ABQ.contents queue_capacity q = [r] /\ ABQ.closed q = ABQ.closed (get_queue which (shm s))) as Hput.
  { intros which. pose proof (gd_queue s Hg which) as Hwf. destruct (put_empty r _ Hwf (Hn which)) as [q Hq].
    destruct (put_Ret _ _ _ Hwf Hq) as (_ & Ec & Ek). pose proof (Hn which) as En. unfold queued in En.
    rewrite En in Ec. by exists q. }
  destruct (is_fsm r.1) eqn:Hf.
  - destruct (Hput FsmQueue) as (q & Hq & Ec & Ek). eexists. split.
    { apply onward_step; [by eapply (st_raft_put r)|by eapply stays_change_queue]. }
    unfold weight. cbn [sending shm raft_calls fsm_taken released].
    change (queued ApiQueue (set_queue FsmQueue q (shm s))) with (queued ApiQueue (shm s)).
    change (queued FsmQueue (set_queue FsmQueue q (shm s))) with (ABQ.contents queue_capacity q).
    rewrite Ec, Hr, Hn. cbn [length]. lia.
  - destruct (Hput ApiQueue) as (q & Hq & Ec & Ek). eexists. split.
    { apply onward_step; [by eapply (st_put r)|by eapply stays_change_queue]. }
    unfold weight. cbn [sending shm raft_calls fsm_taken released].
    change (queued FsmQueue (set_queue ApiQueue q (shm s))) with (queued FsmQueue (shm s)).
    change (queued ApiQueue (set_queue ApiQueue q (shm s))) with (ABQ.contents queue_capacity q).
    rewrite Ec, Hr, Hn. cbn [length]. lia.
Qed.

(** ** All calls that can be answered are *)

(** What is open has been given back for ever. *)
Record rest (s : sys) : Prop := Rest {
  rt_sending : sending s = [];
  rt_raft : raft_calls s = [];
  rt_taken : fsm_taken s = [];
  rt_queue : forall which, queued which (shm s) = [];
  rt_released : forall r, r ∈ released s -> r.1 = FSMApply
}.

Lemma rest_unanswerable s r : hushed s -> up s -> rest s -> r ∈ opens s -> unanswerable s r.
Proof.
  intros Hh [_ [Ul _]] [R1 R2 R3 R4 R5]. unfold opens. rewrite R1, R2, R3, !R4, Ul. cbn [app]. rewrite app_nil_r.
  intros Hr. split; [auto|]. apply Hh; auto.
Qed.

Lemma rest_or_closer s : good s -> sides s -> rest s \/ exists s', closer s s'.
Proof.
  intros Hg Hsd.
  destruct (fsm_taken s) as [|r l] eqn:E1; [|right; eapply (finish_taken s r l); by rewrite ?E1].
  destruct (raft_calls s) as [|r l] eqn:E2; [|right; eapply (finish_raft s r l); by rewrite ?E2].
  destruct (decide (Forall (fun r => r.1 = FSMApply) (released s))) as [E3|E3].
  2:{ right. apply not_Forall_Exists in E3; [|apply _]. apply Exists_exists in E3 as (r & Hin & Hne).
      pose proof (sd_released s Hsd) as Hk. rewrite Forall_forall in Hk. destruct (Hk r Hin) as [|Hr1]; [done|].
      apply elem_of_Permutation in Hin as [l Hl]. by eapply finish_released. }
  destruct (queued FsmQueue (shm s)) as [|r l] eqn:E4; [|right; by eapply finish_fsm_queue].
  destruct (queued ApiQueue (shm s)) as [|r l] eqn:E5; [|right; by eapply finish_api_queue].
  destruct (sending s) as [|r l] eqn:E6; [left|right; eapply (finish_sending s r l); [done|by rewrite ?E6|by intros []]].
  constructor; [done|done|done|by intros []|by apply Forall_forall].
Qed.

Lemma finish_calls s : calm s -> exists s', onward s s' /\ rest s'.
Proof.
  remember (weight s) as n eqn:En. revert s En. induction (lt_wf n) as [n _ IH]. intros s -> Hc.
  destruct (rest_or_closer s) as [Hr|(s1 & H1 & Hw)]; [apply Hc|apply Hc|by exists s; split; [split|]|].
  destruct (IH _ Hw s1 eq_refl (calm_acts _ _ (proj1 H1) (proj2 H1) Hc)) as (s2 & H2 & Hr).
  exists s2. split; [by eapply onward_trans|done].
Qed.

(** ** What is answered comes back *)

Definition unanswered (s : sys) (p : Z) : Prop :=
  forall sl, slots (shm s) !! p = Some sl -> is_terminal (state sl) = false.

(** Slots go, and the queues stay. *)
Record shrinks (s s' : sys) : Prop := Shrinks {
  sh_slots : forall p sl, slots (shm s') !! p = Some sl -> slots (shm s) !! p = Some sl;
  sh_queue : forall which, get_queue which (shm s') = get_queue which (shm s);
  sh_deque : Deque.closed (orphaned_calls (shm s')) = Deque.closed (orphaned_calls (shm s));
  sh_calls : sending s' = sending s /\ raft_calls s' = raft_calls s /\ fsm_taken s' = fsm_taken s /\ released s' = released s;
  sh_astray : lost s' = lost s /\ leaked s' = leaked s
}.

Lemma shrinks_refl s : shrinks s s.
Proof. done. Qed.

Lemma shrinks_trans s1 s2 s3 : shrinks s1 s2 -> shrinks s2 s3 -> shrinks s1 s3.
Proof.
  intros [A1 A2 A3 (? & ? & ? & ?) [? ?]] [B1 B2 B3 (? & ? & ? & ?) [? ?]].
  constructor; [auto|intros which; by rewrite B2|congruence|split_and!; congruence|split_and!; congruence].
Qed.

Lemma shrinks_stays s s' : shrinks s s' -> stays s s'.
Proof.
  intros [A1 A2 A3 _ A5]. apply stays_intro; [intros which; by rewrite A2|done|done|eauto].
Qed.

Lemma shrinks_rest s s' : shrinks s s' -> rest s -> rest s'.
Proof.
  intros [_ A2 _ (E1 & E2 & E3 & E4) _] [R1 R2 R3 R4 R5]. constructor; try congruence.
  - intros which. unfold queued. rewrite A2. apply R4.
  - by rewrite E4.
Qed.

Lemma shrinks_unanswered s s' p : shrinks s s' -> unanswered s p -> unanswered s' p.
Proof. intros [A1 _ _ _ _] Hu sl Hsl. eauto. Qed.

Lemma answered_or s p : unanswered s p \/ exists sl, slots (shm s) !! p = Some sl /\ is_terminal (state sl) = true.
Proof.
  unfold unanswered. destruct (slots (shm s) !! p) as [sl|]; [|by left].
  destruct (is_terminal (state sl)) eqn:E; [right; by exists sl|left]. by intros ? [= <-].
Qed.

(** At rest the worker holds no lock. *)
Lemma rest_unlocked s p sl : good s -> rest s -> slots (shm s) !! p = Some sl -> owned sl = false.
Proof.
  intros Hg Hr Hsl. destruct (owned sl) eqn:E; [exfalso|done].
  apply (good_mutex s p sl Hg Hsl) in E. unfold held in E. rewrite (rt_taken s Hr) in E. by apply not_elem_of_nil in E.
Qed.

Lemma shrink_guest s p l sl :
  guests s ≡ₚ p :: l -> slots (shm s) !! p = Some sl -> is_terminal (state sl) = true ->
  exists s', act_step s s' /\ shrinks s s' /\ guests s' = l.
Proof.
  intros Hl Hsl Ht. eexists. split_and!; [by eapply st_raft_free|constructor; try done|done].
  intros q sl'. cbn. by intros [_ ?]%lookup_delete_Some.
Qed.

Lemma free_guests l k s :
  guests s ≡ₚ l ++ k -> Forall (unanswered s) k ->
  exists s', rtc act_step s s' /\ shrinks s s' /\ Forall (unanswered s') (guests s').
Proof.
  revert k s. induction l as [|p l IH]; intros k s Hl Hk.
  { exists s. split_and!; [done|apply shrinks_refl|]. by rewrite Hl. }
  destruct (answered_or s p) as [Hu|(sl & Hsl & Ht)].
  - apply (IH (p :: k)); [rewrite Hl; apply Permutation_middle|by constructor].
  - destruct (shrink_guest s p (l ++ k) sl Hl Hsl Ht) as (s1 & H1 & Hs1 & Eg).
    destruct (IH k s1) as (s' & Hr & Hs & Hf); [by rewrite Eg| |].
    { eapply Forall_impl; [exact Hk|]. intros q. by apply shrinks_unanswered. }
    exists s'. split_and!; [by eapply rtc_l|by eapply shrinks_trans|done].
Qed.

Lemma wait_ends p s sl :
  good s -> slots (shm s) !! p = Some sl -> is_terminal (state sl) = true -> owned sl = false ->
  wait p (shm s) = Ret () (FsmSpec.upd p (observe (clock (shm s)) sl) (shm s)).
Proof.
  intros Hg Hsl Ht How. unfold wait. erewrite bind_Ret.
  2:{ rewrite await_idle by apply Hg. unfold wait_ready. rewrite Hsl. unfold poll. by rewrite Ht, How. }
  erewrite bind_Ret by (by apply get_slot_eq). erewrite bind_Ret by done. unfold modify.
  by rewrite (FsmSpec.update_upd p _ sl).
Qed.

Lemma shrink_future s p l sl :
  good s -> rest s -> futures s ≡ₚ p :: l -> slots (shm s) !! p = Some sl -> is_terminal (state sl) = true ->
  exists s', rtc act_step s s' /\ shrinks s s' /\ futures s' = l /\ guests s' = guests s.
Proof.
  intros Hg Hre Hl Hsl Ht. pose proof (rest_unlocked s p sl Hg Hre Hsl) as How.
  assert (p ∈ futures s) as Hp by (rewrite Hl; apply list_elem_of_here).
  pose proof (st_wait p s _ Hp (wait_ends p s sl Hg Hsl Ht How)) as H1. set (s1 := set_shm _ s) in H1.
  assert (slots (shm s1) !! p = Some (observe (clock (shm s)) sl)) as Hsl1 by apply FsmSpec.upd_lookup.
  assert (dispose p (shm s1) = deallocate p (shm s1)) as Ed.
  { unfold dispose. by erewrite bind_Ret by (by apply get_slot_eq). }
  eexists. split_and!.
  - eapply rtc_l; [exact H1|]. apply rtc_once. eapply (st_dispose p s1 l); [done| |by rewrite Ed].
    intros sl0 b Hs0. rewrite Hsl1 in Hs0. by injection Hs0 as <-.
  - constructor; try done. intros q sl'. cbn.
    intros [Hne ?]%lookup_delete_Some. by rewrite lookup_insert_ne in *.
  - done.
  - done.
Qed.

Lemma drop_futures l k s :
  calm s -> rest s -> futures s ≡ₚ l ++ k -> Forall (unanswered s) k ->
  exists s', rtc act_step s s' /\ shrinks s s' /\ Forall (unanswered s') (futures s') /\ guests s' = guests s.
Proof.
  revert k s. induction l as [|p l IH]; intros k s Hc Hre Hl Hk.
  { exists s. split_and!; [done|apply shrinks_refl|by rewrite Hl|done]. }
  destruct (answered_or s p) as [Hu|(sl & Hsl & Ht)].
  - apply (IH (p :: k)); [done|done|rewrite Hl; apply Permutation_middle|by constructor].
  - destruct (shrink_future s p (l ++ k) sl (proj1 Hc) Hre Hl Hsl Ht) as (s1 & H1 & Hs1 & Ef & Eg).
    destruct (IH k s1) as (s' & Hr & Hs & Hf & Eg'); [by eapply calm_acts, Hc; [|apply shrinks_stays]|by eapply shrinks_rest|by rewrite Ef| |].
    { eapply Forall_impl; [exact Hk|]. intros q. by apply shrinks_unanswered. }
    exists s'. split_and!; [by etrans|by eapply shrinks_trans|done|congruence].
Qed.

(** ** The collector's part *)

Lemma alone_run s x y :
  rtc gc_alone x y -> x.2 = shm s -> rtc sys_step (x.1, s) (y.1, set_shm y.2 s).
Proof.
  intros Hr. revert s. induction Hr as [[g w]|x y z Hst _ IH]; intros s E.
  { cbn in *. subst. by destruct s. }
  eapply rtc_l; [|apply (IH (set_shm y.2 s) eq_refl)]. inversion Hst as [x' [g' w'] Hgc|d g w]; subst; cbn in *.
  - destruct x as [g w]. cbn in *. subst. by apply ss_gc.
  - subst. apply ss_act. exact (st_tick d s).
Qed.

(** The collector alone only takes slots away. *)
Lemma alone_shrinks s x y :
  rtc gc_alone x y -> custody x.2 -> gc_ok x.1 x.2 -> x.2 = shm s -> shrinks s (set_shm y.2 s).
Proof.
  intros Hr. revert s. induction Hr as [x|x y z Hst _ IH]; intros s Hc Hok E; [by destruct s; cbn in *; subst|].
  destruct Hst as [[g w] [g' w'] Hst|d g w]; cbn [fst snd] in *; subst.
  - destruct (gc_step_effect _ _ _ _ Hc Hok Hst) as [[Hc1 (ps & Hsw & _) Hsb _ Hcl _] Hok1].
    eapply (shrinks_trans _ (set_shm w' s)); [|exact (IH (set_shm w' s) Hc1 Hok1 eq_refl)].
    constructor; cbn [shm set_shm]; [|intros which; by apply get_queue_same|done|done|done].
    intros p sl. rewrite (sp_slots _ _ _ Hsw). by case_decide.
  - eapply (shrinks_trans _ (set_shm (run_env (ETick d) (shm s)) s)).
    + by constructor.
    + apply (IH (set_shm (run_env (ETick d) (shm s)) s)); [by apply custody_env|by destruct g|done].
Qed.

(** Before the shutdown the collector knows of all calls that were given up. *)
Lemma up_custody s : good s -> up s -> custody (shm s).
Proof. intros Hg [_ [_ E]]. pose proof (gd_custody s Hg) as Hc. by rewrite E in Hc. Qed.

Lemma gc_to_top g s :
  inv (g, s) -> up s -> exists w, rtc sys_step (g, s) (GcFetch, set_shm w s) /\ shrinks s (set_shm w s).
Proof.
  intros (Hg & _ & Hok) Hu. cbn [fst snd] in *. pose proof (up_custody s Hg Hu) as Hc.
  destruct (gc_returns g (shm s) Hc Hok) as (w & Hr). exists w.
  split; [exact (alone_run s _ _ Hr eq_refl)|]. exact (alone_shrinks s _ _ Hr Hc Hok eq_refl).
Qed.

(** A round with the scan of the backlog gets on as long as an orphan is answered. *)
Definition to_collect (w : world) : nat := length (Deque.deque (orphaned_calls w)) + length (orphans w).

Lemma waiting_length w ps : (length (waiting w ps) <= length ps)%nat.
Proof. apply length_filter. Qed.

Lemma waiting_shorter w ps p : p ∈ ps -> answered w p = true -> (length (waiting w ps) < length ps)%nat.
Proof. intros Hp Ha. eapply length_filter_lt; [exact Hp|]. by rewrite Ha. Qed.

Lemma collect_round w p :
  custody w -> Deque.closed (orphaned_calls w) = false -> due w = true -> p ∈ orphans w -> answered w p = true ->
  exists w', rtc gc_alone (GcFetch, w) (GcFetch, w') /\ custody w' /\ Deque.closed (orphaned_calls w') = false /\
    (to_collect w' < to_collect w)%nat.
Proof.
  intros Hc Ho Hd Hp Ha.
  destruct (gc_round_eq w Hc Ho) as (w' & Hr & _ & Hb & Hq & Hc'); [intros E; rewrite E in Hp; by apply not_elem_of_nil in Hp|].
  exists w'. split_and!; [by apply gc_round_alone|done|by rewrite Hq|].
  unfold to_collect, orphans in *. rewrite Hb, Hq. unfold backlog_after, next_orphan, scans. rewrite Hd. cbn [orb].
  pose proof (waiting_length w (orphan_backlog w)) as Hw.
  destruct (Deque.deque (orphaned_calls w)) as [|q l]; rewrite !length_app; cbn [Deque.deque skipn firstn length].
  - rewrite app_nil_r in Hp. pose proof (waiting_shorter w _ p Hp Ha). cbn. lia.
  - pose proof (waiting_length w [q]) as Hw1. cbn [length] in Hw1. rewrite take_0, drop_0. lia.
Qed.

Lemma collect_all w :
  custody w -> Deque.closed (orphaned_calls w) = false ->
  exists w', rtc gc_alone (GcFetch, w) (GcFetch, w') /\ forall p, p ∈ orphans w' -> answered w' p = false.
Proof.
  remember (to_collect w) as n eqn:En. revert w En. induction (lt_wf n) as [n _ IH]. intros w -> Hc Ho.
  destruct (decide (Forall (fun p => answered w p = false) (orphans w))) as [Hn|Hn].
  { exists w. split; [done|]. by apply Forall_forall. }
  apply not_Forall_Exists in Hn; [|apply _]. apply Exists_exists in Hn as (p & Hp & Ha).
  set (d := Z.max 0 (next_check w - clock w + 1)). set (w0 := run_env (ETick d) w).
  destruct (collect_round w0 p) as (w1 & Hr & Hc1 & Ho1 & Hlt); [by apply custody_env|done| |done| |].
  { unfold due. cbn. lia. }
  { change (answered w0 p) with (answered w p). cbn in Ha. by destruct (answered w p). }
  destruct (IH _ Hlt w1 eq_refl Hc1 Ho1) as (w2 & Hr2 & Hn2).
  exists w2. split; [|done]. eapply rtc_l; [apply (ga_tick d)|]. by etrans.
Qed.

(** ** All together *)

(** Nothing is left but what nobody answers. *)
Record over (s : sys) : Prop := Over {
  ov_rest : rest s;
  ov_futures : Forall (unanswered s) (futures s);
  ov_guests : Forall (unanswered s) (guests s);
  ov_orphans : forall p, p ∈ orphans (shm s) -> answered (shm s) p = false
}.

Lemma over_slot s p :
  good s -> hushed s -> up s -> over s -> is_Some (slots (shm s) !! p) -> exists t, unanswerable s (t, p).
Proof.
  intros Hg Hh Hu [Hre Hf Hgu Hor] [sl Hsl]. rewrite Forall_forall in Hf, Hgu.
  assert (is_terminal (state sl) = false) as Ho.
  { assert (p ∈ owners s) as Hp by (apply (lg_owner _ _ _ _ _ (gd_ledger s Hg)); by exists sl).
    destruct (up_lost s Hu) as [E1 E2]. unfold owners in Hp. rewrite (rt_sending s Hre), E1, E2 in Hp.
    cbn [fmap list_fmap app] in Hp. rewrite app_nil_r, !elem_of_app in Hp.
    destruct Hp as [[Hp|Hp]|Hp]; [by eapply Hf|by eapply Hgu|].
    pose proof (Hor p Hp) as Ha. unfold answered in Ha. rewrite Hsl in Ha. unfold poll in Ha.
    by rewrite (rest_unlocked s p sl Hg Hre Hsl) in Ha. }
  exists (tag sl). apply rest_unanswerable; [done|done|done|]. apply (lg_open _ _ _ _ _ (gd_ledger s Hg)). exists sl.
  unfold Ledger.is_open. by rewrite Ho.
Qed.

Lemma shrinks_over s s' : shrinks s s' -> futures s' = futures s -> guests s' = guests s ->
  rest s -> Forall (unanswered s) (futures s) -> Forall (unanswered s) (guests s) ->
  (forall p, p ∈ orphans (shm s') -> answered (shm s') p = false) -> over s'.
Proof.
  intros Hs Ef Eg Hre Hf Hg Ho. constructor; [by eapply shrinks_rest| | |done]; rewrite ?Ef, ?Eg;
    (eapply Forall_impl; [eassumption|]); intros q; by apply shrinks_unanswered.
Qed.

Lemma settle g s :
  sound (g, s) -> up s -> Deque.closed (orphaned_calls (shm s)) = false ->
  exists s', rtc sys_step (g, s) (GcFetch, s') /\ stays s s' /\ over s'.
Proof.
  intros Hso Hu Hd. assert (calm s) as Hc by (destruct Hso as [(? & ? & _) ?]; done).
  destruct (finish_calls s Hc) as (s1 & [H1 K1] & R1). pose proof (calm_acts _ _ H1 K1 Hc) as C1.
  destruct (free_guests (guests s1) [] s1) as (s2 & H2 & K2 & G2); [by rewrite app_nil_r|done|].
  pose proof (calm_acts _ _ H2 (shrinks_stays _ _ K2) C1) as C2. pose proof (shrinks_rest _ _ K2 R1) as R2.
  destruct (drop_futures (futures s2) [] s2) as (s3 & H3 & K3 & F3 & E3); [done|done|by rewrite app_nil_r|done|].
  assert (rtc sys_step (g, s) (g, s3)) as Hr3 by (apply acts_run; by repeat (etrans; [eassumption|])).
  pose proof (sound_run _ _ Hr3 Hso) as [I3 _].
  assert (up s3) as U3 by (eapply up_stays; [by apply shrinks_stays|apply C2]).
  destruct (gc_to_top g s3 I3 U3) as (w4 & Hr4 & K4). set (s4 := set_shm w4 s3) in *.
  pose proof (inv_run _ _ Hr4 I3) as (Hg4 & _ & Hok4). cbn [fst snd] in *.
  assert (shrinks s1 s4) as K14 by (eapply shrinks_trans; [exact K2|]; by eapply shrinks_trans).
  assert (Deque.closed (orphaned_calls (shm s4)) = false) as Hd4.
  { rewrite (sh_deque _ _ K14), (sy_deque _ _ K1). done. }
  assert (custody (shm s4)) as Hc4 by (apply up_custody; [done|exact (up_stays _ _ (shrinks_stays _ _ K4) U3)]).
  destruct (collect_all (shm s4) Hc4 Hd4) as (w5 & Hr5 & Hn5).
  pose proof (alone_shrinks s4 _ _ Hr5 Hc4 Hok4 eq_refl) as K5.
  exists (set_shm w5 s4). split_and!.
  - etrans; [exact Hr3|]. etrans; [exact Hr4|]. exact (alone_run s4 _ _ Hr5 eq_refl).
  - eapply stays_trans; [exact K1|]. apply shrinks_stays. by eapply shrinks_trans.
  - apply (shrinks_over s3); [by eapply shrinks_trans|done|done|by eapply shrinks_rest|done| |done].
    rewrite E3. eapply Forall_impl; [exact G2|]. intros q. by apply shrinks_unanswered.
Qed.

(** In a reachable state nothing is lost as long as everything is open. *)
Lemma reachable_up timing g s :
  rtc sys_step (sys_init timing) (g, s) -> (forall which, ABQ.closed (get_queue which (shm s)) = false) ->
  Deque.closed (orphaned_calls (shm s)) = false -> sound (g, s) /\ up s.
Proof.
  intros Hr Hq Hd. split; [by eapply sound_reachable|]. pose proof (astray_reachable _ _ Hr) as [A1 A2]. cbn [snd] in *.
  constructor; [done|]. split.
  - destruct (lost s); [done|]. specialize (A1 ltac:(done)). by rewrite Hq in A1.
  - destruct (leaked s); [done|]. specialize (A2 ltac:(done)). by rewrite Hd in A2.
Qed.

(** The slots that are left are those of the calls that nobody answers. *)
Lemma settle_slots timing g s :
  rtc sys_step (sys_init timing) (g, s) -> (forall which, ABQ.closed (get_queue which (shm s)) = false) ->
  Deque.closed (orphaned_calls (shm s)) = false ->
  exists s', rtc sys_step (g, s) (GcFetch, s') /\ over s' /\ stays s s' /\
    (forall r, r ∈ opens s' <-> unanswerable s r) /\
    (forall p, is_Some (slots (shm s') !! p) <-> exists t, unanswerable s (t, p)).
Proof.
  intros H0 Hq Hd. destruct (reachable_up _ _ _ H0 Hq Hd) as [Hso Hu].
  destruct (settle g s Hso Hu Hd) as (s' & Hr & Hst & Hov). exists s'.
  pose proof (sound_run _ _ Hr Hso) as [(Hg & _) Hh]. pose proof (up_stays _ _ Hst Hu) as Hu'. cbn [snd] in *.
  assert (forall r, unanswerable s r -> r ∈ opens s') as Hf.
  { intros r Hn. apply adrift_opens; [done|]. apply (adrift_run _ _ r Hr (proj1 Hso)). by right. }
  split_and!; [done|done|done| |].
  - intros r. split; [|by apply Hf]. intros Hin. by apply (sy_mute _ _ Hst), rest_unanswerable; [..|apply Hov|].
  - intros p. split.
    + intros Hp. destruct (over_slot s' p Hg Hh Hu' Hov Hp) as [t Ht]. exists t. by apply (sy_mute _ _ Hst).
    + intros [t Ht]. destruct (open_slot s' (t, p) Hg (Hf _ Ht)) as (sl & Hsl & _). by exists sl.
Qed.

(** A call that was open and is no more has been answered on the way. *)
Lemma answered_on_the_way x y r :
  rtc sys_step x y -> inv x -> r ∈ opens x.2 -> r ∉ opens y.2 ->
  exists z sl, rtc sys_step x z /\ slots (shm z.2) !! r.2 = Some sl /\ is_terminal (state sl) = true.
Proof.
  intros Hr. induction Hr as [x|x y z Hst _ IH]; intros Hi Hx Hz; [done|].
  destruct (open_slot x.2 r (proj1 Hi) Hx) as (sl & Hsl & Ho & Ht).
  destruct (sys_keeps x y Hst Hi r.2 sl Hsl Ho) as (sl' & Hsl' & Ht' & _).
  destruct (is_terminal (state sl')) eqn:E; [exists y, sl'; split_and!; [by apply rtc_once|done|done]|].
  pose proof (inv_sys_step x y Hst Hi) as Hi'. destruct (IH Hi') as (z' & slz & Hrz & Hz'); [|done|].
  - destruct r as [t p]. apply (lg_open _ _ _ _ _ (gd_ledger y.2 (proj1 Hi'))). exists sl'.
    unfold Ledger.is_open. rewrite E. split_and!; [done|done|]. cbn [fst snd] in *. congruence.
  - exists z', slz. split; [by eapply rtc_l|done].
Qed.

(** ** Properties *)

(** C3: What becomes of the calls and the memory, from every state that the
    system can reach before the shutdown has closed a queue or the collector's
    deque: there are further steps, which close nothing, after which the calls
    without an answer are exactly the log entries that are not commands and that
    have none now, and the slots in the segment are exactly the slots of these
    calls. Everything else has been answered and given back; so no such state is a
    deadlock, and none has leaked memory. *)
Theorem sys_settles timing g s :
  rtc sys_step (sys_init timing) (g, s) ->
  (forall which, ABQ.closed (get_queue which (shm s)) = false) ->
  Deque.closed (orphaned_calls (shm s)) = false ->
  exists s', rtc sys_step (g, s) (GcFetch, s') /\
    (forall which, ABQ.closed (get_queue which (shm s')) = false) /\
    Deque.closed (orphaned_calls (shm s')) = false /\
    (forall r, r ∈ opens s' <-> unanswerable s r) /\
    (forall p, is_Some (slots (shm s') !! p) <-> exists t, unanswerable s (t, p)).
Proof.
  intros H0 Hq Hd. destruct (settle_slots _ g s H0 Hq Hd) as (s' & H1 & _ & Hst & H2). exists s'.
  split_and!; [done|intros which; by rewrite (sy_queue _ _ Hst)|by rewrite (sy_deque _ _ Hst)|apply H2..].
Qed.

(** C28: Which calls can be answered: in a state that the system can reach before
    the shutdown has closed anything, a call that waits has its answer in some
    later state if and only if it is not a log entry other than a command. *)
Theorem call_answerable timing g s r :
  rtc sys_step (sys_init timing) (g, s) ->
  (forall which, ABQ.closed (get_queue which (shm s)) = false) ->
  Deque.closed (orphaned_calls (shm s)) = false -> r ∈ opens s ->
  (exists x sl, rtc sys_step (g, s) x /\ slots (shm x.2) !! r.2 = Some sl /\ is_terminal (state sl) = true) <->
  ~ unanswerable s r.
Proof.
  intros H0 Hq Hd Hr. destruct (reachable_up _ _ _ H0 Hq Hd) as [[Hi Hh] Hu]. split.
  - intros (x & sl & Hrun & Hsl & Ht) Hs.
    destruct (adrift_slot (g, s) x r Hi (or_intror Hs) Hrun) as (sl' & Hsl' & Ho). congruence.
  - intros Hns. assert (calm s) as Hc by (destruct Hi as (? & ? & _); done).
    destruct (finish_calls s Hc) as (s' & [Hrun Hst] & Hre). pose proof (calm_acts _ _ Hrun Hst Hc) as (_ & _ & Hh' & Hu').
    apply (answered_on_the_way (g, s) (g, s') r); [by apply acts_run|done|done|]. cbn [snd]. intros Hin.
    by apply Hns, (sy_mute _ _ Hst), rest_unanswerable.
Qed.

(** The system can finish: from every state that it can reach, as long as no
    queue has been closed and the log entries are commands, there are further
    steps after which every call has been answered, no client or Raft process
    holds a call, and no slot is left in the segment. *)
Theorem sys_can_finish timing g s :
  rtc sys_step (sys_init timing) (g, s) ->
  (forall which, ABQ.closed (get_queue which (shm s)) = false) ->
  Deque.closed (orphaned_calls (shm s)) = false ->
  (forall p sl, slots (shm s) !! p = Some sl -> tag sl = FSMApply -> is_command (args sl) = true) ->
  exists s', rtc sys_step (g, s) (GcFetch, s') /\
    slots (shm s') = ∅ /\ opens s' = [] /\ futures s' = [] /\ guests s' = [].
Proof.
  intros H0 Hq Hd Hc. destruct (settle_slots _ g s H0 Hq Hd) as (s' & Hr & _ & _ & Ho & Hs).
  assert (forall r, ~ unanswerable s r) as Hn.
  { intros r (_ & sl & Hsl & (Ht & _ & Hm)%mute_inv). by rewrite (Hc _ _ Hsl Ht) in Hm. }
  pose proof (sound_run _ _ Hr (sound_reachable _ _ H0)) as [(Hg & _) _]. cbn [snd] in Hg.
  assert (slots (shm s') = ∅) as E.
  { apply map_empty. intros p. apply eq_None_not_Some. intros [t Ht]%Hs. by eapply Hn. }
  assert (owners s' = []) as Eo.
  { destruct (owners s') as [|p l] eqn:E'; [done|exfalso]. assert (p ∈ owners s') as Hp by (rewrite E'; apply list_elem_of_here).
    apply (lg_owner _ _ _ _ _ (gd_ledger s' Hg)) in Hp as [sl Hsl]. by rewrite E, lookup_empty in Hsl. }
  apply app_nil in Eo as [(_ & (Ef & (Eg & _)%app_nil)%app_nil)%app_nil _]. exists s'. split_and!; [done|done| |done|done].
  destruct (opens s') as [|r l] eqn:E'; [done|exfalso]. apply (Hn r), Ho. apply list_elem_of_here.
Qed.

End Live.

Lemma sys_can_finish_witness : exists s', rtc sys_step (GcFetch, demo) (GcFetch, s') /\ slots (shm s') = ∅.
Proof.
  destruct (sys_can_finish false GcFetch demo demo_reached) as (s' & Hr & Hs & _).
  - by intros [].
  - by vm_compute.
  - intros p sl Hsl Ht. assert (Forall (fun kv => tag kv.2 = FSMApply -> is_command (args kv.2) = true)
      (map_to_list (slots (shm demo)))) as Hall by (vm_compute; repeat constructor; done).
    rewrite Forall_forall in Hall. exact (Hall (p, sl) (proj2 (elem_of_map_to_list _ _ _) Hsl) Ht).
  - by exists s'.
Defined.

(** In the run of SystemCalls.v the worker has taken an entry that is not a
    command. *)
Definition noop_end : sys := Sys noop3 [] [] [(Apply, 4352)] [4608] [] [(FSMApply, 4608)] [] [].
#[local] Strategy 100 [noop1 noop2 noop3].

Lemma noop_mute r : r = (FSMApply, 4608) <-> unanswerable noop_end r.
Proof.
  split.
  - intros ->. split; [done|]. eexists. split; by vm_compute.
  - intros (Ht & sl & Hsl & Hm). assert (Forall (fun kv => mute kv.2 = true -> kv.1 = 4608) (map_to_list (slots noop3))) as Hall
      by (vm_compute; repeat constructor; done).
    rewrite Forall_forall in Hall. pose proof (Hall (r.2, sl) (proj2 (elem_of_map_to_list _ _ _) Hsl) Hm) as E.
    destruct r as [t p]. cbn in *. by subst.
Qed.

Lemma sys_settles_witness :
  exists s', rtc sys_step (GcFetch, noop_end) (GcFetch, s') /\
    (forall r, r ∈ opens s' <-> r = (FSMApply, 4608)) /\ slots (shm s') !! 4352 = None.
Proof.
  destruct (sys_settles false GcFetch noop_end (acts_run _ _ _ noop_run)) as (s' & Hr & _ & _ & Ho & Hs);
    [by intros []; vm_compute|by vm_compute|].
  exists s'. split_and!; [exact Hr|intros r; by rewrite Ho, <- noop_mute|].
  apply eq_None_not_Some. intros [t Ht%noop_mute]%Hs. done.
Defined.

Lemma call_answerable_witness :
  exists x sl, rtc sys_step (GcFetch, noop_end) x /\
    slots (shm x.2) !! 4352 = Some sl /\ is_terminal (state sl) = true.
Proof.
  apply (call_answerable false GcFetch noop_end (Apply, 4352) (acts_run _ _ _ noop_run));
    [by intros []; vm_compute|by vm_compute|vm_compute; by left|].
  by intros Ht%noop_mute.
Defined.
End SystemLive.
