(* ===== verification/SystemFair.v ===== *)
(** * Fair runs

    In a run of the system in which every thread that can go on does so in the
    end, every call that waits is answered, unless it is a log entry that nobody
    answers or the shutdown closes a queue. *)

From stdpp Require Import base tactics list strings gmap relations.
From Stdlib Require Import ZArith Lia Permutation.
From S2P Require Import Prelude CString Defs ArrayQueue Deque Slot Shm ShmInv ShmSpec Orphans Collector Ledger CIf FsmWorker FsmSpec System SystemSpec SystemCalls SystemLive.

(** ** Fairness *)
Module Fair.
Section Fair.
Context {State : Type} (run : nat -> State).

(** A thread that can take its step for ever from some point on takes it; one
    that can take it again and again takes it. *)
Definition fair (R : relation State) : Prop :=
  forall i, exists j, (i <= j)%nat /\ (R (run j) (run (S j)) \/ ~ exists s, R (run j) s).

Definition strongly_fair (R : relation State) : Prop :=
  forall i, exists j, (i <= j)%nat /\ (R (run j) (run (S j)) \/ forall k, (j <= k)%nat -> ~ exists s, R (run k) s).

Definition reached (i : nat) (Q : State -> Prop) : Prop := exists j, (i <= j)%nat /\ Q (run j).

Lemma reached_now i (Q : State -> Prop) : Q (run i) -> reached i Q.
Proof. exists i. split; [lia|done]. Qed.

Lemma reached_later i j Q : (i <= j)%nat -> reached j Q -> reached i Q.
Proof. intros Hij (k & Hjk & Hq). exists k. split; [lia|done]. Qed.

Lemma reached_then i Q Q' : reached i Q -> (forall j, (i <= j)%nat -> Q (run j) -> reached j Q') -> reached i Q'.
Proof. intros (j & Hij & Hq) Hn. eapply reached_later; [exact Hij|]. auto. Qed.

(** [P] holds until [Q] does. *)
Definition until (P Q : State -> Prop) : Prop :=
  forall i, P (run i) -> P (run (S i)) \/ reached i Q.

Lemma until_at P Q i j : until P Q -> (i <= j)%nat -> P (run i) -> P (run j) \/ reached i Q.
Proof.
  intros Hu Hij Hp. induction Hij as [|j Hij IH]; [by left|].
  destruct IH as [IH|]; [|by right]. destruct (Hu j IH) as [|Hq]; [by left|right]. by eapply reached_later.
Qed.

Lemma fair_leads R P Q i :
  fair R -> until P Q -> (forall k, P (run k) -> (exists s, R (run k) s) \/ reached k Q) ->
  (forall k, P (run k) -> R (run k) (run (S k)) -> reached k Q) -> P (run i) -> reached i Q.
Proof.
  intros Hf Hu Hen Hst Hp. destruct (Hf i) as (j & Hij & Hj).
  destruct (until_at P Q i j Hu Hij Hp) as [Hpj|]; [|done]. apply (reached_later i j); [done|].
  destruct Hj as [Hj|Hj]; [by apply Hst|]. by destruct (Hen j Hpj).
Qed.

Lemma strongly_fair_leads R P Q i :
  strongly_fair R -> until P Q -> (forall k, P (run k) -> reached k (fun s => exists s', R s s') \/ reached k Q) ->
  (forall k, P (run k) -> R (run k) (run (S k)) -> reached k Q) -> P (run i) -> reached i Q.
Proof.
  intros Hf Hu Hen Hst Hp. destruct (Hf i) as (j & Hij & Hj).
  destruct (until_at P Q i j Hu Hij Hp) as [Hpj|]; [|done]. apply (reached_later i j); [done|].
  destruct Hj as [Hj|Hj]; [by apply Hst|]. destruct (Hen j Hpj) as [(k & Hjk & Hk)|]; [|done]. by destruct (Hj k Hjk).
Qed.

(** A thread that comes closer with each of its steps gets there. *)
Lemma fair_measure (R : relation State) (P : nat -> State -> Prop) (Q : State -> Prop) n i :
  fair R -> (forall n k, P n (run k) -> exists s, R (run k) s) ->
  (forall n k, P n (run k) -> reached k Q \/ exists m, (m <= n)%nat /\ P m (run (S k))) ->
  (forall n k, P n (run k) -> R (run k) (run (S k)) -> reached k Q \/ exists m, (m < n)%nat /\ P m (run (S k))) ->
  P n (run i) -> reached i Q.
Proof.
  intros Hf Hen Hstep Hr. revert i. induction (lt_wf n) as [n _ IH]. intros i Hp.
  apply (reached_then i (fun s => Q s \/ exists m, (m < n)%nat /\ P m s)).
  2:{ intros j _ [Hq|(m & Hlt & Hm)]; [by apply reached_now|]. by apply (IH m). }
  assert (forall k, reached k Q -> reached k (fun s => Q s \/ exists m, (m < n)%nat /\ P m s)) as Hl.
  { intros k (j & Hkj & Hq). exists j. auto. }
  apply (fair_leads R (fun s => exists m, (m <= n)%nat /\ P m s)); [done| | | |by exists n].
  - intros k (m & Hle & Hk). destruct (Hstep m k Hk) as [Hq|(m' & Hle' & Hk')]; [right; auto|left]. exists m'. split; [lia|done].
  - intros k (m & _ & Hk). left. eauto.
  - intros k (m & Hle & Hk) HR. destruct (Hr m k Hk HR) as [Hq|(m' & Hlt & Hk')]; [auto|].
    exists (S k). split; [lia|]. right. exists m'. split; [lia|done].
Qed.
End Fair.
End Fair.

Module SystemFair.
Import CString Defs Slot Shm ShmSpec Orphans Collector Ledger FsmWorker System SystemSpec SystemCalls SystemLive Fair.

Section Moves.
Context `{Segment}.

(** ** Where a call goes *)

Lemma not_open s r sl :
  good s -> slots (shm s) !! r.2 = Some sl -> is_terminal (state sl) = true -> r ∉ opens s.
Proof.
  intros Hg Hsl Ht Hr. destruct (open_slot s r Hg Hr) as (sl' & Hsl' & Ho & _). congruence.
Qed.

Lemma part_nodup s (l1 l l2 : list call_rec) : good s -> opens s = l1 ++ l ++ l2 -> NoDup l.
Proof.
  intros Hg E. pose proof (lg_open_nodup _ _ _ _ _ (gd_ledger s Hg)) as Hnd. apply NoDup_fmap_1 in Hnd. rewrite E in Hnd.
  by apply NoDup_app in Hnd as (_ & _ & (Hnd & _ & _)%NoDup_app).
Qed.

Lemma nodup_head (l l' : list call_rec) r : NoDup l -> l ≡ₚ r :: l' -> r ∉ l'.
Proof. intros Hnd Hl. rewrite Hl in Hnd. by apply NoDup_cons in Hnd as [? _]. Qed.

Ltac parts := match goal with HP : _ ≡ₚ _ :: _, Hr : _ ∈ _ |- _ => rewrite HP, elem_of_cons in Hr; destruct Hr as [->|Hr] end.
Ltac the_call := match goal with HP : _ ≡ₚ _ :: _ |- _ => rewrite HP end; apply list_elem_of_here.

Lemma updated_gone s s' r sl f :
  good s' -> slots (shm s) !! r.2 = Some sl -> slots (shm s') = slots (update_slot r.2 f (shm s)) ->
  is_terminal (state (f sl)) = true -> r ∉ opens s'.
Proof. intros Hg Hsl Es. apply not_open; [done|]. by rewrite Es, (slots_update r.2 f _ sl Hsl), lookup_insert_eq. Qed.

Lemma replied_gone s s' r sl sl' :
  good s' -> slots (shm s') = slots (FsmSpec.upd r.2 sl' (shm s)) -> answers sl sl' -> r ∉ opens s'.
Proof. intros Hg Es (_ & _ & _ & Ht & _). eapply not_open; [done| |exact Ht]. by rewrite Es, FsmSpec.upd_lookup. Qed.

(** Where a request is sent, and the shutdown. *)
Definition dest (r : call_rec) : which_queue := if is_fsm r.1 then FsmQueue else ApiQueue.
Definition shut (s : sys) : Prop := exists which, ABQ.closed (get_queue which (shm s)) = true.

Lemma put_in s r which q l :
  good s -> sending s ≡ₚ r :: l -> ABQ.put_checked queue_capacity r (get_queue which (shm s)) = Ret () q ->
  r ∈ queued which (set_queue which q (shm s)).
Proof.
  intros Hg _ Hq. unfold queued. rewrite get_set_queue, decide_True by done.
  rewrite (queued_put _ _ _ _ (gd_queue s Hg which) Hq). apply elem_of_app. right. apply list_elem_of_here.
Qed.

Lemma move_sending s s' r :
  act_step s s' -> good s -> r ∈ sending s ->
  r ∈ sending s' \/ r ∈ queued (dest r) (shm s') \/ (r ∉ opens s') \/ shut s'.
Proof.
  intros Hst Hg Hr. pose proof (good_act s s' Hst Hg) as Hg'. unfold dest.
  destruct Hst; cbn [sending set_shm] in *; try (by left); try (by left; apply list_elem_of_further); parts; try (by left);
    right; match goal with Hf : is_fsm _ = _ |- _ => rewrite Hf end.
  - left. by eapply put_in.
  - right. left. destruct (open_slot s r0 Hg) as (sl & Hsl & _). { apply opens_parts. left. the_call. }
    by eapply (updated_gone s); [|exact Hsl|done|].
  - left. by eapply put_in.
  - right. right. by exists FsmQueue.
Qed.

Lemma move_raft s s' r :
  act_step s s' -> good s -> r ∈ raft_calls s -> r ∈ raft_calls s' \/ r ∉ opens s'.
Proof.
  intros Hst Hg Hr. pose proof (good_act s s' Hst Hg) as Hg'.
  destruct Hst; cbn [raft_calls set_shm] in *; try (by left); [by left; apply list_elem_of_further| |]; parts; try (by left);
    right; (destruct (open_slot s r0 Hg) as (sl & Hsl & Ho & _); [apply opens_parts; right; left; the_call|]);
    (eapply (updated_gone s); [done|exact Hsl|done|]); cbv beta; rewrite ?reply_value_eq, reply_open by done; [by destruct err|done].
Qed.

Lemma move_taken s s' r :
  act_step s s' -> good s -> r ∈ fsm_taken s -> r ∈ fsm_taken s' \/ r ∈ released s' \/ r ∉ opens s'.
Proof.
  intros Hst Hg Hr. pose proof (good_act s s' Hst Hg) as Hg'. destruct (taken_slot s r Hg Hr) as (sl & Hsl & Ho & _).
  destruct Hst; cbn [fsm_taken set_shm] in *; try (by left); [by left; apply list_elem_of_further| | |]; parts; try (by left); right.
  - right. destruct (fsm_applied_eq r0.2 v sl (shm s) Hsl Ho) as (sl' & E & Ha).
    eapply (replied_gone s); [done| |exact Ha]. cbn [shm]. congruence.
  - right. destruct (fsm_restored_eq r0.2 ok sl (shm s) Hsl Ho) as (sl' & E & Ha).
    eapply (replied_gone s); [done| |exact Ha]. cbn [shm]. congruence.
  - left. apply list_elem_of_here.
Qed.

Lemma move_released s s' r :
  act_step s s' -> good s -> r ∈ released s -> r ∈ released s' \/ r ∉ opens s'.
Proof.
  intros Hst Hg Hr. pose proof (good_act s s' Hst Hg) as Hg'. destruct (released_slot s r Hg Hr) as (sl & Hsl & Ho & How).
  destruct Hst; cbn [released set_shm] in *; try (by left); [by left; apply list_elem_of_further|]; parts; try (by left); right.
  destruct (snapshot_done_eq r0.2 ok sl (shm s) (gd_sched s Hg) Hsl Ho How) as (sl' & E & Ha).
  eapply (replied_gone s); [done| |exact Ha]. cbn [shm]. congruence.
Qed.
(** Who gets what comes out of a queue. *)
Definition takers (which : which_queue) (s : sys) : list call_rec :=
  match which with ApiQueue => raft_calls s | FsmQueue => fsm_taken s end.

Lemma move_queue s s' which :
  act_step s s' -> good s ->
  (exists l, queued which (shm s') = queued which (shm s) ++ l) \/
  (exists x, queued which (shm s) = x :: queued which (shm s') /\ x ∈ takers which s').
Proof.
  assert (forall w w', get_queue which w' = get_queue which w -> exists l, queued which w' = queued which w ++ l) as Hsame.
  { intros w w' E. exists []. unfold queued. by rewrite E, app_nil_r. }
  intros Hst Hg. pose proof Hg as [_ G2 G3 _]. destruct Hst; cbn [shm set_shm]; try (left; by apply Hsame);
    try (left; apply Hsame; match goal with Hr : _ (shm s) = Ret _ ?w |- _ =>
      eapply queues_Ret; [|exact G2|exact Hr]; by constructor end).
  - left. destruct which; [|by apply Hsame]. exists [r]. by apply (queued_put _ _ _ _ (G3 ApiQueue)).
  - left. apply Hsame. match goal with HP : futures s ≡ₚ ?p :: _ |- _ =>
      destruct (good_future s p Hg) as (sl & Hsl & Hcs & _); [the_call|] end.
    by destruct (dispose_throws _ _ _ _ Hsl Hcs ltac:(eassumption)) as (_ & _ & ->), which.
  - destruct which; [right|left; by apply Hsame]. exists r. split; [|apply list_elem_of_here].
    by apply (queued_take _ _ _ _ (G3 ApiQueue)).
  - left. destruct which; [by apply Hsame|]. exists [r]. by apply (queued_put _ _ _ _ (G3 FsmQueue)).
  - destruct (fsm_receive_cases s Hg) as [(r' & q & Hq & E)|(_ & ? & E)]; rewrite E in *; simplify_eq.
    destruct which; [left; by apply Hsame|right]. exists r. split; [|apply list_elem_of_here].
    by apply (queued_take _ _ _ _ (G3 FsmQueue)).
  - left. exists []. by rewrite queued_close, app_nil_r.
Qed.

(** The collector moves none of the calls. *)
Lemma collector_moves g g' s w :
  inv (g, s) -> gc_step (g, shm s) (g', w) -> forall which, queued which w = queued which (shm s).
Proof.
  intros (Hg & _ & Hok) Hst which.
  destruct (gc_step_effect _ _ _ _ (gd_custody s Hg) Hok Hst) as [[_ _ Hsb _ _ _] _]. by apply queued_same.
Qed.

(** ** What the threads do with a call *)

(** The step that a thread with the call [r] takes: the one that sends it while
    the queue is open, the Raft process, the worker, or the thread that writes
    snapshots. *)
Definition sends (r : call_rec) (s s' : sys) : Prop :=
  ABQ.closed (get_queue (dest r) (shm s)) = false /\ act_step s s' /\ r ∈ sending s /\ r ∉ sending s'.
Definition replies (r : call_rec) (s s' : sys) : Prop := act_step s s' /\ r ∈ raft_calls s /\ r ∉ raft_calls s'.
Definition completes (r : call_rec) (s s' : sys) : Prop := act_step s s' /\ r ∈ released s /\ r ∉ released s'.

Definition pending (s : sys) (p : Z) : Prop := exists sl, slots (shm s) !! p = Some sl /\ state sl = Pending.

Definition works (r : call_rec) (s s' : sys) : Prop :=
  act_step s s' /\ r ∈ fsm_taken s /\ ((r ∉ fsm_taken s') \/ (pending s r.2 /\ ~ pending s' r.2)).

(** The other side takes a call from its queue, while that is open. *)
Definition takes (which : which_queue) (s s' : sys) : Prop :=
  ABQ.closed (get_queue which (shm s)) = false /\ act_step s s' /\ exists x, queued which (shm s) = x :: queued which (shm s').

Lemma replies_enabled s r : good s -> r ∈ raft_calls s -> exists s', replies r s s'.
Proof.
  intros Hg Hr. pose proof Hr as (l & Hl)%elem_of_Permutation. eexists. split_and!; [by apply (st_raft_reply r RAFT_SUCCESS)|done|].
  eapply nodup_head; [|exact Hl]. by eapply (part_nodup s (sending s ++ queued ApiQueue (shm s))); [|unfold opens; by rewrite <- !app_assoc].
Qed.

Lemma completes_enabled s r : good s -> r ∈ released s -> r.1 = FSMSnapshot -> exists s', completes r s s'.
Proof.
  intros Hg Hr Hr1. pose proof Hr as (l & Hl)%elem_of_Permutation. destruct (released_slot s r Hg Hr) as (sl & Hsl & Ho & How).
  destruct (snapshot_done_eq r.2 true sl (shm s) (gd_sched s Hg) Hsl Ho How) as (sl' & E & _).
  eexists. split_and!; [by eapply st_snapshot_done|done|]. eapply nodup_head; [|exact Hl].
  eapply (part_nodup s (sending s ++ queued ApiQueue (shm s) ++ raft_calls s ++ queued FsmQueue (shm s) ++ fsm_taken s) _ (lost s)); [done|].
  unfold opens. by rewrite <- !app_assoc.
Qed.

Lemma takes_enabled s which :
  good s -> ABQ.closed (get_queue which (shm s)) = false -> queued which (shm s) <> [] -> exists s', takes which s s'.
Proof.
  intros Hg Hop Hne. pose proof (gd_queue s Hg which) as Hwf. destruct which.
  - destruct (take_cases _ Hwf) as [(_ & E & _)|(_ & r & q & Hq)]; [done|].
    eexists. split_and!; [done|by apply st_raft_take|]. exists r. exact (queued_take _ _ _ _ Hwf Hq).
  - destruct (fsm_receive_cases s Hg) as [(r & q & Hq & E)|(E & _)]; [|done].
    eexists. split_and!; [done|by apply st_fsm_take|]. exists r. exact (queued_take _ _ _ _ Hwf Hq).
Qed.

Lemma taken_nodup s r l : good s -> fsm_taken s ≡ₚ r :: l -> r ∉ l.
Proof.
  intros Hg. apply nodup_head.
  eapply (part_nodup s (sending s ++ queued ApiQueue (shm s) ++ raft_calls s ++ queued FsmQueue (shm s))); [done|].
  unfold opens. by rewrite <- !app_assoc.
Qed.

Lemma works_enabled s r : good s -> sides s -> r ∈ fsm_taken s -> exists s', works r s s'.
Proof.
  intros Hg Hsd Hr. pose proof Hr as (l & Hl)%elem_of_Permutation. pose proof (taken_nodup s r l Hg Hl) as Hni.
  pose proof (sd_taken s Hsd) as Hk. rewrite Hl in Hk. apply Forall_cons in Hk as [Hk _].
  destruct (open_slot s r Hg (taken_open s r Hr)) as (sl & Hsl & Ho & Htag).
  destruct (state sl) eqn:Hst; try done.
  - destruct (gives_back r.1 (args sl)) eqn:Hb.
    { eexists. split_and!; [by eapply (st_fsm_release r s l sl); try done; apply FsmSpec.unlock_eq|done|by left]. }
    destruct r.1 eqn:Hr1; try done.
    + destruct (fsm_dispatch_eq r.2 sl (shm s) Hsl) as (sl1 & E & Hs1). eexists. split_and!.
      * eapply (st_fsm_dispatch r s sl); try done. cbn in Hb. by destruct (is_command (args sl)).
      * done.
      * right. split; [by exists sl|]. intros (sl2 & Hsl2 & Hp). cbn [shm set_shm] in Hsl2.
        rewrite FsmSpec.upd_lookup in Hsl2. congruence.
    + destruct (fsm_restored_eq r.2 true sl (shm s) Hsl) as (sl' & E & _); [by rewrite Hst|].
      eexists. split_and!; [by eapply st_fsm_restored|done|by left].
  - destruct (fsm_applied_eq r.2 0 sl (shm s) Hsl) as (sl' & E & _); [by rewrite Hst|].
    eexists. split_and!; [by eapply st_fsm_applied|done|by left].
Qed.

(** A request can be sent when the queue has room. *)
Definition room (which : which_queue) (s : sys) : Prop :=
  ABQ.closed (get_queue which (shm s)) = true \/ Z.of_nat (length (queued which (shm s))) < queue_capacity.

Lemma put_room r (q : CallQueue) :
  ABQ.wf queue_capacity q -> Z.of_nat (length (ABQ.contents queue_capacity q)) < queue_capacity ->
  exists q', ABQ.put_checked queue_capacity r q = Ret () q'.
Proof.
  intros Hwf Hn. rewrite (ABQ.length_contents (Capacity := queue_capacity)) in Hn by done.
  unfold ABQ.put_checked. destruct (ABQ.full _ _) eqn:Hf; unfold ABQ.full in Hf; zbool; [lia|].
  destruct (ABQ.put_body_spec (Capacity := queue_capacity) ltac:(done) _ r Hwf) as (q1 & -> & _); [lia|]. by exists q1.
Qed.

Lemma sends_enabled s r : good s -> r ∈ sending s -> room (dest r) s -> shut s \/ exists s', sends r s s'.
Proof.
  intros Hg Hr Hro. pose proof Hr as (l & Hl)%elem_of_Permutation.
  assert (r ∉ l) as Hni. { eapply nodup_head; [|exact Hl]. by eapply (part_nodup s []). }
  destruct (ABQ.closed (get_queue (dest r) (shm s))) eqn:Hc; [left; by exists (dest r)|right].
  destruct Hro as [|Hro]; [congruence|]. destruct (put_room r _ (gd_queue s Hg (dest r)) Hro) as [q Hq].
  unfold sends, dest in *. destruct (is_fsm r.1) eqn:Hf; eexists.
  - split_and!; [done|by eapply (st_raft_put r)|done|done].
  - split_and!; [done|by eapply (st_put r)|done|done].
Qed.

(** There is room after a call has been taken, and when none can be. *)
Lemma takes_room s s' which : good s -> takes which s s' -> room which s'.
Proof.
  intros Hg (_ & _ & x & E). right. pose proof (gd_queue s Hg which) as Hwf.
  pose proof (ABQ.length_contents (Capacity := queue_capacity) ltac:(done) _ Hwf) as Hl. fold (queued which (shm s)) in Hl.
  rewrite E in Hl. cbn [length] in Hl. destruct Hwf as [_ _ Hc _]. lia.
Qed.

Lemma idle_room s which : good s -> (~ exists s', takes which s s') -> room which s.
Proof.
  intros Hg Hn. destruct (ABQ.closed (get_queue which (shm s))) eqn:Hc; [by left|right].
  destruct (queued which (shm s)) eqn:E; [done|]. destruct Hn. apply takes_enabled; [done|done|congruence].
Qed.
End Moves.

(** ** Every fair run *)

Section Runs.
Context `{Segment}.
Variable run : nat -> gc_pc * sys.
Hypothesis run_sound : sound (run 0).
Hypothesis run_astray : astray (run 0).2.
Hypothesis run_steps : forall i, sys_step (run i) (run (S i)).

(** The segment and the calls at a time. *)
Definition at_time (i : nat) : sys := (run i).2.

Lemma sound_at i : sound (run i).
Proof. induction i as [|i IH]; [done|]. by eapply sound_step. Qed.

Lemma good_at i : good (at_time i).
Proof. destruct (sound_at i) as [(Hg & _) _]. done. Qed.

Lemma astray_at i : astray (at_time i).
Proof.
  induction i as [|i IH]; [done|]. destruct (sound_at i) as [Hi _]. by apply (astray_step _ _ (run_steps i)).
Qed.

(** A step, by who takes it. *)
Lemma step_cases i :
  act_step (at_time i) (at_time (S i)) \/
  (exists w, at_time (S i) = set_shm w (at_time i) /\ forall which, queued which w = queued which (shm (at_time i))).
Proof.
  pose proof (run_steps i) as Hst. pose proof (sound_at i) as [Hi _]. unfold at_time.
  destruct Hst as [g s s' Hst|g g' s w Hst]; [by left|right]. exists w. split; [done|]. exact (collector_moves g g' s w Hi Hst).
Qed.

(** What the call [r] comes to: its answer, or that nobody answers it, or the
    shutdown. *)
Definition stuck (s : sys) (r : call_rec) : Prop := unanswerable s r \/ shut s.
Definition resolved (r : call_rec) (s : sys) : Prop := (r ∉ opens s) \/ stuck s r.


#[local] Abbreviation reaches i Q := (reached at_time i Q).
#[local] Abbreviation eventually i r := (reached at_time i (resolved r)).

(** [P] holds of a call until it is resolved, or moves on to [Q]: a rule for the
    steps of the others. *)
Lemma until_intro (r : call_rec) (P Q : sys -> Prop) :
  (forall i, P (at_time i) -> act_step (at_time i) (at_time (S i)) ->
     P (at_time (S i)) \/ Q (at_time (S i)) \/ r ∉ opens (at_time (S i))) ->
  (forall i w, P (at_time i) -> at_time (S i) = set_shm w (at_time i) ->
     (forall which, queued which w = queued which (shm (at_time i))) -> P (at_time (S i))) ->
  until at_time P (fun s => Q s \/ resolved r s).
Proof.
  intros Hact Hgc i Hp. destruct (step_cases i) as [Hst|(w & E & Hq)]; [|left; by eapply Hgc].
  destruct (Hact i Hp Hst) as [|Hn]; [by left|right]. exists (S i). split; [lia|]. unfold resolved. tauto.
Qed.

(** A thread goes on with the call that it has. *)
Lemma stage_leads (R : relation sys) (r : call_rec) (P Q : sys -> Prop) i :
  fair at_time R ->
  (forall i, P (at_time i) -> act_step (at_time i) (at_time (S i)) ->
     P (at_time (S i)) \/ Q (at_time (S i)) \/ r ∉ opens (at_time (S i))) ->
  (forall i w, P (at_time i) -> at_time (S i) = set_shm w (at_time i) ->
     (forall which, queued which w = queued which (shm (at_time i))) -> P (at_time (S i))) ->
  (forall i, P (at_time i) -> (exists s, R (at_time i) s) \/ stuck (at_time i) r) ->
  (forall i, P (at_time i) -> R (at_time i) (at_time (S i)) -> Q (at_time (S i)) \/ r ∉ opens (at_time (S i))) ->
  P (at_time i) -> reaches i (fun s => Q s \/ resolved r s).
Proof.
  intros Hf Hact Hgc Hen Hst. apply (fair_leads _ R); [done|by apply until_intro| |].
  - intros k Hp. destruct (Hen k Hp) as [|Hs]; [by left|right]. apply reached_now. right. by right.
  - intros k Hp Hr. exists (S k). split; [lia|]. unfold resolved. destruct (Hst k Hp Hr); tauto.
Qed.

(** *** With the Raft process *)

Lemma raft_resolves r i : fair at_time (replies r) -> r ∈ raft_calls (at_time i) -> eventually i r.
Proof.
  intros Hf Hr. eapply reached_then; [apply (stage_leads (replies r) r (fun s => r ∈ raft_calls s) (fun _ => False) i Hf)|].
  - intros k Hk Hst. destruct (move_raft _ _ r Hst (good_at k) Hk); tauto.
  - intros k w Hk E _. by rewrite E.
  - intros k Hk. left. by apply replies_enabled; [apply good_at|].
  - intros k Hk (Hst & _ & Hn). destruct (move_raft _ _ r Hst (good_at k) Hk); tauto.
  - done.
  - intros j _ [[]|Hq]. by apply reached_now.
Qed.

(** *** With the worker *)

Lemma released_resolves r i : fair at_time (completes r) -> r ∈ released (at_time i) -> eventually i r.
Proof.
  intros Hf Hr. eapply reached_then; [apply (stage_leads (completes r) r (fun s => r ∈ released s) (fun _ => False) i Hf)|].
  - intros k Hk Hst. destruct (move_released _ _ r Hst (good_at k) Hk); tauto.
  - intros k w Hk E _. by rewrite E.
  - intros k Hk. destruct (sound_at k) as [(_ & Hsd & _) Hh]. pose proof (sd_released _ Hsd) as Hall.
    rewrite Forall_forall in Hall. destruct (Hall r Hk) as [Hr1|Hr1].
    + right. left. split; [done|]. by apply Hh.
    + left. by apply completes_enabled; [apply good_at| |].
  - intros k Hk (Hst & _ & Hn). destruct (move_released _ _ r Hst (good_at k) Hk); tauto.
  - done.
  - intros j _ [[]|Hq]. by apply reached_now.
Qed.

(** An open call that has been dispatched is not pending again. *)
Lemma pending_before i p :
  ~ pending (at_time i) p -> pending (at_time (S i)) p ->
  forall sl, slots (shm (at_time i)) !! p = Some sl -> is_terminal (state sl) = true.
Proof.
  intros Hn (sl' & Hsl' & Hp) sl Hsl. destruct (is_terminal (state sl)) eqn:Ho; [done|exfalso]. apply Hn. exists sl. split; [done|].
  destruct (sys_keeps _ _ (run_steps i) (proj1 (sound_at i)) p sl Hsl Ho) as (sl2 & Hsl2 & _ & _ & Hpd & _).
  unfold at_time in Hsl'. rewrite Hsl' in Hsl2. injection Hsl2 as <-. auto.
Qed.

Lemma taken_not_pending i r :
  r ∈ fsm_taken (at_time i) -> ~ pending (at_time i) r.2 -> ~ pending (at_time (S i)) r.2.
Proof.
  intros Hr Hn Hp. destruct (taken_slot _ r (good_at i) Hr) as (sl & Hsl & Ho & _).
  pose proof (pending_before i r.2 Hn Hp sl Hsl). congruence.
Qed.

Lemma dispatched_resolves r i :
  fair at_time (works r) -> fair at_time (completes r) ->
  r ∈ fsm_taken (at_time i) -> ~ pending (at_time i) r.2 -> eventually i r.
Proof.
  intros Hf Hf' Hr Hn. eapply reached_then;
    [apply (stage_leads (works r) r (fun s => r ∈ fsm_taken s /\ ~ pending s r.2) (fun s => r ∈ released s) i Hf)|].
  - intros k [Hk Hkn] Hst. pose proof (taken_not_pending k r Hk Hkn).
    destruct (move_taken _ _ r Hst (good_at k) Hk) as [|[|]]; tauto.
  - intros k w [Hk Hkn] E _. split; [by rewrite E|by apply taken_not_pending].
  - intros k [Hk _]. left. destruct (sound_at k) as [(_ & Hsd & _) _]. by apply works_enabled; [apply good_at| |].
  - intros k [Hk Hkn] (Hst & _ & [Hw|[Hw _]]); [|done]. destruct (move_taken _ _ r Hst (good_at k) Hk) as [|[|]]; tauto.
  - done.
  - intros j _ [Hq|Hq]; [by apply released_resolves|by apply reached_now].
Qed.

Lemma taken_resolves r i :
  fair at_time (works r) -> fair at_time (completes r) -> r ∈ fsm_taken (at_time i) -> eventually i r.
Proof.
  intros Hf Hf' Hr. eapply reached_then; [apply (stage_leads (works r) r (fun s => r ∈ fsm_taken s)
      (fun s => r ∈ released s \/ (r ∈ fsm_taken s /\ ~ pending s r.2)) i Hf)|].
  - intros k Hk Hst. destruct (move_taken _ _ r Hst (good_at k) Hk) as [|[|]]; tauto.
  - intros k w Hk E _. by rewrite E.
  - intros k Hk. left. destruct (sound_at k) as [(_ & Hsd & _) _]. by apply works_enabled; [apply good_at| |].
  - intros k Hk (Hst & _ & [Hw|[_ Hw]]); destruct (move_taken _ _ r Hst (good_at k) Hk) as [|[|]]; tauto.
  - done.
  - intros j _ [[Hq|[Hq Hnp]]|Hq]; [by apply released_resolves|by apply dispatched_resolves|by apply reached_now].
Qed.

(** *** In a queue *)

(** The call at the place [n] of the queue. *)
Definition waits_at (which : which_queue) (r : call_rec) (n : nat) (s : sys) : Prop := queued which (shm s) !! n = Some r.

(** It keeps its place, moves up, or is taken. *)
Definition moves_up (which : which_queue) (r : call_rec) (n : nat) (s : sys) : Prop :=
  match n with O => r ∈ takers which s | S m => waits_at which r m s end.

Lemma taken_moves_up which r n s s' x :
  waits_at which r n s -> queued which (shm s) = x :: queued which (shm s') -> x ∈ takers which s' -> moves_up which r n s'.
Proof. unfold waits_at. intros Hn E Hx. rewrite E in Hn. destruct n as [|n]; [by injection Hn as ->|exact Hn]. Qed.

Lemma cons_app_absurd (l k : list call_rec) x : l = x :: l ++ k -> False.
Proof. intros E. apply (f_equal length) in E. cbn in E. rewrite length_app in E. lia. Qed.

Lemma queue_moves_up which r n i :
  fair at_time (takes which) -> waits_at which r n (at_time i) ->
  reaches i (fun s => moves_up which r n s \/ resolved r s).
Proof.
  intros Hf Hn. apply (stage_leads (takes which) r (waits_at which r n)); [done| | | | |done].
  - intros k Hk Hst. destruct (move_queue _ _ which Hst (good_at k)) as [[l E]|(x & E & Hx)].
    + left. unfold waits_at. rewrite E. by apply lookup_app_l_Some.
    + right. left. by eapply taken_moves_up.
  - intros k w Hk E Hq. unfold waits_at. rewrite E. cbn [shm set_shm]. by rewrite Hq.
  - intros k Hk. destruct (ABQ.closed (get_queue which (shm (at_time k)))) eqn:Hc.
    + right. right. by exists which.
    + left. apply takes_enabled; [apply good_at|done|]. intros E. unfold waits_at in Hk. by rewrite E in Hk.
  - intros k Hk (_ & Hst & x & E). left. destruct (move_queue _ _ which Hst (good_at k)) as [[l E']|(x' & E' & Hx)].
    + rewrite E' in E. by apply cons_app_absurd in E.
    + by eapply taken_moves_up.
Qed.

Lemma queue_taken which r n i :
  fair at_time (takes which) -> waits_at which r n (at_time i) ->
  reaches i (fun s => r ∈ takers which s \/ resolved r s).
Proof.
  intros Hf. revert i. induction n as [|n IH]; intros i Hn; [exact (queue_moves_up which r 0 i Hf Hn)|].
  eapply reached_then; [exact (queue_moves_up which r (S n) i Hf Hn)|].
  intros j _ [Hj|Hj]; [by apply IH|apply reached_now; by right].
Qed.

(** *** On the way to the queue *)

Definition on_queue (r : call_rec) (s : sys) : Prop := r ∈ queued (dest r) (shm s) \/ resolved r s.

Lemma sending_next r k :
  r ∈ sending (at_time k) -> act_step (at_time k) (at_time (S k)) ->
  r ∈ sending (at_time (S k)) \/ on_queue r (at_time (S k)).
Proof.
  intros Hk Hst. unfold on_queue, resolved, stuck.
  destruct (move_sending _ _ r Hst (good_at k) Hk) as [|[|[|]]]; tauto.
Qed.

Lemma sending_until r : until at_time (fun s => r ∈ sending s) (on_queue r).
Proof.
  intros k Hk. destruct (step_cases k) as [Hst|(w & E & _)]; [|left; by rewrite E].
  destruct (sending_next r k Hk Hst) as [|Hq]; [by left|right]. exists (S k). split; [lia|done].
Qed.

(** Again and again there is room. *)
Lemma room_again which i : fair at_time (takes which) -> reaches i (room which).
Proof.
  intros Hf. destruct (Hf i) as (j & Hij & [Hj|Hj]).
  - exists (S j). split; [lia|]. eapply takes_room; [apply good_at|exact Hj].
  - exists j. split; [done|]. apply idle_room; [apply good_at|done].
Qed.

Lemma sending_queued r i :
  fair at_time (takes (dest r)) -> strongly_fair at_time (sends r) -> r ∈ sending (at_time i) -> reaches i (on_queue r).
Proof.
  intros Hf Hs. apply (strongly_fair_leads at_time (sends r) (fun s => r ∈ sending s)); [done|apply sending_until| |].
  - intros k Hk. destruct (room_again (dest r) k Hf) as (j & Hkj & Hj).
    destruct (until_at _ _ _ k j (sending_until r) Hkj Hk) as [Hsj|]; [|by right].
    destruct (sends_enabled _ r (good_at j) Hsj Hj) as [Hsh|Hen]; [right|left]; exists j; (split; [done|]); [|done].
    right. right. by right.
  - intros k Hk (_ & Hst & _ & Hn). exists (S k). split; [lia|]. by destruct (sending_next r k Hk Hst).
Qed.

(** *** All the way *)

(** Each thread goes on in the end: the Raft process and the worker take calls
    and answer those that they have, snapshots are completed, and a thread that
    waits for room in a queue gets its turn. *)
Record threads_go_on : Prop := ThreadsGoOn {
  tg_raft_takes : fair at_time (takes ApiQueue);
  tg_raft_replies : forall r, fair at_time (replies r);
  tg_worker_takes : fair at_time (takes FsmQueue);
  tg_worker_works : forall r, fair at_time (works r);
  tg_completes : forall r, fair at_time (completes r);
  tg_sends : forall r, strongly_fair at_time (sends r)
}.

Lemma queued_resolves which r i : threads_go_on -> r ∈ queued which (shm (at_time i)) -> eventually i r.
Proof.
  intros [F1 F2 F3 F4 F5 _] (n & Hn)%list_elem_of_lookup_1.
  eapply reached_then; [apply (queue_taken which r n i); [by destruct which|exact Hn]|].
  intros j _ [Hj|Hj]; [|by apply reached_now]. destruct which; [by apply raft_resolves|by apply taken_resolves].
Qed.

Lemma call_resolves r i : threads_go_on -> r ∈ opens (at_time i) -> eventually i r.
Proof.
  intros Ht. unfold opens. rewrite !elem_of_app. intros [Hr|[Hr|[Hr|[Hr|[Hr|[Hr|Hr]]]]]].
  - eapply reached_then; [by apply (sending_queued r); [destruct (dest r); apply Ht|apply Ht|]|].
    intros j _ [Hj|Hj]; [by eapply queued_resolves|by apply reached_now].
  - by eapply queued_resolves.
  - by apply raft_resolves; [apply Ht|].
  - by eapply queued_resolves.
  - by apply taken_resolves; [apply Ht|apply Ht|].
  - by apply released_resolves; [apply Ht|].
  - apply reached_now. right. right. exists FsmQueue. apply (astray_at i). intros E. rewrite E in Hr.
    by apply not_elem_of_nil in Hr.
Qed.

(** The moment at which a call is answered. *)
Lemma answer_seen r i j :
  (i <= j)%nat -> r ∈ opens (at_time i) -> r ∉ opens (at_time j) ->
  reaches i (fun s => exists sl, slots (shm s) !! r.2 = Some sl /\ is_terminal (state sl) = true).
Proof.
  intros Hij Hi. induction Hij as [|j Hij IH]; intros Hj; [done|].
  destruct (decide (r ∈ opens (at_time j))) as [Hin|]; [|by apply IH]. exists (S j). split; [lia|].
  destruct (open_slot _ r (good_at j) Hin) as (sl & Hsl & Ho & Ht).
  destruct (sys_keeps _ _ (run_steps j) (proj1 (sound_at j)) r.2 sl Hsl Ho) as (sl' & Hsl' & Ht' & _).
  exists sl'. split; [done|]. destruct (is_terminal (state sl')) eqn:E; [done|]. destruct Hj. destruct r as [t p].
  apply (lg_open _ _ _ _ _ (gd_ledger _ (good_at (S j)))). exists sl'. unfold Ledger.is_open. rewrite E. cbn in *.
  split_and!; [done|done|congruence].
Qed.
End Runs.

Section Props.
Context `{Segment}.

(** C2: No call starves before the shutdown. Take any infinite run of clients,
    collector, Raft process and worker from the start in which each thread that
    can go on for ever with a call goes on with it in the end, and one that finds
    room in an open queue again and again puts its request. Then every call that
    waits at some time is answered later, unless it is a log entry other than a
    command, or a queue has been closed by then. *)
Theorem fair_runs_answer timing (run : nat -> gc_pc * sys) i r :
  run 0%nat = sys_init timing -> (forall i, sys_step (run i) (run (S i))) -> threads_go_on run ->
  r ∈ opens (run i).2 ->
  exists j, (i <= j)%nat /\
    ((exists sl, slots (shm (run j).2) !! r.2 = Some sl /\ is_terminal (state sl) = true) \/
     unanswerable (run j).2 r \/
     exists which, ABQ.closed (get_queue which (shm (run j).2)) = true).
Proof.
  intros H0 Hst Ht Hr. assert (sound (run 0%nat)) as Hs by (rewrite H0; by apply (sound_reachable timing)).
  assert (astray (run 0%nat).2) as Ha by (by rewrite H0).
  destruct (call_resolves run Hs Ha Hst r i Ht Hr) as (j & Hij & [Hj|Hj]); [|exists j; split; [done|by right]].
  destruct (answer_seen run Hs Hst r i j Hij Hr Hj) as (k & Hik & Hk). exists k. split; [done|by left].
Qed.
End Props.

(** ** A concrete run

    A client sends a barrier, the Raft process answers it, and then only time
    goes by. *)
Definition fair1 : world := run (build_request Barrier (BarrierArgs 0)) (init_world false []).
Definition fair2 : world := set_queue ApiQueue (put_queue ApiQueue (Barrier, 4096) fair1) fair1.
Definition fair3 : world := set_queue ApiQueue (take_queue ApiQueue fair2) fair2.
Definition fair4 : world := run_env (ERaftReply 4096 RAFT_SUCCESS) fair3.
#[local] Strategy 100 [fair1 fair2 fair3 fair4].

Definition fair_end : sys := Sys fair4 [] [4096] [] [] [] [] [] [].
Definition tick (s : sys) : sys := set_shm (run_env (ETick 1) (shm s)) s.

Definition fair_states (i : nat) : sys :=
  match i with
  | 0%nat => sys_start false
  | 1%nat => Sys fair1 [(Barrier, 4096)] [] [] [] [] [] [] []
  | 2%nat => Sys fair2 [] [4096] [] [] [] [] [] []
  | 3%nat => Sys fair3 [] [4096] [(Barrier, 4096)] [] [] [] [] []
  | S (S (S (S n))) => Nat.iter n tick fair_end
  end.
Definition fair_run (i : nat) : gc_pc * sys := (GcFetch, fair_states i).

Lemma fair_run_steps i : sys_step (fair_run i) (fair_run (S i)).
Proof.
  apply ss_act. destruct i as [|[|[|[|n]]]]; cbn [fair_states].
  - by apply (st_build Barrier (BarrierArgs 0) (sys_start false)); [| | |vm_compute].
  - by apply (st_put (Barrier, 4096) (Sys fair1 [(Barrier, 4096)] [] [] [] [] [] [] []) []); [| |vm_compute].
  - by apply (st_raft_take (Barrier, 4096) (Sys fair2 [] [4096] [] [] [] [] [] [])); vm_compute.
  - by apply (st_raft_reply (Barrier, 4096) RAFT_SUCCESS (Sys fair3 [] [4096] [(Barrier, 4096)] [] [] [] [] []) []).
  - apply st_tick.
Qed.

(** In the end nobody has anything to do. *)
Lemma fair_run_idle i :
  (4 <= i)%nat -> exists w, fair_states i = set_shm w fair_end /\ scoreboard w = scoreboard fair4.
Proof.
  intros Hi. destruct i as [|[|[|[|n]]]]; try lia. cbn [fair_states]. clear Hi.
  induction n as [|n (w & E & Es)]; [by exists fair4|]. change (Nat.iter (S n) tick fair_end) with (tick (Nat.iter n tick fair_end)). rewrite E. by exists (run_env (ETick 1) w).
Qed.

Lemma fair_run_rests (R : relation sys) :
  (forall w, scoreboard w = scoreboard fair4 -> ~ exists s, R (set_shm w fair_end) s) ->
  fair (at_time fair_run) R /\ strongly_fair (at_time fair_run) R.
Proof.
  intros Hn. split; intros i; exists (Nat.max i 4); (split; [lia|right]).
  - destruct (fair_run_idle (Nat.max i 4)) as (w & E & Es); [lia|]. unfold at_time. cbn. rewrite E. by apply Hn.
  - intros k Hk. destruct (fair_run_idle k) as (w & E & Es); [lia|]. unfold at_time. cbn. rewrite E. by apply Hn.
Qed.

Lemma fair_run_fair : threads_go_on fair_run.
Proof.
  assert (forall r, r ∉ @nil call_rec) as Hnil by (intros r; apply not_elem_of_nil).
  assert (forall which w, scoreboard w = scoreboard fair4 -> queued which w = []) as Hq.
  { intros which w Es. rewrite (queued_same which fair4 w Es). destruct which; by vm_compute. }
  assert (forall which, fair (at_time fair_run) (takes which)) as Ht.
  { intros which. apply fair_run_rests. intros w Es (s & _ & _ & x & E). cbn [shm set_shm] in E. by rewrite (Hq which w Es) in E. }
  constructor; [apply Ht| |apply Ht|..]; intros r; apply fair_run_rests; intros w _ (s & Hs); by apply (Hnil r), Hs.
Qed.

Lemma fair_runs_answer_witness :
  exists j, (1 <= j)%nat /\
    ((exists sl, slots (shm (fair_run j).2) !! 4096 = Some sl /\ is_terminal (state sl) = true) \/
     unanswerable (fair_run j).2 (Barrier, 4096) \/
     exists which, ABQ.closed (get_queue which (shm (fair_run j).2)) = true).
Proof.
  apply (fair_runs_answer false fair_run 1 (Barrier, 4096)); [done|exact fair_run_steps|exact fair_run_fair|].
  vm_compute. by left.
Defined.
End SystemFair.
