(* ===== verification/SystemCollect.v ===== *)
(** * The collector in fair runs

    In a run in which the collector goes on when it can and time goes by, every
    call that was given up and has its answer is freed in the end, as long as the
    collector is not stopped. *)

From stdpp Require Import base tactics list strings gmap relations.
From Stdlib Require Import ZArith Lia Permutation.
From S2P Require Import Prelude CString Defs ArrayQueue Deque Slot Shm ShmInv ShmSpec Orphans Collector Ledger CIf FsmWorker FsmSpec System SystemSpec SystemCalls SystemLive SystemFair.

Module SystemCollect.
Import CString Defs Slot Shm ShmSpec Orphans Collector Ledger FsmWorker System SystemSpec SystemCalls SystemLive Fair SystemFair.

Section Others.
Context `{Segment}.

(** ** What the others leave to the collector *)

Ltac the_future := match goal with HP : futures ?s ≡ₚ ?p :: _, Hg : good ?s |- _ =>
  let Hin := fresh in assert (p ∈ futures s) as Hin by (rewrite HP; apply list_elem_of_here);
  destruct (good_future s p Hg Hin) as (sl & Hsl & Hcs & _) end.

Lemma act_time s s' : act_step s s' -> good s -> next_check (shm s') = next_check (shm s) /\ clock (shm s) <= clock (shm s').
Proof.
  intros Hst Hg. pose proof Hg as [_ G2 _ _].
  assert (forall w, next_check w = next_check (shm s) /\ clock w = clock (shm s) ->
    next_check w = next_check (shm s) /\ clock (shm s) <= clock w) as Hle by (intros w [-> ->]; split; [done|lia]).
  destruct Hst; cbn [shm set_shm]; try (apply Hle; done);
    try (apply Hle; match goal with Hr : _ (shm s) = Ret _ ?w |- _ =>
      eapply queues_Ret; [|exact G2|exact Hr]; by constructor end).
  - the_future. destruct (dispose_throws _ _ _ _ Hsl Hcs ltac:(eassumption)) as (_ & _ & ->). by apply Hle.
  - destruct (fsm_receive_cases s Hg) as [(r' & q & Hq & E)|(_ & ? & E)]; rewrite E in *; simplify_eq. by apply Hle.
  - cbn. lia.
Qed.
Lemma deque_Ret {A : Type} b (m : M world A) a w w' :
  slot_op b m -> sched w = [] -> m w = Ret a w' ->
  exists l, Deque.deque (orphaned_calls w') = Deque.deque (orphaned_calls w) ++ l.
Proof.
  intros Hm Hs Hr. set (I := fun x => (exists l, Deque.deque (orphaned_calls x) = Deque.deque (orphaned_calls w) ++ l) /\ sched x = []).
  assert (preserves I m) as Hp.
  { eapply slot_op_preserves; [by intros x []| | | |exact Hm].
    - intros x y _ E1 E2 _ [? ?]. unfold I. by rewrite E1, E2.
    - intros p x [[l E] Hx]. unfold zoom, Deque.put, Deque.put_section. destruct (Deque.closed _); cbn; unfold I; cbn.
      + split; [by exists l|done].
      + split; [|done]. exists (l ++ [p]). by rewrite E, app_assoc.
    - intros _ p x Hx. unfold unlock. by destruct (slots x !! p). }
  specialize (Hp w). rewrite Hr in Hp. apply Hp. split; [exists []; by rewrite app_nil_r|done].
Qed.

Lemma act_deque s s' :
  act_step s s' -> good s -> exists l, Deque.deque (orphaned_calls (shm s')) = Deque.deque (orphaned_calls (shm s)) ++ l.
Proof.
  intros Hst Hg. pose proof Hg as [_ G2 _ _].
  assert (forall w, Deque.deque (orphaned_calls w) = Deque.deque (orphaned_calls (shm s)) ->
    exists l, Deque.deque (orphaned_calls w) = Deque.deque (orphaned_calls (shm s)) ++ l) as Hsame.
  { intros w ->. exists []. by rewrite app_nil_r. }
  destruct Hst; cbn [shm set_shm]; try (apply Hsame; done);
    try (match goal with Hr : _ (shm s) = Ret _ ?w |- _ => eapply deque_Ret; [|exact G2|exact Hr]; by constructor end).
  - the_future. destruct (dispose_throws _ _ _ _ Hsl Hcs ltac:(eassumption)) as (_ & _ & ->). by apply Hsame.
  - destruct (fsm_receive_cases s Hg) as [(r' & q & Hq & E)|(_ & ? & E)]; rewrite E in *; simplify_eq. by apply Hsame.
Qed.

(** One slot changes at most. *)
Definition only_at (q : Z) (m m' : gmap Z slot) : Prop := forall p, p <> q -> m' !! p = m !! p.

Lemma only_update q f w : only_at q (slots w) (slots (update_slot q f w)).
Proof. intros p Hp. cbn. by rewrite lookup_alter_ne. Qed.

Lemma only_insert q sl (m : gmap Z slot) : only_at q m (<[q := sl]> m).
Proof. intros p Hp. by rewrite lookup_insert_ne. Qed.

Lemma only_delete q (m : gmap Z slot) : only_at q m (delete q m).
Proof. intros p Hp. by rewrite lookup_delete_ne. Qed.
#[local] Hint Resolve only_update only_insert only_delete : core.

(** What is given up and answered is nobody else's. *)
Lemma open_not_answered s r p sl :
  good s -> r ∈ opens s -> slots (shm s) !! p = Some sl -> is_terminal (state sl) = true -> p <> r.2.
Proof. intros Hg Hr Hsl Ht ->. destruct (open_slot s r Hg Hr) as (sl' & Hsl' & Ho & _). congruence. Qed.

Lemma owned_not_orphan s q p : good s -> q ∈ futures s ++ guests s -> p ∈ orphans (shm s) -> p <> q.
Proof.
  intros Hg Hq Hp ->. pose proof (lg_owner_nodup _ _ _ _ _ (gd_ledger s Hg)) as Hnd. unfold owners in Hnd.
  apply NoDup_app in Hnd as (_ & Hd & _). apply (Hd q); [|done]. rewrite elem_of_app in Hq. rewrite !elem_of_app. tauto.
Qed.

Lemma dispose_only s q w :
  good s -> q ∈ futures s -> dispose q (shm s) = Ret () w -> only_at q (slots (shm s)) (slots w).
Proof.
  intros Hg Hq Hr. unfold dispose in Hr. apply bind_Ret_inv in Hr as (sl & w1 & Hw & Hr). apply get_slot_inv in Hw as [Hsl ->].
  destruct (good_future s q Hg Hq) as (sl' & Hsl' & Hcs & _). rewrite Hsl in Hsl'. injection Hsl' as <-.
  destruct (client_state sl); [| |done].
  - cbv [mbind M_bind modify] in Hr. unfold track_orphan, zoom, Deque.put, Deque.put_section in Hr.
    destruct (Deque.closed _); [done|]. injection Hr as <-. apply (only_update q _ (shm s)).
  - injection Hr as <-. apply only_delete.
Qed.

Lemma wait_only s q w : good s -> wait q (shm s) = Ret () w -> only_at q (slots (shm s)) (slots w).
Proof.
  intros Hg Hr. unfold wait in Hr.
  apply bind_Ret_inv in Hr as ([] & w1 & Hw & Hr). apply await_idle_inv in Hw as [_ ->]; [|apply Hg].
  apply bind_Ret_inv in Hr as (sl & w1 & Hw & Hr). apply get_slot_inv in Hw as [_ ->].
  cbv [now mbind M_bind modify] in Hr. injection Hr as <-. apply only_update.
Qed.

Lemma new_only q w sl' (m : gmap Z slot) p sl :
  m = slots w -> m !! q = None -> m !! p = Some sl -> <[q := sl']> m !! p = Some sl.
Proof. intros -> Hq Hp. by rewrite lookup_insert_ne by congruence. Qed.

Lemma error_only err t a w q w' p sl :
  make_error_request err t a w = Ret q w' -> slots w !! p = Some sl -> slots w' !! p = Some sl.
Proof.
  intros Hr Hp. destruct (decide (err = RAFT_SUCCESS)) as [->|Herr]; [done|].
  destruct (seg_alloc_node (used w)) as [p1|] eqn:E.
  - rewrite (make_error_request_eq _ _ _ _ _ E Herr) in Hr. injection Hr as <- <-. cbn.
    apply (new_only p1 w); [done|by apply fresh_node|done].
  - unfold make_error_request, alloc_request in Hr. rewrite bool_decide_true in Hr by done.
    cbv [mbind M_bind modify get fail assert mret M_ret] in Hr.
    change (used (count_call_alloc w)) with (used w) in Hr. by rewrite E in Hr.
Qed.

Lemma slots_Ret {A : Type} (m : M world A) w a w' :
  preserves (fun x => slots x = slots w) m -> m w = Ret a w' -> slots w' = slots w.
Proof. intros Hp Hr. specialize (Hp w eq_refl). by rewrite Hr in Hp. Qed.

Ltac the_run Hr := match goal with Hx : _ (shm _) = Ret _ _ |- _ => rename Hx into Hr end.
Ltac the_call := match goal with HP : _ ≡ₚ _ :: _ |- _ => rewrite HP end; apply list_elem_of_here.

(** The slot of an orphan with its answer stays as it is. *)
Lemma act_orphan s s' p sl :
  act_step s s' -> good s -> p ∈ orphans (shm s) -> slots (shm s) !! p = Some sl -> is_terminal (state sl) = true ->
  slots (shm s') !! p = Some sl.
Proof.
  intros Hst Hg Hp Hsl Ht.
  assert (forall r m', r ∈ opens s -> only_at r.2 (slots (shm s)) m' -> m' !! p = Some sl) as Hopen.
  { intros r m' Hr Ho. rewrite (Ho p); [done|]. by eapply open_not_answered. }
  assert (forall q m', q ∈ futures s ++ guests s -> only_at q (slots (shm s)) m' -> m' !! p = Some sl) as Hown.
  { intros q m' Hq Ho. rewrite (Ho p); [done|]. by eapply owned_not_orphan. }
  destruct Hst; cbn [shm set_shm]; try exact Hsl.
  - erewrite slots_Ret; [exact Hsl|apply alloc_slots|eassumption].
  - erewrite slots_Ret; [exact Hsl|apply free_slots|eassumption].
  - the_run Hr. apply build_request_eq in Hr as [E ->]. cbn. apply (new_only _ (shm s)); [done|by apply fresh_node|done].
  - apply (Hopen r); [apply opens_parts; left; the_call|]. apply (only_update r.2 _ (shm s)).
  - by eapply error_only.
  - apply (Hown p0); [rewrite elem_of_app; by left|]. by apply wait_only.
  - apply (Hown p0); [rewrite elem_of_app; left; the_call|]. apply dispose_only; [done|the_call|done].
  - match goal with HP : futures s ≡ₚ ?q :: _ |- _ => apply (Hown q); [rewrite elem_of_app; left; the_call|];
      destruct (good_future s q Hg) as (sl1 & Hsl1 & Hcs & _); [the_call|] end.
    destruct (dispose_throws _ _ _ _ Hsl1 Hcs ltac:(eassumption)) as (_ & _ & ->). apply (only_update _ _ (shm s)).
  - apply (Hopen r); [apply opens_parts; right; left; the_call|]. apply (only_update r.2 _ (shm s)).
  - apply (Hopen r); [apply opens_parts; right; left; the_call|]. apply (only_update r.2 _ (shm s)).
  - cbn. apply (new_only _ (shm s)); [done|apply not_elem_of_dom; unfold used in *; set_solver|done].
  - the_run Hr. injection Hr as <-. apply (Hown p0); [rewrite elem_of_app; right; the_call|]. apply only_delete.
  - the_run Hr. destruct (fsm_receive_cases s Hg) as [(r' & q & Hq & E)|(_ & ? & E)]; rewrite E in Hr; simplify_eq.
    apply (Hopen r).
    + unfold opens. rewrite !elem_of_app. do 3 right. left. rewrite (queued_take _ _ _ _ (gd_queue s Hg FsmQueue) Hq).
      apply list_elem_of_here.
    + intros x Hx. unfold fsm_received. by rewrite !only_update.
  - the_run Hr. unfold fsm_dispatch, record_at in Hr. cbv [mbind M_bind modify now] in Hr. injection Hr as <-.
    apply (Hopen r); [apply opens_parts; right; right; by left|]. intros x Hx. by rewrite !only_update.
  - the_run Hr. assert (r ∈ fsm_taken s) as Hin by the_call. destruct (taken_slot s r Hg Hin) as (sl1 & Hsl1 & Ho & _).
    destruct (fsm_applied_eq r.2 v sl1 (shm s) Hsl1 Ho) as (sl' & E & _). rewrite E in Hr. injection Hr as <-.
    apply (Hopen r); [apply opens_parts; right; right; by left|]. apply only_insert.
  - the_run Hr. assert (r ∈ fsm_taken s) as Hin by the_call. destruct (taken_slot s r Hg Hin) as (sl1 & Hsl1 & Ho & _).
    destruct (fsm_restored_eq r.2 ok sl1 (shm s) Hsl1 Ho) as (sl' & E & _). rewrite E in Hr. injection Hr as <-.
    apply (Hopen r); [apply opens_parts; right; right; by left|]. apply only_insert.
  - the_run Hr. erewrite FsmSpec.unlock_eq in Hr by eassumption. injection Hr as <-.
    apply (Hopen r); [apply opens_parts; right; right; left; the_call|]. apply only_insert.
  - the_run Hr. assert (r ∈ released s) as Hin by the_call. destruct (released_slot s r Hg Hin) as (sl1 & Hsl1 & Ho & How).
    destruct (snapshot_done_eq r.2 ok sl1 (shm s) (gd_sched s Hg) Hsl1 Ho How) as (sl' & E & _). rewrite E in Hr. injection Hr as <-.
    apply (Hopen r); [apply opens_parts; tauto|]. apply only_insert.
Qed.

(** ** What the collector does while [p] waits for it *)

(** Without the end of a scan. *)
Record gc_keeps (p : Z) (w w' : world) : Prop := GcKeeps {
  gk_answered : answered w' p = true;
  gk_clock : clock w' = clock w;
  gk_closed : Deque.closed (orphaned_calls w') = Deque.closed (orphaned_calls w)
}.

(** The collector comes from [g] to [g'] and [p] is still there. *)
Definition gc_moves (p : Z) (g g' : gc_pc) (w w' : world) : Prop :=
  match g with
  | GcFetch =>
      next_check w' = next_check w /\
      ((g' = GcTry /\ exists x, Deque.deque (orphaned_calls w) = x :: Deque.deque (orphaned_calls w') /\
          orphan_backlog w' = orphan_backlog w ++ [x]) \/
       (g' = GcCheck /\ w' = w))
  | GcTry =>
      g' = GcCheck /\ next_check w' = next_check w /\ orphaned_calls w' = orphaned_calls w /\
      (w' = w \/ exists x, orphan_backlog w = orphan_backlog w' ++ [x] /\ x <> p)
  | GcCheck => w' = w /\ g' = if scan_due w then GcScan 0 else GcFetch
  | GcScan i =>
      orphaned_calls w' = orphaned_calls w /\
      ((next_check w' = next_check w /\ exists x, orphan_backlog w !! i = Some x /\ x <> p /\
          ((g' = GcScan i /\ orphan_backlog w' = delete i (orphan_backlog w)) \/ (g' = GcScan (S i) /\ w' = w))) \/
       (i = length (orphan_backlog w) /\ g' = GcFetch /\ orphan_backlog w' = orphan_backlog w))
  end.

Lemma try_waiting X p x w gone w' :
  custody_with X w -> x ∈ orphans w -> answered w p = true -> try_dispose_orphan x w = Ret gone w' ->
  slots w' !! p = None \/
  (x <> p /\ gone = true /\ exists a, w' = Orphans.released x a w /\ answered w' p = true) \/ (x <> p /\ gone = false /\ w' = w).
Proof.
  intros Hc Hx Hp Hr. destruct (try_orphan x w Hc Hx) as [(a & E & _ & _)|[E Ha]]; rewrite E in Hr; injection Hr as <- <-.
  - destruct (decide (x = p)) as [->|Hne]; [left; rewrite released_slots; apply lookup_delete_eq|].
    right. left. split_and!; [done|done|]. exists a. split; [done|]. by rewrite answered_released.
  - right. right. split_and!; [congruence|done|done].
Qed.

Lemma gc_step_moves X p g g' w w' :
  custody_with X w -> answered w p = true -> gc_step (g, w) (g', w') ->
  slots w' !! p = None \/ (gc_keeps p w w' /\ gc_moves p g g' w w').
Proof.
  intros Hc Hp Hst. inversion Hst as [x q rest Hd|x Hb Ht|x l q gone w1 Hb Ht|x Hd|x Hd|x i q gone w1 Hi Ht|x]; subst; clear Hst.
  - right. split; [constructor; [done|done|cbn; by rewrite Hd]|]. cbn. split; [done|left]. split; [done|]. exists q. by rewrite Hd.
  - right. split; [done|]. split; [done|by right].
  - assert (q ∈ orphans w) as Hq by (unfold orphans; rewrite Hb; set_solver).
    destruct (try_waiting X p q w gone w1 Hc Hq Hp Ht) as [Hn|[(Hne & -> & a & -> & Ha)|(Hne & -> & ->)]].
    + left. by destruct gone.
    + right. destruct (same_gc_released q a w) as [E1 E2 E3 E4]. split; [constructor; [exact Ha|exact E4|exact (f_equal Deque.closed E1)]|].
      split_and!; [done|exact E3|exact E1|right]. by exists q.
    + right. split; [done|]. cbn. split_and!; [done|done|done|by left].
  - right. split; [done|]. cbn. by rewrite Hd.
  - right. split; [done|]. cbn. by rewrite Hd.
  - assert (q ∈ orphans w) as Hq by (apply elem_of_app; left; by eapply list_elem_of_lookup_2).
    destruct (try_waiting X p q w gone w1 Hc Hq Hp Ht) as [Hn|[(Hne & -> & a & -> & Ha)|(Hne & -> & ->)]];
      match goal with Hx : _ = (g', w') |- _ => try (destruct gone; injection Hx as <- <-; left; exact Hn); injection Hx as <- <- end.
    + right. destruct (same_gc_released q a w) as [E1 E2 E3 E4]. split; [constructor; [exact Ha|exact E4|exact (f_equal Deque.closed E1)]|].
      split; [exact E1|left]. split; [exact E3|]. exists q. split_and!; [done|done|left]. split; [done|]. exact (f_equal (delete i) E2).
    + right. split; [done|]. cbn. split; [done|left]. split; [done|]. exists q. split_and!; [done|done|by right].
  - right. split; [done|]. cbn. split; [done|by right].
Qed.
End Others.

#[local] Instance gc_pc_eq_dec : EqDecision gc_pc.
Proof. solve_decision. Defined.

Section Runs.
Context `{Segment}.
Variable run : nat -> gc_pc * sys.
Hypothesis run_sound : sound (run 0).
Hypothesis run_steps : forall i, sys_step (run i) (run (S i)).

(** ** The collector in a run *)

Definition seg (x : gc_pc * sys) : world := shm x.2.
Definition stopped (x : gc_pc * sys) : bool := Deque.closed (orphaned_calls (seg x)).

(** A step of the collector, and the one that takes an orphan from the deque. *)
Definition collects (x y : gc_pc * sys) : Prop := exists g w, gc_step (x.1, seg x) (g, w) /\ y = (g, set_shm w x.2).

Definition fetches (x y : gc_pc * sys) : Prop := collects x y /\ x.1 = GcFetch /\ y.1 = GcTry.

(** What the call [p] comes to. *)
Definition freed (p : Z) (x : gc_pc * sys) : Prop := slots (seg x) !! p = None \/ stopped x = true.

(** The call waits for the collector. *)
Definition waits (p : Z) (x : gc_pc * sys) : Prop := p ∈ orphans (seg x) /\ answered (seg x) p = true /\ stopped x = false.

(** A step of the others. *)
Record aside (x y : gc_pc * sys) : Prop := Aside {
  as_pc : y.1 = x.1;
  as_backlog : orphan_backlog (seg y) = orphan_backlog (seg x);
  as_check : next_check (seg y) = next_check (seg x);
  as_deque : exists l, Deque.deque (orphaned_calls (seg y)) = Deque.deque (orphaned_calls (seg x)) ++ l
}.

Lemma answered_slot w p : answered w p = true -> exists sl, slots w !! p = Some sl /\ is_terminal (state sl) = true.
Proof.
  intros Ha. unfold answered in Ha. destruct (slots w !! p) as [sl|]; [|done]. exists sl. split; [done|].
  unfold poll in Ha. by apply andb_prop in Ha as [_ ?].
Qed.

Lemma collects_moves i p :
  waits p (run i) -> collects (run i) (run (S i)) ->
  freed p (run (S i)) \/
  (answered (seg (run (S i))) p = true /\ stopped (run (S i)) = false /\ clock (seg (run (S i))) = clock (seg (run i)) /\
   gc_moves p (run i).1 (run (S i)).1 (seg (run i)) (seg (run (S i)))).
Proof.
  intros (Hp & Ha & Ho) (g & w & Hst & E). rewrite E. pose proof (sound_at run run_sound run_steps i) as [(Hg & _ & _) _].
  destruct (gc_step_moves _ p _ _ _ _ (gd_custody _ Hg) Ha Hst) as [Hn|[[K1 K2 K3] Hm]]; [left; by left|right].
  split_and!; [done| |done|done]. unfold stopped in *. by rewrite <- Ho.
Qed.

Lemma aside_moves i p :
  waits p (run i) -> act_step (run i).2 (run (S i)).2 -> (run (S i)).1 = (run i).1 ->
  freed p (run (S i)) \/
  (answered (seg (run (S i))) p = true /\ stopped (run (S i)) = false /\ clock (seg (run i)) <= clock (seg (run (S i))) /\
   aside (run i) (run (S i))).
Proof.
  intros (Hp & Ha & Ho) Hst Epc. pose proof (sound_at run run_sound run_steps i) as [(Hg & _ & _) _].
  destruct (stopped (run (S i))) eqn:Ec; [left; by right|right].
  destruct (answered_slot _ p Ha) as (sl & Hsl & Ht).
  pose proof (act_orphan _ _ p sl Hst Hg Hp Hsl Ht) as Hsl'. destruct (act_time _ _ Hst Hg) as [En Hcl].
  split_and!; [|done|done|].
  - unfold answered, seg in *. rewrite Hsl in Ha. by rewrite Hsl'.
  - constructor; [done|by apply act_backlog|done|by apply act_deque].
Qed.

Lemma step_kind x y : sys_step x y -> collects x y \/ (act_step x.2 y.2 /\ y.1 = x.1).
Proof. intros [g s s' Hst|g g' s w Hst]; [by right|left]. by exists g', w. Qed.

(** The collector can go on, except at the top of its loop, where it may have to wait. *)
Lemma collects_enabled i :
  stopped (run i) = false ->
  ((run i).1 = GcFetch -> Deque.deque (orphaned_calls (seg (run i))) <> [] \/
     (orphan_backlog (seg (run i)) <> [] /\ next_check (seg (run i)) <= clock (seg (run i)))) ->
  exists y, collects (run i) y.
Proof.
  intros Ho Hf. pose proof (sound_at run run_sound run_steps i) as [(Hg & _ & Hok) _].
  enough (exists g w, gc_step ((run i).1, seg (run i)) (g, w)) as (g & w & Hst) by (eexists; by exists g, w).
  destruct (run i) as [g s] eqn:E. cbn [fst snd] in *. unfold stopped, seg in *. cbn [snd] in *.
  destruct (decide (g = GcFetch)) as [->|Hne]; [|exact (gc_progress _ _ (gd_custody s Hg) Hok Hne)].
  destruct (orphaned_calls (shm s)) as [[|x l] c] eqn:Ed; cbn in Ho; subst c.
  - destruct (Hf eq_refl) as [|[Hb Hc]]; [done|]. eexists _, _. by apply gc_timeout.
  - eexists _, _. by eapply gc_fetch.
Qed.

(** A rule for what the collector achieves for the call [p]. *)
Lemma collector_leads p (P : nat -> gc_pc * sys -> Prop) (Q : gc_pc * sys -> Prop) n i :
  fair run collects ->
  (forall n x, P n x -> waits p x) ->
  (forall n x, P n x -> x.1 = GcFetch -> Deque.deque (orphaned_calls (seg x)) <> [] \/
     (orphan_backlog (seg x) <> [] /\ next_check (seg x) <= clock (seg x))) ->
  (forall n x y, P n x -> answered (seg y) p = true -> stopped y = false -> clock (seg x) <= clock (seg y) -> aside x y -> P n y) ->
  (forall n x y, P n x -> answered (seg y) p = true -> stopped y = false -> clock (seg y) = clock (seg x) ->
     gc_moves p x.1 y.1 (seg x) (seg y) -> Q y \/ exists m, (m < n)%nat /\ P m y) ->
  P n (run i) -> reached run i (fun x => Q x \/ freed p x).
Proof.
  intros Hf Hw Hen Has Hmv.
  assert (forall n k, P n (run k) -> collects (run k) (run (S k)) ->
    reached run k (fun x => Q x \/ freed p x) \/ exists m, (m < n)%nat /\ P m (run (S k))) as Hc.
  { intros m k Hk Hst. destruct (collects_moves k p (Hw _ _ Hk) Hst) as [Hq|(Ha & Ho & Ec & Hm)].
    - left. exists (S k). split; [lia|by right].
    - destruct (Hmv m _ _ Hk Ha Ho Ec Hm); [left; exists (S k); split; [lia|by left]|by right]. }
  apply (fair_measure run collects P); [done| | |done].
  - intros m k Hk. apply collects_enabled; [|by eapply Hen]. by destruct (Hw _ _ Hk) as (_ & _ & ?).
  - intros m k Hk. destruct (step_kind _ _ (run_steps k)) as [Hst|[Hst E]].
    + destruct (Hc m k Hk Hst) as [|(m' & Hlt & Hk')]; [by left|right]. exists m'. split; [lia|done].
    + destruct (aside_moves k p (Hw _ _ Hk) Hst E) as [Hq|(Ha & Ho & Ec & Hm)].
      * left. exists (S k). split; [lia|by right].
      * right. exists m. split; [lia|]. by eapply Has.
Qed.

(** *** In the deque *)

(** The steps of the collector to the top of its loop. *)
Definition steps_left (x : gc_pc * sys) : nat :=
  let n := length (orphan_backlog (seg x)) in
  match x.1 with GcFetch => 0 | GcTry => n + 3 | GcCheck => n + 2 | GcScan i => n + 1 - i end.

Lemma moves_closer p x y :
  gc_moves p x.1 y.1 (seg x) (seg y) -> x.1 <> GcFetch -> (steps_left y < steps_left x)%nat.
Proof.
  intros Hm Hne. unfold steps_left, gc_moves in *. destruct x.1 as [| | |i]; [done| | |].
  - destruct Hm as (-> & _ & _ & [->|(q & -> & _)]); rewrite ?length_app; lia.
  - destruct Hm as [-> ->]. destruct (scan_due _); lia.
  - destruct Hm as (_ & [(_ & q & Hi & _ & [[-> ->]|[-> ->]])|(-> & -> & _)]); [| |lia];
      apply lookup_lt_Some in Hi as Hlt; [rewrite length_delete by done|]; lia.
Qed.

Lemma aside_steps x y : aside x y -> steps_left y = steps_left x.
Proof. intros [E1 E2 _ _]. unfold steps_left. by rewrite E1, E2. Qed.

Lemma moves_deque p g g' w w' : gc_moves p g g' w w' -> g <> GcFetch -> orphaned_calls w' = orphaned_calls w.
Proof.
  intros Hm Hne. destruct g as [| | |i]; [done| | |].
  - by destruct Hm as (_ & _ & ? & _).
  - by destruct Hm as [-> _].
  - by destruct Hm as [? _].
Qed.

(** The orphan at the place [d] of the deque. *)
Definition lies_at (p : Z) (d : nat) (x : gc_pc * sys) : Prop :=
  answered (seg x) p = true /\ stopped x = false /\ Deque.deque (orphaned_calls (seg x)) !! d = Some p.

(** In the backlog. *)
Definition listed (p : Z) (x : gc_pc * sys) : Prop :=
  answered (seg x) p = true /\ stopped x = false /\ p ∈ orphan_backlog (seg x).

Definition lies_nearer (p : Z) (d : nat) (x : gc_pc * sys) : Prop :=
  match d with O => listed p x | S m => lies_at p m x end.

Lemma lies_waits p d x : lies_at p d x -> waits p x.
Proof. intros (Ha & Ho & Hd). split_and!; [|done|done]. apply elem_of_app. right. by eapply list_elem_of_lookup_2. Qed.

Lemma listed_waits p x : listed p x -> waits p x.
Proof. intros (Ha & Ho & Hb). split_and!; [|done|done]. apply elem_of_app. by left. Qed.

Lemma deque_moves p d x y :
  lies_at p d x -> answered (seg y) p = true -> stopped y = false -> gc_moves p x.1 y.1 (seg x) (seg y) ->
  lies_at p d y \/ (x.1 = GcFetch /\ y.1 = GcTry /\ lies_nearer p d y).
Proof.
  intros (Ha & Ho & Hd) Ha' Ho' Hm. destruct (decide (x.1 = GcFetch)) as [E|Hne].
  - rewrite E in Hm. destruct Hm as [_ [(Ey & q & Eq & Eb)|(_ & Ew)]]; [right|left; split_and!; [done|done|by rewrite Ew]].
    split_and!; [done|done|]. rewrite Eq in Hd. destruct d as [|d]; [|by split_and!]. injection Hd as ->. split_and!; [done|done|].
    rewrite Eb. set_solver.
  - left. split_and!; [done|done|]. by rewrite (moves_deque p _ _ _ _ Hm Hne).
Qed.

Lemma lies_aside p d x y :
  lies_at p d x -> answered (seg y) p = true -> stopped y = false -> aside x y -> lies_at p d y.
Proof.
  intros (_ & _ & Hx) Ha Ho Has. destruct (as_deque _ _ Has) as [l E]. split_and!; [done|done|]. rewrite E.
  by apply lookup_app_l_Some.
Qed.

(** The orphan keeps its place until it moves up. *)
Lemma lies_until p d : until run (lies_at p d) (fun x => lies_nearer p d x \/ freed p x).
Proof.
  intros k Hk. destruct (step_kind _ _ (run_steps k)) as [Hst|[Hst E]].
  - destruct (collects_moves k p (lies_waits _ _ _ Hk) Hst) as [Hq|(Ha & Ho & _ & Hm)]; [right; exists (S k); split; [lia|by right]|].
    destruct (deque_moves p d _ _ Hk Ha Ho Hm) as [|(_ & _ & Hn)]; [by left|right; exists (S k); split; [lia|by left]].
  - destruct (aside_moves k p (lies_waits _ _ _ Hk) Hst E) as [Hq|(Ha & Ho & _ & Hm)]; [right; exists (S k); split; [lia|by right]|].
    left. by eapply lies_aside.
Qed.

(** Meanwhile the collector comes to the top of its loop. *)
Lemma lies_top p d i :
  fair run collects -> lies_at p d (run i) ->
  reached run i (fun x => (lies_at p d x /\ x.1 = GcFetch) \/ freed p x).
Proof.
  intros Hf Hd. destruct (decide ((run i).1 = GcFetch)) as [E|Hne]; [apply reached_now; by left|].
  apply (collector_leads p (fun n x => (lies_at p d x /\ x.1 <> GcFetch) /\ steps_left x = n) _ (steps_left (run i)));
    [done| | | | |done].
  - intros n x [[Hx _] _]. by eapply lies_waits.
  - by intros n x [[_ Hx] _] ?.
  - intros n x y [[Hx Hg] En] Ha Ho _ Has. split; [|by rewrite (aside_steps _ _ Has)].
    split; [by eapply lies_aside|by rewrite (as_pc _ _ Has)].
  - intros n x y [[Hx Hg] <-] Ha Ho _ Hm. destruct (deque_moves p d x y Hx Ha Ho Hm) as [Hy|(E & _)]; [|done].
    destruct (decide (y.1 = GcFetch)) as [E|Hn]; [by left|right]. exists (steps_left y). split; [by eapply moves_closer|done].
Qed.

Lemma fetches_enabled p d i : lies_at p d (run i) -> (run i).1 = GcFetch -> exists y, fetches (run i) y.
Proof.
  intros (_ & Ho & Hd) E. unfold stopped, seg in *.
  destruct (orphaned_calls (shm (run i).2)) as [[|x l] c] eqn:Ed; [done|]. cbn in Ho. subst c.
  eexists (GcTry, set_shm _ (run i).2). split; [|done]. eexists _, _. split; [|done]. rewrite E. by eapply gc_fetch.
Qed.

Lemma deque_nearer p d i :
  fair run collects -> strongly_fair run fetches -> lies_at p d (run i) ->
  reached run i (fun x => lies_nearer p d x \/ freed p x).
Proof.
  intros Hf Hs. apply (strongly_fair_leads run fetches (lies_at p d)); [done|apply lies_until| |].
  - intros k Hk. destruct (lies_top p d k Hf Hk) as (j & Hkj & [[Hj E]|Hj]); [left|right]; exists j; (split; [done|]).
    + by eapply fetches_enabled.
    + by right.
  - intros k Hk (Hst & Ex & Ey). exists (S k). split; [lia|].
    destruct (collects_moves k p (lies_waits _ _ _ Hk) Hst) as [Hq|(Ha & Ho & _ & Hm)]; [by right|left].
    destruct Hk as (_ & _ & Hd). rewrite Ex, Ey in Hm. destruct Hm as [_ [(_ & q & Eq & Eb)|(E & _)]]; [|done].
    rewrite Eq in Hd. destruct d as [|d]; [|by split_and!]. injection Hd as ->. split_and!; [done|done|]. rewrite Eb. set_solver.
Qed.

Lemma deque_listed p d i :
  fair run collects -> strongly_fair run fetches -> lies_at p d (run i) ->
  reached run i (fun x => listed p x \/ freed p x).
Proof.
  intros Hf Hs. revert i. induction d as [|d IH]; intros i Hd; [by apply (deque_nearer p 0)|].
  eapply reached_then; [by apply (deque_nearer p (S d))|].
  intros j _ [Hj|Hj]; [by apply IH|apply reached_now; by right].
Qed.

(** *** In the backlog *)

Lemma backlog_moves p g g' w w' : gc_moves p g g' w w' -> p ∈ orphan_backlog w -> p ∈ orphan_backlog w'.
Proof.
  intros Hm Hp. destruct g as [| | |i].
  - destruct Hm as [_ [(_ & q & _ & ->)|(_ & ->)]]; [set_solver|done].
  - destruct Hm as (_ & _ & _ & [->|(q & E & Hne)]); [done|]. rewrite E in Hp. set_solver.
  - by destruct Hm as [-> _].
  - destruct Hm as (_ & [(_ & q & Hi & Hne & [[_ ->]|[_ ->]])|(_ & _ & ->)]); [|done|done].
    rewrite (delete_Permutation _ _ _ Hi), elem_of_cons in Hp. by destruct Hp.
Qed.

(** The collector comes to the top of its loop. *)
Definition at_top (p : Z) (x : gc_pc * sys) : Prop := listed p x /\ x.1 = GcFetch.

Lemma listed_top p i : fair run collects -> listed p (run i) -> reached run i (fun x => at_top p x \/ freed p x).
Proof.
  intros Hf Hl. destruct (decide ((run i).1 = GcFetch)) as [E|Hne]; [apply reached_now; by left; split|].
  apply (collector_leads p (fun n x => (listed p x /\ x.1 <> GcFetch) /\ steps_left x = n) _ (steps_left (run i)));
    [done| | | | |done].
  - intros n x [[Hx _] _]. by apply listed_waits.
  - by intros n x [[_ Hx] _] ?.
  - intros n x y [[(_ & _ & Hx) Hg] En] Ha Ho _ Has. split; [|by rewrite (aside_steps _ _ Has)].
    destruct Has as [-> E _ _]. split; [|done]. split_and!; [done|done|by rewrite E].
  - intros n x y [[(_ & _ & Hx) Hg] <-] Ha Ho _ Hm.
    assert (listed p y) as Hy by (split_and!; [done|done|by eapply backlog_moves]).
    destruct (decide (y.1 = GcFetch)) as [E|Hn]; [left; by split|right].
    exists (steps_left y). split; [by eapply moves_closer|done].
Qed.

(** The call is at the place [k] of the backlog, and the collector has not passed
    it since it was at the top of its loop, when the next scan was set for [t]:
    the steps it needs as soon as the time has come. *)
Definition ahead (t : Z) (p : Z) (n : nat) (x : gc_pc * sys) : Prop :=
  answered (seg x) p = true /\ stopped x = false /\ next_check (seg x) = t /\
  exists k, orphan_backlog (seg x) !! k = Some p /\
    match x.1 with
    | GcFetch => n = (k + 3)%nat
    | GcTry => n = (k + 2)%nat
    | GcCheck => n = (k + 1)%nat
    | GcScan i => (i <= k)%nat /\ n = (k - i)%nat
    end.

Lemma ahead_waits t p n x : ahead t p n x -> waits p x.
Proof. intros (Ha & Ho & _ & k & Hk & _). apply listed_waits. split_and!; [done|done|]. by eapply list_elem_of_lookup_2. Qed.

Lemma delete_before (l : list Z) i k p : (i < k)%nat -> l !! k = Some p -> delete i l !! (k - 1)%nat = Some p.
Proof. intros Hi Hk. rewrite list_lookup_delete_ge by lia. by replace (S (k - 1)) with k by lia. Qed.

Lemma ahead_moves t p n x y :
  ahead t p n x -> answered (seg y) p = true -> stopped y = false -> gc_moves p x.1 y.1 (seg x) (seg y) ->
  exists m, ahead t p m y /\ (t < clock (seg x) -> (m < n)%nat).
Proof.
  intros (_ & _ & Et & k & Hk & Hn) Ha Ho Hm. unfold ahead. destruct x.1 as [| | |i] eqn:Ex; cbn [gc_moves] in Hm.
  - destruct Hm as [En [(-> & q & _ & Eb)|(-> & Ew)]].
    + exists (k + 2)%nat. split; [|lia]. split_and!; [done|done|congruence|]. exists k. split; [|done].
      rewrite Eb. by apply lookup_app_l_Some.
    + exists (k + 1)%nat. split; [|lia]. rewrite Ew. split_and!; [by rewrite <- Ew|done|done|]. by exists k.
  - destruct Hm as (-> & En & _ & Hb). exists (k + 1)%nat. split; [|lia]. split_and!; [done|done|congruence|]. exists k. split; [|done].
    destruct Hb as [->|(q & Eb & Hne)]; [done|]. rewrite Eb in Hk. apply lookup_app_Some in Hk as [|[_ Hk]]; [done|].
    apply list_lookup_singleton_Some in Hk as [_ ->]. done.
  - destruct Hm as [Ew ->]. unfold scan_due. rewrite bool_decide_true by (intros E; by rewrite E in Hk). cbn [andb].
    destruct (next_check (seg x) <? clock (seg x)) eqn:Ed.
    + exists k. split; [|lia]. rewrite Ew. split_and!; [by rewrite <- Ew|done|done|]. exists k. split; [done|]. cbn. lia.
    + exists (k + 3)%nat. split; [|lia]. rewrite Ew. split_and!; [by rewrite <- Ew|done|done|]. by exists k.
  - destruct Hn as [Hik ->]. destruct Hm as (_ & [(En & q & Hi & Hne & Hc)|(-> & _)]).
    2:{ apply lookup_lt_Some in Hk. lia. }
    assert (i < k)%nat as Hlt. { destruct (decide (i = k)) as [->|]; [congruence|lia]. }
    destruct Hc as [[-> Eb]|[-> Ew]].
    + exists (k - 1 - i)%nat. split; [|lia]. split_and!; [done|done|congruence|]. exists (k - 1)%nat. rewrite Eb.
      split; [by apply delete_before|lia].
    + exists (k - S i)%nat. split; [|lia]. rewrite Ew. split_and!; [by rewrite <- Ew|done|done|]. exists k. split; [done|lia].
Qed.

Lemma ahead_aside t p n x y : ahead t p n x -> answered (seg y) p = true -> stopped y = false -> aside x y -> ahead t p n y.
Proof.
  intros (_ & _ & Et & k & Hk & Hn) Ha Ho [Eg Eb En _]. split_and!; [done|done|congruence|]. exists k. by rewrite Eb, Eg.
Qed.

(** It stays so until the call is freed. *)
Lemma ahead_until t p : until run (fun x => exists n, ahead t p n x) (freed p).
Proof.
  intros k [n Hn]. destruct (step_kind _ _ (run_steps k)) as [Hst|[Hst E]].
  - destruct (collects_moves k p (ahead_waits _ _ _ _ Hn) Hst) as [Hq|(Ha & Ho & _ & Hm)]; [right; exists (S k); split; [lia|done]|left].
    destruct (ahead_moves t p n _ _ Hn Ha Ho Hm) as (m & Hm' & _). by exists m.
  - destruct (aside_moves k p (ahead_waits _ _ _ _ Hn) Hst E) as [Hq|(Ha & Ho & _ & Hm)]; [right; exists (S k); split; [lia|done]|left].
    exists n. by eapply ahead_aside.
Qed.

(** Once the time has come the scan reaches the call. *)
Lemma scan_frees t p n i :
  fair run collects -> ahead t p n (run i) -> t < clock (seg (run i)) -> reached run i (freed p).
Proof.
  intros Hf Hn Ht. eapply reached_then;
    [apply (collector_leads p (fun n x => ahead t p n x /\ t < clock (seg x)) (fun _ => False) n); [done| | | | |done]|].
  - intros m x [Hx _]. by eapply ahead_waits.
  - intros m x [(_ & _ & Et & k & Hk & _) Hc] _. right. split; [intros E; by rewrite E in Hk|lia].
  - intros m x y [Hx Hc] Ha Ho Hle Has. split; [by eapply ahead_aside|lia].
  - intros m x y [Hx Hc] Ha Ho Ec Hm. right. destruct (ahead_moves t p m x y Hx Ha Ho Hm) as (m' & Hy & Hlt).
    exists m'. split_and!; [auto|done|lia].
  - intros j _ [[]|Hj]. by apply reached_now.
Qed.

(** Each time is passed. *)
Hypothesis time_passes : forall i t, reached run i (fun x => t < clock (seg x)).

Lemma top_freed p i : fair run collects -> at_top p (run i) -> reached run i (freed p).
Proof.
  intros Hf [(Ha & Ho & (k & Hk)%list_elem_of_lookup_1) Eg]. set (t := next_check (seg (run i))).
  assert (ahead t p (k + 3) (run i)) as Hn. { split_and!; [done|done|done|]. exists k. by rewrite Eg. }
  destruct (time_passes i t) as (j & Hij & Hj).
  destruct (until_at run _ _ i j (ahead_until t p) Hij) as [[n Hn']|]; [by exists (k + 3)%nat| |done].
  eapply reached_later; [exact Hij|]. by eapply scan_frees.
Qed.

Lemma waits_freed p i :
  fair run collects -> strongly_fair run fetches -> waits p (run i) -> reached run i (freed p).
Proof.
  intros Hf Hs (Hp & Ha & Ho).
  assert (forall j, listed p (run j) -> reached run j (freed p)) as Hl.
  { intros j Hj. eapply reached_then; [by apply listed_top|]. intros k _ [Hk|Hk]; [by apply top_freed|by apply reached_now]. }
  apply elem_of_app in Hp as [Hp|(d & Hd)%list_elem_of_lookup_1]; [by apply Hl|].
  eapply reached_then; [by apply (deque_listed p d)|]. intros j _ [Hj|Hj]; [by apply Hl|by apply reached_now].
Qed.
End Runs.

Section Props.
Context `{Segment}.

(** C7: No orphan is forgotten. Take any infinite run of clients, collector, Raft
    process and worker from the start, in which the collector goes on in the end
    whenever it can for ever, gets the mutex of the deque in the end if it tries
    again and again while there is an orphan to take, and every time is passed. If
    the client has given up a call and the answer is there, then the slot of the
    call is freed later, or the collector is stopped by the shutdown. *)
Theorem fair_runs_collect timing (run : nat -> gc_pc * sys) i p :
  run 0%nat = sys_init timing -> (forall i, sys_step (run i) (run (S i))) ->
  fair run collects -> strongly_fair run fetches ->
  (forall i t, exists j, (i <= j)%nat /\ t < clock (shm (run j).2)) ->
  p ∈ orphans (shm (run i).2) -> answered (shm (run i).2) p = true ->
  exists j, (i <= j)%nat /\
    (slots (shm (run j).2) !! p = None \/ Deque.closed (orphaned_calls (shm (run j).2)) = true).
Proof.
  intros H0 Hst Hf Hs Ht Hp Ha. assert (sound (run 0%nat)) as Hso by (rewrite H0; by apply (sound_reachable timing)).
  destruct (Deque.closed (orphaned_calls (shm (run i).2))) eqn:Hc; [exists i; split; [lia|by right]|].
  exact (waits_freed run Hso Hst Ht p i Hf Hs (conj Hp (conj Ha Hc))).
Qed.
End Props.

(** ** A concrete run

    A client sends a barrier and gives its future up, the Raft process answers,
    the collector frees the slot, and then only time goes by. *)
Definition lost3 : world := run (dispose 4096) fair2.
Definition lost4 : world := set_queue ApiQueue (take_queue ApiQueue lost3) lost3.
Definition lost5 : world := run_env (ERaftReply 4096 RAFT_SUCCESS) lost4.
Definition lost6 : world := set_orphan_backlog [4096] (set_orphaned_calls (Deque.Dq [] false) lost5).
Definition lost7 : world := set_orphan_backlog [] (run (try_dispose_orphan 4096) lost6).
#[local] Strategy 100 [fair1 fair2 lost3 lost4 lost5 lost6 lost7].

Definition lost_end : sys := Sys lost7 [] [] [] [] [] [] [] [].

Definition lost_run (i : nat) : gc_pc * sys :=
  match i with
  | 0%nat => sys_init false
  | 1%nat => (GcFetch, Sys fair1 [(Barrier, 4096)] [] [] [] [] [] [] [])
  | 2%nat => (GcFetch, Sys fair2 [] [4096] [] [] [] [] [] [])
  | 3%nat => (GcFetch, Sys lost3 [] [] [] [] [] [] [] [])
  | 4%nat => (GcFetch, Sys lost4 [] [] [(Barrier, 4096)] [] [] [] [] [])
  | 5%nat => (GcFetch, Sys lost5 [] [] [] [] [] [] [] [])
  | 6%nat => (GcTry, Sys lost6 [] [] [] [] [] [] [] [])
  | 7%nat => (GcCheck, lost_end)
  | S (S (S (S (S (S (S (S n))))))) => (GcFetch, Nat.iter n tick lost_end)
  end.

Lemma lost_run_steps i : sys_step (lost_run i) (lost_run (S i)).
Proof.
  destruct i as [|[|[|[|[|[|[|[|n]]]]]]]]; cbn [lost_run]; [apply ss_act..| | | |apply ss_act, st_tick].
  - by apply (st_build Barrier (BarrierArgs 0) (sys_start false)); [| | |vm_compute].
  - by apply (st_put (Barrier, 4096) (Sys fair1 [(Barrier, 4096)] [] [] [] [] [] [] []) []); [| |vm_compute].
  - apply (st_dispose 4096 (Sys fair2 [] [4096] [] [] [] [] [] []) []); [done| |by vm_compute].
    intros sl b Hsl _ Hu _. vm_compute in Hsl. by simplify_eq.
  - by apply (st_raft_take (Barrier, 4096) (Sys lost3 [] [] [] [] [] [] [] [])); vm_compute.
  - by apply (st_raft_reply (Barrier, 4096) RAFT_SUCCESS (Sys lost4 [] [] [(Barrier, 4096)] [] [] [] [] []) []).
  - apply (ss_gc _ _ (Sys lost5 [] [] [] [] [] [] [] []) lost6). apply (gc_fetch lost5 4096 []). by vm_compute.
  - apply (ss_gc _ _ (Sys lost6 [] [] [] [] [] [] [] []) lost7). by apply (gc_try lost6 [] 4096 true); [|vm_compute].
  - apply (ss_gc _ _ lost_end lost7). apply gc_skip. by vm_compute.
Qed.

Lemma lost_run_idle n :
  exists w, lost_run (8 + n) = (GcFetch, set_shm w lost_end) /\ orphans w = [] /\ clock w = clock lost7 + Z.of_nat n.
Proof.
  cbn [Nat.add lost_run]. induction n as [|n (w & [= E] & Eo & Ec)]; [exists lost7; split_and!; [done|by vm_compute|lia]|].
  change (Nat.iter (S n) tick lost_end) with (tick (Nat.iter n tick lost_end)). rewrite E.
  exists (run_env (ETick 1) w). split_and!; [done|done|]. cbn [run_env clock set_clock]. lia.
Qed.

Lemma lost_run_idles i y : ~ collects (lost_run (8 + i)) y.
Proof.
  destruct (lost_run_idle i) as (w & E & [Eb Ed]%app_nil & _). rewrite E.
  intros (g & w' & Hst & _). cbn in Hst. inversion Hst; subst; [|done].
  match goal with Hd : orphaned_calls w = Deque.Dq (_ :: _) _ |- _ => by rewrite Hd in Ed end.
Qed.

Lemma lost_run_fair : fair lost_run collects /\ strongly_fair lost_run fetches.
Proof.
  split; intros i; exists (8 + i)%nat; (split; [lia|right]).
  - intros [y Hy]. by eapply lost_run_idles.
  - intros k Hk [y [Hy _]]. replace k with (8 + (k - 8))%nat in Hy by lia. by eapply lost_run_idles.
Qed.

Lemma lost_run_time i t : exists j, (i <= j)%nat /\ t < clock (shm (lost_run j).2).
Proof.
  exists (8 + (i + Z.to_nat (t - clock lost7 + 1)))%nat. split; [lia|].
  destruct (lost_run_idle (i + Z.to_nat (t - clock lost7 + 1))) as (w & E & _ & Ec). rewrite E. cbn [snd shm set_shm]. lia.
Qed.

Lemma fair_runs_collect_witness :
  exists j, (5 <= j)%nat /\ (slots (shm (lost_run j).2) !! 4096 = None \/
    Deque.closed (orphaned_calls (shm (lost_run j).2)) = true).
Proof.
  apply (fair_runs_collect false lost_run 5 4096);
    [done|exact lost_run_steps|apply lost_run_fair|apply lost_run_fair|exact lost_run_time|vm_compute; by left|by vm_compute].
Defined.
End SystemCollect.
