(* ===== verification/SystemApi.v ===== *)
(** * The interface on the whole system

    Functions with which a client sends requests and waits for or reads futures,
    those that [client_calls_run] lists, run on a reachable segment without other
    threads in between, are runs of the system. *)

From stdpp Require Import base tactics list strings gmap relations.
From Stdlib Require Import ZArith Lia Permutation.
From S2P Require Import Prelude CString Defs ArrayQueue Deque Slot Shm ShmInv ShmSpec Orphans Collector Ledger CIf FsmWorker FsmSpec System SystemSpec.

Module SystemApi.
Import CString Defs Slot Shm ShmSpec Orphans Collector Ledger System SystemSpec CIf.

Section Api.
Context `{Segment}.

(** The client has got the future [p]. *)
Definition with_future (p : Z) (w : world) (s : sys) : sys :=
  Sys w (sending s) (p :: futures s) (raft_calls s) (guests s) (fsm_taken s) (released s) (lost s) (leaked s).

Lemma send_acts t a s p w :
  good s -> typed t a = true -> is_fsm t = false -> (forall b, buffer_of a = Some b -> ready (shm s) b) ->
  send_api_request t a (shm s) = Ret p w -> rtc act_step s (with_future p w s).
Proof.
  intros Hg Hty Hf Hbuf Hr. unfold send_api_request in Hr. rewrite send_request_split in Hr.
  apply bind_Ret_inv in Hr as (p' & w1 & Hb & Hr). pose proof (st_build t a s p' w1 Hty Hf Hbuf Hb) as Hst.
  eapply rtc_l; [exact Hst|]. pose proof (good_act _ _ Hst Hg) as Hg1.
  apply bind_Ret_inv in Hr as ([] & w2 & Hput & E). injection E as -> ->. apply rtc_once.
  unfold catch, queue_put, mbind, M_bind in Hput. rewrite await_idle in Hput by apply Hg1. cbn [shm] in Hput.
  destruct (_ || _); [|done]. unfold zoom in Hput.
  match type of Hput with context [@ABQ.put ?T ?c ?r ?q] => destruct (@ABQ.put T c r q) as [[] q'|q'|f|q'] eqn:Hq end;
    cbv beta iota delta [modify] in Hput; try done; injection Hput as <-.
  - eapply (st_put (t, p) (Sys _ _ _ _ _ _ _ _ _)); [done|done|]. cbn [shm]. revert Hq. unfold ABQ.put.
    by destruct (ABQ.check_closed _).
  - assert (q' = get_queue ApiQueue w1 /\ ABQ.check_closed (get_queue ApiQueue w1) = true) as [-> Hc].
    { revert Hq. unfold ABQ.put. destruct (ABQ.check_closed _); [by intros [= <-]|]. by repeat case_match. }
    assert (set_queue ApiQueue (get_queue ApiQueue w1) w1 = w1) as -> by (by destruct w1 as [? ? ? [] ? ? ? ? ? ?]).
    by eapply (st_put_closed (t, p) (Sys _ _ _ _ _ _ _ _ _)).
Qed.

Lemma apply_acts cmd len timeout s p w :
  good s -> (in_shm_bounds cmd = true -> ready (shm s) cmd) ->
  raft_apply cmd len timeout (shm s) = Ret p w -> rtc act_step s (with_future p w s).
Proof.
  intros Hg Hbuf Hr. unfold raft_apply in Hr. destruct (_ && _).
  - eapply send_acts; [exact Hg| | | |exact Hr]; [done|done|]. intros b. cbn. destruct (in_shm_bounds cmd); [|done].
    intros [= <-]. by apply Hbuf.
  - apply rtc_once. eapply st_error; [| |exact Hr]; done.
Qed.

Lemma wait_acts f s err w :
  good s -> f ∈ futures s -> raft_future_wait f (shm s) = Ret err w -> rtc act_step s (set_shm w s).
Proof.
  intros Hg Hf Hr. unfold raft_future_wait in Hr. destruct (_ || _).
  - injection Hr as _ <-. by destruct s.
  - apply bind_Ret_inv in Hr as ([] & w1 & Hw & Hr). apply bind_Ret_inv in Hr as (sl & w2 & Hg2 & E).
    injection E as _ <-. unfold get_slot in Hg2. destruct (slots w1 !! f); [|done]. injection Hg2 as _ <-.
    apply rtc_once. by eapply st_wait.
Qed.

Lemma reply_acts f b s r w :
  good s -> f ∈ futures s -> raft_future_get_fsm_reply f b (shm s) = Ret r w -> rtc act_step s (set_shm w s).
Proof.
  intros Hg Hf Hr. destruct (good_future s f Hg Hf) as (sl & Hsl & _ & Hf0 & _).
  assert (set_shm (shm s) s = s) as Es by (by destruct s).
  unfold raft_future_get_fsm_reply in Hr. erewrite bind_Ret in Hr.
  2:{ unfold future_tag. erewrite bind_Ret by (apply assert_true; by destruct (Z.eqb_spec f 0)).
      by erewrite bind_Ret by (by apply get_slot_eq). }
  case_decide; [injection Hr as _ <-; by rewrite Es|].
  unfold get_ptr in Hr. erewrite bind_Ret in Hr by (by apply get_slot_eq).
  apply bind_Ret_inv in Hr as ([] & w1 & Hw & Hr). apply bind_Ret_inv in Hr as (sl2 & w2 & Hg2 & E).
  injection E as _ <-. unfold get_slot in Hg2. destruct (slots w1 !! f); [|done]. injection Hg2 as _ <-.
  destruct (negb _); [apply rtc_once; by eapply st_wait|]. injection Hw as <-. by rewrite Es.
Qed.

(** The interface and the system fit: on a reachable segment [raft_apply],
    [raft_barrier], [raft_verify_leader], [raft_snapshot], [raft_stats],
    [raft_shutdown], [raft_add_peer] and [raft_remove_peer], and for a future that
    the client holds [raft_future_wait] and [raft_future_get_fsm_reply], are runs
    of the system when they return without others running in between; a request
    leaves the client with the future. The client only has to own the command
    buffer that it sends. *)
Theorem client_calls_run timing g s :
  rtc sys_step (sys_init timing) (g, s) ->
  (forall cmd len timeout p w, (in_shm_bounds cmd = true -> ready (shm s) cmd) ->
     raft_apply cmd len timeout (shm s) = Ret p w -> rtc sys_step (g, s) (g, with_future p w s)) /\
  (forall m p w, m ∈ [raft_verify_leader; raft_snapshot; raft_stats; raft_shutdown] ->
     m (shm s) = Ret p w -> rtc sys_step (g, s) (g, with_future p w s)) /\
  (forall timeout p w, raft_barrier timeout (shm s) = Ret p w -> rtc sys_step (g, s) (g, with_future p w s)) /\
  (forall mem host port p w, raft_add_peer mem host port (shm s) = Ret p w \/ raft_remove_peer mem host port (shm s) = Ret p w ->
     rtc sys_step (g, s) (g, with_future p w s)) /\
  (forall f err w, f ∈ futures s -> raft_future_wait f (shm s) = Ret err w -> rtc sys_step (g, s) (g, set_shm w s)) /\
  (forall f b r w, f ∈ futures s -> raft_future_get_fsm_reply f b (shm s) = Ret r w ->
     rtc sys_step (g, s) (g, set_shm w s)).
Proof.
  intros (Hg & _ & _)%reachable. cbn [snd] in Hg. split_and!.
  - intros cmd len timeout p w Hb Hr. by eapply acts_run, apply_acts.
  - intros m p w Hm Hr. apply acts_run. repeat (apply elem_of_cons in Hm as [->|Hm]); [..|by apply not_elem_of_nil in Hm].
    1-3: eapply send_acts; [exact Hg| | | |exact Hr]; done.
    eapply rtc_l; [apply (st_shutdown s)|]. change (with_future p w s) with (with_future p w (set_shm (request_shutdown (shm s)) s)).
    eapply send_acts; [eapply good_act; [apply st_shutdown|done]| | | |exact Hr]; done.
  - intros timeout p w Hr. eapply acts_run, send_acts; [exact Hg| | | |exact Hr]; done.
  - intros mem host port p w [Hr|Hr]; (eapply acts_run, send_acts; [exact Hg| | | |exact Hr]; done).
  - intros f err w Hf Hr. by eapply acts_run, wait_acts.
  - intros f b r w Hf Hr. by eapply acts_run, reply_acts.
Qed.
End Api.

Lemma client_calls_run_witness :
  exists p w, raft_barrier 5 (shm demo) = Ret p w /\ rtc sys_step (GcFetch, demo) (GcFetch, with_future p w demo).
Proof.
  destruct (client_calls_run false GcFetch demo demo_reached) as (_ & _ & Hb & _).
  destruct (raft_barrier 5 (shm demo)) as [p w|?|?|?] eqn:E; [|by vm_compute in E..].
  exists p, w. split; [done|]. exact (Hb 5 p w E).
Defined.
End SystemApi.
