(* ===== verification/Process.v ===== *)
(** * Starting, watching and ending the Raft process

    [raft_init] and [raft_cleanup] (raft_c_if.cc) with [shm_init], [run_raft],
    [watch_raft_proc], [shm_cleanup] and the logging set-up (raft_shm.cc).  What
    the operating system and the libraries answer is a parameter. *)

From stdpp Require Import base tactics list strings gmap relations.
From Stdlib Require Import ZArith Lia Ascii.
From S2P Require Import Prelude CString Defs Config ArrayQueue Deque Slot Shm ShmInv ShmSpec Orphans CIf FsmWorker FsmSpec System.

Module Process.
Import CString Defs Config Slot Shm ShmInv ShmSpec FsmWorker.

(** ** The status of a process, as the macros of sys/wait.h read it *)

Definition WTERMSIG (status : Z) : Z := Z.land status 127.
Definition WIFEXITED (status : Z) : bool := WTERMSIG status =? 0.
Definition WEXITSTATUS (status : Z) : Z := Z.shiftr (Z.land status 65280) 8.
Definition WSTOPSIG (status : Z) : Z := WEXITSTATUS status.
Definition WIFSTOPPED (status : Z) : bool := Z.land status 255 =? 127.
(** [((signed char) ((status & 0x7f) + 1) >> 1) > 0] *)
Definition WIFSIGNALED (status : Z) : bool := (0 <? WTERMSIG status) && (WTERMSIG status <? 127).

(** [report_process_status]: the line that is printed. *)
Inductive report :=
  | ExitedNormally (pid : Z)
  | ExitedAbnormally (pid status : Z)
  | Terminated (pid sig : Z)
  | Stopped (pid sig : Z).

Definition report_process_status (pid status : Z) : option report :=
  if WIFEXITED status then
    if WEXITSTATUS status =? 0 then Some (ExitedNormally pid)
    else Some (ExitedAbnormally pid (WEXITSTATUS status))
  else if WIFSIGNALED status then Some (Terminated pid (WTERMSIG status))
  else if WIFSTOPPED status then Some (Stopped pid (WSTOPSIG status))
  else None.

#[global] Instance report_eq_dec : EqDecision report.
Proof. solve_decision. Defined.

(** A return of [waitpid], with the flags of the scoreboard when it returns. *)
Record wait_result := WaitResult {
  wr_pid : Z; wr_status : Z; wr_shutdown : bool; wr_killed : bool }.

Inductive watch_outcome :=
  | WatchReturns (r : report)
  | WatchExits (code : Z)
  | WatchAborts
  | WatchWaits.

(** [watch_raft_proc] on what [waitpid] returns, call after call. *)
Fixpoint watch_raft_proc (raft_pid : Z) (waits : list wait_result) : watch_outcome :=
  match waits with
  | [] => WatchWaits
  | WaitResult pid status shutdown killed :: rest =>
      if pid =? 0 then WatchAborts
      else if 0 <? pid then
        if WIFSTOPPED status then watch_raft_proc raft_pid rest
        else match report_process_status raft_pid status with
             | None => WatchAborts
             | Some r =>
                 if shutdown && WIFEXITED status && (WEXITSTATUS status =? 0) then WatchReturns r
                 else if shutdown && killed then WatchReturns r
                 else WatchExits 1
             end
      else WatchExits 1
  end.

(** ** The process *)

(** What the system answers: [os_create] and [os_open] are the constructors of
    the mapped file, [os_zlog] is [zlog_init] or (with [true]) [zlog_reload]. *)
Inductive stat_result := StatOk | StatNoEnt | StatError.

Record OS := MkOS {
  os_stat : chars -> stat_result;
  os_unlink : chars -> bool;
  os_create : chars -> Z -> bool;
  os_open : chars -> bool;
  os_getenv : string -> option chars;
  os_fork : Z;
  os_exec : list (option chars) -> bool;
  os_zlog : bool -> chars -> Z
}.

Section Code.
Context `{Segment} {U : Type}.

(** [sh_config] is the configuration in the segment, [log_file] the zlog
    configuration in use ([msg_cat] is set), and the booleans say which threads
    have been started and not joined. *)
Record proc := Proc {
  fw : fworld (U := U);
  sh_config : option RaftConfig;
  log_file : option chars;
  mapped : bool;
  raft_pid : Z;
  raft_watcher : bool;
  orphan_gc_thread : bool;
  fsm_worker : bool;
  err_msgs : list (option string)
}.

Definition set_fw (v : fworld) (x : proc) : proc :=
  Proc v (sh_config x) (log_file x) (mapped x) (raft_pid x) (raft_watcher x)
    (orphan_gc_thread x) (fsm_worker x) (err_msgs x).
Definition set_log_file (v : option chars) (x : proc) : proc :=
  Proc (fw x) (sh_config x) v (mapped x) (raft_pid x) (raft_watcher x)
    (orphan_gc_thread x) (fsm_worker x) (err_msgs x).
Definition set_segment (c : option RaftConfig) (b : bool) (x : proc) : proc :=
  Proc (fw x) c (log_file x) b (raft_pid x) (raft_watcher x) (orphan_gc_thread x)
    (fsm_worker x) (err_msgs x).
Definition set_raft_pid (v : Z) (x : proc) : proc :=
  Proc (fw x) (sh_config x) (log_file x) (mapped x) v (raft_watcher x)
    (orphan_gc_thread x) (fsm_worker x) (err_msgs x).
Definition set_threads (watcher gc worker : bool) (x : proc) : proc :=
  Proc (fw x) (sh_config x) (log_file x) (mapped x) (raft_pid x) watcher gc worker (err_msgs x).
Definition set_err_msgs (v : list (option string)) (x : proc) : proc :=
  Proc (fw x) (sh_config x) (log_file x) (mapped x) (raft_pid x) (raft_watcher x)
    (orphan_gc_thread x) (fsm_worker x) v.

Definition in_fw {A : Type} (m : M (fworld (U := U)) A) : M proc A := zoom fw set_fw m.
Definition in_world {A : Type} (m : M world A) : M proc A := in_fw (in_shm m).

Variable os : OS.

(** A variable of the environment that is there and not empty. *)
Definition env_set (name : string) : bool :=
  match os_getenv os name with
  | Some (_ :: _) => true
  | _ => false
  end.

Definition log_init (cfg : option RaftConfig) : M proc Z :=
  let run_verbose := env_set "VERBOSE" || match cfg with Some c => verbose c | None => false end in
  let config_file := if run_verbose then lit "zlog_verbose.conf" else lit "zlog.conf" in
  x ← get ;
  let rc := os_zlog os (bool_decide (is_Some (log_file x))) config_file in
  if negb (rc =? 0) then mret rc
  else modify (set_log_file (Some config_file)) ;; mret 0.

(** [shm_init].  On the client side ([create]) the construction of the
    scoreboard, the counters, the allocators and [orphaned_calls.reset()] give
    the initial world; on the Raft side they are found in the segment. *)
Definition shm_init (path : chars) (create : bool) (config : option RaftConfig) : M proc () :=
  log_init config ;;
  if create then
    match config with
    | None => fail AssertFailed
    | Some cfg =>
        match os_stat os path with
        | StatOk => if os_unlink os path then mret () else fail (ExitProcess 1)
        | StatNoEnt => mret ()
        | StatError => fail (ExitProcess 1)
        end ;;
        (if os_create os path (shm_size cfg) then mret () else fail (ExitProcess 1)) ;;
        modify (set_segment (Some (set_shm_path (strncpy (shm_path cfg) path 255) cfg)) true) ;;
        modify (fun x => set_fw (set_shm (init_world (env_set "RAFT_TIMING") (sched (shm (fw x)))) (fw x)) x)
    end
  else
    match config with
    | Some _ => fail AssertFailed
    | None =>
        (if os_open os path then mret () else fail Aborted) ;;
        (if os_unlink os path then mret () else fail (ExitProcess 1)) ;;
        x ← get ;
        log_init (sh_config x) ;;
        assert (bool_decide (is_Some (sh_config x))) ;;
        modify (set_segment (sh_config x) true)
    end.

(** [build_raft_argv]; the null pointer at the end is [None]. *)
Definition build_raft_argv (cfg : RaftConfig) : list (option chars) :=
  [Some (lit "raft_if"); Some (lit "--shm-path"); c_str (shm_path cfg); None].

Inductive run_result := Parent (pid : Z) | Child (argv : list (option chars)).

Definition run_raft : M proc run_result :=
  let kidpid := os_fork os in
  if kidpid =? -1 then fail (ExitProcess 1)
  else if negb (kidpid =? 0) then
    modify (set_raft_pid kidpid) ;;
    x ← get ;
    assert (negb (raft_watcher x)) ;;
    assert (negb (orphan_gc_thread x)) ;;
    modify (set_threads true true (fsm_worker x)) ;;
    mret (Parent kidpid)
  else
    x ← get ;
    match sh_config x with
    | None => fail BadPointer
    | Some cfg =>
        if os_exec os (build_raft_argv cfg) then mret (Child (build_raft_argv cfg))
        else fail (ExitProcess 1)
    end.

Definition start_fsm_worker : M proc () :=
  x ← get ;
  assert (negb (fsm_worker x)) ;;
  modify (set_threads (raft_watcher x) (orphan_gc_thread x) true).

(** [wait_for_raft]: sleep until the flag is set. *)
Definition wait_for_raft : M world () := await (fun w => is_raft_running (scoreboard w)).

(** [raft_init] in the parent; [mem] is what the memory of the local
    configuration held. *)
Definition raft_init (mem : RaftConfig) (config_arg : option RaftConfig) : M proc Z :=
  in_fw (zoom snapshot_queue set_snapshot_queue Deque.reset) ;;
  modify (set_err_msgs init_err_msgs) ;;
  let config := match config_arg with Some c => c | None => default_config mem end in
  match c_str (shm_path config) with
  | None => fail OutOfBounds
  | Some path =>
      shm_init path true (Some config) ;;
      r ← run_raft ;
      match r with
      | Child _ => block
      | Parent pid =>
          start_fsm_worker ;;
          in_world wait_for_raft ;;
          mret pid
      end
  end.

(** [kill_raft_]: the flag; the signal is sent to [raft_pid]. *)
Definition kill_raft_ : M proc () :=
  in_world (modify (fun w => let sb := scoreboard w in
    set_scoreboard (MkScoreboard (is_raft_running sb) (is_leader sb) (shutdown_requested sb) true
      (msg_timing sb) (api_queue sb) (fsm_queue sb)) w)).

(** ** The end *)

Definition close_queue (which : which_queue) : M world () :=
  modify (fun w => set_queue which (ABQ.close_body (get_queue which w)) w).

(** *** Joins

    A thread that is joined runs to its end from wherever it is when its queue is
    closed; meanwhile nothing but [sched] happens.  What a thread has done before
    that place is in the state. *)

(** The FSM worker is about to call [take], or has passed the first
    [check_closed] of [take], or holds the lock of a request. *)
Inductive fsm_place := FsmTop | FsmPastCheck | FsmDispatching (rec : call_rec).

(** The snapshot worker finishes the job it is at, if there is one, and takes as
    many more from its queue before that is closed. *)
Record snapshot_place := SnapshotAt { job_at : option SnapshotJob; jobs_more : nat }.

(** The collector is about to fetch an orphan, or has fetched one or timed out, or
    is in the middle of a scan. *)
Inductive gc_place := GcTop | GcFetched (orphan : option Z) | GcScanning (kept todo : list Z).

Record places := Places { at_fsm : fsm_place; at_snapshot : snapshot_place; at_gc : gc_place }.

(** A worker that waits in [take] although the queue is closed is woken only by a
    [put], and then finds the queue closed. *)
Definition fsm_take_late : M world call_rec :=
  w ← get ;
  if ABQ.empty (get_queue FsmQueue w) then
    await (fun w => negb (ABQ.empty (get_queue FsmQueue w))) ;; throw
  else System.fsm_receive_checked.

Definition fsm_rest (fsm : RaftFSM (U := U)) (here : fsm_place) : M (fworld (U := U)) () :=
  match here with
  | FsmTop => run_fsm_worker fsm 1
  | FsmPastCheck =>
      catch (rec ← in_shm fsm_take_late ; System.fsm_dispatch_call fsm rec ;; fsm_worker_loop fsm 1) (mret ())
  | FsmDispatching rec => catch (System.fsm_dispatch_call fsm rec ;; fsm_worker_loop fsm 1) (mret ())
  end.

Fixpoint run_jobs (host : Host (U := U)) (n : nat) : M (fworld (U := U)) () :=
  match n with
  | O => mret ()
  | S n =>
      x ← get ;
      if bool_decide (Deque.deque (snapshot_queue x) = []) then mret ()
      else
        job ← zoom snapshot_queue set_snapshot_queue Deque.take ;
        run_snapshot_job host job ;;
        run_jobs host n
  end.

Definition snapshot_before_close (host : Host (U := U)) (here : snapshot_place) : M (fworld (U := U)) () :=
  x ← get ;
  if snapshot_worker x then
    match job_at here with Some job => run_snapshot_job host job | None => mret () end ;;
    run_jobs host (jobs_more here)
  else mret ().

Definition gc_rest (here : gc_place) : M world () :=
  catch
    (match here with
     | GcTop => mret ()
     | GcFetched orphan => gc_handle orphan
     | GcScanning kept todo => gc_scan kept todo
     end ;; gc_loop 1)
    (mret ()).

Definition join_gc (here : gc_place) : M proc () := in_world (gc_rest here).

(** [join] of the watcher, given what [waitpid] returns. *)
Definition join_watcher (waits : list wait_result) : M proc () :=
  x ← get ;
  match watch_raft_proc (raft_pid x) waits with
  | WatchReturns _ => mret ()
  | WatchExits code => fail (ExitProcess code)
  | WatchAborts => fail AssertFailed
  | WatchWaits => block
  end.

Definition shm_cleanup (here : gc_place) (waits : list wait_result) : M proc () :=
  in_world (close_queue ApiQueue) ;;
  in_world (zoom orphaned_calls set_orphaned_calls Deque.close) ;;
  x ← get ;
  assert (orphan_gc_thread x) ;;
  join_gc here ;;
  modify (fun x => set_threads (raft_watcher x) false (fsm_worker x) x) ;;
  x ← get ;
  (if raft_watcher x then
     join_watcher waits ;; modify (fun x => set_threads false (orphan_gc_thread x) (fsm_worker x) x)
   else mret ()) ;;
  modify (set_segment None false).

Definition raft_cleanup (fsm : RaftFSM (U := U)) (host : Host (U := U)) (here : places)
    (waits : list wait_result) : M proc () :=
  in_world (close_queue FsmQueue) ;;
  x ← get ;
  assert (fsm_worker x) ;;
  in_fw (fsm_rest fsm (at_fsm here)) ;;
  modify (fun x => set_threads (raft_watcher x) (orphan_gc_thread x) false x) ;;
  in_fw (snapshot_before_close host (at_snapshot here)) ;;
  in_fw (zoom snapshot_queue set_snapshot_queue Deque.close) ;;
  x ← get ;
  (if snapshot_worker (fw x) then
     in_fw (run_snapshot_worker host 1) ;;
     in_fw (modify (set_snapshot_worker false))
   else mret ()) ;;
  shm_cleanup (at_gc here) waits.

End Code.

(** ** The watcher *)

Lemma low_byte status : Z.land status 255 = status mod 256 /\ WTERMSIG status = status mod 128.
Proof.
  unfold WTERMSIG. change 255 with (Z.ones 8). change 127 with (Z.ones 7).
  by rewrite !Z.land_ones by lia.
Qed.

(** The branches of [report_process_status]: the assertion at its end fails only
    for a status whose low byte is 255. *)
Lemma report_cases pid status :
  match report_process_status pid status with
  | Some (ExitedNormally p) => p = pid /\ WIFEXITED status = true /\ WEXITSTATUS status = 0
  | Some (ExitedAbnormally p c) =>
      p = pid /\ WIFEXITED status = true /\ c = WEXITSTATUS status /\ c <> 0
  | Some (Terminated p sig) => p = pid /\ 0 < sig < 127 /\ sig = status mod 128
  | Some (Stopped p sig) => p = pid /\ WIFSTOPPED status = true /\ sig = WEXITSTATUS status
  | None => status mod 256 = 255
  end.
Proof.
  unfold report_process_status. destruct (WIFEXITED status) eqn:E1.
  { destruct (WEXITSTATUS status =? 0) eqn:E; zbool; done. }
  destruct (WIFSIGNALED status) eqn:E2.
  { unfold WIFSIGNALED in E2. pose proof (proj2 (low_byte status)). zbool. split_and!; lia. }
  destruct (WIFSTOPPED status) eqn:E3; [done|].
  unfold WIFEXITED, WIFSIGNALED, WIFSTOPPED in *. destruct (low_byte status) as [L1 L2].
  rewrite L1, L2 in *. Z.to_euclidean_division_equations. lia.
Qed.

(** The watcher ignores stops and decides at the first other status: it
    returns, with a report, exactly if a shutdown has been requested and the
    Raft process has exited with status 0 or was killed on purpose; in every
    other case the whole program exits with status 1. The assertion in
    [report_process_status] is not reached for a status that [waitpid] gives
    without [WCONTINUED]. *)
Theorem watch_verdict raft_pid stops pid status shutdown killed rest :
  Forall (fun r => 0 < wr_pid r /\ WIFSTOPPED (wr_status r) = true) stops ->
  0 < pid -> WIFSTOPPED status = false -> status mod 256 <> 255 ->
  exists r, report_process_status raft_pid status = Some r /\
    watch_raft_proc raft_pid (stops ++ WaitResult pid status shutdown killed :: rest) =
      if shutdown && (bool_decide (r = ExitedNormally raft_pid) || killed)
      then WatchReturns r else WatchExits 1.
Proof.
  intros Hst Hpid Hns Hlow. pose proof (report_cases raft_pid status) as Hc.
  destruct (report_process_status raft_pid status) as [r|] eqn:Er; [|done].
  exists r. split; [done|]. induction Hst as [|[p' st' sh' k'] stops [Hp Hs] Hst IH].
  - cbn [app watch_raft_proc]. rewrite (proj2 (Z.eqb_neq pid 0)), (proj2 (Z.ltb_lt 0 pid)), Hns, Er by lia.
    assert (bool_decide (r = ExitedNormally raft_pid) = WIFEXITED status && (WEXITSTATUS status =? 0)) as ->.
    { destruct r as [p'|p' c|p' sg|p' sg]; rewrite ?bool_decide_true, ?bool_decide_false by (naive_solver congruence).
      - destruct Hc as (-> & -> & ->). done.
      - destruct Hc as (-> & -> & -> & Hn). cbn. symmetry. by apply Z.eqb_neq.
      - destruct Hc as (-> & Hsg & ->). unfold WIFEXITED. rewrite (proj2 (low_byte status)).
        rewrite (proj2 (Z.eqb_neq _ 0)) by lia. done.
      - destruct Hc as (_ & Hs & _). congruence. }
    by destruct shutdown, (WIFEXITED status), (WEXITSTATUS status =? 0), killed.
  - cbn in Hp, Hs |- *. rewrite (proj2 (Z.eqb_neq p' 0)), (proj2 (Z.ltb_lt 0 p')), Hs by lia. done.
Qed.

(** ** Starting *)

Section Facts.
Context `{Segment} {U : Type}.
Implicit Types x : proc (U := U).

Lemma in_fw_Ret {A : Type} (m : M (fworld (U := U)) A) a w' x :
  m (fw x) = Ret a w' -> in_fw m x = Ret a (set_fw w' x).
Proof. intros E. unfold in_fw. by erewrite zoom_Ret by done. Qed.

Lemma in_fw_sleeps {A B : Type} (m : M (fworld (U := U)) A) (k : A -> M proc B) w' x :
  m (fw x) = Block w' -> (in_fw m ≫= k) x = Block (set_fw w' x).
Proof. intros E. unfold in_fw, zoom, mbind, M_bind. by rewrite E. Qed.

Lemma in_world_Ret {A : Type} (m : M world A) a w' x :
  m (shm (fw x)) = Ret a w' -> in_world m x = Ret a (set_fw (set_shm w' (fw x)) x).
Proof. intros E. unfold in_world. apply in_fw_Ret. unfold in_shm. by erewrite zoom_Ret by done. Qed.

(** The system lets the client create the segment at [path]. *)
Definition can_create (os : OS) (path : chars) (size : Z) : bool :=
  match os_stat os path with
  | StatOk => os_unlink os path
  | StatNoEnt => true
  | StatError => false
  end && os_create os path size.

Lemma log_init_eq os cfg x :
  exists rc l, log_init os cfg x = Ret rc (set_log_file l x).
Proof.
  unfold log_init. erewrite bind_Ret by done. cbv beta zeta. case_if.
  - exists (os_zlog os (bool_decide (is_Some (log_file x)))
      (if env_set os "VERBOSE" || match cfg with Some c => verbose c | None => false end
       then lit "zlog_verbose.conf" else lit "zlog.conf")), (log_file x). by destruct x.
  - eauto.
Qed.

(** [shm_init] on the client side: a new world and the configuration, or the
    end of the program. *)
Lemma shm_init_eq os path cfg x :
  exists l, shm_init os path true (Some cfg) x =
    if can_create os path (shm_size cfg) then
      Ret () (set_fw (set_shm (init_world (env_set os "RAFT_TIMING") (sched (shm (fw x)))) (fw x))
        (set_segment (Some (set_shm_path (strncpy (shm_path cfg) path 255) cfg)) true
          (set_log_file l x)))
    else Fault (ExitProcess 1).
Proof.
  destruct (log_init_eq os (Some cfg) x) as (rc & l & Hl). exists l.
  unfold shm_init, can_create. erewrite bind_Ret by done.
  unfold mbind, M_bind, mret, M_ret, fail, modify. cbn.
  by destruct (os_stat os path), (os_unlink os path), (os_create os path (shm_size cfg)).
Qed.

(** [wait_for_raft] returns when the Raft process reports that it runs. *)
Lemma wait_for_raft_eq w :
  ESetRunning ∈ sched w -> exists es w', wait_for_raft w = Ret () (set_sched es w') /\
    is_raft_running (scoreboard w') = true.
Proof.
  intros (es1 & es2 & Hes)%list_elem_of_split. unfold wait_for_raft, await.
  rewrite Hes. change (ESetRunning :: es2) with ([ESetRunning] ++ es2). rewrite app_assoc.
  destruct (await_loop_complete (fun w => is_raft_running (scoreboard w)) (es1 ++ [ESetRunning]) es2 w)
    as (es0 & es0' & _ & Hc & Hrun); [by rewrite run_envs_app|].
  eauto.
Qed.

(** The process after [raft_init] has built the segment. *)
Definition with_segment (os : OS) (path : chars) (cfg : RaftConfig) (l : option chars) x : proc :=
  let f := FWorld (init_world (env_set os "RAFT_TIMING") (sched (shm (fw x)))) (Deque.Dq [] false)
    (snapshot_worker (fw x)) (user (fw x)) in
  Proc f (Some (set_shm_path (strncpy (shm_path cfg) path 255) cfg)) l true (raft_pid x)
    (raft_watcher x) (orphan_gc_thread x) (fsm_worker x) init_err_msgs.

Lemma raft_init_eq os mem arg x cfg path :
  match arg with Some c => c | None => default_config mem end = cfg ->
  c_str (shm_path cfg) = Some path ->
  exists l, raft_init os mem arg x =
    if can_create os path (shm_size cfg) then
      (r ← run_raft os ;
       match r with
       | Child _ => block
       | Parent pid => start_fsm_worker ;; in_world wait_for_raft ;; mret pid
       end) (with_segment os path cfg l x)
    else Fault (ExitProcess 1).
Proof.
  intros Hcfg Hp. set (x1 := set_err_msgs init_err_msgs
    (set_fw (set_snapshot_queue (Deque.Dq [] false) (fw x)) x)).
  destruct (shm_init_eq os path cfg x1) as (l & Hs). exists l.
  unfold raft_init. erewrite bind_Ret by (by apply in_fw_Ret). erewrite bind_Ret by done.
  rewrite Hcfg. cbv zeta. rewrite Hp. change (set_err_msgs _ _) with x1.
  destruct (can_create os path (shm_size cfg)).
  - by erewrite bind_Ret by done.
  - unfold mbind, M_bind. by rewrite Hs.
Qed.

Lemma run_raft_parent os x :
  0 < os_fork os -> raft_watcher x = false -> orphan_gc_thread x = false ->
  run_raft os x = Ret (Parent (os_fork os))
    (set_threads true true (fsm_worker x) (set_raft_pid (os_fork os) x)).
Proof.
  intros Hf Hw Hg. unfold run_raft. rewrite !(proj2 (Z.eqb_neq (os_fork os) _)) by lia. cbv beta iota zeta delta [negb].
  erewrite bind_Ret by done. erewrite bind_Ret by done.
  erewrite bind_Ret by (apply assert_true; cbn; by rewrite Hw).
  erewrite bind_Ret by (apply assert_true; cbn; by rewrite Hg). done.
Qed.

(** C33: [raft_init] starts the library: if the segment can be created, the fork
    succeeds, no thread is running yet and the Raft process reports that it
    runs, it returns the process number; the three threads are then started, the
    snapshot queue is open and empty, the error messages are set, and the
    segment holds the configuration. If the old file cannot be removed, the
    segment cannot be created or the fork fails, the program exits with
    status 1. *)
Theorem raft_init_outcome os mem arg x cfg path :
  match arg with Some c => c | None => default_config mem end = cfg ->
  c_str (shm_path cfg) = Some path ->
  (can_create os path (shm_size cfg) = false \/ os_fork os = -1 ->
     raft_init os mem arg x = Fault (ExitProcess 1)) /\
  (can_create os path (shm_size cfg) = true -> 0 < os_fork os ->
   raft_watcher x = false -> orphan_gc_thread x = false -> fsm_worker x = false ->
   ESetRunning ∈ sched (shm (fw x)) ->
   exists x', raft_init os mem arg x = Ret (os_fork os) x' /\
     raft_pid x' = os_fork os /\ raft_watcher x' = true /\ orphan_gc_thread x' = true /\
     fsm_worker x' = true /\ is_raft_running (scoreboard (shm (fw x'))) = true /\
     snapshot_queue (fw x') = Deque.Dq [] false /\ err_msgs x' = init_err_msgs /\
     sh_config x' = Some (set_shm_path (strncpy (shm_path cfg) path 255) cfg)).
Proof.
  intros Hcfg Hp. destruct (raft_init_eq os mem arg x cfg path Hcfg Hp) as (l & ->). split.
  - intros [-> | Hf]; [done|]. destruct (can_create _ _ _); [|done].
    unfold mbind, M_bind, run_raft. by rewrite Hf.
  - intros -> Hf Hw Hg Hfw Hrun. set (x1 := with_segment os path cfg l x).
    erewrite bind_Ret by (by apply run_raft_parent). cbv iota.
    erewrite bind_Ret.
    2:{ unfold start_fsm_worker. erewrite bind_Ret by done.
        erewrite bind_Ret by (apply assert_true; cbn; by rewrite Hfw). done. }
    destruct (wait_for_raft_eq (init_world (env_set os "RAFT_TIMING") (sched (shm (fw x)))))
      as (es & w' & Hwait & Hr); [done|].
    erewrite bind_Ret by (apply in_world_Ret; done). eexists. split; [done|]. done.
Qed.

(** The Raft process is started on the segment that the client created: in
    the child, [run_raft] executes [raft_if] with the path given to [shm_init]
    as the argument of [--shm-path], and a null pointer at the end. *)
Theorem raft_child_argv os os' path cfg x x' :
  config_wf cfg -> c_str (shm_path cfg) = Some path ->
  shm_init os path true (Some cfg) x = Ret () x' ->
  os_fork os' = 0 -> (forall argv, os_exec os' argv = true) ->
  run_raft os' x' =
    Ret (Child [Some (lit "raft_if"); Some (lit "--shm-path"); Some path; None]) x'.
Proof.
  intros Hwf Hp Hi Hf He. destruct (shm_init_eq os path cfg x) as (l & Hs).
  rewrite Hi in Hs. destruct (can_create _ _ _); [|done]. injection Hs as ->.
  unfold run_raft. rewrite Hf. cbn. erewrite bind_Ret by done. cbn. rewrite He.
  unfold build_raft_argv. destruct cfg. cbn in *.
  by rewrite c_str_strncpy_self by (apply Hwf || done).
Qed.

(** ** Ending *)

(** The orphans that the collector still looks at from a place, and that the
    place agrees with the segment. *)
Definition gc_looks (here : gc_place) (w : world) : list Z :=
  match here with
  | GcTop => []
  | GcFetched orphan => (if Orphans.due w then orphan_backlog w else []) ++ option_list orphan
  | GcScanning _ todo => todo
  end.

Definition gc_agrees (here : gc_place) (w : world) : Prop :=
  match here with
  | GcTop => True
  | GcFetched orphan => Orphans.owns (option_list orphan ++ orphan_backlog w) w
  | GcScanning kept todo => Orphans.owns (todo ++ kept) w
  end.

(** The collector leaves the scoreboard, and so the two queues, alone. *)
Definition board_is (b : Scoreboard) (w : world) : Prop := scoreboard w = b.

Lemma board_modify b (f : world -> world) :
  (forall w, scoreboard (f w) = scoreboard w) -> preserves (board_is b) (modify f).
Proof. intros Hf. apply preserves_modify. unfold board_is. intros w <-. apply Hf. Qed.

Lemma board_dispose b p : preserves (board_is b) (dispose p).
Proof.
  unfold dispose, deallocate, orphan_cleanup, free_raft_buffer, free_buf, track_orphan.
  pres; try (by apply board_modify); try (by apply preserves_zoom); by intros w Hw.
Qed.

Lemma board_try b p : preserves (board_is b) (try_dispose_orphan p).
Proof.
  assert (preserves (board_is b) (unlock p)) by (intros w Hw; unfold unlock; by case_match).
  unfold try_dispose_orphan. pres; try (by apply board_modify); try (apply board_dispose); by intros w Hw.
Qed.

Lemma board_scan b kept todo : preserves (board_is b) (gc_scan kept todo).
Proof.
  assert (preserves (board_is b) (scan_orphans todo)).
  { induction todo as [|p todo IH]; cbn [scan_orphans]; pres. apply board_try. }
  unfold gc_scan. pres; by apply board_modify.
Qed.

Lemma board_handle b o : preserves (board_is b) (gc_handle o).
Proof. unfold gc_handle. pres; try (by apply board_modify); by (apply board_try || apply board_scan). Qed.

Lemma catch_closed m (w w1 : world) :
  m w = Ret () w1 -> Deque.closed (orphaned_calls w1) = true -> catch (m ;; gc_loop 1) (mret ()) w = Ret () w1.
Proof.
  intros Hm Hc. unfold catch. erewrite bind_Ret by done. cbn [gc_loop]. unfold mbind, M_bind.
  by rewrite Orphans.gc_round_closed.
Qed.

(** From every place the collector ends once the deque is closed, and frees just
    the answered calls among those that it still looks at. *)
Lemma gc_rest_eq here w :
  Deque.closed (orphaned_calls w) = true -> gc_agrees here w -> exists w1, gc_rest here w = Ret () w1 /\
    Orphans.swept (gc_looks here w) w w1 /\ Deque.closed (orphaned_calls w1) = true /\
    scoreboard w1 = scoreboard w.
Proof.
  intros Hc Ha. unfold gc_rest. destruct here as [|o|kept todo]; cbn in Ha |- *.
  - exists w. split_and!; [by apply catch_closed|apply Orphans.swept_nil|done|done].
  - destruct (Orphans.handle_next_eq o (orphan_backlog w) w Ha) as (w1 & H1 & Hs1 & Ho1 & Hb1 & Hq1 & Hd1).
    destruct (Orphans.sweep_eq [] w1) as (w2 & H2 & Hs2 & _ & _ & Hq2).
    { rewrite app_nil_r, Hb1. eapply Orphans.owns_perm, Ho1. apply Permutation_app_comm. }
    assert (gc_handle o w = Ret () w2) as Hh by (unfold gc_handle; by erewrite bind_Ret by done).
    pose proof (board_handle _ o w eq_refl) as Hbd. rewrite Hh in Hbd.
    exists w2. rewrite Hd1, Hb1 in Hs2. split_and!.
    + apply catch_closed; [done|by rewrite Hq2, Hq1].
    + destruct (Orphans.due w); [by apply (Orphans.swept_app _ _ w w1)|by apply (Orphans.swept_then_nil _ w w1)].
    + by rewrite Hq2, Hq1.
    + done.
  - destruct (Orphans.scan_orphans_eq todo kept w Ha) as (w1 & H1 & Hs1 & [Hq1 _ _ _] & _).
    assert (gc_scan kept todo w = Ret () (set_next_check (clock w1 + orphan_interval)
      (set_orphan_backlog (kept ++ Orphans.waiting w todo) w1))) as Hh
      by (unfold gc_scan; by erewrite bind_Ret by done).
    pose proof (board_scan _ kept todo w eq_refl) as Hbd. rewrite Hh in Hbd.
    eexists. split_and!.
    + apply catch_closed; [done|]. cbn. by rewrite Hq1.
    + by apply (Orphans.swept_then_nil _ w w1), Orphans.swept_same.
    + cbn. by rewrite Hq1.
    + done.
Qed.

Lemma gc_agrees_frame here w w' :
  slots w' = slots w -> bufs w' = bufs w -> orphan_backlog w' = orphan_backlog w ->
  gc_agrees here w -> gc_agrees here w'.
Proof. intros Hs Hb Hl. destruct here; cbn; [done|rewrite Hl|]; by apply Orphans.owns_fields. Qed.

(** The state when everything has been ended: the answered calls among [ps] have
    been freed since [w]. *)
Record cleaned (ps : list Z) (w : world) (x : proc (U := U)) : Prop := Cleaned {
  cl_watcher : raft_watcher x = false;
  cl_gc : orphan_gc_thread x = false;
  cl_unmapped : mapped x = false;
  cl_api : ABQ.closed (api_queue (scoreboard (shm (fw x)))) = true;
  cl_orphans : Deque.closed (orphaned_calls (shm (fw x))) = true;
  cl_swept : Orphans.swept ps w (shm (fw x))
}.

Lemma shm_cleanup_eq here waits x :
  orphan_gc_thread x = true -> raft_watcher x = true -> gc_agrees here (shm (fw x)) ->
  match watch_raft_proc (raft_pid x) waits with
  | WatchReturns _ => exists x', shm_cleanup here waits x = Ret () x' /\
      cleaned (gc_looks here (shm (fw x))) (shm (fw x)) x' /\ fsm_worker x' = fsm_worker x /\
      fsm_queue (scoreboard (shm (fw x'))) = fsm_queue (scoreboard (shm (fw x))) /\
      snapshot_queue (fw x') = snapshot_queue (fw x) /\ snapshot_worker (fw x') = snapshot_worker (fw x)
  | WatchExits code => shm_cleanup here waits x = Fault (ExitProcess code)
  | WatchAborts => shm_cleanup here waits x = Fault AssertFailed
  | WatchWaits => exists x', shm_cleanup here waits x = Block x'
  end.
Proof.
  intros Hg Hw Ha. set (w := shm (fw x)) in *.
  set (wc := set_orphaned_calls (Deque.close_section (orphaned_calls w))
    (set_queue ApiQueue (ABQ.close_body (api_queue (scoreboard w))) w)).
  destruct (gc_rest_eq here wc) as (w1 & Hr & Hs & Hc & Hb); [done|by apply (gc_agrees_frame here w)|].
  assert (shm_cleanup here waits x = (join_watcher waits ≫= fun _ =>
      modify (fun x => set_threads false (orphan_gc_thread x) (fsm_worker x) x) ≫= fun _ =>
      modify (set_segment None false))
    (set_threads true false (fsm_worker x) (set_fw (set_shm w1 (fw x)) x))) as ->.
  { unfold shm_cleanup. erewrite bind_Ret by (by apply in_world_Ret).
    erewrite bind_Ret by (apply in_world_Ret; by apply zoom_Ret).
    erewrite bind_Ret by done. erewrite bind_Ret by (by apply assert_true).
    erewrite bind_Ret by (apply in_world_Ret; exact Hr).
    erewrite bind_Ret by done. erewrite bind_Ret by done. cbn [raft_watcher set_threads set_fw].
    rewrite Hw. unfold mbind, M_bind. by destruct (join_watcher _ _). }
  unfold join_watcher, mbind, M_bind, get. cbn [raft_pid set_threads set_fw].
  destruct (watch_raft_proc (raft_pid x) waits); cbn; [|by eauto..].
  eexists. split; [done|]. cbn. rewrite Hb. split_and!; try done.
  constructor; cbn; try done; [by rewrite Hb|]. apply (Orphans.swept_from w wc); [done..|].
  by destruct here.
Qed.

Lemma snapshot_idle host (f : fworld (U := U)) : snapshot_before_close host (SnapshotAt None 0) f = Ret () f.
Proof. unfold snapshot_before_close. erewrite bind_Ret by done. by destruct (snapshot_worker f). Qed.

(** The worker that missed [close] sleeps. *)
Lemma worker_sleeps fsm (f : fworld (U := U)) :
  ABQ.empty (fsm_queue (scoreboard (shm f))) = true -> sched (shm f) = [] ->
  exists f', fsm_rest fsm FsmPastCheck f = Block f'.
Proof.
  intros He Hs. destruct f as [w sq sw u]. cbn in He, Hs.
  assert (fsm_take_late w = Block (set_sched [] w)) as Ht.
  { unfold fsm_take_late. erewrite bind_Ret by done. cbn [get_queue]. rewrite He.
    unfold mbind, M_bind, await. rewrite Hs. cbn [await_loop get_queue]. by rewrite He. }
  eexists. unfold fsm_rest, catch, mbind, M_bind, in_shm, zoom. cbn [shm]. by rewrite Ht.
Qed.


End Facts.

(** ** Concrete runs *)

Definition good_os : OS := {|
  os_stat _ := StatOk;
  os_unlink _ := true;
  os_create _ _ := true;
  os_open _ := true;
  os_getenv _ := None;
  os_fork := 77;
  os_exec _ := true;
  os_zlog _ _ := 0
|}.

(** The same system in the child. *)
Definition child_os : OS := {|
  os_stat _ := StatOk;
  os_unlink _ := true;
  os_create _ _ := true;
  os_open _ := true;
  os_getenv _ := None;
  os_fork := 0;
  os_exec _ := true;
  os_zlog _ _ := 0
|}.

Definition demo_config : RaftConfig := default_config demo_mem.

(** Before [raft_init]; the Raft process will report that it runs. *)
Definition demo_proc : proc (U := Z) :=
  Proc (FWorld (init_world false [ETick 5; ESetRunning]) (Deque.Dq [] true) false 0)
    None None false 0 false false false [].

Definition demo_running : proc (U := Z) :=
  match raft_init good_os demo_mem None demo_proc with Ret _ x => x | _ => demo_proc end.

Lemma watch_verdict_witness :
  watch_raft_proc 77 [WaitResult 77 4991 true false; WaitResult 77 0 true false] =
    WatchReturns (ExitedNormally 77).
Proof.
  destruct (watch_verdict 77 [WaitResult 77 4991 true false] 77 0 true false [])
    as (r & Hr & Hw); [|lia|reflexivity|done|].
  - constructor; [|constructor]. split; [simpl; lia|reflexivity].
  - vm_compute in Hr. injection Hr as <-. exact Hw.
Defined.

Lemma raft_init_outcome_witness :
  exists x', raft_init good_os demo_mem None demo_proc = Ret 77 x' /\ raft_watcher x' = true /\
    is_raft_running (scoreboard (shm (fw x'))) = true.
Proof.
  destruct (proj2 (raft_init_outcome good_os demo_mem None demo_proc demo_config SHM_PATH eq_refl
    ltac:(vm_compute; reflexivity))) as (x' & Hr & _ & Hw & _ & _ & Hrun & _);
    [reflexivity|done|reflexivity..|by right; left|].
  exists x'. split; [exact Hr|]. by split.
Defined.

Lemma raft_child_argv_witness :
  exists x', shm_init good_os SHM_PATH true (Some demo_config) demo_proc = Ret () x' /\
    run_raft child_os x' =
      Ret (Child [Some (lit "raft_if"); Some (lit "--shm-path"); Some SHM_PATH; None]) x'.
Proof.
  eexists. split; [reflexivity|].
  eapply (raft_child_argv good_os child_os SHM_PATH demo_config demo_proc);
    [|vm_compute; reflexivity|reflexivity|reflexivity|reflexivity].
  constructor; vm_compute; try reflexivity; by split.
Defined.

(** The collector has just timed out. *)
Definition demo_places (here : fsm_place) : places := Places here (SnapshotAt None 0) (GcFetched None).


End Process.
