(* ===== verification/Client.v ===== *)
(** * The example client

    raft_client.c: a state machine that counts the letters of its commands, its
    snapshots, and the functions of the program that use the library.  The
    options are in ClientOpts.v and [main] is in ClientMain.v. *)

From stdpp Require Import base tactics list strings gmap relations.
From Stdlib Require Import ZArith Lia Ascii.
From S2P Require Import Prelude CString Defs Config Jsmn ArrayQueue Deque Slot Shm ShmInv ShmSpec CIf FsmWorker FsmSpec Process.

Module Client.
Import CString Defs Slot Shm FsmWorker.

(** The allocator of the C library. *)
Class Malloc := {
  malloc : gset Z -> option Z;
  malloc_fresh used p : malloc used = Some p -> (p ∉ used) /\ 0 < p < 2 ^ 64
}.

(** ** The state machine *)

(** [heap]: the [uint32_t] objects that are allocated; [memory]: the bytes of
    the command buffers; [files]: the snapshots. *)
Record client := MkClient {
  letter_count : Z;
  heap : gmap Z Z;
  memory : gmap Z chars;
  files : gmap chars chars
}.

Definition set_letter_count (v : Z) (u : client) : client :=
  MkClient v (heap u) (memory u) (files u).
Definition set_heap (v : gmap Z Z) (u : client) : client :=
  MkClient (letter_count u) v (memory u) (files u).
Definition set_memory (v : gmap Z chars) (u : client) : client :=
  MkClient (letter_count u) (heap u) v (files u).
Definition set_files (v : gmap chars chars) (u : client) : client :=
  MkClient (letter_count u) (heap u) (memory u) v.

(** What can go wrong with a file. *)
Record IO := MkIO {
  can_create : chars -> bool;
  can_read : chars -> bool;
  can_write : chars -> bool;
  can_close : chars -> bool
}.

(** The loop of [update_count] over [n] bytes; [None] is a read past the end. *)
Fixpoint count_letters (n : nat) (buf : chars) (count : Z) : option Z :=
  match n with
  | O => Some count
  | S n =>
      match buf with
      | [] => None
      | c :: buf =>
          if isalpha c then count_letters n buf (u32 (count + 1))
          else if Ascii.eqb c NUL then Some count
          else count_letters n buf count
      end
  end.

Section Code.
Context `{Segment} `{Malloc}.

(** [*p = v] for a new object, whose address is returned. *)
Definition new_object (v : Z) : M client (option Z) :=
  u ← get ;
  match malloc (dom (heap u)) with
  | Some p => modify (set_heap (<[p := v]> (heap u))) ;; mret (Some p)
  | None => mret None
  end.

Definition load (p : Z) : M client Z :=
  u ← get ;
  match heap u !! p with Some v => mret v | None => fail BadPointer end.

Definition free (p : Z) : M client () :=
  u ← get ;
  match heap u !! p with
  | Some _ => modify (set_heap (delete p (heap u)))
  | None => fail BadPointer
  end.

(** The bytes at an address. *)
Definition bytes_at (p : Z) : M client chars :=
  u ← get ;
  match memory u !! p with Some b => mret b | None => fail BadPointer end.

Definition update_count (buf len : Z) : M client Z :=
  b ← bytes_at buf ;
  u ← get ;
  match count_letters (Z.to_nat len) b (letter_count u) with
  | None => fail OutOfBounds
  | Some n =>
      modify (set_letter_count n) ;;
      result ← new_object n ;
      match result with Some p => mret p | None => fail AssertFailed end
  end.

Definition FSMApply (index term : Z) (type : RaftLogType) (cmd len : Z) : M client Z :=
  update_count cmd len.

(** The address of [write_snapshot] *)
Variable write_snapshot_ptr : Z.

Definition FSMBeginSnapshot (path : chars) (s : Z) : M (fworld (U := client)) () :=
  u ← call_user get ;
  state ← call_user (new_object (letter_count u)) ;
  match state with
  | None => fail (ExitProcess 1)
  | Some p => raft_fsm_take_snapshot s p write_snapshot_ptr
  end.

Variable io : IO.

(** [fscanf(src, "%u", &val)] *)
Definition scan_u (text : chars) : option Z :=
  match scan_int text with
  | Some _ => Some (u32 (strtoul text).1)
  | None => None
  end.

Definition FSMRestore (path : chars) : M client Z :=
  u ← get ;
  match (if can_read io path then files u !! path else None) with
  | None => mret 1
  | Some text =>
      if negb (can_close io path) then mret 1
      else match scan_u text with
           | Some val => modify (set_letter_count val) ;; mret 0
           | None => mret 1
           end
  end.

(** [fprintf] appends to the file; nothing is written if it fails. *)
Definition fprintf (sink text : chars) : M client Z :=
  if can_write io sink then
    u ← get ;
    modify (set_files (<[sink := default [] (files u !! sink) ++ text]> (files u))) ;;
    mret (Z.of_nat (length text))
  else mret (-1).

Definition write_snapshot (handle : Z) (sink : chars) : M client Z :=
  state ← load handle ;
  n ← fprintf sink (print_u state ++ ["010"%char]) ;
  free handle ;;
  mret (if n <? 0 then 1 else 0).

Definition fsm_def : RaftFSM (U := client) := MkFSM FSMApply FSMBeginSnapshot FSMRestore.

(** The C library and the functions by their address. [fopen(path, "w")] makes
    an empty file. *)
Definition host : Host (U := client) := MkHost
  (fun path =>
     if can_create io path then u ← get ; modify (set_files (<[path := []]> (files u))) ;; mret true
     else mret false)
  (fun f h sink => if f =? write_snapshot_ptr then write_snapshot h sink else fail BadPointer)
  (fun path => mret (can_close io path)).

(** ** The program *)

Definition BUFSIZE : Z := 256.

(** [send_command]: the count that is printed, or an error message. *)
Definition send_command (buf : Z) : M (fworld (U := client)) (option Z) :=
  f ← in_shm (CIf.raft_apply buf BUFSIZE 0) ;
  err ← in_shm (CIf.raft_future_wait f) ;
  out ← (if decide (err = RAFT_SUCCESS) then
           r ← in_shm (CIf.raft_future_get_fsm_reply f true) ;
           let cur_count_p := default 0 (snd r) in
           assert (negb (cur_count_p =? 0)) ;;
           n ← call_user (load cur_count_p) ;
           call_user (free cur_count_p) ;;
           mret (Some n)
         else mret None) ;
  in_shm (CIf.raft_future_dispose f) ;;
  in_shm (free_raft_buffer buf) ;;
  mret out.

(** [take_snapshot]: whether the snapshot is complete. *)
Definition take_snapshot : M (fworld (U := client)) bool :=
  sf ← in_shm CIf.raft_snapshot ;
  err ← in_shm (CIf.raft_future_wait sf) ;
  in_shm (CIf.raft_future_dispose sf) ;;
  mret (bool_decide (err = RAFT_SUCCESS)).

(** What the program prints. *)
Inductive output := Count (n : Z) | RaftFailed | SnapshotDone (ok : bool).

Definition reported (r : option Z) : output :=
  match r with Some n => Count n | None => RaftFailed end.

(** The bytes of a buffer that has just been allocated. *)
Variable garbage : Z -> chars.

(** A buffer with the bytes [fill b], [b] being what was there. *)
Definition command_buffer (fill : chars -> chars) : M (fworld (U := client)) Z :=
  buf ← in_shm (alloc_raft_buffer BUFSIZE) ;
  call_user (modify (fun u => set_memory (<[buf := fill (garbage buf)]> (memory u)) u)) ;;
  mret buf.

(** [snprintf(buf, size, ...)] *)
Definition snprintf (dst : chars) (size : nat) (text : chars) : chars :=
  let written := firstn (size - 1) text ++ [NUL] in
  written ++ skipn (length written) dst.

Definition auto_text (i : Z) : chars := lit "Raft command #" ++ print_u i.

(** The loop of [run_auto]: round [i], [n] rounds to go. *)
Fixpoint auto_loop (snapshot_period : Z) (n : nat) (i : Z) : M (fworld (U := client)) (list output) :=
  match n with
  | O => mret []
  | S n =>
      buf ← command_buffer (fun b => snprintf b 256 (auto_text i)) ;
      r ← send_command buf ;
      snap ← (if negb (snapshot_period =? 0) && (i mod snapshot_period =? 0) then
                ok ← take_snapshot ; mret [SnapshotDone ok]
              else mret []) ;
      rest ← auto_loop snapshot_period n (i + 1) ;
      mret (reported r :: snap ++ rest)
  end.

Definition run_auto (runs snapshot_period : Z) : M (fworld (U := client)) (list output) :=
  auto_loop snapshot_period (Z.to_nat runs) 1.

(** The line up to the newline. *)
Fixpoint chop (line : chars) : chars :=
  match line with
  | [] => []
  | c :: rest => if Ascii.eqb c "010" then [] else c :: chop rest
  end.

(** [run_interactive] on the lines that [fgets] returns. *)
Fixpoint run_interactive (lines : list chars) : M (fworld (U := client)) (list output) :=
  match lines with
  | [] => mret []
  | l :: lines =>
      let line := chop l in
      if decide (line = lit "S" \/ line = lit "s") then
        ok ← take_snapshot ;
        rest ← run_interactive lines ;
        mret (SnapshotDone ok :: rest)
      else if decide (line = lit "Q" \/ line = lit "q") then mret []
      else
        buf ← command_buffer (fun b => strncpy b line 255) ;
        r ← send_command buf ;
        rest ← run_interactive lines ;
        mret (reported r :: rest)
  end.

End Code.
End Client.
