(* ===== verification/ClientOpts.v ===== *)
(** * The options of the example client

    The option handling of raft_client.c: the client has options of its own and
    passes those of the library on, from one merged table. *)

From stdpp Require Import base tactics list strings.
From Stdlib Require Import ZArith Lia Ascii.
From S2P Require Import Prelude CString Defs Config.

Module ClientOpts.
Import CString Config.

(** ** Tables *)

Definition chr (c : ascii) : Z := code c.

(** [LONG_OPTS] of raft_client.c *)
Definition CLIENT_OPTS : list option_rec := [
  Option "runs" required_argument (chr "r");
  Option "snapshots" required_argument (chr "s");
  Option "wait" required_argument (chr "w");
  Option "interactive" no_argument (chr "i");
  Option "help" no_argument (chr "h");
  Option "" no_argument 0].

(** [count_opts], at entry [i] with [n] tries left; [None] is a read outside
    the table. *)
Fixpoint count_from (n : nat) (i : Z) (op : list option_rec) : option Z :=
  match n with
  | O => Some (-1)
  | S n =>
      match op with
      | [] => None
      | o :: rest => if String.eqb (opt_name o) "" then Some i else count_from n (i + 1) rest
      end
  end.

Definition count_opts (op : list option_rec) : M () Z := fun w =>
  match count_from 256 0 op with Some n => Ret n w | None => Fault OutOfBounds end.

(** [memory]: whether [malloc] succeeds. *)
Definition merge_opts (memory : bool) (a b : list option_rec) : M () (option (list option_rec)) :=
  n_a ← count_opts a ;
  assert (0 <=? n_a) ;;
  n_b ← count_opts b ;
  assert (0 <=? n_b) ;;
  if memory then mret (Some (firstn (Z.to_nat n_a) a ++ firstn (Z.to_nat n_b + 1) b))
  else mret None.

(** [print_opt_desc]: the line that is printed. *)
Definition print_opt_desc (o : option_rec) : string :=
  match opt_has_arg o with
  | no_argument => "  --" ++ opt_name o
  | required_argument => "  --" ++ opt_name o ++ "=ARG"
  | optional_argument => "  --" ++ opt_name o ++ "[=ARG]"
  end.

Fixpoint print_opt_summary (op : list option_rec) : option (list string) :=
  match op with
  | [] => None
  | o :: rest =>
      if String.eqb (opt_name o) "" then Some []
      else cons (print_opt_desc o) <$> print_opt_summary rest
  end.

(** [print_help]: the lines, unless a table has no end. *)
Definition print_help (argv0 : string) : option (list string) :=
  client ← print_opt_summary CLIENT_OPTS ;
  raft ← print_opt_summary raft_getopt_long_opts ;
  Some (["usage: " ++ argv0 ++ " [options]"; "Client options:"]%string ++ client ++
        ["Raft options:"]%string ++ raft).

Example help_of_client :
  option_map length (print_help "raft_client") = Some 16%nat /\
  print_opt_desc (Option "runs" required_argument (chr "r")) = "  --runs=ARG"%string.
Proof. by vm_compute. Qed.

(** ** Parsing *)

(** The static variables that options change. *)
Record settings := MkSettings {
  runs : Z; snapshot_period : Z; tv_sec : Z; tv_nsec : Z; interactive : bool }.

Definition default_settings : settings := MkSettings 20 0 1 0 false.

Definition set_runs (v : Z) (s : settings) : settings :=
  MkSettings v (snapshot_period s) (tv_sec s) (tv_nsec s) (interactive s).
Definition set_snapshot_period (v : Z) (s : settings) : settings :=
  MkSettings (runs s) v (tv_sec s) (tv_nsec s) (interactive s).
Definition set_delay (secs nanos : Z) (s : settings) : settings :=
  MkSettings (runs s) (snapshot_period s) secs nanos (interactive s).
Definition set_interactive (s : settings) : settings :=
  MkSettings (runs s) (snapshot_period s) (tv_sec s) (tv_nsec s) true.

Abbreviation opt_state := (RaftConfig * settings)%type.

Definition in_config {A : Type} (m : M RaftConfig A) : M opt_state A :=
  zoom fst (fun c x => (c, snd x)) m.
Definition set (f : settings -> settings) : M opt_state () := modify (fun x => (fst x, f (snd x))).

(** [strtoul(optarg, NULL, 10)] *)
Definition number (optarg : option chars) : M opt_state Z :=
  match optarg with Some a => mret (strtoul a).1 | None => fail BadPointer end.

(** The [case] of an option that is not one of the library: [Some rc] leaves
    the loop. *)
Definition client_option (c : Z) (optarg : option chars) : M opt_state (option Z) :=
  if c =? chr "n" then v ← number optarg ; set (set_runs (u32 v)) ;; mret None
  else if c =? chr "s" then v ← number optarg ; set (set_snapshot_period (u32 v)) ;; mret None
  else if c =? chr "w" then
    usec ← number optarg ;
    set (set_delay (usec / 1000000) (usec mod 1000000 * 1000)) ;;
    mret None
  else if c =? chr "i" then set set_interactive ;; mret None
  else if c =? chr "h" then mret (Some (-3))
  else mret (Some (-1)).

(** The loop of [parse_opts] on what [getopt_long] returns, a value and
    [optarg] each time; the end of the list is its -1. *)
Fixpoint parse_loop (results : list (Z * option chars)) : M opt_state Z :=
  match results with
  | [] => mret 0
  | (c, optarg) :: rest =>
      if is_raft_option c then
        in_config (raft_apply_option false c optarg) ;;
        parse_loop rest
      else
        r ← client_option c optarg ;
        match r with Some rc => mret rc | None => parse_loop rest end
  end.

(** [getopt]: what [getopt_long] returns, given the table. *)
Definition parse_opts (memory : bool) (getopt : list option_rec -> list (Z * option chars)) :
    M opt_state Z := fun x =>
  match merge_opts memory CLIENT_OPTS raft_getopt_long_opts () with
  | Ret (Some combined) _ => parse_loop (getopt combined) x
  | Ret None _ => Ret (-2) x
  | Fault f => Fault f
  | Throw _ => Throw x
  | Block _ => Block x
  end.

(** The exit status of [main] after [parse_opts], unless it goes on. *)
Definition exit_status (rc : Z) : option Z :=
  if rc =? 0 then None
  else if rc =? -1 then Some 2
  else if rc =? -2 then Some 1
  else if rc =? -3 then Some 0
  else None.

(** ** The merged table *)

Definition named (o : option_rec) : Prop := opt_name o <> ""%string.

Lemma count_from_table n i os t rest :
  Forall named os -> opt_name t = ""%string -> (length os < n)%nat ->
  count_from n i (os ++ t :: rest) = Some (i + Z.of_nat (length os)).
Proof.
  revert n i. induction os as [|o os IH]; intros n i Hos Ht Hn; (destruct n as [|n]; [cbn in Hn; lia|]); cbn.
  - rewrite Ht. cbn. f_equal. lia.
  - apply Forall_cons in Hos as [Ho Hos]. destruct (String.eqb_spec (opt_name o) ""); [done|].
    rewrite IH by (done || (cbn in Hn; lia)). f_equal. lia.
Qed.

Lemma count_from_long n i os rest :
  Forall named os -> length os = n -> count_from n i (os ++ rest) = Some (-1).
Proof.
  revert n i. induction os as [|o os IH]; intros n i Hos <-; cbn; [done|].
  apply Forall_cons in Hos as [Ho Hos]. destruct (String.eqb_spec (opt_name o) ""); [done|].
  by apply IH.
Qed.

Lemma merge_opts_eq os_a t_a rest_a os_b t_b rest_b :
  Forall named os_a -> opt_name t_a = ""%string -> (length os_a < 256)%nat ->
  Forall named os_b -> opt_name t_b = ""%string -> (length os_b < 256)%nat ->
  merge_opts true (os_a ++ t_a :: rest_a) (os_b ++ t_b :: rest_b) () = Ret (Some (os_a ++ os_b ++ [t_b])) ().
Proof.
  intros Ha Hta La Hb Htb Lb. unfold merge_opts, count_opts.
  erewrite bind_Ret by (by rewrite count_from_table). erewrite bind_Ret by (apply assert_true; lia).
  erewrite bind_Ret by (by rewrite count_from_table). erewrite bind_Ret by (apply assert_true; lia).
  rewrite !Z.add_0_l, !Nat2Z.id, take_app_length.
  change (os_b ++ t_b :: rest_b) with (os_b ++ [t_b] ++ rest_b). rewrite (app_assoc os_b [t_b]).
  replace (length os_b + 1)%nat with (length (os_b ++ [t_b])) by (rewrite length_app; done).
  by rewrite take_app_length.
Qed.

(** [merge_opts] builds a proper table for [getopt_long]: the options of the
    first table, then those of the second, then one terminator; whatever
    follows the terminators is not looked at. A table of more than 255 options
    is stopped by the assertion, and a failed allocation gives a null pointer. *)
Theorem merge_opts_table os_a t_a rest_a os_b t_b rest_b :
  Forall named os_a -> opt_name t_a = ""%string ->
  Forall named os_b -> opt_name t_b = ""%string -> (length os_b < 256)%nat ->
  ((length os_a < 256)%nat ->
   merge_opts true (os_a ++ t_a :: rest_a) (os_b ++ t_b :: rest_b) () =
     Ret (Some (os_a ++ os_b ++ [t_b])) () /\
   merge_opts false (os_a ++ t_a :: rest_a) (os_b ++ t_b :: rest_b) () = Ret None ()) /\
  ((256 <= length os_a)%nat -> forall mem,
   merge_opts mem (os_a ++ t_a :: rest_a) (os_b ++ t_b :: rest_b) () = Fault AssertFailed).
Proof.
  intros Ha Hta Hb Htb Lb. split.
  - intros La. split; [by apply merge_opts_eq|]. unfold merge_opts, count_opts.
    erewrite bind_Ret by (by rewrite count_from_table). erewrite bind_Ret by (apply assert_true; lia).
    erewrite bind_Ret by (by rewrite count_from_table). by erewrite bind_Ret by (apply assert_true; lia).
  - intros La mem. unfold merge_opts.
    assert (count_opts (os_a ++ t_a :: rest_a) () = Ret (-1) ()) as Hc; [|by erewrite bind_Ret by exact Hc].
    unfold count_opts. rewrite <- (take_drop 256 os_a), <- app_assoc.
    rewrite count_from_long; [done|by apply Forall_take|]. rewrite length_take. lia.
Qed.

(** ** What parsing does *)

(** The options that are accepted, as [getopt_long] returns them. *)
Inductive accepted : Z * option chars -> (RaftConfig -> RaftConfig) -> (settings -> settings) -> Prop :=
  | acc_raft o arg : o <> END_OPTS -> (needs_arg o = true -> is_Some arg) ->
      accepted (getopt_code o, arg) (effect o (default [] arg)) id
  | acc_runs a : accepted (chr "n", Some a) id (set_runs (u32 (strtoul a).1))
  | acc_snapshots a : accepted (chr "s", Some a) id (set_snapshot_period (u32 (strtoul a).1))
  | acc_wait a : accepted (chr "w", Some a) id
      (set_delay ((strtoul a).1 / 1000000) ((strtoul a).1 mod 1000000 * 1000))
  | acc_interactive arg : accepted (chr "i", arg) id set_interactive.

(** A sequence of them, with its effect on the configuration and on the settings. *)
Inductive accepted_all :
    list (Z * option chars) -> (RaftConfig -> RaftConfig) -> (settings -> settings) -> Prop :=
  | acc_nil : accepted_all [] id id
  | acc_cons r f g rs f' g' : accepted r f g -> accepted_all rs f' g' ->
      accepted_all (r :: rs) (f' ∘ f) (g' ∘ g).

Lemma parse_loop_accepted rs f g rest c s :
  accepted_all rs f g -> parse_loop (rs ++ rest) (c, s) = parse_loop rest (f c, g s).
Proof.
  intros Hacc. revert c s. induction Hacc as [|r f g rs f' g' Hr Hacc IH]; intros c s; [done|].
  destruct Hr as [o arg Ho Ha| | | |]; cbn [app parse_loop].
  - unfold is_raft_option. rewrite (proj2 (is_valid_code _)) by eauto.
    unfold in_config. erewrite bind_Ret by (apply zoom_Ret; cbn; by apply raft_apply_option_effect).
    apply IH.
  - apply IH.
  - apply IH.
  - apply IH.
  - apply IH.
Qed.

(** A value that [parse_opts] does not know. *)
Definition unknown (c : Z) : Prop :=
  is_raft_option c = false /\ Forall (fun a => c <> chr a) ["n"; "s"; "w"; "i"; "h"]%char.

Lemma parse_loop_unknown c arg rest x : unknown c -> parse_loop ((c, arg) :: rest) x = Ret (-1) x.
Proof.
  intros [Hr Hc]. cbn [parse_loop]. rewrite Hr. unfold client_option.
  repeat (apply Forall_cons in Hc as [?%Z.eqb_neq Hc]).
  by repeat match goal with E : (c =? _) = false |- _ => rewrite E; clear E end.
Qed.

Lemma merged : merge_opts true CLIENT_OPTS raft_getopt_long_opts () =
  Ret (Some (firstn 5 CLIENT_OPTS ++ LONG_OPTS)) ().
Proof. reflexivity. Qed.

(** [parse_opts] applies the options that it accepts in their order, those of
    the library to the configuration and its own to the settings, without
    interference; it returns 0 at the end of the options, -3 at the request for
    help and -1 at anything it does not know, keeping what was set before; [main]
    then goes on, or exits with status 0 or 2. *)
Theorem parse_opts_outcome getopt rs f g rest c s :
  getopt (firstn 5 CLIENT_OPTS ++ LONG_OPTS) = rs ++ rest -> accepted_all rs f g ->
  (rest = [] -> parse_opts true getopt (c, s) = Ret 0 (f c, g s) /\ exit_status 0 = None) /\
  (forall arg rest', rest = (chr "h", arg) :: rest' ->
     parse_opts true getopt (c, s) = Ret (-3) (f c, g s) /\ exit_status (-3) = Some 0) /\
  (forall v arg rest', rest = (v, arg) :: rest' -> unknown v ->
     parse_opts true getopt (c, s) = Ret (-1) (f c, g s) /\ exit_status (-1) = Some 2).
Proof.
  intros Hg Hacc. unfold parse_opts. rewrite merged, Hg, (parse_loop_accepted rs f g) by done.
  split_and!; [by intros ->|by intros arg rest' ->|].
  intros v arg rest' -> Hv. by rewrite parse_loop_unknown.
Qed.

(** The pause of [--wait] is the time that was given: the seconds and
    nanoseconds add up to the microseconds of the argument, and the nanoseconds
    are less than a second, as [nanosleep] demands. *)
Theorem wait_option_delay a c s :
  exists s', parse_loop [(chr "w", Some a)] (c, s) = Ret 0 (c, s') /\
    tv_sec s' * 10 ^ 9 + tv_nsec s' = (strtoul a).1 * 1000 /\
    0 <= tv_sec s' < 2 ^ 63 /\ 0 <= tv_nsec s' < 10 ^ 9 /\
    runs s' = runs s /\ snapshot_period s' = snapshot_period s /\ interactive s' = interactive s.
Proof.
  eexists. split; [reflexivity|]. cbn. pose proof (strtoul_range a).
  split_and!; try done; Z.to_euclidean_division_equations; lia.
Qed.

(** The option [--runs] of the table is refused: its value ['r'] has no case,
    while the case ['n'] is only reached by [-n]. *)
Theorem runs_option_refused a c s :
  Option "runs" required_argument (chr "r") ∈ CLIENT_OPTS /\
  parse_loop [(chr "r", Some a)] (c, s) = Ret (-1) (c, s) /\ exit_status (-1) = Some 2.
Proof. split; [by left|done]. Qed.

Lemma merge_opts_table_witness :
  merge_opts true CLIENT_OPTS LONG_OPTS () = Ret (Some (firstn 5 CLIENT_OPTS ++ firstn 8 LONG_OPTS ++ [Option "" no_argument 0])) ().
Proof.
  refine (proj1 (proj1 (merge_opts_table (firstn 5 CLIENT_OPTS) (Option "" no_argument 0) []
    (firstn 8 LONG_OPTS) (Option "" no_argument 0) [] _ _ _ _ _) _));
    [by repeat constructor|reflexivity|by repeat constructor|reflexivity|simpl; lia|simpl; lia].
Defined.

Lemma parse_opts_outcome_witness :
  parse_opts true (fun _ => [(getopt_code Port, Some (lit "9002")); (chr "i", None); (chr "?", None)])
    (demo_mem, default_settings) =
  Ret (-1) (effect Port (lit "9002") demo_mem, set_interactive default_settings).
Proof.
  refine (proj1 (proj2 (proj2 (parse_opts_outcome _ [(getopt_code Port, Some (lit "9002")); (chr "i", None)]
    (id ∘ id ∘ effect Port (lit "9002")) (id ∘ set_interactive ∘ id) [(chr "?", None)]
    demo_mem default_settings _ _)) (chr "?") None [] _ _)).
  - reflexivity.
  - apply (acc_cons _ _ _ _ (id ∘ id)). { by apply (acc_raft Port (Some (lit "9002"))). }
    apply acc_cons; [apply acc_interactive|apply acc_nil].
  - reflexivity.
  - split; [reflexivity|]. by repeat constructor.
Defined.

End ClientOpts.
