(* ===== verification/ClientSpec.v ===== *)
(** * Correctness of the example client

    The client's state machine on top of the FSM worker: the count is the number
    of letters of the commands, every caller gets its own running total, and a
    snapshot restores the state in which it was requested.  On the other side of
    the segment, sending a command leaves nothing behind. *)

From stdpp Require Import base tactics list strings gmap relations.
From Stdlib Require Import ZArith Lia Ascii.
From S2P Require Import Prelude CString Defs Config Jsmn ArrayQueue Deque Slot Shm ShmInv ShmSpec CIf CIfSpec FsmWorker FsmSpec Process Client.

Module ClientSpec.
Import CString Defs Slot Shm ShmInv ShmSpec FsmWorker FsmSpec Client.

(** ** Counting *)

(** The bytes before the first zero. *)
Fixpoint upto_nul (b : chars) : chars :=
  match b with
  | [] => []
  | c :: b => if Ascii.eqb c NUL then [] else c :: upto_nul b
  end.

(** The letters of a command of [len] bytes. *)
Definition letters (len : Z) (b : chars) : Z := countb isalpha (upto_nul (firstn (Z.to_nat len) b)).

Lemma count_letters_eq n b c :
  0 <= c < 2 ^ 32 -> (n <= length b)%nat ->
  count_letters n b c = Some (u32 (c + countb isalpha (upto_nul (firstn n b)))).
Proof.
  revert n c. induction b as [|x b IH]; intros [|n] c Hc Hn; cbn [length count_letters firstn upto_nul countb] in *;
    [f_equal; by rewrite Z.add_0_r, wrap_small|lia|f_equal; by rewrite Z.add_0_r, wrap_small|].
  destruct (Ascii.eqb_spec x NUL) as [->|Hx].
  - cbn. f_equal. by rewrite Z.add_0_r, wrap_small.
  - cbn [countb]. destruct (isalpha x); rewrite IH by (lia || apply wrap_range; lia).
    + f_equal. rewrite wrap_add_l. f_equal. lia.
    + done.
Qed.

(** The running totals of a sequence of commands, each with its number of letters. *)
Fixpoint totals (c : Z) (ls : list Z) : list Z :=
  match ls with
  | [] => []
  | l :: ls => u32 (c + l) :: totals (u32 (c + l)) ls
  end.

Definition total (c : Z) (ls : list Z) : Z := u32 (c + foldr Z.add 0 ls).

Lemma total_cons c l ls : total c (l :: ls) = total (u32 (c + l)) ls.
Proof. unfold total. cbn [foldr]. rewrite wrap_add_l. f_equal. lia. Qed.

Section Spec.
Context `{Segment} `{Malloc}.
(** [malloc] succeeds as long as there are few objects. *)
Hypothesis malloc_ok : forall used, Z.of_nat (size used) < 2 ^ 32 -> is_Some (malloc used).

(** There is room for [n] more objects. *)
Definition heap_room (n : nat) (u : client) : Prop :=
  Z.of_nat (size (heap u)) + Z.of_nat n <= 2 ^ 32.

Variable write_snapshot_ptr : Z.
Hypothesis ptr_not_null : write_snapshot_ptr <> 0.
Variable io : IO.

Abbreviation fsm := (fsm_def write_snapshot_ptr io).

(** A state whose count is a [uint32_t]. *)
Definition count_ok (u : client) : Prop := 0 <= letter_count u < 2 ^ 32.

(** [u'] comes after [u]: the buffers and files are the same, and every object
    is still there. *)
Definition later (u u' : client) : Prop :=
  memory u' = memory u /\ files u' = files u /\ heap u ⊆ heap u'.

Lemma later_trans u1 u2 u3 : later u1 u2 -> later u2 u3 -> later u1 u3.
Proof.
  intros (M1 & F1 & H1) (M2 & F2 & H2). split_and!; [congruence..|by etrans].
Qed.

Lemma new_object_eq v u : heap_room 1 u -> exists p,
  new_object v u = Ret (Some p) (set_heap (<[p := v]> (heap u)) u) /\
  heap u !! p = None /\ 0 < p < 2 ^ 64.
Proof.
  intros Hroom. unfold heap_room in Hroom.
  destruct (malloc_ok (dom (heap u))) as [p Hp]; [rewrite size_dom; lia|]. exists p.
  destruct (malloc_fresh _ _ Hp) as [Hf Hr]. split_and!; [|by apply not_elem_of_dom|lia..].
  unfold new_object. erewrite bind_Ret by done. by rewrite Hp.
Qed.

(** One command. *)
Lemma FSMApply_eq i t ty cmd len b u :
  count_ok u -> heap_room 1 u -> memory u !! cmd = Some b -> len <= Z.of_nat (length b) -> exists p u',
    FSMApply i t ty cmd len u = Ret p u' /\ count_ok u' /\ later u u' /\ size (heap u') = S (size (heap u)) /\ 0 < p < 2 ^ 64 /\
    letter_count u' = u32 (letter_count u + letters len b) /\ heap u' !! p = Some (letter_count u').
Proof.
  intros Hc Hroom Hm Hl. set (n := u32 (letter_count u + letters len b)).
  destruct (new_object_eq n (set_letter_count n u) Hroom) as (p & Hn & Hp & Hr).
  exists p, (set_heap (<[p := n]> (heap u)) (set_letter_count n u)). split_and!.
  - unfold FSMApply, update_count, bytes_at. erewrite bind_Ret; [|by erewrite bind_Ret by done; rewrite Hm].
    erewrite bind_Ret by done. rewrite count_letters_eq by (done || lia).
    erewrite bind_Ret by done. by erewrite bind_Ret by exact Hn.
  - apply wrap_range. lia.
  - split_and!; [done..|by apply insert_subseteq].
  - by apply map_size_insert_None.
  - lia.
  - lia.
  - done.
  - apply lookup_insert_eq.
Qed.

(** The command of a log entry and its number of letters. *)
Definition command_letters (u : client) (a : call_args) (l : Z) : Prop :=
  match a with
  | LogEntry _ _ _ h len => exists b, memory u !! CIf.address_from_handle h = Some b /\
      len <= Z.of_nat (length b) /\ l = letters len b
  | _ => False
  end.

Lemma command_letters_later u u' a l : later u u' -> command_letters u a l -> command_letters u' a l.
Proof. intros (Hm & _). destruct a; try done. intros (b & Hb & Hl). exists b. by rewrite Hm. Qed.

(** Many commands. *)
Lemma replay_client entries ls u :
  count_ok u -> heap_room (length entries) u -> Forall2 (command_letters u) entries ls -> exists resps u',
    replay fsm entries u = Ret resps u' /\ later u u' /\
    size (heap u') = (size (heap u) + length entries)%nat /\ count_ok u' /\
    letter_count u' = total (letter_count u) ls /\
    Forall2 (fun p n => 0 < p < 2 ^ 64 /\ heap u' !! p = Some n) resps (totals (letter_count u) ls).
Proof.
  revert ls u. induction entries as [|a entries IH]; intros ls u Hc Hroom Hall.
  - inv Hall. exists [], u. split_and!; try done.
    unfold total. cbn. by rewrite Z.add_0_r, wrap_small.
  - inv Hall as [|? l ? ls' Ha Hrest].
    destruct a as [| | |i tm ty h len| |]; try done. destruct Ha as (b & Hm & Hl & ->).
    destruct (FSMApply_eq i tm ty _ len b u Hc ltac:(unfold heap_room in *; cbn in Hroom; lia) Hm Hl) as (p & u1 & Hrun & Hc1 & Hlat & Hsz & Hp & Hn & Hheap).
    destruct (IH ls' u1 Hc1) as (resps & u2 & Hrep & Hlat2 & Hsz2 & Hc2 & Hn2 & Hresp);
      [unfold heap_room in *; cbn in Hroom; lia| |].
    { eapply Forall2_impl; [done|]. intros a' l'. by apply command_letters_later. }
    exists (p :: resps), u2. split_and!.
    + cbn [replay apply_entry fsm_apply]. erewrite bind_Ret by exact Hrun. by erewrite bind_Ret by exact Hrep.
    + apply (later_trans _ _ _ Hlat Hlat2).
    + rewrite Hsz2, Hsz. cbn. lia.
    + done.
    + by rewrite total_cons, <- Hn.
    + cbn [totals]. rewrite <- Hn. constructor; [|done]. split; [done|].
      eapply lookup_weaken; [exact Hheap|]. apply Hlat2.
Qed.

(** ** Snapshots *)

(** The system lets the program write and read the file. *)
Definition file_ok (path : chars) : Prop :=
  can_create io path = true /\ can_read io path = true /\ can_write io path = true /\
  can_close io path = true.

Lemma FSMBeginSnapshot_eq path p u : heap_room 1 u -> exists h,
  heap u !! h = None /\ 0 < h < 2 ^ 64 /\
  forall w sq sw, FSMBeginSnapshot write_snapshot_ptr path p (FWorld w sq sw u) =
    raft_fsm_take_snapshot p h write_snapshot_ptr
      (FWorld w sq sw (set_heap (<[h := letter_count u]> (heap u)) u)).
Proof.
  intros Hroom. destruct (new_object_eq (letter_count u) u Hroom) as (h & Hn & Hh & Hr). exists h. split; [done|].
  split; [done|]. intros w sq sw. unfold FSMBeginSnapshot.
  erewrite bind_Ret by (by apply call_user_Ret). by erewrite bind_Ret by (by apply call_user_Ret).
Qed.

(** The text of a snapshot. *)
Definition snapshot_text (n : Z) : chars := print_u n ++ ["010"%char].

Lemma write_sink_client path h n u :
  file_ok path -> heap u !! h = Some n ->
  write_sink (host write_snapshot_ptr io) path write_snapshot_ptr h u =
    Ret true (set_heap (delete h (heap u)) (set_files (<[path := snapshot_text n]> (files u)) u)).
Proof.
  intros (Hcr & _ & Hw & Hcl) Hh.
  assert (write_snapshot io h path (set_files (<[path := []]> (files u)) u) =
    Ret 0 (set_heap (delete h (heap u)) (set_files (<[path := snapshot_text n]> (files u)) u))) as Hrun.
  { unfold write_snapshot, load, fprintf, free. rewrite Hw.
    erewrite bind_Ret; [|by erewrite bind_Ret by done; cbn; rewrite Hh].
    erewrite bind_Ret by (by erewrite bind_Ret by done).
    erewrite bind_Ret; [|by erewrite bind_Ret by done; cbn; rewrite Hh].
    cbn. rewrite lookup_insert_eq, insert_insert_eq. cbn.
    by rewrite (proj2 (Z.ltb_ge _ 0)) by lia. }
  eapply (write_sink_eq _ path write_snapshot_ptr h u 0 _ _ _ true).
  - cbn. by rewrite Hcr.
  - cbn [call_func host]. rewrite Z.eqb_refl. exact Hrun.
  - cbn. by rewrite Hcl.
Qed.

Lemma scan_u_snapshot n : 0 <= n < 2 ^ 32 -> scan_u (snapshot_text n) = Some n.
Proof.
  intros Hn. unfold scan_u, snapshot_text.
  rewrite scan_int_print_u, strtoul_print_u by (done || lia). cbn. by rewrite wrap_small.
Qed.

Lemma FSMRestore_eq path n u :
  file_ok path -> files u !! path = Some (snapshot_text n) -> 0 <= n < 2 ^ 32 ->
  FSMRestore io path u = Ret 0 (set_letter_count n u).
Proof.
  intros (_ & Hr & _ & Hcl) Hf Hn. unfold FSMRestore. erewrite bind_Ret by done.
  by rewrite Hr, Hf, Hcl, scan_u_snapshot.
Qed.

(** ** Properties *)

(** C18: The example client counts letters: when the worker handles a sequence of
    commands, every request is answered with a pointer to an object that holds
    the number of letters seen up to and including that command, modulo 2^32;
    bytes after a zero byte do not count. No buffer, file or object is lost. *)
Theorem client_counts_letters ps rs entries ls w sq sw u :
  NoDup ps -> queued w (((Defs.FSMApply,.) <$> ps) ++ rs) -> commands_ready w ps entries ->
  count_ok u -> heap_room (length ps) u -> Forall2 (command_letters u) entries ls ->
  exists w' u', worker_steps fsm (length ps) (FWorld w sq sw u) = Ret () (FWorld w' sq sw u') /\
    queued w' rs /\ later u u' /\ letter_count u' = total (letter_count u) ls /\
    Forall2 (fun p n => exists s, slots w' !! p = Some s /\ state s = Success /\
      heap u' !! retval s = Some n) ps (totals (letter_count u) ls).
Proof.
  intros Hnd Hq Hrd Hc Hroom Hall. rewrite (Forall2_length _ _ _ Hrd) in Hroom.
  destruct (replay_client entries ls u Hc Hroom Hall) as (resps & u' & Hrep & Hlat & _ & _ & Hn & Hresp).
  destruct (worker_steps_eq fsm ps rs entries w sq sw u resps u' Hnd Hq Hrd Hrep)
    as (w' & Hrun & Hq' & Hans & _).
  exists w', u'. split_and!; try done.
  eapply Forall2_trans; [|exact Hans|exact Hresp].
  intros p r n (s & Hs & Hst & _ & Hr & _) [Hrange Hh]. exists s. split_and!; try done.
  rewrite Hr, wrap_small by lia. done.
Qed.

(** The worker begins a snapshot: the state is copied and the job queued. *)
Lemma begin_step w u p s rs path str :
  queued w ((Defs.FSMSnapshot, p) :: rs) -> ready w p s ->
  args s = Filename path -> c_str path = Some str -> str <> [] -> p <> 0 ->
  heap_room 1 u -> exists w1 s1 h, let u1 := set_heap (<[h := letter_count u]> (heap u)) u in
    fsm_worker_step fsm (FWorld w (Deque.Dq [] false) false u) =
      Ret () (FWorld w1 (Deque.Dq [MkJob p h write_snapshot_ptr] false) true u1) /\
    heap u !! h = None /\ queued w1 rs /\ ready w1 p s1 /\ args s1 = Filename path /\
    (forall q, q <> p -> slots w1 !! q = slots w !! q) /\
    (forall ps entries, p ∉ ps -> commands_ready w ps entries -> commands_ready w1 ps entries).
Proof.
  intros Hq Hr Ha Hc Hne Hp Hroom. destruct (FSMBeginSnapshot_eq str p u Hroom) as (h & Hh & Hhr & Hbegin).
  destruct (snapshot_step fsm w (Deque.Dq [] false) false u p s _ path str Hq Hr Ha Hc Hne)
    as (w0 & s1 & Hq0 & Hs0 & Ht1 & _ & Hta & _ & Hstep).
  exists (upd p s1 w0), s1, h. cbv zeta. split_and!; try done; try congruence.
  - rewrite Hstep. cbn [fsm_begin_snapshot fsm_def]. rewrite Hbegin. unfold raft_fsm_take_snapshot.
    rewrite !(fun z => proj2 (Z.eqb_neq z 0)) by (done || lia). done.
  - by apply queued_upd.
  - intros q Hqp. cbn. by rewrite lookup_insert_ne, Hs0 by done.
  - intros ps entries Hps Hcmd. by eapply commands_ready_upd.
Qed.

(** What a worker does for a snapshot request, commands that are already queued
    behind it, the snapshot job and a restore of the same file. *)
Definition snapshot_session (n : nat) : M (fworld (U := client)) () :=
  fsm_worker_step fsm ;;
  worker_steps fsm n ;;
  (job ← zoom snapshot_queue set_snapshot_queue Deque.take ;
   run_snapshot_job (host write_snapshot_ptr io) job) ;;
  fsm_worker_step fsm.

(** C12: A snapshot holds the state in which it was requested, and restoring it
    brings that state back: when the worker begins a snapshot, applies the
    commands that are queued behind the request, then the snapshot worker writes
    the file and the worker restores it, both requests are answered with
    success, the count is again what it was at the request, and the object that
    held the state is freed. *)
Theorem snapshot_restores p ps q entries ls w u s1 s2 path1 path2 str :
  p <> 0 -> NoDup (p :: q :: ps) ->
  queued w ((Defs.FSMSnapshot, p) :: ((Defs.FSMApply,.) <$> ps) ++ [(Defs.FSMRestore, q)]) ->
  ready w p s1 -> args s1 = Filename path1 -> c_str path1 = Some str -> str <> [] ->
  ready w q s2 -> args s2 = Filename path2 -> c_str path2 = Some str ->
  commands_ready w ps entries -> count_ok u -> Forall2 (command_letters u) entries ls ->
  file_ok str -> heap_room (S (length ps)) u ->
  exists w' u' s1' s2',
    snapshot_session (length ps) (FWorld w (Deque.Dq [] false) false u) =
      Ret () (FWorld w' (Deque.Dq [] false) true u') /\
    letter_count u' = letter_count u /\ files u' !! str = Some (snapshot_text (letter_count u)) /\
    slots w' !! p = Some s1' /\ state s1' = Success /\
    slots w' !! q = Some s2' /\ state s2' = Success /\
    size (heap u') = (size (heap u) + length ps)%nat.
Proof.
  intros Hp0 Hnd Hq Hr1 Ha1 Hc1 Hne Hr2 Ha2 Hc2 Hcmd Hcnt Hall Hfile Hroom.
  pose proof (Forall2_length _ _ _ Hcmd) as Hlen.
  apply NoDup_cons in Hnd as [[Hpq Hpps]%not_elem_of_cons Hnd]. apply NoDup_cons in Hnd as [Hqps Hnd].
  destruct (begin_step w u p s1 _ path1 str Hq Hr1 Ha1 Hc1 Hne Hp0 ltac:(unfold heap_room in *; lia))
    as (w1 & t1 & h & Hstep & Hh & Hq1 & Ht1 & Hta & Hs1 & Hcmd1).
  set (u1 := set_heap _ u) in Hstep.
  destruct (replay_client entries ls u1 Hcnt) as (resps & u2 & Hrep & Hlat & Hsize & _ & _ & _);
    [unfold heap_room in *; cbn; rewrite map_size_insert_None by done; lia|done|].
  destruct (worker_steps_eq fsm ps _ entries w1 (Deque.Dq [MkJob p h write_snapshot_ptr] false) true
    u1 resps u2 Hnd Hq1 (Hcmd1 _ _ Hpps Hcmd) Hrep) as (w2 & Hrun & Hq2 & _ & Hs2).
  assert (heap u2 !! h = Some (letter_count u)) as Hh2
    by (eapply lookup_weaken; [apply lookup_insert_eq|apply Hlat]).
  set (u3 := set_heap (delete h (heap u2)) (set_files (<[str := snapshot_text (letter_count u)]> (files u2)) u2)).
  destruct (run_snapshot_job_eq (host write_snapshot_ptr io) p h write_snapshot_ptr t1 w2 (Deque.Dq [] false) true
    u2 u3 true path1 str) as (s1' & Hjob & (_ & _ & _ & _ & _ & Hst1));
    [by destruct Ht1 as (?&?&?); split; [rewrite Hs2|]|done|done|by apply write_sink_client|].
  destruct (restore_step fsm (upd p s1' w2) (Deque.Dq [] false) true u3 q s2 [] path2 str 0
    (set_letter_count (letter_count u) u3)) as (w3 & s2' & _ & Hs3 & Hres & (_ & _ & _ & _ & _ & Hst2));
    [by apply queued_upd| |done|done|done|apply FSMRestore_eq; [done|apply lookup_insert_eq|done]|].
  { destruct Hr2 as (?&?&?). split; [|done]. cbn. by rewrite lookup_insert_ne, Hs2, Hs1 by done. }
  exists (upd q s2' w3), (set_letter_count (letter_count u) u3), s1', s2'. split_and!; try done.
  - unfold snapshot_session. erewrite bind_Ret by exact Hstep. erewrite bind_Ret by exact Hrun.
    erewrite bind_Ret by (erewrite bind_Ret by done; exact Hjob). exact Hres.
  - apply lookup_insert_eq.
  - cbn. rewrite lookup_insert_ne by done. rewrite Hs3. apply upd_lookup.
  - apply upd_lookup.
  - cbn. rewrite map_size_delete, Hh2, Hsize. cbn. rewrite map_size_insert_None by done.
    lia.
Qed.

End Spec.

(** ** The program side *)

Section Program.
Context `{Segment} `{Malloc}.

(** The buffers stay as they are while others work. *)
Definition buffers (B : gmap Z Z) (w : world) : Prop := bufs w = B.

Lemma buffers_env B e w : buffers B w -> buffers B (run_env e w).
Proof.
  intros Hb. destruct e; cbn; try done; [by case_match|]. unfold env_send. case_decide; [done|].
  by case_match.
Qed.

Lemma buffers_await B cond : preserves (buffers B) (await cond).
Proof. by apply preserves_await; [|apply buffers_env]. Qed.

Lemma buffers_queue {A : Type} B which (m : M CallQueue A) :
  preserves (buffers B) (zoom (get_queue which) (set_queue which) m).
Proof. by apply preserves_zoom. Qed.

#[local] Hint Resolve buffers_await buffers_queue : raft.
#[local] Hint Extern 2 (preserves (buffers _) (modify _)) => solve [by apply preserves_modify] : raft.
#[local] Hint Extern 2 (preserves (buffers _) (assert _)) => solve [apply preserves_assert] : raft.

Lemma buffers_alloc_request B t a : preserves (buffers B) (alloc_request t a).
Proof.
  unfold alloc_request. apply preserves_bind; [by apply preserves_modify|]. intros _.
  apply preserves_get_bind. intros w. case_match; [|apply preserves_fail].
  apply preserves_bind; [by apply preserves_modify|]. intros _. apply preserves_ret.
Qed.

#[local] Hint Resolve buffers_alloc_request : raft.

Lemma buffers_raft_apply B cmd len t : preserves (buffers B) (CIf.raft_apply cmd len t).
Proof.
  unfold CIf.raft_apply, send_api_request, make_error_request, send_request, queue_put. pres.
Qed.

Lemma buffers_wait B f : preserves (buffers B) (CIf.raft_future_wait f).
Proof. unfold CIf.raft_future_wait, wait. pres. Qed.

(** [send_command] once the call has its answer; [u'] is what reading and
    freeing the reply leaves. *)
Lemma send_command_eq buf w sq sw u p w1 es1 es2 s1 b out u' :
  bufs w !! buf = Some b ->
  CIf.raft_apply buf BUFSIZE 0 w = Ret p w1 -> sched w1 = es1 ++ es2 ->
  slots (run_envs es1 w1) !! p = Some s1 -> poll s1 = true ->
  (if decide (error s1 = RAFT_SUCCESS) then
     retval s1 <> 0 /\ exists n, out = Some n /\ heap u !! retval s1 = Some n /\
       u' = set_heap (delete (retval s1) (heap u)) u
   else out = None /\ u' = u) ->
  exists w', send_command buf (FWorld w sq sw u) = Ret out (FWorld w' sq sw u') /\
    slots w' !! p = None /\ bufs w' = delete buf (bufs w).
Proof.
  intros Hb Ha Hes H1 Hpoll Hout.
  destruct (CIfSpec.raft_apply_issued _ _ _ _ _ _ Ha) as (Hp & Hin & s & Hs & Ht & _ & _).
  destruct (CIfSpec.raft_future_wait_answer p w1 s es1 es2 s1 Hp Hin Hs Hes H1 Hpoll)
    as (w2 & s2 & Hw & Hs2 & Ht2 & _ & Hc2 & Hterm & Ee & Er).
  pose proof (buffers_raft_apply (bufs w) buf BUFSIZE 0 w eq_refl) as B1. rewrite Ha in B1. cbn in B1.
  pose proof (buffers_wait (bufs w) p w1 B1) as B2. rewrite Hw in B2. cbn in B2.
  set (w3 := count_call_free (set_slots (delete p (slots w2)) w2)).
  assert (in_shm (CIf.raft_future_dispose p) (FWorld w2 sq sw u') = Ret () (FWorld w3 sq sw u')) as Hd
    by (apply in_shm_Ret; by eapply CIfSpec.dispose_observed).
  assert (in_shm (free_raft_buffer buf) (FWorld w3 sq sw u') =
    Ret () (FWorld (set_bufs (delete buf (bufs w)) (count_buffer_free w3)) sq sw u')) as Hf.
  { apply in_shm_Ret. unfold free_raft_buffer, free_buf. erewrite bind_Ret by done.
    erewrite bind_Ret by done. unfold buffers in B2. cbn. rewrite B2, Hb. unfold modify. cbn. by rewrite B2. }
  exists (set_bufs (delete buf (bufs w)) (count_buffer_free w3)). split; [|split; [apply lookup_delete_eq|done]].
  unfold send_command. erewrite bind_Ret by (by apply in_shm_Ret).
  erewrite bind_Ret by (by apply in_shm_Ret).
  destruct (decide (error s1 = RAFT_SUCCESS)) as [E|E].
  - destruct Hout as (Hr & n & -> & Hn & ->). erewrite bind_Ret.
    2:{ erewrite bind_Ret by (apply in_shm_Ret, CIfSpec.get_fsm_reply_observed; [done|done|congruence|done]).
        rewrite Ee, Er, decide_True by done. cbv beta iota zeta delta [snd from_option id].
        erewrite bind_Ret by (by apply assert_true, negb_true_iff, Z.eqb_neq).
        erewrite bind_Ret by (apply call_user_Ret; unfold load; erewrite bind_Ret by done; by rewrite Hn).
        erewrite bind_Ret by (apply call_user_Ret; unfold free; erewrite bind_Ret by done; by rewrite Hn).
        done. }
    erewrite bind_Ret by exact Hd. by erewrite bind_Ret by exact Hf.
  - destruct Hout as [-> ->]. erewrite bind_Ret by done.
    erewrite bind_Ret by exact Hd. by erewrite bind_Ret by exact Hf.
Qed.


(** ** The program after the shutdown *)

(** [w'] differs from [w] in its counters only. *)
Definition quiet (w w' : world) : Prop :=
  slots w' = slots w /\ bufs w' = bufs w /\ scoreboard w' = scoreboard w.

(** A call that fails when it is made is waited for and disposed of without a
    trace. *)
Lemma failed_call p s w :
  slots w !! p = None -> p <> 0 -> in_shm_bounds p = true -> poll s = true -> exists w1 w2,
    CIf.raft_future_wait p (with_call p s w) = Ret (error s) w1 /\
    CIf.raft_future_dispose p w1 = Ret () w2 /\ quiet w w2.
Proof.
  intros Hnew Hp Hb Hpoll. set (s1 := observe (clock w) s).
  assert (slots (with_call p s w) !! p = Some s) as Hs by apply lookup_insert_eq.
  exists (with_call p s1 w). eexists. split_and!.
  - unfold CIf.raft_future_wait. rewrite Hb, (proj2 (Z.eqb_neq p 0) Hp). cbn [negb orb].
    erewrite bind_Ret by (by apply (wait_answered p _ s)). rewrite update_with_call.
    erewrite bind_Ret by (apply get_slot_eq, lookup_insert_eq). done.
  - apply (CIfSpec.dispose_observed p _ s1); [apply lookup_insert_eq|done].
  - split_and!; [|done..]. cbn. by rewrite delete_insert_id.
Qed.

Lemma node_new (w : world) p :
  seg_alloc_node (used w) = Some p -> slots w !! p = None /\ p <> 0 /\ in_shm_bounds p = true.
Proof.
  intros E. destruct (node_in_bounds _ _ E). split; [|done].
  apply seg_alloc_node_fresh in E as [Hu _]. apply not_elem_of_dom. unfold used in Hu. set_solver.
Qed.

Lemma take_snapshot_closed w sq sw u p :
  ABQ.closed (api_queue (scoreboard w)) = true -> seg_alloc_node (used w) = Some p ->
  exists w', take_snapshot (FWorld w sq sw u) = Ret false (FWorld w' sq sw u) /\ quiet w w'.
Proof.
  intros Hcl E. destruct (node_new w p E) as (Hnew & Hp & Hb).
  set (s := set_state Error (set_error RAFT_E_IN_SHUTDOWN (sent_slot Snapshot NoArgs (clock w)))).
  destruct (failed_call p s w Hnew Hp Hb eq_refl) as (w1 & w2 & Hw & Hd & Hq).
  exists w2. split; [|done]. unfold take_snapshot.
  erewrite bind_Ret
    by (apply in_shm_Ret, (send_request_closed ApiQueue Snapshot NoArgs w p); [exact E|exact Hcl]).
  erewrite bind_Ret by (apply in_shm_Ret; exact Hw).
  by erewrite bind_Ret by (apply in_shm_Ret; exact Hd).
Qed.

Lemma send_command_closed buf b w sq sw u p :
  ABQ.closed (api_queue (scoreboard w)) = true -> seg_alloc_node (used w) = Some p ->
  bufs w !! buf = Some b ->
  exists w', send_command buf (FWorld w sq sw u) = Ret None (FWorld w' sq sw u) /\
    slots w' = slots w /\ bufs w' = delete buf (bufs w) /\ scoreboard w' = scoreboard w.
Proof.
  intros Hcl E Hbuf. destruct (node_new w p E) as (Hnew & Hp & Hb).
  assert (exists s, CIf.raft_apply buf BUFSIZE 0 w = Ret p (with_call p s w) /\ poll s = true /\
    error s <> RAFT_SUCCESS) as (s & Ha & Hpoll & He).
  { unfold CIf.raft_apply. case_if.
    - eexists. split; [by apply (send_request_closed ApiQueue)|done].
    - eexists. split; [by apply make_error_request_eq|done]. }
  destruct (failed_call p s w Hnew Hp Hb Hpoll) as (w1 & w2 & Hw & Hd & (Q1 & Q2 & Q3)).
  exists (set_bufs (delete buf (bufs w2)) (count_buffer_free w2)). split_and!; [|done|by rewrite <- Q2|done].
  unfold send_command. erewrite bind_Ret by (apply in_shm_Ret; exact Ha).
  erewrite bind_Ret by (apply in_shm_Ret; exact Hw). rewrite decide_False by done.
  erewrite bind_Ret by done. erewrite bind_Ret by (apply in_shm_Ret; exact Hd).
  erewrite bind_Ret; [done|]. apply in_shm_Ret. unfold free_raft_buffer, free_buf.
  erewrite bind_Ret by done. erewrite bind_Ret by done. cbn. assert (bufs w2 !! buf = Some b) as -> by (by rewrite Q2). done.
Qed.

(** The segment has room for one round, [X] being the addresses in use. *)
Definition room (X : gset Z) : Prop :=
  exists buf p q, seg_alloc X BUFSIZE = Some buf /\ seg_alloc_node ({[buf]} ∪ X) = Some p /\
    seg_alloc_node X = Some q.

(** What the loop prints when every call fails. *)
Fixpoint failures (period : Z) (n : nat) (i : Z) : list output :=
  match n with
  | O => []
  | S n => RaftFailed ::
      (if negb (period =? 0) && (i mod period =? 0) then [SnapshotDone false] else []) ++
      failures period n (i + 1)
  end.

Variable garbage : Z -> chars.

Lemma command_buffer_eq fill w sq sw u :
  room (used w) -> exists buf p w1,
    command_buffer garbage fill (FWorld w sq sw u) =
      Ret buf (FWorld w1 sq sw (set_memory (<[buf := fill (garbage buf)]> (memory u)) u)) /\
    slots w1 = slots w /\ bufs w1 = <[buf := BUFSIZE]> (bufs w) /\ scoreboard w1 = scoreboard w /\
    bufs w !! buf = None /\ seg_alloc_node (used w1) = Some p.
Proof.
  intros (buf & p & q & Hbuf & Hp & _).
  exists buf, p, (count_buffer_alloc (set_bufs (<[buf := BUFSIZE]> (bufs w)) w)). split_and!; try done.
  - unfold command_buffer. erewrite bind_Ret.
    2:{ apply in_shm_Ret. unfold alloc_raft_buffer, allocate_buf. erewrite bind_Ret by done. by rewrite Hbuf. }
    by erewrite bind_Ret by (by apply call_user_Ret).
  - apply seg_alloc_fresh in Hbuf as [Hu _]. apply not_elem_of_dom. unfold used in Hu. set_solver.
  - replace (used _) with ({[buf]} ∪ used w); [done|]. unfold used. cbn. set_solver.
Qed.

Lemma auto_loop_closed period n i w sq sw u :
  ABQ.closed (api_queue (scoreboard w)) = true -> room (used w) -> exists w' m,
    auto_loop garbage period n i (FWorld w sq sw u) =
      Ret (failures period n i) (FWorld w' sq sw (set_memory m u)) /\ quiet w w'.
Proof.
  revert i w u. induction n as [|n IH]; intros i w u Hcl Hroom.
  { exists w, (memory u). split; [by destruct u|done]. }
  cbn [auto_loop failures].
  destruct (command_buffer_eq (fun b => snprintf b 256 (auto_text i)) w sq sw u Hroom)
    as (buf & p & w1 & Hc & Es & Eb & Esb & Hnew & Hp).
  set (u1 := set_memory _ u) in Hc.
  destruct (send_command_closed buf BUFSIZE w1 sq sw u1 p) as (w2 & Hsend & Es2 & Eb2 & Esb2);
    [by rewrite Esb|done|rewrite Eb; apply lookup_insert_eq|].
  assert (quiet w w2) as Q2.
  { split_and!; try congruence. by rewrite Eb2, Eb, delete_insert_id. }
  assert (used w2 = used w) as Eu by (destruct Q2 as (Q & Q' & _); unfold used; by rewrite Q, Q').
  set (sn := if negb (period =? 0) && (i mod period =? 0) then [SnapshotDone false] else []).
  assert (exists w3, (if negb (period =? 0) && (i mod period =? 0) then
      ok ← take_snapshot ; mret [SnapshotDone ok] else mret []) (FWorld w2 sq sw u1) =
    Ret sn (FWorld w3 sq sw u1) /\ quiet w w3) as (w3 & Hsn & Q3).
  { unfold sn. destruct (negb (period =? 0) && (i mod period =? 0)); [|by exists w2].
    destruct Hroom as (_ & _ & q & _ & _ & Hq).
    destruct (take_snapshot_closed w2 sq sw u1 q) as (w3 & Ht & (T1 & T2 & T3));
      [by rewrite (proj2 (proj2 Q2))|by rewrite Eu|].
    exists w3. split; [by erewrite bind_Ret by exact Ht|].
    destruct Q2 as (A & B & C). split_and!; congruence. }
  destruct Q3 as (A & B & C).
  destruct (IH (i + 1) w3 u1) as (w4 & m & Hloop & (A' & B' & C'));
    [by rewrite C|unfold used; by rewrite A, B|].
  exists w4, m. split; [|split_and!; congruence].
  erewrite bind_Ret by exact Hc. erewrite bind_Ret by exact Hsend. erewrite bind_Ret by exact Hsn.
  by erewrite bind_Ret by exact Hloop.
Qed.

(** After the shutdown [run_auto] still ends, after exactly [runs] rounds:
    every command and every periodic snapshot is reported as failed, and the
    program leaves no slot and no buffer behind. *)
Theorem run_auto_after_shutdown runs period w sq sw u :
  ABQ.closed (api_queue (scoreboard w)) = true -> room (used w) -> exists w' m,
    run_auto garbage runs period (FWorld w sq sw u) =
      Ret (failures period (Z.to_nat runs) 1) (FWorld w' sq sw (set_memory m u)) /\
    slots w' = slots w /\ bufs w' = bufs w /\ scoreboard w' = scoreboard w.
Proof. apply auto_loop_closed. Qed.

End Program.

(** ** Concrete runs *)

(** An allocator: the first number that is not in use. *)
Definition demo_malloc (used : gset Z) : option Z :=
  if Z.of_nat (size used) <? 2 ^ 32 then
    head (filter (fun p => p ∉ used) (seqZ 1 (Z.of_nat (size used) + 1)))
  else None.

Lemma demo_malloc_fresh used p : demo_malloc used = Some p -> (p ∉ used) /\ 0 < p < 2 ^ 64.
Proof.
  unfold demo_malloc. case_if; [|done]. zbool. intros Hp%head_Some_elem_of.
  apply list_elem_of_filter in Hp as [Hp Hin]. split; [done|]. apply elem_of_seqZ in Hin. lia.
Qed.

Lemma demo_malloc_ok used : Z.of_nat (size used) < 2 ^ 32 -> is_Some (demo_malloc used).
Proof.
  intros Hs. unfold demo_malloc. rewrite (proj2 (Z.ltb_lt _ _) Hs).
  destruct (filter _ _) as [|p l] eqn:Hf; [|by eexists]. exfalso.
  assert (list_to_set (seqZ 1 (Z.of_nat (size used) + 1)) ⊆ used) as Hsub.
  { intros p Hp%elem_of_list_to_set. destruct (decide (p ∈ used)) as [|Hn]; [done|].
    assert (p ∈ filter (fun p => p ∉ used) (seqZ 1 (Z.of_nat (size used) + 1))) as Hin
      by (by apply list_elem_of_filter).
    rewrite Hf in Hin. by apply not_elem_of_nil in Hin. }
  apply subseteq_size in Hsub. rewrite size_list_to_set in Hsub by apply NoDup_seqZ.
  rewrite length_seqZ in Hsub. lia.
Qed.

#[local] Instance demo_heap : Malloc := {| malloc := demo_malloc; malloc_fresh := demo_malloc_fresh |}.

Definition good_io : IO := MkIO (fun _ => true) (fun _ => true) (fun _ => true) (fun _ => true).

(** The buffers of the two commands of [demo_cmds]. *)
Definition demo_client : client :=
  MkClient 100 ∅ {[4104 := lit "ab1cd"; 4120 := lit "x" ++ [NUL] ++ lit "yzzzzz"]} ∅.

Lemma client_counts_letters_witness :
  exists w' u', worker_steps (fsm_def 9 good_io) 2 (FWorld demo_cmds (Deque.Dq [] false) false demo_client) =
      Ret () (FWorld w' (Deque.Dq [] false) false u') /\ letter_count u' = 105 /\
    exists s, slots w' !! 4096 = Some s /\ heap u' !! retval s = Some 104.
Proof.
  destruct (@client_counts_letters demo_segment demo_heap demo_malloc_ok 9 good_io [4096; 4352] [] [entry1; entry2] [4; 1]
    demo_cmds (Deque.Dq [] false) false demo_client) as (w' & u' & Hrun & _ & _ & Hn & Hall).
  - by apply (bool_decide_unpack _).
  - demo_queued.
  - repeat constructor; eexists; (split; [demo_ready|]); (split; [reflexivity|]); by repeat eexists.
  - vm_compute. by split.
  - vm_compute. discriminate.
  - repeat constructor; (eexists; split; [vm_compute; reflexivity|split; [vm_compute; by intros|reflexivity]]).
  - exists w', u'. split; [exact Hrun|]. split; [exact Hn|].
    inversion_clear Hall as [|? ? ? ? (s & Hs & _ & Hh) _]. exists s. split; [exact Hs|exact Hh].
Defined.

(** A snapshot, a command and a restore are queued. *)
Definition demo_session : world :=
  run_envs [ERaftSend 4096 Defs.FSMSnapshot (Filename demo_path); ERaftSend 4352 Defs.FSMApply entry1;
            ERaftSend 4608 Defs.FSMRestore (Filename demo_path)] (init_world false []).

Lemma snapshot_restores_witness :
  exists w' u', snapshot_session 9 good_io 1 (FWorld demo_session (Deque.Dq [] false) false demo_client) =
      Ret () (FWorld w' (Deque.Dq [] false) true u') /\ letter_count u' = 100 /\
    files u' !! lit "/tmp/snap" = Some (lit "100" ++ ["010"%char]) /\ size (heap u') = 1%nat.
Proof.
  destruct (@snapshot_restores demo_segment demo_heap demo_malloc_ok 9 ltac:(done) good_io 4096 [4352] 4608
    [entry1] [4] demo_session demo_client (new_slot Defs.FSMSnapshot (Filename demo_path))
    (new_slot Defs.FSMRestore (Filename demo_path)) demo_path demo_path (lit "/tmp/snap"))
    as (w' & u' & s1 & s2 & Hrun & Hn & Hf & _ & _ & _ & _ & Hsz).
  - done.
  - by apply (bool_decide_unpack _).
  - demo_queued.
  - demo_ready.
  - reflexivity.
  - reflexivity.
  - done.
  - demo_ready.
  - reflexivity.
  - reflexivity.
  - repeat constructor; eexists; (split; [demo_ready|]); (split; [reflexivity|]); by repeat eexists.
  - vm_compute. by split.
  - repeat constructor; (eexists; split; [vm_compute; reflexivity|split; [vm_compute; by intros|reflexivity]]).
  - by repeat split.
  - vm_compute. discriminate.
  - exists w', u'. split; [exact Hrun|]. split; [exact Hn|]. split; [exact Hf|exact Hsz].
Defined.

(** A command in the buffer at 4096, which the Raft process will answer with
    the address 7. *)
Definition demo_sent : world :=
  set_bufs {[4096 := 256]} (init_world false [ERaftTake; ERaftReplyValue 4352 7]).


Definition demo_closed : world :=
  set_queue ApiQueue (ABQ.close_body (get_queue ApiQueue (init_world false []))) (init_world false []).

Lemma run_auto_after_shutdown_witness :
  exists w' m, run_auto (fun _ => []) 3 2 (FWorld demo_closed (Deque.Dq [] false) false demo_client) =
      Ret [RaftFailed; RaftFailed; SnapshotDone false; RaftFailed]
        (FWorld w' (Deque.Dq [] false) false (set_memory m demo_client)) /\ bufs w' = ∅.
Proof.
  destruct (@run_auto_after_shutdown demo_segment (fun _ => []) 3 2 demo_closed (Deque.Dq [] false) false demo_client)
    as (w' & m & Hrun & _ & Hb & _).
  - reflexivity.
  - exists 4096, 4352, 4096. by vm_compute.
  - exists w', m. split; [exact Hrun|exact Hb].
Defined.

End ClientSpec.
