(* ===== verification/RaftProcTest.v ===== *)
(** * The tests of the processes and of snapshots

    The rest of test.cc: the state machine [DummyFSM] with the test [Restore],
    on the worker of FsmWorker.v, and the tests that end the program, on the
    functions of Process.v.  What the Raft process does is what the tests expect
    of it: it hands the commands to the worker, gives the snapshot back after the
    restart, and ends with a status when it is killed or refuses its
    configuration. *)

From stdpp Require Import base tactics list strings gmap.
From Stdlib Require Import ZArith Lia Ascii.
From S2P Require Import Prelude CString Defs Config ArrayQueue Deque Slot Shm ShmSpec CIf FsmWorker FsmSpec Process Client ClientSpec.

Module RaftProcTest.
Import CString Defs Config Slot Shm ShmSpec FsmWorker Process.

(** ** DummyFSM *)

(** [base] has the count, the objects and the files. *)
Record dummy := MkDummy { base : Client.client; snapshots : Z; restores : Z }.

Definition set_base (v : Client.client) (u : dummy) : dummy := MkDummy v (snapshots u) (restores u).
Definition count (u : dummy) : Z := Client.letter_count (base u).

(** [DummyFSM()], with the files that are there. *)
Definition new_dummy (files : gmap chars chars) : dummy :=
  MkDummy (Client.MkClient 0 ∅ ∅ files) 0 0.

Section Code.
Context `{Segment} `{Client.Malloc}.
Variable io : Client.IO.
Variable FSMWriteSnapshot : Z.

Definition in_base {A : Type} (m : M Client.client A) : M dummy A := zoom base set_base m.

Definition dummy_apply (index term : Z) (type : RaftLogType) (cmd len : Z) : M dummy Z :=
  in_base (modify (fun u => Client.set_letter_count (u32 (Client.letter_count u + 1)) u)) ;;
  mret 0.

(** [new] throws, and nothing catches it. *)
Definition dummy_begin_snapshot (path : chars) (s : Z) : M (fworld (U := dummy)) () :=
  u ← call_user get ;
  state ← call_user (in_base (Client.new_object (count u))) ;
  match state with
  | None => fail Aborted
  | Some h => raft_fsm_take_snapshot s h FSMWriteSnapshot
  end.

Definition dummy_restore (path : chars) : M dummy Z :=
  u ← get ;
  match (if Client.can_read io path then Client.files (base u) !! path else None) with
  | None => mret 1
  | Some text =>
      if negb (Client.can_close io path) then mret 1
      else match Client.scan_u text with
           | Some val =>
               in_base (modify (Client.set_letter_count val)) ;;
               modify (fun u => MkDummy (base u) (snapshots u) (u32 (restores u + 1))) ;;
               mret 0
           | None => mret 1
           end
  end.

(** The [unique_ptr] frees the copy at the end. *)
Definition dummy_write_snapshot (handle : Z) (sink : chars) : M dummy Z :=
  state ← in_base (Client.load handle) ;
  n ← in_base (Client.fprintf io sink (print_u state ++ ["010"%char])) ;
  rc ← (if 0 <? n then
          modify (fun u => MkDummy (base u) (u32 (snapshots u + 1)) (restores u)) ;; mret 0
        else mret 1) ;
  in_base (Client.free handle) ;;
  mret rc.

Definition dummy_fsm : RaftFSM (U := dummy) := MkFSM dummy_apply dummy_begin_snapshot dummy_restore.

Definition dummy_host : Host (U := dummy) := MkHost
  (fun path =>
     if Client.can_create io path then
       in_base (u ← get ; modify (Client.set_files (<[path := []]> (Client.files u)))) ;; mret true
     else mret false)
  (fun f h sink => if f =? FSMWriteSnapshot then dummy_write_snapshot h sink else fail BadPointer)
  (fun path => mret (Client.can_close io path)).

(** ** TEST_P(RaftDBFixture, Restore) *)

Definition expect {W : Type} (cond : bool) : M W () := if cond then mret () else throw.

(** The Raft process sends a request to the worker, which handles it. *)
Definition serve (p : Z) (t : CallTag) (a : call_args) : M (fworld (U := dummy)) () :=
  in_shm (modify (run_env (ERaftSend p t a))) ;;
  fsm_worker_step dummy_fsm.

Definition replied (p : Z) (err : RaftError) : M (fworld (U := dummy)) () :=
  s ← in_shm (get_slot p) ;
  expect (is_terminal (state s) && bool_decide (error s = err)).

(** The commands at the addresses [ps], each one after the count has been looked
    at. *)
Fixpoint run_ops (i : Z) (ps : list Z) : M (fworld (U := dummy)) () :=
  match ps with
  | [] => mret ()
  | p :: ps =>
      u ← call_user get ;
      expect (count u =? i) ;;
      serve p Defs.FSMApply (LogEntry (i + 1) 1 RAFT_LOG_COMMAND 8 256) ;;
      replied p RAFT_SUCCESS ;;
      run_ops (i + 1) ps
  end.

(** The snapshot worker writes one snapshot and waits for the next. *)
Definition one_snapshot : M (fworld (U := dummy)) () :=
  job ← zoom snapshot_queue set_snapshot_queue Deque.take ;
  run_snapshot_job dummy_host job.

(** Before the restart: the commands [ps] and the snapshot [p] to [path]. *)
Definition Restore_first (ps : list Z) (p : Z) (path : chars) : M (fworld (U := dummy)) () :=
  let ops := Z.of_nat (length ps) in
  run_ops 0 ps ;;
  u ← call_user get ; expect (count u =? ops) ;;
  serve p Defs.FSMSnapshot (make_Filename (replicate 256 NUL) path) ;;
  one_snapshot ;;
  replied p RAFT_SUCCESS ;;
  u ← call_user get ; expect (snapshots u =? 1).

(** After it, with a new [DummyFSM] that finds the files of the first one. *)
Definition Restore_second (ops p : Z) (path : chars) : M (fworld (U := dummy)) () :=
  serve p Defs.FSMRestore (make_Filename (replicate 256 NUL) path) ;;
  replied p RAFT_SUCCESS ;;
  u ← call_user get ; expect ((count u =? ops) && (restores u =? 1)).

Definition new_process (files : gmap chars chars) : fworld (U := dummy) :=
  FWorld (init_world false []) (Deque.Dq [] false) false (new_dummy files).

Definition Restore (ps : list Z) (p : Z) (path : chars) : bool :=
  match Restore_first ps p path (new_process ∅) with
  | Ret _ x =>
      match Restore_second (Z.of_nat (length ps)) p path (new_process (Client.files (base (user x)))) with
      | Ret _ _ => true
      | _ => false
      end
  | _ => false
  end.

End Code.

(** ** The tests that end the program *)

Section Death.
Context `{Segment} {U : Type}.
Variables (os : OS) (mem : RaftConfig).

(** The watcher, when [waitpid] returns [status] for the Raft process. *)
Definition watcher_sees (status : Z) (x : proc (U := U)) : watch_outcome :=
  let sb := scoreboard (shm (fw x)) in
  watch_raft_proc (raft_pid x)
    [WaitResult (raft_pid x) status (shutdown_requested sb) (raft_killed sb)].

(** The program ends, and its last line says that the process "exited abnormally". *)
Definition dies_of (status : Z) (x : proc (U := U)) : bool :=
  match watcher_sees status x, report_process_status (raft_pid x) status with
  | WatchExits 1, Some (ExitedAbnormally _ _) => true
  | _, _ => false
  end.

(** TEST(RaftProcs, KillRaftDeathTest): the Raft process ends with [status]. *)
Definition KillRaftDeathTest (config : RaftConfig) (status : Z) (x : proc (U := U)) : bool :=
  match (raft_init os mem (Some config) ;; kill_raft_) x with
  | Ret _ x' => dies_of status x'
  | _ => false
  end.

(** TEST(RaftProcs, BadSHMPathDeathTest): [shm_path] is overwritten. *)
Definition BadSHMPathDeathTest (config : RaftConfig) (x : proc (U := U)) : bool :=
  let config := set_shm_path (strncpy (shm_path config) (lit "/dev/whatever" ++ [NUL]) 255) config in
  match raft_init os mem (Some config) x with
  | Fault (ExitProcess 1) => true
  | _ => false
  end.

(** TEST(RaftProcs, InvalidConfigDeathTest): [raft_init] waits for a Raft process
    that ends with [status] before it has said that it runs.  That the time of 5
    is invalid is for the Raft process to say; the C++ side does not look at it. *)
Definition InvalidConfigDeathTest (config : RaftConfig) (status : Z) (x : proc (U := U)) : bool :=
  match raft_init os mem (Some config) x with
  | Block x' => dies_of status x'
  | _ => false
  end.
End Death.

(** ** All tests pass *)

(** A system that has no place for the segment in /dev. *)
Definition no_dev_os : OS :=
  MkOS (fun _ => StatNoEnt) (fun _ => true) (fun path _ => negb (bool_decide (take 5 path = lit "/dev/")))
    (fun _ => true) (fun _ => None) 77 (fun _ => true) (fun _ _ => 0).

(** The processes of the tests before they start; [runs]: the Raft process gets to
    say that it runs. *)
Definition fresh_proc (runs : bool) : proc (U := Z) :=
  Proc (FWorld (init_world false (if runs then [ESetRunning] else [])) (Deque.Dq [] true) false 0)
    None None false 0 false false false [].

(** The statuses with which a process exits abnormally. *)
Definition abnormal : list Z := (fun c => 256 * c) <$> seqZ 1 255.

(** The test [Restore] with five commands, and the three tests in which the
    program has to end, for every abnormal exit status of the Raft process. *)
Theorem raft_proc_tests_pass :
  @Restore demo_segment {| Client.malloc := ClientSpec.demo_malloc;
      Client.malloc_fresh := ClientSpec.demo_malloc_fresh |} ClientSpec.good_io 9
    [4096; 4352; 4608; 4864; 5120] 5376 (lit "/tmp/raft/snapshot" ++ [NUL]) = true /\
  forallb (fun st => KillRaftDeathTest no_dev_os demo_mem demo_config st (fresh_proc true)) abnormal = true /\
  BadSHMPathDeathTest no_dev_os demo_mem demo_config (fresh_proc true) = true /\
  forallb (fun st => InvalidConfigDeathTest no_dev_os demo_mem demo_config st (fresh_proc false)) abnormal = true.
Proof. split_and!; vm_compute; reflexivity. Qed.

End RaftProcTest.
