(* ===== verification/ClientMain.v ===== *)
(** * The example client as a whole

    [main] of raft_client.c: options, [raft_init], the commands, the statistics,
    the shutdown and [raft_cleanup]. *)

From stdpp Require Import base tactics list strings gmap relations.
From Stdlib Require Import ZArith Lia Ascii.
From S2P Require Import Prelude CString Defs Config Jsmn ArrayQueue Deque Slot Shm ShmInv ShmSpec CIf FsmWorker FsmSpec Process Client ClientOpts ClientSpec.

Module ClientMain.
Import CString Defs Config Slot Shm ShmSpec FsmWorker Process Client ClientOpts.

Section Code.
Context `{Segment} `{Malloc}.

(** What the program meets: the system, the options that [getopt_long] returns
    in the two calls of [parse_opts], the input lines, what uninitialised memory
    holds, the address of [write_snapshot], where the threads are when they are joined, and
    what [waitpid] returns. *)
Record Setting := MkSetting {
  st_os : OS;
  st_io : IO;
  st_memory : bool;
  st_options : list option_rec -> list (Z * option chars);
  st_options_again : list option_rec -> list (Z * option chars);
  st_lines : list chars;
  st_config_mem : RaftConfig;
  st_buffer_mem : Z -> chars;
  st_tokens : list Jsmn.jsmntok_t;
  st_write_snapshot : Z;
  st_places : places;
  st_waits : list wait_result
}.

Variable st : Setting.

(** A computation without state of its own: what it returns, or how it ends. *)
Definition pure_part {W A : Type} (r : res () A) : M W A := fun w =>
  match r with
  | Ret a _ => Ret a w
  | Throw _ => Throw w
  | Fault f => Fault f
  | Block _ => Block w
  end.

(** The string at an address. *)
Definition string_at (p : Z) : M client chars :=
  b ← bytes_at p ;
  match c_str b with Some s => mret s | None => fail OutOfBounds end.

(** [parse_opts] in the program; the variables are given back. *)
Definition run_parse_opts (getopt : list option_rec -> list (Z * option chars)) (v : RaftConfig * settings) :
    M (proc (U := client)) (Z * (RaftConfig * settings)) := fun x =>
  match parse_opts (st_memory st) getopt v with
  | Ret rc v' => Ret (rc, v') x
  | Throw _ => Throw x
  | Fault f => Fault f
  | Block _ => Block x
  end.

(** From the statistics to the end. *)
Definition finish : M (proc (U := client)) Z :=
  sf ← in_world CIf.raft_stats ;
  r ← in_world (CIf.raft_future_get_stats sf true) ;
  match r with
  | (RAFT_SUCCESS, Some stats) =>
      text ← in_fw (call_user (string_at stats)) ;
      pure_part (Jsmn.raft_print_stats (st_tokens st) (Some text)) ;;
      sf ← in_world CIf.raft_shutdown ;
      err ← in_world (CIf.raft_future_wait sf) ;
      if decide (err = RAFT_SUCCESS) then
        raft_cleanup (fsm_def (st_write_snapshot st) (st_io st)) (host (st_write_snapshot st) (st_io st))
          (st_places st) (st_waits st) ;;
        mret 0
      else mret 1
  | _ => mret 1
  end.

Definition main : M (proc (U := client)) Z :=
  r ← run_parse_opts (st_options st) (default_config (st_config_mem st), default_settings) ;
  let '(rc, (config, vars)) := r in
  match exit_status rc with
  | Some status => mret status
  | None =>
      raft_init (st_os st) (st_config_mem st) (Some config) ;;
      r ← run_parse_opts (st_options_again st) (config, vars) ;
      let vars := snd (snd r) in
      in_world (await (fun w => is_leader (scoreboard w))) ;;
      in_fw (if interactive vars then run_interactive (st_buffer_mem st) (st_lines st)
             else run_auto (st_buffer_mem st) (runs vars) (snapshot_period vars)) ;;
      finish
  end.

(** ** The end *)

Ltac inv_bind H :=
  let a := fresh "a" in let x := fresh "x" in let E := fresh "E" in
  apply bind_Ret_inv in H as (a & x & E & H).

(** Everything has been ended. *)
Definition ended (x : proc (U := client)) : Prop :=
  mapped x = false /\ fsm_worker x = false /\ orphan_gc_thread x = false /\ raft_watcher x = false.

Lemma in_fw_frame {A : Type} (m : M (fworld (U := client)) A) x a x' :
  in_fw m x = Ret a x' -> exists f, x' = set_fw f x.
Proof. unfold in_fw, zoom. destruct (m (fw x)); intros [= <- <-]; eauto. Qed.

Lemma assert_frame {W : Type} (b : bool) (w w' : W) a : assert b w = Ret a w' -> w' = w.
Proof. destruct b; [|done]. by intros [= _ <-]. Qed.

Lemma join_watcher_frame waits (x x' : proc (U := client)) a : join_watcher waits x = Ret a x' -> x' = x.
Proof.
  unfold join_watcher, mbind, M_bind, get. destruct (watch_raft_proc (raft_pid x) waits); try done.
  by intros [= _ <-].
Qed.

Lemma shm_cleanup_ends here waits (x x' : proc (U := client)) a :
  shm_cleanup here waits x = Ret a x' -> fsm_worker x' = fsm_worker x /\ mapped x' = false /\
    orphan_gc_thread x' = false /\ raft_watcher x' = false.
Proof.
  unfold shm_cleanup. intros Hr. inv_bind Hr. inv_bind Hr. inv_bind Hr. inv_bind Hr. inv_bind Hr. inv_bind Hr.
  inv_bind Hr. inv_bind Hr. injection Hr as <- <-.
  apply in_fw_frame in E as (f1 & ->). apply in_fw_frame in E0 as (f2 & ->). injection E1 as <- <-.
  apply assert_frame in E2 as ->.
  apply in_fw_frame in E3 as (f3 & ->). injection E4 as _ <-. injection E5 as <- <-.
  cbn [raft_watcher set_threads set_fw] in E6. destruct (raft_watcher x) eqn:Hw.
  - apply bind_Ret_inv in E6 as (? & y & Ej & E6). apply join_watcher_frame in Ej as ->.
    injection E6 as _ <-. done.
  - injection E6 as _ <-. done.
Qed.

Lemma raft_cleanup_ends fsm hst here waits (x x' : proc (U := client)) a :
  raft_cleanup fsm hst here waits x = Ret a x' -> ended x'.
Proof.
  unfold raft_cleanup. intros Hr. inv_bind Hr. inv_bind Hr. inv_bind Hr. inv_bind Hr. inv_bind Hr.
  inv_bind Hr. inv_bind Hr. inv_bind Hr. inv_bind Hr.
  injection E3 as _ <-. apply in_fw_frame in E4 as (f1 & ->). apply in_fw_frame in E5 as (f2 & ->). injection E6 as <- <-.
  apply shm_cleanup_ends in Hr as (Hf & Hm & Hg & Hw).
  assert (fsm_worker x8 = false) as Hx; [|unfold ended; split_and!; congruence].
  cbn [fw set_fw set_threads snapshot_worker] in E7.
  destruct (snapshot_worker _).
  - apply bind_Ret_inv in E7 as (? & y & Ej & E7). apply in_fw_frame in Ej as (f3 & ->).
    by apply in_fw_frame in E7 as (f4 & ->).
  - by injection E7 as _ <-.
Qed.

Lemma exit_status_zero rc : exit_status rc = Some 0 -> rc = -3.
Proof. unfold exit_status. repeat (case_if; zbool; try done). Qed.

(** An exit status of 0 means what it says: [main] returns 0 only if the user
    asked for help, and then nothing was started, or after a complete run, and
    then the segment is unmapped and every thread has been joined. *)
Theorem main_exit_zero x x' :
  main x = Ret 0 x' ->
  (x' = x /\ exists v, parse_opts (st_memory st) (st_options st)
     (default_config (st_config_mem st), default_settings) = Ret (-3) v) \/ ended x'.
Proof.
  unfold main. intros Hr. inv_bind Hr. destruct a as [rc [config vars]].
  unfold run_parse_opts in E.
  destruct (parse_opts _ _ _) as [rc' v'| | |] eqn:Ep; try done. injection E as -> -> <-.
  destruct (exit_status rc) as [status|] eqn:Es.
  - left. injection Hr as -> ->. apply exit_status_zero in Es as ->. eauto.
  - right. inv_bind Hr. inv_bind Hr. inv_bind Hr. inv_bind Hr. unfold finish in Hr.
    inv_bind Hr. inv_bind Hr. destruct a4 as [err [stats|]]; destruct err; try done.
    inv_bind Hr. inv_bind Hr. inv_bind Hr. inv_bind Hr. case_decide; [|done].
    inv_bind Hr. injection Hr as <-. by eapply raft_cleanup_ends.
Qed.

End Code.

(** ** A complete run *)

#[local] Existing Instance ClientSpec.demo_heap.

Definition demo_setting : Setting := {|
  st_os := good_os;
  st_io := ClientSpec.good_io;
  st_memory := true;
  st_options _ := [(chr "n", Some (lit "1"))];
  st_options_again _ := [];
  st_lines := [];
  st_config_mem := demo_mem;
  st_buffer_mem _ := replicate 256 "x"%char;
  st_tokens := replicate 64 (Jsmn.Tok Jsmn.JSMN_ARRAY 1 2 3);
  st_write_snapshot := 9;
  st_places := demo_places FsmTop;
  st_waits := [WaitResult 77 0 true false]
|}.

(** The Raft process starts, becomes the leader, answers the command with the
    object at 7, the statistics with the string at 12288, and the shutdown. *)
Definition demo_start : proc (U := client) :=
  Proc (FWorld (init_world false
    [ESetRunning; ESetLeader true; ERaftTake; ERaftReplyValue 4352 7; ERaftTake;
     ERaftReplyValue 4096 8192; ERaftTake; ERaftReply 4352 RAFT_SUCCESS]) (Deque.Dq [] true) false
    (MkClient 0 {[7 := 11]} {[12288 := lit "{}" ++ [NUL]]} ∅))
    None None false 0 false false false [].

Lemma main_exit_zero_witness :
  match main demo_setting demo_start with
  | Ret status x' => status = 0 /\ ended x' /\ heap (user (fw x')) = ∅
  | _ => False
  end.
Proof.
  destruct (main demo_setting demo_start) as [status x'| | |] eqn:E; [|vm_compute in E; discriminate..].
  assert (status = 0) as -> by (vm_compute in E; by injection E).
  split; [done|].
  destruct (main_exit_zero demo_setting demo_start x' E) as [[_ [v Hv]]|He].
  - vm_compute in Hv. discriminate.
  - split; [exact He|]. vm_compute in E. by injection E as <-.
Defined.

End ClientMain.
